(* ===== verification/_CoqProject ===== *)
-Q . S2P
Prelude.v
Layout.v
Conc.v
RingBuffer.v
Cpu.v
Barrier.v
Spsc.v
SpscSpec.v
SpscDrop.v
SpscProducer.v
SpscConsumer.v
SpscFifo.v
SpscSeq.v
Mpsc.v
MpscBitmap.v
MpscFaults.v
MpscSpec.v
MpscSteps.v
MpscProducer.v
MpscConsumer.v
MpscQueue.v
SeqLock.v
Net.v
Leader.v
LeaderSpec.v
TxQueue.v
SessionCache.v
Pool.v
PoolSpec.v
Dirty.v
Histogram.v
Strategy.v
Timing.v
TimingSpec.v
Quic.v
QuicModel.v
IoUring.v
IoUringSpec.v
Endpoint.v
EndpointSpec.v
EndpointRun.v
EndpointFaults.v
Sender.v
SenderSpec.v
SenderRun.v
Unroll.v
Date.v
Str.v
Timer.v
Request.v
Http.v
HttpSpec.v
Server.v
ServerSpec.v
ServerRun.v
ServerLive.v
Scan.v
Client.v
ClientSpec.v
Pubsub.v
PubsubSpec.v
Tls.v
TlsSpec.v
Affinity.v
Addr.v
Startup.v
Lifecycle.v
ClientTls.v
Worker.v
Batch.v
QuicClient.v
Service.v
ServiceSpec.v
ServiceStop.v
Delivery.v
Main.v
MainSpec.v
