(* ===== verification/Prelude.v ===== *)
(** * Verification of land: lock-free channels, leader tracking, QUIC session
      state and the RPC front end

    The repository is a Solana transaction service.  An HTTP/JSON-RPC front end
    ([server]) hands transactions over lock-free channels ([channel]) to a worker
    that sends them by QUIC ([quic]) to the current leader validators, which a
    busy loop ([leader]) reads from an epoch schedule and publishes in a buffer
    under a sequence lock ([sync] and [leader_buffer.rs]); slots arrive over a
    websocket ([pubsub]); [timing] measures, [cpu] and [core] pin and wire.
    This library models the parts that carry the program's own logic and proves
    what makes them correct.  All paths below are under [src/].

    ** Reading guide

    Shared by all files
    - [Layout]: the memory layout of [repr(C)] types, [cpu/src/cache_padded.rs] and the
      types that are padded; padded fields have their cache lines to themselves.
    - [Prelude]: [Result], abnormal outcomes ([fault]), machine integers, lemmas
      on powers of two, bit fields and lists.
    - [Conc]: programs as trees of atomic actions ([prog]), run alone ([run]) or
      interleaved ([pool_step], [run_sched]); the rely-guarantee precondition
      [wp] and its soundness for a pool of threads ([pool_sound]).

    Channels, [channel/src] and [cpu/src]
    - [RingBuffer]: [ringbuffer.rs].  A slot is uninitialised, live or moved out;
      reading or dropping anything but a live slot is [UndefinedBehaviour].
    - [Cpu]: [cursor.rs], [wait_strategy.rs], [common/backoff.rs].  [WaitStrategy]
      is a class, [WaitStrategyOk] what the channel relies on; the four
      strategies are instances.
    - [Barrier]: [barrier.rs] and the error types of [error.rs]; a wait on several
      cursors does not return before all of them are there.
    - [Spsc]: [spsc/*.rs], one definition per method of the producer, the
      consumer and the batches, and the drop of each; events mark the points at
      which values are sent, received and dropped.
    - [SpscSpec]: the abstract bounded FIFO queue ([fifo_step]), the invariant and
      the guarantees; [SpscDrop], [SpscProducer], [SpscConsumer]: every operation
      keeps them; [SpscFifo]: the refinement for arbitrary clients and
      interleavings, and exactly-once ownership; [SpscSeq]: what each blocking and
      non-blocking operation does by itself, and two executions in which the
      channel departs from its documentation.
    - [Mpsc]: [mpsc/*.rs] in the same style; [MpscBitmap]: the availability bitmap
      represents the published sequences, batch publication and the word scan
      are equivalent to their one-at-a-time references; [MpscFaults]: capacities
      below 64 and leaked claims.
    - [MpscSpec]: the abstract ticket queue and the invariant of the channel with
      any number of producers; [MpscSteps]: each kind of action keeps it;
      [MpscProducer], [MpscConsumer]: the operations; [MpscQueue]: the refinement,
      the order of delivery and the early report of [recv_batch].

    Sequence lock and leaders
    - [SeqLock]: [sync/src/seqlock.rs] over a value of several words, each copied
      separately: none of the four ways to read gives a torn value, each answers at once
    when no write is under way, read after write.
    - [Net]: the part of [std::net] that is used.
    - [Leader]: [leader/src/leader_entry.rs], [leader_buffer.rs],
      [schedule_fetcher.rs], [tracker.rs].  RPC answers and the base58 and address
      parsers are parameters of [refresh].  [LeaderLookup] is the interface
      ([traits/src/lib.rs]) through which the sender reads the buffer.
    - [LeaderSpec]: the window of the schedule the buffer stands for; the loop
      keeps it, a refresh serves the schedule; two executions that misalign it.

    QUIC, [quic/src]
    - [TxQueue]: the transaction queue of [connection.rs], by itself a FIFO of
      packets; with two threads it is not.
    - [SessionCache]: [session_cache.rs]; round trip and soundness for one thread
      at a time, a stale ticket and a wrong ticket otherwise.
    - [Pool]: [pool.rs], state passing (the endpoint owns the pool), connections
      a parameter; [PoolSpec]: it is a map from addresses to slots.
    - [Dirty]: the dirty bitmap of [pool.rs] and the bit loop of [endpoint.rs]'s
      [poll]; it refines a set under every interleaving, and what a poll returns is what
      it took out of that set.
    - [Strategy]: [strategy.rs] and [config.rs]; [Timing]: [timing_registry.rs] and
      the adaptive lookahead of [endpoint.rs]; [TimingSpec]: the lookahead is within
      its bounds, the two kinds of configuration for which it panics, and the time
      expected of a peer is the percentile asked for.
    - [Quic]: [error.rs], the [QuicConnection] of [connection.rs], the interfaces
      [quiche_api] and [udp_api] of the two libraries, and the monad [M] of the
      endpoint (state, errors, faults) with its rules; [QuicModel]: a small instance
      for examples.
    - [Endpoint]: [endpoint.rs]; [EndpointSpec]: the invariant and that no operation
      or query panics while the adaptive configuration makes sense; [EndpointRun]: what becomes of a transaction that is queued during
      the handshake, and the termination of the send loop; [EndpointFaults]: a
      transaction and a handshake that are left behind.
    - [Sender]: [sender.rs] and [prewarm.rs] over the interface [endpoint_api];
      [SenderSpec]: its laws ([endpoint_laws], satisfied by the endpoint) and what a
      fanout sends; [SenderRun]: when the adaptive prewarming connects, the backup
      leaders and the prewarm thread.
    - [IoUring]: [io_uring_backend.rs], with the memory the kernel reads made
      explicit; [IoUringSpec]: the kernel sends what was submitted, once, and never
      follows a dangling pointer.
    - [QuicClient]: opening an endpoint, its loops and the client of [lib.rs]; what
      becomes of [main] with a bad keypair file.
    - [Tls]: [tls.rs] and the configuration part of [endpoint.rs]; [TlsSpec]: base 58
      and base 64, and that the identity in the keypair file is the one presented,
      against readers of PEM and DER.

    Timing and server
    - [Histogram]: [timing/src/histogram.rs]; percentiles against the sorted
      samples, with binary64 arithmetic from the standard library's [SpecFloat].
    - [Timer]: the rest of [timing/src]: time stamp counter, timers, registry; what
      a timer measures is the true time up to a cycle and a nanosecond.
    - [Unroll]: [unroll/src/unroll.rs], the rules of the macro as tables; the
      expansion is the loop.
    - [Date]: [server/src/date.rs] against the closed formula of the calendar.
    - [Str]: the string operations the server uses, UTF-8 included.
    - [Request]: [server/src/request.rs] and [error.rs]; the JSON library is the
      parameter [from_value].
    - [Http]: [server/src/http.rs] and the receive side of [server.rs]'s
      [Connection]; [HttpSpec]: a printer of requests and the framing and parsing
      round trip.
    - [Server]: [server.rs], [queue.rs], [worker.rs] and [config.rs]: connections, the
      connection pool, every handler of the event loop and the worker's rounds, as
      one step function over the events of the poll; [ServerSpec]: its invariant;
      [ServerRun]: integrity of the streams, routing of replies, order of
      transmission; [ServerLive]: pending requests are answered, and a half-closed
      connection whose request is lost.
    - [Client]: [client/src], over a plain stream; [ClientSpec]: the server takes in
      what the client sends, the client gets the server's answer however the stream
      cuts it, and a refused connection that is taken for a good one; [ClientTls]: the
      same over TLS, with rustls a parameter ([rustls_api], [rustls_ok]).
    - [Worker]: [server/src/worker.rs] over the QUIC sender, an implementation of the
      worker of [Server]; [Batch]: its loop with the array of uninitialised slots and
      the prefetching, equal to the one with a list.
    - [Service]: [run_with_sender] with the worker thread it starts: event loop, bounded
      queues and shutdown flag as one program; [ServiceSpec]: it refines [Server];
      [ServiceStop]: bounds, when the two threads wait for each other, and the end of
      the program after a shutdown.
    - [Delivery]: tracker, sender and worker over one leader buffer; transactions go to
      the leaders of the schedule.
    - [Scan]: substring search and trimming, shared by the files that read text.
    - [Pubsub]: [pubsub/src] and [leader/src/slot_subscriber.rs]; [PubsubSpec]: the
      subscriber understands what a websocket server sends, and the shared slot
      follows the notifications in every interleaving.
    - [Lifecycle]: [start] and [stop] of the tracker and the two subscribers, with the
      threads they start as one system of steps; shutting down is complete and ends.

    Start-up
    - [Affinity]: [cpu/src/affinity.rs], [topology.rs] and the core allocation of
      [core/src/config.rs]; the cores chosen exist and are different.
    - [Addr]: socket addresses as text ([std::net]).
    - [Startup]: [core/src/config.rs], [core/src/main.rs] and [leader/src/config.rs];
      the configurations that [main] wires together fit together, and the exits of
      [main] before it runs.
    - [Main]: [main] and [core/src/warmup.rs] with the threads they start, on top of
      [Lifecycle] and [Service]; [MainSpec]: parts are started and stopped in order.

    How the parts fit: [MainSpec] runs the tracker of [Lifecycle] and the server of
    [Service] side by side; [ServiceSpec] reduces the service to the steps of [Server],
    of which [ServerRun] and [ServerLive] speak; [Worker] and [Batch] implement the
    worker's steps with the sender of [Sender], which runs on the endpoint of
    [Endpoint]; [Delivery] joins them with the tracker's buffer of [Leader].

    ** Modelling decisions

    - Interleavings are sequentially consistent: every atomic access (and every
      access to a slot, a word or a counter that other threads may touch) is one
      action.  Reorderings that weaker memory orders would allow are outside the
      model; a write to a ring buffer slot is two actions, so that a racing
      reader sees an uninitialised slot.
    - Loops that wait for another thread take a fuel argument and return [None]
      when still waiting; statements quantify over all fuels, or give a fuel that
      is enough: one round when there is room or a value, two words more than the
      span of claims for [highest_published], one year per 365 days for the
      calendar, one round per queued packet and one more for [drain].  The loop
      that sends quiche's packets has as fuel the bound [q_pending] that quiche's
      state gives; [send_pending_terminates] shows that it is enough.
    - Sequence numbers ([i64]), slots and queue counters are unbounded integers;
      theorems that depend on their size say so.  Counters that wrap in practice
      (versions, eviction counter, histogram) wrap at [2^64].  Arithmetic in
      release builds wraps and does not panic.
    - [Arc] is a strong count; dropping the last handle runs the drop of the
      shared state.  Logging and CPU hints are left out, padding outside [Layout] and
      prefetching outside [Batch]: they have no effect on values.
    - Queues of unbounded length stand for the channels in [Server], [Worker] and
      [Pubsub]; [Service] has their capacity, and a send into a full queue waits.  They are
      bounded FIFOs because [SpscFifo] and [MpscQueue] say so of the channels; the
      latter holds for capacities that are a multiple of 64, so [Service] and [Main]
      speak of queue sizes that are powers of two from 64 on ([sound_capacity]; the
      default is 4096, and [validate] accepts smaller sizes, see [MpscFaults]).
    - The channels are used as their contracts ask: claims (zero-copy writes) only on
      a channel made with a factory and then without receiving by value, no claims of
      batches on an MPSC channel in [MpscQueue]; what happens otherwise is shown in
      [SpscSeq] and [MpscFaults].
    - Delivery uses one schedule for the whole run; [Lifecycle] has the refreshes.
    - Clocks and I/O results are arguments.

    ** Not modelled

    Sockets; the scheduling of threads other than as sequences of steps; quiche, ring,
    rustls and the kernel, which are parameters or environment; memory fences and weak
    memory orders; formatting for [Debug] and [Display]; examples, benches and tests.

    ** Plan

    Every crate is modelled.  What a continuation could add is not more of the program
    but a finer machine: weak memory orders for the channels and the sequence locks,
    and the loss recovery of the QUIC library in place of its interface. *)
From stdpp Require Export base numbers list gmap strings.
From Stdlib Require Export ZArith Lia.
#[global] Open Scope Z_scope.

(** ** Rust's [Result] *)
Inductive Result (A B : Type) : Type :=
| Ok (a : A)
| Err (b : B).
Arguments Ok {A B} a.
Arguments Err {A B} b.

(** ** Abnormal outcomes *)

(** A [Panic] is an [assert!], an out-of-range slice index or an arithmetic
    trap; [UndefinedBehaviour] is an access that the [unsafe] blocks promise
    never to make: a slot outside the buffer, or one without a live value. *)
Inductive fault : Type :=
| Panic (msg : string)
| UndefinedBehaviour (msg : string).

(** ** Machine integers *)

Definition U64 : Z := 2 ^ 64.
Definition U32 : Z := 2 ^ 32.
Definition U64_MAX : Z := U64 - 1.
Definition I64_MAX : Z := 2 ^ 63 - 1.

(** [x as usize] (and [x as u64]): reduction modulo [2^64]. *)
Definition as_usize (z : Z) : Z := z mod U64.

(** [a.wrapping_add(b)] on [u64] and [u32]. *)
Definition wrapping_add64 (a b : Z) : Z := (a + b) mod U64.
Definition wrapping_add32 (a b : Z) : Z := (a + b) mod U32.

(** [a.saturating_sub(b)] on unsigned integers. *)
Definition saturating_sub (a b : Z) : Z := Z.max 0 (a - b).

(** [!x] on [u64]. *)
Definition not64 (z : Z) : Z := U64_MAX - z.

Lemma not64_bits z k : 0 <= z < U64 -> 0 <= k < 64 -> Z.testbit (not64 z) k = negb (Z.testbit z k).
Proof.
  intros Hz Hk. assert (He : not64 z = Z.lnot z mod 2 ^ 64).
  { unfold not64, U64_MAX, U64 in *. apply (Z.mod_unique _ _ (-1)); rewrite ?Z.lnot_eq_pred_opp; unfold Z.lnot; lia. }
  rewrite He, Z.mod_pow2_bits_low, Z.lnot_spec by lia. done.
Qed.

(** [1u64 << i] for [i < 64]. *)
Definition bit64 (i : Z) : Z := Z.shiftl 1 i.

(** ** Powers of two *)

Definition is_pow2 (n : Z) : Prop := exists k, 0 <= k /\ n = 2 ^ k.

Lemma pow2_pos n : is_pow2 n -> 0 < n.
Proof. intros (k & Hk & ->). apply Z.pow_pos_nonneg; lia. Qed.

(** The classical test [n != 0 && n & (n - 1) == 0]: two different powers
    below [n] would leave the top bit of [n] set in [n - 1] as well. *)
Lemma land_pred_pow2 n : 0 < n -> (Z.land n (n - 1) = 0 <-> is_pow2 n).
Proof.
  intros Hn. split.
  - intros H. exists (Z.log2 n). split; [apply Z.log2_nonneg|].
    destruct (Z.log2_spec n Hn) as [Hlo Hhi].
    destruct (Z.eq_dec n (2 ^ Z.log2 n)) as [|Hne]; [done|exfalso].
    assert (Hb : Z.testbit (Z.land n (n - 1)) (Z.log2 n) = true).
    { rewrite Z.land_spec, Z.bit_log2 by lia. simpl.
      assert (Hl : Z.log2 (n - 1) = Z.log2 n).
      { apply Z.log2_unique; [apply Z.log2_nonneg|].
        rewrite Z.pow_succ_r in * by apply Z.log2_nonneg. lia. }
      rewrite <- Hl. apply Z.bit_log2.
      pose proof (Z.pow_pos_nonneg 2 (Z.log2 n)). pose proof (Z.log2_nonneg n). lia. }
    rewrite H, Z.testbit_0_l in Hb. done.
  - intros (k & Hk & ->). rewrite Z.sub_1_r, <- Z.ones_equiv, Z.land_ones by lia.
    apply Z_mod_same_full.
Qed.

(** Masking with [n - 1] is reduction modulo [n] when [n] is a power of two. *)
Lemma land_mask_mod x n : is_pow2 n -> Z.land x (n - 1) = x mod n.
Proof.
  intros (k & Hk & ->). rewrite Z.sub_1_r, <- Z.ones_equiv, Z.land_ones by lia. done.
Qed.

(** Joining disjoint bit fields is addition. *)
Lemma lor_field x y k : 0 <= k -> 0 <= y < 2 ^ k -> Z.lor (x * 2 ^ k) y = x * 2 ^ k + y.
Proof.
  intros Hk Hy. rewrite <- Z.lxor_lor, <- Z.add_nocarry_lxor; [done| |];
    (apply Z.bits_inj'; intros i Hi; rewrite Z.land_spec, Z.bits_0;
     destruct (Z.ltb_spec i k);
     [rewrite Z.mul_pow2_bits_low by lia; done|
      rewrite <- (Z.mod_small y (2 ^ k)), Z.mod_pow2_bits_high by lia; by rewrite andb_false_r]).
Qed.

(** ** Updating one element of a list *)

Lemma list_alter_alter {A} (f g : A -> A) i (l : list A) :
  alter f i (alter g i l) = alter (fun x => f (g x)) i l.
Proof. revert i. induction l as [|x l IH]; intros [|i]; simpl; [done..|]. f_equal. apply IH. Qed.

Lemma list_alter_same {A} (f g : A -> A) i (l : list A) :
  (forall x, f x = g x) -> alter f i l = alter g i l.
Proof.
  intros Hfg. revert i. induction l as [|x l IH]; intros [|i]; simpl; [done..| |].
  - by rewrite Hfg.
  - f_equal. apply IH.
Qed.

Lemma list_alter_id {A} (f : A -> A) i (l : list A) : (forall x, f x = x) -> alter f i l = l.
Proof.
  intros Hf. revert i. induction l as [|x l IH]; intros [|i]; simpl; [done..| |].
  - by rewrite Hf.
  - f_equal. apply IH.
Qed.

Lemma list_alter_at {A} (f : A -> A) i (l : list A) x :
  l !! i = Some x -> alter f i l = <[i := f x]> l.
Proof.
  revert i. induction l as [|y l IH]; intros [|i] Hx; simpl in *; [done..| |].
  - by simplify_eq.
  - f_equal. by apply IH.
Qed.

Lemma list_lookup_alter_cases {A} (f : A -> A) i j (l : list A) y :
  alter f i l !! j = Some y -> (j = i /\ exists x, l !! i = Some x /\ y = f x) \/ (j <> i /\ l !! j = Some y).
Proof.
  destruct (decide (j = i)) as [->|Hne].
  - rewrite list_lookup_alter_eq. intros (x & Hx & ->)%fmap_Some. left. eauto.
  - rewrite list_lookup_alter_ne by done. auto.
Qed.

Lemma list_filter_ext_in {A} (P Q : A -> Prop) `{!forall x, Decision (P x)} `{!forall x, Decision (Q x)} (l : list A) :
  (forall x, x ∈ l -> P x <-> Q x) -> filter P l = filter Q l.
Proof.
  induction l as [|x l IH]; intros Hl; [done|]. rewrite !filter_cons.
  rewrite IH by (intros y Hy; apply Hl; by right). pose proof (Hl x ltac:(left)).
  destruct (decide (P x)), (decide (Q x)); tauto.
Qed.

(** ** Parity *)

(** A property of the integers below [n], checked one by one. *)
Lemma seqZ_forallb (f : Z -> bool) (a n x : Z) :
  forallb f (seqZ a n) = true -> a <= x < a + n -> f x = true.
Proof. rewrite forallb_forall. intros H Hx. apply H, list_elem_of_In, elem_of_seqZ. lia. Qed.

Lemma land_1_odd z : Z.land z 1 = Z.b2z (Z.odd z).
Proof.
  change 1 with (Z.ones 1). rewrite Z.land_ones by lia. change (2 ^ 1) with 2.
  rewrite Zmod_odd. by destruct (Z.odd z).
Qed.

Lemma land_1_eqb z : (Z.land z 1 =? 1) = Z.odd z.
Proof. rewrite land_1_odd. by destruct (Z.odd z). Qed.
