(* ===== verification/Layout.v ===== *)
(** * Layout: where the bytes of a type are

    [cpu/src/cache_padded.rs] and the types that other threads write to.  The sizes,
    alignments and field offsets of [repr(C)] are those of the language; for a type
    without it only what the language promises is used ([placed]).  A cache line has
    64 bytes; two threads that write to one line slow each other down (false
    sharing), which is what the padding is for. *)
From S2P Require Import Prelude.

(** ** Layouts *)

(** Size and alignment in bytes; the alignment is a power of two. *)
Record Layout : Type := { size : Z; align_log : nat }.
Definition align (l : Layout) : Z := 2 ^ Z.of_nat (align_log l).

Definition u8 : Layout := {| size := 1; align_log := 0 |}.
Definition u16 : Layout := {| size := 2; align_log := 1 |}.
Definition u64 : Layout := {| size := 8; align_log := 3 |}.
Definition array (n : Z) (l : Layout) : Layout := {| size := n * size l; align_log := align_log l |}.

Definition round_up (n a : Z) : Z := (n + a - 1) / a * a.

(** [repr(C)]: each field at the next offset that fits its alignment. *)
Fixpoint field_offsets (at_ : Z) (fields : list Layout) : list Z :=
  match fields with
  | [] => []
  | f :: fields => let o := round_up at_ (align f) in o :: field_offsets (o + size f) fields
  end.
Fixpoint fields_end (at_ : Z) (fields : list Layout) : Z :=
  match fields with [] => at_ | f :: fields => fields_end (round_up at_ (align f) + size f) fields end.

(** The alignment asked for with [align(2^n)], and the one the fields need. *)
Definition repr_c (n : nat) (fields : list Layout) : Layout :=
  let a := foldr Nat.max n (align_log <$> fields) in
  {| size := round_up (fields_end 0 fields) (2 ^ Z.of_nat a); align_log := a |}.

(** ** The types *)

(** [CachePadded<T>] is its value; [get_mut] and [deref_mut] hand out a reference
    through which a caller does [f]. *)
Record CachePadded (A : Type) : Type := padded_new { value : A }.
Arguments padded_new {A}.
Arguments value {A}.
Definition into_inner {A} (p : CachePadded A) : A := value p.
Definition get_mut {A} (f : A -> A) (p : CachePadded A) : CachePadded A := padded_new (f (value p)).

Definition CACHE_LINE_SIZE : Z := 64.

(** [#[repr(C, align(64))] struct CachePadded<T>] *)
Definition cache_padded (t : Layout) : Layout := repr_c 6 [t].

(** [AtomicU64], [AtomicI64] and [AtomicUsize] are laid out as [u64], [AtomicBool] as [u8]. *)
Definition cursor : Layout := repr_c 0 [cache_padded u64].
Definition version : Layout := repr_c 0 [cache_padded u64].
Definition seqlock_fields (t : Layout) : list Layout := [version; t].

(** [Pubkey] is an array of bytes. *)
Definition pubkey : Layout := array 32 u8.
Definition leader_entry_fields : list Layout :=
  [pubkey; array 4 u8; u16; array 4 u8; u16; u64; array 8 u8].
Definition leader_entry : Layout := repr_c 6 leader_entry_fields.
Definition leader_buffer_fields : list Layout :=
  [cache_padded u64; array 10 leader_entry; cache_padded u64].
Definition leader_buffer : Layout := repr_c 0 leader_buffer_fields.

(** The layouts of [SocketAddr] and of the connection are the compiler's. *)
Definition connection_slot_fields (addr connection : Layout) : list Layout :=
  addr :: connection :: cache_padded u8 :: replicate 6 (cache_padded u64).

(** ** What the language promises of fields *)

Definition wf (l : Layout) : Prop := 0 <= size l /\ (align l | size l).

(** Fields in any order: aligned, inside, and not over each other. *)
Record placed (fields : list Layout) (offsets : list Z) (l : Layout) : Prop := {
  placed_inside i f o : fields !! i = Some f -> offsets !! i = Some o ->
    0 <= o /\ (align f | o) /\ o + size f <= size l /\ (align_log f <= align_log l)%nat;
  placed_disjoint i j f g o u : i <> j -> fields !! i = Some f -> fields !! j = Some g ->
    offsets !! i = Some o -> offsets !! j = Some u -> o + size f <= u \/ u + size g <= o;
}.

(** Some byte of one range is on the cache line of some byte of the other. *)
Definition shares_line (a n b m : Z) : Prop :=
  exists x y, a <= x < a + n /\ b <= y < b + m /\ x / CACHE_LINE_SIZE = y / CACHE_LINE_SIZE.

Lemma align_pos l : 0 < align l.
Proof. unfold align. apply Z.pow_pos_nonneg; lia. Qed.

Lemma round_up_spec n a : 0 < a -> (a | round_up n a) /\ n <= round_up n a < n + a.
Proof.
  intros Ha. unfold round_up. split; [apply Z.divide_factor_r|].
  pose proof (Z.div_mod (n + a - 1) a). pose proof (Z.mod_pos_bound (n + a - 1) a). nia.
Qed.

Lemma pow2_divide (a b : nat) : (a <= b)%nat -> (2 ^ Z.of_nat a | 2 ^ Z.of_nat b).
Proof. intros H. exists (2 ^ Z.of_nat (b - a)). rewrite <- Z.pow_add_r by lia. f_equal. lia. Qed.

Lemma foldr_max_ge (n : nat) (ls : list nat) x : x = n \/ x ∈ ls -> (x <= foldr Nat.max n ls)%nat.
Proof.
  intros H. induction ls as [|y ls IH]; simpl.
  - destruct H as [->|H]; [lia|by apply not_elem_of_nil in H].
  - rewrite elem_of_cons in H. destruct H as [H|[->|H]]; [| lia |]; (transitivity (foldr Nat.max n ls); [apply IH; auto|lia]).
Qed.

(** *** The offsets of [repr(C)] *)

Lemma fields_end_ge fields : Forall wf fields -> forall a, a <= fields_end a fields.
Proof.
  induction 1 as [|f fields [Hs _] _ IH]; intros a; cbn [fields_end]; [lia|].
  pose proof (round_up_spec a (align f) (align_pos f)). specialize (IH (round_up a (align f) + size f)). lia.
Qed.

(** The field number [i] starts after [a], ends before the end, and what follows
    starts behind it. *)
Lemma field_offset fields : Forall wf fields -> forall a i f o,
  fields !! i = Some f -> field_offsets a fields !! i = Some o ->
  a <= o /\ (align f | o) /\ o + size f <= fields_end a fields /\
  forall j u, (i < j)%nat -> field_offsets a fields !! j = Some u -> o + size f <= u.
Proof.
  induction 1 as [|f fields [Hs Hd] Hwf IH]; intros a i f' o Hf Ho; [done|].
  pose proof (round_up_spec a (align f) (align_pos f)) as [Hr1 Hr2]. cbn [field_offsets fields_end] in *.
  assert (Hafter : forall j u, field_offsets (round_up a (align f) + size f) fields !! j = Some u ->
                    round_up a (align f) + size f <= u).
  { intros j u Hu. destruct (lookup_lt_is_Some_2 fields j) as [g Hg].
    - apply lookup_lt_Some in Hu. revert Hu. generalize (round_up a (align f) + size f).
      clear. revert j. induction fields as [|g fields IH]; intros j b Hj; cbn in *; [lia|].
      destruct j; [lia|]. pose proof (IH j (round_up b (align g) + size g)). lia.
    - by apply (IH _ j g u Hg Hu). }
  destruct i as [|i]; simpl in *.
  - simplify_eq. split; [lia|]. split; [done|]. split; [by apply fields_end_ge|].
    intros [|j] u Hj Hu; [lia|]. by apply (Hafter j).
  - destruct (IH _ i f' o Hf Ho) as (H1 & H2 & H3 & H4). split; [lia|]. split; [done|]. split; [done|].
    intros [|j] u Hj Hu; [lia|]. apply (H4 j u); [lia|done].
Qed.

Lemma repr_c_placed n fields : Forall wf fields -> placed fields (field_offsets 0 fields) (repr_c n fields).
Proof.
  intros Hwf. split.
  - intros i f o Hf Ho. destruct (field_offset fields Hwf 0 i f o Hf Ho) as (H1 & H2 & H3 & _).
    split; [done|]. split; [done|]. unfold repr_c. cbn [size align_log]. split.
    + set (a := foldr Nat.max n (align_log <$> fields)).
      pose proof (round_up_spec (fields_end 0 fields) (2 ^ Z.of_nat a) ltac:(apply Z.pow_pos_nonneg; lia)). lia.
    + apply foldr_max_ge. right. apply list_elem_of_fmap_2. by eapply list_elem_of_lookup_2.
  - intros i j f g o u Hij Hf Hg Ho Hu.
    destruct (Nat.lt_total i j) as [Hlt|[->|Hlt]]; [left|done|right].
    + by apply (field_offset fields Hwf 0 i f o Hf Ho) in Hu.
    + by apply (field_offset fields Hwf 0 j g u Hg Hu) in Ho.
Qed.

Lemma repr_c_wf n fields : Forall wf fields -> wf (repr_c n fields).
Proof.
  intros Hwf. unfold wf, align. cbn [size align_log repr_c].
  set (a := foldr Nat.max n (align_log <$> fields)).
  pose proof (round_up_spec (fields_end 0 fields) (2 ^ Z.of_nat a) ltac:(apply Z.pow_pos_nonneg; lia)) as [Hd Hb].
  pose proof (fields_end_ge fields Hwf 0). split; [lia|exact Hd].
Qed.

Lemma array_wf n l : 0 <= n -> wf l -> wf (array n l).
Proof. intros Hn [Hs Hd]. split; cbn; [nia|]. by apply Z.divide_mul_r. Qed.

Lemma prim_wf : wf u8 /\ wf u16 /\ wf u64.
Proof. by repeat split; try apply Z.divide_refl. Qed.

Lemma array_placed n l :
  wf l -> placed (replicate n l) ((fun k => Z.of_nat k * size l) <$> seq 0 n) (array (Z.of_nat n) l).
Proof.
  intros [Hs Hd]. split.
  - intros i f o [-> Hi]%lookup_replicate Ho. rewrite list_lookup_fmap, lookup_seq_lt in Ho by done.
    cbn in Ho. simplify_eq. cbn [size array align_log Nat.add].
    split; [nia|]. split; [by apply Z.divide_mul_r|]. split; [nia|done].
  - intros i j f g o u Hij [-> Hi]%lookup_replicate [-> Hj]%lookup_replicate Ho Hu.
    rewrite list_lookup_fmap, lookup_seq_lt in Ho, Hu by done. cbn in Ho, Hu. simplify_eq. cbn [size Nat.add].
    destruct (Nat.lt_total i j) as [Hlt|[->|Hlt]]; [left|done|right];
      (assert (Hz : forall a b : nat, (a < b)%nat -> Z.of_nat a * size l + size l <= Z.of_nat b * size l) by nia; by apply Hz).
Qed.

(** ** Padding *)

(** A type whose values begin and end with a cache line. *)
Definition line_aligned (l : Layout) : Prop := wf l /\ (6 <= align_log l)%nat.

Lemma repr_c_line_aligned n fields : (6 <= n)%nat -> Forall wf fields -> line_aligned (repr_c n fields).
Proof. intros Hn Hwf. split; [by apply repr_c_wf|]. cbn. pose proof (foldr_max_ge n (align_log <$> fields) n ltac:(by left)). lia. Qed.

Lemma cache_padded_line_aligned t : wf t -> line_aligned (cache_padded t).
Proof. intros Ht. apply repr_c_line_aligned; [done|]. by apply Forall_singleton. Qed.

Lemma line_divides l : (6 <= align_log l)%nat -> (CACHE_LINE_SIZE | align l).
Proof. intros H. change CACHE_LINE_SIZE with (2 ^ Z.of_nat 6). by apply pow2_divide. Qed.

Lemma lines_apart a n b m :
  (CACHE_LINE_SIZE | a) -> (CACHE_LINE_SIZE | n) -> a + n <= b \/ b + m <= a -> ~ shares_line a n b m.
Proof.
  unfold shares_line, CACHE_LINE_SIZE. intros [k ->] [q ->] Hd (x & y & Hx & Hy & E).
  Z.to_euclidean_division_equations. lia.
Qed.

(** C29. Padding prevents false sharing.  In a value of any type that the compiler lays
    out as the language promises, in whatever order, at any address that suits the
    type, a field wrapped in [CachePadded] shares no cache line with another field,
    nor with anything outside the value. *)
Theorem padding_prevents_sharing fields offsets l base i t o :
  placed fields offsets l -> (align l | base) -> wf t ->
  fields !! i = Some (cache_padded t) -> offsets !! i = Some o ->
  let shares b m := shares_line (base + o) (size (cache_padded t)) b m in
  (forall j f u, j <> i -> fields !! j = Some f -> offsets !! j = Some u -> ~ shares (base + u) (size f)) /\
  (forall b m, base + size l <= b \/ b + m <= base -> ~ shares b m).
Proof.
  intros Hp Hb Ht Hi Ho shares. destruct (placed_inside _ _ _ Hp i _ o Hi Ho) as (H1 & H2 & H3 & H4).
  destruct (cache_padded_line_aligned t Ht) as [[Hs Hd] Hl].
  assert (Ha : (CACHE_LINE_SIZE | base + o)).
  { apply Z.divide_add_r; (etransitivity; [|eassumption]); apply line_divides; lia. }
  assert (Hn : (CACHE_LINE_SIZE | size (cache_padded t))) by (etransitivity; [by apply line_divides|exact Hd]).
  split.
  - intros j f u Hj Hf Hu. apply lines_apart; [done..|].
    destruct (placed_disjoint _ _ _ Hp i j _ f o u (not_eq_sym Hj) Hi Hf Ho Hu); lia.
  - intros b m Hbm. apply lines_apart; [done..|]. lia.
Qed.

(** The slots of the connection pool, with addresses of 32 bytes and connections of
    1000: the connection is not on the line of the state. *)
Definition demo_slot : list Layout := connection_slot_fields {| size := 32; align_log := 2 |} {| size := 1000; align_log := 3 |}.

Lemma demo_slot_wf : Forall wf demo_slot.
Proof.
  destruct prim_wf as (H8 & _ & H64).
  repeat apply Forall_cons_2; try apply Forall_nil_2; try (by apply cache_padded_line_aligned).
  - split; [done|]. by exists 8.
  - split; [done|]. by exists 125.
Qed.

Lemma padding_prevents_sharing_witness :
  field_offsets 0 demo_slot = [0; 32; 1088; 1152; 1216; 1280; 1344; 1408; 1472] /\
  ~ shares_line (6400 + 1216) 64 (6400 + 32) 1000 /\ ~ shares_line (6400 + 1472) 64 (6400 + 1536) 1536.
Proof.
  split; [reflexivity|]. split.
  - apply (padding_prevents_sharing demo_slot _ _ 6400 4 u64 1216 (repr_c_placed 6 demo_slot demo_slot_wf)
      ltac:(exists 100; reflexivity) (proj2 (proj2 prim_wf)) eq_refl eq_refl) with (j := 1%nat) (f := {| size := 1000; align_log := 3 |});
      [lia|reflexivity|reflexivity].
  - apply (padding_prevents_sharing demo_slot _ _ 6400 8 u64 1472 (repr_c_placed 6 demo_slot demo_slot_wf)
      ltac:(exists 100; reflexivity) (proj2 (proj2 prim_wf)) eq_refl eq_refl). left. vm_compute. discriminate.
Defined.

(** The layouts that the sources document and assert. *)
Theorem documented_layouts :
  field_offsets 0 leader_entry_fields = [0; 32; 36; 38; 42; 48; 56] /\
  size leader_entry = CACHE_LINE_SIZE /\ align leader_entry = CACHE_LINE_SIZE /\
  field_offsets 0 leader_buffer_fields = [0; 64; 704] /\ size leader_buffer = 768 /\
  size cursor = CACHE_LINE_SIZE /\ field_offsets 0 (seqlock_fields u64) = [0; 64].
Proof. by vm_compute. Qed.
