(* ===== verification/Conc.v ===== *)
(** * Conc: interleaved shared-memory programs

    The lock-free structures of the repository are read and written by several
    threads.  This file gives the operations of those structures a common
    shape: a [prog] is a tree of atomic actions on a shared state of type [S];
    each action may also emit events of type [E] (the linearisation points of
    the operation).  The same [prog] is run alone ([run], used to evaluate
    examples and to state what an operation does by itself) or interleaved with
    the other threads of a pool ([pool_step]); the interleaving is sequentially
    consistent.  [wp] is a rely-guarantee precondition; [pool_sound] is the
    soundness theorem all concurrency results of the development go through.

    A loop that spins until another thread makes progress takes a fuel argument
    and returns [None] when it is still spinning after that many rounds, so a
    statement about all fuels covers every finite prefix of the loop. *)
From S2P Require Export Prelude.

Inductive prog (S E A : Type) : Type :=
| Ret (a : A)
| Fault (f : fault)
| Act (upd : S -> list E * S) (k : S -> prog S E A).
Arguments Ret {S E A} a.
Arguments Fault {S E A} f.
Arguments Act {S E A} upd k.

Fixpoint bind {S E A B} (p : prog S E A) (k : A -> prog S E B) : prog S E B :=
  match p with
  | Ret a => k a
  | Fault f => Fault f
  | Act upd c => Act upd (fun s => bind (c s) k)
  end.

Declare Scope prog_scope.
Delimit Scope prog_scope with prog.
Notation "'let!' x ':=' p 'in' q" := (bind p (fun x => q))
  (at level 10, x pattern, p at level 100, q at level 200) : prog_scope.
Notation "p ;;; q" := (bind p (fun _ => q))
  (at level 190, right associativity) : prog_scope.
Open Scope prog_scope.

(** An atomic read of part of the shared state. *)
Definition load {S E A} (get : S -> A) : prog S E A :=
  Act (fun s => ([], s)) (fun s => Ret (get s)).

(** An atomic write, without a result. *)
Definition store {S E} (set : S -> S) : prog S E unit :=
  Act (fun s => ([], set s)) (fun _ => Ret tt).

(** An atomic read-modify-write; the result is computed from the old state. *)
Definition rmw {S E A} (set : S -> S) (get : S -> A) : prog S E A :=
  Act (fun s => ([], set s)) (fun s => Ret (get s)).

(** [assert!(b, msg)] *)
Definition rassert {S E} (b : bool) (msg : string) : prog S E unit :=
  if b then Ret tt else Fault (Panic msg).

(** A program alone: every action runs at once, on the state the previous one
    left. *)
Fixpoint run {S E A} (p : prog S E A) (s : S) : list E * S * (fault + A) :=
  match p with
  | Ret a => ([], s, inr a)
  | Fault f => ([], s, inl f)
  | Act upd k =>
      let '(ev, s1) := upd s in
      let '(ev', s2, r) := run (k s) s1 in
      (ev ++ ev', s2, r)
  end.

Lemma run_bind {S E A B} (p : prog S E A) (k : A -> prog S E B) s :
  run (bind p k) s =
  match run p s with
  | (ev, s1, inl f) => (ev, s1, inl f)
  | (ev, s1, inr a) => let '(ev', s2, r) := run (k a) s1 in (ev ++ ev', s2, r)
  end.
Proof.
  revert s. induction p as [a|f|upd c IH]; intros s; simpl.
  - destruct (run (k a) s) as [[??]?]; done.
  - done.
  - destruct (upd s) as [ev s1]. rewrite IH.
    destruct (run (c s) s1) as [[ev1 s2] [f|a]]; [done|].
    destruct (run (k a) s2) as [[ev2 s3] r]. rewrite app_assoc. done.
Qed.

(** ** Configurations and interleaving *)

(** What the threads share, together with the events emitted so far. *)
Abbreviation config S E := (S * list E)%type.

Definition apply_upd {S E} (upd : S -> list E * S) (c : config S E) : config S E :=
  ((upd c.1).2, c.2 ++ (upd c.1).1).

(** One thread of the pool performs its next atomic action. *)
Inductive pool_step {S E A} :
  list (prog S E A) * config S E -> list (prog S E A) * config S E -> Prop :=
| pool_step_act ts i upd k c :
    ts !! i = Some (Act upd k) ->
    pool_step (ts, c) (<[i := k c.1]> ts, apply_upd upd c).

(** A run of the pool along a schedule (the thread to move at each point; a
    thread that has finished or does not exist is skipped).  Executable, so
    that examples of interleavings can be evaluated. *)
Fixpoint run_sched {S E A} (sched : list nat)
    (cfg : list (prog S E A) * config S E) : list (prog S E A) * config S E :=
  match sched with
  | [] => cfg
  | i :: sched' =>
      match cfg.1 !! i with
      | Some (Act upd k) => run_sched sched' (<[i := k cfg.2.1]> cfg.1, apply_upd upd cfg.2)
      | _ => run_sched sched' cfg
      end
  end.

Lemma run_sched_steps {S E A} sched (cfg : list (prog S E A) * config S E) :
  rtc pool_step cfg (run_sched sched cfg).
Proof.
  revert cfg. induction sched as [|i sched IH]; intros [ts c]; simpl; [done|].
  destruct (ts !! i) as [[a|f|upd k]|] eqn:Hi; try apply IH.
  eapply rtc_l; [by apply pool_step_act|apply IH].
Qed.

(** ** Rely-guarantee *)

Section wp.
Context {S E : Type}.
Implicit Types c : config S E.
Implicit Types R G : config S E -> config S E -> Prop.

(** [wp I R G p Q c]: started in [c], with an environment that moves the
    configuration along [R] and keeps [I], the program [p] never faults, each
    of its actions keeps [I] and is a [G] transition, and when it returns [a]
    the configuration satisfies [Q a]. *)
Fixpoint wp {A} (I : config S E -> Prop) R G (p : prog S E A)
    (Q : A -> config S E -> Prop) (c : config S E) : Prop :=
  match p with
  | Ret a => forall c', R c c' -> I c' -> Q a c'
  | Fault _ => False
  | Act upd k => forall c', R c c' -> I c' ->
      I (apply_upd upd c') /\ G c' (apply_upd upd c') /\
      wp I R G (k c'.1) Q (apply_upd upd c')
  end.

Context (I : config S E -> Prop) (R G : config S E -> config S E -> Prop).
Context {HR : PreOrder R}.

Lemma wp_rely {A} (p : prog S E A) Q c c' : R c c' -> wp I R G p Q c -> wp I R G p Q c'.
Proof.
  intros HRc. destruct p as [a|f|upd k]; simpl; [|done|].
  - intros H c'' Hc'' HI. apply H; [|done]. by transitivity c'.
  - intros H c'' Hc'' HI. apply H; [|done]. by transitivity c'.
Qed.

(** The invariant is available to the postcondition. *)
Lemma wp_mono_inv {A} (p : prog S E A) (Q Q' : A -> config S E -> Prop) c :
  (forall a c', I c' -> Q a c' -> Q' a c') -> wp I R G p Q c -> wp I R G p Q' c.
Proof.
  intros HQ. revert c. induction p as [a|f|upd k IH]; intros c; simpl; [|done|].
  - intros H c' HRc HI. auto.
  - intros H c' HRc HI. destruct (H c' HRc HI) as (? & ? & Hk). auto.
Qed.

Lemma wp_bind {A B} (p : prog S E A) (k : A -> prog S E B) Q c :
  I c -> wp I R G p (fun a c' => wp I R G (k a) Q c') c -> wp I R G (bind p k) Q c.
Proof.
  revert c. induction p as [a|f|upd k0 IH]; intros c HI; simpl; [|done|].
  - intros H. apply H; [reflexivity|done].
  - intros H c' HRc HI'. destruct (H c' HRc HI') as (HI1 & HG & Hk).
    split; [done|]. split; [done|]. by apply IH.
Qed.

(** [bind] is associative as far as [wp] can tell. *)
Lemma wp_bind_assoc {A B C} (p : prog S E A) (k : A -> prog S E B) (k' : B -> prog S E C) Q c :
  wp I R G (bind p (fun a => bind (k a) k')) Q c -> wp I R G (bind (bind p k) k') Q c.
Proof.
  revert c. induction p as [a|f|upd k0 IH]; intros c; simpl; [done|done|].
  intros H c' HRc HI. destruct (H c' HRc HI) as (? & ? & Hk). auto.
Qed.

(** A program whose own steps are steps the environment could make ends in a
    configuration the environment could have reached. *)
Lemma wp_frame {A} (p : prog S E A) (Q : A -> config S E -> Prop) c :
  (forall c1 c2, G c1 c2 -> R c1 c2) ->
  wp I R G p Q c -> wp I R G p (fun a c' => R c c' /\ Q a c') c.
Proof.
  intros HGR. cut (forall c0 c, R c0 c -> wp I R G p Q c ->
                      wp I R G p (fun a c' => R c0 c' /\ Q a c') c).
  { intros H. by apply H. }
  clear c. induction p as [a|f|upd k IH]; intros c0 c Hc0; simpl; [|done|].
  - intros H c' HRc HI. split; [by transitivity c|auto].
  - intros H c' HRc HI. destruct (H c' HRc HI) as (? & HG & Hk).
    split; [done|]. split; [done|]. apply IH; [|done].
    transitivity c'; [by transitivity c|]. by apply HGR.
Qed.

Lemma wp_ret {A} (a : A) (Q : A -> config S E -> Prop) c :
  (forall c', R c c' -> I c' -> Q a c') -> wp I R G (Ret a) Q c.
Proof. done. Qed.

(** The rule for one action: the environment moves first. *)
Lemma wp_act {A} upd (k : S -> prog S E A) Q c :
  (forall c', R c c' -> I c' ->
     I (apply_upd upd c') /\ G c' (apply_upd upd c') /\
     wp I R G (k c'.1) Q (apply_upd upd c')) ->
  wp I R G (Act upd k) Q c.
Proof. done. Qed.

(** Reading does not move the configuration. *)
Lemma wp_load {A B} (get : S -> B) (k : B -> prog S E A) Q c :
  Reflexive G ->
  (forall c', R c c' -> I c' -> wp I R G (k (get c'.1)) Q c') ->
  wp I R G (bind (load get) k) Q c.
Proof.
  intros HG H c' HRc HI. unfold apply_upd; simpl. rewrite app_nil_r.
  destruct c' as [s tr]. simpl in *. split; [done|]. split; [reflexivity|].
  by apply (H (s, tr)).
Qed.

End wp.

(** ** Soundness for a pool of threads *)

Section pool.
Context {S E A : Type} (I : config S E -> Prop).
Context (R G : nat -> config S E -> config S E -> Prop).
Context (HR : forall i, PreOrder (R i)).
Context (HRG : forall i j c c', i <> j -> G i c c' -> R j c c').
Context (Q : nat -> A -> config S E -> Prop).

(** Every thread of the pool meets its precondition in the current state. *)
Definition pool_ok (cfg : list (prog S E A) * config S E) : Prop :=
  I cfg.2 /\
  forall i p, cfg.1 !! i = Some p -> wp I (R i) (G i) p (Q i) cfg.2.

Lemma pool_ok_step cfg cfg' : pool_ok cfg -> pool_step cfg cfg' -> pool_ok cfg'.
Proof.
  intros [HI Hok] Hstep. inversion Hstep as [ts i upd k c Hi]; subst; simpl in *.
  pose proof (Hok _ _ Hi) as Hwp. simpl in Hwp.
  destruct (Hwp c) as (HI' & HG & Hk); [apply HR|done|].
  split; [done|]. simpl. intros j p Hj.
  destruct (decide (j = i)) as [->|Hne].
  - rewrite list_lookup_insert_eq in Hj by (by eapply lookup_lt_Some). by simplify_eq.
  - rewrite list_lookup_insert_ne in Hj by done.
    eapply wp_rely; [apply HR| |by apply Hok]. by eapply HRG.
Qed.

Lemma pool_ok_rtc cfg cfg' : rtc pool_step cfg cfg' -> pool_ok cfg -> pool_ok cfg'.
Proof. induction 1; eauto using pool_ok_step. Qed.

(** In every configuration the pool can reach, the invariant holds, no thread
    has faulted, and a thread that has returned satisfies its postcondition. *)
Lemma pool_sound ts c ts' c' :
  I c ->
  (forall i p, ts !! i = Some p -> wp I (R i) (G i) p (Q i) c) ->
  rtc pool_step (ts, c) (ts', c') ->
  I c' /\
  (forall i f, ts' !! i <> Some (Fault f)) /\
  (forall i a, ts' !! i = Some (Ret a) -> Q i a c').
Proof.
  intros HI Hok Hsteps.
  destruct (pool_ok_rtc _ _ Hsteps) as [HI' Hok']; [by split|].
  split; [done|]. split.
  - intros i f Hi. apply (Hok' _ _ Hi).
  - intros i a Hi. apply (Hok' _ _ Hi); [apply HR|done].
Qed.

End pool.
