(* ===== verification/RingBuffer.v ===== *)
(** * RingBuffer: the pre-allocated slot array of [channel/src/ringbuffer.rs]

    A slot is [UnsafeCell<MaybeUninit<T>>].  What the [unsafe] code relies on is
    whether the bytes of a slot are a live value, so a slot is [Uninit] (never
    written, or in the middle of being overwritten), [Live v], or [Moved v]
    after [ptr::read] has handed the value [v] to somebody else or
    [drop_in_place] has dropped it.  Reading a slot
    through [get], [get_mut], [read] or [drop_in_place] is defined for [Live]
    slots only. *)
From S2P Require Export Prelude.

Inductive slot (T : Type) : Type :=
| Uninit
| Live (v : T)
| Moved (v : T).
Arguments Uninit {T}.
Arguments Live {T} v.
Arguments Moved {T} v.

(** The value whose bytes are in the slot, live or moved out. *)
Definition slot_bytes {T} (x : slot T) : option T :=
  match x with Uninit => None | Live v => Some v | Moved v => Some v end.

Definition live_value {T} (x : slot T) : option T :=
  match x with Live v => Some v | _ => None end.

Definition is_power_of_two (n : Z) : bool :=
  negb (n =? 0) && (Z.land n (n - 1) =? 0).

Record RingBuffer (T : Type) : Type := {
  slots : list (slot T);
  mask : Z;
  capacity : Z;
}.
Arguments slots {T}.
Arguments mask {T}.
Arguments capacity {T}.

Definition capacity_msg : string := "Ring buffer capacity must be a power of 2".

Definition new {T} (cap : Z) : Result (RingBuffer T) fault :=
  if is_power_of_two cap then
    Ok {| slots := replicate (Z.to_nat cap) Uninit; mask := cap - 1; capacity := cap |}
  else Err (Panic capacity_msg).

(** [factory] is called once per slot; a factory with an effect of its own is
    a list of the values it produced. *)
Definition with_factory {T} (cap : Z) (factory : nat -> T) : Result (RingBuffer T) fault :=
  if is_power_of_two cap then
    Ok {| slots := (fun i => Live (factory i)) <$> seq 0 (Z.to_nat cap);
          mask := cap - 1; capacity := cap |}
  else Err (Panic capacity_msg).

Definition index {T} (rb : RingBuffer T) (sequence : Z) : nat :=
  Z.to_nat (Z.land (as_usize sequence) (mask rb)).

(** The slot behind [get_ptr(sequence)] / [get_ptr_mut(sequence)]; [None] is an
    access outside the array ([get_unchecked] is then undefined). *)
Definition get_ptr {T} (rb : RingBuffer T) (sequence : Z) : option (slot T) :=
  slots rb !! index rb sequence.

Definition set_slot {T} (rb : RingBuffer T) (sequence : Z) (x : slot T) : RingBuffer T :=
  {| slots := <[index rb sequence := x]> (slots rb);
     mask := mask rb; capacity := capacity rb |}.

Definition uninit_msg : string := "access to a slot without a live value".

(** [ptr.write(event)]: overwrites without dropping what was there. *)
Definition write {T} (rb : RingBuffer T) (sequence : Z) (event : T) : RingBuffer T :=
  set_slot rb sequence (Live event).

(** [drop_in_place] on the slot: the value is gone, its bytes stay. *)
Definition drop_in_place {T} (rb : RingBuffer T) (sequence : Z) : Result (RingBuffer T) fault :=
  match get_ptr rb sequence with
  | Some (Live v) => Ok (set_slot rb sequence (Moved v))
  | _ => Err (UndefinedBehaviour uninit_msg)
  end.

Definition write_and_drop {T} (rb : RingBuffer T) (sequence : Z) (event : T)
    : Result (RingBuffer T) fault :=
  match drop_in_place rb sequence with
  | Ok rb' => Ok (write rb' sequence event)
  | Err e => Err e
  end.

Definition get {T} (rb : RingBuffer T) (sequence : Z) : Result T fault :=
  match get_ptr rb sequence with
  | Some (Live v) => Ok v
  | _ => Err (UndefinedBehaviour uninit_msg)
  end.

(** What the holder of [get_mut(sequence)] does to the slot is a function [f]
    of its value. *)
Definition get_mut {T} (rb : RingBuffer T) (sequence : Z) (f : T -> T)
    : Result (RingBuffer T) fault :=
  match get_ptr rb sequence with
  | Some (Live v) => Ok (set_slot rb sequence (Live (f v)))
  | _ => Err (UndefinedBehaviour uninit_msg)
  end.

Definition read {T} (rb : RingBuffer T) (sequence : Z) : Result (T * RingBuffer T) fault :=
  match get_ptr rb sequence with
  | Some (Live v) => Ok (v, set_slot rb sequence (Moved v))
  | _ => Err (UndefinedBehaviour uninit_msg)
  end.

Definition free_slots {T} (rb : RingBuffer T) (producer_seq consumer_seq : Z) : Z :=
  let pending := producer_seq - consumer_seq in
  if pending <? 0 then capacity rb else capacity rb - pending.

(** ** Well-formedness *)

(** [capacity < 2^63]: the slots of a [Vec] never take more than [isize::MAX]
    bytes, and the channels convert the capacity to [i64]. *)
Record wf {T} (rb : RingBuffer T) : Prop := {
  wf_pow2 : is_pow2 (capacity rb);
  wf_bound : capacity rb < 2 ^ 63;
  wf_mask : mask rb = capacity rb - 1;
  wf_length : Z.of_nat (length (slots rb)) = capacity rb;
}.

Lemma is_power_of_two_spec n : 0 <= n -> is_power_of_two n = true <-> is_pow2 n.
Proof.
  intros Hn. unfold is_power_of_two.
  rewrite andb_true_iff, negb_true_iff, Z.eqb_neq, Z.eqb_eq. split.
  - intros [? ?]. apply land_pred_pow2; [lia|done].
  - intros H. pose proof (pow2_pos _ H). split; [lia|]. by apply land_pred_pow2.
Qed.

Lemma wf_new {T} cap (rb : RingBuffer T) :
  0 <= cap < 2 ^ 63 -> new cap = Ok rb -> wf rb.
Proof.
  unfold new. intros Hcap. destruct (is_power_of_two cap) eqn:Hp; [|done].
  apply is_power_of_two_spec in Hp; [|lia]. intros [= <-].
  split; simpl; [done|lia|done|]. rewrite length_replicate. lia.
Qed.

Lemma wf_with_factory {T} cap factory (rb : RingBuffer T) :
  0 <= cap < 2 ^ 63 -> with_factory cap factory = Ok rb -> wf rb.
Proof.
  unfold with_factory. intros Hcap. destruct (is_power_of_two cap) eqn:Hp; [|done].
  apply is_power_of_two_spec in Hp; [|lia]. intros [= <-].
  split; simpl; [done|lia|done|]. rewrite length_fmap, length_seq. lia.
Qed.

Lemma wf_set_slot {T} (rb : RingBuffer T) sequence x : wf rb -> wf (set_slot rb sequence x).
Proof. intros []; split; simpl; rewrite ?length_insert; done. Qed.

Section index.
Context {T : Type} (rb : RingBuffer T) (Hwf : wf rb).

Lemma cap_pos : 0 < capacity rb.
Proof. apply pow2_pos, Hwf. Qed.

(** The mask computes the remainder, also for the sequence [-1]. *)
Lemma index_mod sequence : Z.of_nat (index rb sequence) = sequence mod capacity rb.
Proof.
  pose proof cap_pos. unfold index.
  rewrite (wf_mask rb Hwf), land_mask_mod by apply Hwf.
  rewrite Z2Nat.id by (apply Z.mod_pos_bound; lia).
  unfold as_usize. destruct (wf_pow2 rb Hwf) as (k & Hk & Hcap).
  assert (k <= 63).
  { pose proof (wf_bound rb Hwf). rewrite Hcap in *.
    destruct (Z.le_gt_cases k 63); [done|].
    pose proof (Z.pow_le_mono_r 2 64 k). lia. }
  rewrite Hcap. unfold U64. apply Z.mod_mod_divide.
  exists (2 ^ (64 - k)). rewrite <- Z.pow_add_r by lia. f_equal. lia.
Qed.

Lemma index_lt sequence : (index rb sequence < length (slots rb))%nat.
Proof.
  apply Nat2Z.inj_lt. rewrite index_mod, (wf_length rb Hwf).
  apply Z.mod_pos_bound, cap_pos.
Qed.

(** Different sequences of one window of [capacity] use different slots. *)
Lemma index_inj a b : Z.abs (a - b) < capacity rb -> index rb a = index rb b -> a = b.
Proof.
  intros Hab Heq. pose proof cap_pos.
  assert (Hm : a mod capacity rb = b mod capacity rb) by (rewrite <- !index_mod; lia).
  pose proof (Z.div_mod a (capacity rb)). pose proof (Z.div_mod b (capacity rb)).
  assert (Hd : a - b = capacity rb * (a / capacity rb - b / capacity rb)) by lia.
  assert (a / capacity rb = b / capacity rb); nia.
Qed.

Lemma index_set_slot s x sequence : index (set_slot rb s x) sequence = index rb sequence.
Proof. done. Qed.

Lemma get_ptr_set_eq sequence x : get_ptr (set_slot rb sequence x) sequence = Some x.
Proof. unfold get_ptr; simpl. apply list_lookup_insert_eq, index_lt. Qed.

Lemma get_ptr_set_ne a b x :
  index rb a <> index rb b -> get_ptr (set_slot rb a x) b = get_ptr rb b.
Proof. intros H. unfold get_ptr; simpl. rewrite index_set_slot. by apply list_lookup_insert_ne. Qed.

Lemma get_ptr_set_other a b x :
  a <> b -> Z.abs (a - b) < capacity rb -> get_ptr (set_slot rb a x) b = get_ptr rb b.
Proof. intros Hne Hab. apply get_ptr_set_ne. intros H. by apply Hne, index_inj. Qed.

Lemma get_ptr_some sequence : is_Some (get_ptr rb sequence).
Proof. apply lookup_lt_is_Some, index_lt. Qed.

End index.
