(* ===== verification/Cpu.v ===== *)
(** * Cpu: cursors, wait strategies and back-off

    [cpu/src/cursor.rs], [cpu/src/wait_strategy.rs] and
    [channel/src/common/backoff.rs].  A [Cursor] is an atomic [i64]; each of its
    methods is one atomic access, given here as a function of the cursor's value
    that the channels lift to an action on their shared state.  The memory
    orderings (acquire, release, relaxed) and the fences of [cpu/src/fence.rs]
    have no counterpart under the sequentially consistent interleaving of
    [Conc].  A wait strategy is the trait [WaitStrategy]; its laws
    ([WaitStrategyOk]) are what the channels' [recv] relies on. *)
From S2P Require Export Conc.

Module Cursor.

(** The last sequence processed; sequence numbers start at [-1] and grow by one
    per event, so that the [i64] range is never exhausted in practice and no
    wrap-around is modelled. *)
Record t : Type := { sequence : Z }.

Definition INITIAL_CURSOR_VALUE : Z := -1.

Definition new : t := {| sequence := INITIAL_CURSOR_VALUE |}.
Definition with_value (sequence : Z) : t := {| sequence := sequence |}.

(** [value] and [value_relaxed] *)
Definition value (c : t) : Z := sequence c.

(** [set] and [set_relaxed] *)
Definition set (_ : t) (sequence : Z) : t := {| sequence := sequence |}.

(** The [fetch_add] methods return the new value. *)
Definition increment (c : t) : Z * t := (sequence c + 1, {| sequence := sequence c + 1 |}).
Definition add (c : t) (delta : Z) : Z * t :=
  (sequence c + delta, {| sequence := sequence c + delta |}).

Definition compare_exchange (c : t) (current new : Z) : Result Z Z * t :=
  if sequence c =? current then (Ok current, {| sequence := new |}) else (Err (sequence c), c).

End Cursor.

(** ** Programs that only read *)

Fixpoint reads_only {S E A} (p : prog S E A) : Prop :=
  match p with
  | Ret _ => True
  | Fault _ => False
  | Act upd k => (forall s, upd s = ([], s)) /\ (forall s, reads_only (k s))
  end.

(** Whatever the other threads do, a result of [p] satisfies [P]. *)
Fixpoint returns {S E A} (P : A -> Prop) (p : prog S E A) : Prop :=
  match p with
  | Ret a => P a
  | Fault _ => True
  | Act _ k => forall s, returns P (k s)
  end.

Lemma reads_only_bind {S E A B} (p : prog S E A) (k : A -> prog S E B) :
  reads_only p -> (forall a, reads_only (k a)) -> reads_only (bind p k).
Proof.
  intros Hp Hk. induction p as [a|f|upd k0 IH]; simpl in *; [auto|done|].
  destruct Hp as [Hu Hp]. auto.
Qed.

Lemma returns_bind {S E A B} (P : A -> Prop) (P' : B -> Prop) (p : prog S E A) k :
  returns P p -> (forall a, P a -> returns P' (k a)) -> returns P' (bind p k).
Proof. intros Hp Hk. induction p as [a|f|upd k0 IH]; simpl in *; auto. Qed.

Lemma run_reads_only {S E A} (p : prog S E A) s :
  reads_only p -> exists a, run p s = ([], s, inr a).
Proof.
  induction p as [a|f|upd k IH]; simpl; [eauto|done|].
  intros [Hu Hk]. rewrite Hu. destruct (IH s (Hk s)) as [a ->]. eauto.
Qed.

Lemma wp_reads_only {S E A} I (R G : config S E -> config S E -> Prop)
    `{!PreOrder R} `{!Reflexive G} (p : prog S E A) (Q : A -> config S E -> Prop) c :
  reads_only p -> (forall a c', R c c' -> I c' -> Q a c') -> wp I R G p Q c.
Proof.
  revert c. induction p as [a|f|upd k IH]; intros c; simpl; [auto|done|].
  intros [Hu Hk] HQ c' HR HI. unfold apply_upd. rewrite Hu. simpl. rewrite app_nil_r.
  destruct c' as [s tr]. split; [done|]. split; [reflexivity|]. apply IH; [done|].
  intros a c'' HR' HI'. apply HQ; [|done]. etrans; eauto.
Qed.

Lemma wp_reads_returns {S E A} I (R G : config S E -> config S E -> Prop)
    `{!PreOrder R} `{!Reflexive G} P (p : prog S E A) (Q : A -> config S E -> Prop) c :
  reads_only p -> returns P p ->
  (forall a c', P a -> R c c' -> I c' -> Q a c') -> wp I R G p Q c.
Proof.
  revert c. induction p as [a|f|upd k IH]; intros c; simpl; [auto|done|].
  intros [Hu Hk] HP HQ c' HR HI. unfold apply_upd. rewrite Hu. simpl. rewrite app_nil_r.
  destruct c' as [s tr]. split; [done|]. split; [reflexivity|]. apply IH; [done|done|].
  intros a c'' Ha HR' HI'. apply HQ; [done| |done]. etrans; eauto.
Qed.

(** ** Wait strategies *)

(** The trait: [wait_for w fuel target ld] polls the cursor with [ld] until its
    value is at least [target]; [None] when it is still waiting after [fuel]
    rounds.  [signal] is the default no-op of every strategy. *)
Class WaitStrategy (W : Type) : Type := {
  wait_for : forall {S E}, W -> nat -> Z -> prog S E Z -> prog S E (option Z);
}.

Class WaitStrategyOk (W : Type) `{WaitStrategy W} : Prop := {
  wait_for_reads_only {S E} w fuel target (ld : prog S E Z) :
    reads_only ld -> reads_only (wait_for w fuel target ld);
  wait_for_returns {S E} w fuel target (ld : prog S E Z) :
    returns (fun o => forall v, o = Some v -> target <= v) (wait_for w fuel target ld);
}.

(** One polling round: return the value when it has reached the target, else go
    on with [next]. *)
Definition poll_cursor {S E} (target : Z) (ld : prog S E Z) (next : prog S E (option Z))
    : prog S E (option Z) :=
  let! current := ld in
  if target <=? current then Ret (Some current) else next.

Lemma poll_cursor_reads_only {S E} target (ld : prog S E Z) next :
  reads_only ld -> reads_only next -> reads_only (poll_cursor target ld next).
Proof.
  intros. apply reads_only_bind; [done|]. intros a. by destruct (target <=? a).
Qed.

Lemma poll_cursor_returns {S E} target (ld : prog S E Z) next :
  returns (fun o => forall v, o = Some v -> target <= v) next ->
  returns (fun o => forall v, o = Some v -> target <= v) (poll_cursor target ld next).
Proof.
  intros Hn. apply returns_bind with (fun _ => True).
  - induction ld; simpl; auto.
  - intros a _. destruct (Z.leb_spec target a); simpl; [|done].
    intros v [= <-]. done.
Qed.

(** [BusySpinWait] and [SpinLoopHintWait] run the same loop; the hint of the
    latter has no effect on the state. *)
Inductive BusySpinWait : Type := mkBusySpinWait.
Inductive SpinLoopHintWait : Type := mkSpinLoopHintWait.

Fixpoint spin_wait_for {S E} (fuel : nat) (target : Z) (ld : prog S E Z)
    : prog S E (option Z) :=
  match fuel with
  | O => Ret None
  | Datatypes.S fuel => poll_cursor target ld (spin_wait_for fuel target ld)
  end.

#[export] Instance busy_spin_wait : WaitStrategy BusySpinWait :=
  {| wait_for S E _ fuel target ld := spin_wait_for fuel target ld |}.
#[export] Instance spin_loop_hint_wait : WaitStrategy SpinLoopHintWait :=
  {| wait_for S E _ fuel target ld := spin_wait_for fuel target ld |}.

(** [YieldingWait]: [spins] counts the rounds since the last yield. *)
Record YieldingWait : Type := { spin_tries : Z }.

Fixpoint yielding_wait_for {S E} (spin_tries : Z) (fuel : nat) (spins : Z) (target : Z)
    (ld : prog S E Z) : prog S E (option Z) :=
  match fuel with
  | O => Ret None
  | Datatypes.S fuel =>
      poll_cursor target ld
        (if spins <? spin_tries
         then yielding_wait_for spin_tries fuel (spins + 1) target ld
         else yielding_wait_for spin_tries fuel 0 target ld)
  end.

#[export] Instance yielding_wait : WaitStrategy YieldingWait :=
  {| wait_for S E w fuel target ld := yielding_wait_for (spin_tries w) fuel 0 target ld |}.

(** [BackoffWait]: each round polls [spins] times, then doubles [spins]
    (saturating at [u32::MAX]) up to [max_spins]. *)
Record BackoffWait : Type := { initial_spins : Z; max_spins : Z }.

Fixpoint backoff_spin {S E} (spins : nat) (target : Z) (ld : prog S E Z)
    (next : prog S E (option Z)) : prog S E (option Z) :=
  match spins with
  | O => next
  | Datatypes.S spins => poll_cursor target ld (backoff_spin spins target ld next)
  end.

Fixpoint backoff_wait_for {S E} (max_spins : Z) (fuel : nat) (spins : Z) (target : Z)
    (ld : prog S E Z) : prog S E (option Z) :=
  match fuel with
  | O => Ret None
  | Datatypes.S fuel =>
      backoff_spin (Z.to_nat spins) target ld
        (backoff_wait_for max_spins fuel
           (Z.min (Z.min (spins * 2) (U32 - 1)) max_spins) target ld)
  end.

#[export] Instance backoff_wait : WaitStrategy BackoffWait :=
  {| wait_for S E w fuel target ld :=
       backoff_wait_for (max_spins w) fuel (initial_spins w) target ld |}.

Lemma backoff_spin_reads_only {S E} n target (ld : prog S E Z) next :
  reads_only ld -> reads_only next -> reads_only (backoff_spin n target ld next).
Proof. intros. induction n; simpl; auto using poll_cursor_reads_only. Qed.

Lemma backoff_spin_returns {S E} n target (ld : prog S E Z) next :
  returns (fun o => forall v, o = Some v -> target <= v) next ->
  returns (fun o => forall v, o = Some v -> target <= v) (backoff_spin n target ld next).
Proof. intros. induction n; simpl; auto using poll_cursor_returns. Qed.

#[export] Instance spin_wait_ok : WaitStrategyOk SpinLoopHintWait.
Proof.
  split; intros S E w fuel target ld; [intros Hld|]; induction fuel; simpl in *;
    auto using poll_cursor_reads_only, poll_cursor_returns; done.
Qed.

#[export] Instance busy_spin_wait_ok : WaitStrategyOk BusySpinWait.
Proof.
  split; intros S E w fuel target ld; [intros Hld|]; induction fuel; simpl in *;
    auto using poll_cursor_reads_only, poll_cursor_returns; done.
Qed.

#[export] Instance yielding_wait_ok : WaitStrategyOk YieldingWait.
Proof.
  split; intros S E w fuel target ld; simpl; [intros Hld|]; generalize 0;
    induction fuel as [|fuel IH]; intros spins; simpl; [done| |done|].
  - apply poll_cursor_reads_only; [done|]. destruct (spins <? spin_tries w); auto.
  - apply poll_cursor_returns. destruct (spins <? spin_tries w); auto.
Qed.

#[export] Instance backoff_wait_ok : WaitStrategyOk BackoffWait.
Proof.
  split; intros S E w fuel target ld; simpl; [intros Hld|]; generalize (initial_spins w);
    induction fuel as [|fuel IH]; intros spins; simpl; [done| |done|];
    auto using backoff_spin_reads_only, backoff_spin_returns.
Qed.

(** A back-off that starts from zero spins never looks at the cursor. *)
Lemma backoff_zero_never_polls {S E} max fuel target (ld : prog S E Z) :
  0 <= max -> backoff_wait_for max fuel 0 target ld = Ret None.
Proof.
  intros Hmax. induction fuel as [|fuel IH]; [done|].
  cbn [backoff_wait_for backoff_spin Z.to_nat].
  replace (Z.min (Z.min (0 * 2) (U32 - 1)) max) with 0 by (unfold U32; lia). done.
Qed.

(** ** Progressive back-off *)

Module Backoff.

Inductive hint : Type := SpinLoop | YieldNow.

(** The hints issued in one call and the next value of the [u32] counter. *)
Definition wait_backoff (iteration : Z) : list hint * Z :=
  let i := iteration in
  (if i <? 100 then [SpinLoop]
   else if i <? 1000 then
     let pauses := Z.shiftr (i - 100) 3 + 1 in
     replicate (Z.to_nat (Z.min pauses 32)) SpinLoop
   else if i mod 16 =? 0 then [YieldNow] else [SpinLoop],
   wrapping_add32 iteration 1).

End Backoff.
