(* ===== verification/Barrier.v ===== *)
(** * Barrier: sequence barriers and the errors of the channels

    [channel/src/barrier.rs] and [channel/src/error.rs].  A barrier holds raw
    pointers to cursors: here positions in the store of all cursors, so that two
    pointers may be the same; following a pointer outside the store is
    [UndefinedBehaviour]. *)
From S2P Require Export Cpu.

(** ** Errors *)

Inductive SendError (A : Type) : Type := mkSendError (event : A).
Inductive TrySendError (A : Type) : Type := Full (event : A) | SendDisconnected (event : A).
Inductive RecvError : Type := mkRecvError.
Inductive TryRecvError : Type := Empty | RecvDisconnected.
Arguments mkSendError {A} event.
Arguments Full {A} event.
Arguments SendDisconnected {A} event.

Definition send_into_inner {A} (e : SendError A) : A := let '(mkSendError v) := e in v.
Definition is_full {A} (e : TrySendError A) : bool := match e with Full _ => true | _ => false end.
Definition send_is_disconnected {A} (e : TrySendError A) : bool :=
  match e with SendDisconnected _ => true | _ => false end.
Definition try_send_into_inner {A} (e : TrySendError A) : A :=
  match e with Full v | SendDisconnected v => v end.
Definition try_send_from {A} (e : SendError A) : TrySendError A := let '(mkSendError v) := e in SendDisconnected v.
Definition is_empty (e : TryRecvError) : bool := match e with Empty => true | _ => false end.
Definition recv_is_disconnected (e : TryRecvError) : bool := match e with RecvDisconnected => true | _ => false end.
Definition try_recv_from (_ : RecvError) : TryRecvError := RecvDisconnected.

(** ** Barriers *)

Abbreviation cursors_store := (list Cursor.t).
Abbreviation P := (prog cursors_store unit).

(** [value] and [value_relaxed] of the cursor behind a pointer *)
Definition read_cursor (ptr : nat) : P Z :=
  let! c := load (fun s : cursors_store => s !! ptr) in
  match c with
  | Some c => Ret (Cursor.value c)
  | None => Fault (UndefinedBehaviour "dangling cursor")
  end.

Record SequenceBarrier (W : Type) : Type := { cursor : nat; wait_strategy : W }.
Arguments cursor {W} s.
Arguments wait_strategy {W} s.

Section barrier.
Context {W : Type} `{WaitStrategy W}.

Definition barrier_new (cursor : nat) (w : W) : SequenceBarrier W := {| cursor := cursor; wait_strategy := w |}.
Definition barrier_wait_for (fuel : nat) (b : SequenceBarrier W) (sequence : Z) : P (option Z) :=
  wait_for (wait_strategy b) fuel sequence (read_cursor (cursor b)).
Definition barrier_is_available (b : SequenceBarrier W) (sequence : Z) : P bool :=
  let! current := read_cursor (cursor b) in Ret (sequence <=? current).
Definition get_cursor (b : SequenceBarrier W) : P Z := read_cursor (cursor b).
Definition get_cursor_relaxed (b : SequenceBarrier W) : P Z := read_cursor (cursor b).
Definition barrier_clone (b : SequenceBarrier W) : SequenceBarrier W :=
  {| cursor := cursor b; wait_strategy := wait_strategy b |}.
End barrier.

Record MultiSequenceBarrier (W : Type) : Type := { cursors : list nat; multi_wait_strategy : W }.
Arguments cursors {W} m.
Arguments multi_wait_strategy {W} m.

Definition I64_MAX : Z := 2 ^ 63 - 1.

(** The loop over the cursors. *)
Fixpoint minimum_loop (ptrs : list nat) (min : Z) : P Z :=
  match ptrs with
  | [] => Ret min
  | ptr :: ptrs =>
      let! value := read_cursor ptr in
      minimum_loop ptrs (if value <? min then value else min)
  end.

Section multi.
Context {W : Type}.

Definition multi_new (cursors : list nat) (w : W) : MultiSequenceBarrier W :=
  {| cursors := cursors; multi_wait_strategy := w |}.
Definition get_minimum_sequence (b : MultiSequenceBarrier W) : P Z := minimum_loop (cursors b) I64_MAX.

(** The wait strategy is not asked; [None]: still waiting. *)
Fixpoint multi_wait_for (fuel : nat) (b : MultiSequenceBarrier W) (sequence : Z) : P (option Z) :=
  match fuel with
  | 0%nat => Ret None
  | Datatypes.S fuel =>
      let! min := get_minimum_sequence b in
      if sequence <=? min then Ret (Some min) else multi_wait_for fuel b sequence
  end.

Definition multi_is_available (b : MultiSequenceBarrier W) (sequence : Z) : P bool :=
  let! min := get_minimum_sequence b in Ret (sequence <=? min).
Definition cursor_count (b : MultiSequenceBarrier W) : nat := length (cursors b).
End multi.

(** ** Correctness *)

(** Cursors are never moved back and stay where they are. *)
Definition advanced (s s' : cursors_store) : Prop :=
  Forall2 (fun c c' => Cursor.value c <= Cursor.value c') s s'.

#[export] Instance advanced_preorder : PreOrder advanced.
Proof.
  split; unfold advanced.
  - intros s. induction s as [|c s IH]; constructor; [lia|done].
  - intros s1 s2 s3 H12. revert s3. induction H12 as [|c1 c2 s1 s2 Hc H12 IH]; intros s3 H23.
    + by inversion H23.
    + inversion H23; subst. constructor; [lia|by apply IH].
Qed.

(** A thread that only moves cursors on. *)
Fixpoint advances {A} (p : P A) : Prop :=
  match p with
  | Ret _ => True
  | Fault _ => False
  | Act upd k => (forall s, advanced s (upd s).2) /\ (forall s, advances (k s))
  end.

Definition all_valid (ptrs : list nat) (s : cursors_store) : Prop := Forall (fun ptr => (ptr < length s)%nat) ptrs.

(** Every cursor behind [ptrs] has reached [v]. *)
Definition all_reached (ptrs : list nat) (v : Z) (s : cursors_store) : Prop :=
  Forall (fun ptr => exists c, s !! ptr = Some c /\ v <= Cursor.value c) ptrs.

Lemma reached_advanced ptrs v v' s s' : v' <= v -> advanced s s' -> all_reached ptrs v s -> all_reached ptrs v' s'.
Proof.
  intros Hv Ha Hr. eapply Forall_impl; [exact Hr|]. intros ptr (c & Hc & Hle).
  destruct (Forall2_lookup_l _ _ _ _ _ Ha Hc) as (c' & Hc' & Hcc). exists c'. split; [done|]. lia.
Qed.

Section wp.
Let C := config cursors_store unit.
Let R (c c' : C) : Prop := advanced c.1 c'.1.
Context (n : nat).
Let I (c : C) : Prop := length c.1 = n.

#[local] Instance rely_preorder : PreOrder R.
Proof. split; [intros c; unfold R; reflexivity|]. intros c1 c2 c3. unfold R. by etrans. Qed.

Lemma wp_read_cursor {A} ptr (k : Z -> P A) Q c :
  (ptr < n)%nat ->
  (forall c' v, R c c' -> I c' -> all_reached [ptr] v c'.1 -> wp I R R (k v) Q c') ->
  wp I R R (bind (read_cursor ptr) k) Q c.
Proof.
  intros Hp Hk. unfold read_cursor. apply wp_bind_assoc, wp_load; [apply _|]. intros c' HR HI. cbv beta.
  destruct (lookup_lt_is_Some_2 c'.1 ptr) as [x Hx]; [by rewrite HI|]. rewrite Hx. cbn [bind].
  apply Hk; [done|done|]. constructor; [|constructor]. by exists x.
Qed.

(** What was read stays a lower bound while the rest is read. *)
Lemma wp_minimum_loop {A} seen ptrs min (k : Z -> P A) Q c :
  Forall (fun ptr => (ptr < n)%nat) ptrs -> all_reached seen min c.1 -> I c ->
  (forall c' v, I c' -> all_reached (seen ++ ptrs) v c'.1 -> wp I R R (k v) Q c') ->
  wp I R R (bind (minimum_loop ptrs min) k) Q c.
Proof.
  intros Hp. revert seen min c. induction Hp as [|ptr ptrs Hptr Hp IH]; intros seen min c Hs HI Hk.
  { cbn [minimum_loop bind]. apply Hk; [done|]. by rewrite app_nil_r. }
  cbn [minimum_loop]. apply wp_bind_assoc, wp_read_cursor; [done|]. intros c' v HR HI' Hv.
  apply (IH (seen ++ [ptr])); [|done|by rewrite <- app_assoc].
  apply Forall_app_2; [eapply (reached_advanced _ min); [|exact HR|exact Hs]|eapply (reached_advanced _ v); [|reflexivity|exact Hv]];
    destruct (Z.ltb_spec v min); lia.
Qed.

Lemma wp_multi_wait_for {W} fuel (b : MultiSequenceBarrier W) sequence c :
  Forall (fun ptr => (ptr < n)%nat) (cursors b) -> I c ->
  wp I R R (multi_wait_for fuel b sequence)
    (fun r c' => forall v, r = Some v -> sequence <= v /\ all_reached (cursors b) v c'.1) c.
Proof.
  intros Hp. revert c. induction fuel as [|fuel IH]; intros c HI; cbn [multi_wait_for]; [by intros c' _ _ v|].
  apply (wp_minimum_loop []); [done|constructor|done|]. intros c' v HI' Hv. cbn [app] in Hv.
  destruct (Z.leb_spec sequence v) as [Hle|]; [|by apply IH].
  intros c'' HR _ w [= <-]. split; [done|]. by apply (reached_advanced _ v _ c'.1).
Qed.

Lemma wp_advances {A} (p : P A) c : advances p -> I c -> wp I R R p (fun _ _ => True) c.
Proof.
  revert c. induction p as [a|f|upd k IH]; intros c; cbn [advances]; [done|done|].
  intros [Hu Hk] _. apply wp_act. intros c' _ HI'. pose proof (Hu c'.1) as Ha.
  assert (I (apply_upd upd c')) as HI2.
  { unfold I, apply_upd in *. cbn [fst]. rewrite <- HI'. symmetry. by apply Forall2_length in Ha. }
  split; [done|]. split; [done|]. by apply IH.
Qed.
End wp.

(** Alone, the loop answers a number the cursors have reached. *)
Lemma run_minimum ptrs min s v :
  all_reached ptrs v s -> v <= min -> exists m, run (minimum_loop ptrs min) s = ([], s, inr m) /\ v <= m.
Proof.
  intros Hr. revert min. induction Hr as [|ptr ptrs (c & Hc & Hle) Hr IH]; intros min Hm; cbn [minimum_loop].
  - by exists min.
  - rewrite run_bind. unfold read_cursor. cbn. rewrite Hc. cbn.
    destruct (IH (if Cursor.value c <? min then Cursor.value c else min)) as (m & -> & Hv); [destruct (_ <? _); lia|].
    by exists m.
Qed.

(** The multi-cursor barrier does not let a consumer overtake.  One thread
    waits for [sequence] on any list of valid cursor pointers while any number of
    threads move cursors on.  In every interleaving no thread faults, and when
    the wait returns [v], [v] has reached [sequence] and every tracked cursor
    has reached [v], although the cursors are read one after the other.  A wait
    that begins when all of them are there returns after one look at each. *)
Theorem multi_barrier_safe {W} fuel (b : MultiSequenceBarrier W) sequence writers s ts' c' :
  all_valid (cursors b) s -> Forall advances writers ->
  rtc pool_step (multi_wait_for fuel b sequence :: writers, (s, [])) (ts', c') ->
  (forall i f, ts' !! i <> Some (Fault f)) /\
  (forall v, ts' !! 0%nat = Some (Ret (Some v)) -> sequence <= v /\ all_reached (cursors b) v c'.1) /\
  (all_reached (cursors b) sequence s -> sequence <= I64_MAX ->
   exists v, run (multi_wait_for 1 b sequence) s = ([], s, inr (Some v)) /\ sequence <= v).
Proof.
  intros Hv Hw Hrun. set (R := fun c c' : config cursors_store unit => advanced c.1 c'.1).
  assert (HR : nat -> PreOrder R) by (intros _; apply rely_preorder).
  destruct (pool_sound (fun c : config cursors_store unit => length c.1 = length s) (fun _ => R) (fun _ => R) HR
    (fun _ _ _ _ _ HG => HG)
    (fun i r c' => i = 0%nat -> forall v, r = Some v -> sequence <= v /\ all_reached (cursors b) v c'.1)
    (multi_wait_for fuel b sequence :: writers) (s, []) ts' c' eq_refl) with (2 := Hrun) as (_ & Hf & Hq).
  - intros [|i] p Hp; cbn in Hp.
    + injection Hp as <-. eapply wp_mono_inv; [|by apply (wp_multi_wait_for (length s))]. by intros r c1 _ HQ _.
    + eapply wp_mono_inv; [|apply (wp_advances (length s)); [by eapply Forall_lookup_1|done]]. done.
  - split; [done|]. split; [intros v Hi; by apply (Hq 0%nat (Some v) Hi)|].
    intros Hr Hm. destruct (run_minimum (cursors b) I64_MAX s sequence Hr Hm) as (m & He & Hle). exists m.
    cbn [multi_wait_for]. unfold get_minimum_sequence. rewrite run_bind, He. cbn.
    by rewrite (proj2 (Z.leb_le sequence m)).
Qed.

(** Two cursors of which the second is moved on while the first has been read. *)
Definition demo_cursors : cursors_store := [Cursor.with_value 10; Cursor.with_value 3].
Definition move_second (v : Z) : P (option Z) :=
  store (fun s => <[1%nat := Cursor.with_value (Z.max v (default 0 (Cursor.value <$> s !! 1%nat)))]> s) ;;; Ret None.

Lemma move_second_advances v : advances (move_second v).
Proof.
  split; [|done]. intros s. unfold advanced. cbn [snd]. destruct s as [|c1 [|c2 s]].
  - constructor.
  - constructor; [lia|constructor].
  - constructor; [lia|]. constructor; [unfold Cursor.value; cbn; lia|]. apply advanced_preorder.
Qed.

Lemma multi_barrier_safe_witness :
  let b := multi_new [0; 1]%nat mkSpinLoopHintWait in
  let final := run_sched [0; 0; 1; 0; 0; 0]%nat ([multi_wait_for 3 b 5; move_second 8], (demo_cursors, [])) in
  final.1 !! 0%nat = Some (Ret (Some 8)) /\ all_reached [0; 1]%nat 8 final.2.1.
Proof.
  intros b final.
  destruct (multi_barrier_safe 3 b 5 [move_second 8] demo_cursors final.1 final.2) as (_ & Hv & _).
  - repeat constructor.
  - constructor; [apply move_second_advances|constructor].
  - rewrite <- surjective_pairing. apply run_sched_steps.
  - assert (Hf : final.1 !! 0%nat = Some (Ret (Some 8))) by (vm_compute; reflexivity).
    split; [exact Hf|]. exact (proj2 (Hv 8 Hf)).
Defined.
