(* ===== verification/Spsc.v ===== *)
(** * Spsc: the single-producer single-consumer channel

    [channel/src/spsc/]: [shared.rs], [producer.rs], [consumer.rs], [batch.rs]
    and the constructors of [mod.rs].  The state the two threads share is
    [Shared]; the handles [Producer] and [Consumer] are thread-local, so an
    operation takes the handle and returns the updated one.  Each access to a
    cursor, to the closed flag or to the [Arc] count is one atomic action; a
    write to a slot is not atomic and takes two actions, between which the slot
    holds no value.

    The cursor stores are the linearisation points: advancing the producer
    cursor emits [Sent v] for every slot it publishes, advancing the consumer
    cursor emits [Rcvd v] for every slot it gives back; giving up a handle's
    [Arc] emits [Dropped]. *)
From S2P Require Import Prelude Conc RingBuffer Cpu.
From S2P Require RingBuffer.

Inductive side : Type := Prod | Cons.

#[export] Instance side_eq_dec : EqDecision side.
Proof. solve_decision. Defined.

Inductive event (T : Type) : Type :=
| Sent (v : T)
| Rcvd (v : T)
| Dropped (w : side).
Arguments Sent {T} v.
Arguments Rcvd {T} v.
Arguments Dropped {T} w.

(** ** Shared state *)

Record Shared (T : Type) : Type := {
  buffer : RingBuffer T;
  producer_cursor : Cursor.t;
  consumer_cursor : Cursor.t;
  closed : bool;
  strong_count : Z;  (* of the [Arc] that holds the shared state *)
}.
Arguments buffer {T}.
Arguments producer_cursor {T}.
Arguments consumer_cursor {T}.
Arguments closed {T}.
Arguments strong_count {T}.

Inductive TrySendError (A : Type) : Type :=
| Full (a : A)
| Disconnected (a : A).
Arguments Full {A} a.
Arguments Disconnected {A} a.

Section model.
Context {T : Type}.
Abbreviation P := (prog (Shared T) (event T)).
Implicit Types s : Shared T.

Definition pcur s : Z := Cursor.value (producer_cursor s).
Definition ccur s : Z := Cursor.value (consumer_cursor s).

Definition set_buffer (b : RingBuffer T) s : Shared T :=
  {| buffer := b; producer_cursor := producer_cursor s;
     consumer_cursor := consumer_cursor s; closed := closed s;
     strong_count := strong_count s |}.
Definition set_producer (n : Z) s : Shared T :=
  {| buffer := buffer s; producer_cursor := Cursor.set (producer_cursor s) n;
     consumer_cursor := consumer_cursor s; closed := closed s;
     strong_count := strong_count s |}.
Definition set_consumer (n : Z) s : Shared T :=
  {| buffer := buffer s; producer_cursor := producer_cursor s;
     consumer_cursor := Cursor.set (consumer_cursor s) n; closed := closed s;
     strong_count := strong_count s |}.
Definition set_closed s : Shared T :=
  {| buffer := buffer s; producer_cursor := producer_cursor s;
     consumer_cursor := consumer_cursor s; closed := true;
     strong_count := strong_count s |}.
Definition set_strong (n : Z) s : Shared T :=
  {| buffer := buffer s; producer_cursor := producer_cursor s;
     consumer_cursor := consumer_cursor s; closed := closed s; strong_count := n |}.

(** The bytes in [n] consecutive slots from sequence [lo] on. *)
Definition payload (b : RingBuffer T) (lo n : Z) : list T :=
  omap (fun q => get_ptr b q ≫= slot_bytes) (seqZ lo n).

(** ** Accesses to the shared state *)

Definition publish_cursor (n : Z) : P unit :=
  Act (fun s => (Sent <$> payload (buffer s) (pcur s + 1) (n - pcur s), set_producer n s))
      (fun _ => Ret tt).

Definition consume_cursor (n : Z) : P unit :=
  Act (fun s => (Rcvd <$> payload (buffer s) (ccur s + 1) (n - ccur s), set_consumer n s))
      (fun _ => Ret tt).

(** [buffer.write(sequence, event)], not atomic. *)
Definition buf_write (sequence : Z) (event : T) : P unit :=
  store (fun s => set_buffer (set_slot (buffer s) sequence Uninit) s) ;;;
  store (fun s => set_buffer (RingBuffer.write (buffer s) sequence event) s).

(** [buffer.read(sequence)] *)
Definition buf_read (sequence : Z) : P T :=
  Act (fun s => ([], match RingBuffer.read (buffer s) sequence with
                     | Ok (_, b) => set_buffer b s
                     | Err _ => s
                     end))
      (fun s => match RingBuffer.read (buffer s) sequence with
                | Ok (v, _) => Ret v
                | Err e => Fault e
                end).

(** [buffer.get(sequence)]: a reference, here the value behind it. *)
Definition buf_get (sequence : Z) : P T :=
  Act (fun s => ([], s))
      (fun s => match RingBuffer.get (buffer s) sequence with
                | Ok v => Ret v
                | Err e => Fault e
                end).

(** What the holder of [buffer.get_mut(sequence)] does through the reference;
    returns the new value. *)
Definition buf_modify (sequence : Z) (f : T -> T) : P T :=
  Act (fun s => ([], match RingBuffer.get_mut (buffer s) sequence f with
                     | Ok b => set_buffer b s
                     | Err _ => s
                     end))
      (fun s => match RingBuffer.get (buffer s) sequence with
                | Ok v => Ret (f v)
                | Err e => Fault e
                end).

(** ** Shared: drop *)

(** [for seq in lo..lo + n { drop_in_place(slot(seq)) }]; returns what it
    dropped. *)
Fixpoint drop_range (lo : Z) (n : nat) : P (list T) :=
  match n with
  | O => Ret []
  | Datatypes.S n =>
      let! v :=
        Act (fun s => ([], match RingBuffer.drop_in_place (buffer s) lo with
                           | Ok b => set_buffer b s
                           | Err _ => s
                           end))
            (fun s => match RingBuffer.get (buffer s) lo with
                      | Ok v => Ret v
                      | Err e => Fault e
                      end) in
      let! vs := drop_range (lo + 1) n in
      Ret (v :: vs)
  end.

Definition shared_drop : P (list T) :=
  let! consumer_seq := load ccur in
  let! producer_seq := load pcur in
  if consumer_seq <? producer_seq
  then drop_range (consumer_seq + 1) (Z.to_nat (producer_seq - consumer_seq))
  else Ret [].

(** Dropping a handle's [Arc]: the last one runs [Shared::drop]. *)
Definition arc_drop (w : side) : P (list T) :=
  let! old := Act (fun s => ([Dropped w], set_strong (strong_count s - 1) s))
                  (fun s => Ret (strong_count s)) in
  if old =? 1 then shared_drop else Ret [].

(** ** Producer *)

Record Producer : Type := {
  cached_consumer : Z;
  next_sequence : Z;
  p_capacity : Z;
  claimed : bool;
  cached_disconnected : bool;
}.

Definition with_cached_consumer (c : Z) (h : Producer) : Producer :=
  {| cached_consumer := c; next_sequence := next_sequence h; p_capacity := p_capacity h;
     claimed := claimed h; cached_disconnected := cached_disconnected h |}.
Definition with_next (n : Z) (h : Producer) : Producer :=
  {| cached_consumer := cached_consumer h; next_sequence := n; p_capacity := p_capacity h;
     claimed := claimed h; cached_disconnected := cached_disconnected h |}.
Definition with_claimed (b : bool) (h : Producer) : Producer :=
  {| cached_consumer := cached_consumer h; next_sequence := next_sequence h;
     p_capacity := p_capacity h; claimed := b;
     cached_disconnected := cached_disconnected h |}.
Definition with_disconnected (h : Producer) : Producer :=
  {| cached_consumer := cached_consumer h; next_sequence := next_sequence h;
     p_capacity := p_capacity h; claimed := claimed h; cached_disconnected := true |}.

(** [closed.load() || Arc::strong_count() == 1]; the count is read only when
    the flag is not set. *)
Definition check_disconnected : P bool :=
  let! c := load closed in
  if c then Ret true else load (fun s => strong_count s =? 1).

Definition is_disconnected (h : Producer) : P (Producer * bool) :=
  if cached_disconnected h then Ret (h, true)
  else
    let! d := check_disconnected in
    Ret (if d then with_disconnected h else h, d).

(** The slow path of [wait_for_space_n]; [None]: still waiting. *)
Fixpoint wait_for_space_loop (fuel : nat) (iteration : Z) (h : Producer) (wrap_point : Z)
    : P (option (Producer * Result unit unit)) :=
  match fuel with
  | O => Ret None
  | Datatypes.S fuel =>
      let! c := load ccur in
      let h := with_cached_consumer c h in
      if wrap_point <=? c then Ret (Some (h, Ok tt))
      else
        let! (h, d) := is_disconnected h in
        if d then Ret (Some (h, Err tt))
        else wait_for_space_loop fuel (Backoff.wait_backoff iteration).2 h wrap_point
  end.

Definition wait_for_space_n (fuel : nat) (h : Producer) (n : Z)
    : P (option (Producer * Result unit unit)) :=
  let wrap_point := next_sequence h + n - 1 - p_capacity h in
  if wrap_point <=? cached_consumer h then Ret (Some (h, Ok tt))
  else wait_for_space_loop fuel 0 h wrap_point.

Definition wait_for_space (fuel : nat) (h : Producer) := wait_for_space_n fuel h 1.

Definition must_publish_msg : string := "must call publish() after claim()".
Definition already_claimed_msg : string := "already claimed, must call publish() first".

Definition send (fuel : nat) (h : Producer) (event : T)
    : P (option (Producer * Result unit T)) :=
  rassert (negb (claimed h)) must_publish_msg ;;;
  let! (h, d) := is_disconnected h in
  if d then Ret (Some (h, Err event))
  else
    let! w := wait_for_space fuel h in
    match w with
    | None => Ret None
    | Some (h, Err _) => Ret (Some (h, Err event))
    | Some (h, Ok _) =>
        buf_write (next_sequence h) event ;;;
        publish_cursor (next_sequence h) ;;;
        Ret (Some (with_next (next_sequence h + 1) h, Ok tt))
    end.

(** The double-checked space test of [try_send] and [try_claim]: [true] when
    there is room. *)
Definition try_space (h : Producer) : P (Producer * bool) :=
  let wrap_point := next_sequence h - p_capacity h in
  if cached_consumer h <? wrap_point then
    let! c := load ccur in
    let h := with_cached_consumer c h in
    Ret (h, negb (c <? wrap_point))
  else Ret (h, true).

Definition try_send (h : Producer) (event : T) : P (Producer * Result unit (TrySendError T)) :=
  rassert (negb (claimed h)) must_publish_msg ;;;
  let! (h, d) := is_disconnected h in
  if d then Ret (h, Err (Disconnected event))
  else
    let! (h, room) := try_space h in
    if room then
      buf_write (next_sequence h) event ;;;
      publish_cursor (next_sequence h) ;;;
      Ret (with_next (next_sequence h + 1) h, Ok tt)
    else Ret (h, Err (Full event)).

(** [claim] hands out a reference to the slot [next_sequence]; making one to a
    slot without a live value is already undefined. *)
Definition claim (fuel : nat) (h : Producer) : P (option (Producer * Result unit unit)) :=
  rassert (negb (claimed h)) already_claimed_msg ;;;
  let! (h, d) := is_disconnected h in
  if d then Ret (Some (h, Err tt))
  else
    let! w := wait_for_space fuel h in
    match w with
    | None => Ret None
    | Some (h, Err _) => Ret (Some (h, Err tt))
    | Some (h, Ok _) =>
        let h := with_claimed true h in
        buf_get (next_sequence h) ;;;
        Ret (Some (h, Ok tt))
    end.

Definition try_claim (h : Producer) : P (Producer * Result unit (TrySendError unit)) :=
  rassert (negb (claimed h)) already_claimed_msg ;;;
  let! (h, d) := is_disconnected h in
  if d then Ret (h, Err (Disconnected tt))
  else
    let! (h, room) := try_space h in
    if room then
      let h := with_claimed true h in
      buf_get (next_sequence h) ;;;
      Ret (h, Ok tt)
    else Ret (h, Err (Full tt)).

(** The use a client makes of the claimed [&mut T]. *)
Definition claimed_update (h : Producer) (f : T -> T) : P T :=
  buf_modify (next_sequence h) f.

Definition publish (h : Producer) : P Producer :=
  rassert (claimed h) "must call claim() before publish()" ;;;
  publish_cursor (next_sequence h) ;;;
  Ret (with_claimed false (with_next (next_sequence h + 1) h)).

(** *** Batches *)

Record BatchSlots : Type := { start : Z; count : Z; published : bool }.

Definition check_batch (h : Producer) (n : Z) : P unit :=
  rassert (negb (claimed h)) already_claimed_msg ;;;
  rassert (0 <? n) "batch size must be > 0" ;;;
  rassert (n <=? p_capacity h) "batch size exceeds buffer capacity".

Definition claim_batch (fuel : nat) (h : Producer) (n : Z)
    : P (option (Producer * Result BatchSlots unit)) :=
  check_batch h n ;;;
  let! (h, d) := is_disconnected h in
  if d then Ret (Some (h, Err tt))
  else
    let! w := wait_for_space_n fuel h n in
    match w with
    | None => Ret None
    | Some (h, Err _) => Ret (Some (h, Err tt))
    | Some (h, Ok _) =>
        let start := next_sequence h in
        Ret (Some (with_next (next_sequence h + n) h,
                   Ok {| start := start; count := n; published := false |}))
    end.

Definition try_claim_batch (h : Producer) (n : Z)
    : P (Producer * Result BatchSlots (TrySendError unit)) :=
  check_batch h n ;;;
  let! (h, d) := is_disconnected h in
  if d then Ret (h, Err (Disconnected tt))
  else
    let wrap_point := next_sequence h + n - 1 - p_capacity h in
    let! c := load ccur in
    let h := with_cached_consumer c h in
    if c <? wrap_point then Ret (h, Err (Full tt))
    else
      let start := next_sequence h in
      Ret (with_next (next_sequence h + n) h,
           Ok {| start := start; count := n; published := false |}).

Definition batch_bounds_msg : string := "index out of bounds for batch".

Definition batch_get_mut (b : BatchSlots) (index : Z) (f : T -> T) : P T :=
  rassert (index <? count b) batch_bounds_msg ;;; buf_modify (start b + index) f.

Definition batch_get (b : BatchSlots) (index : Z) : P T :=
  rassert (index <? count b) batch_bounds_msg ;;; buf_get (start b + index).

Definition batch_len (b : BatchSlots) : Z := count b.
Definition batch_is_empty (b : BatchSlots) : bool := count b =? 0.

Definition do_publish (b : BatchSlots) : P BatchSlots :=
  if published b then Ret b
  else
    publish_cursor (start b + count b - 1) ;;;
    Ret {| start := start b; count := count b; published := true |}.

(** [publish(self)] ends the life of the handle, whose [Drop] calls
    [do_publish] again. *)
Definition batch_drop (b : BatchSlots) : P BatchSlots := do_publish b.
Definition batch_publish (b : BatchSlots) : P BatchSlots :=
  let! b := do_publish b in batch_drop b.

Record BatchSlotIterMut : Type := { current : Z; iter_end : Z }.

Definition batch_iter_mut (b : BatchSlots) : BatchSlotIterMut :=
  {| current := start b; iter_end := start b + count b |}.

(** [next]: the sequence of the slot handed out. *)
Definition iter_next (it : BatchSlotIterMut) : BatchSlotIterMut * option Z :=
  if current it <? iter_end it
  then ({| current := current it + 1; iter_end := iter_end it |}, Some (current it))
  else (it, None).

Definition iter_size_hint (it : BatchSlotIterMut) : Z := as_usize (iter_end it - current it).

Definition close : P unit := store set_closed.

Definition available_slots (h : Producer) : P Z :=
  let! consumer_seq := load ccur in
  let pending := next_sequence h - consumer_seq - 1 in
  Ret (if pending <? 0 then p_capacity h else saturating_sub (p_capacity h) pending).

(** [Drop for Producer], then the field [shared]. *)
Definition producer_drop : P (list T) := close ;;; arc_drop Prod.

(** ** Consumer *)

Context {W : Type} `{!WaitStrategy W}.

Record Consumer : Type := {
  c_next_sequence : Z;
  c_cached_disconnected : bool;
  wait_strategy : W;
}.

Definition c_with_next (n : Z) (h : Consumer) : Consumer :=
  {| c_next_sequence := n; c_cached_disconnected := c_cached_disconnected h;
     wait_strategy := wait_strategy h |}.
Definition c_with_disconnected (h : Consumer) : Consumer :=
  {| c_next_sequence := c_next_sequence h; c_cached_disconnected := true;
     wait_strategy := wait_strategy h |}.

Definition c_is_disconnected (h : Consumer) : P (Consumer * bool) :=
  if c_cached_disconnected h then Ret (h, true)
  else
    let! d := check_disconnected in
    Ret (if d then c_with_disconnected h else h, d).

(** [self.barrier.wait_for(sequence)] *)
Definition barrier_wait_for (fuel : nat) (h : Consumer) (sequence : Z) : P (option Z) :=
  wait_for (wait_strategy h) fuel sequence (load pcur).

(** [self.barrier.is_available(sequence)] *)
Definition is_available (sequence : Z) : P bool :=
  load (fun s => sequence <=? pcur s).

Inductive TryRecvError : Type := Empty | TryDisconnected.

(** The loop shared by [recv], [recv_batch] and [recv_all] up to the point where
    an event is available: [Some available], or [None] when the producer is gone
    and nothing is left.  The outer [None]: still waiting. *)
Fixpoint await_loop (wait_fuel fuel : nat) (h : Consumer)
    : P (option (Consumer * option Z)) :=
  match fuel with
  | O => Ret None
  | Datatypes.S fuel =>
      let! available := load pcur in
      if c_next_sequence h <=? available then Ret (Some (h, Some available))
      else
        let! (h, d) := c_is_disconnected h in
        if d then
          let! p := load pcur in
          if c_next_sequence h <=? p then await_loop wait_fuel fuel h
          else Ret (Some (h, None))
        else
          let! w := barrier_wait_for wait_fuel h (c_next_sequence h) in
          match w with
          | None => Ret None
          | Some _ => await_loop wait_fuel fuel h
          end
  end.

(** [for i in 0..n { out.push(buffer.read(lo + i)) }] *)
Fixpoint read_range (lo : Z) (n : nat) : P (list T) :=
  match n with
  | O => Ret []
  | Datatypes.S n =>
      let! v := buf_read lo in
      let! vs := read_range (lo + 1) n in
      Ret (v :: vs)
  end.

Definition recv (fuel : nat) (h : Consumer) : P (option (Consumer * Result T unit)) :=
  let! w := await_loop fuel fuel h in
  match w with
  | None => Ret None
  | Some (h, None) => Ret (Some (h, Err tt))
  | Some (h, Some _) =>
      let! event := buf_read (c_next_sequence h) in
      consume_cursor (c_next_sequence h) ;;;
      Ret (Some (c_with_next (c_next_sequence h + 1) h, Ok event))
  end.

Definition try_recv (h : Consumer) : P (Consumer * Result T TryRecvError) :=
  let! a := is_available (c_next_sequence h) in
  if a then
    let! event := buf_read (c_next_sequence h) in
    consume_cursor (c_next_sequence h) ;;;
    Ret (c_with_next (c_next_sequence h + 1) h, Ok event)
  else
    let! (h, d) := c_is_disconnected h in
    Ret (h, Err (if d then TryDisconnected else Empty)).

Definition peek (h : Consumer) : P (Consumer * Result T TryRecvError) :=
  let! a := is_available (c_next_sequence h) in
  if a then
    let! v := buf_get (c_next_sequence h) in
    Ret (h, Ok v)
  else
    let! (h, d) := c_is_disconnected h in
    Ret (h, Err (if d then TryDisconnected else Empty)).

Definition pending (h : Consumer) : P Z :=
  let! producer_seq := load pcur in
  let diff := producer_seq - c_next_sequence h + 1 in
  Ret (if diff <? 0 then 0 else diff).

Definition has_pending (h : Consumer) : P bool := is_available (c_next_sequence h).

(** The calls [handler(event, seq, end_of_batch)] of [poll], for the [n] events
    from [lo] on. *)
Fixpoint poll_range (lo : Z) (n : nat) : P (list (T * Z * bool)) :=
  match n with
  | O => Ret []
  | Datatypes.S n =>
      let! v := buf_get lo in
      let! vs := poll_range (lo + 1) n in
      Ret ((v, lo, bool_decide (n = O)) :: vs)
  end.

Definition poll (h : Consumer) : P (Consumer * list (T * Z * bool)) :=
  let! available := load pcur in
  if available <? c_next_sequence h then Ret (h, [])
  else
    let count := available - c_next_sequence h + 1 in
    let! calls := poll_range (c_next_sequence h) (Z.to_nat count) in
    let last_seq := c_next_sequence h + count - 1 in
    consume_cursor last_seq ;;;
    Ret (c_with_next (c_next_sequence h + count) h, calls).

(** Moves [count] events out and gives their slots back with one store. *)
Definition take_events (h : Consumer) (count : Z) : P (Consumer * list T) :=
  let! out := read_range (c_next_sequence h) (Z.to_nat count) in
  let last_seq := c_next_sequence h + count - 1 in
  consume_cursor last_seq ;;;
  Ret (c_with_next (c_next_sequence h + count) h, out).

(** [out_len]: the length of the caller's slice. *)
Definition recv_batch (fuel : nat) (h : Consumer) (out_len : Z)
    : P (option (Consumer * Result (list T) unit)) :=
  if out_len =? 0 then Ret (Some (h, Ok []))
  else
    let! w := await_loop fuel fuel h in
    match w with
    | None => Ret None
    | Some (h, None) => Ret (Some (h, Err tt))
    | Some (h, Some available) =>
        let available_count := available - c_next_sequence h + 1 in
        let! (h, out) := take_events h (Z.min out_len available_count) in
        Ret (Some (h, Ok out))
    end.

Definition try_recv_batch (h : Consumer) (out_len : Z)
    : P (Consumer * Result (list T) TryRecvError) :=
  if out_len =? 0 then Ret (h, Ok [])
  else
    let! available := load pcur in
    if available <? c_next_sequence h then
      let! (h, d) := c_is_disconnected h in
      Ret (h, Err (if d then TryDisconnected else Empty))
    else
      let available_count := available - c_next_sequence h + 1 in
      let! (h, out) := take_events h (Z.min out_len available_count) in
      Ret (h, Ok out).

Definition recv_all (fuel : nat) (h : Consumer) : P (option (Consumer * Result (list T) unit)) :=
  let! w := await_loop fuel fuel h in
  match w with
  | None => Ret None
  | Some (h, None) => Ret (Some (h, Err tt))
  | Some (h, Some available) =>
      let! (h, out) := take_events h (available - c_next_sequence h + 1) in
      Ret (Some (h, Ok out))
  end.

Definition consumer_drop : P (list T) := close ;;; arc_drop Cons.

(** ** Constructors *)

Definition make_channel (b : RingBuffer T) (cap : Z) (w : W) : Shared T * Producer * Consumer :=
  ({| buffer := b; producer_cursor := Cursor.new; consumer_cursor := Cursor.new;
      closed := false; strong_count := 2 |},
   {| cached_consumer := Cursor.INITIAL_CURSOR_VALUE; next_sequence := 0;
      p_capacity := cap; claimed := false; cached_disconnected := false |},
   {| c_next_sequence := 0; c_cached_disconnected := false; wait_strategy := w |}).

Definition channel_with_wait (cap : Z) (w : W) : Result (Shared T * Producer * Consumer) fault :=
  match RingBuffer.new cap with
  | Ok b => Ok (make_channel b cap w)
  | Err e => Err e
  end.

Definition channel_with_factory (cap : Z) (factory : nat -> T) (w : W)
    : Result (Shared T * Producer * Consumer) fault :=
  match RingBuffer.with_factory cap factory with
  | Ok b => Ok (make_channel b cap w)
  | Err e => Err e
  end.

End model.

Definition channel {T} (cap : Z) := channel_with_wait (T := T) cap mkSpinLoopHintWait.
