(* ===== verification/SpscSpec.v ===== *)
(** * SpscSpec: the bounded FIFO specification and the SPSC invariant

    The abstract specification of the channel is the automaton [fifo_step]: a
    queue of at most [cap] values in which [Sent v] appends and [Rcvd v] removes
    the head.  The invariant [inv] ties the shared state to the queue and
    [guar_producer] / [guar_consumer] say what each side may do to it; the
    lemmas of the last section show that the steps of the two sides keep the
    one and are allowed by the other. *)
From S2P Require Import Prelude Conc RingBuffer Cpu Spsc.

(** ** The specification *)

Section spec.
Context {T : Type} (cap : Z).
Implicit Types q : list T.
Implicit Types tr : list (event T).

Inductive fifo_step : list T -> event T -> list T -> Prop :=
| fifo_send q v : Z.of_nat (length q) < cap -> fifo_step q (Sent v) (q ++ [v])
| fifo_recv q v : fifo_step (v :: q) (Rcvd v) q
| fifo_drop q w : fifo_step q (Dropped w) q.

Inductive fifo_run : list T -> list (event T) -> list T -> Prop :=
| fifo_run_nil q : fifo_run q [] q
| fifo_run_cons q e q1 tr q2 :
    fifo_step q e q1 -> fifo_run q1 tr q2 -> fifo_run q (e :: tr) q2.

(** What was put in, and what was taken out, in the order of the events. *)
Definition sent tr : list T := omap (fun e => match e with Sent v => Some v | _ => None end) tr.
Definition rcvd tr : list T := omap (fun e => match e with Rcvd v => Some v | _ => None end) tr.

(** The handles that have been given up, in order; the second one owns what is
    left and destroys it. *)
Definition drops tr : list side :=
  omap (fun e => match e with Dropped w => Some w | _ => None end) tr.
Definition owner tr : option side :=
  match drops tr with [_; w] => Some w | _ => None end.

Lemma fifo_run_app q tr q1 tr' q2 :
  fifo_run q tr q1 -> fifo_run q1 tr' q2 -> fifo_run q (tr ++ tr') q2.
Proof. induction 1; simpl; eauto using fifo_run_cons. Qed.

Lemma fifo_run_sends q vs :
  Z.of_nat (length q + length vs) <= cap -> fifo_run q (Sent <$> vs) (q ++ vs).
Proof.
  revert q. induction vs as [|v vs IH]; intros q; simpl.
  - rewrite app_nil_r. constructor.
  - intros H. eapply fifo_run_cons; [constructor; lia|].
    replace (q ++ v :: vs) with ((q ++ [v]) ++ vs) by (by rewrite <- app_assoc).
    apply IH. rewrite length_app. simpl. lia.
Qed.

Lemma fifo_run_recvs vs q : fifo_run (vs ++ q) (Rcvd <$> vs) q.
Proof. induction vs as [|v vs IH]; simpl; [constructor|]. eapply fifo_run_cons; [constructor|done]. Qed.

(** Everything put in has been taken out, in order, or is still in the queue. *)
Lemma fifo_run_history q tr q' : fifo_run q tr q' -> q ++ sent tr = rcvd tr ++ q'.
Proof.
  induction 1 as [q|q e q1 tr q2 Hs Hr IH]; simpl; [by rewrite app_nil_r|].
  destruct Hs as [q v Hlt|q v|q w]; simpl; rewrite <- IH; [by rewrite <- app_assoc|done|done].
Qed.

Lemma sent_app tr tr' : sent (tr ++ tr') = sent tr ++ sent tr'.
Proof. apply omap_app. Qed.
Lemma rcvd_app tr tr' : rcvd (tr ++ tr') = rcvd tr ++ rcvd tr'.
Proof. apply omap_app. Qed.
Lemma sent_sents vs : sent (Sent <$> vs) = vs.
Proof. induction vs; simpl; [done|]. by f_equal. Qed.
Lemma rcvd_sents vs : rcvd (Sent <$> vs) = [].
Proof. by induction vs. Qed.
Lemma sent_rcvds vs : sent (Rcvd <$> vs) = [].
Proof. by induction vs. Qed.
Lemma rcvd_rcvds vs : rcvd (Rcvd <$> vs) = vs.
Proof. induction vs; simpl; [done|]. by f_equal. Qed.
Lemma drops_app tr tr' : drops (tr ++ tr') = drops tr ++ drops tr'.
Proof. apply omap_app. Qed.
Lemma drops_sents vs : drops (Sent <$> vs) = [].
Proof. by induction vs. Qed.
Lemma drops_rcvds vs : drops (Rcvd <$> vs) = [].
Proof. by induction vs. Qed.

End spec.

Create Rewrite HintDb spsc.
#[export] Hint Rewrite @sent_app @rcvd_app @sent_sents @rcvd_sents @sent_rcvds @rcvd_rcvds
  @drops_app @drops_sents @drops_rcvds  @app_nil_r : spsc.

(** ** Payload of the buffer *)

Section payload.
Context {T : Type}.
Implicit Types b : RingBuffer T.

Lemma payload_app b lo n m :
  0 <= n -> 0 <= m -> payload b lo (n + m) = payload b lo n ++ payload b (lo + n) m.
Proof. intros. unfold payload. rewrite seqZ_app by lia. apply omap_app. Qed.

Lemma payload_ext b b' lo n :
  (forall q, lo <= q < lo + n -> get_ptr b q ≫= slot_bytes = get_ptr b' q ≫= slot_bytes) ->
  payload b lo n = payload b' lo n.
Proof.
  intros H. unfold payload.
  assert (Hf : Forall (fun q => lo <= q < lo + n) (seqZ lo n)).
  { apply Forall_forall. intros q Hq. apply elem_of_seqZ in Hq. lia. }
  clear -H Hf. induction Hf as [|q l Hq Hl IH]; simpl; [done|]. rewrite H by done.
  destruct (get_ptr b' q ≫= slot_bytes); [f_equal|]; exact IH.
Qed.

Lemma payload_length b lo n :
  0 <= n -> (forall q, lo <= q < lo + n -> is_Some (get_ptr b q ≫= slot_bytes)) ->
  Z.of_nat (length (payload b lo n)) = n.
Proof.
  intros Hn H. unfold payload.
  assert (Hf : Forall (fun q => is_Some (get_ptr b q ≫= slot_bytes)) (seqZ lo n)).
  { apply Forall_forall. intros q Hq. apply elem_of_seqZ in Hq. apply H. lia. }
  assert (Hlen : length (seqZ lo n) = Z.to_nat n) by apply length_seqZ.
  assert (Heq : length (omap (fun q => get_ptr b q ≫= slot_bytes) (seqZ lo n)) = length (seqZ lo n)).
  { clear -Hf. induction Hf as [|q l [v Hq] Hl IH]; simpl; [done|]. rewrite Hq. simpl. by f_equal. }
  lia.
Qed.

Lemma payload_one b lo v : get_ptr b lo ≫= slot_bytes = Some v -> payload b lo 1 = [v].
Proof. intros H. unfold payload. change (seqZ lo 1) with [lo]. cbn [omap list_omap]. by rewrite H. Qed.

(** Moving a value out leaves the bytes of the window alone. *)
Lemma set_moved_bytes b q q' v cap :
  wf b -> capacity b = cap -> get_ptr b q = Some (Live v) -> Z.abs (q' - q) < cap ->
  get_ptr (set_slot b q (Moved v)) q' ≫= slot_bytes = get_ptr b q' ≫= slot_bytes.
Proof.
  intros Hwf Hcap Hv Hq. destruct (decide (q' = q)) as [->|Hne].
  - rewrite get_ptr_set_eq, Hv; done.
  - rewrite get_ptr_set_other; [done|done|lia|rewrite Hcap; lia].
Qed.

End payload.

(** ** Invariant, rely and guarantee *)

Section invariant.
Context {T : Type} (cap : Z).
Implicit Types s : Shared T.
Implicit Types c : config (Shared T) (event T).

(** The slots from [lo] to [hi] hold live values. *)
Definition live_range (b : RingBuffer T) (lo hi : Z) : Prop :=
  forall q, lo <= q <= hi -> exists v, get_ptr b q = Some (Live v).

Record inv c : Prop := {
  inv_wf : wf (buffer c.1);
  inv_cap : capacity (buffer c.1) = cap;
  inv_order : -1 <= ccur c.1 <= pcur c.1;
  inv_space : pcur c.1 - ccur c.1 <= cap;
  inv_bytes : forall q, ccur c.1 < q <= pcur c.1 ->
                is_Some (get_ptr (buffer c.1) q ≫= slot_bytes);
  inv_trace : fifo_run cap [] c.2
                (payload (buffer c.1) (ccur c.1 + 1) (pcur c.1 - ccur c.1));
  inv_live : Cons ∈ drops c.2 -> owner c.2 = None ->
               live_range (buffer c.1) (ccur c.1 + 1) (pcur c.1);
  inv_nodup : NoDup (drops c.2);
  inv_count : strong_count c.1 = 2 - Z.of_nat (length (drops c.2));
}.

(** The drop events a step of side [w] may add: its own, once; and it does not
    move at all once the other side owns the shared state. *)
Definition other (w : side) : side := match w with Prod => Cons | Cons => Prod end.

Record guar_drops (w : side) c c' : Prop := {
  gd_drops : drops c'.2 = drops c.2 \/
             ((w ∉ drops c.2) /\ drops c'.2 = drops c.2 ++ [w]);
  gd_gone : owner c.2 = Some (other w) -> c' = c;
}.

(** What a producer step may do: only the producer cursor and free slots move,
    and what it publishes is live (as long as there is a consumer). *)
Record guar_producer c c' : Prop := {
  gp_cap : capacity (buffer c'.1) = capacity (buffer c.1);
  gp_ccur : ccur c'.1 = ccur c.1;
  gp_pcur : pcur c.1 <= pcur c'.1;
  gp_keep : Cons ∉ drops c.2 -> forall q, ccur c.1 < q <= pcur c.1 -> get_ptr (buffer c'.1) q = get_ptr (buffer c.1) q;
  gp_new : Cons ∉ drops c.2 -> forall q, ccur c.1 < q -> pcur c.1 < q <= pcur c'.1 ->
             exists v, get_ptr (buffer c'.1) q = Some (Live v);
  gp_rcvd : rcvd c'.2 = rcvd c.2;
  gp_drops : guar_drops Prod c c';
}.

(** What a consumer step may do: only the consumer cursor and published slots
    move; with the zero-copy flag [zc] the slots are left alone altogether (as
    long as there is a producer). *)
Record guar_consumer (zc : bool) c c' : Prop := {
  gc_cap : capacity (buffer c'.1) = capacity (buffer c.1);
  gc_pcur : pcur c'.1 = pcur c.1;
  gc_ccur : ccur c.1 <= ccur c'.1;
  gc_keep : Prod ∉ drops c.2 -> forall q, pcur c.1 < q <= ccur c.1 + capacity (buffer c.1) ->
              get_ptr (buffer c'.1) q = get_ptr (buffer c.1) q;
  gc_zc : zc = true -> Prod ∉ drops c.2 -> buffer c'.1 = buffer c.1;
  gc_sent : sent c'.2 = sent c.2;
  gc_drops : guar_drops Cons c c';
}.

#[export] Instance guar_drops_preorder w : PreOrder (guar_drops w).
Proof.
  split.
  - intros c. split; auto.
  - intros c1 c2 c3 [Hd12 Hg12] [Hd23 Hg23]. split.
    + destruct Hd12 as [He|[Hn He]], Hd23 as [He'|[Hn' He']]; rewrite He in *; auto.
      exfalso. apply Hn'. set_solver.
    + intros Ho. pose proof (Hg12 Ho) as ->. auto.
Qed.

Lemma guar_drops_alive w w' c c' :
  guar_drops w c c' -> w' <> w -> w' ∉ drops c.2 -> w' ∉ drops c'.2.
Proof.
  intros [[He|[_ He]] _] Hne Hw; rewrite He; [done|].
  rewrite elem_of_app, list_elem_of_singleton. tauto.
Qed.

(** Nobody owns the shared state while one side is still there. *)
Lemma owner_none w (tr : list (event T)) : NoDup (drops tr) -> w ∉ drops tr -> owner tr = None.
Proof.
  unfold owner. destruct (drops tr) as [|w1 [|w2 [|]]]; intros Hnd Hw; try done.
  exfalso. apply NoDup_cons in Hnd as [Hw1 _]. apply Hw1. destruct w1, w2, w; set_solver.
Qed.

(** A step of a side that is still there and emits no drop event. *)
Lemma guar_drops_same w s tr s' tr' :
  NoDup (drops tr) -> w ∉ drops tr -> drops tr' = drops tr -> guar_drops w (s, tr) (s', tr').
Proof.
  intros Hnd Hw He. split; simpl; [by left|]. by rewrite (owner_none w).
Qed.

#[export] Instance guar_producer_preorder : PreOrder guar_producer.
Proof.
  split.
  - intros c. split; try done; try lia; reflexivity.
  - intros c1 c2 c3 [] []. split; try congruence; try lia.
    + intros Hc q Hq. rewrite <- gp_keep0 by done. apply gp_keep1; [|lia].
      by eapply guar_drops_alive.
    + intros Hc q Hq Hq'. assert (Cons ∉ drops c2.2) by (by eapply guar_drops_alive).
      destruct (Z.le_gt_cases q (pcur c2.1)).
      * destruct (gp_new0 Hc q) as [v Hv]; [lia|lia|]. exists v. rewrite <- Hv.
        apply gp_keep1; [done|lia].
      * apply gp_new1; [done|lia|lia].
    + by transitivity c2.
Qed.

#[export] Instance guar_consumer_preorder zc : PreOrder (guar_consumer zc).
Proof.
  split.
  - intros c. split; try done; try lia; reflexivity.
  - intros c1 c2 c3 [] []. split; try congruence; try lia.
    + intros Hp q Hq. rewrite <- gc_keep0 by done. apply gc_keep1; [|lia].
      by eapply guar_drops_alive.
    + intros Hz Hp. rewrite gc_zc1, gc_zc0; try done. by eapply guar_drops_alive.
    + by transitivity c2.
Qed.

(** ** The steps that move the shared state *)

(** Writing to a slot that is free. *)
Lemma inv_set_free s tr q x :
  inv (s, tr) -> Prod ∉ drops tr -> pcur s < q <= ccur s + cap ->
  let s' := set_buffer (set_slot (buffer s) q x) s in
  inv (s', tr) /\ guar_producer (s, tr) (s', tr).
Proof.
  intros [Hwf Hcap Hord Hsp Hby Htr Hlv Hnd Hcnt] Hal Hq s'. simpl in *.
  assert (Hkeep : forall q', ccur s < q' <= pcur s ->
            get_ptr (set_slot (buffer s) q x) q' = get_ptr (buffer s) q').
  { intros q' Hq'. apply get_ptr_set_other; [done|lia|rewrite Hcap; lia]. }
  split.
  - split; simpl; try done.
    + by apply wf_set_slot.
    + intros q' Hq'. rewrite Hkeep by done. auto.
    + erewrite payload_ext; [exact Htr|]. intros q' Hq'. rewrite Hkeep; [done|].
      change (ccur s') with (ccur s) in Hq'. change (pcur s') with (pcur s) in Hq'. lia.
    + intros Hc Ho q' Hq'. change (ccur s + 1 <= q' <= pcur s) in Hq'.
      rewrite Hkeep by lia. by apply Hlv.
  - split; simpl; try done; try lia; [|by apply guar_drops_same].
    intros _ q' Hlt Hq'. exfalso. revert Hq'. unfold pcur. simpl. lia.
Qed.

(** Publishing slots that hold live values. *)
Lemma inv_publish s tr n :
  inv (s, tr) -> Prod ∉ drops tr -> pcur s <= n <= ccur s + cap -> live_range (buffer s) (pcur s + 1) n ->
  let s' := set_producer n s in
  let tr' := tr ++ (Sent <$> payload (buffer s) (pcur s + 1) (n - pcur s)) in
  inv (s', tr') /\ guar_producer (s, tr) (s', tr').
Proof.
  intros [Hwf Hcap Hord Hsp Hby Htr Hlv Hnd Hcnt] Hal Hn Hlive s' tr'. simpl in *.
  assert (Hpc : pcur s' = n) by done. assert (Hcc : ccur s' = ccur s) by done.
  assert (Hdr : drops tr' = drops tr) by (unfold tr'; by autorewrite with spsc).
  assert (Hb : forall q, ccur s < q <= n -> is_Some (get_ptr (buffer s) q ≫= slot_bytes)).
  { intros q Hq. destruct (Z.le_gt_cases q (pcur s)); [apply Hby; lia|].
    destruct (Hlive q) as [v Hv]; [lia|]. rewrite Hv. by eexists. }
  split.
  - split; simpl; rewrite ?Hpc, ?Hcc, ?Hdr; try done; try lia.
    + eapply fifo_run_app; [exact Htr|].
      replace (n - ccur s) with ((pcur s - ccur s) + (n - pcur s)) by lia.
      rewrite payload_app by lia.
      replace (ccur s + 1 + (pcur s - ccur s)) with (pcur s + 1) by lia.
      apply fifo_run_sends.
      rewrite Nat2Z.inj_add, !payload_length; try lia; intros q Hq; apply Hb; lia.
    + unfold owner. rewrite Hdr. intros Hc Ho q Hq.
      destruct (Z.le_gt_cases q (pcur s)); [apply Hlv; [done|done|lia]|apply Hlive; lia].
  - split; simpl; rewrite ?Hpc, ?Hcc, ?Hdr; try done; try lia.
    + intros _ q _ Hq. apply Hlive. lia.
    + unfold tr'. autorewrite with spsc. done.
    + by apply guar_drops_same.
Qed.

(** Moving a live value out of a published slot. *)
Lemma inv_move s tr q v :
  inv (s, tr) -> Cons ∉ drops tr -> ccur s < q <= pcur s -> get_ptr (buffer s) q = Some (Live v) ->
  let s' := set_buffer (set_slot (buffer s) q (Moved v)) s in
  inv (s', tr) /\ guar_consumer false (s, tr) (s', tr).
Proof.
  intros [Hwf Hcap Hord Hsp Hby Htr Hlv Hnd Hcnt] Hal Hq Hv s'. simpl in *.
  assert (Hkeep : forall q', ccur s < q' <= pcur s ->
            get_ptr (set_slot (buffer s) q (Moved v)) q' ≫= slot_bytes
            = get_ptr (buffer s) q' ≫= slot_bytes).
  { intros q' Hq'. apply (set_moved_bytes _ _ _ _ cap); [done..|lia]. }
  split.
  - split; simpl; try done.
    + by apply wf_set_slot.
    + intros q' Hq'. rewrite Hkeep by done. auto.
    + erewrite payload_ext; [exact Htr|]. intros q' Hq'. rewrite Hkeep; [done|].
      change (ccur s') with (ccur s) in Hq'. change (pcur s') with (pcur s) in Hq'. lia.
  - split; simpl; try done; try lia; [|by apply guar_drops_same]. intros _ q' Hq'.
    apply get_ptr_set_other; [done|lia|]. rewrite Hcap in *. lia.
Qed.

(** Giving published slots back. *)
Lemma inv_consume zc s tr n :
  inv (s, tr) -> Cons ∉ drops tr -> ccur s <= n <= pcur s ->
  let s' := set_consumer n s in
  let tr' := tr ++ (Rcvd <$> payload (buffer s) (ccur s + 1) (n - ccur s)) in
  inv (s', tr') /\ guar_consumer zc (s, tr) (s', tr').
Proof.
  intros [Hwf Hcap Hord Hsp Hby Htr Hlv Hnd Hcnt] Hal Hn s' tr'. simpl in *.
  assert (Hpc : pcur s' = pcur s) by done. assert (Hcc : ccur s' = n) by done.
  assert (Hdr : drops tr' = drops tr) by (unfold tr'; by autorewrite with spsc).
  split.
  - split; simpl; rewrite ?Hpc, ?Hcc, ?Hdr; try done; try lia.
    + intros q Hq. apply Hby. lia.
    + eapply fifo_run_app; [exact Htr|].
      replace (pcur s - ccur s) with ((n - ccur s) + (pcur s - n)) by lia.
      rewrite payload_app by lia.
      replace (ccur s + 1 + (n - ccur s)) with (n + 1) by lia. apply fifo_run_recvs.
  - split; simpl; rewrite ?Hpc, ?Hcc; try done; try lia; [|by apply guar_drops_same].
    unfold tr'. autorewrite with spsc. done.
Qed.

End invariant.

