(* ===== verification/SpscDrop.v ===== *)
(** * SpscDrop: giving up the handles of the SPSC channel

    The end of a handle's life, the same on both sides: close the channel, give
    up the [Arc], and, for the handle that goes last, run [Shared::drop] over
    the events that were never consumed. *)
From S2P Require Import Prelude Conc RingBuffer Cpu Spsc SpscSpec.

Section drop.
Context {T : Type} (cap : Z) (zc : bool).
Implicit Types s : Shared T.
Implicit Types c : config (Shared T) (event T).

Definition guar (w : side) : config (Shared T) (event T) -> config _ _ -> Prop :=
  match w with Prod => guar_producer | Cons => guar_consumer zc end.

#[export] Instance guar_preorder w : PreOrder (guar w).
Proof. destruct w; apply _. Qed.

Lemma guar_guar_drops w c c' : guar w c c' -> guar_drops w c c'.
Proof. destruct w; [apply gp_drops|apply gc_drops]. Qed.

Lemma other_ne w : w <> other w.
Proof. by destruct w. Qed.

Lemma other_other w : other (other w) = w.
Proof. by destruct w. Qed.

Lemma owner_inv w (tr : list (event T)) :
  NoDup (drops tr) -> owner tr = Some w -> drops tr = [other w; w].
Proof.
  unfold owner. destruct (drops tr) as [|w1 [|w2 [|]]]; intros Hnd Ho; simplify_eq.
  apply NoDup_cons in Hnd as [Hnd _]. rewrite list_elem_of_singleton in Hnd.
  destruct w1, w; done.
Qed.

(** The owner of the shared state is alone. *)
Lemma guar_gone w c c' : owner c.2 = Some w -> guar (other w) c c' -> c' = c.
Proof.
  intros Ho Hg%guar_guar_drops. apply (gd_gone _ _ _ Hg). by rewrite other_other.
Qed.

(** The other side never makes this one the owner. *)
Lemma guar_owner w c c' :
  guar (other w) c c' -> w ∈ drops c.2 -> owner c.2 <> Some w -> owner c'.2 <> Some w.
Proof.
  intros Hg%guar_guar_drops Hw Ho. destruct (gd_drops _ _ _ Hg) as [He|[_ He]].
  - unfold owner in *. by rewrite He.
  - unfold owner. rewrite He. destruct (drops c.2) as [|w1 [|w2 l]]; simpl; try done.
    + intros [= Hw']. by apply (other_ne w).
    + by destruct l.
Qed.

(** ** The steps *)

Lemma inv_close w s tr :
  inv cap (s, tr) -> w ∉ drops tr ->
  inv cap (set_closed s, tr) /\ guar w (s, tr) (set_closed s, tr).
Proof.
  intros HI Hw. pose proof (inv_nodup _ _ HI) as Hnd. split; [by destruct HI|].
  destruct w; split; simpl; try done; try by apply guar_drops_same.
  intros _ q _ Hq. exfalso. revert Hq. unfold pcur. simpl. lia.
Qed.

Lemma inv_release w s tr :
  inv cap (s, tr) -> w ∉ drops tr ->
  (w = Cons -> live_range (buffer s) (ccur s + 1) (pcur s)) ->
  let s' := set_strong (strong_count s - 1) s in
  inv cap (s', tr ++ [Dropped w]) /\ guar w (s, tr) (s', tr ++ [Dropped w]).
Proof.
  intros [Hwf Hcap Hord Hsp Hby Htr Hlv Hnd Hcnt] Hw Hlive s'. simpl in *.
  assert (Hdr : drops (tr ++ [Dropped w]) = drops tr ++ [w]) by (by rewrite drops_app).
  split.
  - split; simpl; try done.
    + eapply fifo_run_app; [exact Htr|]. repeat econstructor.
    + unfold owner. rewrite Hdr. intros Hin Ho. destruct w; [|by apply Hlive].
      exfalso. apply elem_of_app in Hin as [Hin|?%list_elem_of_singleton]; [|done].
      destruct (drops tr) as [|w1 [|w2 l]] eqn:Hd; simpl in *; try done; [by apply elem_of_nil in Hin|].
      apply NoDup_cons in Hnd as [Hnd _]. rewrite not_elem_of_cons in Hnd.
      rewrite !not_elem_of_cons in Hw. destruct Hnd, Hw as (? & ? & ?), w1, w2; done.
    + rewrite Hdr. apply NoDup_app. split; [done|]. split; [|apply NoDup_singleton].
      intros w' Hw' ->%list_elem_of_singleton. done.
    + rewrite Hdr, length_app. simpl. lia.
  - assert (Hgd : guar_drops w (s, tr) (s', tr ++ [Dropped w])).
    { split; simpl; [by right|]. by rewrite (owner_none w). }
    destruct w; split; simpl; autorewrite with spsc; simpl; autorewrite with spsc; try done.
    intros _ q _ Hq. exfalso. revert Hq. unfold pcur. simpl. lia.
Qed.

Lemma inv_owner_drop w s tr q v :
  inv cap (s, tr) -> owner tr = Some w -> ccur s < q <= pcur s ->
  get_ptr (buffer s) q = Some (Live v) ->
  let s' := set_buffer (set_slot (buffer s) q (Moved v)) s in
  inv cap (s', tr) /\ guar w (s, tr) (s', tr).
Proof.
  intros [Hwf Hcap Hord Hsp Hby Htr Hlv Hnd Hcnt] Ho Hq Hv s'. simpl in *.
  assert (Hkeep : forall q', ccur s < q' <= pcur s ->
            get_ptr (set_slot (buffer s) q (Moved v)) q' ≫= slot_bytes
            = get_ptr (buffer s) q' ≫= slot_bytes).
  { intros q' Hq'. apply (set_moved_bytes _ _ _ _ cap); [done..|lia]. }
  assert (Hd : drops tr = [other w; w]) by (by apply owner_inv).
  split.
  - split; simpl; try done.
    + by apply wf_set_slot.
    + intros q' Hq'. rewrite Hkeep by done. auto.
    + erewrite payload_ext; [exact Htr|]. intros q' Hq'. rewrite Hkeep; [done|].
      change (ccur s') with (ccur s) in Hq'. change (pcur s') with (pcur s) in Hq'. lia.
    + congruence.
  - assert (Hgd : guar_drops w (s, tr) (s', tr)).
    { split; simpl; [by left|]. rewrite Ho. intros [= Hw]. by destruct (other_ne w). }
    destruct w; split; simpl; try done; rewrite Hd; intros; exfalso;
      match goal with H : _ ∉ _ |- _ => apply H; by left end.
Qed.

(** ** The programs *)

Context (w : side).
Abbreviation WP := (wp (inv (T := T) cap) (guar (other w)) (guar w)).

(** Alone with the shared state, [drop_range] drops each value once. *)
Lemma wp_drop_range n : forall lo s tr (Q : list T -> config _ _ -> Prop),
  inv cap (s, tr) -> owner tr = Some w -> ccur s < lo -> lo + Z.of_nat n - 1 <= pcur s ->
  live_range (buffer s) lo (lo + Z.of_nat n - 1) ->
  (forall s', Q (payload (buffer s) lo (Z.of_nat n)) (s', tr)) ->
  WP (drop_range lo n) Q (s, tr).
Proof.
  induction n as [|n IH]; intros lo s tr Q HI Ho Hlo Hhi Hlive HQ.
  { intros c' HR _. apply guar_gone in HR as ->; [apply HQ|done]. }
  cbn [drop_range bind wp]. intros c' HR _. apply guar_gone in HR as ->; [|done].
  destruct (Hlive lo) as [v Hv]; [lia|].
  unfold apply_upd, RingBuffer.drop_in_place, RingBuffer.get; simpl. rewrite Hv, app_nil_r.
  pose proof (inv_wf _ _ HI) as Hwf. pose proof (inv_cap _ _ HI) as Hcap.
  pose proof (inv_space _ _ HI) as Hsp. simpl in Hwf, Hcap, Hsp.
  destruct (inv_owner_drop w s tr lo v) as [HI1 HG1]; [done|done|lia|done|].
  split; [done|]. split; [done|].
  set (s1 := set_buffer (set_slot (buffer s) lo (Moved v)) s) in *.
  assert (Hc1 : ccur s1 = ccur s) by done. assert (Hp1 : pcur s1 = pcur s) by done.
  assert (Hkeep : forall q, lo + 1 <= q <= lo + Z.of_nat n ->
            get_ptr (buffer s1) q = get_ptr (buffer s) q).
  { intros q Hq. apply get_ptr_set_other; [done|lia|rewrite Hcap; lia]. }
  cbn [bind]. apply wp_bind; [apply _|done|]. apply IH; [done|done|lia|lia| |].
  - intros q Hq. rewrite Hkeep by lia. apply Hlive. lia.
  - intros s' c' HR _. apply guar_gone in HR as ->; [|done].
    replace (v :: _) with (payload (buffer s) lo (Z.of_nat (Datatypes.S n))); [apply HQ|].
    rewrite Nat2Z.inj_succ, <- Z.add_1_l, payload_app by lia.
    rewrite (payload_one _ _ v) by (by rewrite Hv). simpl. f_equal.
    apply payload_ext. intros q Hq. by rewrite Hkeep by lia.
Qed.

Lemma wp_shared_drop s tr (Q : list T -> config _ _ -> Prop) :
  inv cap (s, tr) -> owner tr = Some w -> live_range (buffer s) (ccur s + 1) (pcur s) ->
  (forall s' ds, sent tr = rcvd tr ++ ds -> Q ds (s', tr)) ->
  WP shared_drop Q (s, tr).
Proof.
  intros HI Ho Hlive HQ. pose proof (inv_order _ _ HI) as Hord. simpl in Hord.
  pose proof (fifo_run_history _ _ _ _ (inv_trace _ _ HI)) as Hhist. simpl in Hhist.
  unfold shared_drop. apply wp_load; [apply _|]. intros c1 HR _.
  apply guar_gone in HR as ->; [|done].
  apply wp_load; [apply _|]. intros c1 HR _. apply guar_gone in HR as ->; [|done]. simpl.
  destruct (Z.ltb_spec (ccur s) (pcur s)) as [Hlt|Hge].
  - apply wp_drop_range; try done; try lia.
    + intros q Hq. apply Hlive. lia.
    + intros s'. apply HQ. rewrite Z2Nat.id by lia. done.
  - intros c1 HR _. apply guar_gone in HR as ->; [|done]. apply HQ.
    rewrite Hhist. replace (pcur s - ccur s) with 0 by lia. done.
Qed.

(** What is known once the handle is gone: its owner has dropped exactly what
    was sent and not received, the other one nothing. *)
Definition drop_post (ds : list T) c : Prop :=
  w ∈ drops c.2 /\
  ((owner c.2 = Some w /\ sent c.2 = rcvd c.2 ++ ds) \/ (owner c.2 <> Some w /\ ds = [])).

Lemma drop_post_rely ds c c' : drop_post ds c -> guar (other w) c c' -> drop_post ds c'.
Proof.
  intros [Hw [[Ho Hs]|[Ho Hs]]] HR.
  - by rewrite (guar_gone _ _ _ Ho HR); split; auto.
  - split; [|right; split; [by eapply guar_owner|done]].
    destruct (gd_drops _ _ _ (guar_guar_drops _ _ _ HR)) as [->|[_ ->]]; [done|].
    apply elem_of_app. by left.
Qed.

(** The last handle finds every unconsumed slot live. *)
Lemma owner_live s tr :
  inv cap (s, tr) -> w ∉ drops tr -> strong_count s = 1 ->
  (w = Cons -> live_range (buffer s) (ccur s + 1) (pcur s)) ->
  owner (tr ++ [Dropped w]) = Some w /\ live_range (buffer s) (ccur s + 1) (pcur s).
Proof.
  intros HI Hw Hc Hlive. pose proof (inv_count _ _ HI) as Hcnt. simpl in Hcnt.
  unfold owner. rewrite drops_app. cbn [drops omap list_omap].
  pose proof (inv_live _ _ HI) as Hl. unfold owner in Hl. simpl in Hl.
  destruct (drops tr) as [|w1 [|]]; simpl in *; try lia. split; [done|].
  destruct w; [|by apply Hlive]. apply Hl; [|done].
  destruct w1; [|by left]. exfalso. apply Hw. by left.
Qed.

(** The side's own record of what it has done, and what the consumer knows of
    the slots while it has not started to read. *)
Definition hist (tr : list (event T)) : list T :=
  match w with Prod => sent tr | Cons => rcvd tr end.
Definition side_live c : Prop :=
  w = Cons -> live_range (buffer c.1) (ccur c.1 + 1) (pcur c.1).

Lemma hist_rely c c' : guar (other w) c c' -> hist c'.2 = hist c.2.
Proof. unfold hist. destruct w; simpl; intros []; congruence. Qed.

Lemma side_live_rely c c' :
  w ∉ drops c.2 -> guar (other w) c c' -> side_live c -> side_live c'.
Proof.
  unfold side_live. destruct w; simpl; [done|]. intros Hw HG Hlive _ q Hq.
  specialize (Hlive eq_refl). rewrite (gp_ccur _ _ HG) in Hq.
  destruct (Z.le_gt_cases q (pcur c.1)).
  - rewrite (gp_keep _ _ HG Hw) by lia. apply Hlive. lia.
  - apply (gp_new _ _ HG Hw); lia.
Qed.

Lemma alive_rely c c' : guar (other w) c c' -> w ∉ drops c.2 -> w ∉ drops c'.2.
Proof.
  intros HG%guar_guar_drops. eapply guar_drops_alive; [done|apply other_ne].
Qed.

Lemma wp_handle_drop acc c (Q : list T -> config _ _ -> Prop) :
  inv cap c -> w ∉ drops c.2 -> side_live c -> hist c.2 = acc ->
  (forall ds c', inv cap c' -> drop_post ds c' -> hist c'.2 = acc -> Q ds c') ->
  WP (close ;;; arc_drop w) Q c.
Proof.
  intros HI Hw Hlive Hh HQ. cbn [bind close store wp]. intros [s tr] HR HI1.
  pose proof (alive_rely _ _ HR Hw) as Hw1. pose proof (side_live_rely _ _ Hw HR Hlive) as Hl1.
  unfold apply_upd; simpl. rewrite app_nil_r.
  destruct (inv_close w s tr HI1 Hw1) as [HI2 HG2]. split; [done|]. split; [done|].
  intros [s2 tr2] HR2 HI3. pose proof (alive_rely _ _ HR2 Hw1) as Hw3.
  pose proof (side_live_rely (set_closed s, tr) _ Hw1 HR2 Hl1) as Hl3. simpl in Hw3.
  destruct (inv_release w s2 tr2 HI3 Hw3 Hl3) as [HI4 HG4]. split; [done|]. split; [done|].
  assert (Hh4 : hist (tr2 ++ [Dropped w]) = acc).
  { pose proof (hist_rely _ _ HR) as Hh1. pose proof (hist_rely _ _ HR2) as Hh2.
    simpl in Hh1, Hh2. rewrite <- Hh, <- Hh1, <- Hh2. unfold hist.
    destruct w; rewrite ?sent_app, ?rcvd_app; apply app_nil_r. }
  assert (Hin : w ∈ drops (tr2 ++ [Dropped w])).
  { rewrite drops_app. apply elem_of_app. right. by left. }
  cbn [fst]. destruct (Z.eqb_spec (strong_count s2) 1) as [H1|H1].
  - destruct (owner_live s2 tr2 HI3 Hw3 H1 Hl3) as [Ho4 Hlv4].
    eapply wp_mono_inv; [|apply (wp_shared_drop _ _ (fun ds c' => c'.2 = tr2 ++ [Dropped w] /\
      sent c'.2 = rcvd c'.2 ++ ds)); done].
    intros ds [s5 tr5] HI5 [He Hs]. simpl in He, Hs. subst tr5. apply HQ; [done| |done].
    split; [done|]. by left.
  - intros c5 HR5 HI5. apply HQ; [done| |by rewrite (hist_rely _ _ HR5)].
    eapply drop_post_rely; [|done]. split; [done|]. right. split; [|done]. simpl.
    intros Ho. apply H1. apply owner_inv in Ho; [|apply (inv_nodup _ _ HI4)].
    pose proof (inv_count _ _ HI4) as Hc. simpl in Hc. rewrite Ho in Hc. simpl in Hc.
    unfold set_strong in Hc. simpl in Hc. lia.
Qed.

(** What a client's result (what it has done, what its drop has destroyed) says
    of the final trace. *)
Definition client_post (r : list T * list T) c : Prop :=
  hist c.2 = r.1 /\ (w ∈ drops c.2 -> drop_post r.2 c).

Lemma wp_client_end acc ds c :
  inv cap c -> drop_post ds c -> hist c.2 = acc -> WP (Ret (acc, ds)) client_post c.
Proof.
  intros HI Hd Hh c' HR HI'. split; simpl; [by rewrite (hist_rely _ _ HR)|].
  intros _. by eapply drop_post_rely.
Qed.

End drop.
