(* ===== verification/SpscProducer.v ===== *)
(** * SpscProducer: the producer's side of the SPSC channel

    The client [producer_client] runs any sequence of producer operations and
    then drops the handle; every operation meets its rely-guarantee
    precondition against an arbitrary consumer. *)
From S2P Require Import Prelude Conc RingBuffer Cpu Spsc SpscSpec SpscDrop.

(** ** Clients *)

(** The client of a [Producer]: a sequence of operations.  [OpClaim f] is
    [claim], an update of the slot through the reference, [publish];
    [OpBatch fs] claims one slot per function of [fs], updates each and
    publishes the batch. *)
Inductive producer_op (T : Type) : Type :=
| OpSend (v : T)
| OpTrySend (v : T)
| OpAvailable
| OpClose
| OpClaim (f : T -> T)
| OpTryClaim (f : T -> T)
| OpBatch (fs : list (T -> T))
| OpTryBatch (fs : list (T -> T)).
Arguments OpSend {T} v.
Arguments OpTrySend {T} v.
Arguments OpAvailable {T}.
Arguments OpClose {T}.
Arguments OpClaim {T} f.
Arguments OpTryClaim {T} f.
Arguments OpBatch {T} fs.
Arguments OpTryBatch {T} fs.

Section producer_client.
Context {T : Type}.
Abbreviation P := (prog (Shared T) (event T)).

Fixpoint batch_fill (b : BatchSlots) (i : Z) (fs : list (T -> T)) : P (list T) :=
  match fs with
  | [] => Ret []
  | f :: fs =>
      let! v := batch_get_mut b i f in
      let! vs := batch_fill b (i + 1) fs in
      Ret (v :: vs)
  end.

(** One operation; returns the values it has published, [None] while it is still
    waiting for space. *)
Definition produce (fuel : nat) (h : Producer) (op : producer_op T) : P (option (Producer * list T)) :=
  match op with
  | OpSend v =>
      let! r := send fuel h v in
      Ret (match r with
           | None => None
           | Some (h, Ok _) => Some (h, [v])
           | Some (h, Err _) => Some (h, [])
           end)
  | OpTrySend v =>
      let! (h, r) := try_send h v in
      Ret (Some (h, match r with Ok _ => [v] | Err _ => [] end))
  | OpAvailable => available_slots h ;;; Ret (Some (h, []))
  | OpClose => close ;;; Ret (Some (h, []))
  | OpClaim f =>
      let! r := claim fuel h in
      match r with
      | None => Ret None
      | Some (h, Err _) => Ret (Some (h, []))
      | Some (h, Ok _) =>
          let! v := claimed_update h f in let! h := publish h in Ret (Some (h, [v]))
      end
  | OpTryClaim f =>
      let! (h, r) := try_claim h in
      match r with
      | Err _ => Ret (Some (h, []))
      | Ok _ => let! v := claimed_update h f in let! h := publish h in Ret (Some (h, [v]))
      end
  | OpBatch fs =>
      let! r := claim_batch fuel h (Z.of_nat (length fs)) in
      match r with
      | None => Ret None
      | Some (h, Err _) => Ret (Some (h, []))
      | Some (h, Ok b) =>
          let! vs := batch_fill b 0 fs in batch_publish b ;;; Ret (Some (h, vs))
      end
  | OpTryBatch fs =>
      let! (h, r) := try_claim_batch h (Z.of_nat (length fs)) in
      match r with
      | Err _ => Ret (Some (h, []))
      | Ok b => let! vs := batch_fill b 0 fs in batch_publish b ;;; Ret (Some (h, vs))
      end
  end.

(** The client runs its operations and gives up the handle; it returns the values
    it has published, in order, and the values its drop has destroyed.  A client
    that is still waiting for space has not got that far. *)
Fixpoint producer_client (fuel : nat) (h : Producer) (ops : list (producer_op T)) (acc : list T)
    : P (list T * list T) :=
  match ops with
  | [] => let! ds := producer_drop in Ret (acc, ds)
  | op :: ops =>
      let! r := produce fuel h op in
      match r with
      | None => Ret (acc, [])
      | Some (h, vs) => producer_client fuel h ops (acc ++ vs)
      end
  end.

End producer_client.

(** The operations that hand out references need slots that always hold live
    values ([zc]), and batches that fit. *)
Definition producer_op_ok {T} (cap : Z) (zc : bool) (op : producer_op T) : Prop :=
  match op with
  | OpClaim _ | OpTryClaim _ => zc = true
  | OpBatch fs | OpTryBatch fs => zc = true /\ 0 < Z.of_nat (length fs) <= cap
  | _ => True
  end.

(** ** The producer's operations *)

Section producer.
Context {T : Type} (cap : Z) (zc : bool).
Implicit Types s : Shared T.
Implicit Types c : config (Shared T) (event T).
Implicit Types h : Producer.

Abbreviation R := (guar_consumer zc).
Abbreviation G := guar_producer.
Abbreviation WP := (wp (inv (T := T) cap) R G).

Definition all_live (b : RingBuffer T) : Prop :=
  forall q, exists v, get_ptr b q = Some (Live v).

(** What the producer knows between two operations, when [acc] are the values it
    has published: its sequence is the one after the cursor, and its cached copy
    of the consumer cursor may only lag behind. *)
Record prod_ok h (acc : list T) c : Prop := {
  po_next : next_sequence h = pcur c.1 + 1;
  po_cached : cached_consumer h <= ccur c.1;
  po_cap : p_capacity h = cap;
  po_live : zc = true -> all_live (buffer c.1);
  po_sent : sent c.2 = acc;
  po_alive : Prod ∉ drops c.2;
}.

Lemma prod_ok_rely h acc c c' : prod_ok h acc c -> R c c' -> prod_ok h acc c'.
Proof.
  intros [Hn Hc Hcap Hl Hs Ha] HR. pose proof HR as [? Hp Hcc _ Hz Hs' Hd].
  split; try lia; try congruence.
  - intros Hzc. rewrite Hz by done. auto.
  - by eapply guar_drops_alive.
Qed.

(** An operation that has not returned yet has published nothing more. *)
Definition waiting (acc : list T) c : Prop := sent c.2 = acc /\ Prod ∉ drops c.2.

Lemma waiting_rely acc c c' : waiting acc c -> R c c' -> waiting acc c'.
Proof.
  intros [Hs Ha] HR. split; [by rewrite (gc_sent _ _ _ HR)|].
  by apply (guar_drops_alive _ _ _ _ (gc_drops _ _ _ HR)).
Qed.

Lemma prod_ok_waiting h acc c : prod_ok h acc c -> waiting acc c.
Proof. by intros []. Qed.

(** The handle differs only in its two caches. *)
Definition same_handle h h' : Prop :=
  next_sequence h' = next_sequence h /\ p_capacity h' = p_capacity h /\ claimed h' = claimed h.

Lemma is_disconnected_reads h : reads_only (is_disconnected (T := T) h).
Proof.
  unfold is_disconnected, check_disconnected. destruct (cached_disconnected h); simpl; [done|].
  split; [done|]. intros s. destruct (closed s); simpl; done.
Qed.

Lemma is_disconnected_returns h :
  returns (fun r => same_handle h r.1 /\ cached_consumer r.1 = cached_consumer h)
    (is_disconnected (T := T) h).
Proof.
  unfold is_disconnected, check_disconnected, same_handle.
  destruct (cached_disconnected h); simpl; [done|].
  intros s. destruct (closed s); simpl; [done|]. intros s'.
  destruct (strong_count s' =? 1); done.
Qed.

Lemma wp_is_disconnected {A} h acc (k : Producer * bool -> prog _ _ A) Q c :
  inv cap c -> prod_ok h acc c ->
  (forall h' d c', inv cap c' -> prod_ok h' acc c' -> same_handle h h' -> WP (k (h', d)) Q c') ->
  WP (bind (is_disconnected h) k) Q c.
Proof.
  intros HI Hok Hk. apply wp_bind; [apply _|done|].
  eapply wp_reads_returns;
    [apply _|apply _|apply is_disconnected_reads|apply is_disconnected_returns|].
  intros [h' d] c' [Hs Hc] HR HI'. apply Hk; [done| |done].
  destruct (prod_ok_rely _ _ _ _ Hok HR), Hs as (? & ? & ?).
  split; simpl in *; try done; try congruence; lia.
Qed.

(** Space for [n] more events, as the producer's cache shows it. *)
Definition has_space h (n : Z) : Prop := next_sequence h + n - 1 - cap <= cached_consumer h.

Definition space_post h (acc : list T) n (o : option (Producer * Result unit unit)) c' : Prop :=
  match o with
  | None => waiting acc c'
  | Some (h', r) =>
      prod_ok h' acc c' /\ same_handle h h' /\
      match r with Ok _ => has_space h' n | Err _ => True end
  end.

Lemma wp_wait_loop fuel iteration h h0 acc n c :
  inv cap c -> prod_ok h acc c -> same_handle h0 h ->
  WP (wait_for_space_loop fuel iteration h (next_sequence h + n - 1 - cap))
     (space_post h0 acc n) c.
Proof.
  revert iteration h c. induction fuel as [|fuel IH]; intros iteration h c HI Hok Hs; simpl.
  { intros c' HR _. apply (prod_ok_waiting h), (prod_ok_rely _ _ _ _ Hok HR). }
  intros c' HR HI'. unfold apply_upd; simpl. rewrite app_nil_r.
  destruct c' as [s tr]; simpl in *. split; [done|]. split; [reflexivity|].
  assert (Hok' : prod_ok (with_cached_consumer (ccur s) h) acc (s, tr)).
  { destruct (prod_ok_rely _ _ _ _ Hok HR). split; simpl in *; try done. }
  destruct (Z.leb_spec (next_sequence h + n - 1 - cap) (ccur s)).
  - intros c'' HR' HI''. split; [by eapply prod_ok_rely|]. split; [done|].
    unfold has_space. simpl. lia.
  - apply (wp_is_disconnected _ acc); [done|done|]. intros h' d c'' HI'' Hok'' (Hn & Hc & Hcl).
    simpl in Hn, Hc, Hcl. assert (Hs' : same_handle h0 h').
    { destruct Hs as (? & ? & ?). split; [congruence|]. split; congruence. }
    destruct d; simpl.
    + intros c3 HR3 HI3. split; [by eapply prod_ok_rely|]. done.
    + rewrite <- Hn. by apply IH.
Qed.

Lemma wp_wait_for_space_n fuel h acc n c :
  inv cap c -> prod_ok h acc c -> WP (wait_for_space_n fuel h n) (space_post h acc n) c.
Proof.
  intros HI Hok. unfold wait_for_space_n. rewrite (po_cap _ _ _ Hok).
  destruct (Z.leb_spec (next_sequence h + n - 1 - cap) (cached_consumer h)).
  - intros c' HR HI'. split; [by eapply prod_ok_rely|]. done.
  - apply wp_wait_loop; done.
Qed.

Lemma all_live_set b q v (Hwf : wf b) :
  (forall q', index b q' <> index b q -> exists w, get_ptr b q' = Some (Live w)) ->
  all_live (set_slot b q (Live v)).
Proof.
  intros Hl q'. destruct (decide (index b q' = index b q)) as [He|Hne].
  - exists v. unfold get_ptr. simpl. rewrite index_set_slot, He.
    apply list_lookup_insert_eq, index_lt, Hwf.
  - destruct (Hl q' Hne) as [w Hw]. exists w. by rewrite get_ptr_set_ne.
Qed.

(** The two halves of a write to the next slot. *)
Lemma wp_buf_write {A} h acc v (k : unit -> prog _ _ A) Q c :
  inv cap c -> prod_ok h acc c -> has_space h 1 ->
  (forall c', inv cap c' -> prod_ok h acc c' ->
     get_ptr (buffer c'.1) (next_sequence h) = Some (Live v) -> WP (k tt) Q c') ->
  WP (bind (buf_write (next_sequence h) v) k) Q c.
Proof.
  intros HI Hok Hsp Hk. unfold has_space in Hsp. simpl.
  intros [s tr] HR HI1. pose proof (prod_ok_rely _ _ _ _ Hok HR) as [Hn Hc Hpc Hl Hs Ha].
  unfold apply_upd; simpl in *. rewrite app_nil_r. rewrite Hn in *.
  destruct (inv_set_free cap s tr (pcur s + 1) Uninit) as [HI2 HG2]; [done|done|lia|].
  split; [done|]. split; [done|]. intros [s1 tr1] HR1 HI3. simpl. rewrite app_nil_r.
  assert (Hp1 : pcur s1 = pcur s) by apply (gc_pcur _ _ _ HR1).
  assert (Hc1 : ccur s <= ccur s1) by apply (gc_ccur _ _ _ HR1).
  assert (Ha1 : Prod ∉ drops tr1) by (by apply (guar_drops_alive _ _ _ _ (gc_drops _ _ _ HR1))).
  destruct (inv_set_free cap s1 tr1 (pcur s + 1) (Live v)) as [HI4 HG4]; [done|done|lia|].
  split; [done|]. split; [done|]. apply Hk; [done| |].
  - split; simpl; try done.
    + change (pcur (set_buffer _ s1)) with (pcur s1). lia.
    + change (ccur (set_buffer _ s1)) with (ccur s1). lia.
    + intros Hz. apply all_live_set; [apply (inv_wf _ _ HI3)|].
      intros q' Hq'. pose proof (gc_zc _ _ _ HR1 Hz Ha) as Hb1. simpl in Hb1. rewrite Hb1 in *.
      rewrite get_ptr_set_ne; [by apply Hl|]. intros He. by apply Hq'.
    + pose proof (gc_sent _ _ _ HR1). simpl in *. congruence.
  - simpl. apply get_ptr_set_eq, (inv_wf _ _ HI3).
Qed.

(** The producer cursor advances over live slots. *)
Lemma wp_publish_cursor {A} h acc n (k : unit -> prog _ _ A) Q c :
  inv cap c -> prod_ok h acc c -> 0 <= n -> has_space h n ->
  live_range (buffer c.1) (next_sequence h) (next_sequence h + n - 1) ->
  (forall c', inv cap c' ->
     prod_ok (with_next (next_sequence h + n) h)
       (acc ++ payload (buffer c.1) (next_sequence h) n) c' -> WP (k tt) Q c') ->
  WP (bind (publish_cursor (next_sequence h + n - 1)) k) Q c.
Proof.
  intros HI Hok Hn0 Hsp Hlive Hk. unfold has_space in Hsp. simpl. intros [s2 tr2] HR HI2.
  pose proof (prod_ok_rely _ _ _ _ Hok HR) as [Hn Hc Hpc Hl Hs Ha]. simpl in *.
  assert (Hkeep : forall q, next_sequence h <= q <= next_sequence h + n - 1 ->
            get_ptr (buffer s2) q = get_ptr (buffer c.1) q).
  { intros q Hq. apply (gc_keep _ _ _ HR (po_alive _ _ _ Hok)). rewrite (inv_cap _ _ HI).
    pose proof (po_next _ _ _ Hok). pose proof (po_cached _ _ _ Hok). lia. }
  destruct (inv_publish cap s2 tr2 (next_sequence h + n - 1)) as [HI6 HG6]; [done|done|lia| |].
  { intros q Hq. rewrite Hkeep by lia. apply Hlive. lia. }
  split; [done|]. split; [done|]. apply Hk; [done|]. split; simpl; try done.
  - unfold pcur, set_producer. simpl. lia.
  - autorewrite with spsc. rewrite Hs. f_equal.
    replace (next_sequence h + n - 1 - pcur s2) with n by lia. rewrite <- Hn.
    apply payload_ext. intros q Hq. by rewrite Hkeep by lia.
  - by autorewrite with spsc.
Qed.

(** Writing one event into the next slot and publishing it. *)
Lemma wp_write_publish {A} h acc v (k : unit -> prog _ _ A) Q c :
  inv cap c -> prod_ok h acc c -> has_space h 1 ->
  (forall c', inv cap c' -> prod_ok (with_next (next_sequence h + 1) h) (acc ++ [v]) c' ->
     WP (k tt) Q c') ->
  WP (buf_write (next_sequence h) v ;;; bind (publish_cursor (next_sequence h)) k) Q c.
Proof.
  intros HI Hok Hsp Hk. apply (wp_buf_write _ acc); [done..|]. intros c' HI' Hok' Hv.
  replace (next_sequence h) with (next_sequence h + 1 - 1) at 1 by lia.
  apply (wp_publish_cursor _ acc); [done|done|lia|done| |].
  - intros q Hq. assert (q = next_sequence h) as -> by lia. eauto.
  - intros c'' HI'' Hok''. apply Hk; [done|].
    rewrite (payload_one _ _ v) in Hok'' by (by rewrite Hv). done.
Qed.

(** A client's update of a claimed slot: the first [i] slots of the claim hold
    the values [vs] already. *)
Lemma wp_buf_modify {A} h acc i vs f (k : T -> prog _ _ A) Q c :
  zc = true -> inv cap c -> prod_ok h acc c -> 0 <= i -> has_space h (i + 1) ->
  payload (buffer c.1) (next_sequence h) i = vs ->
  (forall v c', inv cap c' -> prod_ok h acc c' ->
     payload (buffer c'.1) (next_sequence h) (i + 1) = vs ++ [v] -> WP (k v) Q c') ->
  WP (bind (buf_modify (next_sequence h + i) f) k) Q c.
Proof.
  intros Hz HI Hok Hi Hsp Hvs Hk. unfold has_space in Hsp. simpl.
  intros [s tr] HR HI1. pose proof (prod_ok_rely _ _ _ _ Hok HR) as [Hn Hc Hpc Hl Hs Ha].
  pose proof (gc_zc _ _ _ HR Hz (po_alive _ _ _ Hok)) as Hb. unfold apply_upd; simpl in *. rewrite app_nil_r.
  destruct (Hl Hz (next_sequence h + i)) as [w Hw].
  unfold RingBuffer.get_mut, RingBuffer.get. rewrite Hw.
  pose proof (inv_wf _ _ HI1) as Hwf. pose proof (inv_cap _ _ HI1) as Hcap.
  pose proof (inv_order _ _ HI1) as Hord. simpl in *.
  destruct (inv_set_free cap s tr (next_sequence h + i) (Live (f w))) as [HI2 HG2]; [done|done|lia|].
  split; [done|]. split; [done|]. apply Hk; [done| |].
  - split; simpl; try done. intros _. apply all_live_set; [done|]. intros q _. by apply Hl.
  - simpl. rewrite payload_app by lia. rewrite (payload_one _ _ (f w)).
    + f_equal. rewrite <- Hvs, <- Hb. apply payload_ext. intros q Hq.
      rewrite get_ptr_set_other; [done|done|lia|rewrite Hcap; lia].
    + by rewrite get_ptr_set_eq.
Qed.

Definition produce_post acc (o : option (Producer * list T)) c' : Prop :=
  match o with
  | None => waiting acc c'
  | Some (h', vs) => prod_ok h' (acc ++ vs) c' /\ claimed h' = false
  end.

Lemma produce_post_rely acc o c c' : produce_post acc o c -> R c c' -> produce_post acc o c'.
Proof.
  destruct o as [[h' vs]|]; simpl.
  - intros [Hok Hcl] HR. split; [by eapply prod_ok_rely|done].
  - intros Hs HR. by eapply waiting_rely.
Qed.

Lemma wp_ret_post acc o c : produce_post acc o c -> WP (Ret o) (produce_post acc) c.
Proof. intros Ho c' HR HI. by eapply produce_post_rely. Qed.

Lemma wp_none acc c : waiting acc c -> WP (Ret None) (produce_post acc) c.
Proof. apply (wp_ret_post acc None). Qed.

Lemma wp_nothing h acc c :
  prod_ok h acc c -> claimed h = false -> WP (Ret (Some (h, []))) (produce_post acc) c.
Proof. intros. apply wp_ret_post. simpl. by rewrite app_nil_r. Qed.

(** The common start of the sending operations: the disconnection test. *)
Lemma wp_check_disconnected {A} h acc (k : Producer * bool -> prog _ _ A) Q c :
  inv cap c -> prod_ok h acc c -> claimed h = false ->
  (forall h' d c', inv cap c' -> prod_ok h' acc c' -> claimed h' = false -> WP (k (h', d)) Q c') ->
  WP (bind (is_disconnected h) k) Q c.
Proof.
  intros HI Hok Hcl Hk. apply (wp_is_disconnected _ acc); [done|done|].
  intros h' d c' HI' Hok' (? & ? & ?). apply Hk; [done|done|congruence].
Qed.

Lemma wp_wait_space {A} fuel h acc n (k : option (Producer * Result unit unit) -> prog _ _ A) Q c :
  inv cap c -> prod_ok h acc c -> claimed h = false ->
  (forall c', inv cap c' -> waiting acc c' -> WP (k None) Q c') ->
  (forall h' c', inv cap c' -> prod_ok h' acc c' -> claimed h' = false ->
     WP (k (Some (h', Err tt))) Q c') ->
  (forall h' c', inv cap c' -> prod_ok h' acc c' -> claimed h' = false -> has_space h' n ->
     WP (k (Some (h', Ok tt))) Q c') ->
  WP (bind (wait_for_space_n fuel h n) k) Q c.
Proof.
  intros HI Hok Hcl Hnone Herr Hok'. apply wp_bind; [apply _|done|].
  eapply wp_mono_inv; [|by apply wp_wait_for_space_n].
  intros [[h' [[]|[]]]|] c' HI' Hpost; simpl in Hpost; [| |by apply Hnone];
    destruct Hpost as (Hp & (? & ? & ?) & ?); [apply Hok'|apply Herr]; try done; congruence.
Qed.

Lemma wp_done {A} h acc (a : A) (Q : A -> config _ _ -> Prop) c :
  prod_ok h acc c -> (forall c', inv cap c' -> prod_ok h acc c' -> Q a c') -> WP (Ret a) Q c.
Proof. intros Hok HQ c' HR HI. apply HQ; [done|by eapply prod_ok_rely]. Qed.

Lemma wp_stop {A} acc (a : A) (Q : A -> config _ _ -> Prop) c :
  waiting acc c -> (forall c', inv cap c' -> waiting acc c' -> Q a c') -> WP (Ret a) Q c.
Proof. intros Hs HQ c' HR HI. apply HQ; [done|]. by eapply waiting_rely. Qed.

Lemma wp_op_send fuel h acc v c :
  inv cap c -> prod_ok h acc c -> claimed h = false ->
  WP (produce fuel h (OpSend v)) (produce_post acc) c.
Proof.
  intros HI Hok Hcl. apply wp_bind; [apply _|done|].
  unfold send. rewrite Hcl. cbn [bind rassert negb].
  apply (wp_check_disconnected _ acc); [done..|]. intros h1 [] c1 HI1 Hok1 Hcl1.
  { apply (wp_done _ _ _ _ _ Hok1). intros. by apply wp_nothing. }
  apply (wp_wait_space _ _ acc); [done..| | |].
  - intros c2 HI2 Hs. apply (wp_stop _ _ _ _ Hs). intros. by apply wp_none.
  - intros h2 c2 HI2 Hok2 Hcl2. apply (wp_done _ _ _ _ _ Hok2). intros. by apply wp_nothing.
  - intros h2 c2 HI2 Hok2 Hcl2 Hsp. apply (wp_write_publish _ acc); [done..|].
    intros c3 HI3 Hok3. apply (wp_done _ _ _ _ _ Hok3). intros. by apply wp_ret_post.
Qed.

Lemma wp_try_space {A} h acc (k : Producer * bool -> prog _ _ A) Q c :
  inv cap c -> prod_ok h acc c -> claimed h = false ->
  (forall h' room c', inv cap c' -> prod_ok h' acc c' -> claimed h' = false ->
     (room = true -> has_space h' 1) -> WP (k (h', room)) Q c') ->
  WP (bind (try_space h) k) Q c.
Proof.
  intros HI Hok Hcl Hk. unfold try_space, has_space in *. rewrite (po_cap _ _ _ Hok).
  destruct (Z.ltb_spec (cached_consumer h) (next_sequence h - cap)) as [Hlt|Hge].
  - simpl. intros [s tr] HR HI1. unfold apply_upd; simpl. rewrite app_nil_r.
    split; [done|]. split; [reflexivity|]. apply Hk; [done| |done|].
    + destruct (prod_ok_rely _ _ _ _ Hok HR). split; simpl in *; done.
    + simpl. rewrite negb_true_iff, Z.ltb_ge. lia.
  - simpl. apply Hk; [done..|]. lia.
Qed.

Lemma wp_op_try_send fuel h acc v c :
  inv cap c -> prod_ok h acc c -> claimed h = false ->
  WP (produce fuel h (OpTrySend v)) (produce_post acc) c.
Proof.
  intros HI Hok Hcl. apply wp_bind; [apply _|done|].
  unfold try_send. rewrite Hcl. cbn [bind rassert negb].
  apply (wp_check_disconnected _ acc); [done..|]. intros h1 [] c1 HI1 Hok1 Hcl1.
  { apply (wp_done _ _ _ _ _ Hok1). intros. by apply wp_nothing. }
  apply (wp_try_space _ acc); [done..|]. intros h2 [] c2 HI2 Hok2 Hcl2 Hsp.
  - apply (wp_write_publish _ acc); [by auto..|].
    intros c3 HI3 Hok3. apply (wp_done _ _ _ _ _ Hok3). intros. by apply wp_ret_post.
  - apply (wp_done _ _ _ _ _ Hok2). intros. by apply wp_nothing.
Qed.

(** Operations that only read, or only set the closed flag. *)
Lemma wp_op_available fuel h acc c :
  inv cap c -> prod_ok h acc c -> claimed h = false ->
  WP (produce fuel h OpAvailable) (produce_post acc) c.
Proof.
  intros HI Hok Hcl. apply wp_bind; [apply _|done|].
  eapply wp_reads_only; [apply _|apply _|done|]. intros a c' HR HI'.
  apply wp_nothing; [by eapply prod_ok_rely|done].
Qed.

Lemma wp_op_close fuel h acc c :
  inv cap c -> prod_ok h acc c -> claimed h = false ->
  WP (produce fuel h OpClose) (produce_post acc) c.
Proof.
  intros HI Hok Hcl. simpl. intros [s tr] HR HI1. unfold apply_upd; simpl. rewrite app_nil_r.
  split; [by destruct HI1|]. split.
  { split; simpl; try done.
    - intros _ q _ Hq. exfalso. revert Hq. unfold pcur. simpl. lia.
    - apply guar_drops_same; [apply (inv_nodup _ _ HI1)| |done].
      apply (po_alive _ _ _ (prod_ok_rely _ _ _ _ Hok HR)). }
  intros [s2 tr2] HR2 HI2. rewrite app_nil_r.
  assert (Hok1 : prod_ok h acc (set_closed s, tr)).
  { destruct (prod_ok_rely _ _ _ _ Hok HR). split; done. }
  split; [by eapply prod_ok_rely|done].
Qed.

(** The use of a claimed slot: update through the reference, then publish. *)
Lemma wp_claimed h acc f c :
  zc = true -> inv cap c -> prod_ok h acc c -> has_space h 1 -> claimed h = true ->
  WP (let! v := claimed_update h f in let! h := publish h in Ret (Some (h, [v])))
     (produce_post acc) c.
Proof.
  intros Hz HI Hok Hsp Hcl.
  unfold claimed_update. replace (next_sequence h) with (next_sequence h + 0) at 1 by lia.
  apply (wp_buf_modify _ acc 0 []); [done|done|done|lia|done|done|].
  intros v c2 HI2 Hok2 Hv. unfold publish. rewrite Hcl. cbn [rassert].
  apply wp_bind_assoc. cbn [bind]. apply wp_bind_assoc.
  replace (next_sequence h) with (next_sequence h + 1 - 1) at 1 by lia.
  apply (wp_publish_cursor _ acc); [done|done|lia|done| |].
  - intros q Hq. apply (po_live _ _ _ Hok2 Hz).
  - change (0 + 1) with 1 in Hv. rewrite Hv. intros c3 HI3 Hok3. apply wp_ret_post.
    split; [|done]. destruct Hok3. by split.
Qed.

(** Taking the reference needs a live slot. *)
Lemma wp_buf_get_next {A} h acc (k : T -> prog _ _ A) Q c :
  zc = true -> inv cap c -> prod_ok h acc c ->
  (forall v c', inv cap c' -> prod_ok h acc c' -> WP (k v) Q c') ->
  WP (bind (buf_get (next_sequence h)) k) Q c.
Proof.
  intros Hz HI Hok Hk. cbn [bind buf_get]. intros [s tr] HR HI1.
  pose proof (prod_ok_rely _ _ _ _ Hok HR) as Hok1.
  unfold apply_upd, RingBuffer.get; simpl. rewrite app_nil_r. split; [done|].
  split; [reflexivity|]. destruct (po_live _ _ _ Hok1 Hz (next_sequence h)) as [w Hw].
  simpl in Hw. rewrite Hw. by apply Hk.
Qed.

Lemma prod_ok_claimed h b acc c : prod_ok h acc c -> prod_ok (with_claimed b h) acc c.
Proof. by intros []. Qed.

Lemma wp_op_claim fuel h acc f c :
  zc = true -> inv cap c -> prod_ok h acc c -> claimed h = false ->
  WP (produce fuel h (OpClaim f)) (produce_post acc) c.
Proof.
  intros Hz HI Hok Hcl. apply wp_bind; [apply _|done|].
  unfold claim. rewrite Hcl. cbn [bind rassert negb].
  apply (wp_check_disconnected _ acc); [done..|]. intros h1 [] c1 HI1 Hok1 Hcl1.
  { apply (wp_done _ _ _ _ _ Hok1). intros. by apply wp_nothing. }
  apply (wp_wait_space _ _ acc); [done..| | |].
  - intros c2 HI2 Hs. apply (wp_stop _ _ _ _ Hs). intros. by apply wp_none.
  - intros h2 c2 HI2 Hok2 Hcl2. apply (wp_done _ _ _ _ _ Hok2). intros. by apply wp_nothing.
  - intros h2 c2 HI2 Hok2%(prod_ok_claimed _ true) Hcl2 Hsp. cbn zeta.
    apply (wp_buf_get_next _ acc); [done..|]. intros _ c3 HI3 Hok3.
    apply (wp_done _ _ _ _ _ Hok3). intros. by apply wp_claimed.
Qed.

Lemma wp_op_try_claim fuel h acc f c :
  zc = true -> inv cap c -> prod_ok h acc c -> claimed h = false ->
  WP (produce fuel h (OpTryClaim f)) (produce_post acc) c.
Proof.
  intros Hz HI Hok Hcl. apply wp_bind; [apply _|done|].
  unfold try_claim. rewrite Hcl. cbn [bind rassert negb].
  apply (wp_check_disconnected _ acc); [done..|]. intros h1 [] c1 HI1 Hok1 Hcl1.
  { apply (wp_done _ _ _ _ _ Hok1). intros. by apply wp_nothing. }
  apply (wp_try_space _ acc); [done..|]. intros h2 [] c2 HI2 Hok2 Hcl2 Hsp.
  - apply (prod_ok_claimed _ true) in Hok2. cbn zeta.
    apply (wp_buf_get_next _ acc); [done..|]. intros _ c3 HI3 Hok3.
    apply (wp_done _ _ _ _ _ Hok3). intros. apply wp_claimed; try done. by apply Hsp.
  - apply (wp_done _ _ _ _ _ Hok2). intros. by apply wp_nothing.
Qed.

(** *** Batches *)

(** Filling a claimed batch from slot [i] on, the first [i] holding [vs]. *)
Lemma wp_batch_fill {A} h acc (k : list T -> prog _ _ A) Q fs : forall i vs c,
  zc = true -> inv cap c -> prod_ok h acc c -> 0 <= i ->
  let n := i + Z.of_nat (length fs) in
  has_space h n -> payload (buffer c.1) (next_sequence h) i = vs ->
  (forall ws c', inv cap c' -> prod_ok h acc c' ->
     payload (buffer c'.1) (next_sequence h) n = vs ++ ws -> WP (k ws) Q c') ->
  WP (bind (batch_fill {| start := next_sequence h; count := n; published := false |} i fs) k) Q c.
Proof.
  revert k. induction fs as [|f fs IH]; intros k i vs c Hz HI Hok Hi n Hsp Hvs Hk; subst n.
  { simpl in *. apply Hk; [done|done|]. rewrite Z.add_0_r, app_nil_r. done. }
  cbn [batch_fill length] in *. unfold batch_get_mut. cbn [start count].
  destruct (Z.ltb_spec i (i + Z.of_nat (Datatypes.S (length fs)))); [|lia]. cbn [rassert].
  apply wp_bind_assoc, wp_bind_assoc. cbn [bind].
  apply (wp_buf_modify _ acc i vs); [done|done|done|lia|unfold has_space in *; lia|done|].
  intros v c1 HI1 Hok1 Hv. apply wp_bind_assoc.
  replace (i + Z.of_nat (Datatypes.S (length fs))) with (i + 1 + Z.of_nat (length fs)) in * by lia.
  apply (IH _ (i + 1) (vs ++ [v])); [done|done|done|lia|done|done|].
  intros ws c2 HI2 Hok2 Hws. cbn [bind]. apply Hk; [done|done|].
  rewrite Hws. by rewrite <- app_assoc.
Qed.

(** A claimed batch: fill it, publish it; the handle has moved past it. *)
Lemma wp_batch h acc fs c :
  zc = true -> inv cap c -> prod_ok h acc c -> claimed h = false ->
  0 < Z.of_nat (length fs) -> has_space h (Z.of_nat (length fs)) ->
  let n := Z.of_nat (length fs) in
  let b := {| start := next_sequence h; count := n; published := false |} in
  WP (let! vs := batch_fill b 0 fs in
      batch_publish b ;;; Ret (Some (with_next (next_sequence h + n) h, vs)))
     (produce_post acc) c.
Proof.
  intros Hz HI Hok Hcl Hpos Hsp n b. subst n b.
  apply (wp_batch_fill _ acc _ _ fs 0 []); [done|done|done|lia|done|done|].
  intros vs c1 HI1 Hok1 Hvs. rewrite Z.add_0_l in Hvs. simpl in Hvs.
  unfold batch_publish, do_publish at 1. cbn [published start count].
  apply wp_bind_assoc, wp_bind_assoc.
  apply (wp_publish_cursor _ acc); [done|done|lia|done| |].
  - intros q Hq. apply (po_live _ _ _ Hok1 Hz).
  - rewrite Hvs. intros c2 HI2 Hok2. cbn. intros c' HR HI'.
    split; [by eapply prod_ok_rely|done].
Qed.

Lemma check_batch_ok {A} h n (k : unit -> prog _ _ A) :
  claimed h = false -> 0 < n <= p_capacity h ->
  bind (check_batch (T := T) h n) k = k tt.
Proof.
  intros Hcl Hn. unfold check_batch. rewrite Hcl. cbn [negb rassert bind].
  destruct (Z.ltb_spec 0 n); [|lia]. cbn [rassert bind].
  destruct (Z.leb_spec n (p_capacity h)); [done|lia].
Qed.

Lemma wp_op_batch fuel h acc fs c :
  zc = true -> 0 < Z.of_nat (length fs) <= cap ->
  inv cap c -> prod_ok h acc c -> claimed h = false ->
  WP (produce fuel h (OpBatch fs)) (produce_post acc) c.
Proof.
  intros Hz Hn HI Hok Hcl. apply wp_bind; [apply _|done|].
  unfold claim_batch. rewrite check_batch_ok by (try done; rewrite (po_cap _ _ _ Hok); lia).
  apply (wp_check_disconnected _ acc); [done..|]. intros h1 [] c1 HI1 Hok1 Hcl1.
  { apply (wp_done _ _ _ _ _ Hok1). intros. by apply wp_nothing. }
  apply (wp_wait_space _ _ acc); [done..| | |].
  - intros c2 HI2 Hs. apply (wp_stop _ _ _ _ Hs). intros. by apply wp_none.
  - intros h2 c2 HI2 Hok2 Hcl2. apply (wp_done _ _ _ _ _ Hok2). intros. by apply wp_nothing.
  - intros h2 c2 HI2 Hok2 Hcl2 Hsp. apply (wp_done _ _ _ _ _ Hok2). intros.
    apply wp_batch; try done. lia.
Qed.

Lemma wp_op_try_batch fuel h acc fs c :
  zc = true -> 0 < Z.of_nat (length fs) <= cap ->
  inv cap c -> prod_ok h acc c -> claimed h = false ->
  WP (produce fuel h (OpTryBatch fs)) (produce_post acc) c.
Proof.
  intros Hz Hn HI Hok Hcl. apply wp_bind; [apply _|done|].
  unfold try_claim_batch. rewrite check_batch_ok by (try done; rewrite (po_cap _ _ _ Hok); lia).
  apply (wp_check_disconnected _ acc); [done..|]. intros h1 [] c1 HI1 Hok1 Hcl1.
  { apply (wp_done _ _ _ _ _ Hok1). intros. by apply wp_nothing. }
  apply wp_load; [apply _|]. intros c2 HR2 HI2. cbn zeta.
  assert (Hok2 : prod_ok (with_cached_consumer (ccur c2.1) h1) acc c2).
  { destruct (prod_ok_rely _ _ _ _ Hok1 HR2). by split. }
  rewrite (po_cap _ _ _ Hok1).
  destruct (Z.ltb_spec (ccur c2.1) (next_sequence h1 + Z.of_nat (length fs) - 1 - cap)).
  - apply (wp_done _ _ _ _ _ Hok2). intros. by apply wp_nothing.
  - apply (wp_done _ _ _ _ _ Hok2). intros.
    apply (wp_batch (with_cached_consumer (ccur c2.1) h1)); try done; unfold has_space; simpl; lia.
Qed.

(** Every operation the client may call. *)
Lemma wp_produce fuel h acc op c :
  producer_op_ok cap zc op -> inv cap c -> prod_ok h acc c -> claimed h = false ->
  WP (produce fuel h op) (produce_post acc) c.
Proof.
  intros Hop HI Hok Hcl. destruct op; simpl in Hop;
    [by apply wp_op_send|by apply wp_op_try_send|by apply wp_op_available|by apply wp_op_close
    |by apply wp_op_claim|by apply wp_op_try_claim|destruct Hop; by apply wp_op_batch
    |destruct Hop; by apply wp_op_try_batch].
Qed.

Lemma wp_producer_client fuel ops h acc c :
  Forall (producer_op_ok cap zc) ops -> inv cap c -> prod_ok h acc c -> claimed h = false ->
  WP (producer_client fuel h ops acc) (client_post Prod) c.
Proof.
  intros Hops. revert h acc c. induction Hops as [|op ops Hop Hops IH]; intros h acc c HI Hok Hcl.
  { cbn [producer_client]. apply wp_bind; [apply _|done|].
    apply (wp_handle_drop cap zc Prod acc); [done|apply Hok|done|apply Hok|].
    intros. by apply (wp_client_end cap zc Prod). }
  cbn [producer_client]. apply wp_bind; [apply _|done|].
  eapply wp_mono_inv; [|by apply wp_produce].
  intros [[h' vs]|] c' HI' Hpost; simpl in Hpost.
  - destruct Hpost. by apply IH.
  - apply (wp_stop acc); [done|]. intros c2 _ [Hs Ha]. by split.
Qed.

End producer.
