(* ===== verification/SpscConsumer.v ===== *)
(** * SpscConsumer: the consumer's side of the SPSC channel

    The client [consumer_client] runs any sequence of consumer operations and
    then drops the handle; every operation meets its rely-guarantee
    precondition against an arbitrary producer. *)
From S2P Require Import Prelude Conc RingBuffer Cpu Spsc SpscSpec SpscDrop.

(** ** Clients *)

Inductive consumer_op : Type :=
| OpRecv
| OpTryRecv
| OpPeek
| OpPending
| OpPoll
| OpRecvBatch (out_len : Z)
| OpTryRecvBatch (out_len : Z)
| OpRecvAll
| OpConsumerClose.

(** With [zc] the slots must stay live: only the operations that leave the
    values in place. *)
Definition consumer_op_ok (zc : bool) (op : consumer_op) : Prop :=
  match op with
  | OpPeek | OpPending | OpPoll | OpConsumerClose => True
  | OpRecv | OpTryRecv | OpRecvAll => zc = false
  | OpRecvBatch n | OpTryRecvBatch n => zc = false /\ 0 <= n
  end.

Section consumer.
Context {T : Type} (cap : Z) (zc : bool).
Context {W : Type} `{!WaitStrategy W} `{!WaitStrategyOk W}.
Implicit Types s : Shared T.
Implicit Types c : config (Shared T) (event T).
Implicit Types h : Consumer (W := W).

Abbreviation P := (prog (Shared T) (event T)).
Abbreviation R := guar_producer.
Abbreviation G := (guar_consumer zc).
Abbreviation WP := (wp (inv (T := T) cap) R G).

(** One operation; returns the values it has consumed, [None] while it is still
    waiting for one. *)
Definition consume (fuel : nat) h (op : consumer_op) : P (option (Consumer * list T)) :=
  match op with
  | OpRecv =>
      let! r := recv fuel h in
      Ret (match r with
           | None => None
           | Some (h, Ok v) => Some (h, [v])
           | Some (h, Err _) => Some (h, [])
           end)
  | OpTryRecv =>
      let! (h, r) := try_recv h in Ret (Some (h, match r with Ok v => [v] | Err _ => [] end))
  | OpPeek => let! (h, _) := peek h in Ret (Some (h, []))
  | OpPending => pending h ;;; has_pending h ;;; Ret (Some (h, []))
  | OpPoll => let! (h, calls) := poll h in Ret (Some (h, (fun x => x.1.1) <$> calls))
  | OpRecvBatch n =>
      let! r := recv_batch fuel h n in
      Ret (match r with
           | None => None
           | Some (h, Ok vs) => Some (h, vs)
           | Some (h, Err _) => Some (h, [])
           end)
  | OpTryRecvBatch n =>
      let! (h, r) := try_recv_batch h n in
      Ret (Some (h, match r with Ok vs => vs | Err _ => [] end))
  | OpRecvAll =>
      let! r := recv_all fuel h in
      Ret (match r with
           | None => None
           | Some (h, Ok vs) => Some (h, vs)
           | Some (h, Err _) => Some (h, [])
           end)
  | OpConsumerClose => close ;;; Ret (Some (h, []))
  end.

Fixpoint consumer_client (fuel : nat) h (ops : list consumer_op) (acc : list T)
    : P (list T * list T) :=
  match ops with
  | [] => let! ds := consumer_drop in Ret (acc, ds)
  | op :: ops =>
      let! r := consume fuel h op in
      match r with
      | None => Ret (acc, [])
      | Some (h, vs) => consumer_client fuel h ops (acc ++ vs)
      end
  end.

(** ** What the consumer knows *)

(** In the middle of an operation that has taken the [i] values [vs] and not yet
    moved the cursor; between two operations [i = 0]. *)
Record taking h (acc : list T) (i : Z) (vs : list T) c : Prop := {
  ta_next : c_next_sequence h = ccur c.1 + 1;
  ta_len : 0 <= i <= pcur c.1 - ccur c.1;
  ta_live : live_range (buffer c.1) (c_next_sequence h + i) (pcur c.1);
  ta_vals : payload (buffer c.1) (c_next_sequence h) i = vs;
  ta_rcvd : rcvd c.2 = acc;
  ta_alive : Cons ∉ drops c.2;
}.

Lemma taking_rely h acc i vs c c' : taking h acc i vs c -> R c c' -> taking h acc i vs c'.
Proof.
  intros [Hn Hi Hl Hv Hr Ha] HR. pose proof HR as [Hcap Hc Hp Hk Hnew Hr' Hd].
  split; try lia; try congruence.
  - intros q Hq. destruct (Z.le_gt_cases q (pcur c.1)).
    + rewrite Hk by (try done; lia). apply Hl. lia.
    + apply Hnew; [done|lia|lia].
  - rewrite <- Hv. apply payload_ext. intros q Hq. rewrite Hk by (try done; lia). done.
  - by eapply guar_drops_alive.
Qed.

Abbreviation cons_ok h acc := (taking h acc 0 []).

Definition waiting (acc : list T) c : Prop := rcvd c.2 = acc /\ Cons ∉ drops c.2.

Lemma c_waiting_rely acc c c' : waiting acc c -> R c c' -> waiting acc c'.
Proof.
  intros [Hs Ha] HR. split; [by rewrite (gp_rcvd _ _ HR)|].
  by apply (guar_drops_alive _ _ _ _ (gp_drops _ _ HR)).
Qed.

Lemma taking_waiting h acc i vs c : taking h acc i vs c -> waiting acc c.
Proof. by intros []. Qed.

(** Moving the next value out. *)
Lemma wp_buf_read {A} h acc i vs (k : T -> prog _ _ A) Q c :
  zc = false -> inv cap c -> taking h acc i vs c -> c_next_sequence h + i <= pcur c.1 ->
  (forall v c', inv cap c' -> pcur c.1 <= pcur c'.1 -> taking h acc (i + 1) (vs ++ [v]) c' ->
     WP (k v) Q c') ->
  WP (bind (buf_read (c_next_sequence h + i)) k) Q c.
Proof.
  intros Hz HI Hok Hle Hk. cbn [bind buf_read wp]. intros [s tr] HR HI1.
  pose proof (gp_pcur _ _ HR) as Hp. simpl in Hp.
  pose proof (taking_rely _ _ _ _ _ _ Hok HR) as [Hn Hi Hl Hv Hr Ha]. simpl in *.
  destruct (Hl (c_next_sequence h + i)) as [v Hq]; [lia|].
  unfold apply_upd, RingBuffer.read; simpl. rewrite Hq, app_nil_r.
  pose proof (inv_wf _ _ HI1) as Hwf. pose proof (inv_cap _ _ HI1) as Hcap.
  pose proof (inv_space _ _ HI1) as Hsp. simpl in *.
  destruct (inv_move cap s tr (c_next_sequence h + i) v) as [HI2 HG2]; [done|done|lia|done|].
  split; [done|]. rewrite Hz. split; [done|]. rewrite <- Hz. apply Hk; [done|done|].
  split; simpl; try done.
  - change (pcur (set_buffer _ s)) with (pcur s). change (ccur (set_buffer _ s)) with (ccur s). lia.
  - change (pcur (set_buffer _ s)) with (pcur s).
    intros q Hq'. rewrite get_ptr_set_other; [apply Hl; lia|done|lia|rewrite Hcap; lia].
  - rewrite payload_app by lia. rewrite (payload_one _ _ v) by (by rewrite get_ptr_set_eq).
    f_equal. rewrite <- Hv. apply payload_ext. intros q Hq'.
    apply (set_moved_bytes _ _ _ _ cap); [done..|lia].
Qed.

(** Looking at the next value. *)
Lemma wp_buf_get {A} h acc i vs (k : T -> prog _ _ A) Q c :
  inv cap c -> taking h acc i vs c -> c_next_sequence h + i <= pcur c.1 ->
  (forall v c', inv cap c' -> pcur c.1 <= pcur c'.1 -> taking h acc i vs c' ->
     taking h acc (i + 1) (vs ++ [v]) c' -> WP (k v) Q c') ->
  WP (bind (buf_get (c_next_sequence h + i)) k) Q c.
Proof.
  intros HI Hok Hle Hk. cbn [bind buf_get wp]. intros [s tr] HR HI1.
  pose proof (gp_pcur _ _ HR) as Hp. simpl in Hp.
  pose proof (taking_rely _ _ _ _ _ _ Hok HR) as Hok1.
  pose proof Hok1 as [Hn Hi Hl Hv Hr Ha]. simpl in *.
  destruct (Hl (c_next_sequence h + i)) as [v Hq]; [lia|].
  unfold apply_upd, RingBuffer.get; simpl. rewrite Hq, app_nil_r.
  split; [done|]. split; [reflexivity|]. apply (Hk v); [done|done|done|].
  split; simpl; try done; try lia.
  - intros q Hq'. apply Hl. lia.
  - rewrite payload_app by lia. rewrite (payload_one _ _ v) by (by rewrite Hq). by rewrite Hv.
Qed.

(** The consumer cursor advances over what was taken. *)
Lemma wp_consume_cursor {A} h acc n vs (k : unit -> prog _ _ A) Q c :
  inv cap c -> taking h acc n vs c ->
  (forall c', inv cap c' -> cons_ok (c_with_next (c_next_sequence h + n) h) (acc ++ vs) c' ->
     WP (k tt) Q c') ->
  WP (bind (consume_cursor (c_next_sequence h + n - 1)) k) Q c.
Proof.
  intros HI Hok Hk. cbn [bind consume_cursor wp]. intros [s tr] HR HI1.
  pose proof (taking_rely _ _ _ _ _ _ Hok HR) as [Hn Hi Hl Hv Hr Ha].
  unfold apply_upd; simpl in *.
  destruct (inv_consume cap zc s tr (c_next_sequence h + n - 1)) as [HI2 HG2]; [done|done|lia|].
  split; [done|]. split; [done|]. apply Hk; [done|]. split; simpl; try done.
  - unfold ccur. simpl. lia.
  - change (pcur (set_consumer _ s)) with (pcur s). unfold ccur. simpl. lia.
  - change (pcur (set_consumer _ s)) with (pcur s). by rewrite Z.add_0_r.
  - autorewrite with spsc. rewrite Hr. f_equal. rewrite <- Hv. f_equal; lia.
  - by autorewrite with spsc.
Qed.

(** ** The operations *)

Definition consume_post acc (o : option (Consumer * list T)) c' : Prop :=
  match o with
  | None => waiting acc c'
  | Some (h', vs) => cons_ok h' (acc ++ vs) c'
  end.

Lemma c_wp_done {A} h acc (a : A) (Q : A -> config _ _ -> Prop) c :
  cons_ok h acc c -> (forall c', inv cap c' -> cons_ok h acc c' -> Q a c') -> WP (Ret a) Q c.
Proof. intros Hok HQ c' HR HI. apply HQ; [done|by eapply taking_rely]. Qed.

Lemma c_wp_stop {A} acc (a : A) (Q : A -> config _ _ -> Prop) c :
  waiting acc c -> (forall c', inv cap c' -> waiting acc c' -> Q a c') -> WP (Ret a) Q c.
Proof. intros Hs HQ c' HR HI. apply HQ; [done|]. by eapply c_waiting_rely. Qed.

Lemma wp_consumed h acc vs c :
  cons_ok h (acc ++ vs) c -> WP (Ret (Some (h, vs))) (consume_post acc) c.
Proof. intros Hok. by apply (c_wp_done _ _ _ _ _ Hok). Qed.

Lemma c_wp_nothing h acc c : cons_ok h acc c -> WP (Ret (Some (h, []))) (consume_post acc) c.
Proof. intros. apply wp_consumed. by rewrite app_nil_r. Qed.

Lemma c_wp_none acc c : waiting acc c -> WP (Ret None) (consume_post acc) c.
Proof. intros. by apply (c_wp_stop acc). Qed.

(** Only the disconnection cache of the handle moves. *)
Lemma taking_handle h h' acc i vs c :
  c_next_sequence h' = c_next_sequence h -> taking h acc i vs c -> taking h' acc i vs c.
Proof. intros He []. split; rewrite ?He; done. Qed.

Lemma wp_c_is_disconnected {A} h acc i vs (k : Consumer * bool -> prog _ _ A) Q c :
  inv cap c -> taking h acc i vs c ->
  (forall h' d c', inv cap c' -> taking h' acc i vs c' ->
     c_next_sequence h' = c_next_sequence h -> WP (k (h', d)) Q c') ->
  WP (bind (c_is_disconnected h) k) Q c.
Proof.
  intros HI Hok Hk. apply wp_bind; [apply _|done|].
  apply (wp_reads_returns _ _ _ (fun r => c_next_sequence r.1 = c_next_sequence h)).
  - unfold c_is_disconnected, check_disconnected. destruct (c_cached_disconnected h); simpl; [done|].
    split; [done|]. intros s. destruct (closed s); simpl; done.
  - unfold c_is_disconnected, check_disconnected.
    destruct (c_cached_disconnected h); simpl; [done|].
    intros s. destruct (closed s); simpl; [done|]. intros s'. by destruct (strong_count s' =? 1).
  - intros [h' d] c' Hn HR HI'. apply Hk; [done| |done].
    eapply taking_handle; [done|]. by eapply taking_rely.
Qed.

Definition await_post acc (o : option (Consumer * option Z)) c' : Prop :=
  match o with
  | None => waiting acc c'
  | Some (h', r) =>
      cons_ok h' acc c' /\
      match r with Some a => c_next_sequence h' <= a <= pcur c'.1 | None => True end
  end.

Lemma wp_await_loop wfuel fuel h acc c :
  inv cap c -> cons_ok h acc c -> WP (await_loop wfuel fuel h) (await_post acc) c.
Proof.
  revert h c. induction fuel as [|fuel IH]; intros h c HI Hok.
  { apply (c_wp_done _ _ _ _ _ Hok). intros. by eapply taking_waiting. }
  cbn [await_loop]. apply wp_load; [apply _|]. intros c1 HR1 HI1.
  pose proof (taking_rely _ _ _ _ _ _ Hok HR1) as Hok1.
  destruct (Z.leb_spec (c_next_sequence h) (pcur c1.1)).
  { intros c2 HR2 HI2. split; [by eapply taking_rely|]. pose proof (gp_pcur _ _ HR2). lia. }
  apply (wp_c_is_disconnected _ acc 0 []); [done|done|]. intros h' [] c2 HI2 Hok2 Hn.
  - apply wp_load; [apply _|]. intros c3 HR3 HI3.
    pose proof (taking_rely _ _ _ _ _ _ Hok2 HR3) as Hok3.
    destruct (c_next_sequence h' <=? pcur c3.1); [by apply IH|].
    by apply (c_wp_done _ _ _ _ _ Hok3).
  - apply wp_bind; [apply _|done|]. unfold barrier_wait_for.
    apply wp_reads_only; [apply _|apply _|apply wait_for_reads_only; by split|].
    intros [a|] c3 HR3 HI3; pose proof (taking_rely _ _ _ _ _ _ Hok2 HR3) as Hok3.
    + by apply IH.
    + apply (c_wp_done _ _ _ _ _ Hok3). intros. by eapply taking_waiting.
Qed.

(** The start of [recv], [recv_batch] and [recv_all]. *)
Lemma wp_await {A} fuel h acc (k : option (Consumer * option Z) -> prog _ _ A) Q c :
  inv cap c -> cons_ok h acc c ->
  (forall c', inv cap c' -> waiting acc c' -> WP (k None) Q c') ->
  (forall h' c', inv cap c' -> cons_ok h' acc c' -> WP (k (Some (h', None))) Q c') ->
  (forall h' a c', inv cap c' -> cons_ok h' acc c' -> c_next_sequence h' <= a <= pcur c'.1 ->
     WP (k (Some (h', Some a))) Q c') ->
  WP (bind (await_loop fuel fuel h) k) Q c.
Proof.
  intros HI Hok Hnone Hgone Hok'. apply wp_bind; [apply _|done|].
  eapply wp_mono_inv; [|by apply wp_await_loop].
  intros [[h' [a|]]|] c' HI' Hpost; simpl in Hpost; [|destruct Hpost|]; auto.
  destruct Hpost. auto.
Qed.

Lemma wp_read_range {A} h acc n (k : list T -> prog _ _ A) Q : forall i vs c,
  zc = false -> inv cap c -> taking h acc i vs c ->
  c_next_sequence h + i + Z.of_nat n - 1 <= pcur c.1 ->
  (forall ws c', inv cap c' -> taking h acc (i + Z.of_nat n) (vs ++ ws) c' -> WP (k ws) Q c') ->
  WP (bind (read_range (c_next_sequence h + i) n) k) Q c.
Proof.
  revert k. induction n as [|n IH]; intros k i vs c Hz HI Hok Hle Hk.
  { apply Hk; [done|]. by rewrite Z.add_0_r, app_nil_r. }
  cbn [read_range]. apply wp_bind_assoc.
  apply (wp_buf_read _ acc i vs); [done|done|done|lia|]. intros v c1 HI1 Hp Hok1.
  apply wp_bind_assoc. rewrite <- Z.add_assoc.
  apply (IH _ (i + 1) (vs ++ [v])); [done|done|done|lia|]. intros ws c2 HI2 Hok2.
  apply Hk; [done|]. rewrite <- app_assoc in Hok2.
  by replace (i + Z.of_nat (Datatypes.S n)) with (i + 1 + Z.of_nat n) by lia.
Qed.

(** [take_events] after the availability test. *)
Lemma wp_take_events {A} h acc count (k : Consumer * list T -> prog _ _ A) Q c :
  zc = false -> inv cap c -> cons_ok h acc c -> 0 <= count ->
  c_next_sequence h + count - 1 <= pcur c.1 ->
  (forall h' vs c', inv cap c' -> cons_ok h' (acc ++ vs) c' -> WP (k (h', vs)) Q c') ->
  WP (bind (take_events h count) k) Q c.
Proof.
  intros Hz HI Hok Hn Hle Hk. unfold take_events. apply wp_bind_assoc.
  replace (c_next_sequence h) with (c_next_sequence h + 0) at 1 by lia.
  apply (wp_read_range _ acc _ _ _ 0 []); [done|done|done|lia|]. intros vs c1 HI1 Hok1.
  rewrite Z2Nat.id, Z.add_0_l in Hok1 by done. simpl in Hok1. apply wp_bind_assoc.
  apply (wp_consume_cursor _ acc _ vs); [done|done|]. intros c2 HI2 Hok2. by apply Hk.
Qed.

(** One event moved out and its slot given back. *)
Lemma wp_take_one {A} h acc (k : T -> prog _ _ A) Q c :
  zc = false -> inv cap c -> cons_ok h acc c -> c_next_sequence h <= pcur c.1 ->
  (forall v c', inv cap c' ->
     cons_ok (c_with_next (c_next_sequence h + 1) h) (acc ++ [v]) c' -> WP (k v) Q c') ->
  WP (let! v := buf_read (c_next_sequence h) in
      consume_cursor (c_next_sequence h) ;;; k v) Q c.
Proof.
  intros Hz HI Hok Hle Hk.
  replace (c_next_sequence h) with (c_next_sequence h + 0) at 1 by lia.
  apply (wp_buf_read _ acc 0 []); [done|done|done|lia|]. intros v c1 HI1 _ Hok1.
  replace (c_next_sequence h) with (c_next_sequence h + 1 - 1) at 1 by lia.
  apply (wp_consume_cursor _ acc _ [v]); [done|done|]. auto.
Qed.

Lemma wp_op_recv fuel h acc c :
  zc = false -> inv cap c -> cons_ok h acc c ->
  WP (consume fuel h OpRecv) (consume_post acc) c.
Proof.
  intros Hz HI Hok. apply wp_bind; [apply _|done|]. unfold recv.
  apply (wp_await _ _ acc); [done|done| | |].
  - intros c1 HI1 Hw. apply (c_wp_stop _ _ _ _ Hw). intros. by apply c_wp_none.
  - intros h1 c1 HI1 Hok1. apply (c_wp_done _ _ _ _ _ Hok1). intros. by apply c_wp_nothing.
  - intros h1 a c1 HI1 Hok1 Ha. apply (wp_take_one _ acc); [done|done|done|lia|].
    intros v c2 HI2 Hok2. apply (c_wp_done _ _ _ _ _ Hok2). intros. by apply wp_consumed.
Qed.

(** The end of the non-blocking operations when there is nothing. *)
Lemma wp_empty {A} h acc (f : bool -> A) (Q : Consumer * A -> config _ _ -> Prop) c :
  inv cap c -> cons_ok h acc c ->
  (forall h' d c', inv cap c' -> cons_ok h' acc c' -> Q (h', f d) c') ->
  WP (let! (h, d) := c_is_disconnected h in Ret (h, f d)) Q c.
Proof.
  intros HI Hok HQ. apply (wp_c_is_disconnected _ acc 0 []); [done|done|].
  intros h' d c1 HI1 Hok1 _. apply (c_wp_done _ _ _ _ _ Hok1). auto.
Qed.

Lemma wp_op_try_recv fuel h acc c :
  zc = false -> inv cap c -> cons_ok h acc c ->
  WP (consume fuel h OpTryRecv) (consume_post acc) c.
Proof.
  intros Hz HI Hok. apply wp_bind; [apply _|done|]. unfold try_recv, is_available.
  apply wp_load; [apply _|]. intros c1 HR1 HI1.
  pose proof (taking_rely _ _ _ _ _ _ Hok HR1) as Hok1.
  destruct (Z.leb_spec (c_next_sequence h) (pcur c1.1)).
  - apply (wp_take_one _ acc); [done|done|done|lia|].
    intros v c2 HI2 Hok2. apply (c_wp_done _ _ _ _ _ Hok2). intros. by apply wp_consumed.
  - apply (wp_empty _ acc (fun d => Err (if d then TryDisconnected else Empty))); [done|done|].
    intros. by apply c_wp_nothing.
Qed.

Lemma wp_op_peek fuel h acc c :
  inv cap c -> cons_ok h acc c -> WP (consume fuel h OpPeek) (consume_post acc) c.
Proof.
  intros HI Hok. apply wp_bind; [apply _|done|]. unfold peek, is_available.
  apply wp_load; [apply _|]. intros c1 HR1 HI1.
  pose proof (taking_rely _ _ _ _ _ _ Hok HR1) as Hok1.
  destruct (Z.leb_spec (c_next_sequence h) (pcur c1.1)).
  - replace (c_next_sequence h) with (c_next_sequence h + 0) by lia.
    apply (wp_buf_get _ acc 0 []); [done|done|lia|]. intros v c2 HI2 _ Hok2 _.
    apply (c_wp_done _ _ _ _ _ Hok2). intros. by apply c_wp_nothing.
  - apply (wp_empty _ acc (fun d => Err (if d then TryDisconnected else Empty))); [done|done|].
    intros. by apply c_wp_nothing.
Qed.

Lemma wp_op_pending fuel h acc c :
  inv cap c -> cons_ok h acc c -> WP (consume fuel h OpPending) (consume_post acc) c.
Proof.
  intros HI Hok. apply wp_bind; [apply _|done|].
  apply wp_reads_only; [apply _|apply _|done|]. intros _ c1 HR1 HI1.
  apply wp_load; [apply _|]. intros c2 HR2 HI2. apply c_wp_nothing.
  eapply taking_rely; [|done]. by eapply taking_rely.
Qed.

Lemma c_wp_op_close fuel h acc c :
  inv cap c -> cons_ok h acc c -> WP (consume fuel h OpConsumerClose) (consume_post acc) c.
Proof.
  intros HI Hok. cbn [consume bind close store wp]. intros [s tr] HR HI1.
  pose proof (taking_rely _ _ _ _ _ _ Hok HR) as Hok1. unfold apply_upd; simpl.
  rewrite app_nil_r. destruct (inv_close cap zc Cons s tr HI1 (ta_alive _ _ _ _ _ Hok1)) as [HI2 HG2].
  split; [done|]. split; [done|].
  assert (Hok2 : cons_ok h acc (set_closed s, tr)) by (destruct Hok1; by split).
  by apply c_wp_nothing.
Qed.

(** The calls to the handler of [poll]: the values in order, and the flag on the
    last one. *)
Lemma wp_poll_range {A} h acc n (k : list (T * Z * bool) -> prog _ _ A) Q : forall i vs c,
  inv cap c -> taking h acc i vs c ->
  c_next_sequence h + i + Z.of_nat n - 1 <= pcur c.1 ->
  (forall calls c', inv cap c' ->
     taking h acc (i + Z.of_nat n) (vs ++ ((fun x => x.1.1) <$> calls)) c' ->
     WP (k calls) Q c') ->
  WP (bind (poll_range (c_next_sequence h + i) n) k) Q c.
Proof.
  revert k. induction n as [|n IH]; intros k i vs c HI Hok Hle Hk.
  { apply Hk; [done|]. by rewrite Z.add_0_r, app_nil_r. }
  cbn [poll_range]. apply wp_bind_assoc.
  apply (wp_buf_get _ acc i vs); [done|done|lia|]. intros v c1 HI1 Hp _ Hok1.
  apply wp_bind_assoc. rewrite <- Z.add_assoc.
  apply (IH _ (i + 1) (vs ++ [v])); [done|done|lia|]. intros calls c2 HI2 Hok2.
  apply Hk; [done|]. rewrite <- app_assoc in Hok2.
  by replace (i + Z.of_nat (Datatypes.S n)) with (i + 1 + Z.of_nat n) by lia.
Qed.

Lemma wp_op_poll fuel h acc c :
  inv cap c -> cons_ok h acc c -> WP (consume fuel h OpPoll) (consume_post acc) c.
Proof.
  intros HI Hok. apply wp_bind; [apply _|done|]. unfold poll.
  apply wp_load; [apply _|]. intros c1 HR1 HI1.
  pose proof (taking_rely _ _ _ _ _ _ Hok HR1) as Hok1.
  destruct (Z.ltb_spec (pcur c1.1) (c_next_sequence h)).
  { apply (c_wp_done _ _ _ _ _ Hok1). intros. by apply c_wp_nothing. }
  cbn zeta. set (count := pcur c1.1 - c_next_sequence h + 1).
  replace (c_next_sequence h) with (c_next_sequence h + 0) at 1 by lia.
  apply (wp_poll_range _ acc _ _ _ 0 []); [done|done|unfold count; lia|]. intros calls c2 HI2 Hok2.
  rewrite Z2Nat.id, Z.add_0_l in Hok2 by (unfold count; lia). simpl in Hok2.
  apply (wp_consume_cursor _ acc _ ((fun x => x.1.1) <$> calls)); [done|done|].
  intros c3 HI3 Hok3. apply (c_wp_done _ _ _ _ _ Hok3). intros. by apply wp_consumed.
Qed.

Lemma wp_op_recv_batch fuel h acc n c :
  zc = false -> 0 <= n -> inv cap c -> cons_ok h acc c ->
  WP (consume fuel h (OpRecvBatch n)) (consume_post acc) c.
Proof.
  intros Hz Hn HI Hok. apply wp_bind; [apply _|done|]. unfold recv_batch.
  destruct (n =? 0); [apply (c_wp_done _ _ _ _ _ Hok); intros; by apply c_wp_nothing|].
  apply (wp_await _ _ acc); [done|done| | |].
  - intros c1 HI1 Hw. apply (c_wp_stop _ _ _ _ Hw). intros. by apply c_wp_none.
  - intros h1 c1 HI1 Hok1. apply (c_wp_done _ _ _ _ _ Hok1). intros. by apply c_wp_nothing.
  - intros h1 a c1 HI1 Hok1 Ha. cbn zeta. apply (wp_take_events _ acc); [done|done|done|lia|lia|].
    intros h2 vs c2 HI2 Hok2. apply (c_wp_done _ _ _ _ _ Hok2). intros. by apply wp_consumed.
Qed.

Lemma wp_op_try_recv_batch fuel h acc n c :
  zc = false -> 0 <= n -> inv cap c -> cons_ok h acc c ->
  WP (consume fuel h (OpTryRecvBatch n)) (consume_post acc) c.
Proof.
  intros Hz Hn HI Hok. apply wp_bind; [apply _|done|]. unfold try_recv_batch.
  destruct (n =? 0); [apply (c_wp_done _ _ _ _ _ Hok); intros; by apply c_wp_nothing|].
  apply wp_load; [apply _|]. intros c1 HR1 HI1.
  pose proof (taking_rely _ _ _ _ _ _ Hok HR1) as Hok1.
  destruct (Z.ltb_spec (pcur c1.1) (c_next_sequence h)).
  - apply (wp_empty _ acc (fun d => Err (if d then TryDisconnected else Empty))); [done|done|].
    intros. by apply c_wp_nothing.
  - cbn zeta. apply (wp_take_events _ acc); [done|done|done|lia|lia|].
    intros h2 vs c2 HI2 Hok2. apply (c_wp_done _ _ _ _ _ Hok2). intros. by apply wp_consumed.
Qed.

Lemma wp_op_recv_all fuel h acc c :
  zc = false -> inv cap c -> cons_ok h acc c ->
  WP (consume fuel h OpRecvAll) (consume_post acc) c.
Proof.
  intros Hz HI Hok. apply wp_bind; [apply _|done|]. unfold recv_all.
  apply (wp_await _ _ acc); [done|done| | |].
  - intros c1 HI1 Hw. apply (c_wp_stop _ _ _ _ Hw). intros. by apply c_wp_none.
  - intros h1 c1 HI1 Hok1. apply (c_wp_done _ _ _ _ _ Hok1). intros. by apply c_wp_nothing.
  - intros h1 a c1 HI1 Hok1 Ha. apply (wp_take_events _ acc); [done|done|done|lia|lia|].
    intros h2 vs c2 HI2 Hok2. apply (c_wp_done _ _ _ _ _ Hok2). intros. by apply wp_consumed.
Qed.

Lemma wp_consume fuel h acc op c :
  consumer_op_ok zc op -> inv cap c -> cons_ok h acc c ->
  WP (consume fuel h op) (consume_post acc) c.
Proof.
  intros Hop HI Hok. destruct op; simpl in Hop;
    [by apply wp_op_recv|by apply wp_op_try_recv|by apply wp_op_peek|by apply wp_op_pending
    |by apply wp_op_poll|destruct Hop; by apply wp_op_recv_batch
    |destruct Hop; by apply wp_op_try_recv_batch|by apply wp_op_recv_all|by apply c_wp_op_close].
Qed.

Lemma wp_consumer_client fuel ops h acc c :
  Forall (consumer_op_ok zc) ops -> inv cap c -> cons_ok h acc c ->
  WP (consumer_client fuel h ops acc) (client_post Cons) c.
Proof.
  intros Hops. revert h acc c. induction Hops as [|op ops Hop Hops IH]; intros h acc c HI Hok;
    cbn [consumer_client]; (apply wp_bind; [apply _|done|]).
  { apply (wp_handle_drop cap zc Cons acc); [done|apply Hok| |apply Hok|].
    - intros _ q Hq. apply (ta_live _ _ _ _ _ Hok). rewrite (ta_next _ _ _ _ _ Hok). lia.
    - intros. by apply (wp_client_end cap zc Cons). }
  eapply wp_mono_inv; [|by apply wp_consume].
  intros [[h' vs]|] c' HI' Hpost; simpl in Hpost; [by apply IH|].
  apply (c_wp_stop acc); [done|]. intros c2 _ [Hs Ha]. by split.
Qed.

End consumer.
