(* ===== verification/SpscFifo.v ===== *)
(** * SpscFifo: the SPSC channel is a bounded FIFO queue

    The theorems about [channel/src/spsc]: a producer and a consumer that run
    arbitrary sequences of operations and then drop their handles, interleaved
    in every possible way, refine the bounded FIFO of [SpscSpec]; what each
    operation does alone, on every branch; and where the code departs from what
    it says. *)
From S2P Require Import Prelude Conc RingBuffer Cpu Spsc SpscSpec SpscDrop.
From S2P Require SpscProducer SpscConsumer.
Import SpscProducer (producer_op(..), producer_client, producer_op_ok).
Import SpscConsumer (consumer_op(..), consumer_client, consumer_op_ok).

Section start.
Context {T W : Type} `{!WaitStrategy W} `{!WaitStrategyOk W}.
Implicit Types c : config (Shared T) (event T).

(** A channel as the constructors make it; [zc] when every slot holds a live
    value from the start, so that references to slots can be handed out. *)
Definition started (cap : Z) (zc : bool) (st : Shared T * Producer * Consumer (W := W)) : Prop :=
  0 <= cap < 2 ^ 63 /\
  ((exists w, channel_with_wait cap w = Ok st /\ zc = false) \/
   (exists f w, channel_with_factory cap f w = Ok st)).

Lemma make_channel_inv cap zc (b : RingBuffer T) (w : W) :
  wf b -> capacity b = cap -> (zc = true -> SpscProducer.all_live b) ->
  let '(s, hp, hc) := make_channel b cap w in
  inv cap (s, []) /\ SpscProducer.prod_ok cap zc hp [] (s, []) /\ claimed hp = false /\
  SpscConsumer.taking hc [] 0 [] (s, []).
Proof.
  intros Hwf Hcap Hlive. simpl.
  assert (Hc : 0 < cap) by (rewrite <- Hcap; by apply cap_pos).
  assert (Hnil : forall w : side, w ∉ []) by (intros ? ?%elem_of_nil; done).
  split; [|split; [|split; [done|]]]; split; simpl; unfold pcur, ccur; simpl; try done; try lia.
  - apply fifo_run_nil.
  - intros Hin. by apply Hnil in Hin.
  - apply NoDup_nil_2.
  - intros q Hq. exfalso. unfold Cursor.INITIAL_CURSOR_VALUE in Hq. lia.
Qed.

Lemma started_inv cap zc s hp hc :
  started cap zc (s, hp, hc) ->
  inv cap (s, []) /\ SpscProducer.prod_ok cap zc hp [] (s, []) /\ claimed hp = false /\
  SpscConsumer.taking hc [] 0 [] (s, []).
Proof.
  intros [Hcap [(w & Hch & ->)|(f & w & Hch)]].
  - unfold channel_with_wait in Hch. destruct (RingBuffer.new cap) as [b|] eqn:Hb; [|done].
    injection Hch as Hs Hp Hc. pose proof (wf_new _ _ Hcap Hb) as Hwf.
    pose proof (make_channel_inv cap false b w Hwf) as H. rewrite <- Hs, <- Hp, <- Hc.
    apply H; [|done]. revert Hb. unfold RingBuffer.new. destruct (is_power_of_two cap); [|done]. by intros [= <-].
  - unfold channel_with_factory in Hch. destruct (with_factory cap f) as [b|] eqn:Hb; [|done].
    injection Hch as Hs Hp Hc. pose proof (wf_with_factory _ _ _ Hcap Hb) as Hwf.
    pose proof (make_channel_inv cap zc b w Hwf) as H. rewrite <- Hs, <- Hp, <- Hc.
    revert Hb Hwf H. unfold with_factory. destruct (is_power_of_two cap); [|done]. intros [= <-] Hwf H.
    apply H; [done|]. intros _ q. pose proof (index_lt _ Hwf q) as Hi.
    apply lookup_lt_is_Some in Hi as [x Hx]. unfold get_ptr. rewrite Hx.
    apply list_lookup_fmap_Some in Hx as (? & -> & ?). eauto.
Qed.

(** Everything the refinement theorems say of a reachable configuration. *)
Lemma spsc_sound cap zc s hp hc fuel fuel' pops cops ts c :
  started cap zc (s, hp, hc) ->
  Forall (producer_op_ok cap zc) pops -> Forall (consumer_op_ok zc) cops ->
  rtc pool_step ([producer_client fuel hp pops []; consumer_client fuel' hc cops []], (s, []))
    (ts, c) ->
  inv cap c /\
  (forall i f, ts !! i <> Some (Fault f)) /\
  (forall r, ts !! 0%nat = Some (Ret r) -> client_post Prod r c) /\
  (forall r, ts !! 1%nat = Some (Ret r) -> client_post Cons r c).
Proof.
  intros (HI & Hp & Hcl & Hc)%started_inv Hpops Hcops Hsteps.
  set (R := fun i : nat => match i with 0%nat => guar (T := T) zc Cons
                           | 1%nat => guar zc Prod | _ => fun _ _ => True end).
  set (G := fun i : nat => match i with 0%nat => guar (T := T) zc Prod
                           | 1%nat => guar zc Cons | _ => eq end).
  set (Q := fun i => match i with 0%nat => client_post Prod | _ => client_post (T := T) Cons end).
  assert (HR : forall i, PreOrder (R i)).
  { intros [|[|i]]; simpl; try apply _. by split. }
  assert (HRG : forall i j c1 c2, i <> j -> G i c1 c2 -> R j c1 c2).
  { intros [|[|i]] [|[|j]] c1 c2 Hne HG; simpl in *; try done; subst; reflexivity. }
  pose proof (fun ts0 ts' c' => pool_sound (inv cap) R G HR HRG Q ts0 _ ts' c' HI) as Hsound.
  destruct (fun H => Hsound _ _ _ H Hsteps) as (HI' & Hf & HQ).
  - intros [|[|i]] p; simpl; intros [= <-].
    + by apply SpscProducer.wp_producer_client.
    + by apply SpscConsumer.wp_consumer_client.
  - split; [done|]. split; [done|]. split; [apply (HQ 0%nat)|apply (HQ 1%nat)].
Qed.

End start.

(** ** Refinement and ownership *)

Section refinement.
Context {T W : Type} `{!WaitStrategy W} `{!WaitStrategyOk W}.

(** C1. Refinement.  Let the two sides of an SPSC channel made by one of its
    constructors run any operations, claims (zero-copy) only on a channel made by
    [channel_with_factory] and then without [recv], [try_recv], [recv_batch] and
    [recv_all] on the other side, which move values out of slots that a claim would
    hand out again (see [claim_hands_out_dead_slots]).  Then, however their atomic
    steps interleave, no thread panics or touches a slot without a live value (so a
    slot is never read while it is being written), the cursor moves form a run of a
    FIFO queue of [cap] places whose content is what lies between the cursors, and
    the values each side's calls reported are exactly the values that went in and
    came out. *)
Theorem spsc_refines_fifo cap zc (s : Shared T) hp (hc : Consumer (W := W))
    fuel fuel' pops cops ts s' tr :
  started cap zc (s, hp, hc) ->
  Forall (producer_op_ok cap zc) pops -> Forall (consumer_op_ok zc) cops ->
  rtc pool_step ([producer_client fuel hp pops []; consumer_client fuel' hc cops []], (s, []))
    (ts, (s', tr)) ->
  (forall i f, ts !! i <> Some (Fault f)) /\
  fifo_run cap [] tr (payload (buffer s') (ccur s' + 1) (pcur s' - ccur s')) /\
  (forall vs ds, ts !! 0%nat = Some (Ret (vs, ds)) -> sent tr = vs) /\
  (forall ws ds, ts !! 1%nat = Some (Ret (ws, ds)) -> rcvd tr = ws).
Proof.
  intros Hst Hp Hc Hsteps.
  destruct (spsc_sound _ _ _ _ _ _ _ _ _ _ _ Hst Hp Hc Hsteps) as (HI & Hf & HP & HC).
  split; [done|]. split; [apply (inv_trace _ _ HI)|].
  split; intros vs ds Hr; [apply (HP _ Hr)|apply (HC _ Hr)].
Qed.

(** C2. Exactly-once ownership, for the same operations: claims only on a channel
    made by [channel_with_factory], and then nothing that moves values out on the
    other side.  When both sides have dropped their handles, every value sent has
    either been received or been destroyed by [Shared::drop], once, in order; and
    nothing that was received is destroyed. *)
Theorem spsc_exactly_once cap zc (s : Shared T) hp (hc : Consumer (W := W))
    fuel fuel' pops cops s' tr vs ds ws ds' :
  started cap zc (s, hp, hc) ->
  Forall (producer_op_ok cap zc) pops -> Forall (consumer_op_ok zc) cops ->
  rtc pool_step ([producer_client fuel hp pops []; consumer_client fuel' hc cops []], (s, []))
    ([Ret (vs, ds); Ret (ws, ds')], (s', tr)) ->
  strong_count s' = 0 ->
  vs = ws ++ ds ++ ds'.
Proof.
  intros Hst Hp Hc Hsteps H0.
  destruct (spsc_sound _ _ _ _ _ _ _ _ _ _ _ Hst Hp Hc Hsteps) as (HI & _ & HP & HC).
  destruct (HP _ eq_refl) as [Hvs HdP], (HC _ eq_refl) as [Hws HdC].
  simpl in Hvs, Hws, HdP, HdC. subst vs ws.
  pose proof (inv_count _ _ HI) as Hcnt. pose proof (inv_nodup _ _ HI) as Hnd. simpl in *.
  assert (Ho : exists w, owner tr = Some w).
  { unfold owner. destruct (drops tr) as [|w1 [|w2 [|]]]; simpl in *; try lia; eauto. }
  destruct Ho as [w Ho]. pose proof (owner_inv _ _ Hnd Ho) as Hd. rewrite Hd in *.
  destruct HdP as [_ [[HoP HsP]|[HoP ->]]]; [by destruct w; set_solver|..];
    (destruct HdC as [_ [[HoC HsC]|[HoC ->]]]; [by destruct w; set_solver|..]);
    simpl in *; rewrite ?app_nil_r; try done; try congruence.
  destruct w; congruence.
Qed.

End refinement.

(** A channel of two places, a producer that sends three values and a consumer
    that takes two. *)
Definition demo : Shared Z * Producer * Consumer (W := BusySpinWait) :=
  make_channel {| RingBuffer.slots := [Uninit; Uninit]; RingBuffer.mask := 1; capacity := 2 |}
    2 mkBusySpinWait.

Definition demo_pool : list (prog (Shared Z) (event Z) (list Z * list Z)) :=
  [producer_client 5 demo.1.2 [OpSend 10; OpTrySend 20; OpSend 30] [];
   consumer_client 5 demo.2 [OpRecv; OpTryRecv] []].

(** The two threads take turns, then each runs to its end. *)
Definition demo_sched : list nat :=
  concat (replicate 12 [0; 1]%nat) ++ replicate 20 0%nat ++ replicate 20 1%nat.

Lemma demo_started : started 2 false demo.
Proof. split; [lia|]. left. exists mkBusySpinWait. split; reflexivity. Qed.

Definition demo_end : Shared Z :=
  {| buffer := {| RingBuffer.slots := [Moved 30; Moved 20]; RingBuffer.mask := 1; capacity := 2 |};
     producer_cursor := Cursor.with_value 2; consumer_cursor := Cursor.with_value 0;
     closed := true; strong_count := 0 |}.
Definition demo_trace : list (event Z) :=
  [Sent 10; Rcvd 10; Sent 20; Sent 30; Dropped Prod; Dropped Cons].

Lemma demo_steps :
  rtc pool_step (demo_pool, (demo.1.1, []))
    ([Ret ([10; 20; 30], []); Ret ([10], [20; 30])], (demo_end, demo_trace)).
Proof.
  replace ([_; _], _) with (run_sched demo_sched (demo_pool, (demo.1.1, []))).
  - apply run_sched_steps.
  - vm_compute. reflexivity.
Qed.

Lemma spsc_refines_fifo_witness : fifo_run 2 [] demo_trace [20; 30] /\ rcvd demo_trace = [10].
Proof.
  destruct (spsc_refines_fifo 2 false demo.1.1 demo.1.2 demo.2 5 5
      [OpSend 10; OpTrySend 20; OpSend 30] [OpRecv; OpTryRecv] _ _ _
      demo_started ltac:(repeat constructor) ltac:(repeat constructor) demo_steps)
    as (_ & Hrun & _ & Hr).
  split; [exact Hrun|]. exact (Hr [10] [20; 30] eq_refl).
Defined.

Lemma spsc_exactly_once_witness : [10; 20; 30] = [10] ++ [] ++ [20; 30].
Proof.
  exact (spsc_exactly_once 2 false demo.1.1 demo.1.2 demo.2 5 5
      [OpSend 10; OpTrySend 20; OpSend 30] [OpRecv; OpTryRecv] _ _ _ _ _ _
      demo_started ltac:(repeat constructor) ltac:(repeat constructor) demo_steps eq_refl).
Defined.
