(* ===== verification/SpscSeq.v ===== *)
(** * SpscSeq: what each SPSC operation does by itself

    The functional behaviour of the producer's and the consumer's operations on
    every branch, for a thread that runs without interference, in any state the
    channel can reach; with the blocking operations' exact waiting conditions;
    and executions that show where the code departs from its documentation. *)
From S2P Require Import Prelude Conc RingBuffer Cpu Spsc SpscSpec SpscDrop.
From S2P Require SpscProducer SpscConsumer SpscFifo.
Import SpscProducer (prod_ok).
Import SpscConsumer (taking).

Section seq.
Context {T W : Type} `{!WaitStrategy W} `{!WaitStrategyOk W}.
Implicit Types s : Shared T.
Implicit Types h : Producer.

(** The abstract queue, and the disconnection test. *)
Definition queue s : list T := payload (buffer s) (ccur s + 1) (pcur s - ccur s).
Definition gone s : bool := closed s || (strong_count s =? 1).

Lemma queue_length cap s tr :
  inv cap (s, tr) -> Z.of_nat (length (queue s)) = pcur s - ccur s.
Proof.
  intros HI. pose proof (inv_order _ _ HI). simpl in *. apply payload_length; [lia|].
  intros q Hq. apply (inv_bytes _ _ HI). simpl. lia.
Qed.

Lemma run_check_disconnected s :
  run (check_disconnected (T := T)) s = ([], s, inr (gone s)).
Proof. unfold check_disconnected, gone. simpl. by destruct (closed s). Qed.

Lemma run_is_disconnected h s :
  cached_disconnected h = false ->
  run (is_disconnected h) s = ([], s, inr (if gone s then with_disconnected h else h, gone s)).
Proof.
  intros Hc. unfold is_disconnected. rewrite Hc, run_bind, run_check_disconnected. done.
Qed.

Lemma run_c_is_disconnected (h : Consumer (W := W)) s :
  c_cached_disconnected h = false ->
  run (c_is_disconnected h) s
  = ([], s, inr (if gone s then c_with_disconnected h else h, gone s)).
Proof.
  intros Hc. unfold c_is_disconnected. rewrite Hc, run_bind, run_check_disconnected. done.
Qed.

(** Writing and publishing one event. *)
Lemma run_write_publish {A} cap zc s tr h acc v (k : prog (Shared T) (event T) A) :
  inv cap (s, tr) -> prod_ok cap zc h acc (s, tr) -> pcur s - ccur s < cap ->
  let p := buf_write (next_sequence h) v ;;; publish_cursor (next_sequence h) ;;; k in
  exists s', queue s' = queue s ++ [v] /\
    run p s = (let '(ev, s'', r) := run k s' in (Sent v :: ev, s'', r)).
Proof.
  intros HI Hok Hsp p. pose proof (SpscProducer.po_next _ _ _ _ _ Hok) as Hn. simpl in Hn.
  pose proof (inv_order _ _ HI) as Hord. pose proof (inv_wf _ _ HI) as Hwf.
  pose proof (inv_cap _ _ HI) as Hcap. simpl in *.
  set (b1 := set_slot (buffer s) (next_sequence h) Uninit).
  set (b2 := RingBuffer.write b1 (next_sequence h) v).
  assert (Hwf1 : wf b1) by (by apply wf_set_slot).
  assert (Hnew : get_ptr b2 (next_sequence h) = Some (Live v)) by (by apply get_ptr_set_eq).
  assert (Hold : forall q, ccur s < q <= pcur s -> get_ptr b2 q = get_ptr (buffer s) q).
  { intros q Hq. assert (Z.abs (next_sequence h - q) < capacity (buffer s)) by lia.
    unfold b2, RingBuffer.write. rewrite get_ptr_set_other; [|done|lia|done].
    unfold b1. by rewrite get_ptr_set_other by (try done; lia). }
  exists (set_producer (next_sequence h) (set_buffer b2 s)). split.
  - unfold queue. simpl. unfold pcur at 1, ccur at 1 2. simpl.
    fold (ccur s). rewrite Hn. replace (pcur s + 1 - ccur s) with (pcur s - ccur s + 1) by lia.
    rewrite payload_app by lia. f_equal.
    + apply payload_ext. intros q Hq. by rewrite Hold by lia.
    + replace (ccur s + 1 + (pcur s - ccur s)) with (next_sequence h) by lia.
      apply payload_one. by rewrite Hnew.
  - subst p. simpl.
    change (RingBuffer.write (set_slot (buffer s) (next_sequence h) Uninit) (next_sequence h) v)
      with b2.
    change (pcur (set_buffer _ _)) with (pcur s).
    replace (next_sequence h - pcur s) with 1 by lia. rewrite <- Hn.
    rewrite (payload_one _ _ v) by (by rewrite Hnew). simpl.
    change (set_buffer b2 (set_buffer _ s)) with (set_buffer b2 s).
    by destruct (run k _) as [[??]?].
Qed.

(** The places left, as the abstract queue shows them. *)
Definition room (cap : Z) s : bool := Z.of_nat (length (queue s)) <? cap.

Lemma room_ccur cap s tr h zc acc :
  inv cap (s, tr) -> prod_ok cap zc h acc (s, tr) ->
  room cap s = (next_sequence h - cap <=? ccur s).
Proof.
  intros HI Hok. unfold room. rewrite (queue_length _ _ _ HI), (SpscProducer.po_next _ _ _ _ _ Hok).
  simpl. destruct (Z.ltb_spec (pcur s - ccur s) cap), (Z.leb_spec (pcur s + 1 - cap) (ccur s)); lia || done.
Qed.

(** The cached consumer cursor never promises room that is not there. *)
Lemma cached_room cap s tr h zc acc :
  inv cap (s, tr) -> prod_ok cap zc h acc (s, tr) ->
  next_sequence h - cap <= cached_consumer h -> room cap s = true.
Proof.
  intros HI Hok Hle. rewrite (room_ccur _ _ _ _ _ _ HI Hok). apply Z.leb_le.
  pose proof (SpscProducer.po_cached _ _ _ _ _ Hok). simpl in *. lia.
Qed.

Lemma run_try_space cap zc s tr h acc :
  inv cap (s, tr) -> prod_ok cap zc h acc (s, tr) ->
  exists h', next_sequence h' = next_sequence h /\
    run (try_space (T := T) h) s = ([], s, inr (h', room cap s)).
Proof.
  intros HI Hok. unfold try_space. rewrite (SpscProducer.po_cap _ _ _ _ _ Hok).
  destruct (Z.ltb_spec (cached_consumer h) (next_sequence h - cap)) as [Hlt|Hge].
  - simpl. eexists (with_cached_consumer _ h). split; [done|].
    by rewrite (room_ccur _ _ _ _ _ _ HI Hok), Z.leb_antisym.
  - exists h. split; [done|]. simpl. by rewrite (cached_room _ _ _ _ _ _ HI Hok).
Qed.

Lemma run_wait_step s h fuel iteration wrap :
  gone s = false -> cached_disconnected h = false ->
  run (wait_for_space_loop (T := T) (Datatypes.S fuel) iteration h wrap) s
  = if wrap <=? ccur s then ([], s, inr (Some (with_cached_consumer (ccur s) h, Ok tt)))
    else run (wait_for_space_loop fuel (Backoff.wait_backoff iteration).2
                (with_cached_consumer (ccur s) h) wrap) s.
Proof.
  intros Hg Hc. cbn [wait_for_space_loop]. rewrite run_bind. cbn [run load].
  destruct (wrap <=? ccur s); [done|].
  rewrite run_bind, (run_is_disconnected (with_cached_consumer (ccur s) h)), Hg by done.
  by destruct (run (wait_for_space_loop _ _ _ _) s) as [[??]?].
Qed.

Lemma run_wait_loop s fuel : forall h iteration wrap,
  gone s = false -> cached_disconnected h = false ->
  run (wait_for_space_loop (T := T) (Datatypes.S fuel) iteration h wrap) s
  = ([], s, inr (if wrap <=? ccur s
                 then Some (with_cached_consumer (ccur s) h, Ok tt) else None)).
Proof.
  induction fuel as [|fuel IH]; intros h iteration wrap Hg Hc;
    rewrite run_wait_step by done; (destruct (wrap <=? ccur s) eqn:Hle; [done|]); [done|].
  rewrite IH by done. by rewrite Hle.
Qed.

Lemma run_wait_for_space cap zc s tr h acc fuel :
  inv cap (s, tr) -> prod_ok cap zc h acc (s, tr) ->
  gone s = false -> cached_disconnected h = false ->
  exists h', next_sequence h' = next_sequence h /\
    run (wait_for_space (T := T) (Datatypes.S fuel) h) s
    = ([], s, inr (if room cap s then Some (h', Ok tt) else None)).
Proof.
  intros HI Hok Hg Hc. unfold wait_for_space, wait_for_space_n.
  rewrite (SpscProducer.po_cap _ _ _ _ _ Hok).
  replace (next_sequence h + 1 - 1 - cap) with (next_sequence h - cap) by lia.
  destruct (Z.leb_spec (next_sequence h - cap) (cached_consumer h)) as [Hle|Hgt].
  - exists h. split; [done|]. by rewrite (cached_room _ _ _ _ _ _ HI Hok).
  - eexists (with_cached_consumer _ h). split; [done|].
    rewrite run_wait_loop, (room_ccur _ _ _ _ _ _ HI Hok); done.
Qed.

(** What a sending operation leaves behind: [v] at the end of the queue when it
    was accepted, everything as it was when it was not. *)
Definition sent_effect (ok : bool) (v : T) s s' (ev : list (event T)) : Prop :=
  if ok then queue s' = queue s ++ [v] /\ ev = [Sent v] else s' = s /\ ev = [].

Lemma run_write_publish_ok {A} cap zc s tr h h' acc v (a : A) :
  inv cap (s, tr) -> prod_ok cap zc h acc (s, tr) -> room cap s = true ->
  next_sequence h' = next_sequence h ->
  let p := buf_write (next_sequence h') v ;;; publish_cursor (next_sequence h') ;;; Ret a in
  exists s' ev, run p s = (ev, s', inr a) /\ sent_effect true v s s' ev.
Proof.
  intros HI Hok Hr Hn. cbn zeta. rewrite Hn.
  destruct (run_write_publish cap zc s tr h acc v (Ret a)) as (s' & Hq & Hrun); [done|done| |].
  - unfold room in Hr. rewrite (queue_length _ _ _ HI) in Hr. by apply Z.ltb_lt.
  - exists s', [Sent v]. split; [exact Hrun|done].
Qed.

(** [try_send] by itself: it reports [Disconnected] with the value when the
    other side is gone, [Full] with the value when the queue holds [cap] values
    (although it may rely on a stale copy of the consumer cursor), and otherwise
    appends the value to the queue; the two errors leave the channel as it was. *)
Theorem try_send_spec cap zc s tr h acc v :
  inv cap (s, tr) -> prod_ok cap zc h acc (s, tr) ->
  claimed h = false -> cached_disconnected h = false ->
  exists h' s' ev,
    run (try_send h v) s =
      (ev, s', inr (h', if gone s then Err (Disconnected v)
                        else if room cap s then Ok tt else Err (Full v))) /\
    sent_effect (negb (gone s) && room cap s) v s s' ev.
Proof.
  intros HI Hok Hcl Hc. unfold try_send. rewrite Hcl. cbn [rassert negb bind].
  rewrite run_bind, run_is_disconnected by done. destruct (gone s) eqn:Hg.
  { by exists (with_disconnected h), s, []. }
  destruct (run_try_space cap zc s tr h acc HI Hok) as (h' & Hn & Hrun).
  rewrite run_bind, Hrun. destruct (room cap s) eqn:Hr; [|by exists h', s, []].
  destruct (run_write_publish_ok cap zc s tr h h' acc v
    (with_next (next_sequence h' + 1) h', Ok (B := TrySendError T) tt) HI Hok Hr Hn) as (s' & ev & -> & He).
  by exists (with_next (next_sequence h' + 1) h'), s', ev.
Qed.

(** [send] by itself: with the other side gone it returns the value; with
    room in the queue it returns having appended the value, after at most one
    look at the consumer cursor; on a full queue, and only then, it keeps
    waiting ([None] for every number of rounds) without touching the channel. *)
Theorem send_spec cap zc s tr h acc v fuel :
  inv cap (s, tr) -> prod_ok cap zc h acc (s, tr) ->
  claimed h = false -> cached_disconnected h = false ->
  exists h' s' ev,
    run (send (Datatypes.S fuel) h v) s =
      (ev, s', inr (if gone s then Some (h', Err v)
                    else if room cap s then Some (h', Ok tt) else None)) /\
    sent_effect (negb (gone s) && room cap s) v s s' ev.
Proof.
  intros HI Hok Hcl Hc. unfold send. rewrite Hcl. cbn [rassert negb bind].
  rewrite run_bind, run_is_disconnected by done. destruct (gone s) eqn:Hg.
  { by exists (with_disconnected h), s, []. }
  destruct (run_wait_for_space cap zc s tr h acc fuel HI Hok Hg Hc) as (h' & Hn & Hrun).
  rewrite run_bind, Hrun. destruct (room cap s) eqn:Hr; [|by exists h', s, []].
  destruct (run_write_publish_ok cap zc s tr h h' acc v
    (Some (with_next (next_sequence h' + 1) h', Ok (B := T) tt)) HI Hok Hr Hn) as (s' & ev & -> & He).
  by exists (with_next (next_sequence h' + 1) h'), s', ev.
Qed.

(** ** The consumer *)

Implicit Types hc : Consumer (W := W).

(** What a receiving operation leaves behind: the queue without its head, or
    everything as it was when there was none. *)
Definition rcvd_effect s s' (ev : list (event T)) : Prop :=
  match queue s with
  | v :: q => queue s' = q /\ ev = [Rcvd v]
  | [] => s' = s /\ ev = []
  end.

Lemma available_queue cap s tr hc acc :
  inv cap (s, tr) -> taking hc acc 0 [] (s, tr) ->
  (c_next_sequence hc <=? pcur s) = match queue s with [] => false | _ => true end.
Proof.
  intros HI Hok. pose proof (queue_length _ _ _ HI) as Hl.
  pose proof (SpscConsumer.ta_next _ _ _ _ _ Hok) as Hn. simpl in Hn.
  destruct (Z.leb_spec (c_next_sequence hc) (pcur s)), (queue s); simpl in Hl; lia || done.
Qed.

(** Moving out the head of the queue. *)
Lemma run_take_one {A} cap s tr hc acc v q (k : T -> prog (Shared T) (event T) A) :
  inv cap (s, tr) -> taking hc acc 0 [] (s, tr) -> queue s = v :: q ->
  exists s', queue s' = q /\
    run (let! e := buf_read (c_next_sequence hc) in
         consume_cursor (c_next_sequence hc) ;;; k e) s
    = (let '(ev, s'', r) := run (k v) s' in (Rcvd v :: ev, s'', r)).
Proof.
  intros HI Hok Hq. pose proof (SpscConsumer.ta_next _ _ _ _ _ Hok) as Hn. simpl in Hn.
  pose proof (queue_length _ _ _ HI) as Hl. rewrite Hq in Hl. simpl in Hl.
  destruct (SpscConsumer.ta_live _ _ _ _ _ Hok (c_next_sequence hc)) as [v' Hv];
    [simpl; lia|]. simpl in Hv.
  assert (Hsplit : queue s = v' :: payload (buffer s) (ccur s + 1 + 1) (pcur s - ccur s - 1)).
  { unfold queue. replace (pcur s - ccur s) with (1 + (pcur s - ccur s - 1)) at 1 by lia.
    rewrite payload_app by lia. rewrite (payload_one _ _ v') by (by rewrite <- Hn, Hv). done. }
  rewrite Hq in Hsplit. injection Hsplit as <- Hq'.
  pose proof (inv_wf _ _ HI) as Hwf. pose proof (inv_cap _ _ HI) as Hcap.
  pose proof (inv_space _ _ HI) as Hsp. simpl in Hwf, Hcap, Hsp.
  set (b1 := set_slot (buffer s) (c_next_sequence hc) (Moved v)).
  assert (Hb : forall x, Z.abs (x - c_next_sequence hc) < cap ->
             get_ptr b1 x ≫= slot_bytes = get_ptr (buffer s) x ≫= slot_bytes).
  { intros x Hx. by apply (set_moved_bytes _ _ _ _ cap). }
  exists (set_consumer (c_next_sequence hc) (set_buffer b1 s)). split.
  - rewrite Hq'. unfold queue. simpl. change (pcur (set_consumer _ _)) with (pcur s).
    unfold ccur at 1 2. simpl. rewrite Hn.
    replace (pcur s - (ccur s + 1)) with (pcur s - ccur s - 1) by lia.
    apply payload_ext. intros x Hx. apply Hb. lia.
  - cbn [bind buf_read run]. unfold RingBuffer.read. rewrite Hv. fold b1. cbn [bind consume_cursor run].
    change (ccur (set_buffer b1 s)) with (ccur s).
    replace (c_next_sequence hc - ccur s) with 1 by lia. rewrite <- Hn. cbn [buffer set_buffer].
    rewrite (payload_one _ _ v); [by destruct (run (k v) _) as [[??]?]|].
    rewrite Hb by lia. by rewrite Hv.
Qed.

(** [try_recv] by itself: the oldest value when there is one, even after the
    producer has gone; on an empty queue [Disconnected] or [Empty], with the
    channel as it was. *)
Theorem try_recv_spec cap s tr hc acc :
  inv cap (s, tr) -> taking hc acc 0 [] (s, tr) -> c_cached_disconnected hc = false ->
  exists hc' s' ev,
    run (try_recv hc) s =
      (ev, s', inr (hc', match queue s with
                        | v :: _ => Ok v
                        | [] => Err (if gone s then TryDisconnected else Empty)
                        end)) /\
    rcvd_effect s s' ev.
Proof.
  intros HI Hok Hc. unfold try_recv, is_available, rcvd_effect. rewrite run_bind. cbn [run load].
  rewrite (available_queue _ _ _ _ _ HI Hok). destruct (queue s) as [|v q] eqn:Hq.
  - rewrite run_bind, run_c_is_disconnected by done.
    by exists (if gone s then c_with_disconnected hc else hc), s, [].
  - destruct (run_take_one cap s tr hc acc v q
      (fun e => Ret (c_with_next (c_next_sequence hc + 1) hc, Ok (B := TryRecvError) e))
      HI Hok Hq) as (s' & Hq' & Hrun).
    rewrite Hrun. simpl. eexists _, s', _. done.
Qed.

(** With nothing to receive and the producer there, the loop waits. *)
Lemma run_await_empty s hc wfuel fuel :
  (c_next_sequence hc <=? pcur s) = false -> gone s = false -> c_cached_disconnected hc = false ->
  run (await_loop (T := T) wfuel fuel hc) s = ([], s, inr None).
Proof.
  intros Ha Hg Hc. induction fuel as [|fuel IH]; [done|].
  cbn [await_loop]. rewrite run_bind. cbn [run load]. rewrite Ha.
  rewrite run_bind, run_c_is_disconnected, Hg by done. rewrite run_bind.
  unfold barrier_wait_for.
  destruct (run_reads_only (wait_for (E := event T) (wait_strategy hc) wfuel (c_next_sequence hc) (load pcur)) s)
    as [[a|] Hrun]; [by apply wait_for_reads_only|..]; rewrite Hrun; [by rewrite IH|done].
Qed.

(** [recv] by itself: the oldest value when there is one; an error when the
    queue is empty and the producer gone; and only with an empty queue and the
    producer still there does it keep waiting, without touching the channel. *)
Theorem recv_spec cap s tr hc acc fuel :
  inv cap (s, tr) -> taking hc acc 0 [] (s, tr) -> c_cached_disconnected hc = false ->
  exists hc' s' ev,
    run (recv (Datatypes.S fuel) hc) s =
      (ev, s', inr (match queue s with
                    | v :: _ => Some (hc', Ok v)
                    | [] => if gone s then Some (hc', Err tt) else None
                    end)) /\
    rcvd_effect s s' ev.
Proof.
  intros HI Hok Hc. unfold recv, rcvd_effect. rewrite run_bind.
  pose proof (available_queue _ _ _ _ _ HI Hok) as Ha. destruct (queue s) as [|v q] eqn:Hq.
  - destruct (gone s) eqn:Hg; [|rewrite run_await_empty by done; by exists hc, s, []].
    cbn [await_loop]. rewrite run_bind. cbn [run load]. rewrite Ha.
    rewrite run_bind, run_c_is_disconnected, Hg by done. rewrite run_bind. cbn [run load].
    cbn [c_next_sequence c_with_disconnected]. rewrite Ha. by exists (c_with_disconnected hc), s, [].
  - cbn [await_loop]. rewrite run_bind. cbn [run load]. rewrite Ha.
    destruct (run_take_one cap s tr hc acc v q
      (fun e => Ret (Some (c_with_next (c_next_sequence hc + 1) hc, Ok (B := unit) e)))
      HI Hok Hq) as (s' & Hq' & Hrun).
    cbn [run app]. cbn match beta. rewrite Hrun. simpl. eexists _, s', _. done.
Qed.

End seq.

(** ** Witnesses of the specifications *)

(** A channel of one place that holds the value 10. *)
Definition one_sent : Shared Z :=
  {| buffer := {| RingBuffer.slots := [Live 10]; RingBuffer.mask := 0; capacity := 1 |};
     producer_cursor := Cursor.with_value 0; consumer_cursor := Cursor.new;
     closed := false; strong_count := 2 |}.
Definition one_sent_producer : Producer :=
  {| cached_consumer := -1; next_sequence := 1; p_capacity := 1; claimed := false;
     cached_disconnected := false |}.
Definition one_sent_consumer : Consumer (W := SpinLoopHintWait) :=
  {| c_next_sequence := 0; c_cached_disconnected := false; wait_strategy := mkSpinLoopHintWait |}.

Lemma one_sent_ok :
  inv 1 (one_sent, [Sent 10]) /\
  prod_ok 1 false one_sent_producer [10] (one_sent, [Sent 10]) /\
  taking one_sent_consumer [] 0 [] (one_sent, [Sent 10]).
Proof.
  assert (Hget : forall q, get_ptr (buffer one_sent) q = Some (Live 10)).
  { intros q. unfold get_ptr, index. simpl. by rewrite Z.land_0_r. }
  assert (Hnil : forall w : side, w ∉ []) by (intros ? ?%elem_of_nil; done).
  split; [|split]; split; simpl; unfold pcur, ccur; simpl; try done; try lia.
  - split; simpl; try lia. exists 0. split; [lia|done].
  - intros q _. rewrite Hget. by eexists.
  - apply fifo_run_cons with (q1 := [10]); [|apply fifo_run_nil]. by apply (fifo_send 1 []).
  - intros Hin. by apply Hnil in Hin.
  - apply NoDup_nil_2.
  - intros q Hq. eauto.
Qed.

Lemma try_send_spec_witness : exists h' s' ev,
  run (try_send one_sent_producer 20) one_sent = (ev, s', inr (h', Err (Full 20))).
Proof.
  destruct (try_send_spec 1 false one_sent [Sent 10] one_sent_producer [10] 20
    (proj1 one_sent_ok) (proj1 (proj2 one_sent_ok)) eq_refl eq_refl) as (h' & s' & ev & Hrun & _).
  exists h', s', ev. exact Hrun.
Defined.

Lemma send_spec_witness : exists s' ev,
  run (send 7 one_sent_producer 20) one_sent = (ev, s', inr None).
Proof.
  destruct (send_spec 1 false one_sent [Sent 10] one_sent_producer [10] 20 6
    (proj1 one_sent_ok) (proj1 (proj2 one_sent_ok)) eq_refl eq_refl) as (h' & s' & ev & Hrun & _).
  exists s', ev. exact Hrun.
Defined.

Lemma try_recv_spec_witness : exists h' s' ev,
  run (try_recv one_sent_consumer) one_sent = (ev, s', inr (h', Ok 10)).
Proof.
  destruct (try_recv_spec 1 one_sent [Sent 10] one_sent_consumer []
    (proj1 one_sent_ok) (proj2 (proj2 one_sent_ok)) eq_refl) as (h' & s' & ev & Hrun & _).
  exists h', s', ev. exact Hrun.
Defined.

Lemma recv_spec_witness : exists h' s' ev,
  run (recv 1 one_sent_consumer) one_sent = (ev, s', inr (Some (h', Ok 10))).
Proof.
  destruct (recv_spec 1 one_sent [Sent 10] one_sent_consumer [] 0
    (proj1 one_sent_ok) (proj2 (proj2 one_sent_ok)) eq_refl) as (h' & s' & ev & Hrun & _).
  exists h', s', ev. exact Hrun.
Defined.

(** ** Departures from the documentation *)

(** A spinning thread that another one will never wake: each of its turns finds
    the cursor below the target. *)
Lemma run_sched_spin {T A B} s (tr : list (event T)) (t0 : prog (Shared T) (event T) A) target
    (k : option Z -> prog _ _ B) (k' : B -> prog _ _ A) fuel :
  pcur s < target ->
  run_sched (replicate fuel 1%nat)
    ([t0; bind (bind (spin_wait_for fuel target (load pcur)) k) k'], (s, tr))
  = ([t0; bind (k None) k'], (s, tr)).
Proof.
  intros Hlt. induction fuel as [|fuel IH]; [done|].
  cbn [replicate run_sched fst snd lookup list_lookup nth_error spin_wait_for poll_cursor bind load].
  assert ((target <=? pcur s) = false) as Hle by (apply Z.leb_gt; lia).
  unfold apply_upd. simpl. rewrite Hle, app_nil_r. exact IH.
Qed.

(** The consumer of a fresh channel looks at the cursor, the flag and the
    count; the producer then drops its handle; the consumer starts to wait. *)
Definition drop_race (fuel : nat) : list nat :=
  [1; 1; 1; 0; 0]%nat ++ replicate fuel 1%nat.

(** A blocked [recv] does not notice that the producer goes away: in this
    interleaving the channel is closed and empty for good and the producer's
    handle is dropped, yet after any number of rounds [recv] is still waiting
    (the documentation promises [RecvError]); the wait strategy polls only the
    cursor. *)
Theorem recv_misses_disconnect (T : Type) (fuel : nat) :
  let '(s, _, hc) := make_channel (T := T)
    {| RingBuffer.slots := [Uninit]; RingBuffer.mask := 0; capacity := 1 |} 1 mkSpinLoopHintWait in
  let '(ts, (s', tr)) :=
    run_sched (drop_race (Datatypes.S fuel))
      ([producer_drop ;;; Ret None; recv (Datatypes.S fuel) hc], (s, [])) in
  ts = [Ret None; Ret None] /\ gone s' = true /\ queue s' = [] /\ drops tr = [Prod].
Proof.
  unfold make_channel, recv, drop_race. generalize (Datatypes.S fuel) at 1 2. intros n. simpl.
  unfold apply_upd; simpl. rewrite run_sched_spin by done. done.
Qed.

(** Claim, write and publish a slot, receive its value, and claim the slot again. *)
Definition claim_again (h : Producer) (hc : Consumer (W := SpinLoopHintWait)) (f : Z -> Z)
    : prog (Shared Z) (event Z) _ :=
  let! r := claim 1 h in
  match r with
  | Some (h, Ok _) =>
      claimed_update h f ;;; let! h := publish h in
      let! _ := recv 1 hc in claim 1 h
  | _ => Ret None
  end.

(** The zero-copy calls are safe functions and yet hand out references to
    slots without a live value: [claim] on a channel made by [channel] (as in
    the module's own example), and, on a channel made by
    [channel_with_factory], [claim] of a slot whose previous value was moved out
    by [recv]. *)
Theorem claim_hands_out_dead_slots (v : Z) (f : Z -> Z) :
  let '(s0, h0, _) := make_channel (T := Z)
    {| RingBuffer.slots := [Uninit]; RingBuffer.mask := 0; capacity := 1 |} 1 mkSpinLoopHintWait in
  let '(s1, h1, c1) := make_channel
    {| RingBuffer.slots := [Live v]; RingBuffer.mask := 0; capacity := 1 |} 1 mkSpinLoopHintWait in
  (run (claim 1 h0) s0).2 = inl (UndefinedBehaviour uninit_msg) /\
  (run (claim_again h1 c1 f) s1).2 = inl (UndefinedBehaviour uninit_msg).
Proof. vm_compute. done. Qed.
