(* ===== verification/Mpsc.v ===== *)
(** * Mpsc: the multi-producer single-consumer channel

    [channel/src/mpsc/]: [shared.rs], [producer.rs], [consumer.rs], [batch.rs]
    and the constructors of [mod.rs].  Producers claim sequences with an atomic
    cursor, write their slots in any order and publish each by flipping its bit
    in the availability bitmap: a bit counts as published for a sequence when it
    equals the parity of the sequence's round (how often the ring has wrapped).
    The consumer scans the bitmap.

    As in [Spsc], an operation is a program over the shared state, one action
    per atomic access (a scan of the bitmap reads one word per action), and the
    events mark the linearisation points. *)
From S2P Require Import Prelude Conc RingBuffer Cpu.
From S2P Require RingBuffer.

(** [Claim w lo n]: handle [w] takes the sequences [lo .. lo + n - 1];
    [Put seq v]: sequence [seq] is published with the value [v];
    [Take seq v]: sequence [seq] is consumed; [Leave w]: handle [w] has left the
    producer count; [Release w]: its [Arc] is gone. *)
Inductive event (T : Type) : Type :=
| Claim (w : nat) (lo n : Z)
| Put (seq : Z) (v : T)
| Take (seq : Z) (v : T)
| Leave (w : nat)
| Release (w : nat).
Arguments Claim {T} w lo n.
Arguments Put {T} seq v.
Arguments Take {T} seq v.
Arguments Leave {T} w.
Arguments Release {T} w.

Inductive TrySendError (A : Type) : Type :=
| Full (a : A)
| Disconnected (a : A).
Arguments Full {A} a.
Arguments Disconnected {A} a.

Inductive TryRecvError : Type := Empty | TryDisconnected.

Definition BITS_PER_WORD : Z := 64.

(** ** The availability bitmap *)

Definition word_index (availability_words sequence : Z) : Z :=
  (as_usize sequence / BITS_PER_WORD) mod availability_words.

Definition bit_index (sequence : Z) : Z := as_usize sequence mod BITS_PER_WORD.

(** [1u64 << bit] *)
Definition bit_mask (bit : Z) : Z := Z.shiftl 1 bit.

(** [((sequence as usize) / capacity) & 1] *)
Definition expected_bit (capacity sequence : Z) : Z := Z.land (as_usize sequence / capacity) 1.

Definition expected_pattern (capacity sequence : Z) : Z :=
  let round := as_usize sequence / capacity in
  if Z.land round 1 =? 0 then 0 else U64_MAX.

(** [u64::trailing_zeros], 64 for zero. *)
Fixpoint ctz_from (n : nat) (x i : Z) : Z :=
  match n with
  | O => i
  | Datatypes.S n => if Z.testbit x i then i else ctz_from n x (i + 1)
  end.
Definition trailing_zeros (x : Z) : Z := ctz_from 64 x 0.

(** ** Shared state *)

Record Shared (T : Type) : Type := {
  buffer : RingBuffer T;
  claim_cursor : Cursor.t;
  consumer_cursor : Cursor.t;
  availability : list Z;
  availability_words : Z;
  producer_count : Z;
  closed : bool;
  cap : Z;            (* the field [capacity] *)
  strong_count : Z;   (* of the [Arc] that holds the shared state *)
}.
Arguments buffer {T}.
Arguments claim_cursor {T}.
Arguments consumer_cursor {T}.
Arguments availability {T}.
Arguments availability_words {T}.
Arguments producer_count {T}.
Arguments closed {T}.
Arguments cap {T}.
Arguments strong_count {T}.

Section model.
Context {T : Type}.
Abbreviation P := (prog (Shared T) (event T)).
Implicit Types s : Shared T.

Definition claimed_seq s : Z := Cursor.value (claim_cursor s).
Definition ccur s : Z := Cursor.value (consumer_cursor s).

Definition set_buffer (b : RingBuffer T) s : Shared T :=
  {| buffer := b; claim_cursor := claim_cursor s; consumer_cursor := consumer_cursor s;
     availability := availability s; availability_words := availability_words s;
     producer_count := producer_count s; closed := closed s; cap := cap s;
     strong_count := strong_count s |}.
Definition set_claim (c : Cursor.t) s : Shared T :=
  {| buffer := buffer s; claim_cursor := c; consumer_cursor := consumer_cursor s;
     availability := availability s; availability_words := availability_words s;
     producer_count := producer_count s; closed := closed s; cap := cap s;
     strong_count := strong_count s |}.
Definition set_consumer (n : Z) s : Shared T :=
  {| buffer := buffer s; claim_cursor := claim_cursor s;
     consumer_cursor := Cursor.set (consumer_cursor s) n;
     availability := availability s; availability_words := availability_words s;
     producer_count := producer_count s; closed := closed s; cap := cap s;
     strong_count := strong_count s |}.
Definition set_availability (a : list Z) s : Shared T :=
  {| buffer := buffer s; claim_cursor := claim_cursor s; consumer_cursor := consumer_cursor s;
     availability := a; availability_words := availability_words s;
     producer_count := producer_count s; closed := closed s; cap := cap s;
     strong_count := strong_count s |}.
Definition set_closed s : Shared T :=
  {| buffer := buffer s; claim_cursor := claim_cursor s; consumer_cursor := consumer_cursor s;
     availability := availability s; availability_words := availability_words s;
     producer_count := producer_count s; closed := true; cap := cap s;
     strong_count := strong_count s |}.
Definition set_counts (producers strong : Z) s : Shared T :=
  {| buffer := buffer s; claim_cursor := claim_cursor s; consumer_cursor := consumer_cursor s;
     availability := availability s; availability_words := availability_words s;
     producer_count := producers; closed := closed s; cap := cap s; strong_count := strong |}.

(** *** Slots *)

Definition buf_write (sequence : Z) (event : T) : P unit :=
  store (fun s => set_buffer (set_slot (buffer s) sequence Uninit) s) ;;;
  store (fun s => set_buffer (RingBuffer.write (buffer s) sequence event) s).

Definition buf_read (sequence : Z) : P T :=
  Act (fun s => ([], match RingBuffer.read (buffer s) sequence with
                     | Ok (_, b) => set_buffer b s
                     | Err _ => s
                     end))
      (fun s => match RingBuffer.read (buffer s) sequence with
                | Ok (v, _) => Ret v
                | Err e => Fault e
                end).

Definition buf_get (sequence : Z) : P T :=
  Act (fun s => ([], s))
      (fun s => match RingBuffer.get (buffer s) sequence with
                | Ok v => Ret v
                | Err e => Fault e
                end).

Definition buf_modify (sequence : Z) (f : T -> T) : P T :=
  Act (fun s => ([], match RingBuffer.get_mut (buffer s) sequence f with
                     | Ok b => set_buffer b s
                     | Err _ => s
                     end))
      (fun s => match RingBuffer.get (buffer s) sequence with
                | Ok v => Ret (f v)
                | Err e => Fault e
                end).

(** The value in the slot of [sequence], if its bytes hold one. *)
Definition slot_value s (sequence : Z) : option T := get_ptr (buffer s) sequence ≫= slot_bytes.

(** *** The bitmap *)

Definition index_msg : string := "index out of bounds".

(** [self.availability[word_idx].load()] *)
Definition load_word (word_idx : Z) : P Z :=
  Act (fun s => ([], s))
      (fun s => match availability s !! Z.to_nat word_idx with
                | Some w => Ret w
                | None => Fault (Panic index_msg)
                end).

(** Whether the bitmap of [s] shows [sequence] as published; [None] is an index
    outside the bitmap.  The fields [capacity] and [availability_words] never
    change, so reading them is not an action of its own. *)
Definition published_in s (sequence : Z) : option bool :=
  let word_idx := word_index (availability_words s) sequence in
  word ← availability s !! Z.to_nat word_idx;
  let actual_bit := Z.land (Z.shiftr word (bit_index sequence)) 1 in
  Some (actual_bit =? expected_bit (cap s) sequence).

Definition is_published (sequence : Z) : P bool :=
  Act (fun s => ([], s))
      (fun s => match published_in s sequence with
                | Some b => Ret b
                | None => Fault (Panic index_msg)
                end).

(** [fetch_xor(mask)] on one word, which publishes the sequences [seqs]. *)
Definition xor_word (word_idx mask : Z) s : Shared T :=
  set_availability (alter (fun w => Z.lxor w mask) (Z.to_nat word_idx) (availability s)) s.

Definition puts s (seqs : list Z) : list (event T) :=
  omap (fun q => Put q <$> slot_value s q) seqs.

Definition fetch_xor (word_idx mask : Shared T -> Z) (seqs : list Z) : P unit :=
  Act (fun s => (puts s seqs, xor_word (word_idx s) (mask s) s))
      (fun s => match availability s !! Z.to_nat (word_idx s) with
                | Some _ => Ret tt
                | None => Fault (Panic index_msg)
                end).

Definition mark_published (sequence : Z) : P unit :=
  fetch_xor (fun s => word_index (availability_words s) sequence)
    (fun _ => bit_mask (bit_index sequence)) [sequence].

(** The loop of [mark_published_batch]: [flip_mask] and [flip_seqs] are the bits
    (and the sequences) not yet flushed to [current_word_idx]. *)
Definition flush (current_word_idx flip_mask : Z) (flip_seqs : list Z) : P unit :=
  if flip_mask =? 0 then Ret tt
  else fetch_xor (fun _ => current_word_idx) (fun _ => flip_mask) flip_seqs.

Fixpoint mark_batch_loop (words seq : Z) (n : nat) (current_word_idx flip_mask : Z)
    (flip_seqs : list Z) : P unit :=
  match n with
  | O => flush current_word_idx flip_mask flip_seqs
  | Datatypes.S n =>
      let word_idx := word_index words seq in
      let bit := bit_mask (bit_index seq) in
      if word_idx =? current_word_idx then
        mark_batch_loop words (seq + 1) n current_word_idx (Z.lor flip_mask bit)
          (flip_seqs ++ [seq])
      else
        flush current_word_idx flip_mask flip_seqs ;;;
        mark_batch_loop words (seq + 1) n word_idx (Z.lor 0 bit) [seq]
  end.

Definition mark_published_batch (start count : Z) : P unit :=
  if count =? 0 then Ret tt
  else
    let! words := load availability_words in
    mark_batch_loop words start (Z.to_nat count) (word_index words start) 0 [].

(** The scan of [highest_published]; [None]: more words than [fuel]. *)
Fixpoint highest_loop (fuel : nat) (c words claim seq word_idx bit_idx : Z) : P (option Z) :=
  match fuel with
  | O => Ret None
  | Datatypes.S fuel =>
      if claim <? seq then Ret (Some (seq - 1))
      else
        let! word := load_word word_idx in
        let mismatches := Z.lxor word (expected_pattern c seq) in
        let mask := Z.land (Z.shiftl U64_MAX bit_idx) U64_MAX in
        let relevant_mismatches := Z.land mismatches mask in
        if relevant_mismatches =? 0 then
          highest_loop fuel c words claim (seq + (BITS_PER_WORD - bit_idx))
            ((word_idx + 1) mod words) 0
        else
          let advance := trailing_zeros relevant_mismatches - bit_idx in
          Ret (Some (seq + advance - 1))
  end.

Definition highest_published (fuel : nat) (from : Z) : P (option Z) :=
  let! (claim, c, words) := load (fun s => (claimed_seq s, cap s, availability_words s)) in
  if claim <? from then Ret (Some (from - 1))
  else highest_loop fuel c words claim from (word_index words from) (bit_index from).

(** ** Producer *)

(** A handle is one [Arc]; [who] names it in the events. *)
Record Producer : Type := { who : nat }.

Definition is_disconnected : P bool :=
  let! c := load closed in
  if c then Ret true
  else
    let! n := load producer_count in
    if n =? 0 then load (fun s => strong_count s =? 1) else Ret false.

(** [claim_cursor.add(n)], which takes the next [n] sequences; returns the last. *)
Definition claim_add (h : Producer) (n : Z) : P Z :=
  Act (fun s => ([Claim (who h) (claimed_seq s + 1) n],
                 set_claim (Cursor.add (claim_cursor s) n).2 s))
      (fun s => Ret (Cursor.add (claim_cursor s) n).1).

(** [while consumer_cursor.value_relaxed() < wrap_point { .. }]; [None]: still
    waiting, [Some false]: disconnected. *)
Fixpoint wait_for_consumer (fuel : nat) (iteration wrap_point : Z) : P (option bool) :=
  match fuel with
  | O => Ret None
  | Datatypes.S fuel =>
      let! c := load ccur in
      if c <? wrap_point then
        let! d := is_disconnected in
        if d then Ret (Some false)
        else wait_for_consumer fuel (Backoff.wait_backoff iteration).2 wrap_point
      else Ret (Some true)
  end.

Definition publish_sequence (sequence : Z) : P unit := mark_published sequence.

Definition send (fuel : nat) (h : Producer) (event : T) : P (option (Result unit T)) :=
  let! d := is_disconnected in
  if d then Ret (Some (Err event))
  else
    let! sequence := claim_add h 1 in
    let! c := load cap in
    let wrap_point := sequence - c in
    let! w := wait_for_consumer fuel 0 wrap_point in
    match w with
    | None => Ret None
    | Some false => Ret (Some (Err event))
    | Some true =>
        buf_write sequence event ;;;
        publish_sequence sequence ;;;
        Ret (Some (Ok tt))
    end.

(** [compare_exchange(current, next)] on the claim cursor. *)
Definition claim_cas (h : Producer) (current next : Z) : P bool :=
  Act (fun s =>
         match Cursor.compare_exchange (claim_cursor s) current next with
         | (Ok _, c) => ([Claim (who h) (current + 1) (next - current)], set_claim c s)
         | (Err _, _) => ([], s)
         end)
      (fun s => Ret (match (Cursor.compare_exchange (claim_cursor s) current next).1 with
                     | Ok _ => true
                     | Err _ => false
                     end)).

(** The bounded retry loop shared by [try_claim_sequence] ([n = 1]) and
    [try_claim_batch]: the first sequence of the claim. *)
Fixpoint try_claim_loop (retries : nat) (h : Producer) (n : Z) : P (option Z) :=
  match retries with
  | O => Ret None
  | Datatypes.S retries =>
      let! current := load claimed_seq in
      let next := current + n in
      let! (consumer_seq, c) := load (fun s => (ccur s, cap s)) in
      let wrap_point := next - c in
      if consumer_seq <? wrap_point then Ret None
      else
        let! ok := claim_cas h current next in
        if ok then Ret (Some (current + 1)) else try_claim_loop retries h n
  end.

Definition try_claim_sequence (h : Producer) : P (option Z) := try_claim_loop 8 h 1.

Definition try_send (h : Producer) (event : T) : P (Result unit (TrySendError T)) :=
  let! d := is_disconnected in
  if d then Ret (Err (Disconnected event))
  else
    let! r := try_claim_sequence h in
    match r with
    | None => Ret (Err (Full event))
    | Some sequence =>
        buf_write sequence event ;;;
        publish_sequence sequence ;;;
        Ret (Ok tt)
    end.

(** *** Batches *)

Record MpscBatchSlots : Type := { start : Z; count : Z; published : bool }.

Definition check_batch (n : Z) : P unit :=
  rassert (0 <? n) "batch size must be > 0" ;;;
  let! c := load cap in rassert (n <=? c) "batch size exceeds capacity".

Definition claim_batch (fuel : nat) (h : Producer) (n : Z)
    : P (option (Result MpscBatchSlots unit)) :=
  check_batch n ;;;
  let! d := is_disconnected in
  if d then Ret (Some (Err tt))
  else
    let! end_sequence := claim_add h n in
    let start := end_sequence - n + 1 in
    let! c := load cap in
    let wrap_point := end_sequence - c in
    let! w := wait_for_consumer fuel 0 wrap_point in
    match w with
    | None => Ret None
    | Some false => Ret (Some (Err tt))
    | Some true => Ret (Some (Ok {| start := start; count := n; published := false |}))
    end.

Definition try_claim_batch (h : Producer) (n : Z)
    : P (Result MpscBatchSlots (TrySendError unit)) :=
  check_batch n ;;;
  let! d := is_disconnected in
  if d then Ret (Err (Disconnected tt))
  else
    let! r := try_claim_loop 8 h n in
    match r with
    | None => Ret (Err (Full tt))
    | Some start => Ret (Ok {| start := start; count := n; published := false |})
    end.

Definition batch_bounds_msg : string := "assertion failed: index < self.count".

Definition batch_get_mut (b : MpscBatchSlots) (index : Z) (f : T -> T) : P T :=
  rassert (index <? count b) batch_bounds_msg ;;; buf_modify (start b + index) f.

Definition batch_get (b : MpscBatchSlots) (index : Z) : P T :=
  rassert (index <? count b) batch_bounds_msg ;;; buf_get (start b + index).

Definition batch_len (b : MpscBatchSlots) : Z := count b.
Definition batch_is_empty (b : MpscBatchSlots) : bool := count b =? 0.

Definition do_publish (b : MpscBatchSlots) : P MpscBatchSlots :=
  if published b then Ret b
  else
    mark_published_batch (start b) (count b) ;;;
    Ret {| start := start b; count := count b; published := true |}.

(** [publish(self)] ends the life of the handle, whose [Drop] calls
    [do_publish] again. *)
Definition batch_drop (b : MpscBatchSlots) : P MpscBatchSlots := do_publish b.
Definition batch_publish (b : MpscBatchSlots) : P MpscBatchSlots :=
  let! b := do_publish b in batch_drop b.

Definition close : P unit := store set_closed.

(** ** Shared: drop *)

(** [drop_in_place(slot(seq))] *)
Definition buf_drop (seq : Z) : P T :=
  Act (fun s => ([], match RingBuffer.drop_in_place (buffer s) seq with
                     | Ok b => set_buffer b s
                     | Err _ => s
                     end))
      (fun s => match RingBuffer.get (buffer s) seq with
                | Ok v => Ret v
                | Err e => Fault e
                end).

(** Drops the published ones of the [n] sequences from [lo] on. *)
Fixpoint drop_range (lo : Z) (n : nat) : P (list T) :=
  match n with
  | O => Ret []
  | Datatypes.S n =>
      let! p := is_published lo in
      if p then
        let! v := buf_drop lo in
        let! vs := drop_range (lo + 1) n in
        Ret (v :: vs)
      else drop_range (lo + 1) n
  end.

Definition shared_drop : P (list T) :=
  let! consumer_seq := load ccur in
  let! claim_seq := load claimed_seq in
  if consumer_seq <? claim_seq
  then drop_range (consumer_seq + 1) (Z.to_nat (claim_seq - consumer_seq))
  else Ret [].

Definition arc_drop (ev : list (event T)) : P (list T) :=
  let! old := Act (fun s => (ev, set_counts (producer_count s) (strong_count s - 1) s))
                  (fun s => Ret (strong_count s)) in
  if old =? 1 then shared_drop else Ret [].

(** [Drop for Producer], then its [Arc]. *)
Definition producer_drop (h : Producer) : P (list T) :=
  let! prev := Act (fun s => ([Leave (who h)],
                              set_counts (producer_count s - 1) (strong_count s) s))
                   (fun s => Ret (producer_count s)) in
  (if prev =? 1 then store set_closed else Ret tt) ;;;
  arc_drop [Release (who h)].

(** [Clone]: a second handle named [w]. *)
Definition producer_clone (w : nat) : P Producer :=
  store (fun s => set_counts (producer_count s + 1) (strong_count s) s) ;;;
  store (fun s => set_counts (producer_count s) (strong_count s + 1) s) ;;;
  Ret {| who := w |}.

(** ** Consumer *)

Record Consumer : Type := { next_sequence : Z }.

Definition c_is_disconnected : P bool := load closed.

(** The consumer cursor moves to [n]: the sequences it passes are consumed. *)
Definition consume_cursor (n : Z) : P unit :=
  Act (fun s => (omap (fun q => Take q <$> slot_value s q) (seqZ (ccur s + 1) (n - ccur s)),
                 set_consumer n s))
      (fun _ => Ret tt).

Definition read_next (h : Consumer) : P (Consumer * T) :=
  let! event := buf_read (next_sequence h) in
  consume_cursor (next_sequence h) ;;;
  Ret ({| next_sequence := next_sequence h + 1 |}, event).

Fixpoint recv_loop (fuel : nat) (iteration : Z) (h : Consumer)
    : P (option (Consumer * Result T unit)) :=
  match fuel with
  | O => Ret None
  | Datatypes.S fuel =>
      let! p := is_published (next_sequence h) in
      if p then
        let! (h, event) := read_next h in Ret (Some (h, Ok event))
      else
        let! d := c_is_disconnected in
        if d then
          let! p := is_published (next_sequence h) in
          if p then recv_loop fuel iteration h else Ret (Some (h, Err tt))
        else recv_loop fuel (Backoff.wait_backoff iteration).2 h
  end.

Definition recv (fuel : nat) (h : Consumer) : P (option (Consumer * Result T unit)) :=
  recv_loop fuel 0 h.

(** The error of the non-blocking operations when nothing is available. *)
Definition no_event {A} : P (Result A TryRecvError) :=
  let! d := c_is_disconnected in Ret (Err (if d then TryDisconnected else Empty)).

Definition try_recv (h : Consumer) : P (Consumer * Result T TryRecvError) :=
  let! p := is_published (next_sequence h) in
  if p then let! (h, event) := read_next h in Ret (h, Ok event)
  else let! r := no_event in Ret (h, r).

Definition peek (h : Consumer) : P (Result T TryRecvError) :=
  let! p := is_published (next_sequence h) in
  if p then let! v := buf_get (next_sequence h) in Ret (Ok v)
  else no_event.

Definition pending (fuel : nat) (h : Consumer) : P (option Z) :=
  let! r := highest_published fuel (next_sequence h) in
  Ret (match r with
       | None => None
       | Some highest =>
           let diff := highest - next_sequence h + 1 in
           Some (if diff <? 0 then 0 else diff)
       end).

Fixpoint read_range (lo : Z) (n : nat) : P (list T) :=
  match n with
  | O => Ret []
  | Datatypes.S n =>
      let! v := buf_read lo in
      let! vs := read_range (lo + 1) n in
      Ret (v :: vs)
  end.

(** Moves [count] events out and gives their slots back with one store. *)
Definition take_events (h : Consumer) (count : Z) : P (Consumer * list T) :=
  let! out := read_range (next_sequence h) (Z.to_nat count) in
  let last_seq := next_sequence h + count - 1 in
  consume_cursor last_seq ;;;
  Ret ({| next_sequence := next_sequence h + count |}, out).

(** [out_len]: the length of the caller's slice; the scan gets [scan] words. *)
Fixpoint recv_batch_loop (fuel scan : nat) (iteration : Z) (h : Consumer) (out_len : Z)
    : P (option (Consumer * Result (list T) unit)) :=
  match fuel with
  | O => Ret None
  | Datatypes.S fuel =>
      let! r := highest_published scan (next_sequence h) in
      match r with
      | None => Ret None
      | Some highest =>
          if next_sequence h <=? highest then
            let available := highest - next_sequence h + 1 in
            let! (h, out) := take_events h (Z.min available out_len) in
            Ret (Some (h, Ok out))
          else
            let! d := c_is_disconnected in
            if d then Ret (Some (h, Err tt))
            else recv_batch_loop fuel scan (Backoff.wait_backoff iteration).2 h out_len
      end
  end.

Definition recv_batch (fuel scan : nat) (h : Consumer) (out_len : Z)
    : P (option (Consumer * Result (list T) unit)) :=
  if out_len =? 0 then Ret (Some (h, Ok [])) else recv_batch_loop fuel scan 0 h out_len.

Definition try_recv_batch (scan : nat) (h : Consumer) (out_len : Z)
    : P (option (Consumer * Result (list T) TryRecvError)) :=
  if out_len =? 0 then Ret (Some (h, Ok []))
  else
    let! r := highest_published scan (next_sequence h) in
    match r with
    | None => Ret None
    | Some highest =>
        if highest <? next_sequence h then
          let! r := no_event in Ret (Some (h, r))
        else
          let available := highest - next_sequence h + 1 in
          let! (h, out) := take_events h (Z.min available out_len) in
          Ret (Some (h, Ok out))
    end.

(** The calls [handler(event, seq, end_of_batch)] of [poll]. *)
Fixpoint poll_range (lo : Z) (n : nat) : P (list (T * Z * bool)) :=
  match n with
  | O => Ret []
  | Datatypes.S n =>
      let! v := buf_get lo in
      let! vs := poll_range (lo + 1) n in
      Ret ((v, lo, bool_decide (n = O)) :: vs)
  end.

Definition poll (scan : nat) (h : Consumer) : P (option (Consumer * list (T * Z * bool))) :=
  let! r := highest_published scan (next_sequence h) in
  match r with
  | None => Ret None
  | Some highest =>
      if highest <? next_sequence h then Ret (Some (h, []))
      else
        let count := highest - next_sequence h + 1 in
        let! calls := poll_range (next_sequence h) (Z.to_nat count) in
        let last_seq := next_sequence h + count - 1 in
        consume_cursor last_seq ;;;
        Ret (Some ({| next_sequence := next_sequence h + count |}, calls))
  end.

Definition consumer_drop : P (list T) := close ;;; arc_drop [].

(** ** Constructors *)

Definition create_shared (capacity : Z) (factory : option (nat -> T)) : Result (Shared T) fault :=
  let words := (capacity + BITS_PER_WORD - 1) / BITS_PER_WORD in
  let buffer := match factory with
                | Some f => RingBuffer.with_factory capacity f
                | None => RingBuffer.new capacity
                end in
  match buffer with
  | Ok b =>
      Ok {| buffer := b; claim_cursor := Cursor.new; consumer_cursor := Cursor.new;
            availability := replicate (Z.to_nat words) U64_MAX; availability_words := words;
            producer_count := 1; closed := false; cap := capacity; strong_count := 2 |}
  | Err e => Err e
  end.

Definition make_channel (r : Result (Shared T) fault) : Result (Shared T * Producer * Consumer) fault :=
  match r with
  | Ok s => Ok (s, {| who := 0 |}, {| next_sequence := 0 |})
  | Err e => Err e
  end.

(** The wait strategy is stored and never used. *)
Definition channel_with_wait (capacity : Z) := make_channel (create_shared capacity None).
Definition channel (capacity : Z) := channel_with_wait capacity.
Definition channel_with_factory (capacity : Z) (factory : nat -> T) :=
  make_channel (create_shared capacity (Some factory)).

End model.
