(* ===== verification/MpscBitmap.v ===== *)
(** * MpscBitmap: the availability bitmap of the MPSC channel

    What the bit manipulation of [channel/src/mpsc/shared.rs] computes, for
    capacities that fill whole words: the bitmap represents the set of
    published sequences of the current window ([bitmap_step]); publishing a
    batch word by word is publishing its sequences one by one; and the word
    scan of [highest_published] finds the end of the published run.  The last
    section shows what goes wrong for capacities below 64. *)
From S2P Require Import Prelude Conc RingBuffer Cpu Mpsc.

(** ** Arithmetic of words and bits *)

Section index.
Context (words : Z) (Hwords : 0 < words).
Abbreviation C := (64 * words).

Lemma as_usize_small q : 0 <= q < 2 ^ 63 -> as_usize q = q.
Proof. intros Hq. unfold as_usize, U64. apply Z.mod_small. lia. Qed.

Lemma word_index_slot q :
  0 <= q < 2 ^ 63 -> word_index words q = (q mod C) / 64.
Proof.
  intros Hq. unfold word_index, BITS_PER_WORD. rewrite as_usize_small by done.
  rewrite Z.rem_mul_r by lia. rewrite Z.mul_comm, Z.div_add by lia.
  rewrite (Z.div_small (q mod 64)) by (apply Z.mod_pos_bound; lia). done.
Qed.

Lemma bit_index_slot q : 0 <= q < 2 ^ 63 -> bit_index q = (q mod C) mod 64.
Proof.
  intros Hq. unfold bit_index, BITS_PER_WORD. rewrite as_usize_small by done.
  rewrite Z.mod_mod_divide; [done|]. exists words. lia.
Qed.

Lemma word_index_range q : 0 <= q < 2 ^ 63 -> 0 <= word_index words q < words.
Proof. intros Hq. unfold word_index. apply Z.mod_pos_bound. lia. Qed.

Lemma bit_index_range q : 0 <= bit_index q < 64.
Proof. apply Z.mod_pos_bound. done. Qed.

(** Two sequences use the same bit exactly when they use the same slot. *)
Lemma same_bit a b :
  0 <= a < 2 ^ 63 -> 0 <= b < 2 ^ 63 ->
  (word_index words a = word_index words b /\ bit_index a = bit_index b) <-> a mod C = b mod C.
Proof.
  intros Ha Hb. rewrite !word_index_slot, !bit_index_slot by done. split.
  - intros [Hw Hi]. rewrite (Z.div_mod (a mod C) 64), (Z.div_mod (b mod C) 64) by lia. lia.
  - intros ->. done.
Qed.

End index.

(** ** The bitmap as a set of sequences *)

Section bitmap.
Context {T : Type} (words : Z) (Hwords : 0 < words).
Implicit Types s : Shared T.
Abbreviation C := (64 * words).

Record bm_ok s : Prop := {
  bm_words : availability_words s = words;
  bm_cap : cap s = C;
  bm_length : Z.of_nat (length (availability s)) = words;
  bm_range : Forall (fun w => 0 <= w < U64) (availability s);
}.

(** The bit of slot [i]. *)
Definition slot_bit s (i : Z) : bool :=
  match availability s !! Z.to_nat (i / 64) with
  | Some w => Z.testbit w (i mod 64)
  | None => false
  end.

Definition is_pub s (q : Z) : bool := Bool.eqb (slot_bit s (q mod C)) (Z.odd (q / C)).

Lemma word_lookup s q :
  bm_ok s -> 0 <= q < 2 ^ 63 ->
  exists w, availability s !! Z.to_nat (word_index words q) = Some w /\ 0 <= w < U64.
Proof.
  intros Hs Hq. pose proof (word_index_range words Hwords q Hq).
  destruct (lookup_lt_is_Some_2 (availability s) (Z.to_nat (word_index words q))) as [w Hw].
  - pose proof (bm_length _ Hs). lia.
  - exists w. split; [done|]. by eapply Forall_lookup_1 in Hw; [|apply (bm_range _ Hs)].
Qed.

Lemma published_in_spec s q :
  bm_ok s -> 0 <= q < 2 ^ 63 -> published_in s q = Some (is_pub s q).
Proof.
  intros Hs Hq. destruct (word_lookup s q Hs Hq) as (w & Hw & Hr).
  unfold published_in, is_pub, slot_bit. rewrite (bm_words _ Hs), (bm_cap _ Hs), Hw. simpl.
  rewrite <- word_index_slot, Hw, <- bit_index_slot by done. f_equal.
  unfold expected_bit. rewrite as_usize_small, !land_1_odd by done.
  rewrite <- Z.bit0_odd, Z.shiftr_spec, Z.add_0_l by lia.
  destruct (Z.testbit w (bit_index q)), (Z.odd (q / C)); done.
Qed.

(** *** Publishing *)

(** The reference: one flip per sequence. *)
Definition mark_one s (q : Z) : Shared T :=
  xor_word (word_index words q) (bit_mask (bit_index q)) s.

Lemma bm_ok_xor s i m : bm_ok s -> 0 <= m < U64 -> bm_ok (xor_word i m s).
Proof.
  intros [Hw Hc Hl Hr] Hm. split; simpl; [done|done|by rewrite length_alter|].
  apply Forall_alter; [done|]. intros w Hlk Hwr. unfold U64 in *. split.
  - apply Z.lxor_nonneg. lia.
  - destruct (Z.eq_dec (Z.lxor w m) 0) as [->|Hne]; [lia|].
    apply Z.log2_lt_pow2; [pose proof (proj2 (Z.lxor_nonneg w m)); lia|].
    eapply Z.le_lt_trans; [apply Z.log2_lxor; lia|].
    apply Z.max_lub_lt.
    + destruct (Z.eq_dec w 0) as [->|]; [done|]. apply Z.log2_lt_pow2; lia.
    + destruct (Z.eq_dec m 0) as [->|]; [done|]. apply Z.log2_lt_pow2; lia.
Qed.

Lemma bit_mask_range i : 0 <= i < 64 -> 0 <= bit_mask i < U64.
Proof.
  intros Hi. unfold bit_mask, U64. rewrite Z.shiftl_1_l.
  split; [apply Z.pow_nonneg; lia|apply Z.pow_lt_mono_r; lia].
Qed.

Lemma bit_mask_testbit i k : 0 <= i -> Z.testbit (bit_mask i) k = (k =? i).
Proof. intros Hi. unfold bit_mask. rewrite Z.shiftl_1_l, Z.eqb_sym. by apply Z.pow2_bits_eqb. Qed.

Lemma bm_ok_mark s q : bm_ok s -> bm_ok (mark_one s q).
Proof. intros Hs. apply bm_ok_xor; [done|]. apply bit_mask_range, bit_index_range. Qed.

(** Flipping touches the one bit. *)
Lemma slot_bit_mark s q i :
  bm_ok s -> 0 <= q < 2 ^ 63 -> 0 <= i < C ->
  slot_bit (mark_one s q) i = xorb (slot_bit s i) (i =? q mod C).
Proof.
  intros Hs Hq Hi. unfold slot_bit, mark_one, xor_word. simpl.
  pose proof (word_index_range words Hwords q Hq) as Hwi.
  assert (Hi64 : 0 <= i / 64) by (apply Z.div_pos; lia).
  assert (Hb : i mod 64 = bit_index q -> i / 64 = word_index words q -> i = q mod C).
  { rewrite word_index_slot, (bit_index_slot words) by done. intros Hm Hd.
    rewrite (Z.div_mod i 64), (Z.div_mod (q mod C) 64) by lia. lia. }
  destruct (decide (Z.to_nat (i / 64) = Z.to_nat (word_index words q))) as [He|Hne].
  - rewrite He, list_lookup_alter_eq. assert (Hd : i / 64 = word_index words q) by lia.
    destruct (word_lookup s q Hs Hq) as (w & -> & _). simpl.
    rewrite Z.lxor_spec, bit_mask_testbit by apply bit_index_range. f_equal.
    destruct (Z.eqb_spec (i mod 64) (bit_index q)), (Z.eqb_spec i (q mod C)); try done; [tauto|].
    subst i. rewrite <- (bit_index_slot words) in n by done. done.
  - rewrite list_lookup_alter_ne by done. destruct (Z.eqb_spec i (q mod C)) as [->|].
    + by rewrite word_index_slot in Hne.
    + by rewrite xorb_false_r.
Qed.

Lemma is_pub_mark s q q' :
  bm_ok s -> 0 <= q < 2 ^ 63 -> 0 <= q' ->
  is_pub (mark_one s q) q' = xorb (is_pub s q') (q' mod C =? q mod C).
Proof.
  intros Hs Hq Hq'. unfold is_pub. rewrite slot_bit_mark; [|done|done|apply Z.mod_pos_bound; lia].
  destruct (slot_bit s (q' mod C)), (Z.odd (q' / C)), (q' mod C =? q mod C); done.
Qed.

(** *** The window *)

(** The bitmap next to the set it stands for: producers publish a sequence of
    the window [lo .. lo + C - 1] that nobody has published yet, the consumer
    moves the window past a published sequence. *)
Inductive bitmap_step : Shared T * Z * gset Z -> Shared T * Z * gset Z -> Prop :=
| step_publish s lo P q ev s' :
    lo <= q < lo + C -> q ∉ P ->
    run (mark_published q) s = (ev, s', inr tt) ->
    bitmap_step (s, lo, P) (s', lo, {[q]} ∪ P)
| step_advance s lo P :
    lo ∈ P -> bitmap_step (s, lo, P) (s, lo + 1, P).

Definition represents (x : Shared T * Z * gset Z) : Prop :=
  let '(s, lo, P) := x in
  bm_ok s /\ 0 <= lo /\
  (forall q, q ∈ P -> 0 <= q < lo + C) /\
  (forall q, lo <= q < lo + C -> is_pub s q = bool_decide (q ∈ P)).

Lemma run_mark_published s q :
  bm_ok s -> 0 <= q < 2 ^ 63 ->
  run (mark_published q) s = (puts s [q], mark_one s q, inr tt).
Proof.
  intros Hs Hq. destruct (word_lookup s q Hs Hq) as (w & Hw & _).
  unfold mark_published, fetch_xor. cbn [run]. rewrite (bm_words _ Hs), Hw.
  cbn [run]. by rewrite app_nil_r.
Qed.

Lemma is_pub_next_round s q : 0 <= q -> is_pub s (q + C) = negb (is_pub s q).
Proof.
  intros Hq. unfold is_pub. replace (q + C) with (q + 1 * C) by lia.
  rewrite Z.mod_add, Z.div_add by lia. rewrite Z.odd_add. 
  destruct (slot_bit s (q mod C)), (Z.odd (q / C)); done.
Qed.

Lemma window_inj lo a b :
  lo <= a < lo + C -> lo <= b < lo + C -> a mod C = b mod C -> a = b.
Proof.
  intros Ha Hb He. pose proof (Z.div_mod a C). pose proof (Z.div_mod b C).
  assert (a / C = b / C) by nia. nia.
Qed.

Lemma represents_step x y : represents x -> bitmap_step x y -> x.1.2 + C < 2 ^ 63 -> represents y.
Proof.
  intros Hrep Hstep Hb. destruct Hstep as [s lo P q ev s' Hq Hnew Hrun|s lo P Hlo];
    destruct Hrep as (Hs & Hl & Hsub & Hpub); simpl in Hb.
  - rewrite run_mark_published in Hrun by (done || lia). injection Hrun as _ <-.
    split; [by apply bm_ok_mark|]. split; [done|]. split.
    { intros q' [->%elem_of_singleton|Hin]%elem_of_union; [lia|]. by apply Hsub. }
    intros q' Hq'. rewrite is_pub_mark, Hpub by (done || lia).
    destruct (decide (q' = q)) as [->|Hne].
    + rewrite Z.eqb_refl, (bool_decide_eq_false_2 (q ∈ P)) by done.
      symmetry. apply bool_decide_eq_true, elem_of_union_l. by apply elem_of_singleton.
    + destruct (Z.eqb_spec (q' mod C) (q mod C)) as [He|_].
      { exfalso. apply Hne. by apply (window_inj lo). }
      rewrite xorb_false_r. apply bool_decide_ext. rewrite elem_of_union, elem_of_singleton. tauto.
  - split; [done|]. split; [lia|]. split.
    { intros q Hq. specialize (Hsub q Hq). lia. }
    intros q Hq. destruct (decide (q = lo + C)) as [->|Hne]; [|apply Hpub; lia].
    rewrite is_pub_next_round, Hpub by lia. rewrite bool_decide_eq_true_2 by done. symmetry.
    apply bool_decide_eq_false. intros Hin. specialize (Hsub _ Hin). lia.
Qed.

End bitmap.

(** ** A fresh channel *)

Lemma fresh_represents {T} words (f : option (nat -> T)) s :
  0 < words -> create_shared (64 * words) f = Ok s ->
  represents words (s, 0, ∅).
Proof.
  intros Hw Hs. unfold create_shared in Hs.
  assert (Hdiv : (64 * words + BITS_PER_WORD - 1) / BITS_PER_WORD = words).
  { unfold BITS_PER_WORD. symmetry. apply (Z.div_unique _ _ _ 63); lia. }
  rewrite Hdiv in Hs.
  assert (Hok : bm_ok words s /\ forall i, 0 <= i < 64 * words -> slot_bit s i = true).
  { destruct (match f with Some f => with_factory _ _ | None => _ end) as [b|]; [|done].
    injection Hs as <-. split.
    - split; simpl; try done; [rewrite length_replicate; lia|].
      apply Forall_replicate. unfold U64_MAX, U64. lia.
    - intros i Hi. unfold slot_bit. simpl. rewrite lookup_replicate_2.
      + change U64_MAX with (Z.ones 64). apply Z.ones_spec_low. apply Z.mod_pos_bound. lia.
      + pose proof (Z.div_lt_upper_bound i 64 words). pose proof (Z.div_pos i 64). lia. }
  destruct Hok as [Hok Hbit]. split; [done|]. split; [lia|]. split; [set_solver|].
  intros q Hq. unfold is_pub. rewrite Z.mod_small, Z.div_small, Hbit by lia. done.
Qed.

(** The bitmap represents the set of published sequences: start from a fresh
    channel whose capacity fills whole words, publish sequences of the current
    window once each (in any order, by any producers) and move the window past
    published ones; then for every sequence of the window the test
    [is_published] answers whether it has been published. *)
Theorem bitmap_represents_published {T} words (f : option (nat -> T)) s0 s lo P q :
  0 < words -> create_shared (64 * words) f = Ok s0 ->
  rtc (bitmap_step words) (s0, 0, ∅) (s, lo, P) ->
  lo + 64 * words < 2 ^ 63 -> lo <= q < lo + 64 * words ->
  run (is_published q) s = ([], s, inr (bool_decide (q ∈ P))).
Proof.
  intros Hw Hs0 Hsteps Hb Hq.
  assert (Hmono : forall x y, rtc (bitmap_step words) x y -> x.1.2 <= (y : Shared T * Z * gset Z).1.2).
  { induction 1 as [|x y z Hxy _ IH]; [done|]. etrans; [|exact IH].
    destruct Hxy; simpl; lia. }
  assert (Hrep : forall x y, rtc (bitmap_step words) x y -> y.1.2 + 64 * words < 2 ^ 63 ->
            represents words x -> represents (T := T) words y).
  { intros x y Hxy. induction Hxy as [|x y z Hxy Hyz IH]; intros Hbz Hx; [done|].
    apply IH; [done|]. eapply represents_step; [done|done|done|].
    pose proof (Hmono _ _ Hyz). destruct Hxy; simpl in *; lia. }
  destruct (Hrep _ _ Hsteps Hb (fresh_represents _ _ _ Hw Hs0)) as (Hok & Hlo & _ & Hpub).
  unfold is_published. cbn [run]. rewrite (published_in_spec words), Hpub by (done || lia). done.
Qed.

(** ** Batches *)

Section batch.
Context {T : Type} (words : Z) (Hwords : 0 < words).
Implicit Types s : Shared T.
Abbreviation C := (64 * words).

(** One [mark_published] per sequence. *)
Definition mark_all s (qs : list Z) : Shared T := fold_left (mark_one words) qs s.

Lemma mark_all_app s qs qs' : mark_all s (qs ++ qs') = mark_all (mark_all s qs) qs'.
Proof. apply fold_left_app. Qed.

Lemma xor_word_xor i m m' s : xor_word i m' (xor_word i m s) = xor_word i (Z.lxor m m') s.
Proof.
  unfold xor_word, set_availability. simpl. f_equal. rewrite list_alter_alter.
  apply list_alter_same. intros w. apply Z.lxor_assoc.
Qed.

Lemma xor_word_0 i s : xor_word i 0 s = s.
Proof.
  unfold xor_word, set_availability. destruct s; simpl. f_equal.
  apply list_alter_id. intros w. apply Z.lxor_0_r.
Qed.

(** Bits not yet flushed: the mask is what flipping the pending sequences would
    do to the current word. *)
Record pending_mask (words_idx m : Z) (qs : list Z) : Prop := {
  pm_words : Forall (fun q => word_index words q = words_idx) qs;
  pm_bits : forall k, Z.testbit m k = true -> exists q, q ∈ qs /\ bit_index q = k;
  pm_nonneg : 0 <= m;
  pm_zero : m = 0 -> qs = [];
  pm_mark : forall s, mark_all s qs = xor_word words_idx m s;
}.

Lemma pending_nil i : pending_mask i 0 [].
Proof.
  split; try done; [intros k Hk; by rewrite Z.testbit_0_l in Hk|].
  intros s. simpl. by rewrite xor_word_0.
Qed.

Lemma pending_snoc i m qs q :
  pending_mask i m qs -> word_index words q = i ->
  (forall q', q' ∈ qs -> bit_index q' <> bit_index q) ->
  pending_mask i (Z.lor m (bit_mask (bit_index q))) (qs ++ [q]).
Proof.
  intros [Hw Hb Hn Hz Hm] Hi Hne. pose proof (bit_index_range q) as Hr.
  pose proof (bit_mask_range _ Hr) as Hmr.
  assert (Hdisj : Z.land m (bit_mask (bit_index q)) = 0).
  { apply Z.bits_inj'. intros k Hk. rewrite Z.land_spec, bit_mask_testbit, Z.testbit_0_l by lia.
    destruct (Z.eqb_spec k (bit_index q)) as [->|]; [|apply andb_false_r].
    destruct (Z.testbit m (bit_index q)) eqn:Hm'; [|done].
    destruct (Hb _ Hm') as (q' & Hq' & He). by destruct (Hne q'). }
  split.
  - apply Forall_app. split; [done|]. by constructor.
  - intros k. rewrite Z.lor_spec, orb_true_iff, bit_mask_testbit by lia. intros [Hk|Hk%Z.eqb_eq].
    + destruct (Hb _ Hk) as (q' & ? & ?). exists q'. split; [apply elem_of_app; by left|done].
    + exists q. split; [apply elem_of_app; right; by left|done].
  - apply Z.lor_nonneg. lia.
  - intros Hz'. exfalso. apply Z.lor_eq_0_iff in Hz' as [_ Hz'].
    assert (Hbit : Z.testbit (bit_mask (bit_index q)) (bit_index q) = true).
    { rewrite bit_mask_testbit by lia. apply Z.eqb_refl. }
    rewrite Hz', Z.testbit_0_l in Hbit. done.
  - intros s. rewrite mark_all_app, Hm. simpl. unfold mark_one. rewrite Hi, xor_word_xor.
    f_equal. by rewrite <- Z.lxor_lor.
Qed.

Lemma puts_app s qs qs' : puts s (qs ++ qs') = puts s qs ++ puts s qs'.
Proof. apply omap_app. Qed.

Lemma run_flush s i m qs :
  bm_ok words s -> 0 <= i < words -> pending_mask i m qs ->
  run (flush i m qs) s = (puts s qs, mark_all s qs, inr tt).
Proof.
  intros Hs Hi Hp. unfold flush. destruct (Z.eqb_spec m 0) as [Hz|Hnz].
  - rewrite (pm_zero _ _ _ Hp Hz). done.
  - cbn [fetch_xor run]. destruct (lookup_lt_is_Some_2 (availability s) (Z.to_nat i)) as [w Hw].
    { pose proof (bm_length _ _ Hs). lia. }
    rewrite Hw. cbn [run]. by rewrite app_nil_r, (pm_mark _ _ _ Hp).
Qed.

Lemma puts_mark_all s qs qs' : puts (mark_all s qs) qs' = puts s qs'.
Proof.
  assert (Hb : buffer (mark_all s qs) = buffer s).
  { revert s. induction qs as [|q qs IH]; intros s; [done|]. simpl. by rewrite IH. }
  unfold puts, slot_value. by rewrite Hb.
Qed.

Lemma bm_ok_mark_all s qs : bm_ok words s -> bm_ok words (mark_all s qs).
Proof. revert s. induction qs as [|q qs IH]; intros s Hs; [done|]. simpl. apply IH. by apply bm_ok_mark. Qed.

(** [k] sequences before [seq] are pending; [n] remain. *)
Lemma run_mark_batch_loop n : forall s seq k i m,
  bm_ok words s -> 0 <= k -> k + Z.of_nat n <= C -> 0 <= seq - k -> seq + Z.of_nat n < 2 ^ 63 ->
  0 <= i < words -> pending_mask i m (seqZ (seq - k) k) ->
  run (mark_batch_loop words seq n i m (seqZ (seq - k) k)) s
  = (puts s (seqZ (seq - k) (k + Z.of_nat n)), mark_all s (seqZ (seq - k) (k + Z.of_nat n)), inr tt).
Proof.
  induction n as [|n IH]; intros s seq k i m Hs Hk Hn Hlo Hhi Hi Hp.
  { cbn [mark_batch_loop]. rewrite Z.add_0_r. by apply run_flush. }
  cbn [mark_batch_loop]. pose proof (word_index_range words Hwords seq) as Hwr.
  destruct (Z.eqb_spec (word_index words seq) i) as [He|Hne].
  - assert (Hsnoc : seqZ (seq - k) k ++ [seq] = seqZ (seq + 1 - (k + 1)) (k + 1)).
    { replace (seq + 1 - (k + 1)) with (seq - k) by lia. rewrite seqZ_app by lia.
      f_equal. replace (seq - k + k) with seq by lia. done. }
    rewrite Hsnoc. rewrite IH; try lia; try done.
    + replace (seq + 1 - (k + 1)) with (seq - k) by lia.
      replace (k + 1 + Z.of_nat n) with (k + Z.of_nat (Datatypes.S n)) by lia. done.
    + rewrite <- Hsnoc. apply pending_snoc; [done|done|].
      intros q' Hq' Hb. pose proof (Forall_forall (fun q => word_index words q = i) (seqZ (seq - k) k)) as HF.
      pose proof (proj1 HF (pm_words _ _ _ Hp) q' Hq') as Hw'. apply elem_of_seqZ in Hq'.
      assert (q' = seq); [|lia]. apply (window_inj words Hwords (seq - k)); [lia|lia|].
      apply (same_bit words Hwords); [lia|lia|]. split; [congruence|done].
  - rewrite run_bind, (run_flush s i m) by (done || lia). 
    specialize (IH (mark_all s (seqZ (seq - k) k)) (seq + 1) 1 (word_index words seq)
                  (Z.lor 0 (bit_mask (bit_index seq)))).
    replace (seq + 1 - 1) with seq in IH by lia. change (seqZ seq 1) with [seq] in IH.
    rewrite IH; try lia; [|by apply bm_ok_mark_all|].
    + rewrite puts_mark_all, <- puts_app, <- mark_all_app.
      replace (k + Z.of_nat (Datatypes.S n)) with (k + (1 + Z.of_nat n)) by lia.
      rewrite (seqZ_app (seq - k) k) by lia. by replace (seq - k + k) with seq by lia.
    + apply (pending_snoc _ 0 []); [apply pending_nil|done|]. intros q' Hq'. by apply elem_of_nil in Hq'.
Qed.

(** The reference for a batch: [mark_published], one sequence after the other. *)
Fixpoint mark_each (qs : list Z) : prog (Shared T) (event T) unit :=
  match qs with
  | [] => Ret tt
  | q :: qs => mark_published q ;;; mark_each qs
  end.

Lemma run_mark_each s qs :
  bm_ok words s -> Forall (fun q => 0 <= q < 2 ^ 63) qs ->
  run (mark_each qs) s = (puts s qs, mark_all s qs, inr tt).
Proof.
  intros Hs Hqs. revert s Hs. induction Hqs as [|q qs Hq Hqs IH]; intros s Hs; [done|].
  cbn [mark_each]. rewrite run_bind, (run_mark_published words Hwords) by done.
  rewrite IH by (by apply bm_ok_mark).
  change (mark_one words s q) with (mark_all s [q]) at 1. rewrite puts_mark_all.
  change (q :: qs) with ([q] ++ qs). by rewrite puts_app, mark_all_app.
Qed.

(** Publishing a batch with one atomic flip per word is equivalent to
    publishing its sequences one after the other with [mark_published]: the same
    bitmap, and the same publications in the same order. *)
Theorem mark_published_batch_spec s start count :
  bm_ok words s -> 0 <= start -> 0 <= count <= C -> start + count < 2 ^ 63 ->
  run (mark_published_batch start count) s = run (mark_each (seqZ start count)) s /\
  (run (mark_published_batch start count) s).2 = inr tt.
Proof.
  intros Hs Hst Hc Hb. rewrite run_mark_each; [|done|apply Forall_seqZ; lia].
  unfold mark_published_batch. destruct (Z.eqb_spec count 0) as [->|Hne]; [done|].
  cbn [bind load run app]. rewrite (bm_words _ _ Hs).
  pose proof (run_mark_batch_loop (Z.to_nat count) s start 0 (word_index words start) 0) as H.
  rewrite Z.sub_0_r, Z2Nat.id, Z.add_0_l in H by lia. change (seqZ start 0) with (@nil Z) in H.
  rewrite H; [done|done|lia|lia|lia|lia| |apply pending_nil]. apply word_index_range; lia.
Qed.

End batch.

(** ** The scan *)

Lemma ctz_from_spec x n : forall i,
  0 <= i -> (exists k, i <= k < i + Z.of_nat n /\ Z.testbit x k = true) ->
  i <= ctz_from n x i < i + Z.of_nat n /\ Z.testbit x (ctz_from n x i) = true /\
  forall k, i <= k < ctz_from n x i -> Z.testbit x k = false.
Proof.
  induction n as [|n IH]; intros i Hi (k & Hk & Hb); [lia|]. cbn [ctz_from].
  destruct (Z.testbit x i) eqn:Hx; [split; [lia|]; split; [done|]; lia|].
  destruct (IH (i + 1)) as (Hr & Hs & Hz); [lia| |].
  { exists k. split; [|done]. assert (k <> i) by congruence. lia. }
  split; [lia|]. split; [done|]. intros j Hj.
  destruct (decide (j = i)) as [->|]; [done|]. apply Hz. lia.
Qed.

(** The lowest set bit of a 64-bit word. *)
Lemma trailing_zeros_spec x :
  0 <= x < U64 -> x <> 0 ->
  0 <= trailing_zeros x < 64 /\ Z.testbit x (trailing_zeros x) = true /\
  forall k, 0 <= k < trailing_zeros x -> Z.testbit x k = false.
Proof.
  intros Hx Hne. apply (ctz_from_spec x 64 0); [lia|]. exists (Z.log2 x).
  split; [|apply Z.bit_log2; lia]. split; [apply Z.log2_nonneg|].
  apply Z.log2_lt_pow2; [lia|]. unfold U64 in Hx. simpl. lia.
Qed.

Section scan.
Context {T : Type} (words : Z) (Hwords : 0 < words).
Implicit Types s : Shared T.
Abbreviation C := (64 * words).

(** The sequences of one word belong to one round and differ in their bit. *)
Lemma word_seq seq k :
  0 <= seq -> 0 <= k < 64 ->
  let q := seq - seq mod 64 + k in
  (q mod C) / 64 = (seq mod C) / 64 /\ (q mod C) mod 64 = k /\ q / C = seq / C.
Proof.
  intros Hs Hk q. pose proof (Z.mod_pos_bound seq 64 ltac:(lia)) as Hm.
  assert (Hq : q = 64 * (seq / 64) + k) by (unfold q; pose proof (Z.div_mod seq 64); lia).
  assert (Hq64 : q / 64 = seq / 64) by (symmetry; apply (Z.div_unique _ _ _ k); lia).
  assert (Hqm : q mod 64 = k) by (symmetry; apply (Z.mod_unique _ _ (seq / 64)); lia).
  assert (Hd : forall z, (z mod C) / 64 = (z / 64) mod words).
  { intros z. rewrite Z.rem_mul_r by lia. rewrite Z.mul_comm, Z.div_add by lia.
    rewrite (Z.div_small (z mod 64)) by (apply Z.mod_pos_bound; lia). done. }
  split; [by rewrite !Hd, Hq64|]. split.
  - rewrite Z.mod_mod_divide; [done|]. exists words. lia.
  - rewrite <- !Z.div_div by lia. by rewrite Hq64.
Qed.

(** The bits of [relevant_mismatches] are the unpublished sequences of the word
    from [seq] on. *)
Lemma mismatch_bits s seq w :
  bm_ok words s -> 0 <= seq < 2 ^ 63 -> 0 <= w < U64 ->
  availability s !! Z.to_nat (word_index words seq) = Some w ->
  let r := Z.land (Z.lxor w (expected_pattern (cap s) seq))
             (Z.land (Z.shiftl U64_MAX (bit_index seq)) U64_MAX) in
  0 <= r < U64 /\
  forall k, 0 <= k < 64 ->
    Z.testbit r k = (bit_index seq <=? k) && negb (is_pub words s (seq - bit_index seq + k)).
Proof.
  intros Hs Hq Hw Hlk r. subst r. unfold U64_MAX, U64 in *.
  change (2 ^ 64 - 1) with (Z.ones 64). split.
  - rewrite Z.land_assoc, Z.land_ones by lia. apply Z.mod_pos_bound. lia.
  - intros k Hk. rewrite !Z.land_spec, Z.lxor_spec, (Z.ones_spec_low 64 k) by lia.
    rewrite andb_true_r. pose proof (bit_index_range seq) as Hb.
    assert (Hbi : bit_index seq = seq mod 64).
    { unfold bit_index, BITS_PER_WORD. by rewrite as_usize_small. }
    destruct (word_seq seq k ltac:(lia) Hk) as (Hqw & Hqb & Hqc). rewrite <- Hbi in Hqw, Hqb, Hqc.
    unfold is_pub, slot_bit. rewrite Hqw, Hqb, Hqc, <- word_index_slot, Hlk by done.
    assert (Hpat : Z.testbit (expected_pattern (cap s) seq) k = Z.odd (seq / C)).
    { unfold expected_pattern. rewrite as_usize_small, (bm_cap _ _ Hs), land_1_odd by done.
      unfold U64_MAX, U64. change (2 ^ 64 - 1) with (Z.ones 64).
      destruct (Z.odd (seq / C)); simpl; [apply Z.ones_spec_low; lia|apply Z.testbit_0_l]. }
    rewrite Hpat. destruct (Z.leb_spec (bit_index seq) k) as [Hle|Hgt].
    + rewrite Z.shiftl_spec, Z.ones_spec_low by lia. rewrite andb_true_r.
      destruct (Z.testbit w k), (Z.odd (seq / C)); done.
    + rewrite Z.shiftl_spec, (Z.testbit_neg_r _ (k - bit_index seq)) by lia. apply andb_false_r.
Qed.

(** The run of published sequences from [from] on ends at [h], as far as the
    claims go. *)
Definition run_end s (claim from h : Z) : Prop :=
  from - 1 <= h /\ (forall q, from <= q <= h -> is_pub words s q = true) /\
  (h < claim -> is_pub words s (h + 1) = false).

Lemma next_word seq :
  0 <= seq -> seq + 64 < 2 ^ 63 ->
  word_index words (seq + (64 - bit_index seq)) = (word_index words seq + 1) mod words /\
  bit_index (seq + (64 - bit_index seq)) = 0.
Proof.
  intros Hs Hb. assert (Hbi : bit_index seq = seq mod 64).
  { unfold bit_index, BITS_PER_WORD. rewrite as_usize_small; lia. }
  pose proof (Z.mod_pos_bound seq 64 ltac:(lia)). rewrite Hbi.
  replace (seq + (64 - seq mod 64)) with (0 + (seq / 64 + 1) * 64)
    by (pose proof (Z.div_mod seq 64); lia).
  assert (Hsm : as_usize (0 + (seq / 64 + 1) * 64) = 0 + (seq / 64 + 1) * 64).
  { apply as_usize_small. pose proof (Z.div_mod seq 64). pose proof (Z.div_pos seq 64). lia. }
  unfold word_index, bit_index, BITS_PER_WORD. rewrite Hsm, as_usize_small by lia.
  rewrite Z.div_add, Z.mod_add by lia. split; [|done].
  rewrite Zplus_mod_idemp_l. done.
Qed.

Lemma run_highest_loop fuel : forall s claim seq,
  bm_ok words s -> 0 <= seq -> seq <= claim + 64 -> claim + 128 < 2 ^ 63 ->
  claim < seq + 64 * (Z.of_nat fuel - 1) - bit_index seq ->
  (0 < fuel)%nat ->
  exists h, run_end s claim seq h /\
    run (highest_loop fuel (cap s) words claim seq (word_index words seq) (bit_index seq)) s
    = ([], s, inr (Some h)).
Proof.
  induction fuel as [|fuel IH]; intros s claim seq Hs Hq Hle Hb Hf Hpos; [lia|].
  cbn [highest_loop]. destruct (Z.ltb_spec claim seq) as [Hlt|Hge].
  { exists (seq - 1). split; [|done]. split; [lia|]. split; [lia|]. lia. }
  destruct (word_lookup words Hwords s seq Hs ltac:(lia)) as (w & Hw & Hwr).
  destruct (mismatch_bits s seq w Hs ltac:(lia) Hwr Hw) as [Hr Hbits]. cbv zeta in Hr, Hbits.
  set (r := Z.land (Z.lxor w _) _) in *. pose proof (bit_index_range seq) as Hbi.
  rewrite run_bind. cbn [load_word run]. rewrite Hw. cbn [run app]. fold r.
  destruct (Z.eqb_spec r 0) as [Hz|Hnz].
  - assert (Hpub : forall q, seq <= q < seq + (64 - bit_index seq) -> is_pub words s q = true).
    { intros q Hq'. specialize (Hbits (q - seq + bit_index seq) ltac:(lia)).
      rewrite Hz, Z.testbit_0_l in Hbits.
      replace (seq - bit_index seq + (q - seq + bit_index seq)) with q in Hbits by lia.
      destruct (Z.leb_spec (bit_index seq) (q - seq + bit_index seq)); [|lia].
      by destruct (is_pub words s q). }
    destruct (next_word seq Hq ltac:(lia)) as [Hnw Hnb]. unfold BITS_PER_WORD in *.
    destruct (IH s claim (seq + (64 - bit_index seq)) Hs) as (h & (Hh1 & Hh2 & Hh3) & Hrun);
      [lia|lia|lia|rewrite Hnb; lia|lia|].
    exists h. split.
    + split; [lia|]. split; [|done]. intros q Hq'.
      destruct (Z.lt_ge_cases q (seq + (64 - bit_index seq))); [apply Hpub; lia|apply Hh2; lia].
    + rewrite <- Hnw, <- Hnb at 1. rewrite Hrun. done.
  - destruct (trailing_zeros_spec r Hr Hnz) as (Htz & Hset & Hlow).
    pose proof (Hbits _ Htz) as Hb1. rewrite Hset in Hb1. symmetry in Hb1.
    apply andb_true_iff in Hb1 as [Hle1%Z.leb_le Hunpub%negb_true_iff].
    eexists. split; [|reflexivity]. split; [lia|]. split.
    + intros q Hq'. specialize (Hlow (q - seq + bit_index seq) ltac:(lia)).
      rewrite Hbits in Hlow by lia.
      replace (seq - bit_index seq + (q - seq + bit_index seq)) with q in Hlow by lia.
      destruct (Z.leb_spec (bit_index seq) (q - seq + bit_index seq)); [|lia].
      by destruct (is_pub words s q).
    + intros _. rewrite <- Hunpub. f_equal. lia.
Qed.

End scan.

(** C22. For a capacity of 64 per word of the bitmap (a power of two from 64 on;
    smaller ones share a word and are not covered) the word-at-a-time scan of
    [highest_published] computes the end of the
    run of published sequences that starts at [from]: everything up to the
    result is published and, unless the result has reached the claim cursor,
    the next sequence is not; two words more than the claims span are always
    enough. *)
Theorem highest_published_spec {T} words (s : Shared T) from fuel :
  0 < words -> bm_ok words s -> 0 <= from -> claimed_seq s + 128 < 2 ^ 63 ->
  Z.of_nat fuel >= (claimed_seq s - from) / 64 + 3 -> (0 < fuel)%nat ->
  exists h, run (highest_published fuel from) s = ([], s, inr (Some h)) /\
    run_end words s (claimed_seq s) from h.
Proof.
  intros Hw Hs Hf Hb Hfuel Hpos. unfold highest_published. cbn [bind load run app].
  destruct (Z.ltb_spec (claimed_seq s) from) as [Hlt|Hge].
  { exists (from - 1). split; [done|]. split; [lia|]. split; [lia|]. lia. }
  rewrite (bm_words _ _ Hs).
  destruct (run_highest_loop words Hw fuel s (claimed_seq s) from) as (h & Hend & Hrun); try done; try lia.
  - pose proof (Z.div_mod (claimed_seq s - from) 64). 
    pose proof (Z.mod_pos_bound (claimed_seq s - from) 64). pose proof (bit_index_range from). lia.
  - exists h. by rewrite Hrun.
Qed.

(** ** A channel of 64 places, sequence 1 published *)

Definition one_word : Shared Z :=
  match create_shared 64 (None : option (nat -> Z)) with
  | Ok s => s
  | Err _ => {| buffer := {| RingBuffer.slots := []; RingBuffer.mask := 0; RingBuffer.capacity := 0 |};
                claim_cursor := Cursor.new; consumer_cursor := Cursor.new; availability := [];
                availability_words := 0; producer_count := 0; closed := true; cap := 0; strong_count := 0 |}
  end.

Lemma one_word_ok : bm_ok 1 one_word.
Proof.
  split; [done..|]. change (availability one_word) with [U64_MAX].
  repeat constructor; vm_compute; done.
Qed.

Lemma bitmap_represents_published_witness :
  exists s, rtc (bitmap_step 1) (one_word, 0, ∅) (s, 0, {[1]} ∪ ∅) /\
    run (is_published 1) s = ([], s, inr true).
Proof.
  exists (mark_one 1 one_word 1).
  assert (Hsteps : rtc (bitmap_step 1) (one_word, 0, ∅) (mark_one 1 one_word 1, 0, {[1]} ∪ ∅)).
  { apply rtc_once. eapply step_publish; [lia|set_solver|]. vm_compute. reflexivity. }
  split; [exact Hsteps|].
  exact (bitmap_represents_published 1 None one_word (mark_one 1 one_word 1) 0 ({[1]} ∪ ∅) 1
           ltac:(lia) eq_refl Hsteps ltac:(lia) ltac:(lia)).
Defined.

Lemma mark_published_batch_spec_witness :
  run (mark_published_batch 62 4) one_word = run (mark_each (seqZ 62 4)) one_word.
Proof.
  exact (proj1 (mark_published_batch_spec 1 ltac:(lia) one_word 62 4 one_word_ok
                  ltac:(lia) ltac:(lia) ltac:(lia))).
Defined.

Lemma highest_published_spec_witness :
  exists h, run (highest_published 3 0) one_word = ([], one_word, inr (Some h)).
Proof.
  destruct (highest_published_spec 1 one_word 0 3) as (h & Hr & _);
    [lia|apply one_word_ok|lia|vm_compute; done|vm_compute; done|lia|].
  exists h. exact Hr.
Defined.
