(* ===== verification/MpscFaults.v ===== *)
(** * MpscFaults: executions in which the MPSC channel misbehaves

    Two ways in which [channel/src/mpsc] departs from its documentation, as
    theorems about the model: capacities below 64, for which the bitmap is
    indexed modulo 64 but its rounds are counted modulo the capacity, and
    claims leaked by a disconnection, which [Shared::drop] takes for published
    sequences once they reach beyond one capacity. *)
From S2P Require Import Prelude Conc RingBuffer Cpu Mpsc.

(** The channel of capacity [n] over [Z], as [mpsc::channel(n)] makes it. *)
Definition fresh (n : Z) : Result (Shared Z * Producer * Consumer) fault := channel n.

(** Send one value, receive it, then ask for another one. *)
Definition send_recv_twice (h : Producer) (c : Consumer) (v : Z)
    : prog (Shared Z) (event Z) (Result Z TryRecvError) :=
  let! _ := send 1 h v in
  let! r := try_recv c in
  let! r := try_recv r.1 in
  Ret r.2.

(** For every capacity below 64 a fresh channel already shows the first
    sequence of the second round as published; with capacity 1 a receiver that
    has taken the only value sent is handed the same slot again, whose value was
    already moved out. *)
Theorem small_capacity_unsound (k : nat) (v : Z) :
  (k < 6)%nat ->
  (exists s h c, fresh (2 ^ Z.of_nat k) = Ok (s, h, c) /\
     published_in s (2 ^ Z.of_nat k) = Some true) /\
  (exists s h c, fresh 1 = Ok (s, h, c) /\
     (run (send_recv_twice h c v) s).2 = inl (UndefinedBehaviour uninit_msg)).
Proof.
  intros Hk. split.
  - do 6 (destruct k as [|k]; [by eexists _, _, _; split; vm_compute|]). lia.
  - eexists _, _, _. split; [reflexivity|]. vm_compute. done.
Qed.

Lemma small_capacity_unsound_witness : exists s h c,
  fresh 8 = Ok (s, h, c) /\ published_in s 8 = Some true.
Proof. exact (proj1 (small_capacity_unsound 3 10 ltac:(lia))). Defined.

(** One producer has sent a value; two more wait for space with claims of 64 and
    1 sequences when the consumer goes away; all of them give up. *)
Definition leak_pool (h : Producer) : list (prog (Shared Z) (event Z) bool) :=
  [let! r := send 1 h 10 in Ret (match r with Some (Ok _) => true | _ => false end);
   let! r := claim_batch 9 {| who := 1 |} 64 in
     Ret (match r with Some (Err _) => true | _ => false end);
   let! r := send 9 {| who := 2 |} 20 in Ret (match r with Some (Err _) => true | _ => false end);
   close ;;; Ret true].

Definition leak_sched : list nat :=
  replicate 9 0%nat ++ replicate 8 1%nat ++ replicate 8 2%nat ++ [3]%nat ++
  replicate 9 1%nat ++ replicate 9 2%nat.

(** Claims leaked by a disconnection are dropped as if they had been
    published: after the blocked senders of this execution have all returned
    their error, dropping the channel drops a slot that was never written. *)
Theorem leaked_claims_dropped :
  exists s h c, fresh 64 = Ok (s, h, c) /\
    let '(ts, (s', _)) := run_sched leak_sched (leak_pool h, (s, [])) in
    ts = [Ret true; Ret true; Ret true; Ret true] /\
    (run shared_drop s').2 = inl (UndefinedBehaviour uninit_msg).
Proof. eexists _, _, _. split; [reflexivity|]. vm_compute. done. Qed.
