(* ===== verification/MpscSpec.v ===== *)
(** * MpscSpec: the ticket queue and the MPSC invariant

    The abstract specification of [channel/src/mpsc] is a ticket queue: a
    producer draws the next ticket, fills its own ticket (in any order with
    respect to the others, but less than [C] tickets ahead of the consumer), and
    the consumer takes the tickets in order, each when it is filled.  The
    invariant [inv] ties the shared state to the queue; [rely_producer] and
    [rely_consumer] say what the other threads may do to what a producer or the
    consumer depends on; the last section shows that the actions of the channel
    keep the one and respect the others. *)
From S2P Require Import Prelude Conc RingBuffer Cpu Mpsc MpscBitmap.

(** ** The specification *)

(** The tickets drawn so far, each with its owner and, once filled, its value;
    those before [head] have been taken. *)
Record tickets (T : Type) : Type := { cells : list (nat * option T); head : nat }.
Arguments cells {T}.
Arguments head {T}.

Section spec.
Context {T : Type} (C : Z).
Implicit Types t : tickets T.
Implicit Types tr : list (event T).

Definition no_tickets : tickets T := {| cells := []; head := 0 |}.

Definition draw t (w n : nat) : tickets T :=
  {| cells := cells t ++ replicate n (w, None); head := head t |}.
Definition fill t (q : nat) (v : T) : tickets T :=
  {| cells := alter (fun x => (x.1, Some v)) q (cells t); head := head t |}.
Definition advance t : tickets T := {| cells := cells t; head := S (head t) |}.

Inductive ticket_step : tickets T -> event T -> tickets T -> Prop :=
| ticket_claim t w n :
    0 < n -> ticket_step t (Claim w (Z.of_nat (length (cells t))) n) (draw t w (Z.to_nat n))
| ticket_put t w q v :
    cells t !! q = Some (w, None) -> Z.of_nat q < Z.of_nat (head t) + C ->
    ticket_step t (Put (Z.of_nat q) v) (fill t q v)
| ticket_take t w v :
    cells t !! head t = Some (w, Some v) ->
    ticket_step t (Take (Z.of_nat (head t)) v) (advance t)
| ticket_leave t w : ticket_step t (Leave w) t
| ticket_release t w : ticket_step t (Release w) t.

Inductive ticket_run : tickets T -> list (event T) -> tickets T -> Prop :=
| ticket_run_nil t : ticket_run t [] t
| ticket_run_snoc t tr t1 e t2 :
    ticket_run t tr t1 -> ticket_step t1 e t2 -> ticket_run t (tr ++ [e]) t2.

(** The state a trace leads to; the specification is deterministic. *)
Definition apply_event t (e : event T) : tickets T :=
  match e with
  | Claim w _ n => draw t w (Z.to_nat n)
  | Put q v => fill t (Z.to_nat q) v
  | Take _ _ => advance t
  | Leave _ | Release _ => t
  end.
Definition tof tr : tickets T := fold_left apply_event tr no_tickets.

Lemma ticket_step_apply t e t' : ticket_step t e t' -> t' = apply_event t e.
Proof. destruct 1; simpl; rewrite ?Nat2Z.id; done. Qed.

Lemma tof_snoc tr e : tof (tr ++ [e]) = apply_event (tof tr) e.
Proof. unfold tof. by rewrite fold_left_app. Qed.

(** The values of producer [w] in the order of its tickets, those filled so
    far and those already taken; everything taken, with its sender. *)
Definition of_producer (w : nat) (l : list (nat * option T)) : list T :=
  omap (fun x => if decide (x.1 = w) then x.2 else None) l.
Definition sent_by (w : nat) t : list T := of_producer w (cells t).
Definition taken_from (w : nat) t : list T := of_producer w (take (head t) (cells t)).
Definition taken t : list (nat * T) :=
  omap (fun x => (fun v => (x.1, v)) <$> x.2) (take (head t) (cells t)).

Definition filled t (q : nat) : bool :=
  match cells t !! q with Some (_, Some _) => true | _ => false end.

Definition leaves tr : list nat :=
  omap (fun e => match e with Leave w => Some w | _ => None end) tr.
Definition releases tr : list nat :=
  omap (fun e => match e with Release w => Some w | _ => None end) tr.

Lemma leaves_app tr tr' : leaves (tr ++ tr') = leaves tr ++ leaves tr'.
Proof. apply omap_app. Qed.
Lemma releases_app tr tr' : releases (tr ++ tr') = releases tr ++ releases tr'.
Proof. apply omap_app. Qed.

Lemma filled_true t q : filled t q = true <-> exists w v, cells t !! q = Some (w, Some v).
Proof.
  unfold filled. split.
  - destruct (cells t !! q) as [[w [v|]]|]; intros; try done. eauto.
  - by intros (w & v & ->).
Qed.

Lemma filled_lt t q : filled t q = true -> (q < length (cells t))%nat.
Proof. intros (w & v & Hq)%filled_true. by eapply lookup_lt_Some. Qed.

Lemma of_producer_app w l l' : of_producer w (l ++ l') = of_producer w l ++ of_producer w l'.
Proof. apply omap_app. Qed.

Lemma of_producer_none w l : (forall q x, l !! q <> Some (w, x)) -> of_producer w l = [].
Proof.
  induction l as [|[o x] l IH]; intros Hl; [done|]. cbn. case_decide as Ho.
  - destruct (Hl 0%nat x). simpl. by rewrite <- Ho.
  - apply IH. intros q y. apply (Hl (S q)).
Qed.

(** What a producer has sent depends on its own tickets only. *)
Lemma of_producer_own w l l' :
  (forall q x, l !! q = Some (w, x) <-> l' !! q = Some (w, x)) ->
  of_producer w l = of_producer w l'.
Proof.
  revert l'. induction l as [|[o x] l IH]; intros [|[o' x'] l'] Hl; [done|..].
  - symmetry. apply of_producer_none. intros q y Hq. by apply Hl in Hq.
  - apply of_producer_none. intros q y Hq. by apply Hl in Hq.
  - assert (Ht : of_producer w l = of_producer w l') by (apply IH; intros q y; apply (Hl (S q))).
    unfold of_producer in *. cbn. rewrite Ht. pose proof (Hl 0%nat) as H0. simpl in H0.
    destruct (decide (o = w)) as [->|Ho], (decide (o' = w)) as [->|Ho']; try done.
    + destruct (H0 x) as [H _]. specialize (H eq_refl). by simplify_eq.
    + destruct (H0 x) as [H _]. specialize (H eq_refl). by simplify_eq.
    + destruct (H0 x') as [_ H]. specialize (H eq_refl). by simplify_eq.
Qed.

(** What was taken from a producer is a first part of what it sent. *)
Lemma taken_from_prefix w t : taken_from w t `prefix_of` sent_by w t.
Proof.
  unfold taken_from, sent_by. rewrite <- (take_drop (head t) (cells t)) at 2.
  rewrite of_producer_app. by eexists.
Qed.

Lemma taken_from_all w t : head t = length (cells t) -> taken_from w t = sent_by w t.
Proof. intros Hh. unfold taken_from. by rewrite Hh, take_ge. Qed.

Lemma taken_labels w t : (filter (fun x => x.1 = w) (taken t)).*2 = taken_from w t.
Proof.
  unfold taken, taken_from, of_producer.
  induction (take (head t) (cells t)) as [|[o [v|]] l IH]; [done| |].
  - cbn [omap list_omap fmap option_fmap option_map fst snd] in *. rewrite filter_cons. cbn [fst].
    destruct (decide (o = w)); [rewrite fmap_cons; f_equal|]; exact IH.
  - cbn [omap list_omap fmap option_fmap option_map fst snd] in *.
    destruct (decide (o = w)); exact IH.
Qed.

(** Filling the last ticket of a producer appends to what it has sent. *)
Lemma sent_by_fill w t q v :
  cells t !! q = Some (w, None) ->
  (forall q' x, (q < q')%nat -> cells t !! q' <> Some (w, x)) ->
  sent_by w (fill t q v) = sent_by w t ++ [v].
Proof.
  intros Hq Hlast. unfold sent_by, fill. simpl.
  rewrite (list_alter_at _ _ _ _ Hq). simpl.
  rewrite <- (take_drop_middle _ _ _ Hq) at 2.
  rewrite insert_take_drop by (by eapply lookup_lt_Some).
  rewrite !of_producer_app.
  assert (Hn : of_producer w (drop (S q) (cells t)) = []).
  { apply of_producer_none. intros q' x Hx. rewrite lookup_drop in Hx. eapply Hlast; [|exact Hx]. lia. }
  cbn. unfold of_producer in Hn. rewrite !decide_True by done. rewrite Hn, ?app_nil_r. done.
Qed.

End spec.

(** ** The bitmap without a bound on the sequences *)

(** The bitmap looks at a sequence modulo [2^64]; when the capacity is a power
    of two nothing depends on the rounds before. *)
Section rounds.
Context {T : Type} (words : Z) (Hp : is_pow2 (64 * words)) (Hb : 64 * words < 2 ^ 63).
Implicit Types s : Shared T.
Abbreviation C := (64 * words).

Lemma words_pos : 0 < words.
Proof. pose proof (pow2_pos _ Hp). lia. Qed.

Definition low (q : Z) : Z := q mod 2 ^ 63.

Lemma low_range q : 0 <= low q < 2 ^ 63.
Proof. apply Z.mod_pos_bound. lia. Qed.

Lemma rounds_div : exists r, 0 < r /\ 2 ^ 63 = r * (2 * C).
Proof.
  destruct Hp as (k & Hk & Hc). rewrite Hc in *.
  assert (k < 63) by (apply (Z.pow_lt_mono_r_iff 2); lia).
  exists (2 ^ (62 - k)). split; [apply Z.pow_pos_nonneg; lia|].
  rewrite <- Z.pow_succ_r, <- Z.pow_add_r by lia. f_equal. lia.
Qed.

Lemma low_as_usize q : as_usize q mod 2 ^ 63 = low q.
Proof. unfold as_usize, low, U64. apply Z.mod_mod_divide. by exists 2. Qed.

Lemma low_mod m q : (m | 2 ^ 63) -> low q mod m = q mod m.
Proof. intros Hm. by apply Z.mod_mod_divide. Qed.

Lemma cap_divides : (C | 2 ^ 63).
Proof. destruct rounds_div as (r & _ & ->). exists (2 * r). lia. Qed.

Lemma low_round q : Z.odd (low q / C) = Z.odd (q / C).
Proof.
  destruct rounds_div as (r & Hr & He). pose proof words_pos.
  rewrite (Z.div_mod q (2 ^ 63)) at 2 by lia. fold (low q).
  replace (2 ^ 63 * (q / 2 ^ 63) + low q) with (low q + 2 * r * (q / 2 ^ 63) * C) by (rewrite He; lia).
  rewrite Z.div_add by lia. rewrite Z.odd_add, !Z.odd_mul. simpl. by rewrite xorb_false_r.
Qed.

Lemma low_word_index q : word_index words (low q) = word_index words q.
Proof.
  pose proof words_pos. rewrite (word_index_slot words words_pos) by apply low_range.
  rewrite low_mod by apply cap_divides. unfold word_index, BITS_PER_WORD.
  replace (q mod C) with (as_usize q mod C).
  - rewrite Z.rem_mul_r by lia. rewrite Z.mul_comm, Z.div_add by lia.
    rewrite (Z.div_small (as_usize q mod 64)) by (apply Z.mod_pos_bound; lia). done.
  - unfold as_usize, U64. apply Z.mod_mod_divide. destruct cap_divides as [d Hd]. exists (2 * d). lia.
Qed.

Lemma low_bit_index q : bit_index (low q) = bit_index q.
Proof.
  unfold bit_index, BITS_PER_WORD. rewrite as_usize_small by apply low_range.
  rewrite low_mod by (by exists (2 ^ 57)). unfold as_usize, U64. symmetry.
  apply Z.mod_mod_divide. by exists (2 ^ 58).
Qed.

Lemma low_expected_bit q : expected_bit C (low q) = expected_bit C q.
Proof.
  unfold expected_bit. rewrite as_usize_small by apply low_range. rewrite !land_1_odd.
  rewrite <- (low_as_usize q). change (as_usize q mod 2 ^ 63) with (low (as_usize q)).
  by rewrite low_round.
Qed.

Lemma is_pub_low s q : is_pub words s (low q) = is_pub words s q.
Proof. unfold is_pub. by rewrite low_mod, low_round by apply cap_divides. Qed.

Lemma mark_one_low s q : mark_one words s (low q) = mark_one words s q.
Proof. unfold mark_one. by rewrite low_word_index, low_bit_index. Qed.

Lemma published_in_any s q : bm_ok words s -> published_in s q = Some (is_pub words s q).
Proof.
  intros Hs. rewrite <- is_pub_low, <- (published_in_spec words words_pos) by (done || apply low_range).
  unfold published_in. rewrite (bm_words _ _ Hs), (bm_cap _ _ Hs).
  by rewrite low_word_index, low_bit_index, low_expected_bit.
Qed.

Lemma word_lookup_any s q :
  bm_ok words s -> is_Some (availability s !! Z.to_nat (word_index words q)).
Proof.
  intros Hs. rewrite <- low_word_index.
  destruct (word_lookup words words_pos s (low q) Hs (low_range q)) as (w & -> & _). done.
Qed.

Lemma is_pub_mark_any s q q' :
  bm_ok words s -> 0 <= q' ->
  is_pub words (mark_one words s q) q' = xorb (is_pub words s q') (q' mod C =? q mod C).
Proof.
  intros Hs Hq'. rewrite <- mark_one_low, is_pub_mark by (done || apply words_pos || apply low_range).
  by rewrite low_mod by apply cap_divides.
Qed.

Lemma low_expected_pattern q : expected_pattern C (low q) = expected_pattern C q.
Proof.
  unfold expected_pattern. fold (expected_bit C (low q)). fold (expected_bit C q).
  by rewrite low_expected_bit.
Qed.

Lemma bit_index_any q : bit_index q = q mod 64.
Proof.
  rewrite <- low_bit_index. unfold bit_index, BITS_PER_WORD.
  rewrite as_usize_small by apply low_range. apply low_mod. by exists (2 ^ 57).
Qed.

Lemma word_index_any q : word_index words q = (q / 64) mod words.
Proof.
  pose proof words_pos. rewrite <- low_word_index, (word_index_slot words words_pos) by apply low_range.
  rewrite low_mod by apply cap_divides. rewrite Z.rem_mul_r by lia.
  rewrite Z.mul_comm, Z.div_add by lia.
  rewrite (Z.div_small (q mod 64)) by (apply Z.mod_pos_bound; lia). done.
Qed.

Lemma next_word_any seq :
  word_index words (seq + (64 - bit_index seq)) = (word_index words seq + 1) mod words /\
  bit_index (seq + (64 - bit_index seq)) = 0.
Proof.
  rewrite !word_index_any, !bit_index_any.
  replace (seq + (64 - seq mod 64)) with (0 + (seq / 64 + 1) * 64)
    by (pose proof (Z.div_mod seq 64); lia).
  rewrite Z.div_add, Z.mod_add by lia. split; [|done]. by rewrite Zplus_mod_idemp_l.
Qed.

(** One word of the scan, as in [mismatch_bits]. *)
Lemma mismatch_bits_any s seq :
  bm_ok words s ->
  exists w, availability s !! Z.to_nat (word_index words seq) = Some w /\
  let r := Z.land (Z.lxor w (expected_pattern (cap s) seq))
             (Z.land (Z.shiftl U64_MAX (bit_index seq)) U64_MAX) in
  0 <= r < U64 /\
  forall k, 0 <= k < 64 ->
    Z.testbit r k = (bit_index seq <=? k) && negb (is_pub words s (seq - bit_index seq + k)).
Proof.
  intros Hs. pose proof (low_range seq) as Hl.
  destruct (word_lookup words words_pos s (low seq) Hs Hl) as (w & Hw & Hr).
  pose proof (mismatch_bits words words_pos s (low seq) w Hs Hl Hr Hw) as Hm.
  rewrite (bm_cap _ _ Hs), low_expected_pattern, low_bit_index in Hm.
  rewrite low_word_index in Hw. exists w. split; [done|]. rewrite (bm_cap _ _ Hs).
  destruct Hm as [Hr1 Hm]. split; [done|]. intros k Hk. rewrite (Hm k Hk). do 2 f_equal.
  rewrite <- is_pub_low, <- (is_pub_low s (seq - bit_index seq + k)). f_equal. unfold low.
  rewrite <- (Zplus_mod_idemp_l (seq mod 2 ^ 63 - _)), <- (Zplus_mod_idemp_l (seq - _)).
  by rewrite Zminus_mod_idemp_l.
Qed.

End rounds.

(** ** Invariant, rely and guarantee *)

(** [words]: the words of the bitmap; [np]: the number of producer handles;
    [nc]: nobody calls [close]. *)
Section invariant.
Context {T : Type} (words : Z) (np : nat) (nc : bool).
Implicit Types s : Shared T.
Implicit Types c : config (Shared T) (event T).
Abbreviation C := (64 * words).
Abbreviation tk c := (tof c.2).

(** Every producer handle has been given up. *)
Definition all_left c : Prop := forall w, (w < np)%nat -> w ∈ leaves c.2.

Record inv c : Prop := {
  i_wf : wf (buffer c.1);
  i_cap : capacity (buffer c.1) = C;
  i_bm : bm_ok words c.1;
  i_run : ticket_run C no_tickets c.2 (tk c);
  i_claim : claimed_seq c.1 = Z.of_nat (length (cells (tk c))) - 1;
  i_head : ccur c.1 = Z.of_nat (head (tk c)) - 1;
  i_below : forall q, (q < head (tk c))%nat -> filled (tk c) q = true;
  i_window : forall q, filled (tk c) q = true -> Z.of_nat q < Z.of_nat (head (tk c)) + C;
  i_pub : forall q, (head (tk c) <= q)%nat -> Z.of_nat q < Z.of_nat (head (tk c)) + C ->
            is_pub words c.1 (Z.of_nat q) = filled (tk c) q;
  i_bytes : forall q w v, (head (tk c) <= q)%nat -> cells (tk c) !! q = Some (w, Some v) ->
              slot_value c.1 (Z.of_nat q) = Some v;
  i_owner : forall q w x, cells (tk c) !! q = Some (w, x) -> (w < np)%nat;
  i_leaves : NoDup (leaves c.2) /\ Forall (fun w => (w < np)%nat) (leaves c.2);
  i_releases : NoDup (releases c.2) /\ Forall (fun w => (w < np)%nat) (releases c.2);
  i_pcount : producer_count c.1 = Z.of_nat np - Z.of_nat (length (leaves c.2));
  i_strong : strong_count c.1 = Z.of_nat np + 1 - Z.of_nat (length (releases c.2));
  i_closed : nc = true -> closed c.1 = true -> all_left c;
  i_left : nc = true -> forall w q, w ∈ leaves c.2 -> cells (tk c) !! q <> Some (w, None);
}.

(** What the others may do as seen by the producer [w]: its tickets stay as
    they are, the consumer only advances, and the slot of an open ticket of the
    window is left alone. *)
Record rely_producer (w : nat) c c' : Prop := {
  rp_own : forall q x, cells (tk c) !! q = Some (w, x) <-> cells (tk c') !! q = Some (w, x);
  rp_head : (head (tk c) <= head (tk c'))%nat;
  rp_slot : forall q, cells (tk c) !! q = Some (w, None) ->
              Z.of_nat q < Z.of_nat (head (tk c)) + C ->
              get_ptr (buffer c'.1) (Z.of_nat q) = get_ptr (buffer c.1) (Z.of_nat q);
  rp_leaves : w ∈ leaves c.2 <-> w ∈ leaves c'.2;
  rp_releases : w ∈ releases c.2 <-> w ∈ releases c'.2;
  rp_gone : forall w', w' ∈ leaves c.2 -> w' ∈ leaves c'.2;
}.

(** What the producers may do as seen by the consumer: filled tickets and their
    slots stay, newly filled ones hold live values, and nothing is drawn or
    filled when all producers have left. *)
Record rely_consumer c c' : Prop := {
  rc_head : head (tk c') = head (tk c);
  rc_past : take (head (tk c)) (cells (tk c')) = take (head (tk c)) (cells (tk c));
  rc_keep : forall q x, filled (tk c) q = true -> cells (tk c) !! q = Some x ->
              cells (tk c') !! q = Some x;
  rc_slot : forall q, (head (tk c) <= q)%nat -> filled (tk c) q = true ->
              get_ptr (buffer c'.1) (Z.of_nat q) = get_ptr (buffer c.1) (Z.of_nat q);
  rc_new : forall q w v, (head (tk c) <= q)%nat -> cells (tk c') !! q = Some (w, Some v) ->
             filled (tk c) q = true \/ get_ptr (buffer c'.1) (Z.of_nat q) = Some (Live v);
  rc_left : all_left c -> all_left c' /\ cells (tk c') = cells (tk c);
}.

#[export] Instance rely_producer_preorder w : PreOrder (rely_producer w).
Proof.
  split.
  - intros c. split; auto; done.
  - intros c1 c2 c3 [Ho Hh Hs Hl Hr Hg] [Ho' Hh' Hs' Hl' Hr' Hg']. split; try tauto; try lia; [| |auto].
    + intros q x. by rewrite Ho.
    + intros q Hq Hlt. rewrite Hs' by (try apply Ho; done || lia). by apply Hs.
Qed.

#[export] Instance rely_consumer_preorder : PreOrder rely_consumer.
Proof.
  split.
  - intros c. split; auto. intros q w v Hq Hc. left. apply filled_true. eauto.
  - intros c1 c2 c3 [Hh Hp Hk Hs Hn Hl] [Hh' Hp' Hk' Hs' Hn' Hl'].
    assert (Hf : forall q, filled (tk c1) q = true -> filled (tk c2) q = true).
    { intros q Hq. pose proof Hq as (w & v & Hc)%filled_true. apply filled_true. eauto. }
    rewrite Hh in *. split; try congruence.
    + intros q x Hq Hc. apply Hk'; [by apply Hf|]. by apply Hk.
    + intros q Hle Hq. rewrite Hs' by auto. by apply Hs.
    + intros q w v Hle Hc. destruct (Hn' q w v Hle Hc) as [Hq|]; [|by right].
      pose proof Hq as (w' & v' & Hc')%filled_true. pose proof (Hk' _ _ Hq Hc') as Hc3.
      rewrite Hc in Hc3. simplify_eq. destruct (Hn q w' v' Hle Hc') as [|Hl2]; [by left|right].
      by rewrite Hs'.
    + intros Ha. destruct (Hl Ha) as [Ha2 He]. destruct (Hl' Ha2) as [Ha3 He'].
      split; [done|congruence].
Qed.

Definition guar_producer (w : nat) c c' : Prop :=
  rely_consumer c c' /\ forall w', w' <> w -> rely_producer w' c c'.
Definition guar_consumer c c' : Prop := forall w, rely_producer w c c'.

#[export] Instance guar_producer_refl w : Reflexive (guar_producer w).
Proof. intros c. split; [reflexivity|]. intros w' _. reflexivity. Qed.
#[export] Instance guar_consumer_refl : Reflexive guar_consumer.
Proof. intros c w. reflexivity. Qed.

Lemma sent_by_rely w c c' : rely_producer w c c' -> sent_by w (tk c') = sent_by w (tk c).
Proof. intros H. symmetry. apply of_producer_own, H. Qed.

Lemma taken_rely c c' : rely_consumer c c' -> taken (tk c') = taken (tk c).
Proof. intros H. unfold taken. by rewrite (rc_head _ _ H), (rc_past _ _ H). Qed.

Lemma head_le c : inv c -> (head (tk c) <= length (cells (tk c)))%nat.
Proof.
  intros HI. destruct (head (tk c)) as [|n] eqn:Hh; [lia|].
  apply (filled_lt _ n), (i_below _ HI). lia.
Qed.

(** The count says whether everybody has left. *)
Lemma all_left_length c : inv c -> length (leaves c.2) = np -> all_left c.
Proof.
  intros HI Hlen w Hw. destruct (i_leaves _ HI) as [Hnd Hlt].
  assert (Hp : leaves c.2 ≡ₚ seq 0 np).
  { apply submseteq_length_Permutation; [|by rewrite length_seq; lia].
    apply NoDup_submseteq; [done|]. intros x Hx. rewrite Forall_forall in Hlt.
    apply elem_of_seq. specialize (Hlt x Hx). lia. }
  rewrite Hp. apply elem_of_seq. lia.
Qed.

End invariant.
