(* ===== verification/MpscSteps.v ===== *)
(** * MpscSteps: the actions that move the MPSC channel

    Each action of [channel/src/mpsc] that changes the shared state keeps the
    invariant of [MpscSpec] and is one the other threads allow: drawing a
    ticket, writing its slot, publishing it, moving a value out, advancing the
    consumer, closing, and giving up a handle. *)
From S2P Require Import Prelude Conc RingBuffer Cpu Mpsc MpscBitmap MpscSpec.

Section steps.
Context {T : Type} (words : Z) (np : nat) (nc : bool).
Context (Hp : is_pow2 (64 * words)) (Hb : 64 * words < 2 ^ 63).
Implicit Types s : Shared T.
Implicit Types tr : list (event T).
Implicit Types c : config (Shared T) (event T).
Implicit Types t : tickets T.
Abbreviation C := (64 * words).
Abbreviation inv := (inv words np nc).

(** *** Slots *)

Lemma inv_buffer s tr b :
  inv (s, tr) -> wf b -> capacity b = C ->
  (forall q w v, (head (tof tr) <= q)%nat -> cells (tof tr) !! q = Some (w, Some v) ->
     get_ptr b (Z.of_nat q) ≫= slot_bytes = Some v) ->
  inv (set_buffer b s, tr).
Proof. intros [] Hwf Hcap Hby. split; simpl in *; try done. by destruct i_bm. Qed.

Lemma open_window c q w :
  inv c -> cells (tof c.2) !! q = Some (w, None) -> (head (tof c.2) <= q)%nat.
Proof.
  intros HI Hq. destruct (Nat.le_gt_cases (head (tof c.2)) q) as [|Hlt]; [done|].
  apply (i_below _ _ _ _ HI) in Hlt. unfold filled in Hlt. by rewrite Hq in Hlt.
Qed.

Lemma cell_filled t q w (v : T) : cells t !! q = Some (w, Some v) -> filled t q = true.
Proof. intros H. apply filled_true. eauto. Qed.

(** The owner of an open ticket of the window may write its slot. *)
Lemma inv_write s tr w q x :
  inv (s, tr) -> cells (tof tr) !! q = Some (w, None) ->
  Z.of_nat q < Z.of_nat (head (tof tr)) + C ->
  let s' := set_buffer (set_slot (buffer s) (Z.of_nat q) x) s in
  inv (s', tr) /\ guar_producer words np w (s, tr) (s', tr).
Proof.
  intros HI Hq Hlt s'. pose proof (open_window _ _ _ HI Hq) as Hge. simpl in Hge.
  pose proof (i_wf _ _ _ _ HI) as Hwf. pose proof (i_cap _ _ _ _ HI) as Hcap. simpl in *.
  assert (Hkeep : forall q', q' <> q -> (head (tof tr) <= q')%nat ->
            Z.of_nat q' < Z.of_nat (head (tof tr)) + C ->
            get_ptr (set_slot (buffer s) (Z.of_nat q) x) (Z.of_nat q')
            = get_ptr (buffer s) (Z.of_nat q')).
  { intros q' Hne Hle Hlt'. apply get_ptr_set_other; [done|lia|rewrite Hcap; lia]. }
  assert (Hf : forall q', filled (tof tr) q' = true -> q' <> q).
  { intros q' Hf ->. unfold filled in Hf. by rewrite Hq in Hf. }
  split.
  - apply inv_buffer; [done|by apply wf_set_slot|done|].
    intros q' w' v Hle Hc. pose proof (cell_filled _ _ _ _ Hc) as Hfl.
    rewrite Hkeep by (auto; by apply (i_window _ _ _ _ HI)).
    by apply (i_bytes _ _ _ _ HI _ w').
  - split.
    + split; simpl; try done.
      * intros q' Hle Hfl. apply Hkeep; auto. by apply (i_window _ _ _ _ HI).
      * intros q' w' v Hle Hc. left. by eapply cell_filled.
    + intros w' Hne. split; simpl; try done. intros q' Hc Hlt'.
      apply Hkeep; [|by apply (open_window _ _ _ HI Hc)|done]. intros ->. congruence.
Qed.

(** The consumer may move the value out of the slot of a filled ticket. *)
Lemma mpsc_inv_move s tr q v :
  inv (s, tr) -> (head (tof tr) <= q)%nat -> filled (tof tr) q = true ->
  get_ptr (buffer s) (Z.of_nat q) = Some (Live v) ->
  let s' := set_buffer (set_slot (buffer s) (Z.of_nat q) (Moved v)) s in
  inv (s', tr) /\ guar_consumer words (s, tr) (s', tr).
Proof.
  intros HI Hle Hfl Hv s'. pose proof (i_window _ _ _ _ HI _ Hfl) as Hlt.
  pose proof (i_wf _ _ _ _ HI) as Hwf. pose proof (i_cap _ _ _ _ HI) as Hcap. simpl in *.
  split.
  - apply inv_buffer; [done|by apply wf_set_slot|done|].
    intros q' w v' Hle' Hc. pose proof (i_window _ _ _ _ HI _ (cell_filled _ _ _ _ Hc)) as Hlt'.
    pose proof (i_bytes _ _ _ _ HI _ _ _ Hle' Hc) as Hby. simpl in *.
    destruct (decide (q' = q)) as [->|Hne].
    + rewrite get_ptr_set_eq by done. unfold slot_value in Hby. by rewrite Hv in Hby.
    + rewrite get_ptr_set_other; [done|done|lia|]. rewrite Hcap. lia.
  - intros w. split; simpl; try done. intros q' Hc Hlt'.
    pose proof (open_window _ _ _ HI Hc) as Hge. simpl in Hge.
    apply get_ptr_set_other; [done| |rewrite Hcap; lia].
    intros He. assert (q' = q) as -> by lia. unfold filled in Hfl. by rewrite Hc in Hfl.
Qed.

(** *** Tickets *)

Lemma tof_claim tr w lo n : tof (tr ++ [Claim w lo n]) = draw (tof tr) w (Z.to_nat n).
Proof. by rewrite tof_snoc. Qed.
Lemma tof_put tr q (v : T) : tof (tr ++ [Put (Z.of_nat q) v]) = fill (tof tr) q v.
Proof. rewrite tof_snoc. simpl. by rewrite Nat2Z.id. Qed.
Lemma tof_take tr q (v : T) : tof (tr ++ [Take q v]) = advance (tof tr).
Proof. by rewrite tof_snoc. Qed.

Lemma draw_filled t w n q : filled (draw t w n) q = filled (T := T) t q.
Proof.
  unfold filled. simpl. destruct (decide (q < length (cells t))%nat) as [Hlt|Hge].
  - by rewrite lookup_app_l.
  - rewrite lookup_app_r, (lookup_ge_None_2 (cells t)) by lia.
    destruct (replicate n (w, None) !! _) as [[w' x]|] eqn:Hr; [|done].
    apply lookup_replicate in Hr as [Hr _]. by simplify_eq.
Qed.

Lemma draw_lookup t w n q o (x : option T) :
  cells (draw t w n) !! q = Some (o, x) ->
  cells t !! q = Some (o, x) \/ (o = w /\ x = None /\ (length (cells t) <= q)%nat).
Proof.
  simpl. intros Hq. apply lookup_app_Some in Hq as [Hq|[Hle Hr]]; [by left|right].
  apply lookup_replicate in Hr as [Hr _]. by simplify_eq.
Qed.

Lemma draw_old t w n q (x : nat * option T) :
  cells t !! q = Some x -> cells (draw t w n) !! q = Some x.
Proof. intros Hq. simpl. by apply lookup_app_l_Some. Qed.

(** A producer that is still there draws a ticket. *)
Lemma inv_claim s tr w :
  inv (s, tr) -> (w < np)%nat -> w ∉ leaves tr ->
  let s' := set_claim (Cursor.add (claim_cursor s) 1).2 s in
  let tr' := tr ++ [Claim w (claimed_seq s + 1) 1] in
  inv (s', tr') /\ guar_producer words np w (s, tr) (s', tr').
Proof.
  intros HI Hw Hal s' tr'. pose proof (head_le _ _ _ _ HI) as Hhl. simpl in Hhl.
  assert (Ht : tof tr' = draw (tof tr) w 1) by apply tof_claim.
  assert (Hl : leaves tr' = leaves tr) by (unfold tr'; rewrite leaves_app; apply app_nil_r).
  assert (Hr : releases tr' = releases tr) by (unfold tr'; rewrite releases_app; apply app_nil_r).
  split.
  - destruct HI. split; simpl in *; rewrite ?Ht, ?Hl, ?Hr; try done.
    + by destruct i_bm.
    + unfold tr'. eapply ticket_run_snoc; [exact i_run|].
      replace (claimed_seq s + 1) with (Z.of_nat (length (cells (tof tr)))) by lia. by constructor.
    + unfold claimed_seq in *. simpl. unfold Cursor.value in *. rewrite length_app. simpl. lia.
    + intros q Hq. rewrite draw_filled. auto.
    + intros q. rewrite draw_filled. auto.
    + intros q Hle Hlt. rewrite draw_filled. by apply i_pub.
    + intros q w' v Hle Hc. apply draw_lookup in Hc as [Hc|(_ & ? & _)]; [|done]. eauto.
    + intros q w' x Hc. apply draw_lookup in Hc as [Hc|(-> & _)]; eauto.
    + intros Hn Hcl w' Hw'. simpl. rewrite Hl. by apply i_closed.
    + intros Hn w' q Hin Hc. apply draw_lookup in Hc as [Hc|(-> & _)]; [|done]. by eapply i_left.
  - split.
    + split; simpl; rewrite ?Ht; try done.
      * simpl. by apply take_app_le.
      * intros q x _. apply draw_old.
      * intros q w' v Hle Hc. left. apply draw_lookup in Hc as [Hc|(_ & ? & _)]; [|done].
        by eapply cell_filled.
      * intros Ha. destruct Hal. by apply Ha.
    + intros w' Hne. split; simpl; rewrite ?Ht, ?Hl, ?Hr; try done.
      intros q x. split; [apply draw_old|]. intros Hc.
      by apply draw_lookup in Hc as [Hc|(-> & _)].
Qed.

Lemma fill_eq t w q (v : T) :
  cells t !! q = Some (w, None) -> cells (fill t q v) !! q = Some (w, Some v).
Proof. intros Hq. simpl. by rewrite list_lookup_alter_eq, Hq. Qed.

Lemma fill_ne t q q' (v : T) : q' <> q -> cells (fill t q v) !! q' = cells t !! q'.
Proof. intros Hne. simpl. by rewrite list_lookup_alter_ne. Qed.

Lemma fill_filled t w q q' (v : T) :
  cells t !! q = Some (w, None) -> filled (fill t q v) q' = xorb (filled t q') (q' =? q)%nat.
Proof.
  intros Hq. unfold filled. destruct (Nat.eqb_spec q' q) as [->|Hne].
  - by rewrite (fill_eq _ _ _ _ Hq), Hq.
  - by rewrite fill_ne, xorb_false_r.
Qed.

Lemma fill_length t q (v : T) : length (cells (fill t q v)) = length (cells t).
Proof. apply length_alter. Qed.

(** The bit that is flipped is the bit of the ticket. *)
Lemma inv_put_bits s tr w q v q' :
  inv (s, tr) -> cells (tof tr) !! q = Some (w, None) ->
  Z.of_nat q < Z.of_nat (head (tof tr)) + C ->
  (head (tof tr) <= q')%nat -> Z.of_nat q' < Z.of_nat (head (tof tr)) + C ->
  is_pub words (mark_one words s (Z.of_nat q)) (Z.of_nat q') = filled (fill (tof tr) q v) q'.
Proof.
  intros HI Hq Hlt Hle Hlt'. pose proof (open_window _ _ _ HI Hq) as Hge. simpl in Hge.
  rewrite (is_pub_mark_any words Hp Hb), (fill_filled _ w) by (done || lia || apply (i_bm _ _ _ _ HI)).
  rewrite (i_pub _ _ _ _ HI) by done. f_equal.
  destruct (Nat.eqb_spec q' q) as [->|Hne]; [by apply Z.eqb_eq|].
  apply Z.eqb_neq. intros He. apply Hne, Nat2Z.inj.
  apply (window_inj words (words_pos words Hp) (Z.of_nat (head (tof tr)))); [lia|lia|done].
Qed.

(** The owner publishes an open ticket of the window whose slot it has
    written. *)
Lemma inv_put s tr w q v :
  inv (s, tr) -> cells (tof tr) !! q = Some (w, None) ->
  Z.of_nat q < Z.of_nat (head (tof tr)) + C -> w ∉ leaves tr ->
  get_ptr (buffer s) (Z.of_nat q) = Some (Live v) ->
  let s' := mark_one words s (Z.of_nat q) in
  let tr' := tr ++ [Put (Z.of_nat q) v] in
  inv (s', tr') /\ guar_producer words np w (s, tr) (s', tr').
Proof.
  intros HI Hq Hlt Hal Hv s' tr'. pose proof (open_window _ _ _ HI Hq) as Hge. simpl in Hge.
  assert (Hw : (w < np)%nat) by (by apply (i_owner _ _ _ _ HI _ _ _ Hq)).
  assert (Ht : tof tr' = fill (tof tr) q v) by apply tof_put.
  assert (Hl : leaves tr' = leaves tr) by (unfold tr'; rewrite leaves_app; apply app_nil_r).
  assert (Hr : releases tr' = releases tr) by (unfold tr'; rewrite releases_app; apply app_nil_r).
  assert (Hcell : forall q' o x, cells (fill (tof tr) q v) !! q' = Some (o, x) ->
            cells (tof tr) !! q' = Some (o, x) \/ (q' = q /\ o = w /\ x = Some v)).
  { intros q' o x. destruct (decide (q' = q)) as [->|Hne]; [|rewrite fill_ne by done; by left].
    rewrite (fill_eq _ _ _ _ Hq). intros ?. simplify_eq. by right. }
  split.
  - pose proof (fun q' => inv_put_bits s tr w q v q' HI Hq Hlt) as Hbits.
    destruct HI. split; simpl in *; rewrite ?Ht, ?Hl, ?Hr, ?fill_length; try done.
    + by apply bm_ok_mark.
    + unfold tr'. eapply ticket_run_snoc; [exact i_run|]. by econstructor.
    + intros q' Hq'. rewrite (fill_filled _ w), i_below by done.
      simpl in Hq'. destruct (Nat.eqb_spec q' q); [lia|done].
    + intros q'. rewrite (fill_filled _ w) by done. destruct (Nat.eqb_spec q' q) as [->|]; [done|].
      rewrite xorb_false_r. apply i_window.
    + intros q' o v' Hle [Hc|(-> & _ & [= ->])]%Hcell; [by eapply i_bytes|].
      unfold slot_value. simpl. by rewrite Hv.
    + intros q' o x [Hc|(_ & -> & _)]%Hcell; eauto.
    + intros Hn Hcl w' Hw'. simpl. rewrite Hl. by apply i_closed.
    + intros Hn w' q' Hin [Hc|(_ & _ & ?)]%Hcell; [|done]. by eapply i_left.
  - split.
    + split; simpl; rewrite ?Ht; try done.
      * simpl. by rewrite take_alter, decide_False by lia.
      * intros q' x Hf Hc. rewrite fill_ne; [done|]. intros ->. unfold filled in Hf. by rewrite Hq in Hf.
      * intros q' w' v' Hle [Hc|(-> & _ & [= ->])]%Hcell; [left; by eapply cell_filled|by right].
      * intros Ha. destruct Hal. by apply Ha.
    + intros w' Hne. split; simpl; rewrite ?Ht, ?Hl, ?Hr; try done.
      intros q' x. split.
      * intros Hc. rewrite fill_ne; [done|]. intros ->. congruence.
      * by intros [Hc|(_ & -> & _)]%Hcell.
Qed.

(** The consumer takes the ticket at the head. *)
Lemma inv_take s tr w v :
  inv (s, tr) -> cells (tof tr) !! head (tof tr) = Some (w, Some v) ->
  let s' := set_consumer (Z.of_nat (head (tof tr))) s in
  let tr' := tr ++ [Take (Z.of_nat (head (tof tr))) v] in
  inv (s', tr') /\ guar_consumer words (s, tr) (s', tr').
Proof.
  intros HI Hq s' tr'. pose proof (cell_filled _ _ _ _ Hq) as Hf.
  assert (Ht : tof tr' = advance (tof tr)) by apply tof_take.
  assert (Hl : leaves tr' = leaves tr) by (unfold tr'; rewrite leaves_app; apply app_nil_r).
  assert (Hr : releases tr' = releases tr) by (unfold tr'; rewrite releases_app; apply app_nil_r).
  pose proof (words_pos words Hp) as Hw. split.
  - destruct HI. split; simpl in *; rewrite ?Ht, ?Hl, ?Hr; simpl; try done.
    + by destruct i_bm.
    + unfold tr'. eapply ticket_run_snoc; [exact i_run|]. by econstructor.
    + unfold ccur, Cursor.value. simpl. lia.
    + intros q Hlt. destruct (decide (q = head (tof tr))) as [->|]; [done|]. apply i_below. lia.
    + intros q Hfq. apply i_window in Hfq. lia.
    + intros q Hle Hlt. change (filled (advance (tof tr)) q) with (filled (tof tr) q).
      change (is_pub words s' (Z.of_nat q)) with (is_pub words s (Z.of_nat q)).
      destruct (decide (Z.of_nat q = Z.of_nat (head (tof tr)) + C)) as [He|]; [|apply i_pub; lia].
      rewrite He, is_pub_next_round, i_pub, Hf by lia. simpl.
      destruct (filled (tof tr) q) eqn:Hfq; [|done]. apply i_window in Hfq. lia.
    + intros q w' v' Hle Hc. eapply i_bytes; [|exact Hc]. lia.
    + intros Hn Hcl w' Hw'. simpl. rewrite Hl. by apply i_closed.
  - intros w'. split; simpl; rewrite ?Ht, ?Hl, ?Hr; simpl; try done. lia.
Qed.

(** One store of the consumer cursor takes several tickets at once. *)
Fixpoint takes (q : nat) (vs : list T) : list (event T) :=
  match vs with [] => [] | v :: vs => Take (Z.of_nat q) v :: takes (S q) vs end.

Definition values_at (t : tickets T) (q : nat) (vs : list T) : Prop :=
  forall i v, vs !! i = Some v -> exists w, cells t !! (q + i)%nat = Some (w, Some v).

Lemma taken_advance t w v :
  cells t !! head t = Some (w, Some v) -> taken (advance t) = taken t ++ [(w, v)].
Proof.
  intros Hq. unfold taken. simpl. rewrite (take_S_r _ _ _ Hq). by rewrite omap_app.
Qed.

Lemma inv_takes vs : forall s tr,
  inv (s, tr) -> vs <> [] -> values_at (tof tr) (head (tof tr)) vs ->
  let s' := set_consumer (Z.of_nat (head (tof tr) + length vs) - 1) s in
  let tr' := tr ++ takes (head (tof tr)) vs in
  inv (s', tr') /\ guar_consumer words (s, tr) (s', tr') /\
  (taken (tof tr')).*2 = (taken (tof tr)).*2 ++ vs /\
  cells (tof tr') = cells (tof tr) /\ head (tof tr') = (head (tof tr) + length vs)%nat.
Proof.
  induction vs as [|v vs IH]; intros s tr HI Hne Hv; [done|].
  destruct (Hv 0%nat v eq_refl) as [w Hw]. rewrite Nat.add_0_r in Hw.
  destruct (inv_take s tr w v HI Hw) as [HI1 HG1].
  pose proof (taken_advance _ _ _ Hw) as Htk.
  pose proof (tof_take tr (Z.of_nat (head (tof tr))) v) as Ht.
  set (tr1 := tr ++ [Take (Z.of_nat (head (tof tr))) v]) in *.
  destruct (decide (vs = [])) as [->|Hne'].
  - replace (Z.of_nat (head (tof tr) + length [v]) - 1) with (Z.of_nat (head (tof tr))) by (simpl; lia).
    cbn [takes]. fold tr1. rewrite Ht, Htk, fmap_app. split; [done|]. split; [done|].
    split; [done|]. split; [done|]. simpl. lia.
  - destruct (IH (set_consumer (Z.of_nat (head (tof tr))) s) tr1 HI1 Hne') as (HI2 & HG2 & Htk2 & Hc2 & Hh2).
    { intros i x Hx. rewrite Ht. destruct (Hv (S i) x Hx) as [w' Hw']. exists w'.
      rewrite <- Hw'. simpl. f_equal. lia. }
    rewrite Ht in HI2, HG2, Htk2, Hc2, Hh2. simpl in HI2, HG2, Htk2, Hc2, Hh2.
    unfold tr1 in HI2, HG2, Htk2, Hc2, Hh2. rewrite <- app_assoc in HI2, HG2, Htk2, Hc2, Hh2.
    replace (head (tof tr) + length (v :: vs))%nat with (S (head (tof tr) + length vs)) by (simpl; lia).
    split; [exact HI2|]. split; [|split; [|by split]].
    + intros w'. etrans; [apply HG1|apply HG2].
    + etrans; [exact Htk2|]. by rewrite Htk, fmap_app, <- app_assoc.
Qed.

(** *** Closing and leaving *)

(** A step that changes neither the slots, nor the bitmap, nor the cursors. *)
Lemma inv_counts s s' tr e :
  inv (s, tr) -> buffer s' = buffer s -> bm_ok words s' -> availability s' = availability s ->
  claimed_seq s' = claimed_seq s -> ccur s' = ccur s ->
  e = [] \/ (exists w, e = [Leave w] \/ e = [Release w]) ->
  let tr' := tr ++ e in
  NoDup (leaves tr') -> Forall (fun w => (w < np)%nat) (leaves tr') ->
  NoDup (releases tr') -> Forall (fun w => (w < np)%nat) (releases tr') ->
  producer_count s' = Z.of_nat np - Z.of_nat (length (leaves tr')) ->
  strong_count s' = Z.of_nat np + 1 - Z.of_nat (length (releases tr')) ->
  (nc = true -> closed s' = true -> all_left np (s', tr')) ->
  (nc = true -> forall w q, w ∈ leaves tr' -> cells (tof tr) !! q <> Some (w, None)) ->
  inv (s', tr') /\ tof tr' = tof tr.
Proof.
  intros HI Hbuf Hbm Hav Hcl Hcc He tr' H1 H2 H3 H4 H5 H6 H7 H8.
  assert (Ht : tof tr' = tof tr).
  { unfold tr'. destruct He as [->|(w & [->| ->])]; rewrite ?app_nil_r, ?tof_snoc; done. }
  split; [|done]. destruct HI. split; simpl in *; rewrite ?Hbuf, ?Ht, ?Hcl, ?Hcc; try done.
  - unfold tr'. destruct He as [->|(w & [->| ->])]; rewrite ?app_nil_r; [done|..];
      (eapply ticket_run_snoc; [exact i_run|constructor]).
  - intros q Hle Hlt. rewrite <- i_pub by done. unfold is_pub, slot_bit. by rewrite Hav.
  - intros q w v Hle Hc. unfold slot_value. rewrite Hbuf. by eapply i_bytes.
Qed.

Lemma guar_counts w s s' tr tr' :
  buffer s' = buffer s -> tof tr' = tof tr ->
  (forall w', w' ∈ leaves tr -> w' ∈ leaves tr') ->
  (forall w', w' <> w -> w' ∈ leaves tr' -> w' ∈ leaves tr) ->
  (forall w', w' <> w -> w' ∈ releases tr <-> w' ∈ releases tr') ->
  guar_producer words np w (s, tr) (s', tr').
Proof.
  intros Hbuf Ht Hl1 Hl2 Hr. split.
  - split; simpl; rewrite ?Ht, ?Hbuf; try done.
    + intros q w' v Hle Hc. left. by eapply cell_filled.
    + intros Ha. split; [|done]. intros w' Hw'. apply Hl1. by apply Ha.
  - intros w' Hne. split; simpl; rewrite ?Ht, ?Hbuf; try done; [|by apply Hr].
    split; [apply Hl1|by apply Hl2].
Qed.

Lemma mpsc_inv_close s tr :
  inv (s, tr) -> (nc = true -> all_left np (s, tr)) -> inv (set_closed s, tr).
Proof.
  intros HI Hn. pose proof HI as [].
  destruct (inv_counts s (set_closed s) tr [] HI) as [H _]; simpl in *; rewrite ?app_nil_r; try done;
    try tauto; try (by destruct i_bm); by rewrite app_nil_r in H.
Qed.

Lemma leaves_snoc tr w : leaves (tr ++ [Leave w]) = leaves tr ++ [w].
Proof. apply leaves_app. Qed.
Lemma releases_snoc tr w : releases (tr ++ [Release w]) = releases tr ++ [w].
Proof. apply releases_app. Qed.

Lemma handles_snoc (l : list nat) w :
  NoDup l -> Forall (fun w => (w < np)%nat) l -> w ∉ l -> (w < np)%nat ->
  NoDup (l ++ [w]) /\ Forall (fun w => (w < np)%nat) (l ++ [w]).
Proof.
  intros Hnd Hf Hw Hlt. split.
  - apply NoDup_app. split; [done|]. split; [|apply NoDup_singleton].
    intros x Hx ->%list_elem_of_singleton. done.
  - apply Forall_app. split; [done|]. by apply Forall_singleton.
Qed.

(** A producer whose tickets are all filled leaves. *)
Lemma inv_leave s tr w :
  inv (s, tr) -> (w < np)%nat -> w ∉ leaves tr ->
  (nc = true -> forall q, cells (tof tr) !! q <> Some (w, None)) ->
  let s' := set_counts (producer_count s - 1) (strong_count s) s in
  let tr' := tr ++ [Leave w] in
  inv (s', tr') /\ guar_producer words np w (s, tr) (s', tr').
Proof.
  intros HI Hw Hnl Hopen s' tr'. pose proof HI as []. simpl in *.
  destruct (handles_snoc (leaves tr) w) as [Hnd Hf]; try tauto.
  assert (Hr : releases tr' = releases tr) by (unfold tr'; rewrite releases_app; apply app_nil_r).
  destruct (inv_counts s s' tr [Leave w] HI) as [HI' Ht]; fold tr'; rewrite ?Hr; unfold tr';
    rewrite ?leaves_snoc; try tauto; try done.
  - by destruct i_bm.
  - right. eauto.
  - simpl. rewrite length_app. simpl. lia.
  - intros Hn Hcl w' Hw'. simpl. rewrite leaves_snoc. apply elem_of_app. left. by apply i_closed.
  - intros Hn w' q [Hin|Hin%list_elem_of_singleton]%elem_of_app; [by apply i_left|]. subst. by apply Hopen.
  - split; [done|]. apply guar_counts; try done; fold tr'; rewrite ?Hr; try done;
      unfold tr'; intros w'; rewrite leaves_snoc, elem_of_app, list_elem_of_singleton; tauto.
Qed.

(** ... and gives up its [Arc]. *)
Lemma mpsc_inv_release s tr w :
  inv (s, tr) -> (w < np)%nat -> w ∉ releases tr ->
  let s' := set_counts (producer_count s) (strong_count s - 1) s in
  let tr' := tr ++ [Release w] in
  inv (s', tr') /\ guar_producer words np w (s, tr) (s', tr') /\ 1 < strong_count s.
Proof.
  intros HI Hw Hnl s' tr'. pose proof HI as []. simpl in *.
  destruct (handles_snoc (releases tr) w) as [Hnd Hf]; try tauto.
  assert (Hr : leaves tr' = leaves tr) by (unfold tr'; rewrite leaves_app; apply app_nil_r).
  assert (Hlen : (length (releases tr ++ [w]) <= np)%nat).
  { transitivity (length (seq 0 np)); [|by rewrite length_seq]. apply submseteq_length, NoDup_submseteq; [done|].
    intros x Hx. rewrite Forall_forall in Hf. apply elem_of_seq. specialize (Hf x Hx). lia. }
  rewrite length_app in Hlen. simpl in Hlen.
  destruct (inv_counts s s' tr [Release w] HI) as [HI' Ht]; fold tr'; rewrite ?Hr; unfold tr';
    rewrite ?releases_snoc; try tauto; try done.
  - by destruct i_bm.
  - right. eauto.
  - simpl. rewrite length_app. simpl. lia.
  - intros Hn Hcl w' Hw'. simpl. fold tr'. rewrite Hr. by apply i_closed.
  - split; [done|]. split; [|lia]. apply guar_counts; try done; fold tr'; rewrite ?Hr; try done;
      unfold tr'; intros w'; rewrite releases_snoc, elem_of_app, list_elem_of_singleton; tauto.
Qed.

End steps.
