(* ===== verification/MpscProducer.v ===== *)
(** * MpscProducer: the producers of the MPSC channel

    The operations of [channel/src/mpsc/producer.rs] under interference: what a
    producer knows between its actions ([idle], [holds]), that it is stable, and
    that [send], [try_send], [close] and the drop of the handle lead from [idle]
    to [idle], with the value appended to what the producer has sent exactly
    when the call reports success. *)
From S2P Require Import Prelude Conc RingBuffer Cpu Mpsc MpscBitmap MpscSpec MpscSteps.

(** What a client may ask of a handle, and the client that runs a list of such
    calls and then drops the handle.  It returns the values its calls reported
    as sent, and whether it came to its end ([false]: still waiting for space
    when the fuel was spent). *)
Inductive producer_op (T : Type) : Type :=
| OpSend (v : T)
| OpTrySend (v : T)
| OpClose.
Arguments OpSend {T} v.
Arguments OpTrySend {T} v.
Arguments OpClose {T}.

Fixpoint producer_client {T} (fuel : nat) (h : Producer) (ops : list (producer_op T)) (sent : list T)
    : prog (Shared T) (event T) (list T * bool) :=
  match ops with
  | [] => producer_drop h ;;; Ret (sent, true)
  | OpSend v :: ops =>
      let! r := send fuel h v in
      match r with
      | None => Ret (sent, false)
      | Some (Ok _) => producer_client fuel h ops (sent ++ [v])
      | Some (Err _) => producer_client fuel h ops sent
      end
  | OpTrySend v :: ops =>
      let! r := try_send h v in
      match r with
      | Ok _ => producer_client fuel h ops (sent ++ [v])
      | Err _ => producer_client fuel h ops sent
      end
  | OpClose :: ops => close ;;; producer_client fuel h ops sent
  end.

(** [nc]: nobody calls [close]. *)
Definition producer_op_ok {T} (nc : bool) (op : producer_op T) : Prop :=
  match op with OpClose => nc = false | _ => True end.

Section producer.
Context {T : Type} (words : Z) (np : nat) (nc : bool).
Context (Hp : is_pow2 (64 * words)) (Hb : 64 * words < 2 ^ 63).
Context (w : nat) (Hw : (w < np)%nat).
Implicit Types s : Shared T.
Implicit Types c : config (Shared T) (event T).
Abbreviation C := (64 * words).
Abbreviation inv := (inv words np nc).
Abbreviation R := (rely_producer words w).
Abbreviation G := (guar_producer words np w).
Abbreviation tk c := (tof c.2).
Abbreviation h := {| who := w |}.

(** The producer has sent [vs]; apart from the tickets [open] all its tickets
    are filled (unless somebody closed the channel while it waited). *)
Record owns (vs : list T) (open : list nat) c : Prop := {
  o_sent : sent_by w (tk c) = vs;
  o_leaves : w ∉ leaves c.2;
  o_releases : w ∉ releases c.2;
  o_open : nc = true -> forall q, cells (tk c) !! q = Some (w, None) -> q ∈ open;
}.

(** Between two calls, and in the middle of one, with the last ticket drawn. *)
Abbreviation idle vs := (owns vs []).
Record holds (vs : list T) (q : nat) c : Prop := {
  h_owns : owns vs [q] c;
  h_cell : cells (tk c) !! q = Some (w, None);
  h_last : forall q' x, (q < q')%nat -> cells (tk c) !! q' <> Some (w, x);
}.

Lemma owns_rely vs o c c' : owns vs o c -> R c c' -> owns vs o c'.
Proof.
  intros [Hs Hl Hr Ho] HR. split.
  - by rewrite (sent_by_rely _ _ _ _ HR).
  - by rewrite <- (rp_leaves _ _ _ _ HR).
  - by rewrite <- (rp_releases _ _ _ _ HR).
  - intros Hn q Hq. apply Ho; [done|]. by apply (rp_own _ _ _ _ HR).
Qed.

Lemma holds_rely vs q c c' : holds vs q c -> R c c' -> holds vs q c'.
Proof.
  intros [Ho Hc Hl] HR. split.
  - by eapply owns_rely.
  - by apply (rp_own _ _ _ _ HR).
  - intros q' x Hlt Hq'. apply (rp_own _ _ _ _ HR) in Hq'. by eapply Hl.
Qed.

(** *** Disconnection *)

Lemma mwp_is_disconnected {A} (k : bool -> prog _ _ A) Q c :
  inv c -> w ∉ leaves c.2 ->
  (forall d c', R c c' -> inv c' -> (nc = true -> d = false) -> wp inv R G (k d) Q c') ->
  wp inv R G (bind is_disconnected k) Q c.
Proof.
  intros HI Hl Hk. unfold is_disconnected.
  apply wp_bind_assoc, wp_load; [exact _|]. intros c1 H1 HI1.
  assert (Hl1 : w ∉ leaves c1.2) by (by rewrite <- (rp_leaves _ _ _ _ H1)).
  destruct (closed c1.1) eqn:Hcl.
  { apply Hk; [done|done|]. intros Hn. destruct Hl1. by apply (i_closed _ _ _ _ HI1). }
  apply wp_bind_assoc, wp_load; [exact _|]. intros c2 H2 HI2.
  assert (Hl2 : w ∉ leaves c2.2) by (by rewrite <- (rp_leaves _ _ _ _ H2)).
  assert (H02 : R c c2) by (by transitivity c1).
  destruct (Z.eqb_spec (producer_count c2.1) 0) as [Hz|Hz].
  - destruct Hl2. apply (all_left_length words np nc); [done| |done].
    rewrite (i_pcount _ _ _ _ HI2) in Hz. lia.
  - by apply Hk.
Qed.

(** *** Drawing a ticket *)

Lemma claim_holds vs s tr :
  inv (s, tr) -> idle vs (s, tr) ->
  let s' := set_claim (Cursor.add (claim_cursor s) 1).2 s in
  let tr' := tr ++ [Claim w (claimed_seq s + 1) 1] in
  inv (s', tr') /\ G (s, tr) (s', tr') /\
  holds vs (length (cells (tof tr))) (s', tr') /\ head (tof tr') = head (tof tr).
Proof.
  intros HI [Hs Hl Hr Ho] s' tr'. simpl in *.
  destruct (inv_claim words np nc s tr w HI Hw Hl) as [HI' HG]. fold s' tr' in HI', HG.
  assert (Ht : tof tr' = draw (tof tr) w 1) by apply tof_claim.
  assert (Hl' : leaves tr' = leaves tr) by (unfold tr'; rewrite leaves_app; apply app_nil_r).
  assert (Hr' : releases tr' = releases tr) by (unfold tr'; rewrite releases_app; apply app_nil_r).
  split; [done|]. split; [done|]. split; [|by rewrite Ht]. split.
  - split; simpl; rewrite ?Ht, ?Hl', ?Hr'; try done.
    + unfold sent_by, draw. simpl. rewrite of_producer_app. cbn.
      rewrite decide_True by done. by rewrite app_nil_r.
    + intros Hn q Hc. pose proof (lookup_lt_Some _ _ _ Hc) as Hlt. simpl in Hlt.
      rewrite length_app in Hlt. simpl in Hlt.
      apply draw_lookup in Hc as [Hc|(_ & _ & Hq)]; [by apply Ho, elem_of_nil in Hc|].
      apply list_elem_of_singleton. lia.
  - simpl. rewrite Ht. simpl. by rewrite lookup_app_r, Nat.sub_diag.
  - simpl. rewrite Ht. intros q' x Hlt Hc%lookup_lt_Some. simpl in Hc.
    rewrite length_app in Hc. simpl in Hc. lia.
Qed.

Lemma wp_claim_add {A} vs (k : Z -> prog _ _ A) Q c :
  inv c -> idle vs c ->
  (forall q c', inv c' -> holds vs q c' -> wp inv R G (k (Z.of_nat q)) Q c') ->
  wp inv R G (bind (claim_add h 1) k) Q c.
Proof.
  intros HI Hid Hk. apply wp_act. intros [s tr] HR HI1.
  destruct (claim_holds vs s tr HI1) as (HI2 & HG & Hh & _); [by eapply owns_rely|].
  split; [done|]. split; [done|]. simpl.
  replace (Cursor.sequence (claim_cursor s) + 1) with (Z.of_nat (length (cells (tof tr)))).
  - by apply Hk.
  - pose proof (i_claim _ _ _ _ HI1) as Hc. unfold claimed_seq, Cursor.value in Hc. simpl in Hc. lia.
Qed.

(** Waiting for space: the ticket is inside the window, or the channel was
    closed. *)
Lemma wp_wait_for_consumer {A} vs q wrap (k : option bool -> prog _ _ A) Q fuel : forall it c,
  inv c -> holds vs q c -> wrap = Z.of_nat q - C ->
  (forall r c', inv c' -> holds vs q c' ->
     (r = Some false -> nc = false) ->
     (r = Some true -> Z.of_nat q < Z.of_nat (head (tk c')) + C) -> wp inv R G (k r) Q c') ->
  wp inv R G (bind (wait_for_consumer fuel it wrap) k) Q c.
Proof.
  induction fuel as [|fuel IH]; intros it c HI Hh Hwr Hk; [by apply Hk|].
  cbn [wait_for_consumer]. apply wp_bind_assoc, wp_load; [exact _|]. intros c1 H1 HI1.
  pose proof (holds_rely _ _ _ _ Hh H1) as Hh1.
  destruct (Z.ltb_spec (ccur c1.1) wrap) as [Hlt|Hge].
  - apply wp_bind_assoc, mwp_is_disconnected; [done|apply Hh1|]. intros d c2 H2 HI2 Hd.
    pose proof (holds_rely _ _ _ _ Hh1 H2) as Hh2.
    destruct d; [|by apply IH]. apply Hk; [done|done| |done].
    intros _. destruct nc; [by discriminate Hd|done].
  - apply Hk; [done|done|done|]. intros _. pose proof (i_head _ _ _ _ HI1). lia.
Qed.

(** *** Writing and publishing *)

Lemma wp_publish {A} vs q v (k : unit -> prog _ _ A) Q c :
  inv c -> holds vs q c -> Z.of_nat q < Z.of_nat (head (tk c)) + C ->
  get_ptr (buffer c.1) (Z.of_nat q) = Some (Live v) ->
  (forall c', inv c' -> idle (vs ++ [v]) c' -> wp inv R G (k tt) Q c') ->
  wp inv R G (bind (publish_sequence (Z.of_nat q)) k) Q c.
Proof.
  intros HI Hh Hlt Hv Hk. apply wp_act. intros [s tr] HR HI1.
  pose proof (holds_rely _ _ _ _ Hh HR) as [[Hs Hl Hr Ho] Hc Hlast].
  pose proof (rp_head _ _ _ _ HR) as Hhd.
  assert (Hv1 : get_ptr (buffer s) (Z.of_nat q) = Some (Live v)).
  { rewrite <- Hv. apply (rp_slot _ _ _ _ HR); [apply Hh|done]. }
  simpl in *. pose proof (i_bm _ _ _ _ HI1) as Hbm.
  assert (Hev : slot_value s (Z.of_nat q) = Some v) by (unfold slot_value; by rewrite Hv1).
  destruct (inv_put words np nc Hp Hb s tr w q v HI1 Hc) as [HI2 HG]; [simpl; lia|done|done|].
  unfold apply_upd. simpl. rewrite Hev, (bm_words _ _ Hbm : availability_words s = words).
  destruct (word_lookup_any words Hp Hb s (Z.of_nat q) Hbm) as [wd ->].
  split; [done|]. split; [done|]. apply Hk; [done|].
  assert (Ht : tof (tr ++ [Put (Z.of_nat q) v]) = fill (tof tr) q v) by apply tof_put.
  split; simpl; rewrite ?Ht.
  - rewrite sent_by_fill, Hs by done. done.
  - rewrite leaves_app. by rewrite app_nil_r.
  - rewrite releases_app. by rewrite app_nil_r.
  - intros Hn q' Hq'. destruct (decide (q' = q)) as [->|Hne].
    + by rewrite (fill_eq _ _ _ _ Hc) in Hq'.
    + rewrite fill_ne in Hq' by done. by apply Ho, list_elem_of_singleton in Hq'.
Qed.

Lemma wp_slot_write {A} vs q x (k : unit -> prog _ _ A) Q c :
  inv c -> holds vs q c -> Z.of_nat q < Z.of_nat (head (tk c)) + C ->
  (forall c', inv c' -> holds vs q c' -> Z.of_nat q < Z.of_nat (head (tk c')) + C ->
     get_ptr (buffer c'.1) (Z.of_nat q) = Some x -> wp inv R G (k tt) Q c') ->
  wp inv R G (bind (store (fun s => set_buffer (set_slot (buffer s) (Z.of_nat q) x) s)) k) Q c.
Proof.
  intros HI Hh Hlt Hk. apply wp_act. intros [s tr] HR HI1.
  pose proof (holds_rely _ _ _ _ Hh HR) as Hh1. pose proof (rp_head _ _ _ _ HR) as Hhd.
  simpl in Hhd. unfold apply_upd. simpl. rewrite app_nil_r.
  destruct (inv_write words np nc s tr w q x HI1) as [HI2 HG]; [apply Hh1|simpl; lia|].
  split; [done|]. split; [done|]. apply Hk; [done| |simpl; lia|].
  - by destruct Hh1 as [[] ? ?].
  - simpl. apply get_ptr_set_eq, (i_wf _ _ _ _ HI1).
Qed.

Lemma mwp_write_publish {A B} vs q v (r : B) (k : B -> prog _ _ A) Q c :
  inv c -> holds vs q c -> Z.of_nat q < Z.of_nat (head (tk c)) + C ->
  (forall c', inv c' -> idle (vs ++ [v]) c' -> wp inv R G (k r) Q c') ->
  wp inv R G (bind (buf_write (Z.of_nat q) v ;;; (publish_sequence (Z.of_nat q) ;;; Ret r)) k) Q c.
Proof.
  intros HI Hh Hlt Hk. apply wp_bind_assoc, wp_bind_assoc, (wp_slot_write vs q); [done..|].
  intros c1 HI1 Hh1 Hlt1 _. apply (wp_slot_write vs q); [done..|].
  intros c2 HI2 Hh2 Hlt2 Hv. apply wp_bind_assoc. by apply (wp_publish vs q v (fun _ => k r)).
Qed.

(** *** The operations *)

(** A ticket that was given up because the channel was closed. *)
Lemma holds_idle vs q c : nc = false -> holds vs q c -> idle vs c.
Proof. intros Hn [[] _ _]. split; try done. by rewrite Hn. Qed.

(** What a producer knows after a call that sent [v] or not. *)
Definition after (ok : bool) vs v : config _ _ -> Prop :=
  idle (if ok then vs ++ [v] else vs).

Lemma wp_send {A} fuel vs v (k : _ -> prog _ _ A) Q c :
  inv c -> idle vs c ->
  (forall r c', inv c' -> after (match r with Ok _ => true | Err _ => false end) vs v c' ->
     wp inv R G (k (Some r)) Q c') ->
  (forall c', inv c' -> sent_by w (tk c') = vs -> wp inv R G (k None) Q c') ->
  wp inv R G (bind (send fuel h v) k) Q c.
Proof.
  intros HI Hid Hk Hspin. apply wp_bind_assoc, mwp_is_disconnected; [done|apply Hid|].
  intros d c1 H1 HI1 _. pose proof (owns_rely _ _ _ _ Hid H1) as Hid1.
  destruct d; [by apply (Hk (Err v))|].
  apply wp_bind_assoc, (wp_claim_add vs); [done|done|]. intros q c2 HI2 Hh2.
  apply wp_bind_assoc, wp_load; [exact _|]. intros c3 H3 HI3.
  pose proof (holds_rely _ _ _ _ Hh2 H3) as Hh3.
  apply wp_bind_assoc, (wp_wait_for_consumer vs q); [done|done| |].
  { by rewrite (bm_cap _ _ (i_bm _ _ _ _ HI3)). }
  intros [[]|] c4 HI4 Hh4 Hf Ht.
  - apply (mwp_write_publish vs q v); [done|done|by apply Ht|].
    intros c5 HI5 Hid5. by apply (Hk (Ok tt)).
  - apply (Hk (Err v)); [done|]. apply (holds_idle _ q); auto.
  - apply Hspin; [done|]. apply Hh4.
Qed.

Lemma wp_claim_cas {A} vs cur lim (k : bool -> prog _ _ A) Q c :
  inv c -> idle vs c -> cur + 1 < lim + C -> lim <= Z.of_nat (head (tk c)) ->
  (forall c', inv c' -> idle vs c' -> wp inv R G (k false) Q c') ->
  (forall q c', inv c' -> cur + 1 = Z.of_nat q -> holds vs q c' ->
     Z.of_nat q < Z.of_nat (head (tk c')) + C -> wp inv R G (k true) Q c') ->
  wp inv R G (bind (claim_cas h cur (cur + 1)) k) Q c.
Proof.
  intros HI Hid Hlim Hhd Hno Hyes. apply wp_act. intros [s tr] HR HI1.
  pose proof (owns_rely _ _ _ _ Hid HR) as Hid1. pose proof (rp_head _ _ _ _ HR) as Hh. simpl in Hh.
  unfold apply_upd, Cursor.compare_exchange. simpl.
  destruct (Z.eqb_spec (Cursor.sequence (claim_cursor s)) cur) as [He|Hne]; simpl.
  - destruct (claim_holds vs s tr HI1 Hid1) as (HI2 & HG & Hh2 & Hhd2).
    unfold claimed_seq, Cursor.value in *. simpl in HI2, HG, Hh2, Hhd2. rewrite He in HI2, HG, Hh2, Hhd2.
    replace (cur + 1 - cur) with 1 by lia. split; [done|]. split; [done|].
    pose proof (i_claim _ _ _ _ HI1) as Hc. unfold claimed_seq, Cursor.value in Hc. simpl in Hc.
    apply (Hyes (length (cells (tof tr)))); [done|lia|done|]. simpl. rewrite Hhd2. lia.
  - rewrite app_nil_r. split; [done|]. split; [reflexivity|]. by apply Hno.
Qed.

Lemma wp_try_claim {A} vs (k : option Z -> prog _ _ A) Q n : forall c,
  inv c -> idle vs c ->
  (forall c', inv c' -> idle vs c' -> wp inv R G (k None) Q c') ->
  (forall q c', inv c' -> holds vs q c' -> Z.of_nat q < Z.of_nat (head (tk c')) + C ->
     wp inv R G (k (Some (Z.of_nat q))) Q c') ->
  wp inv R G (bind (try_claim_loop n h 1) k) Q c.
Proof.
  induction n as [|n IH]; intros c HI Hid Hno Hyes; [by apply Hno|].
  cbn [try_claim_loop]. apply wp_bind_assoc, wp_load; [exact _|]. intros c1 H1 HI1.
  pose proof (owns_rely _ _ _ _ Hid H1) as Hid1.
  apply wp_bind_assoc, wp_load; [exact _|]. intros c2 H2 HI2.
  pose proof (owns_rely _ _ _ _ Hid1 H2) as Hid2.
  destruct (Z.ltb_spec (ccur c2.1) (claimed_seq c1.1 + 1 - cap c2.1)) as [Hlt|Hge]; [by apply Hno|].
  rewrite (bm_cap _ _ (i_bm _ _ _ _ HI2)), (i_head _ _ _ _ HI2) in Hge.
  apply wp_bind_assoc, (wp_claim_cas vs _ (Z.of_nat (head (tk c2)))); [done|done|lia|lia|..].
  - intros c3 HI3 Hid3. by apply IH.
  - intros q c3 HI3 Hq Hh Hlt. rewrite Hq. by apply Hyes.
Qed.

Lemma wp_try_send {A} vs v (k : _ -> prog _ _ A) Q c :
  inv c -> idle vs c ->
  (forall r c', inv c' -> after (match r with Ok _ => true | Err _ => false end) vs v c' ->
     wp inv R G (k r) Q c') ->
  wp inv R G (bind (try_send h v) k) Q c.
Proof.
  intros HI Hid Hk. apply wp_bind_assoc, mwp_is_disconnected; [done|apply Hid|].
  intros d c1 H1 HI1 _. pose proof (owns_rely _ _ _ _ Hid H1) as Hid1.
  destruct d; [by apply (Hk (Err (Disconnected v)))|].
  apply wp_bind_assoc, (wp_try_claim vs); [done|done|..].
  - intros c2 HI2 Hid2. by apply (Hk (Err (Full v))).
  - intros q c2 HI2 Hh2 Hlt. apply (mwp_write_publish vs q v); [done..|].
    intros c3 HI3 Hid3. by apply (Hk (Ok tt)).
Qed.

Lemma close_step s tr :
  inv (s, tr) -> (nc = true -> all_left np (s, tr)) ->
  inv (set_closed s, tr) /\ G (s, tr) (set_closed s, tr).
Proof. intros HI Hn. split; [by apply mpsc_inv_close|]. by apply guar_counts. Qed.

Lemma wp_close {A} vs (k : unit -> prog _ _ A) Q c :
  inv c -> idle vs c -> nc = false ->
  (forall c', inv c' -> idle vs c' -> wp inv R G (k tt) Q c') ->
  wp inv R G (bind close k) Q c.
Proof.
  intros HI Hid Hn Hk. apply wp_act. intros [s tr] HR HI1.
  destruct (close_step s tr HI1) as [HI2 HG]; [by rewrite Hn|].
  unfold apply_upd. simpl. rewrite app_nil_r. split; [done|]. split; [done|].
  apply Hk; [done|]. by destruct (owns_rely _ _ _ _ Hid HR).
Qed.

(** The consumer still holds its handle, so the shared state survives the drop
    of a producer. *)
Lemma wp_release {A} vs (k : list T -> prog _ _ A) Q c :
  inv c -> sent_by w (tk c) = vs -> w ∉ releases c.2 -> w ∈ leaves c.2 ->
  (forall c', inv c' -> sent_by w (tk c') = vs -> w ∈ leaves c'.2 -> wp inv R G (k []) Q c') ->
  wp inv R G (bind (arc_drop [Release w]) k) Q c.
Proof.
  intros HI Hs Hr Hl Hk. apply wp_bind_assoc, wp_act. intros [s tr] HR HI1.
  rewrite (rp_releases _ _ _ _ HR) in Hr. rewrite (rp_leaves _ _ _ _ HR) in Hl.
  pose proof (sent_by_rely _ _ _ _ HR) as Hs1. simpl in *.
  destruct (mpsc_inv_release words np nc s tr w HI1 Hw Hr) as (HI2 & HG & Hst).
  split; [done|]. split; [done|]. destruct (Z.eqb_spec (strong_count s) 1) as [He|_]; [lia|].
  apply Hk; [done|..]; simpl.
  - rewrite tof_snoc. simpl. by rewrite Hs1.
  - rewrite leaves_app. apply elem_of_app. by left.
Qed.

Lemma wp_producer_drop {A} vs (k : list T -> prog _ _ A) Q c :
  inv c -> idle vs c ->
  (forall c', inv c' -> sent_by w (tk c') = vs -> w ∈ leaves c'.2 -> wp inv R G (k []) Q c') ->
  wp inv R G (bind (producer_drop h) k) Q c.
Proof.
  intros HI Hid Hk. apply wp_bind_assoc, wp_act. intros [s tr] HR HI1.
  pose proof (owns_rely _ _ _ _ Hid HR) as [Hs Hl Hr Ho]. simpl in Hs, Hl, Hr, Ho.
  destruct (inv_leave words np nc s tr w HI1 Hw Hl) as [HI2 HG].
  { intros Hn q Hq. by apply Ho, elem_of_nil in Hq. }
  split; [done|]. split; [done|].
  assert (Hs2 : sent_by w (tof (tr ++ [Leave w])) = vs) by (by rewrite tof_snoc).
  assert (Hl2 : w ∈ leaves (tr ++ [Leave w])).
  { rewrite leaves_snoc. apply elem_of_app. right. by apply list_elem_of_singleton. }
  assert (Hr2 : w ∉ releases (tr ++ [Leave w])) by (rewrite releases_app; by rewrite app_nil_r).
  change (producer_count (s, tr).1) with (producer_count s).
  destruct (Z.eqb_spec (producer_count s) 1) as [He|_].
  - apply wp_bind_assoc, wp_act. intros [s3 tr3] H3 HI3. unfold apply_upd. simpl. rewrite app_nil_r.
    assert (Ha : all_left np (s3, tr3)).
    { intros w' Hw'. apply (rp_gone _ _ _ _ H3). simpl.
      apply (all_left_length words np nc _ HI2); [|done]. simpl.
      pose proof (i_pcount _ _ _ _ HI1) as Hc. simpl in Hc. rewrite leaves_snoc, length_app. simpl. lia. }
    destruct (close_step s3 tr3 HI3) as [HI4 HG4]; [done|]. split; [done|]. split; [done|].
    apply (wp_release vs k); [done| | |by apply (rp_leaves _ _ _ _ H3)|done].
    + simpl. by rewrite (sent_by_rely _ _ _ _ H3 : sent_by w (tof tr3) = _).
    + simpl. by rewrite <- (rp_releases _ _ _ _ H3 : _ <-> w ∈ releases tr3).
  - by apply (wp_release vs k).
Qed.

(** *** The client *)

Definition producer_post (r : list T * bool) c : Prop :=
  sent_by w (tk c) = r.1 /\ (r.2 = true -> w ∈ leaves c.2).

Lemma mwp_producer_client fuel ops : Forall (producer_op_ok nc) ops -> forall vs c,
  inv c -> idle vs c -> wp inv R G (producer_client fuel h ops vs) producer_post c.
Proof.
  induction 1 as [|op ops Hop Hops IH]; intros vs c HI Hid; cbn [producer_client].
  - apply (wp_producer_drop vs); [done|done|]. intros c1 HI1 Hs1 Hl1.
    apply wp_ret. intros c2 H2 HI2. split; simpl; [by rewrite (sent_by_rely _ _ _ _ H2)|].
    intros _. by apply (rp_leaves _ _ _ _ H2).
  - destruct op as [v|v|].
    + apply (wp_send fuel vs v); [done|done| |].
      * intros [] c1 HI1 Hid1; by apply IH.
      * intros c1 HI1 Hs1. apply wp_ret. intros c2 H2 HI2.
        split; [by rewrite (sent_by_rely _ _ _ _ H2)|done].
    + apply (wp_try_send vs v); [done|done|]. intros [] c1 HI1 Hid1; by apply IH.
    + by apply (wp_close vs); [..|intros; apply IH].
Qed.

End producer.
