(* ===== verification/MpscConsumer.v ===== *)
(** * MpscConsumer: the consumer of the MPSC channel

    The operations of [channel/src/mpsc/consumer.rs] under interference by any
    number of producers: what the consumer knows between its actions
    ([reading]), that it is stable, that the word scan only ever reports filled
    tickets, and that every operation returns the values of the tickets it
    takes, in ticket order. *)
From S2P Require Import Prelude Conc RingBuffer Cpu Mpsc MpscBitmap MpscSpec MpscSteps.

(** What a client may ask of the consumer handle, and the client that runs a
    list of such calls.  It returns the values it was given, and whether [recv]
    told it that the channel is disconnected (which ends it). *)
Inductive consumer_op : Type :=
| OpRecv
| OpTryRecv
| OpPeek
| OpPending
| OpRecvBatch (len : Z)
| OpTryRecvBatch (len : Z)
| OpPoll
| OpConsumerClose.

Section client.
Context {T : Type}.

Fixpoint consumer_client (fuel scan : nat) (h : Consumer) (ops : list consumer_op) (got : list T)
    : prog (Shared T) (event T) (list T * bool) :=
  match ops with
  | [] => Ret (got, false)
  | OpRecv :: ops =>
      let! r := recv fuel h in
      match r with
      | None => Ret (got, false)
      | Some (h, Ok v) => consumer_client fuel scan h ops (got ++ [v])
      | Some (_, Err _) => Ret (got, true)
      end
  | OpTryRecv :: ops =>
      let! (h, r) := try_recv h in
      match r with
      | Ok v => consumer_client fuel scan h ops (got ++ [v])
      | Err _ => consumer_client fuel scan h ops got
      end
  | OpPeek :: ops => let! _ := peek h in consumer_client fuel scan h ops got
  | OpPending :: ops => let! _ := pending scan h in consumer_client fuel scan h ops got
  | OpRecvBatch len :: ops =>
      let! r := recv_batch fuel scan h len in
      match r with
      | None => Ret (got, false)
      | Some (h, Ok vs) => consumer_client fuel scan h ops (got ++ vs)
      | Some (h, Err _) => consumer_client fuel scan h ops got
      end
  | OpTryRecvBatch len :: ops =>
      let! r := try_recv_batch scan h len in
      match r with
      | None => Ret (got, false)
      | Some (h, Ok vs) => consumer_client fuel scan h ops (got ++ vs)
      | Some (h, Err _) => consumer_client fuel scan h ops got
      end
  | OpPoll :: ops =>
      let! r := poll scan h in
      match r with
      | None => Ret (got, false)
      | Some (h, calls) => consumer_client fuel scan h ops (got ++ ((fun x => x.1.1) <$> calls))
      end
  | OpConsumerClose :: ops => close ;;; consumer_client fuel scan h ops got
  end.

End client.

(** The lengths of slices are not negative; [nc]: nobody calls [close]. *)
Definition consumer_op_ok (nc : bool) (op : consumer_op) : Prop :=
  match op with
  | OpRecvBatch len | OpTryRecvBatch len => 0 <= len
  | OpConsumerClose => nc = false
  | _ => True
  end.

Section consumer.
Context {T : Type} (words : Z) (np : nat) (nc : bool).
Context (Hp : is_pow2 (64 * words)) (Hb : 64 * words < 2 ^ 63).
Implicit Types s : Shared T.
Implicit Types c : config (Shared T) (event T).
Implicit Types h : Consumer.
Implicit Types ws vs : list T.
Abbreviation C := (64 * words).
Abbreviation inv := (inv words np nc).
Abbreviation R := (rely_consumer np).
Abbreviation G := (guar_consumer words).
Abbreviation tk c := (tof c.2).

(** The consumer has been given [ws]; it has seen the values [vs] of the next
    tickets and moved [m] of them out of their slots. *)
Record reading h ws vs (m : nat) c : Prop := {
  r_next : next_sequence h = Z.of_nat (head (tk c));
  r_taken : (taken (tk c)).*2 = ws;
  r_vals : values_at (tk c) (head (tk c)) vs;
  r_live : forall q w v, (head (tk c) + m <= q)%nat -> cells (tk c) !! q = Some (w, Some v) ->
             get_ptr (buffer c.1) (Z.of_nat q) = Some (Live v);
}.

Abbreviation ready h ws := (reading h ws [] 0).

(** The tickets below [e] are filled. *)
Definition avail (e : Z) c : Prop :=
  forall q, (head (tk c) <= q)%nat -> Z.of_nat q < e -> filled (tk c) q = true.

Lemma mpsc_reading_rely h ws vs m c c' : reading h ws vs m c -> R c c' -> reading h ws vs m c'.
Proof.
  intros [Hn Ht Hv Hl] HR. pose proof (rc_head _ _ _ HR) as Hh. split; rewrite ?Hh; try done.
  - by rewrite (taken_rely _ _ _ HR).
  - intros i v Hi. destruct (Hv i v Hi) as [w Hw]. exists w.
    apply (rc_keep _ _ _ HR); [|done]. by eapply cell_filled.
  - intros q w v Hq Hc. destruct (rc_new _ _ _ HR q w v ltac:(lia) Hc) as [Hf|]; [|done].
    pose proof Hf as (w' & v' & Hc')%filled_true.
    pose proof (rc_keep _ _ _ HR _ _ Hf Hc') as Hk. rewrite Hc in Hk. simplify_eq.
    rewrite (rc_slot _ _ _ HR) by (done || lia). by eapply Hl.
Qed.

Lemma avail_rely e c c' : avail e c -> R c c' -> avail e c'.
Proof.
  intros Ha HR q Hq Hlt. rewrite (rc_head _ _ _ HR) in Hq. pose proof (Ha q Hq Hlt) as Hf.
  pose proof Hf as (w & v & Hc)%filled_true. apply (cell_filled _ _ w v). by apply (rc_keep _ _ _ HR).
Qed.

(** *** Looking at the bitmap *)

Lemma wp_is_published {A} h ws (k : bool -> prog _ _ A) Q c :
  inv c -> ready h ws c ->
  (forall c', R c c' -> inv c' -> ready h ws c' ->
     wp inv R G (k (filled (tk c') (head (tk c')))) Q c') ->
  wp inv R G (bind (is_published (next_sequence h)) k) Q c.
Proof.
  intros HI Hr Hk. apply wp_act. intros [s tr] HR HI1.
  pose proof (mpsc_reading_rely _ _ _ _ _ _ Hr HR) as Hr1. pose proof (words_pos words Hp) as Hw.
  rewrite (r_next _ _ _ _ _ Hr1). unfold apply_upd. simpl. rewrite app_nil_r.
  rewrite (published_in_any words Hp Hb) by apply (i_bm _ _ _ _ HI1).
  rewrite (i_pub _ _ _ _ HI1) by (simpl; lia).
  split; [done|]. split; [reflexivity|]. by apply (Hk (s, tr)).
Qed.

(** A run of bits that look published from the consumer's position on is a run
    of filled tickets, however far the scan goes. *)
Lemma scan_filled c seq e :
  inv c -> Z.of_nat (head (tk c)) <= seq -> avail seq c ->
  (forall q, seq <= q < e -> is_pub words c.1 q = true) -> avail e c.
Proof.
  intros HI Hle Ha Hpub. pose proof (words_pos words Hp) as Hw.
  assert (Hnot : ~ (seq <= Z.of_nat (head (tk c)) + C < e)).
  { intros Hin. pose proof (Hpub _ Hin) as Hx. rewrite is_pub_next_round in Hx by lia.
    apply negb_true_iff in Hx. destruct (Z.eq_dec seq (Z.of_nat (head (tk c)))) as [He|Hne].
    - rewrite Hpub in Hx by lia. done.
    - rewrite (i_pub _ _ _ _ HI), Ha in Hx by lia. done. }
  intros q Hq Hlt. destruct (Z.lt_ge_cases (Z.of_nat q) seq) as [|Hge]; [by apply Ha|].
  assert (Hwin : Z.of_nat q < Z.of_nat (head (tk c)) + C).
  { destruct (Z.lt_ge_cases (Z.of_nat q) (Z.of_nat (head (tk c)) + C)) as [|Hout]; [done|].
    destruct (Z.le_gt_cases seq (Z.of_nat (head (tk c)) + C)); [lia|].
    pose proof (Ha (head (tk c) + Z.to_nat C)%nat ltac:(lia) ltac:(lia)) as Hf.
    apply (i_window _ _ _ _ HI) in Hf. lia. }
  rewrite <- (i_pub _ _ _ _ HI) by done. apply Hpub. lia.
Qed.

Lemma wp_highest_loop {A} h ws claim (k : option Z -> prog _ _ A) Q fuel : forall seq c,
  inv c -> ready h ws c -> Z.of_nat (head (tk c)) <= seq -> avail seq c ->
  (forall r c', inv c' -> ready h ws c' ->
     (forall hi, r = Some hi -> next_sequence h - 1 <= hi /\ avail (hi + 1) c') ->
     wp inv R G (k r) Q c') ->
  wp inv R G (bind (highest_loop fuel C words claim seq (word_index words seq) (bit_index seq)) k) Q c.
Proof.
  induction fuel as [|fuel IH]; intros seq c HI Hr Hle Ha Hk; [by apply Hk|].
  cbn [highest_loop]. destruct (Z.ltb_spec claim seq) as [Hlt|Hge].
  { apply Hk; [done|done|]. intros hi [= <-]. rewrite (r_next _ _ _ _ _ Hr).
    replace (seq - 1 + 1) with seq by lia. split; [lia|done]. }
  apply wp_bind_assoc, wp_act. intros c1 HR HI1. destruct c1 as [s tr].
  pose proof (mpsc_reading_rely _ _ _ _ _ _ Hr HR) as Hr1. pose proof (avail_rely _ _ _ Ha HR) as Ha1.
  pose proof (rc_head _ _ _ HR) as Hhd. rewrite <- Hhd in Hle. 
  pose proof (i_bm _ _ _ _ HI1) as Hbm. simpl in Hbm, Hhd.
  destruct (mismatch_bits_any words Hp Hb s seq Hbm) as (w & Hw & Hrng & Hbits).
  cbv zeta in Hrng, Hbits. rewrite (bm_cap _ _ Hbm) in Hrng, Hbits.
  unfold apply_upd. simpl. rewrite app_nil_r, Hw. split; [done|]. split; [reflexivity|].
  set (r := Z.land (Z.lxor w _) _) in *. pose proof (bit_index_range seq) as Hbi.
  assert (Hpub : forall q, seq <= q < seq + (64 - bit_index seq) ->
            Z.testbit r (q - seq + bit_index seq) = false -> is_pub words s q = true).
  { intros q Hq Ht. rewrite Hbits in Ht by lia.
    replace (seq - bit_index seq + (q - seq + bit_index seq)) with q in Ht by lia.
    destruct (Z.leb_spec (bit_index seq) (q - seq + bit_index seq)); [|lia].
    by destruct (is_pub words s q). }
  simpl. destruct (Z.eqb_spec r 0) as [Hz|Hnz].
  - destruct (next_word_any words Hp Hb seq) as [Hnw Hnb]. unfold BITS_PER_WORD.
    rewrite <- Hnw, <- Hnb. apply IH; [done|done|simpl in *; lia| |done].
    apply (scan_filled _ seq); [done|done|done|]. intros q Hq. apply Hpub; [done|].
    rewrite Hz. apply Z.testbit_0_l.
  - destruct (trailing_zeros_spec r Hrng Hnz) as (Htz & Hset & Hlow).
    rewrite (Hbits _ Htz) in Hset. apply andb_true_iff in Hset as [Hle1%Z.leb_le _].
    apply Hk; [done|done|]. intros hi [= <-]. rewrite (r_next _ _ _ _ _ Hr1). split; [simpl in *; lia|].
    apply (scan_filled _ seq); [done|done|done|]. intros q Hq. apply Hpub; [lia|]. apply Hlow. lia.
Qed.

Lemma wp_highest_published {A} h ws fuel (k : option Z -> prog _ _ A) Q c :
  inv c -> ready h ws c ->
  (forall r c', inv c' -> ready h ws c' ->
     (forall hi, r = Some hi -> next_sequence h - 1 <= hi /\ avail (hi + 1) c') ->
     wp inv R G (k r) Q c') ->
  wp inv R G (bind (highest_published fuel (next_sequence h)) k) Q c.
Proof.
  intros HI Hr Hk. apply wp_bind_assoc, wp_load; [exact _|]. intros c1 HR HI1.
  pose proof (mpsc_reading_rely _ _ _ _ _ _ Hr HR) as Hr1. pose proof (i_bm _ _ _ _ HI1) as Hbm.
  rewrite (bm_cap _ _ Hbm), (bm_words _ _ Hbm).
  assert (Ha : avail (next_sequence h) c1).
  { intros q Hq Hlt. rewrite (r_next _ _ _ _ _ Hr1) in Hlt. lia. }
  destruct (Z.ltb_spec (claimed_seq c1.1) (next_sequence h)) as [Hlt|Hge].
  - apply Hk; [done|done|]. intros hi [= <-]. replace (next_sequence h - 1 + 1) with (next_sequence h) by lia.
    split; [lia|done].
  - apply (wp_highest_loop h ws); [done|done| |done|done]. rewrite (r_next _ _ _ _ _ Hr1). done.
Qed.

(** *** Slots and the cursor *)

(** The next ticket after those seen so far. *)
Lemma next_cell h ws vs m c :
  reading h ws vs m c -> (m <= length vs)%nat -> avail (next_sequence h + Z.of_nat (length vs) + 1) c ->
  let q := (head (tk c) + length vs)%nat in
  exists v, filled (tk c) q = true /\ get_ptr (buffer c.1) (Z.of_nat q) = Some (Live v) /\
    values_at (tk c) (head (tk c)) (vs ++ [v]).
Proof.
  intros Hr Hm Ha q. assert (Hf : filled (tk c) q = true).
  { apply Ha; unfold q; [lia|]. rewrite (r_next _ _ _ _ _ Hr). lia. }
  pose proof Hf as (w & v & Hc)%filled_true. exists v. split; [done|]. split.
  - eapply (r_live _ _ _ _ _ Hr); [|exact Hc]. unfold q. lia.
  - intros i x [Hi|[Hle Hi]]%lookup_app_Some; [by apply (r_vals _ _ _ _ _ Hr)|].
    apply list_lookup_singleton_Some in Hi as [Hi ->]. exists w. rewrite <- Hc. f_equal. unfold q. lia.
Qed.

Lemma mwp_buf_read {A} h ws vs q (k : T -> prog _ _ A) Q c :
  inv c -> reading h ws vs (length vs) c -> q = next_sequence h + Z.of_nat (length vs) ->
  avail (q + 1) c ->
  (forall v c', inv c' -> reading h ws (vs ++ [v]) (length (vs ++ [v])) c' ->
     (forall e, avail e c -> avail e c') -> wp inv R G (k v) Q c') ->
  wp inv R G (bind (buf_read q) k) Q c.
Proof.
  intros HI Hr -> Ha Hk. apply wp_act. intros [s tr] HR HI1.
  pose proof (mpsc_reading_rely _ _ _ _ _ _ Hr HR) as Hr1.
  destruct (next_cell _ _ _ _ _ Hr1 ltac:(lia) (avail_rely _ _ _ Ha HR)) as (v & Hf & Hv & Hvals).
  rewrite (r_next _ _ _ _ _ Hr1), <- Nat2Z.inj_add. simpl in *.
  destruct (mpsc_inv_move words np nc s tr (head (tof tr) + length vs) v HI1 ltac:(lia) Hf Hv) as [HI2 HG].
  unfold apply_upd, RingBuffer.read. simpl. rewrite Hv, app_nil_r.
  split; [done|]. split; [done|]. apply Hk; [done| |].
  - destruct Hr1 as [Hn Ht _ Hl]. split; simpl in *; try done. rewrite length_app. simpl.
    intros q w x Hq Hc. rewrite get_ptr_set_other; [eapply Hl; [|exact Hc]; lia|apply (i_wf _ _ _ _ HI1)|lia|].
    pose proof (i_window _ _ _ _ HI1 _ (cell_filled _ _ _ _ Hc)) as Hwin.
    rewrite (i_cap _ _ _ _ HI1 : capacity (buffer s) = C). simpl in Hwin. lia.
  - intros e He q. apply (avail_rely e _ _ He HR).
Qed.

Lemma mwp_buf_get {A} h ws vs q (k : T -> prog _ _ A) Q c :
  inv c -> reading h ws vs 0 c -> q = next_sequence h + Z.of_nat (length vs) ->
  avail (q + 1) c ->
  (forall v c', inv c' -> reading h ws (vs ++ [v]) 0 c' ->
     (forall e, avail e c -> avail e c') -> wp inv R G (k v) Q c') ->
  wp inv R G (bind (buf_get q) k) Q c.
Proof.
  intros HI Hr -> Ha Hk. apply wp_act. intros [s tr] HR HI1.
  pose proof (mpsc_reading_rely _ _ _ _ _ _ Hr HR) as Hr1.
  destruct (next_cell _ _ _ _ _ Hr1 ltac:(lia) (avail_rely _ _ _ Ha HR)) as (v & Hf & Hv & Hvals).
  rewrite (r_next _ _ _ _ _ Hr1), <- Nat2Z.inj_add. simpl in *.
  unfold apply_upd, RingBuffer.get. simpl. rewrite Hv, app_nil_r.
  split; [done|]. split; [reflexivity|]. apply Hk; [done| |].
  - by destruct Hr1.
  - intros e He q. apply (avail_rely e _ _ He HR).
Qed.

Lemma takes_events s q vs :
  (forall i v, vs !! i = Some v -> slot_value s (Z.of_nat (q + i)) = Some v) ->
  omap (fun q => Take q <$> slot_value s q) (seqZ (Z.of_nat q) (Z.of_nat (length vs))) = takes q vs.
Proof.
  revert q. induction vs as [|v vs IH]; intros q Hv; [done|].
  rewrite seqZ_cons by (simpl; lia). simpl.
  pose proof (Hv 0%nat v eq_refl) as H0. rewrite Nat.add_0_r in H0. rewrite H0. simpl. f_equal.
  rewrite <- IH.
  - f_equal. f_equal; lia.
  - intros i x Hx. rewrite <- (Hv (S i) x Hx). f_equal. lia.
Qed.

Lemma mwp_consume {A} h ws vs m n (k : unit -> prog _ _ A) Q c :
  inv c -> reading h ws vs m c -> vs <> [] -> (m <= length vs)%nat ->
  n = next_sequence h + Z.of_nat (length vs) - 1 ->
  (forall c', inv c' ->
     ready {| next_sequence := next_sequence h + Z.of_nat (length vs) |} (ws ++ vs) c' ->
     wp inv R G (k tt) Q c') ->
  wp inv R G (bind (consume_cursor n) k) Q c.
Proof.
  intros HI Hr Hne Hm -> Hk. apply wp_act. intros [s tr] HR HI1.
  pose proof (mpsc_reading_rely _ _ _ _ _ _ Hr HR) as [Hn Ht Hv Hl]. simpl in *.
  destruct (inv_takes words np nc Hp vs s tr HI1 Hne Hv) as (HI2 & HG & Htk & Hc & Hh).
  pose proof (i_head _ _ _ _ HI1) as Hcc. simpl in Hcc.
  assert (Hev : omap (fun q => Take q <$> slot_value s q)
            (seqZ (ccur s + 1) (next_sequence h + Z.of_nat (length vs) - 1 - ccur s))
            = takes (head (tof tr)) vs).
  { rewrite <- (takes_events s); [do 2 f_equal; lia|].
    intros i v Hi. destruct (Hv i v Hi) as [w Hw]. eapply (i_bytes _ _ _ _ HI1); [|exact Hw].
    simpl. lia. }
  replace (Z.of_nat (head (tof tr) + length vs) - 1)
    with (next_sequence h + Z.of_nat (length vs) - 1) in HI2, HG by lia.
  unfold apply_upd. cbn [fst snd]. rewrite Hev. split; [done|]. split; [done|].
  apply Hk; [done|]. split; simpl; rewrite ?Htk, ?Hc, ?Hh; try done.
  - lia.
  - by rewrite Ht.
  - intros q w v Hq Hw. apply (Hl q w v); [lia|done].
Qed.

(** *** One event at a time *)

Lemma wp_read_next {A} h ws (k : Consumer * T -> prog _ _ A) Q c :
  inv c -> ready h ws c -> filled (tk c) (head (tk c)) = true ->
  (forall h' v c', inv c' -> ready h' (ws ++ [v]) c' -> wp inv R G (k (h', v)) Q c') ->
  wp inv R G (bind (read_next h) k) Q c.
Proof.
  intros HI Hr Hf Hk. apply wp_bind_assoc, (mwp_buf_read h ws []); [done|done|simpl; lia| |].
  { intros q Hq Hlt. rewrite (r_next _ _ _ _ _ Hr) in Hlt.
    assert (q = head (tk c)) as -> by lia. done. }
  intros v c1 HI1 Hr1 _. apply wp_bind_assoc, (mwp_consume h ws [v] 1); [done|done|done|done|simpl; lia|].
  intros c2 HI2 Hr2. by apply Hk.
Qed.

(** Everything drawn has been taken, and nobody is left to draw more. *)
Definition drained c : Prop :=
  nc = true -> all_left np c /\ head (tk c) = length (cells (tk c)).

Lemma drained_rely c c' : drained c -> R c c' -> drained c'.
Proof.
  intros Hd HR Hn. destruct (Hd Hn) as [Ha He]. destruct (rc_left _ _ _ HR Ha) as [Ha' Hc].
  split; [done|]. by rewrite (rc_head _ _ _ HR), Hc.
Qed.

(** When everybody has left, an unpublished head is the end. *)
Lemma drained_end c :
  inv c -> (nc = true -> all_left np c) -> filled (tk c) (head (tk c)) = false -> drained c.
Proof.
  intros HI Ha Hf Hn. split; [by apply Ha|]. pose proof (head_le _ _ _ _ HI) as Hle.
  destruct (cells (tk c) !! head (tk c)) as [[w x]|] eqn:Hc; [|apply lookup_ge_None in Hc; lia].
  unfold filled in Hf. rewrite Hc in Hf. destruct x; [done|].
  destruct (i_left _ _ _ _ HI Hn w (head (tk c))); [|done].
  apply Ha; [done|]. by apply (i_owner _ _ _ _ HI _ _ _ Hc).
Qed.

Lemma all_left_rely c c' : (nc = true -> all_left np c) -> R c c' -> nc = true -> all_left np c'.
Proof. intros Ha HR Hn. apply (rc_left _ _ _ HR). by apply Ha. Qed.

Lemma wp_recv_loop {A} ws (k : _ -> prog _ _ A) Q fuel : forall it h c,
  inv c -> ready h ws c ->
  (forall c', inv c' -> ready h ws c' -> wp inv R G (k None) Q c') ->
  (forall h' v c', inv c' -> ready h' (ws ++ [v]) c' -> wp inv R G (k (Some (h', Ok v))) Q c') ->
  (forall c', inv c' -> ready h ws c' -> drained c' -> wp inv R G (k (Some (h, Err tt))) Q c') ->
  wp inv R G (bind (recv_loop fuel it h) k) Q c.
Proof.
  induction fuel as [|fuel IH]; intros it h c HI Hr Hn Hok Herr; [by apply Hn|].
  cbn [recv_loop]. apply wp_bind_assoc, (wp_is_published h ws); [done|done|].
  intros c1 H1 HI1 Hr1. destruct (filled (tk c1) (head (tk c1))) eqn:Hf.
  { by apply wp_bind_assoc, (wp_read_next h ws). }
  apply wp_bind_assoc, wp_load; [exact _|]. intros c2 H2 HI2.
  pose proof (mpsc_reading_rely _ _ _ _ _ _ Hr1 H2) as Hr2.
  destruct (closed c2.1) eqn:Hcl; [|by apply IH].
  pose proof (fun Hc => i_closed _ _ _ _ HI2 Hc Hcl) as Ha.
  apply wp_bind_assoc, (wp_is_published h ws); [done|done|]. intros c3 H3 HI3 Hr3.
  destruct (filled (tk c3) (head (tk c3))) eqn:Hf3; [by apply IH|].
  apply Herr; [done|done|]. apply drained_end; [done| |done]. by eapply all_left_rely.
Qed.

Lemma wp_no_event {A B} h ws (k : Result B TryRecvError -> prog _ _ A) Q c :
  inv c -> ready h ws c ->
  (forall e c', inv c' -> ready h ws c' -> wp inv R G (k (Err e)) Q c') ->
  wp inv R G (bind no_event k) Q c.
Proof.
  intros HI Hr Hk. apply wp_bind_assoc, wp_load; [exact _|]. intros c1 H1 HI1.
  apply Hk; [done|]. by eapply mpsc_reading_rely.
Qed.

Lemma wp_try_recv {A} h ws (k : _ -> prog _ _ A) Q c :
  inv c -> ready h ws c ->
  (forall h' v c', inv c' -> ready h' (ws ++ [v]) c' -> wp inv R G (k (h', Ok v)) Q c') ->
  (forall e c', inv c' -> ready h ws c' -> wp inv R G (k (h, Err e)) Q c') ->
  wp inv R G (bind (try_recv h) k) Q c.
Proof.
  intros HI Hr Hok Herr. apply wp_bind_assoc, (wp_is_published h ws); [done|done|].
  intros c1 H1 HI1 Hr1. destruct (filled (tk c1) (head (tk c1))) eqn:Hf.
  - by apply wp_bind_assoc, (wp_read_next h ws).
  - by apply wp_bind_assoc, (wp_no_event h ws).
Qed.

Lemma wp_peek {A} h ws (k : _ -> prog _ _ A) Q c :
  inv c -> ready h ws c ->
  (forall r c', inv c' -> ready h ws c' -> wp inv R G (k r) Q c') ->
  wp inv R G (bind (peek h) k) Q c.
Proof.
  intros HI Hr Hk. apply wp_bind_assoc, (wp_is_published h ws); [done|done|].
  intros c1 H1 HI1 Hr1. destruct (filled (tk c1) (head (tk c1))) eqn:Hf.
  - apply wp_bind_assoc, (mwp_buf_get h ws []); [done|done|simpl; lia| |].
    { intros q Hq Hlt. rewrite (r_next _ _ _ _ _ Hr1) in Hlt.
      assert (q = head (tk c1)) as -> by lia. done. }
    intros v c2 HI2 [] _. apply (Hk (Ok v)); [done|]. by split.
  - apply (wp_no_event h ws); [done|done|]. intros e c2 HI2 Hr2. by apply Hk.
Qed.

Lemma wp_pending {A} h ws scan (k : _ -> prog _ _ A) Q c :
  inv c -> ready h ws c ->
  (forall r c', inv c' -> ready h ws c' -> wp inv R G (k r) Q c') ->
  wp inv R G (bind (pending scan h) k) Q c.
Proof.
  intros HI Hr Hk. apply wp_bind_assoc, (wp_highest_published h ws); [done|done|].
  intros r c1 HI1 Hr1 _. by apply Hk.
Qed.

Lemma wp_consumer_close {A} h ws (k : unit -> prog _ _ A) Q c :
  inv c -> ready h ws c -> nc = false ->
  (forall c', inv c' -> ready h ws c' -> wp inv R G (k tt) Q c') ->
  wp inv R G (bind close k) Q c.
Proof.
  intros HI Hr Hn Hk. apply wp_act. intros [s tr] HR HI1. unfold apply_upd. simpl. rewrite app_nil_r.
  assert (HI2 : inv (set_closed s, tr)) by (apply mpsc_inv_close; [done|by rewrite Hn]).
  split; [done|]. split.
  - intros w. by split.
  - apply Hk; [done|]. by destruct (mpsc_reading_rely _ _ _ _ _ _ Hr HR).
Qed.

(** *** Batches *)

Lemma mwp_read_range {A} h ws n : forall vs lo (k : list T -> prog _ _ A) Q c,
  inv c -> reading h ws vs (length vs) c -> lo = next_sequence h + Z.of_nat (length vs) ->
  avail (lo + Z.of_nat n) c ->
  (forall us c', length us = n -> inv c' -> reading h ws (vs ++ us) (length (vs ++ us)) c' ->
     wp inv R G (k us) Q c') ->
  wp inv R G (bind (read_range lo n) k) Q c.
Proof.
  induction n as [|n IH]; intros vs lo k Q c HI Hr Hlo Ha Hk.
  { apply (Hk []); [done|done|]. by rewrite app_nil_r. }
  cbn [read_range]. apply wp_bind_assoc, (mwp_buf_read h ws vs); [done|done|done| |].
  { intros q Hq Hlt. apply Ha; [done|lia]. }
  intros v c1 HI1 Hr1 Hav. apply wp_bind_assoc, (IH (vs ++ [v])); [done|done| | |].
  - rewrite length_app. simpl. lia.
  - apply Hav. by replace (lo + 1 + Z.of_nat n) with (lo + Z.of_nat (S n)) by lia.
  - intros us c2 Hlen HI2 Hr2. rewrite <- app_assoc in Hr2. apply (Hk (v :: us)); [simpl; lia|done|done].
Qed.

Lemma mwp_poll_range {A} h ws n : forall vs lo (k : _ -> prog _ _ A) Q c,
  inv c -> reading h ws vs 0 c -> lo = next_sequence h + Z.of_nat (length vs) ->
  avail (lo + Z.of_nat n) c ->
  (forall us c', length us = n -> inv c' -> reading h ws (vs ++ ((fun x => x.1.1) <$> us)) 0 c' ->
     wp inv R G (k us) Q c') ->
  wp inv R G (bind (poll_range lo n) k) Q c.
Proof.
  induction n as [|n IH]; intros vs lo k Q c HI Hr Hlo Ha Hk.
  { apply (Hk []); [done|done|]. simpl. by rewrite app_nil_r. }
  cbn [poll_range]. apply wp_bind_assoc, (mwp_buf_get h ws vs); [done|done|done| |].
  { intros q Hq Hlt. apply Ha; [done|lia]. }
  intros v c1 HI1 Hr1 Hav. apply wp_bind_assoc, (IH (vs ++ [v])); [done|done| | |].
  - rewrite length_app. simpl. lia.
  - apply Hav. by replace (lo + 1 + Z.of_nat n) with (lo + Z.of_nat (S n)) by lia.
  - intros us c2 Hlen HI2 Hr2. rewrite <- app_assoc in Hr2.
    apply (Hk ((v, lo, bool_decide (n = 0%nat)) :: us)); [simpl; lia|done|done].
Qed.

(** The end of a batch: one store for the whole of it. *)
Lemma wp_consume_batch {A} h ws us m count (k : unit -> prog _ _ A) Q c :
  inv c -> reading h ws us m c -> (m <= length us)%nat -> 0 < count -> length us = Z.to_nat count ->
  (forall c', inv c' -> ready {| next_sequence := next_sequence h + count |} (ws ++ us) c' ->
     wp inv R G (k tt) Q c') ->
  wp inv R G (bind (consume_cursor (next_sequence h + count - 1)) k) Q c.
Proof.
  intros HI Hr Hm Hc Hlen Hk. assert (He : Z.of_nat (length us) = count) by lia.
  rewrite <- He in *. apply (mwp_consume h ws us m); [done|done| |done|done|done].
  intros ->. simpl in Hc. lia.
Qed.

Lemma mwp_take_events {A} h ws count (k : _ -> prog _ _ A) Q c :
  inv c -> ready h ws c -> 0 < count -> avail (next_sequence h + count) c ->
  (forall h' us c', inv c' -> ready h' (ws ++ us) c' -> wp inv R G (k (h', us)) Q c') ->
  wp inv R G (bind (take_events h count) k) Q c.
Proof.
  intros HI Hr Hc Ha Hk. apply wp_bind_assoc, (mwp_read_range h ws _ []); [done|done|simpl; lia| |].
  { by rewrite Z2Nat.id by lia. }
  intros us c1 Hlen HI1 Hr1. apply wp_bind_assoc, (wp_consume_batch h ws us (length us)); [done..|].
  intros c2 HI2 Hr2. by apply Hk.
Qed.

Lemma mwp_batch {A} h ws hi len (k : _ -> prog _ _ A) Q c :
  inv c -> ready h ws c -> next_sequence h <= hi -> 0 < len -> avail (hi + 1) c ->
  (forall h' us c', inv c' -> ready h' (ws ++ us) c' -> wp inv R G (k (h', us)) Q c') ->
  wp inv R G (bind (take_events h (Z.min (hi - next_sequence h + 1) len)) k) Q c.
Proof.
  intros HI Hr Hle Hlen Ha Hk. apply (mwp_take_events h ws); [done|done|lia| |done].
  intros q Hq Hlt. apply Ha; [done|lia].
Qed.

Lemma ready_nil h ws c : ready h ws c -> ready h (ws ++ []) c.
Proof. by rewrite app_nil_r. Qed.

Lemma wp_recv_batch {A} h ws fuel scan len (k : _ -> prog _ _ A) Q c :
  inv c -> ready h ws c -> 0 <= len ->
  (forall c', inv c' -> ready h ws c' -> wp inv R G (k None) Q c') ->
  (forall h' us c', inv c' -> ready h' (ws ++ us) c' -> wp inv R G (k (Some (h', Ok us))) Q c') ->
  (forall c', inv c' -> ready h ws c' -> wp inv R G (k (Some (h, Err tt))) Q c') ->
  wp inv R G (bind (recv_batch fuel scan h len) k) Q c.
Proof.
  intros HI Hr Hlen Hn Hok Herr. unfold recv_batch. destruct (Z.eqb_spec len 0) as [|Hne].
  { apply Hok; [done|]. by apply ready_nil. }
  generalize 0 as it. revert c HI Hr. induction fuel as [|fuel IH]; intros c HI Hr it; [by apply Hn|].
  cbn [recv_batch_loop]. apply wp_bind_assoc, (wp_highest_published h ws); [done|done|].
  intros [hi|] c1 HI1 Hr1 Hhi; [|by apply Hn]. destruct (Hhi hi eq_refl) as [Hge Ha].
  destruct (Z.leb_spec (next_sequence h) hi) as [Hle|Hgt].
  - apply wp_bind_assoc, (mwp_batch h ws); [done|done|done|lia|done|]. intros. by apply Hok.
  - apply wp_bind_assoc, wp_load; [exact _|]. intros c2 H2 HI2.
    pose proof (mpsc_reading_rely _ _ _ _ _ _ Hr1 H2) as Hr2.
    destruct (closed c2.1); [by apply Herr|by apply IH].
Qed.

Lemma wp_try_recv_batch {A} h ws scan len (k : _ -> prog _ _ A) Q c :
  inv c -> ready h ws c -> 0 <= len ->
  (forall c', inv c' -> ready h ws c' -> wp inv R G (k None) Q c') ->
  (forall h' us c', inv c' -> ready h' (ws ++ us) c' -> wp inv R G (k (Some (h', Ok us))) Q c') ->
  (forall e c', inv c' -> ready h ws c' -> wp inv R G (k (Some (h, Err e))) Q c') ->
  wp inv R G (bind (try_recv_batch scan h len) k) Q c.
Proof.
  intros HI Hr Hlen Hn Hok Herr. unfold try_recv_batch. destruct (Z.eqb_spec len 0) as [|Hne].
  { apply Hok; [done|]. by apply ready_nil. }
  apply wp_bind_assoc, (wp_highest_published h ws); [done|done|].
  intros [hi|] c1 HI1 Hr1 Hhi; [|by apply Hn]. destruct (Hhi hi eq_refl) as [Hge Ha].
  destruct (Z.ltb_spec hi (next_sequence h)) as [Hlt|Hle].
  - apply wp_bind_assoc, (wp_no_event h ws); [done|done|]. intros. by apply Herr.
  - apply wp_bind_assoc, (mwp_batch h ws); [done|done|done|lia|done|]. intros. by apply Hok.
Qed.

Lemma wp_poll {A} h ws scan (k : _ -> prog _ _ A) Q c :
  inv c -> ready h ws c ->
  (forall c', inv c' -> ready h ws c' -> wp inv R G (k None) Q c') ->
  (forall h' us c', inv c' -> ready h' (ws ++ ((fun x => x.1.1) <$> us)) c' ->
     wp inv R G (k (Some (h', us))) Q c') ->
  wp inv R G (bind (poll scan h) k) Q c.
Proof.
  intros HI Hr Hn Hok. apply wp_bind_assoc, (wp_highest_published h ws); [done|done|].
  intros [hi|] c1 HI1 Hr1 Hhi; [|by apply Hn]. destruct (Hhi hi eq_refl) as [Hge Ha].
  destruct (Z.ltb_spec hi (next_sequence h)) as [Hlt|Hle].
  { apply Hok; [done|]. by apply ready_nil. }
  apply wp_bind_assoc, (mwp_poll_range h ws _ []); [done|done|simpl; lia| |].
  { rewrite Z2Nat.id by lia. by replace (next_sequence h + _) with (hi + 1) by lia. }
  intros us c2 Hlen HI2 Hr2.
  apply wp_bind_assoc, (wp_consume_batch h ws ((fun x => x.1.1) <$> us) 0); [done|done|lia|lia| |].
  { by rewrite length_fmap. }
  intros c3 HI3 Hr3. by apply Hok.
Qed.

(** *** The client *)

Definition consumer_post (r : list T * bool) c : Prop :=
  (taken (tk c)).*2 = r.1 /\ (r.2 = true -> drained c).

Lemma ready_post h ws c : ready h ws c -> wp inv R G (Ret (ws, false)) consumer_post c.
Proof.
  intros Hr. apply wp_ret. intros c' HR HI. split; [|done].
  by apply (mpsc_reading_rely _ _ _ _ _ _ Hr HR).
Qed.

Lemma mwp_consumer_client fuel scan ops : Forall (consumer_op_ok nc) ops -> forall h ws c,
  inv c -> ready h ws c -> wp inv R G (consumer_client fuel scan h ops ws) consumer_post c.
Proof.
  induction 1 as [|op ops Hop Hops IH]; intros h ws c HI Hr; cbn [consumer_client].
  - by eapply ready_post.
  - destruct op; simpl in Hop.
    + apply (wp_recv_loop ws); [done|done| |eauto|].
      * intros c1 _ Hr1. by eapply ready_post.
      * intros c1 HI1 Hr1 Hd. apply wp_ret. intros c2 H2 HI2.
        split; [by apply (mpsc_reading_rely _ _ _ _ _ _ Hr1 H2)|]. intros _. by eapply drained_rely.
    + apply (wp_try_recv h ws); eauto.
    + apply (wp_peek h ws); eauto.
    + apply (wp_pending h ws); eauto.
    + apply (wp_recv_batch h ws); eauto using ready_post.
    + apply (wp_try_recv_batch h ws); eauto using ready_post.
    + apply (wp_poll h ws); eauto using ready_post.
    + apply (wp_consumer_close h ws); eauto.
Qed.

End consumer.
