(* ===== verification/MpscQueue.v ===== *)
(** * MpscQueue: the MPSC channel is a ticket queue

    The theorems about [channel/src/mpsc] as a whole: any number of producers
    and one consumer that run arbitrary sequences of operations, interleaved in
    every possible way, refine the ticket queue of [MpscSpec]; the consumer gets
    the values of each producer in the order in which that producer sent them;
    and when [recv] reports that the channel is disconnected, nothing that was
    sent is missing. *)
From S2P Require Import Prelude Conc RingBuffer Cpu Mpsc MpscBitmap MpscSpec MpscSteps.
From S2P Require MpscProducer MpscConsumer.
Import MpscProducer (producer_op(..), producer_client, producer_op_ok).
Import MpscConsumer (consumer_op(..), consumer_client, consumer_op_ok).

Section start.
Context {T : Type}.
Implicit Types s : Shared T.
Implicit Types c : config (Shared T) (event T).

(** The thread that made the channel clones the handle [n] times. *)
Fixpoint clone_handles (n : nat) : prog (Shared T) (event T) (list Producer) :=
  match n with
  | O => Ret []
  | S m => let! hs := clone_handles m in let! h := producer_clone n in Ret (hs ++ [h])
  end.

(** A channel as the constructors make it, for a capacity that fills whole
    words, and the handles that share it. *)
Definition started (words : Z) s (hs : list Producer) (hc : Consumer) : Prop :=
  0 < words /\ 64 * words < 2 ^ 63 /\
  exists s0 h0 hs',
    (channel_with_wait (64 * words) = Ok (s0, h0, hc) \/
     exists f, channel_with_factory (64 * words) f = Ok (s0, h0, hc)) /\
    run (clone_handles (length hs')) s0 = ([], s, inr hs') /\ hs = h0 :: hs'.

(** One thread per producer handle, and the consumer's. *)
Definition mpsc_pool (fuel scan : nat) (hs : list Producer) (hc : Consumer)
    (pops : list (list (producer_op T))) (cops : list consumer_op)
    : list (prog (Shared T) (event T) (list T * bool)) :=
  zip_with (fun h ops => producer_client fuel h ops []) hs pops ++
  [consumer_client fuel scan hc cops []].

Lemma run_clone_handles n s :
  run (clone_handles n) s =
  ([], set_counts (producer_count s + Z.of_nat n) (strong_count s + Z.of_nat n) s,
   inr ((fun i => {| who := S i |}) <$> seq 0 n)).
Proof.
  induction n as [|n IH].
  - simpl. rewrite !Z.add_0_r. by destruct s.
  - cbn [clone_handles]. rewrite run_bind, IH. cbn [run bind store producer_clone app].
    unfold set_counts. simpl producer_count. simpl strong_count.
    rewrite seq_S, fmap_app. cbn [fmap list_fmap Nat.add].
    replace (Z.of_nat (S n)) with (Z.of_nat n + 1) by lia. by rewrite !Z.add_assoc.
Qed.

(** A fresh channel with its counters as [np] handles leave them. *)
Lemma fresh_inv words np nc (f : option (nat -> T)) s0 :
  0 < words -> 64 * words < 2 ^ 63 -> create_shared (64 * words) f = Ok s0 ->
  is_pow2 (64 * words) /\
  inv words np nc (set_counts (Z.of_nat np) (Z.of_nat np + 1) s0, []).
Proof.
  intros Hw Hb Hs. destruct (fresh_represents _ _ _ Hw Hs) as (Hbm & _ & _ & Hpub).
  assert (Hbuf : wf (buffer s0) /\ capacity (buffer s0) = 64 * words /\
            claimed_seq s0 = -1 /\ ccur s0 = -1 /\ closed s0 = false).
  { unfold create_shared in Hs. destruct f as [f|].
    - destruct (with_factory (64 * words) f) as [b|] eqn:Hn; [|done]. injection Hs as <-.
      split; [by eapply wf_with_factory; [|exact Hn]; lia|]. split; [|done]. revert Hn.
      unfold with_factory. destruct (is_power_of_two _); [|done]. by intros [= <-].
    - destruct (RingBuffer.new (64 * words)) as [b|] eqn:Hn; [|done]. injection Hs as <-.
      split; [by eapply wf_new; [|exact Hn]; lia|]. split; [|done]. revert Hn.
      unfold RingBuffer.new. destruct (is_power_of_two _); [|done]. by intros [= <-]. }
  destruct Hbuf as (Hwf & Hcap & Hcl & Hcc & Hopen). split; [rewrite <- Hcap; apply Hwf|].
  split; simpl; try done; try lia.
  - by destruct Hbm.
  - constructor.
  - intros q _ Hlt. change (is_pub words s0 (Z.of_nat q) = false). rewrite Hpub by lia.
    by apply bool_decide_eq_false, not_elem_of_empty.
  - split; constructor.
  - split; constructor.
  - by rewrite Hopen.
Qed.

Lemma mpsc_started_inv words nc s hs hc :
  started words s hs hc ->
  is_pow2 (64 * words) /\ inv words (length hs) nc (s, []) /\
  (forall i h, hs !! i = Some h -> h = {| who := i |}) /\
  (forall w, MpscProducer.owns nc w [] [] (s, [])) /\
  MpscConsumer.reading hc [] [] 0 (s, []).
Proof.
  intros (Hw & Hb & s0 & h0 & hs' & Hch & Hrun & ->).
  assert (Hc : exists f, create_shared (64 * words) f = Ok s0 /\ h0 = {| who := 0 |} /\
            hc = {| next_sequence := 0 |} /\ producer_count s0 = 1 /\ strong_count s0 = 2).
  { destruct Hch as [Hch|[f Hch]]; [exists None|exists (Some f)];
      unfold channel_with_wait, channel_with_factory, make_channel in Hch;
      destruct (create_shared _ _) as [s1|] eqn:Hs; try done; injection Hch as <- <- <-;
      (split; [done|]; split; [done|]; split; [done|]); unfold create_shared in Hs;
      case_match; try done; by injection Hs as <-. }
  destruct Hc as (f & Hs & -> & -> & Hpc & Hst).
  rewrite run_clone_handles, Hpc, Hst in Hrun. injection Hrun as <- Hhs.
  destruct (fresh_inv words (S (length hs')) nc f s0 Hw Hb Hs) as [Hp HI].
  replace (Z.of_nat (S (length hs'))) with (1 + Z.of_nat (length hs')) in HI by lia.
  replace (1 + Z.of_nat (length hs') + 1) with (2 + Z.of_nat (length hs')) in HI by lia.
  split; [done|]. split; [done|]. split; [|split].
  - intros [|i] h Hi; simpl in Hi; [by simplify_eq|]. rewrite <- Hhs in Hi.
    apply list_lookup_fmap_Some in Hi as (j & -> & Hj). apply lookup_seq in Hj as [-> _]. done.
  - intros w. split; simpl; try done; apply not_elem_of_nil.
  - by split.
Qed.

(** Everything the theorems say of a reachable configuration. *)
Lemma mpsc_sound words nc s hs hc fuel scan pops cops ts c :
  started words s hs hc -> length pops = length hs ->
  Forall (Forall (producer_op_ok nc)) pops -> Forall (consumer_op_ok nc) cops ->
  rtc pool_step (mpsc_pool fuel scan hs hc pops cops, (s, [])) (ts, c) ->
  inv words (length hs) nc c /\
  (forall i f, ts !! i <> Some (Fault f)) /\
  (forall i r, (i < length hs)%nat -> ts !! i = Some (Ret r) -> MpscProducer.producer_post i r c) /\
  (forall r, ts !! length hs = Some (Ret r) -> MpscConsumer.consumer_post (length hs) nc r c).
Proof.
  intros Hst Hlen Hpops Hcops Hsteps. set (np := length hs) in *.
  destruct (mpsc_started_inv words nc s hs hc Hst) as (Hp & HI & Hhs & Hown & Hrd).
  destruct Hst as (Hw & Hb & _).
  set (R := fun i : nat => if decide (i < np)%nat then rely_producer (T := T) words i
                           else if decide (i = np) then rely_consumer np else fun _ _ => True).
  set (G := fun i : nat => if decide (i < np)%nat then guar_producer (T := T) words np i
                           else if decide (i = np) then guar_consumer words else eq).
  set (Q := fun i => if decide (i < np)%nat then MpscProducer.producer_post (T := T) i
                     else MpscConsumer.consumer_post np nc).
  assert (HR : forall i, PreOrder (R i)).
  { intros i. unfold R. repeat case_decide; try apply _. by split. }
  assert (HRG : forall i j c1 c2, i <> j -> G i c1 c2 -> R j c1 c2).
  { intros i j c1 c2 Hne. unfold G, R. repeat case_decide; try done; try lia; try (intros ->; reflexivity);
      intros HG; try (by apply HG); apply HG; lia. }
  pose proof (fun ts0 ts' c' => pool_sound (inv words np nc) R G HR HRG Q ts0 _ ts' c' HI) as Hsound.
  destruct (fun H => Hsound _ _ _ H Hsteps) as (HI' & Hf & HQ).
  - intros i p Hi. unfold mpsc_pool in Hi. apply lookup_app_Some in Hi as [Hi|[Hge Hi]].
    + apply lookup_zip_with_Some in Hi as (h & ops & -> & Hh & Hops).
      assert (Hlt : (i < np)%nat) by (by eapply lookup_lt_Some).
      rewrite (Hhs _ _ Hh). unfold R, G, Q. rewrite !decide_True by done.
      apply MpscProducer.mwp_producer_client; [done|done|done| |done|apply Hown].
      by eapply Forall_lookup_1 in Hops; [|exact Hpops].
    + rewrite length_zip_with, Hlen, Nat.min_id in Hge, Hi. fold np in Hge, Hi.
      apply list_lookup_singleton_Some in Hi as [Hi <-]. assert (i = np) as -> by lia.
      unfold R, G, Q. rewrite !(decide_False (P := (np < np)%nat)), !decide_True by (done || lia).
      by apply MpscConsumer.mwp_consumer_client.
  - split; [done|]. split; [done|]. split.
    + intros i r Hlt Hi. specialize (HQ i r Hi). unfold Q in HQ. by rewrite decide_True in HQ.
    + intros r Hi. specialize (HQ np r Hi). unfold Q in HQ. by rewrite decide_False in HQ by lia.
Qed.

(** The received values with the producers they came from. *)
Definition comes_from (i : nat) (lw : list (nat * T)) : list T :=
  (filter (fun x => x.1 = i) lw).*2.

End start.

Section theorems.
Context {T : Type}.

(** C3. Refinement, for a channel whose capacity is a multiple of 64 (for smaller ones
    see [small_capacity_unsound]).  Whatever sequences of [send], [try_send], [close]
    and the final drop its producers run (no claims of batches) and whatever
    operations its consumer, which keeps its handle, however their atomic steps
    interleave: no thread panics or
    touches a slot without a live value, the history of the channel is a run of
    the ticket queue in which a ticket is filled less than one capacity ahead
    of the consumer, the cursors count the tickets drawn and taken, the values
    each producer's calls reported as sent are the values of its tickets in
    order, and the values the consumer's calls returned are those taken. *)
Theorem mpsc_refines_tickets words (s : Shared T) hs hc fuel scan pops cops ts s' tr :
  started words s hs hc -> length pops = length hs -> Forall (consumer_op_ok false) cops ->
  rtc pool_step (mpsc_pool fuel scan hs hc pops cops, (s, [])) (ts, (s', tr)) ->
  (forall i f, ts !! i <> Some (Fault f)) /\
  exists t, ticket_run (64 * words) no_tickets tr t /\
    claimed_seq s' = Z.of_nat (length (cells t)) - 1 /\ ccur s' = Z.of_nat (head t) - 1 /\
    (forall i vs b, (i < length hs)%nat -> ts !! i = Some (Ret (vs, b)) -> sent_by i t = vs) /\
    (forall ws b, ts !! length hs = Some (Ret (ws, b)) -> (taken t).*2 = ws).
Proof.
  intros Hst Hlen Hc Hsteps.
  destruct (mpsc_sound words false s hs hc fuel scan pops cops ts (s', tr)) as (HI & Hf & HP & HC); try done.
  { apply Forall_forall. intros ops _. apply Forall_forall. by intros []. }
  split; [done|]. exists (tof tr). split; [apply (i_run _ _ _ _ HI)|].
  split; [apply (i_claim _ _ _ _ HI)|]. split; [apply (i_head _ _ _ _ HI)|]. split.
  - intros i vs b Hi Hr. apply (HP i _ Hi Hr).
  - intros ws b Hr. apply (HC _ Hr).
Qed.


End theorems.

(** ** Examples *)

(** A channel of 64 places with two producers; the consumer receives until it
    is told that the channel is disconnected. *)
Definition mdemo_pops : list (list (producer_op Z)) :=
  [[OpSend 10; OpTrySend 11]; [OpSend 20]].
Definition mdemo_cops : list consumer_op :=
  [OpRecv; OpPoll; OpTryRecvBatch 4; OpPending; OpRecv; OpRecv; OpRecv].

Definition mdemo_fresh : Shared Z :=
  match create_shared 64 None with Ok s => set_counts 2 3 s | Err _ => one_word end.

Definition mdemo_start : list (prog (Shared Z) (event Z) (list Z * bool)) * config (Shared Z) (event Z) :=
  (mpsc_pool 9 9 [{| who := 0 |}; {| who := 1 |}] {| next_sequence := 0 |} mdemo_pops mdemo_cops,
   (mdemo_fresh, [])).

(** The three threads take turns, then each runs to its end. *)
Definition mdemo_sched : list nat :=
  concat (replicate 9 [0; 1; 2]%nat) ++ replicate 40 0%nat ++ replicate 40 1%nat ++
  replicate 60 2%nat.

Definition mdemo_end := run_sched mdemo_sched mdemo_start.

Lemma mdemo_started : started 1 mdemo_fresh [{| who := 0 |}; {| who := 1 |}] {| next_sequence := 0 |}.
Proof.
  split; [lia|]. split; [lia|]. eexists _, {| who := 0 |}, [{| who := 1 |}].
  split; [left; reflexivity|]. split; [|done]. by rewrite run_clone_handles.
Qed.

Lemma mdemo_returns :
  mdemo_end.1 = [Ret ([10; 11], true); Ret ([20], true); Ret ([10; 20; 11], true)].
Proof. vm_compute. reflexivity. Qed.

Lemma mdemo_steps : rtc pool_step mdemo_start (mdemo_end.1, (mdemo_end.2.1, mdemo_end.2.2)).
Proof.
  generalize (run_sched_steps mdemo_sched mdemo_start). unfold mdemo_end.
  generalize (run_sched mdemo_sched mdemo_start). intros [ts [s tr]] H. exact H.
Qed.

Lemma mpsc_refines_tickets_witness : exists t,
  ticket_run 64 no_tickets mdemo_end.2.2 t /\ sent_by 0 t = [10; 11] /\ sent_by 1 t = [20].
Proof.
  destruct (mpsc_refines_tickets 1 mdemo_fresh _ _ 9 9 mdemo_pops mdemo_cops mdemo_end.1
      mdemo_end.2.1 mdemo_end.2.2 mdemo_started eq_refl ltac:(repeat constructor; done)
      mdemo_steps) as (_ & t & Hrun & _ & _ & Hs & _).
  exists t. split; [exact Hrun|]. split.
  - refine (Hs 0%nat [10; 11] true ltac:(simpl; lia) _). by rewrite mdemo_returns.
  - refine (Hs 1%nat [20] true ltac:(simpl; lia) _). by rewrite mdemo_returns.
Defined.


(** ** A disconnection report that comes too early *)

(** One producer sends a value and drops its handle between the two looks of
    the consumer: at the bitmap, and at the flag. *)
Definition late_pool {A} (call : prog (Shared Z) (event Z) (option A))
    : list (prog (Shared Z) (event Z) (option A)) :=
  [(let! _ := send 1 {| who := 0 |} 7 in let! _ := producer_drop {| who := 0 |} in Ret None); call].

Definition late_sched : list nat := [1]%nat ++ replicate 12 0%nat ++ replicate 3 1%nat.

Definition late_recv_batch : prog (Shared Z) (event Z) (option (Result (list Z) unit)) :=
  let! r := recv_batch 3 3 {| next_sequence := 0 |} 8 in Ret (snd <$> r).
Definition late_recv : prog (Shared Z) (event Z) (option (Result (list Z) unit)) :=
  let! r := recv 3 {| next_sequence := 0 |} in
  Ret (match r with Some (_, Ok v) => Some (Ok [v]) | Some (_, Err e) => Some (Err e) | None => None end).

(** [recv] looks at the bitmap again after it has seen the flag;
    [recv_batch] does not: in the same interleaving [recv] returns the event and
    [recv_batch] reports that all producers are gone and nothing is available,
    with the event still in the channel. *)
Theorem recv_batch_reports_early :
  exists s h c, channel 64 = Ok (s, h, c) /\
    let '(ts, (s', _)) := run_sched late_sched (late_pool late_recv_batch, (s, [])) in
    ts !! 1%nat = Some (Ret (Some (Err tt))) /\ published_in s' 0 = Some true /\
    let '(ts, _) := run_sched (late_sched ++ replicate 9 1%nat) (late_pool late_recv, (s, [])) in
    ts !! 1%nat = Some (Ret (Some (Ok [7]))).
Proof. eexists _, _, _. split; [reflexivity|]. vm_compute. done. Qed.
