(* ===== verification/SeqLock.v ===== *)
(** * SeqLock: the sequence lock of the [sync] crate

    [sync/src/seqlock.rs].  The protected value is a sequence of machine words;
    the copies in and out of it are not atomic, one action per word, so a reader
    really can see a mixture of two values while a write is in progress.  The
    version is a [u64] that wraps around.  The closing increment of a write
    emits the value it completes, so the trace is the list of values written so
    far. *)
From S2P Require Import Prelude Conc Cpu.

Section model.
Context {W : Type}.

Record SeqLock : Type := { version : Z; data : list W }.

Abbreviation P := (prog SeqLock (list W)).

Definition new (value : list W) : SeqLock := {| version := 0; data := value |}.

Definition set_version (v : Z) (s : SeqLock) : SeqLock := {| version := v; data := data s |}.
Definition set_word (i : nat) (w : W) (s : SeqLock) : SeqLock :=
  {| version := version s; data := <[i := w]> (data s) |}.

(** [Version::load] *)
Definition version_load : P Z := load version.

(** [Version::increment]: a load and a store; [ev] are the events of the store. *)
Definition increment (ev : SeqLock -> list (list W)) : P unit :=
  let! v := load version in
  Act (fun s => (ev s, set_version (wrapping_add64 v 1) s)) (fun _ => Ret tt).

Definition begin_write : P unit := increment (fun _ => []).
Definition end_write : P unit := increment (fun s => [data s]).

(** [*self.data.get() = value], word by word. *)
Fixpoint store_words (i : nat) (ws : list W) : P unit :=
  match ws with
  | [] => Ret tt
  | w :: ws => store (set_word i w) ;;; store_words (Datatypes.S i) ws
  end.

Definition write (value : list W) : P unit :=
  begin_write ;;; store_words 0 value ;;; end_write.

(** The closure works in place through [&mut T]: it sees the data as it is and
    leaves it as [f] says, one word at a time. *)
Definition update (f : list W -> list W) : P unit :=
  begin_write ;;; let! d := load data in store_words 0 (f d) ;;; end_write.

(** [*self.data.get()] for a value of [n] words. *)
Definition load_word (i : nat) : P W :=
  Act (fun s => ([], s))
      (fun s => match data s !! i with
                | Some w => Ret w
                | None => Fault (UndefinedBehaviour "read outside the value")
                end).

Fixpoint load_words (i n : nat) : P (list W) :=
  match n with
  | O => Ret []
  | Datatypes.S n =>
      let! w := load_word i in
      let! ws := load_words (Datatypes.S i) n in
      Ret (w :: ws)
  end.

(** The closure of [try_read_with] is given the words as they were read. *)
Definition try_read_with {A} (n : nat) (f : list W -> A) : P (option A) :=
  let! v1 := version_load in
  if Z.land v1 1 =? 1 then Ret None
  else
    let! ws := load_words 0 n in
    let result := f ws in
    let! v2 := version_load in
    if v1 =? v2 then Ret (Some result) else Ret None.

Definition try_read (n : nat) : P (option (list W)) :=
  let! v1 := version_load in
  if Z.land v1 1 =? 1 then Ret None
  else
    let! value := load_words 0 n in
    let! v2 := version_load in
    if v1 =? v2 then Ret (Some value) else Ret None.

(** [None]: still spinning. *)
Fixpoint read (fuel n : nat) : P (option (list W)) :=
  match fuel with
  | O => Ret None
  | Datatypes.S fuel =>
      let! r := try_read n in
      match r with
      | Some value => Ret (Some value)
      | None => read fuel n
      end
  end.

Fixpoint read_with {A} (fuel n : nat) (f : list W -> A) : P (option A) :=
  match fuel with
  | O => Ret None
  | Datatypes.S fuel =>
      let! r := try_read_with n f in
      match r with
      | Some result => Ret (Some result)
      | None => read_with fuel n f
      end
  end.

(** ** Clients *)

Inductive write_op : Type :=
| OpWrite (value : list W)
| OpUpdate (f : list W -> list W).

(** One writer (the contract of the lock), any number of readers. *)
Fixpoint writer {B} (ops : list write_op) : P (list B) :=
  match ops with
  | [] => Ret []
  | OpWrite value :: ops => write value ;;; writer ops
  | OpUpdate f :: ops => update f ;;; writer ops
  end.

(** The four ways to read. *)
Inductive read_op {A : Type} : Type :=
| OpTryRead
| OpRead (fuel : nat)
| OpTryReadWith (f : list W -> A)
| OpReadWith (fuel : nat) (f : list W -> A).
Arguments read_op : clear implicits.

Inductive answer {A : Type} : Type := Value (d : list W) | Result_of (a : A).
Arguments answer : clear implicits.

(** What an operation should answer when the lock holds [d]. *)
Definition answer_of {A} (op : read_op A) (d : list W) : answer A :=
  match op with
  | OpTryRead | OpRead _ => Value d
  | OpTryReadWith f | OpReadWith _ f => Result_of (f d)
  end.

Definition read_once {A} (n : nat) (op : read_op A) : P (option (answer A)) :=
  match op with
  | OpTryRead => let! r := try_read n in Ret (Value <$> r)
  | OpRead fuel => let! r := read fuel n in Ret (Value <$> r)
  | OpTryReadWith f => let! r := try_read_with n f in Ret (Result_of <$> r)
  | OpReadWith fuel f => let! r := read_with fuel n f in Ret (Result_of <$> r)
  end.

(** A reader: operations one after the other; [None]: a try that failed, or a read
    that still spins. *)
Fixpoint reader {A} (n : nat) (ops : list (read_op A)) : P (list (option (answer A))) :=
  match ops with
  | [] => Ret []
  | op :: ops =>
      let! r := read_once n op in
      let! rs := reader n ops in
      Ret (r :: rs)
  end.

(** The values have [n] words. *)
Definition write_op_ok (n : nat) (op : write_op) : Prop :=
  match op with
  | OpWrite value => length value = n
  | OpUpdate f => forall d, length d = n -> length (f d) = n
  end.

(** ** Invariant *)

Context (n : nat) (d0 : list W).
Implicit Types c : config SeqLock (list W).

(** The value after the writes [tr]. *)
Definition current (tr : list (list W)) : list W := default d0 (last tr).

Definition writing (b : bool) c : Prop :=
  version c.1 = 2 * Z.of_nat (length c.2) + Z.b2z b /\ length (data c.1) = n /\
  (b = false -> data c.1 = current c.2).

Definition inv c : Prop := exists b, writing b c.

(** What the writer may do while somebody reads: the version only grows, and
    while it stays the same even number the data stays. *)
Record guar_writer c c' : Prop := {
  gw_version : version c.1 <= version c'.1;
  gw_data : version c'.1 = version c.1 -> Z.odd (version c.1) = false -> data c'.1 = data c.1;
  gw_trace : c.2 `prefix_of` c'.2;
}.

#[export] Instance guar_writer_preorder : PreOrder guar_writer.
Proof.
  split.
  - intros c. by split.
  - intros c1 c2 c3 [Hv12 Hd12 Ht12] [Hv23 Hd23 Ht23]. split; [lia| |by etrans].
    intros He Ho. assert (Hv2 : version c2.1 = version c1.1) by lia.
    rewrite Hd23, Hd12; [done|done|done|lia|by rewrite Hv2].
Qed.

(** ** The writer *)

Abbreviation WPw := (wp inv eq guar_writer).

Lemma wp_eq_load {A B} (get : SeqLock -> B) (k : B -> P A) Q c :
  inv c -> WPw (k (get c.1)) Q c -> WPw (bind (load get) k) Q c.
Proof. intros HI H. apply wp_load; [apply _|]. by intros c' <- _. Qed.

Lemma wp_eq_act {A} upd (k : SeqLock -> P A) Q c :
  inv (apply_upd upd c) -> guar_writer c (apply_upd upd c) ->
  WPw (k c.1) Q (apply_upd upd c) -> WPw (Act upd k) Q c.
Proof. intros HI HG H. apply wp_act. by intros c' <- _. Qed.

Lemma wp_begin_write {A} (k : unit -> P A) Q c :
  writing false c -> 2 * Z.of_nat (length c.2) + 2 < U64 ->
  (forall s', data s' = data c.1 -> writing true (s', c.2) -> WPw (k tt) Q (s', c.2)) ->
  WPw (bind begin_write k) Q c.
Proof.
  intros (Hv & Hl & Hd) Hb Hk. destruct c as [s tr]. simpl in Hv, Hl, Hd, Hb, Hk.
  unfold begin_write, increment. apply wp_bind_assoc. apply wp_eq_load; [by exists false|].
  assert (Hw : writing true (set_version (wrapping_add64 (version s) 1) s, tr)).
  { split; [|done]. simpl. unfold wrapping_add64. rewrite Z.mod_small; lia. }
  cbn [bind]. apply wp_eq_act; unfold apply_upd; simpl; rewrite app_nil_r.
  - by exists true.
  - destruct Hw as [Hv' _]. simpl in Hv'. split; simpl; [lia|lia|done].
  - by apply Hk.
Qed.

Lemma wp_end_write {A} (k : unit -> P A) Q c :
  writing true c -> 2 * Z.of_nat (length c.2) + 2 < U64 ->
  (forall s', writing false (s', c.2 ++ [data c.1]) -> WPw (k tt) Q (s', c.2 ++ [data c.1])) ->
  WPw (bind end_write k) Q c.
Proof.
  intros (Hv & Hl & Hd) Hb Hk. destruct c as [s tr]. simpl in Hv, Hl, Hd, Hb, Hk.
  unfold end_write, increment. apply wp_bind_assoc. apply wp_eq_load; [by exists true|].
  assert (Hw : writing false (set_version (wrapping_add64 (version s) 1) s, tr ++ [data s])).
  { split; [|split; [done|]]; simpl.
    - unfold wrapping_add64. rewrite length_app, Z.mod_small; simpl; lia.
    - intros _. unfold current. by rewrite last_snoc. }
  cbn [bind]. apply wp_eq_act; unfold apply_upd; simpl.
  - by exists false.
  - destruct Hw as [Hv' _]. simpl in Hv'. rewrite length_app in Hv'. simpl in Hv'.
    split; simpl; [lia|lia|by exists [data s]].
  - by apply Hk.
Qed.

Lemma wp_store_words {A} ws (k : unit -> P A) Q : forall i c,
  writing true c -> (i + length ws = n)%nat ->
  (forall s', writing true (s', c.2) -> WPw (k tt) Q (s', c.2)) ->
  WPw (bind (store_words i ws) k) Q c.
Proof.
  induction ws as [|w ws IH]; intros i c Hw Hi Hk.
  { destruct c as [s tr]. by apply Hk. }
  cbn [store_words]. apply wp_bind_assoc. destruct c as [s tr]. destruct Hw as (Hv & Hl & Hd).
  assert (Hw' : writing true (set_word i w s, tr)).
  { split; [done|]. split; [|done]. simpl in *. by rewrite length_insert. }
  apply wp_eq_act; unfold apply_upd; simpl; rewrite app_nil_r.
  - by exists true.
  - split; simpl; [lia| |done]. intros _ Ho. simpl in Hv.
    rewrite Hv, Z.odd_add, Z.odd_mul in Ho. done.
  - apply IH; [done|simpl in Hi; lia|done].
Qed.

Lemma wp_writer {B} ops : forall c,
  Forall (write_op_ok n) ops -> writing false c ->
  2 * Z.of_nat (length c.2 + length ops) < U64 ->
  WPw (writer (B := B) ops) (fun _ c' => length c'.2 = (length c.2 + length ops)%nat) c.
Proof.
  induction ops as [|op ops IH]; intros c Hops Hw Hb.
  { cbn [writer]. apply wp_ret. intros c' <- _. simpl. lia. }
  apply Forall_cons in Hops as [Hop Hops]. simpl in Hb.
  assert (Hrest : forall d s', writing false (s', c.2 ++ [d]) ->
    WPw (writer (B := B) ops) (fun _ c' => length c'.2 = (length c.2 + Datatypes.S (length ops))%nat)
      (s', c.2 ++ [d])).
  { intros d s' Hw'. eapply wp_mono_inv; [|apply IH; [done|done|]].
    - intros a c' _ Hlen. simpl in Hlen. rewrite length_app in Hlen. simpl in Hlen. lia.
    - simpl. rewrite length_app. simpl. lia. }
  destruct op as [value|f]; simpl in Hop; cbn [writer]; unfold write, update;
    apply wp_bind_assoc; apply wp_begin_write; try done; try lia; intros s1 Hd1 Hw1;
    apply wp_bind_assoc; cbn [fst snd].
  - apply wp_store_words; [done|by rewrite Hop|]. intros s2 Hw2.
    apply wp_end_write; [done|simpl; lia|]. intros s3 Hw3. by apply Hrest.
  - apply wp_eq_load; [by exists true|]. apply wp_bind_assoc.
    apply wp_store_words; [done| |].
    + simpl. apply Hop. by destruct Hw1 as (_ & ? & _).
    + intros s2 Hw2. apply wp_end_write; [done|simpl; lia|]. intros s3 Hw3. by apply Hrest.
Qed.

(** ** The readers *)

Abbreviation WPr := (wp inv guar_writer eq).

(** What the operations of a reader answered, oldest first: each answer is made
    from the value of the lock after some completed number of writes, and those
    numbers never decrease. *)
Inductive seen {A} (tr : list (list W)) : nat -> list (read_op A) -> list (option (answer A)) -> Prop :=
| seen_nil m : seen tr m [] []
| seen_some m k op ops rs :
    (m <= k <= length tr)%nat -> seen tr k ops rs ->
    seen tr m (op :: ops) (Some (answer_of op (current (take k tr))) :: rs)
| seen_none m op ops rs : seen tr m ops rs -> seen tr m (op :: ops) (None :: rs).

Lemma take_prefix (tr tr' : list (list W)) k :
  tr `prefix_of` tr' -> (k <= length tr)%nat -> take k tr' = take k tr.
Proof. intros [l ->] Hk. by rewrite take_app_le. Qed.

Lemma seen_prefix {A} tr tr' m (ops : list (read_op A)) rs : tr `prefix_of` tr' -> seen tr m ops rs -> seen tr' m ops rs.
Proof.
  intros Hp. induction 1 as [m|m k op ops rs Hk _ IH|m op ops rs _ IH]; [constructor| |by constructor].
  pose proof (prefix_length _ _ Hp). rewrite <- (take_prefix tr tr' k) by (done || lia).
  apply seen_some; [lia|done].
Qed.

(** A read in progress that started at version [v1] with the value [d]: either
    the version has moved on, or the words read so far are those of [d]. *)
Definition reading (v1 : Z) (d : list W) (m : nat) c : Prop :=
  (m <= length c.2)%nat /\ current (take m c.2) = d /\ Z.odd v1 = false /\ length d = n /\
  (v1 < version c.1 \/ (version c.1 = v1 /\ data c.1 = d)).

Lemma reading_rely v1 d m c c' : reading v1 d m c -> guar_writer c c' -> reading v1 d m c'.
Proof.
  intros (Hm & Hd & Ho & Hn & Hv) [Hv' Hd' Ht]. pose proof (prefix_length _ _ Ht).
  split; [lia|]. split; [by rewrite (take_prefix c.2)|]. split; [done|]. split; [done|].
  destruct Hv as [Hv|[Hv Hdc]]; [left; lia|].
  destruct (Z.eq_dec (version c'.1) v1) as [He|Hne]; [right|left; lia].
  split; [done|]. rewrite Hd'; [done|lia|by rewrite Hv].
Qed.

Lemma wp_load_words {A} v1 d m k (K : list W -> P A) Q : forall i c,
  inv c -> reading v1 d m c -> (i + k = n)%nat ->
  (forall ws c', inv c' -> version c.1 <= version c'.1 -> reading v1 d m c' ->
     (version c'.1 = v1 -> ws = drop i d) ->
     WPr (K ws) Q c') ->
  WPr (bind (load_words i k) K) Q c.
Proof.
  revert K. induction k as [|k IH]; intros K i c HI Hr Hi HK.
  { apply HK; [done|done|done|]. intros _. rewrite drop_ge; [done|].
    destruct Hr as (_ & _ & _ & Hn & _). lia. }
  cbn [load_words]. apply wp_bind_assoc. apply wp_act. intros [s tr] HR HI1.
  pose proof (reading_rely _ _ _ _ _ Hr HR) as Hr1.
  unfold apply_upd; simpl. rewrite app_nil_r. split; [done|]. split; [done|].
  destruct (lookup_lt_is_Some_2 (data s) i) as [w Hw].
  { destruct HI1 as (b & _ & Hl & _). simpl in Hl. lia. }
  rewrite Hw. cbn [bind]. apply wp_bind_assoc. apply IH; [done|done|lia|].
  intros ws c2 HI2 Hv2 Hr2 Hws. cbn [bind]. simpl in Hv2. pose proof (gw_version _ _ HR) as Hv1.
  apply HK; [done|simpl in Hv1; lia|done|]. intros He. rewrite Hws by done.
  destruct Hr1 as (_ & _ & _ & _ & [Hlt|[_ Hd]]); simpl in *; [lia|].
  rewrite Hd in Hw. symmetry. by apply drop_S.
Qed.

(** What a read that returns has seen. *)
Definition read_post {A} (f : list W -> A) (m : nat) (r : option A) c : Prop :=
  (m <= length c.2)%nat /\ forall a, r = Some a -> exists k, (m <= k <= length c.2)%nat /\ a = f (current (take k c.2)).

Lemma read_post_rely {A} (f : list W -> A) m r c c' : read_post f m r c -> guar_writer c c' -> read_post f m r c'.
Proof.
  intros [Hm Hr] HR. pose proof (gw_trace _ _ HR) as Ht. pose proof (prefix_length _ _ Ht). split; [lia|].
  intros a Ha. destruct (Hr a Ha) as (k & Hk & ->). exists k. split; [lia|]. by rewrite (take_prefix c.2 c'.2) by (done || lia).
Qed.

Lemma wp_try_read_with {A} (f : list W -> A) c m :
  inv c -> (m <= length c.2)%nat -> WPr (try_read_with n f) (read_post f m) c.
Proof.
  intros HI Hm. unfold try_read_with, version_load. apply wp_load; [apply _|]. intros c1 HR1 HI1.
  assert (Hm1 : (m <= length c1.2)%nat) by (pose proof (prefix_length _ _ (gw_trace _ _ HR1)); lia).
  rewrite land_1_eqb. destruct (Z.odd (version c1.1)) eqn:Ho.
  { apply wp_ret. intros c2 HR2 _. pose proof (prefix_length _ _ (gw_trace _ _ HR2)). split; [lia|done]. }
  destruct HI1 as (b & Hb). pose proof Hb as (Hv & Hl & Hd).
  assert (b = false) as ->.
  { rewrite Hv, Z.odd_add, Z.odd_mul in Ho. by destruct b. }
  specialize (Hd eq_refl).
  assert (Hr : reading (version c1.1) (data c1.1) (length c1.2) c1).
  { split; [done|]. split; [by rewrite take_ge, Hd|]. auto. }
  apply (wp_load_words (version c1.1) (data c1.1) (length c1.2)); [by exists false|done|lia|].
  intros ws c2 HI2 _ Hr2 Hws. apply wp_load; [apply _|]. intros c3 HR3 HI3.
  pose proof (reading_rely _ _ _ _ _ Hr2 HR3) as Hr3. pose proof (gw_version _ _ HR3).
  destruct (Z.eqb_spec (version c1.1) (version c3.1)) as [He|];
    apply wp_ret; intros c4 HR4 HI4; pose proof (reading_rely _ _ _ _ _ Hr3 HR4) as (Hk & Hcur & _);
    (split; [lia|]); [|done].
  intros a [= <-]. exists (length c1.2). split; [lia|]. rewrite Hcur, Hws; [done|].
  destruct Hr2 as (_ & _ & _ & _ & [|[]]); lia.
Qed.

(** Trying again after a failure. *)
Lemma wp_retry {A} (f : list W -> A) p loop c m :
  inv c -> (m <= length c.2)%nat -> WPr p (read_post f m) c ->
  (forall c1, inv c1 -> (m <= length c1.2)%nat -> WPr loop (read_post f m) c1) ->
  WPr (bind p (fun r => match r with Some a => Ret (Some a) | None => loop end)) (read_post f m) c.
Proof.
  intros HI Hm Hp Hloop. apply wp_bind; [apply _|done|]. eapply wp_mono_inv; [|exact Hp].
  intros [a|] c1 HI1 Hr; [|apply Hloop; [done|apply Hr]].
  apply wp_ret. intros c2 HR2 _. by eapply read_post_rely.
Qed.

Lemma wp_read_with {A} fuel (f : list W -> A) : forall c m,
  inv c -> (m <= length c.2)%nat -> WPr (read_with fuel n f) (read_post f m) c.
Proof.
  induction fuel as [|fuel IH]; intros c m HI Hm; cbn [read_with].
  { apply wp_ret. intros c1 HR1 _. by apply (read_post_rely f m None c); [split|]. }
  apply wp_retry; [done|done|by apply wp_try_read_with|]. auto.
Qed.

(** Reading a copy is reading with the identity. *)
Lemma wp_read fuel : forall c m,
  inv c -> (m <= length c.2)%nat -> WPr (read fuel n) (read_post id m) c.
Proof.
  induction fuel as [|fuel IH]; intros c m HI Hm; cbn [read].
  { apply wp_ret. intros c1 HR1 _. by apply (read_post_rely id m None c); [split|]. }
  apply wp_retry; [done|done|by apply (wp_try_read_with id)|]. auto.
Qed.

Lemma wp_read_once {A} (op : read_op A) c m :
  inv c -> (m <= length c.2)%nat -> WPr (read_once n op) (read_post (answer_of op) m) c.
Proof.
  intros HI Hm.
  assert (Hmap : forall B (f : list W -> B) (g : B -> answer A) (p : P (option B)),
    (forall d, g (f d) = answer_of op d) -> WPr p (read_post f m) c ->
    WPr (bind p (fun r => Ret (g <$> r))) (read_post (answer_of op) m) c).
  { intros B f g p Hg Hp. apply wp_bind; [apply _|done|]. eapply wp_mono_inv; [|exact Hp].
    intros r c1 _ Hr. apply wp_ret. intros c2 HR2 _. apply (read_post_rely f m r _ _ Hr) in HR2 as [Hm2 Hr2].
    split; [done|]. intros a (b & -> & ->)%fmap_Some. destruct (Hr2 b eq_refl) as (k & Hk & ->). eauto. }
  destruct op as [|fuel|f|fuel f]; cbn [read_once].
  - apply (Hmap _ id); [done|by apply (wp_try_read_with id)].
  - apply (Hmap _ id); [done|by apply wp_read].
  - by apply (Hmap _ f); [|apply wp_try_read_with].
  - by apply (Hmap _ f); [|apply wp_read_with].
Qed.

Lemma wp_reader {A} (ops : list (read_op A)) : forall c m,
  inv c -> (m <= length c.2)%nat -> WPr (reader n ops) (fun rs c' => seen c'.2 m ops rs) c.
Proof.
  induction ops as [|op ops IH]; intros c m HI Hm; cbn [reader].
  { apply wp_ret. intros c' HR _. constructor. }
  apply wp_bind; [apply _|done|]. eapply wp_mono_inv; [|by apply (wp_read_once op c m)].
  intros r c1 HI1 [Hm1 Hr]. apply wp_bind; [apply _|done|].
  destruct r as [a|]; [destruct (Hr a eq_refl) as (k & Hk & ->)|]; clear Hr.
  - eapply wp_mono_inv; [|apply wp_frame; [apply _|by intros ?? ->|apply (IH c1 k); [done|lia]]].
    intros rs c2 HI2 [HR2 Hs]. apply wp_ret. intros c3 HR3 _. pose proof (gw_trace _ _ HR2) as Hp2.
    pose proof (gw_trace _ _ HR3) as Hp3. pose proof (prefix_length _ _ Hp2).
    eapply seen_prefix; [exact Hp3|]. rewrite <- (take_prefix c1.2 c2.2 k) by (done || lia). apply seen_some; [lia|done].
  - eapply wp_mono_inv; [|by apply (IH c1 m)].
    intros rs c2 HI2 Hs. apply wp_ret. intros c3 HR3 _. eapply seen_prefix; [apply HR3|]. by apply seen_none.
Qed.

End model.

Arguments read_op : clear implicits.
Arguments answer : clear implicits.

Section seq.
Context {W : Type}.
Implicit Types s : SeqLock (W := W).

Lemma run_store_words (ws : list W) : forall i s,
  (i + length ws <= length (data s))%nat ->
  run (store_words i ws) s
  = ([], {| version := version s; data := take i (data s) ++ ws ++ drop (i + length ws) (data s) |},
     inr tt).
Proof.
  induction ws as [|w ws IH]; intros i s Hi.
  { simpl. rewrite Nat.add_0_r, take_drop. by destruct s. }
  cbn [store_words]. rewrite run_bind. cbn [store run]. simpl in Hi.
  rewrite IH by (simpl; rewrite length_insert; lia). simpl.
  rewrite (take_S_r _ _ w) by (apply list_lookup_insert_eq; lia).
  rewrite take_insert_ge, drop_insert_lt by lia.
  rewrite <- app_assoc. by replace (Datatypes.S (i + length ws)) with (i + Datatypes.S (length ws))%nat by lia.
Qed.

Lemma run_load_words k : forall i s,
  (i + k = length (data s))%nat -> run (load_words i k) s = ([], s, inr (drop i (data s))).
Proof.
  induction k as [|k IH]; intros i s Hi.
  { simpl. by rewrite drop_ge by lia. }
  cbn [load_words]. rewrite run_bind. cbn [load_word run].
  destruct (lookup_lt_is_Some_2 (data s) i) as [w Hw]; [lia|]. rewrite Hw. cbn [run].
  rewrite run_bind, IH by lia. cbn [run]. by rewrite (drop_S _ w i).
Qed.

Lemma run_increment ev s :
  run (increment (W := W) ev) s = (ev s, set_version (wrapping_add64 (version s) 1) s, inr tt).
Proof. simpl. by rewrite app_nil_r. Qed.

Lemma odd_next v : 0 <= v -> Z.odd (wrapping_add64 v 1) = negb (Z.odd v).
Proof.
  intros Hv. unfold wrapping_add64, U64.
  rewrite <- !Z.bit0_odd, Z.mod_pow2_bits_low, !Z.bit0_odd, Z.odd_add by lia.
  by destruct (Z.odd v).
Qed.

(** The two increments around the new value. *)
Lemma run_write value s :
  length value = length (data s) ->
  run (write value) s
  = ([value], {| version := wrapping_add64 (wrapping_add64 (version s) 1) 1; data := value |}, inr tt).
Proof.
  intros Hl. unfold write, begin_write, end_write. rewrite run_bind, run_increment, run_bind.
  rewrite run_store_words by (simpl; lia). rewrite run_increment. simpl.
  by rewrite drop_ge, app_nil_r by lia.
Qed.

Lemma run_update f s :
  length (f (data s)) = length (data s) ->
  run (update f) s
  = ([f (data s)],
     {| version := wrapping_add64 (wrapping_add64 (version s) 1) 1; data := f (data s) |}, inr tt).
Proof.
  intros Hl. unfold update, begin_write, end_write. rewrite run_bind, run_increment.
  rewrite run_bind. cbn [load run]. rewrite run_bind.
  rewrite run_store_words by (simpl; lia). rewrite run_increment. simpl.
  by rewrite drop_ge, app_nil_r by lia.
Qed.

(** Without interference every read comes back at once, unless a write is under
    way: then a try fails and a read spins. *)
Lemma run_try_read_with {A} (f : list W -> A) s :
  run (try_read_with (length (data s)) f) s
  = ([], s, inr (if Z.odd (version s) then None else Some (f (data s)))).
Proof.
  unfold try_read_with, version_load. rewrite run_bind. cbn [load run]. rewrite land_1_eqb.
  destruct (Z.odd (version s)); [done|].
  rewrite run_bind, run_load_words by done. rewrite run_bind. cbn [load run].
  by rewrite Z.eqb_refl.
Qed.

Lemma run_try_read s :
  run (try_read (length (data s))) s
  = ([], s, inr (if Z.odd (version s) then None else Some (data s))).
Proof. exact (run_try_read_with id s). Qed.

Lemma run_read_quiet fuel s :
  Z.odd (version s) = false ->
  run (read (Datatypes.S fuel) (length (data s))) s = ([], s, inr (Some (data s))).
Proof. intros Ho. cbn [read]. by rewrite run_bind, run_try_read, Ho. Qed.

Lemma run_retry {A} (p : nat -> prog (SeqLock (W := W)) (list W) (option A)) (q : prog _ _ (option A)) s r :
  p 0%nat = Ret None -> (forall m, p (Datatypes.S m) = bind q (fun r => match r with Some a => Ret (Some a) | None => p m end)) ->
  run q s = ([], s, inr r) -> forall fuel, run (p fuel) s = ([], s, inr (if fuel is O then None else r)).
Proof.
  intros H0 HS Hq. induction fuel as [|fuel IH]; [by rewrite H0|].
  rewrite HS, run_bind, Hq. destruct r; [done|]. rewrite IH. by destruct fuel.
Qed.

(** A read that may make an attempt. *)
Definition read_op_ok {A} (op : read_op W A) : Prop :=
  match op with OpRead fuel | OpReadWith fuel _ => (0 < fuel)%nat | _ => True end.

Lemma run_read_once {A} (op : read_op W A) s :
  read_op_ok op ->
  run (read_once (length (data s)) op) s
  = ([], s, inr (if Z.odd (version s) then None else Some (answer_of op (data s)))).
Proof.
  intros Hop. destruct op as [|fuel|f|fuel f]; cbn [read_once]; rewrite run_bind.
  - rewrite run_try_read. by destruct (Z.odd _).
  - rewrite (run_retry (fun fuel => read fuel _) _ s _ eq_refl (fun _ => eq_refl) (run_try_read s)).
    destruct fuel; [simpl in Hop; lia|]. by destruct (Z.odd _).
  - rewrite run_try_read_with. by destruct (Z.odd _).
  - rewrite (run_retry (fun fuel => read_with fuel _ f) _ s _ eq_refl (fun _ => eq_refl) (run_try_read_with f s)).
    destruct fuel; [simpl in Hop; lia|]. by destruct (Z.odd _).
Qed.

End seq.

(** ** The theorems *)

(** C19. No torn reads.  One writer and any number of readers, each with any
    sequence of [try_read], [read], [try_read_with] and [read_with], interleaved in
    every way down to single words: no thread faults, and every answer is made, by
    the closure of the operation or as a copy, from one value that was completely
    written (the initial one or the value of a finished [write] or [update]); the
    values behind the successive answers of a reader never go back in the history;
    provided fewer than [2^63] writes, so that the version counter cannot come round
    to the same number during one read.  And reads do come back: with no write under
    way, and no interference, each operation answers with the value of the lock at its
    first attempt; while a write is under way none answers. *)
Theorem seqlock_no_torn_reads {W A} (n : nat) (d0 : list W) ops (reads : list (list (read_op W A))) ts s' tr :
  length d0 = n -> Forall (write_op_ok n) ops -> 2 * Z.of_nat (length ops) < U64 ->
  rtc pool_step (writer ops :: (reader n <$> reads), (new d0, [])) (ts, (s', tr)) ->
  (forall i f, ts !! i <> Some (Fault f)) /\
  (forall i ops rs, reads !! i = Some ops -> ts !! Datatypes.S i = Some (Ret rs) -> seen d0 tr 0 ops rs) /\
  (forall s (op : read_op W A), length (data s) = n -> read_op_ok op ->
     run (read_once n op) s = ([], s, inr (if Z.odd (version s) then None else Some (answer_of op (data s))))).
Proof.
  intros Hd0 Hops Hb Hsteps.
  set (R := fun i : nat => match i with O => eq | _ => guar_writer (W := W) end).
  set (G := fun i : nat => match i with O => guar_writer (W := W) | _ => eq end).
  set (Q := fun (i : nat) (rs : list (option (answer W A))) (c : config (SeqLock (W := W)) (list W)) =>
              match i with O => True | Datatypes.S i => forall ops, reads !! i = Some ops -> seen d0 c.2 0 ops rs end).
  assert (HR : forall i, PreOrder (R i)) by (intros [|i]; apply _).
  assert (HRG : forall i j c1 c2, i <> j -> G i c1 c2 -> R j c1 c2).
  { intros [|i] [|j] c1 c2 Hne HG; simpl in *; try done. by subst. }
  assert (Hw0 : writing n d0 false (new d0, [])) by (split; [done|]; split; done).
  pose proof (fun ts0 ts' c' => pool_sound (inv n d0) R G HR HRG Q ts0 _ ts' c'
                (ex_intro _ false Hw0)) as Hsound.
  destruct (fun H => Hsound _ _ _ H Hsteps) as (_ & Hf & HQ).
  - intros [|i] p; simpl.
    + intros [= <-]. eapply wp_mono_inv; [|by apply wp_writer]. done.
    + intros (rops & -> & Hi)%list_lookup_fmap_Some.
      eapply wp_mono_inv; [|apply (wp_reader n d0 rops _ 0); [by exists false|simpl; lia]].
      intros rs c' _ Hs rops' Hi'. by simplify_eq.
  - split; [done|]. split; [intros i rops rs Hi Hts; by apply (HQ (Datatypes.S i) _ Hts)|].
    intros s op <- Hop. by apply run_read_once.
Qed.

(** A writer of [1; 1] then [2; 2] against one reader of three operations. *)
Definition torn_writes : list (write_op (W := Z)) := [OpWrite [1; 1]; OpUpdate (fun d => (Z.add 1) <$> d)].
Definition torn_reads : list (read_op Z Z) := [OpTryRead; OpReadWith 2 (foldr Z.add 0); OpRead 1].
Definition torn_pool : list (prog (SeqLock (W := Z)) (list Z) (list (option (answer Z Z)))) :=
  [writer torn_writes; reader 2 torn_reads].

(** The first attempt spans the first write and fails; the second operation runs
    while nothing is written, the third after the second write. *)
Definition torn_sched : list nat :=
  [1; 1]%nat ++ replicate 6 0%nat ++ replicate 6 1%nat ++ replicate 9 0%nat ++ replicate 4 1%nat.

Lemma seqlock_no_torn_reads_witness :
  exists ts s' tr, run_sched torn_sched (torn_pool, (new [0; 0], [])) = (ts, (s', tr)) /\
    seen [0; 0] tr 0 torn_reads [None; Some (Result_of 2); Some (Value [2; 2])].
Proof.
  destruct (run_sched torn_sched (torn_pool, (new [0; 0], []))) as [ts [s' tr]] eqn:Hrun.
  exists ts, s', tr. split; [reflexivity|].
  pose proof (run_sched_steps torn_sched (torn_pool, (new [0; 0], []))) as Hsteps. rewrite Hrun in Hsteps.
  destruct (seqlock_no_torn_reads 2 [0; 0] torn_writes [torn_reads] ts s' tr) as (_ & Hseen & _).
  - reflexivity.
  - repeat constructor. intros d Hd. by rewrite length_fmap.
  - reflexivity.
  - exact Hsteps.
  - apply (Hseen 0%nat _ _ eq_refl). vm_compute in Hrun. injection Hrun as <- <- <-. reflexivity.
Defined.

Section sequential.
Context {W : Type}.
Implicit Types s : SeqLock (W := W).

(** Without interference a read returns what the last [write] or [update]
    stored, at the first attempt and also when the version counter wraps
    around; each of them advances the version by two, and between its two
    increments (odd version) a read fails instead of returning data. *)
Theorem seqlock_write_read value f s fuel :
  0 <= version s < U64 -> Z.odd (version s) = false ->
  length value = length (data s) -> length (f value) = length value ->
  (exists s1, run (write value) s = ([value], s1, inr tt) /\
     version s1 = (version s + 2) mod U64 /\
     run (read (Datatypes.S fuel) (length value)) s1 = ([], s1, inr (Some value))) /\
  (exists s2, run (write value ;;; update f) s = ([value; f value], s2, inr tt) /\
     run (read (Datatypes.S fuel) (length value)) s2 = ([], s2, inr (Some (f value)))) /\
  (let mid := set_version (wrapping_add64 (version s) 1) s in
   run begin_write s = ([], mid, inr tt) /\
   run (try_read (length (data s))) mid = ([], mid, inr None)).
Proof.
  intros Hv Ho Hl Hf.
  assert (Hodd : forall v, 0 <= v -> Z.odd v = false ->
            Z.odd (wrapping_add64 (wrapping_add64 v 1) 1) = false).
  { intros v Hv' Ho'. rewrite odd_next, odd_next, Ho'; [done|done|].
    apply Z.mod_pos_bound. done. }
  split; [|split].
  - rewrite run_write by done. eexists. split; [done|]. split.
    + simpl. unfold wrapping_add64. rewrite Zplus_mod_idemp_l. f_equal. lia.
    + apply (run_read_quiet fuel {| version := _; data := value |}). simpl. apply Hodd; [lia|done].
  - set (v2 := wrapping_add64 (wrapping_add64 (version s) 1) 1).
    exists {| version := wrapping_add64 (wrapping_add64 v2 1) 1; data := f value |}. split.
    + by rewrite run_bind, run_write, run_update.
    + pose proof (run_read_quiet fuel
        {| version := wrapping_add64 (wrapping_add64 v2 1) 1; data := f value |}) as Hrd.
      cbn [data] in Hrd. rewrite Hf in Hrd. apply Hrd. cbn [version].
      apply Hodd; [apply Z.mod_pos_bound; done|]. apply Hodd; [lia|done].
  - cbv zeta. split; [unfold begin_write; by rewrite run_increment|].
    rewrite (run_try_read (set_version _ s)). simpl. by rewrite odd_next, Ho by lia.
Qed.

End sequential.

(** A lock of two words at the largest even version: the next write wraps. *)
Lemma seqlock_write_read_witness :
  exists s1, run (write [1; 2]) {| version := U64 - 2; data := [0; 0] |} = ([[1; 2]], s1, inr tt) /\
    version s1 = 0 /\ run (read 1 2) s1 = ([], s1, inr (Some [1; 2])).
Proof.
  destruct (seqlock_write_read [1; 2] (fun d => d) {| version := U64 - 2; data := [0; 0] |} 0)
    as [H _]; [vm_compute; split; [discriminate|reflexivity]|reflexivity..|].
  exact H.
Defined.
