(* ===== verification/Net.v ===== *)
(** * Net: socket addresses

    The parts of [std::net] the program uses: IPv4 and IPv6 socket addresses
    with their octets, and the IPv4-mapped form [::ffff:a.b.c.d]. *)
From S2P Require Export Prelude.

Inductive SocketAddr : Type :=
| V4 (octets : list Z) (port : Z)
| V6 (octets : list Z) (port : Z).

#[export] Instance SocketAddr_eq_dec : EqDecision SocketAddr.
Proof. solve_decision. Defined.

Definition addr_port (a : SocketAddr) : Z :=
  match a with V4 _ p | V6 _ p => p end.

(** [SocketAddr::is_ipv4] *)
Definition is_v4 (a : SocketAddr) : Prop := match a with V4 _ _ => True | V6 _ _ => False end.

(** Octets of the right number and width, a 16-bit port. *)
Definition addr_ok (a : SocketAddr) : Prop :=
  match a with
  | V4 o p => length o = 4%nat /\ Forall (fun b => 0 <= b < 256) o /\ 0 <= p < 65536
  | V6 o p => length o = 16%nat /\ Forall (fun b => 0 <= b < 256) o /\ 0 <= p < 65536
  end.

(** [Ipv6Addr::to_ipv4_mapped] *)
Definition to_ipv4_mapped (octets : list Z) : option (list Z) :=
  match octets with
  | [0; 0; 0; 0; 0; 0; 0; 0; 0; 0; 255; 255; a; b; c; d] => Some [a; b; c; d]
  | _ => None
  end.
