(* ===== verification/Leader.v ===== *)
(** * Leader: leader entries, the leader buffer, the schedule and the tracker

    [leader/src/leader_entry.rs], [leader_buffer.rs], [schedule_fetcher.rs],
    [slot_subscriber.rs] (the slot cell) and [tracker.rs], with the trait
    [LeaderLookup] of [traits/src/lib.rs].

    The buffer's version counter, [begin_write], [end_write] and [try_read_all]
    are the code of [SeqLock] over again; the model reuses it: the buffer is a
    [SeqLock] of ten entries next to the current slot.  The tracker's busy loop
    is a step function over the slots it observes.  Slots are [u64] values far
    below [2^64]; their arithmetic is not reduced.  The RPC client and the
    parser of public keys are not part of the repository: what they return is an
    argument of [refresh]. *)
From S2P Require Import Prelude Conc Net SeqLock.

(** ** Entries *)

Definition Pubkey : Type := list Z.

Record LeaderEntry : Type := {
  pubkey : Pubkey;
  tpu_quic_ip : list Z;
  tpu_quic_port : Z;
  tpu_quic_fwd_ip : list Z;
  tpu_quic_fwd_port : Z;
  start_slot : Z;
}.

Definition EMPTY : LeaderEntry :=
  {| pubkey := replicate 32 0; tpu_quic_ip := [0; 0; 0; 0]; tpu_quic_port := 0;
     tpu_quic_fwd_ip := [0; 0; 0; 0]; tpu_quic_fwd_port := 0; start_slot := 0 |}.

Definition extract_ipv4 (addr : SocketAddr) : list Z * Z :=
  match addr with
  | V4 octets port => (octets, port)
  | V6 octets port =>
      match to_ipv4_mapped octets with
      | Some ipv4 => (ipv4, port)
      | None => ([0; 0; 0; 0], port)
      end
  end.

Definition entry_new (pubkey : Pubkey) (tpu_quic tpu_quic_fwd : SocketAddr) : LeaderEntry :=
  let '(quic_ip, quic_port) := extract_ipv4 tpu_quic in
  let '(fwd_ip, fwd_port) := extract_ipv4 tpu_quic_fwd in
  {| pubkey := pubkey; tpu_quic_ip := quic_ip; tpu_quic_port := quic_port;
     tpu_quic_fwd_ip := fwd_ip; tpu_quic_fwd_port := fwd_port; start_slot := 0 |}.

Definition tpu_quic (e : LeaderEntry) : SocketAddr := V4 (tpu_quic_ip e) (tpu_quic_port e).
Definition tpu_quic_fwd (e : LeaderEntry) : SocketAddr :=
  V4 (tpu_quic_fwd_ip e) (tpu_quic_fwd_port e).
Definition entry_is_valid (e : LeaderEntry) : bool := negb (tpu_quic_port e =? 0).
Definition end_slot (e : LeaderEntry) : Z := start_slot e + 3.
Definition set_start_slot (slot : Z) (e : LeaderEntry) : LeaderEntry :=
  {| pubkey := pubkey e; tpu_quic_ip := tpu_quic_ip e; tpu_quic_port := tpu_quic_port e;
     tpu_quic_fwd_ip := tpu_quic_fwd_ip e; tpu_quic_fwd_port := tpu_quic_fwd_port e;
     start_slot := slot |}.

(** ** The buffer *)

Definition LEADER_BUFFER_SIZE : nat := 10.
Definition SLOTS_PER_LEADER : Z := 4.

Record LeaderBuffer : Type := {
  lock : SeqLock (W := LeaderEntry);
  current_slot : Z;
}.

Definition entries (b : LeaderBuffer) : list LeaderEntry := data (lock b).

Definition buffer_new : LeaderBuffer :=
  {| lock := SeqLock.new (replicate LEADER_BUFFER_SIZE EMPTY); current_slot := 0 |}.

Definition set_current_slot (slot : Z) (b : LeaderBuffer) : LeaderBuffer :=
  {| lock := lock b; current_slot := slot |}.

(** [try_read(position)]: the protocol of [SeqLock::try_read] on one entry. *)
Definition try_read_at (position : nat)
    : prog (SeqLock (W := LeaderEntry)) (list LeaderEntry) (option LeaderEntry) :=
  let! v1 := version_load in
  if Z.land v1 1 =? 1 then Ret None
  else
    let! entry := load_word position in
    let! v2 := version_load in
    if v1 =? v2 then Ret (Some entry) else Ret None.

Fixpoint read_at (fuel : nat) (position : nat)
    : prog (SeqLock (W := LeaderEntry)) (list LeaderEntry) (option LeaderEntry) :=
  match fuel with
  | O => Ret None
  | Datatypes.S fuel =>
      let! r := try_read_at position in
      match r with
      | Some entry => Ret (Some entry)
      | None => read_at fuel position
      end
  end.

Definition try_read_all := try_read (W := LeaderEntry) LEADER_BUFFER_SIZE.
Definition read_all (fuel : nat) := SeqLock.read (W := LeaderEntry) fuel LEADER_BUFFER_SIZE.

(** A write section: the entries change to [f entries] and the slot is stored
    before the section ends. *)
Definition write_section (f : list LeaderEntry -> list LeaderEntry) (new_slot : Z)
    (b : LeaderBuffer) : LeaderBuffer :=
  {| lock := (run (SeqLock.update f) (lock b)).1.2; current_slot := new_slot |}.

Definition base_slot (slot : Z) : Z := slot / SLOTS_PER_LEADER * SLOTS_PER_LEADER.

(** [for i in lo.. { entries[i].set_start_slot(base + i * SLOTS_PER_LEADER) }] *)
Definition set_start_slots (base : Z) (lo : nat) (es : list LeaderEntry) : list LeaderEntry :=
  imap (fun i e => if (lo <=? i)%nat then set_start_slot (base + Z.of_nat i * SLOTS_PER_LEADER) e else e) es.

(** [entries[pos..pos + len].copy_from_slice(src); entries[pos + len..] = EMPTY] *)
Definition copy_and_clear (pos : nat) (src es : list LeaderEntry) : list LeaderEntry :=
  take pos es ++ src ++ replicate (length es - pos - length src) EMPTY.

Definition update (new_slot : Z) (new_entries : list LeaderEntry) (b : LeaderBuffer) : LeaderBuffer :=
  let copy_len := Nat.min (length new_entries) LEADER_BUFFER_SIZE in
  write_section (fun es =>
    set_start_slots (base_slot new_slot) 0 (copy_and_clear 0 (take copy_len new_entries) es))
    new_slot b.

Definition shift_and_append (new_leader : LeaderEntry) (new_slot : Z) (b : LeaderBuffer) : LeaderBuffer :=
  let new_leader :=
    set_start_slot (base_slot new_slot + Z.of_nat (LEADER_BUFFER_SIZE - 1) * SLOTS_PER_LEADER) new_leader in
  write_section (fun es => drop 1 es ++ [new_leader]) new_slot b.

(** [entries.copy_within(count.., 0)] leaves the last [count] entries in place
    until they are overwritten. *)
Definition copy_within (count : nat) (es : list LeaderEntry) : list LeaderEntry :=
  drop count es ++ drop (length es - count) es.

Definition shift_multiple (count : nat) (new_leaders : list LeaderEntry) (new_slot : Z)
    (b : LeaderBuffer) : LeaderBuffer :=
  if (count =? 0)%nat then b
  else
    let base := base_slot new_slot in
    write_section (fun es =>
      if (LEADER_BUFFER_SIZE <=? count)%nat then
        let copy_len := Nat.min (length new_leaders) LEADER_BUFFER_SIZE in
        set_start_slots base 0 (copy_and_clear 0 (take copy_len new_leaders) es)
      else
        let start_pos := (LEADER_BUFFER_SIZE - count)%nat in
        let new_count := Nat.min (length new_leaders) count in
        set_start_slots base start_pos
          (copy_and_clear start_pos (take new_count new_leaders) (copy_within count es)))
      new_slot b.

(** ** LeaderLookup *)

(** The trait of [traits/src/lib.rs]; [get_leader_neighbors] keeps its default
    (no neighbours) in every implementation of the repository. *)
Class LeaderLookup (B : Type) : Type := {
  get_leader : B -> nat -> option (SocketAddr * SocketAddr);
  is_valid : B -> nat -> bool;
  get_leader_slots : B -> nat -> option (Z * Z);
  get_leader_neighbors : B -> nat -> list (SocketAddr * SocketAddr);
}.

(** What its documentation promises: an address exactly for the valid positions,
    and ranges of [SLOTS_PER_LEADER] slots. *)
Class LeaderLookupOk (B : Type) `{LeaderLookup B} : Prop := {
  lookup_valid b i : is_valid b i = true <-> is_Some (get_leader b i);
  lookup_slots b i a z : get_leader_slots b i = Some (a, z) -> z = a + SLOTS_PER_LEADER - 1;
  lookup_slots_valid b i : is_valid b i = true -> is_Some (get_leader_slots b i);
}.

(** A read without interference; [None] while a write is in progress. *)
Definition read_now (b : LeaderBuffer) (position : nat) : option LeaderEntry :=
  match (run (read_at 1 position) (lock b)).2 with inr r => r | inl _ => None end.

#[export] Instance buffer_lookup : LeaderLookup LeaderBuffer := {|
  get_leader b index :=
    if (LEADER_BUFFER_SIZE <=? index)%nat then None
    else
      match read_now b index with
      | Some entry =>
          if entry_is_valid entry then Some (tpu_quic entry, tpu_quic_fwd entry) else None
      | None => None
      end;
  is_valid b index :=
    (index <? LEADER_BUFFER_SIZE)%nat &&
    match read_now b index with Some entry => entry_is_valid entry | None => false end;
  get_leader_slots b index :=
    if (LEADER_BUFFER_SIZE <=? index)%nat then None
    else
      match read_now b index with
      | Some entry => Some (start_slot entry, end_slot entry)
      | None => None
      end;
  get_leader_neighbors _ _ := [];
|}.

#[export] Instance buffer_lookup_ok : LeaderLookupOk LeaderBuffer.
Proof.
  split; intros b i; cbn [get_leader is_valid get_leader_slots buffer_lookup];
    unfold end_slot, SLOTS_PER_LEADER;
    destruct (Nat.leb_spec LEADER_BUFFER_SIZE i), (Nat.ltb_spec i LEADER_BUFFER_SIZE);
    try lia; cbn [andb]; try done; try (split; [done|by intros [? [=]]]).
  - destruct (read_now b i) as [e|]; [|split; [done|by intros [? [=]]]].
    destruct (entry_is_valid e); split; try done; by intros [? [=]].
  - destruct (read_now b i); [|done]. intros a z [= <- <-]. lia.
  - destruct (read_now b i); [eauto|done].
Qed.

(** ** The schedule *)

Record TpuAddresses : Type := {
  quic_addr : option SocketAddr;
  quic_fwd_addr : option SocketAddr;
}.

Record EpochSchedule : Type := {
  epoch : Z;
  epoch_start_slot : Z;
  slots_in_epoch : Z;
  leaders : list LeaderEntry;
}.

(** The fetcher is its cache. *)
Definition ScheduleFetcher : Type := option EpochSchedule.
Definition fetcher_new : ScheduleFetcher := None.

(** What the RPC client returns. *)
Record EpochInfo : Type := { info_epoch : Z; slot_index : Z; info_slots : Z; absolute_slot : Z }.
Record RpcContactInfo : Type := {
  node_pubkey : string;
  node_tpu_quic : option SocketAddr;
  node_tpu_forwards_quic : option SocketAddr;
}.

Inductive FetcherError (E : Type) : Type :=
| Rpc (e : E)
| NoSchedule
| InvalidPubkey.
Arguments Rpc {E} e.
Arguments NoSchedule {E}.
Arguments InvalidPubkey {E}.

Section refresh.
Context {E : Type} (parse : string -> option Pubkey).

(** The two loops that fill the maps stop at the first key that does not parse;
    a map keeps the last value inserted. *)
Fixpoint add_schedule (epoch_start_slot : Z) (schedule : list (string * list Z))
    (slot_leaders : gmap Z Pubkey) : Result (gmap Z Pubkey) (FetcherError E) :=
  match schedule with
  | [] => Ok slot_leaders
  | (leader_str, slots) :: schedule =>
      match parse leader_str with
      | None => Err InvalidPubkey
      | Some leader =>
          add_schedule epoch_start_slot schedule
            (fold_left (fun m relative_slot => <[epoch_start_slot + relative_slot := leader]> m)
               slots slot_leaders)
      end
  end.

Fixpoint add_nodes (nodes : list RpcContactInfo) (tpu_addresses : gmap Pubkey TpuAddresses)
    : Result (gmap Pubkey TpuAddresses) (FetcherError E) :=
  match nodes with
  | [] => Ok tpu_addresses
  | node :: nodes =>
      match parse (node_pubkey node) with
      | None => Err InvalidPubkey
      | Some pubkey =>
          add_nodes nodes
            (<[pubkey := {| quic_addr := node_tpu_quic node;
                            quic_fwd_addr := node_tpu_forwards_quic node |}]> tpu_addresses)
      end
  end.

Definition slot_entry (slot_leaders : gmap Z Pubkey) (tpu_addresses : gmap Pubkey TpuAddresses)
    (slot : Z) : LeaderEntry :=
  match slot_leaders !! slot with
  | Some leader =>
      let tpu := default {| quic_addr := None; quic_fwd_addr := None |} (tpu_addresses !! leader) in
      match quic_addr tpu, quic_fwd_addr tpu with
      | Some tpu_quic, Some tpu_quic_fwd => entry_new leader tpu_quic tpu_quic_fwd
      | _, _ => EMPTY
      end
  | None => EMPTY
  end.

(** [epoch_info], [schedule] and [nodes]: the answers to the three RPC calls, in
    the order they are made.  An error leaves the cache as it was. *)
Definition refresh (epoch_info : Result EpochInfo E)
    (schedule : Result (option (list (string * list Z))) E)
    (nodes : Result (list RpcContactInfo) E) (cache : ScheduleFetcher)
    : ScheduleFetcher * Result unit (FetcherError E) :=
  match epoch_info with
  | Err e => (cache, Err (Rpc e))
  | Ok info =>
      let current_epoch := info_epoch info in
      let epoch_start_slot := absolute_slot info - slot_index info in
      let slots_in_epoch := info_slots info in
      let cached := match cache with Some c => epoch c =? current_epoch | None => false end in
      if cached then (cache, Ok tt)
      else
        match schedule with
        | Err e => (cache, Err (Rpc e))
        | Ok None => (cache, Err NoSchedule)
        | Ok (Some schedule) =>
            match add_schedule epoch_start_slot schedule ∅ with
            | Err e => (cache, Err e)
            | Ok slot_leaders =>
                match nodes with
                | Err e => (cache, Err (Rpc e))
                | Ok nodes =>
                    match add_nodes nodes ∅ with
                    | Err e => (cache, Err e)
                    | Ok tpu_addresses =>
                        let leaders :=
                          (fun slot_offset =>
                             slot_entry slot_leaders tpu_addresses (epoch_start_slot + slot_offset))
                          <$> seqZ 0 slots_in_epoch in
                        (Some {| epoch := current_epoch; epoch_start_slot := epoch_start_slot;
                                 slots_in_epoch := slots_in_epoch; leaders := leaders |}, Ok tt)
                    end
                end
            end
        end
  end.

End refresh.

Definition current_epoch (cache : ScheduleFetcher) : option Z := epoch <$> cache.

Definition in_epoch (c : EpochSchedule) (slot : Z) : bool :=
  (epoch_start_slot c <=? slot) && (slot <? epoch_start_slot c + slots_in_epoch c).

Definition is_slot_in_cache (cache : ScheduleFetcher) (slot : Z) : bool :=
  match cache with Some c => in_epoch c slot | None => false end.

(** [c.leaders[index]]; an index outside the vector panics. *)
Definition leader_index (c : EpochSchedule) (slot : Z) : Result LeaderEntry fault :=
  match leaders c !! Z.to_nat (slot - epoch_start_slot c) with
  | Some e => Ok e
  | None => Err (Panic "index out of bounds")
  end.

Definition get_leader_at_slot (cache : ScheduleFetcher) (slot : Z)
    : Result (option LeaderEntry) fault :=
  match cache with
  | None => Ok None
  | Some c =>
      if in_epoch c slot then
        match leader_index c slot with Ok e => Ok (Some e) | Err f => Err f end
      else Ok None
  end.

(** The loop of [get_next_leaders_into] over the caller's buffer. *)
Fixpoint next_leaders_loop (c : EpochSchedule) (slot written : Z) (buffer : list LeaderEntry)
    : Result (list LeaderEntry * Z) fault :=
  match buffer with
  | [] => Ok ([], written)
  | entry :: rest =>
      if epoch_start_slot c + slots_in_epoch c <=? slot then Ok (buffer, written)
      else
        match (if epoch_start_slot c <=? slot then
                 match leader_index c slot with Ok e => Ok (e, 1) | Err f => Err f end
               else Ok (entry, 0)) with
        | Err f => Err f
        | Ok (entry, w) =>
            match next_leaders_loop c (slot + SLOTS_PER_LEADER) (written + w) rest with
            | Ok (rest, n) => Ok (entry :: rest, n)
            | Err f => Err f
            end
        end
  end.

Definition get_next_leaders_into (cache : ScheduleFetcher) (start_slot : Z)
    (buffer : list LeaderEntry) : Result (list LeaderEntry * Z) fault :=
  match cache with
  | None => Ok (buffer, 0)
  | Some c => next_leaders_loop c (base_slot start_slot) 0 buffer
  end.

(** ** The tracker *)

Definition update_buffer_from_schedule (cache : ScheduleFetcher) (current_slot : Z)
    (b : LeaderBuffer) : Result LeaderBuffer fault :=
  match get_next_leaders_into cache current_slot (replicate LEADER_BUFFER_SIZE EMPTY) with
  | Ok (es, _) => Ok (update current_slot es b)
  | Err f => Err f
  end.

Definition fifo_shift_buffer (cache : ScheduleFetcher) (current_slot : Z) (leaders_passed : nat)
    (b : LeaderBuffer) : Result LeaderBuffer fault :=
  let lookahead_slot :=
    (current_slot / SLOTS_PER_LEADER + Z.of_nat (LEADER_BUFFER_SIZE - leaders_passed))
    * SLOTS_PER_LEADER in
  let count := Nat.min leaders_passed LEADER_BUFFER_SIZE in
  match get_next_leaders_into cache lookahead_slot (take count (replicate LEADER_BUFFER_SIZE EMPTY)) with
  | Ok (new_entries, _) => Ok (shift_multiple leaders_passed new_entries current_slot b)
  | Err f => Err f
  end.

(** The busy loop's variables and the buffer it owns. *)
Record Tracker : Type := {
  last_slot : Z;
  last_leader_idx : Z;
  tracked : LeaderBuffer;
}.

(** The first valid slot the loop sees. *)
Definition loop_start (slot : Z) (b : LeaderBuffer) : Tracker :=
  {| last_slot := slot; last_leader_idx := slot / SLOTS_PER_LEADER; tracked := b |}.

(** One round of the main loop, with the slot it loads. *)
Definition loop_step (cache : ScheduleFetcher) (current_slot : Z) (t : Tracker)
    : Result Tracker fault :=
  if current_slot =? last_slot t then Ok t
  else
    let current_leader_idx := current_slot / SLOTS_PER_LEADER in
    if current_leader_idx =? last_leader_idx t then
      Ok {| last_slot := current_slot; last_leader_idx := last_leader_idx t;
            tracked := set_current_slot current_slot (tracked t) |}
    else
      let leaders_passed := Z.to_nat (saturating_sub current_leader_idx (last_leader_idx t)) in
      let b :=
        if (LEADER_BUFFER_SIZE <=? leaders_passed)%nat
        then update_buffer_from_schedule cache current_slot (tracked t)
        else fifo_shift_buffer cache current_slot leaders_passed (tracked t) in
      match b with
      | Ok b => Ok {| last_slot := current_slot; last_leader_idx := current_leader_idx; tracked := b |}
      | Err f => Err f
      end.

Fixpoint loop_run (cache : ScheduleFetcher) (slots : list Z) (t : Tracker) : Result Tracker fault :=
  match slots with
  | [] => Ok t
  | slot :: slots =>
      match loop_step cache slot t with
      | Ok t => loop_run cache slots t
      | Err f => Err f
      end
  end.

(** [start]: the buffer is filled for the first slot received; the loop then
    starts from the slot it finds. *)
Definition tracker_start (cache : ScheduleFetcher) (initial_slot loop_slot : Z)
    : Result Tracker fault :=
  match update_buffer_from_schedule cache initial_slot buffer_new with
  | Ok b => Ok (loop_start loop_slot b)
  | Err f => Err f
  end.
