(* ===== verification/LeaderSpec.v ===== *)
(** * LeaderSpec: the tracker keeps the buffer on the schedule

    The contract of the leader crate is the window of ten leaders from the
    current one on ([window]); the tracker's incremental shifts keep the buffer
    equal to it as long as the observed slots do not go back.  The last section
    has the executions in which they do, and the start-up race. *)
From Stdlib Require Import Sorted.
From S2P Require Import Prelude Conc Net SeqLock Leader.

(** ** The specification *)

(** The entry the cached schedule has for a slot. *)
Definition leader_at (cache : ScheduleFetcher) (slot : Z) : LeaderEntry :=
  match cache with
  | Some c => if in_epoch c slot then default EMPTY (leaders c !! Z.to_nat (slot - epoch_start_slot c))
              else EMPTY
  | None => EMPTY
  end.

(** Position [i] of the window: the leader [i] after the one of [slot]. *)
Definition window_slot (slot i : Z) : Z := base_slot slot + i * SLOTS_PER_LEADER.
Definition window_entry (cache : ScheduleFetcher) (slot i : Z) : LeaderEntry :=
  set_start_slot (window_slot slot i) (leader_at cache (window_slot slot i)).
Definition window (cache : ScheduleFetcher) (slot : Z) : list LeaderEntry :=
  (fun i => window_entry cache slot (Z.of_nat i)) <$> seq 0 LEADER_BUFFER_SIZE.

(** The vector covers the epoch. *)
Definition schedule_ok (c : EpochSchedule) : Prop :=
  0 <= slots_in_epoch c /\ length (leaders c) = Z.to_nat (slots_in_epoch c).
Definition cache_ok (cache : ScheduleFetcher) : Prop :=
  match cache with Some c => schedule_ok c | None => True end.

Lemma leader_index_ok c slot :
  schedule_ok c -> in_epoch c slot = true -> leader_index c slot = Ok (leader_at (Some c) slot).
Proof.
  intros [Hn Hl] Hin. unfold leader_index, leader_at. rewrite Hin.
  apply andb_true_iff in Hin as [H1%Z.leb_le H2%Z.ltb_lt].
  destruct (lookup_lt_is_Some_2 (leaders c) (Z.to_nat (slot - epoch_start_slot c))) as [e He]; [lia|].
  by rewrite He.
Qed.

(** [n] consecutive leaders from a slot on. *)
Fixpoint leaders_from (cache : ScheduleFetcher) (slot : Z) (n : nat) : list LeaderEntry :=
  match n with
  | O => []
  | Datatypes.S n => leader_at cache slot :: leaders_from cache (slot + SLOTS_PER_LEADER) n
  end.

Lemma leaders_from_length cache slot n : length (leaders_from cache slot n) = n.
Proof. revert slot. induction n; intros slot; simpl; auto. Qed.

Lemma leaders_from_lookup cache n : forall slot i,
  (i < n)%nat ->
  leaders_from cache slot n !! i = Some (leader_at cache (slot + Z.of_nat i * SLOTS_PER_LEADER)).
Proof.
  induction n as [|n IH]; intros slot [|i] Hi; simpl; try lia.
  - f_equal. f_equal. lia.
  - rewrite IH by lia. f_equal. f_equal. unfold SLOTS_PER_LEADER. lia.
Qed.

(** Past the end of the epoch there are only empty entries. *)
Lemma leaders_from_end c slot n :
  epoch_start_slot c + slots_in_epoch c <= slot ->
  leaders_from (Some c) slot n = replicate n EMPTY.
Proof.
  revert slot. induction n as [|n IH]; intros slot Hs; simpl; [done|].
  rewrite IH by (unfold SLOTS_PER_LEADER; lia). f_equal.
  assert (Hin : in_epoch c slot = false) by (apply andb_false_iff; right; apply Z.ltb_ge; lia).
  by rewrite Hin.
Qed.

(** The loop fills the buffer pointwise, and never indexes outside the vector. *)
Lemma next_leaders_loop_spec c n : forall slot written,
  schedule_ok c ->
  exists w, next_leaders_loop c slot written (replicate n EMPTY)
            = Ok (leaders_from (Some c) slot n, w).
Proof.
  induction n as [|n IH]; intros slot written Hc; [by exists written|].
  cbn [replicate next_leaders_loop].
  destruct (Z.leb_spec (epoch_start_slot c + slots_in_epoch c) slot) as [Hge|Hlt].
  { exists written. by rewrite leaders_from_end. }
  destruct (Z.leb_spec (epoch_start_slot c) slot) as [Hle|Hgt].
  - rewrite leader_index_ok by (done || apply andb_true_iff; rewrite Z.leb_le, Z.ltb_lt; lia).
    destruct (IH (slot + SLOTS_PER_LEADER) (written + 1) Hc) as [w Hw]. exists w. by rewrite Hw.
  - destruct (IH (slot + SLOTS_PER_LEADER) (written + 0) Hc) as [w Hw]. exists w. rewrite Hw. simpl.
    assert (Hin : in_epoch c slot = false) by (apply andb_false_iff; left; apply Z.leb_gt; lia).
    by rewrite Hin.
Qed.

Lemma get_next_leaders_spec cache slot n :
  cache_ok cache ->
  exists w, get_next_leaders_into cache slot (replicate n EMPTY)
            = Ok (leaders_from cache (base_slot slot) n, w).
Proof.
  intros Hc. unfold get_next_leaders_into. destruct cache as [c|].
  - by apply next_leaders_loop_spec.
  - exists 0. do 2 f_equal. generalize (base_slot slot).
    induction n as [|n IH]; intros s; simpl; [done|]. by rewrite <- IH.
Qed.

(** ** Writing the buffer *)

(** Between two writes: an even version and ten entries. *)
Definition buffer_ok (b : LeaderBuffer) : Prop :=
  0 <= version (lock b) < U64 /\ Z.odd (version (lock b)) = false /\
  length (entries b) = LEADER_BUFFER_SIZE.

Lemma write_section_spec f slot b :
  buffer_ok b -> length (f (entries b)) = LEADER_BUFFER_SIZE ->
  entries (write_section f slot b) = f (entries b) /\ buffer_ok (write_section f slot b).
Proof.
  intros (Hv & Ho & Hl) Hf. unfold write_section, buffer_ok, entries in *.
  rewrite run_update by congruence. simpl. split; [done|]. split; [|split; [|done]].
  - apply Z.mod_pos_bound. done.
  - rewrite !odd_next, Ho by (done || lia || (apply Z.mod_pos_bound; done)). done.
Qed.

Lemma window_length cache slot : length (window cache slot) = LEADER_BUFFER_SIZE.
Proof. unfold window. by rewrite length_fmap, length_seq. Qed.

Lemma window_lookup cache slot i :
  (i < LEADER_BUFFER_SIZE)%nat -> window cache slot !! i = Some (window_entry cache slot (Z.of_nat i)).
Proof. intros Hi. unfold window. rewrite list_lookup_fmap, lookup_seq_lt by done. done. Qed.

Lemma set_start_slots_length base lo es : length (set_start_slots base lo es) = length es.
Proof. apply length_imap. Qed.

(** A list of ten entries is the window when it is pointwise. *)
Lemma window_eq cache slot es :
  length es = LEADER_BUFFER_SIZE ->
  (forall i, (i < LEADER_BUFFER_SIZE)%nat -> es !! i = Some (window_entry cache slot (Z.of_nat i))) ->
  es = window cache slot.
Proof.
  intros Hl Hp. apply list_eq. intros i. destruct (decide (i < LEADER_BUFFER_SIZE)%nat) as [Hi|Hi].
  - by rewrite Hp, window_lookup.
  - rewrite !lookup_ge_None_2; [done|rewrite window_length; lia|lia].
Qed.

Lemma copy_and_clear_full src es :
  length src = length es -> copy_and_clear 0 src es = src.
Proof.
  intros Hl. unfold copy_and_clear. replace (length es - 0 - length src)%nat with 0%nat by lia.
  simpl. by rewrite app_nil_r.
Qed.

(** Filling the buffer from the schedule. *)
Lemma fill_window cache slot :
  set_start_slots (base_slot slot) 0 (leaders_from cache (base_slot slot) LEADER_BUFFER_SIZE)
  = window cache slot.
Proof.
  apply window_eq; [by rewrite set_start_slots_length, leaders_from_length|].
  intros i Hi. unfold set_start_slots. rewrite list_lookup_imap, leaders_from_lookup by done. done.
Qed.

Lemma update_window cache slot b :
  cache_ok cache -> buffer_ok b ->
  exists b', update_buffer_from_schedule cache slot b = Ok b' /\ buffer_ok b' /\
    entries b' = window cache slot /\ current_slot b' = slot.
Proof.
  intros Hc Hb. unfold update_buffer_from_schedule.
  destruct (get_next_leaders_spec cache slot LEADER_BUFFER_SIZE Hc) as [w ->].
  eexists. split; [done|]. unfold update. rewrite leaders_from_length, Nat.min_id.
  rewrite take_ge by (by rewrite leaders_from_length).
  assert (Hcc : forall es, length es = LEADER_BUFFER_SIZE ->
    copy_and_clear 0 (leaders_from cache (base_slot slot) LEADER_BUFFER_SIZE) es
    = leaders_from cache (base_slot slot) LEADER_BUFFER_SIZE).
  { intros es Hes. apply copy_and_clear_full. by rewrite leaders_from_length. }
  match goal with |- buffer_ok (write_section ?f _ _) /\ _ => pose proof (write_section_spec f slot b Hb) as Hw end.
  destruct Hb as (_ & _ & Hl). cbv beta in Hw. rewrite Hcc in Hw by done. rewrite fill_window in Hw.
  destruct (Hw (window_length _ _)) as [He Hok]. done.
Qed.

(** Shifting by the number of leaders passed. *)
Lemma shift_window cache slot slot' k b :
  cache_ok cache -> buffer_ok b -> entries b = window cache slot ->
  (0 < k < LEADER_BUFFER_SIZE)%nat -> slot' / SLOTS_PER_LEADER = slot / SLOTS_PER_LEADER + Z.of_nat k ->
  exists b', fifo_shift_buffer cache slot' k b = Ok b' /\ buffer_ok b' /\
    entries b' = window cache slot' /\ current_slot b' = slot'.
Proof.
  intros Hc Hb He Hk Hidx. unfold fifo_shift_buffer.
  replace (Nat.min k LEADER_BUFFER_SIZE) with k by lia. rewrite take_replicate.
  replace (Nat.min k LEADER_BUFFER_SIZE) with k by lia.
  set (look := (slot' / SLOTS_PER_LEADER + Z.of_nat (LEADER_BUFFER_SIZE - k)) * SLOTS_PER_LEADER).
  assert (Hlook : base_slot look = look).
  { unfold base_slot, look. rewrite Z.div_mul; [done|]. unfold SLOTS_PER_LEADER. lia. }
  destruct (get_next_leaders_spec cache look k Hc) as [w ->]. rewrite Hlook.
  eexists. split; [done|]. unfold shift_multiple.
  destruct (Nat.eqb_spec k 0); [lia|]. destruct (Nat.leb_spec LEADER_BUFFER_SIZE k); [lia|].
  rewrite leaders_from_length, Nat.min_id. rewrite take_ge by (by rewrite leaders_from_length).
  set (f := fun es => set_start_slots _ _ _).
  assert (Hf : f (entries b) = window cache slot').
  { unfold f. rewrite He. unfold copy_within, copy_and_clear.
    rewrite window_length. rewrite take_app_length' by (rewrite length_drop, window_length; lia).
    rewrite leaders_from_length, length_app, !length_drop, window_length.
    replace (LEADER_BUFFER_SIZE - k + (LEADER_BUFFER_SIZE - (LEADER_BUFFER_SIZE - k)) -
             (LEADER_BUFFER_SIZE - k) - k)%nat with 0%nat by lia.
    rewrite app_nil_r. apply window_eq.
    { rewrite set_start_slots_length, length_app, length_drop, window_length, leaders_from_length. lia. }
    intros i Hi. unfold set_start_slots. rewrite list_lookup_imap.
    destruct (Nat.leb_spec (LEADER_BUFFER_SIZE - k) i) as [Hge|Hlt].
    - rewrite lookup_app_r by (rewrite length_drop, window_length; lia).
      rewrite length_drop, window_length, leaders_from_lookup by lia. simpl. f_equal.
      unfold window_entry, window_slot, look, base_slot, SLOTS_PER_LEADER. do 2 f_equal. lia.
    - rewrite lookup_app_l by (rewrite length_drop, window_length; lia).
      rewrite lookup_drop, window_lookup by lia. simpl. f_equal.
      unfold window_entry, window_slot, base_slot, SLOTS_PER_LEADER in *.
      replace (slot / 4 * 4 + Z.of_nat (k + i) * 4) with (slot' / 4 * 4 + Z.of_nat i * 4) by lia. done. }
  destruct (write_section_spec f slot' b Hb) as [He' Hok]; [by rewrite Hf, window_length|].
  rewrite Hf in He'. done.
Qed.

(** ** The busy loop *)

(** The buffer shows the window of the slot last seen. *)
Record tracking (cache : ScheduleFetcher) (t : Tracker) : Prop := {
  tr_buffer : buffer_ok (tracked t);
  tr_index : last_leader_idx t = last_slot t / SLOTS_PER_LEADER;
  tr_window : entries (tracked t) = window cache (last_slot t);
}.

Lemma window_same_leader cache slot slot' :
  slot / SLOTS_PER_LEADER = slot' / SLOTS_PER_LEADER -> window cache slot = window cache slot'.
Proof. intros He. unfold window, window_entry, window_slot, base_slot. by rewrite He. Qed.

Lemma loop_step_tracking cache slot t :
  cache_ok cache -> tracking cache t -> last_slot t <= slot ->
  exists t', loop_step cache slot t = Ok t' /\ tracking cache t' /\ last_slot t' = slot.
Proof.
  intros Hc [Hb Hi Hw] Hle. unfold loop_step. destruct (Z.eqb_spec slot (last_slot t)) as [He|Hne].
  { exists t. by split; [|split]. }
  destruct (Z.eqb_spec (slot / SLOTS_PER_LEADER) (last_leader_idx t)) as [Hsame|Hdiff].
  { eexists. split; [done|]. split; [|done]. split; simpl; [done|congruence|].
    rewrite Hi in Hsame. change (entries (set_current_slot slot (tracked t))) with (entries (tracked t)).
    rewrite Hw. by apply window_same_leader. }
  assert (Hmono : last_slot t / SLOTS_PER_LEADER <= slot / SLOTS_PER_LEADER).
  { apply Z.div_le_mono; [unfold SLOTS_PER_LEADER|]; lia. }
  set (k := Z.to_nat (saturating_sub (slot / SLOTS_PER_LEADER) (last_leader_idx t))).
  assert (Hk : Z.of_nat k = slot / SLOTS_PER_LEADER - last_slot t / SLOTS_PER_LEADER).
  { unfold k, saturating_sub. lia. }
  destruct (Nat.leb_spec LEADER_BUFFER_SIZE k) as [Hbig|Hsmall].
  - destruct (update_window cache slot (tracked t) Hc Hb) as (b' & -> & Hb' & He' & _).
    eexists. split; [done|]. by split.
  - destruct (shift_window cache (last_slot t) slot k (tracked t)) as (b' & -> & Hb' & He' & _);
      try done; [lia|lia|]. eexists. split; [done|]. by split.
Qed.

Lemma loop_run_tracking cache slots : forall t,
  cache_ok cache -> tracking cache t -> StronglySorted Z.le (last_slot t :: slots) ->
  exists t', loop_run cache slots t = Ok t' /\ tracking cache t' /\
    last_slot t' = default (last_slot t) (last slots).
Proof.
  induction slots as [|slot slots IH]; intros t Hc Ht Hs; [by exists t|].
  apply StronglySorted_inv in Hs as [Hs Hall]. apply Forall_cons in Hall as [Hle _].
  destruct (loop_step_tracking cache slot t Hc Ht Hle) as (t1 & Hstep & Ht1 & Hl1).
  destruct (IH t1) as (t2 & Hrun & Ht2 & Hl2); [done|done|by rewrite Hl1|].
  exists t2. cbn [loop_run]. rewrite Hstep. split; [done|]. split; [done|].
  rewrite Hl2, Hl1. rewrite last_cons. by destruct (last slots).
Qed.

Lemma buffer_new_ok : buffer_ok buffer_new.
Proof. split; [vm_compute; split; [discriminate|reflexivity]|]. done. Qed.

(** A quiet read returns the entry. *)
Lemma read_now_entry b i :
  buffer_ok b -> (i < LEADER_BUFFER_SIZE)%nat -> read_now b i = entries b !! i.
Proof.
  intros (Hv & Ho & Hl) Hi. unfold read_now, read_at, try_read_at, version_load, entries in *.
  rewrite run_bind, run_bind. cbn [load run]. rewrite land_1_eqb, Ho.
  rewrite run_bind. cbn [load_word run].
  destruct (lookup_lt_is_Some_2 (data (lock b)) i) as [e He]; [lia|]. rewrite He. cbn [run].
  rewrite run_bind. cbn [load run]. by rewrite Z.eqb_refl.
Qed.

(** What a tracked buffer answers through [LeaderLookup]. *)
Lemma tracking_lookup cache t i :
  tracking cache t -> (i < LEADER_BUFFER_SIZE)%nat ->
  let e := leader_at cache (window_slot (last_slot t) (Z.of_nat i)) in
  get_leader (tracked t) i =
    (if entry_is_valid e then Some (tpu_quic e, tpu_quic_fwd e) else None) /\
  get_leader_slots (tracked t) i =
    Some (window_slot (last_slot t) (Z.of_nat i), window_slot (last_slot t) (Z.of_nat i) + 3).
Proof.
  intros [Hb _ Hw] Hi. cbn [get_leader get_leader_slots buffer_lookup].
  destruct (Nat.leb_spec LEADER_BUFFER_SIZE i); [lia|].
  by rewrite read_now_entry, Hw, window_lookup by done.
Qed.

(** C21. The tracker keeps the buffer on the schedule: while the cached schedule stays
    the same, the first slot of the loop lies in the leader window of the slot the
    buffer was filled for (otherwise see [start_race_misaligns]) and the observed
    slots never go back, the loop never panics and, after any number of skipped slots or leaders,
    position [i] of the buffer answers with the leader that the cached schedule
    has [i] leaders after the current one, and with that leader's four slots. *)
Theorem tracker_follows_schedule cache initial_slot loop_slot slots i :
  cache_ok cache -> initial_slot / SLOTS_PER_LEADER = loop_slot / SLOTS_PER_LEADER ->
  StronglySorted Z.le (loop_slot :: slots) -> (i < LEADER_BUFFER_SIZE)%nat ->
  exists t0 t, tracker_start cache initial_slot loop_slot = Ok t0 /\
    loop_run cache slots t0 = Ok t /\
    let slot := default loop_slot (last slots) in
    let e := leader_at cache (window_slot slot (Z.of_nat i)) in
    get_leader (tracked t) i =
      (if entry_is_valid e then Some (tpu_quic e, tpu_quic_fwd e) else None) /\
    get_leader_slots (tracked t) i =
      Some (window_slot slot (Z.of_nat i), window_slot slot (Z.of_nat i) + 3).
Proof.
  intros Hc Hsame Hs Hi. unfold tracker_start.
  destruct (update_window cache initial_slot buffer_new Hc buffer_new_ok) as (b & -> & Hb & He & _).
  assert (Ht : tracking cache (loop_start loop_slot b)).
  { split; [done|done|]. simpl. rewrite He. by apply window_same_leader. }
  destruct (loop_run_tracking cache slots _ Hc Ht Hs) as (t & Hrun & Htr & Hlast).
  exists (loop_start loop_slot b), t. split; [done|]. split; [done|].
  cbv zeta. pose proof (tracking_lookup cache t i Htr Hi) as H. rewrite Hlast in H. exact H.
Qed.

(** A schedule of 48 slots from slot 8 on, one port per leader. *)
Definition demo_entry (leader : Z) : LeaderEntry :=
  entry_new (replicate 32 leader) (V4 [10; 0; 0; leader] 8000) (V4 [10; 0; 0; leader] 8001).
Definition demo_cache : ScheduleFetcher :=
  Some {| epoch := 1; epoch_start_slot := 8; slots_in_epoch := 48;
          leaders := (fun s => demo_entry (s / 4)) <$> seqZ 0 48 |}.

Lemma tracker_follows_schedule_witness : exists t0 t,
  tracker_start demo_cache 9 10 = Ok t0 /\ loop_run demo_cache [10; 11; 13; 21] t0 = Ok t /\
  get_leader (tracked t) 1 = Some (V4 [10; 0; 0; 4] 8000, V4 [10; 0; 0; 4] 8001) /\
  get_leader_slots (tracked t) 1 = Some (24, 27).
Proof.
  exact (tracker_follows_schedule demo_cache 9 10 [10; 11; 13; 21] 1
           ltac:(vm_compute; split; [discriminate|reflexivity]) eq_refl
           ltac:(repeat first [apply SSorted_nil | apply SSorted_cons | apply Forall_nil_2 | apply Forall_cons_2]; lia)
           ltac:(unfold LEADER_BUFFER_SIZE; lia)).
Defined.

(** ** Where it does not *)

(** When the slot goes back over a leader boundary and forward again (the
    feed is at "processed" commitment), the saturating difference makes the way
    back a shift by nothing and the way forward a shift by one: the buffer is
    then one leader ahead of the slot, and stays so. *)
Theorem slot_regression_misaligns :
  exists t0 t, tracker_start demo_cache 12 12 = Ok t0 /\
    loop_run demo_cache [11; 12] t0 = Ok t /\ last_slot t = 12 /\
    get_leader_slots (tracked t) 0 = Some (16, 19) /\
    get_leader (tracked t) 0 <> get_leader (tracked t0) 0 /\
    exists t', loop_run demo_cache [13; 14; 15; 16; 20] t = Ok t' /\
      get_leader_slots (tracked t') 0 = Some (24, 27).
Proof.
  eexists _, _. split; [vm_compute; reflexivity|]. split; [vm_compute; reflexivity|].
  split; [vm_compute; reflexivity|]. split; [vm_compute; reflexivity|].
  split; [vm_compute; discriminate|]. eexists. split; vm_compute; reflexivity.
Qed.

(** The start-up race: [start] fills the buffer for the first slot received
    and the loop starts from the slot it finds later; if the leader changed in
    between, the buffer stays one leader behind. *)
Theorem start_race_misaligns :
  exists t0 t, tracker_start demo_cache 11 12 = Ok t0 /\
    loop_run demo_cache [13; 16; 20] t0 = Ok t /\ last_slot t = 20 /\
    get_leader_slots (tracked t) 0 = Some (16, 19).
Proof.
  eexists _, _. split; [vm_compute; reflexivity|]. split; [vm_compute; reflexivity|].
  split; vm_compute; reflexivity.
Qed.

(** ** The schedule cache *)

Section refresh.
Context {E : Type} (parse : string -> option Pubkey).

Lemma fold_insert_lookup base leader slots : forall (m : gmap Z Pubkey) r,
  fold_left (fun m s => <[base + s := leader]> m) slots m !! (base + r)
  = if decide (r ∈ slots) then Some leader else m !! (base + r).
Proof.
  induction slots as [|s slots IH]; intros m r; simpl; [done|]. rewrite IH.
  destruct (decide (r ∈ slots)) as [Hin|Hout].
  - rewrite decide_True; [done|]. by right.
  - destruct (decide (r = s)) as [->|Hne].
    + rewrite lookup_insert_eq, decide_True; [done|]. by left.
    + rewrite lookup_insert_ne by lia. rewrite decide_False; [done|].
      rewrite not_elem_of_cons. done.
Qed.

Lemma add_schedule_lookup base sched pk r : forall m m',
  add_schedule (E := E) parse base sched m = Ok m' ->
  (forall str slots, (str, slots) ∈ sched -> r ∈ slots -> parse str = Some pk) ->
  m !! (base + r) = Some pk \/ (exists str slots, (str, slots) ∈ sched /\ r ∈ slots) ->
  m' !! (base + r) = Some pk.
Proof.
  induction sched as [|[str slots] sched IH]; intros m m' Hadd Huniq Hex; simpl in Hadd.
  { injection Hadd as <-. destruct Hex as [|(str & slots & Hin & _)]; [done|].
    by apply elem_of_nil in Hin. }
  destruct (parse str) as [leader|] eqn:Hp; [|done].
  eapply (IH _ _ Hadd).
  - intros str' slots' Hin Hr. apply (Huniq str' slots'); [by right|done].
  - rewrite fold_insert_lookup. destruct (decide (r ∈ slots)) as [Hr|Hr].
    + left. rewrite <- Hp. apply (Huniq str slots); [by left|done].
    + destruct Hex as [|(str' & slots' & Hin & Hr')]; [by left|].
      apply elem_of_cons in Hin as [[= -> ->]|Hin]; [done|]. right. eauto.
Qed.

(** What is known of a leader without a cluster node. *)
Definition no_addresses : TpuAddresses := {| quic_addr := None; quic_fwd_addr := None |}.

Lemma add_nodes_lookup nodes pk a : forall m m',
  add_nodes (E := E) parse nodes m = Ok m' ->
  (forall n, n ∈ nodes -> parse (node_pubkey n) = Some pk ->
     {| quic_addr := node_tpu_quic n; quic_fwd_addr := node_tpu_forwards_quic n |} = a) ->
  default no_addresses (m !! pk) = a \/ (exists n, n ∈ nodes /\ parse (node_pubkey n) = Some pk) ->
  default no_addresses (m' !! pk) = a.
Proof.
  induction nodes as [|n nodes IH]; intros m m' Hadd Huniq Hex; simpl in Hadd.
  { injection Hadd as <-. destruct Hex as [|(n & Hin & _)]; [done|]. by apply elem_of_nil in Hin. }
  destruct (parse (node_pubkey n)) as [pk'|] eqn:Hp; [|done].
  eapply (IH _ _ Hadd).
  - intros n' Hin. apply Huniq. by right.
  - destruct (decide (pk' = pk)) as [->|Hne].
    + left. rewrite lookup_insert_eq. by apply Huniq; [left|].
    + rewrite lookup_insert_ne by done. destruct Hex as [|(n' & Hin & Hp')]; [by left|].
      apply elem_of_cons in Hin as [->|Hin]; [congruence|]. right. eauto.
Qed.

(** [refresh] replaces the cache only as a whole and only on success: any RPC
    or parse error leaves it as it was, and the vector of a cached schedule
    covers its epoch, so [get_leader_at_slot] never indexes outside it and
    answers exactly for the slots of the cached epoch. *)
Theorem refresh_keeps_cache_ok info schedule nodes cache cache' (r : Result unit (FetcherError E)) slot :
  cache_ok cache -> (forall i, info = Ok i -> 0 <= info_slots i) ->
  refresh parse info schedule nodes cache = (cache', r) ->
  cache_ok cache' /\ (forall e, r = Err e -> cache' = cache) /\
  (forall i, info = Ok i -> r = Ok tt -> current_epoch cache' = Some (info_epoch i)) /\
  exists o, get_leader_at_slot cache' slot = Ok o /\
    (is_Some o <-> is_slot_in_cache cache' slot = true).
Proof.
  intros Hc Hinfo Href.
  assert (H : cache_ok cache' /\ (forall e, r = Err e -> cache' = cache) /\
    (forall i, info = Ok i -> r = Ok tt -> current_epoch cache' = Some (info_epoch i))).
  { unfold refresh in Href. destruct info as [i|]; [|by simplify_eq].
    destruct cache as [c|] eqn:Hcache; [destruct (Z.eqb_spec (epoch c) (info_epoch i))|].
    1: { simplify_eq. split; [done|]. split; [done|]. intros ? [= <-] _. simpl. by f_equal. }
    all: destruct schedule as [[s|]|]; [|by simplify_eq..];
      destruct (add_schedule _ _ _ _); [|by simplify_eq];
      destruct nodes as [ns|]; [|by simplify_eq];
      destruct (add_nodes _ _ _); [|by simplify_eq]; simplify_eq; specialize (Hinfo _ eq_refl);
      (split; [split; simpl; [done|by rewrite length_fmap, length_seqZ]|]); split; [done|];
      by intros ? [= <-] _. }
  destruct H as (Hc' & He & Hep). split; [done|]. split; [done|]. split; [done|].
  unfold get_leader_at_slot, is_slot_in_cache. destruct cache' as [c'|].
  - destruct (in_epoch c' slot) eqn:Hin.
    + rewrite leader_index_ok by done. eexists. split; [done|]. split; eauto.
    + exists None. split; [done|]. split; [by intros [? [=]]|done].
  - exists None. split; [done|]. split; [by intros [? [=]]|done].
Qed.

(** The schedule lists [pk], and no other key, for the relative slot. *)
Definition scheduled (schedule : list (string * list Z)) (rel : Z) (pk : Pubkey) : Prop :=
  (exists str slots, (str, slots) ∈ schedule /\ rel ∈ slots) /\
  forall str slots, (str, slots) ∈ schedule -> rel ∈ slots -> parse str = Some pk.

(** What the cluster nodes of [pk] advertise: these addresses, where nodes that
    name [pk] agree; nothing when there is none. *)
Definition advertised (nodes : list RpcContactInfo) (pk : Pubkey) (a : TpuAddresses) : Prop :=
  (a = no_addresses \/ exists n, n ∈ nodes /\ parse (node_pubkey n) = Some pk) /\
  forall n, n ∈ nodes -> parse (node_pubkey n) = Some pk ->
    {| quic_addr := node_tpu_quic n; quic_fwd_addr := node_tpu_forwards_quic n |} = a.

(** C23. A refresh for a new epoch serves the schedule.  For a slot of the epoch
    that the schedule lists under one leader only, and whose cluster nodes agree on
    their addresses: if the leader advertises both QUIC addresses the slot answers
    with an entry of the leader that reads back these addresses, where they are
    IPv4 (the entry of any other address is 0.0.0.0 with its port, of a mapped one its
    IPv4 part); if it leaves out one of them, or no node is the leader's, the slot
    answers with the empty entry, which is not valid. *)
Theorem refresh_serves_schedule i schedule nodes cache cache' pk a rel :
  0 <= rel < info_slots i ->
  current_epoch cache <> Some (info_epoch i) ->
  refresh (E := E) parse (Ok i) (Ok (Some schedule)) (Ok nodes) cache = (cache', Ok tt) ->
  scheduled schedule rel pk -> advertised nodes pk a ->
  exists e, get_leader_at_slot cache' (absolute_slot i - slot_index i + rel) = Ok (Some e) /\
    match quic_addr a, quic_fwd_addr a with
    | Some q, Some f => e = entry_new pk q f /\ pubkey e = pk /\
        (is_v4 q -> tpu_quic e = q) /\ (is_v4 f -> tpu_quic_fwd e = f)
    | _, _ => e = EMPTY /\ entry_is_valid e = false
    end.
Proof.
  intros Hrel Hep Href [(str & slots & Hs & Hr) Hus] [Hn Hun]. unfold refresh in Href.
  assert (Hnc : match cache with Some c => epoch c =? info_epoch i | None => false end = false).
  { destruct cache as [c|]; [|done]. apply Z.eqb_neq. intros He. apply Hep. simpl. by rewrite He. }
  rewrite Hnc in Href.
  destruct (add_schedule _ _ _ _) as [sl|] eqn:Hsl; [|done].
  destruct (add_nodes _ _ _) as [tp|] eqn:Htp; [|done]. injection Href as <-.
  pose proof (add_schedule_lookup _ _ pk rel _ _ Hsl Hus (or_intror (ex_intro _ str (ex_intro _ slots (conj Hs Hr))))) as H1.
  assert (H2 : default no_addresses (tp !! pk) = a).
  { apply (add_nodes_lookup _ pk a _ _ Htp Hun). destruct Hn as [->|Hn]; [left|by right]. by rewrite lookup_empty. }
  unfold get_leader_at_slot, in_epoch, leader_index. simpl.
  destruct (Z.leb_spec (absolute_slot i - slot_index i) (absolute_slot i - slot_index i + rel)); [|lia].
  destruct (Z.ltb_spec (absolute_slot i - slot_index i + rel) (absolute_slot i - slot_index i + info_slots i)); [|lia].
  replace (absolute_slot i - slot_index i + rel - (absolute_slot i - slot_index i)) with rel by lia.
  rewrite list_lookup_fmap, lookup_seqZ_lt by lia. rewrite Z.add_0_l, Z2Nat.id by lia.
  cbn [andb fmap option_fmap option_map]. eexists. split; [reflexivity|]. unfold slot_entry. rewrite H1. unfold no_addresses in H2. rewrite H2.
  destruct (quic_addr a) as [q|], (quic_fwd_addr a) as [f|]; [|done..]. split; [done|].
  unfold entry_new. destruct (extract_ipv4 q) eqn:Hq, (extract_ipv4 f) eqn:Hf. split; [done|].
  split; intros Hv; [destruct q|destruct f]; (done || by simplify_eq/=).
Qed.

End refresh.

(** An epoch of eight slots with one leader. *)
Definition demo_parse (s : string) : option Pubkey :=
  if decide (s = "leader"%string) then Some [7] else None.

Lemma refresh_serves_schedule_witness :
  exists e, get_leader_at_slot
    (refresh (E := unit) demo_parse
       (Ok {| info_epoch := 2; slot_index := 3; info_slots := 8; absolute_slot := 103 |})
       (Ok (Some [("leader"%string, [0; 1; 2; 3; 4; 5; 6; 7])]))
       (Ok [{| node_pubkey := "leader"; node_tpu_quic := Some (V4 [1; 2; 3; 4] 8000);
               node_tpu_forwards_quic := Some (V4 [1; 2; 3; 4] 8001) |}]) None).1 105
    = Ok (Some e) /\ e = entry_new [7] (V4 [1; 2; 3; 4] 8000) (V4 [1; 2; 3; 4] 8001) /\ pubkey e = [7] /\
    (is_v4 (V4 [1; 2; 3; 4] 8000) -> tpu_quic e = V4 [1; 2; 3; 4] 8000) /\
    (is_v4 (V4 [1; 2; 3; 4] 8001) -> tpu_quic_fwd e = V4 [1; 2; 3; 4] 8001).
Proof.
  apply (refresh_serves_schedule (E := unit) demo_parse
    {| info_epoch := 2; slot_index := 3; info_slots := 8; absolute_slot := 103 |}
    [("leader"%string, [0; 1; 2; 3; 4; 5; 6; 7])]
    [{| node_pubkey := "leader"; node_tpu_quic := Some (V4 [1; 2; 3; 4] 8000);
        node_tpu_forwards_quic := Some (V4 [1; 2; 3; 4] 8001) |}] None _ [7]
    {| quic_addr := Some (V4 [1; 2; 3; 4] 8000); quic_fwd_addr := Some (V4 [1; 2; 3; 4] 8001) |} 5).
  - simpl. lia.
  - discriminate.
  - reflexivity.
  - split.
    + exists "leader"%string, [0; 1; 2; 3; 4; 5; 6; 7]. split; [by left|]. apply (elem_of_seqZ 0 8). lia.
    + intros str' slots' [[= -> ->]|Hin%elem_of_nil]%elem_of_cons _; [reflexivity|done].
  - split.
    + right. eexists. split; [by left|reflexivity].
    + intros n' [->|Hin%elem_of_nil]%elem_of_cons _; done.
Defined.

Lemma refresh_keeps_cache_ok_witness :
  cache_ok None /\ exists o, get_leader_at_slot None 5 = Ok o /\ (is_Some o <-> is_slot_in_cache None 5 = true).
Proof.
  destruct (refresh_keeps_cache_ok (E := unit) demo_parse (Err tt) (Ok None) (Ok []) None None
    (Err (Rpc tt)) 5) as (Hc & _ & _ & Ho); [exact I|discriminate|reflexivity|].
  split; [exact Hc|exact Ho].
Defined.
