(* ===== verification/TxQueue.v ===== *)
(** * TxQueue: the transaction queue of a QUIC connection

    [quic/src/connection.rs], [TransactionQueue]: a ring of [N] packet buffers
    with a count, a head and a tail.  Operations are programs as in [Spsc]; a
    buffer and its length are written and read by separate actions.  By itself
    the queue is a FIFO of packets; run by a producer and a consumer at the same
    time, as its comment allows, it is not: the count is raised before the slot
    is written.  The counters are [usize] and are not reduced: they count packets
    over the life of one connection. *)
From S2P Require Import Prelude Conc Cpu.

Definition MAX_PACKET_SIZE : nat := Z.to_nat 1350.
Arguments MAX_PACKET_SIZE : simpl never.
Definition DEFAULT_TX_QUEUE_CAPACITY : Z := 16.

(** [error.rs]: what became of a transaction. *)
Inductive SendStatus : Type :=
| Sent
| Queued (position : Z)
| SentEarlyData
| QueueFull
| Dead (retries : Z).

Record TransactionQueue : Type := {
  buffers : list (list Z);
  lengths : list Z;
  head : Z;
  tail : Z;
  count : Z;
}.

Section queue.
Context (N : Z).
Abbreviation P := (prog TransactionQueue unit).
Implicit Types q : TransactionQueue.

Definition new : TransactionQueue :=
  {| buffers := replicate (Z.to_nat N) (replicate MAX_PACKET_SIZE 0);
     lengths := replicate (Z.to_nat N) 0; head := 0; tail := 0; count := 0 |}.

Definition with_count (n : Z) q : TransactionQueue :=
  {| buffers := buffers q; lengths := lengths q; head := head q; tail := tail q; count := n |}.
Definition with_head (n : Z) q : TransactionQueue :=
  {| buffers := buffers q; lengths := lengths q; head := n; tail := tail q; count := count q |}.
Definition with_tail (n : Z) q : TransactionQueue :=
  {| buffers := buffers q; lengths := lengths q; head := head q; tail := n; count := count q |}.

(** [buf[..data.len()].copy_from_slice(data)] *)
Definition write_buffer (slot : nat) (data : list Z) q : TransactionQueue :=
  {| buffers := alter (fun buf => data ++ drop (length data) buf) slot (buffers q);
     lengths := lengths q; head := head q; tail := tail q; count := count q |}.
(** [*len_ptr = data.len() as u16] *)
Definition write_length (slot : nat) (len : Z) q : TransactionQueue :=
  {| buffers := buffers q; lengths := <[slot := len mod 65536]> (lengths q);
     head := head q; tail := tail q; count := count q |}.

Definition slot_of (i : Z) : nat := Z.to_nat (i mod N).

Definition try_enqueue (data : list Z) : P SendStatus :=
  if (MAX_PACKET_SIZE <? length data)%nat then Ret (Dead 0)
  else
    let! c := load count in
    if N <=? c then Ret QueueFull
    else
      let! current_count := rmw (fun q => with_count (count q + 1) q) count in
      if N <=? current_count then
        store (fun q => with_count (count q - 1) q) ;;; Ret QueueFull
      else
        let! h := load head in
        let slot := slot_of h in
        store (write_buffer slot data) ;;;
        store (write_length slot (Z.of_nat (length data))) ;;;
        store (fun q => with_head (head q + 1) q) ;;;
        Ret (Queued (current_count mod 256)).

Definition load_slot {A} (get : TransactionQueue -> list A) (slot : nat) : P A :=
  Act (fun q => ([], q))
      (fun q => match get q !! slot with
                | Some a => Ret a
                | None => Fault (Panic "index out of bounds")
                end).

Definition try_dequeue : P (option (list Z * Z)) :=
  let! c := load count in
  if c =? 0 then Ret None
  else
    let! prev_count := rmw (fun q => with_count (count q - 1) q) count in
    if prev_count =? 0 then
      store (fun q => with_count (count q + 1) q) ;;; Ret None
    else
      let! t := load tail in
      let slot := slot_of t in
      let! len := load_slot lengths slot in
      let! buf := load_slot buffers slot in
      store (fun q => with_tail (tail q + 1) q) ;;;
      Ret (Some (buf, len)).

Definition has_pending : P bool := load (fun q => 0 <? count q).

(** [drain(f)]: the slices handed to [f]; [None]: more packets than [fuel]. *)
Fixpoint drain (fuel : nat) : P (option (list (list Z))) :=
  match fuel with
  | O => Ret None
  | Datatypes.S fuel =>
      let! r := try_dequeue in
      match r with
      | None => Ret (Some [])
      | Some (buf, len) =>
          let! rest := drain fuel in
          Ret (match rest with
               | Some packets => Some (take (Z.to_nat len) buf :: packets)
               | None => None
               end)
      end
  end.

(** ** Alone, the queue is a FIFO *)

(** The packet in the slot of index [i]. *)
Definition packet q (i : Z) : list Z :=
  match buffers q !! slot_of i, lengths q !! slot_of i with
  | Some buf, Some len => take (Z.to_nat len) buf
  | _, _ => []
  end.

Definition packets q : list (list Z) := packet q <$> seqZ (tail q) (count q).

Record queue_ok q : Prop := {
  qo_buffers : Z.of_nat (length (buffers q)) = N;
  qo_lengths : Z.of_nat (length (lengths q)) = N;
  qo_size : Forall (fun buf => length buf = MAX_PACKET_SIZE) (buffers q);
  qo_bound : Forall (fun len => 0 <= len <= Z.of_nat MAX_PACKET_SIZE) (lengths q);
  qo_order : 0 <= tail q /\ head q = tail q + count q;
  qo_count : 0 <= count q <= N;
}.

Context (HN : 0 < N).

Lemma new_ok : queue_ok new /\ packets new = [].
Proof.
  split; [|done].
  split; cbn [new buffers lengths head tail count]; rewrite ?length_replicate; try lia.
  - apply Forall_replicate, length_replicate.
  - apply Forall_replicate. lia.
Qed.

Lemma slot_lt i (A : Type) (l : list A) : Z.of_nat (length l) = N -> (slot_of i < length l)%nat.
Proof. intros Hl. unfold slot_of. pose proof (Z.mod_pos_bound i N HN). lia. Qed.

Lemma slot_inj lo a b :
  lo <= a < lo + N -> lo <= b < lo + N -> slot_of a = slot_of b -> a = b.
Proof.
  intros Ha Hb He. unfold slot_of in He.
  pose proof (Z.mod_pos_bound a N HN). pose proof (Z.mod_pos_bound b N HN).
  assert (Hm : a mod N = b mod N) by lia.
  pose proof (Z.div_mod a N). pose proof (Z.div_mod b N). assert (a / N = b / N) by nia. nia.
Qed.

(** Writing the head slot leaves the queued packets alone. *)
Lemma packet_write q data i j :
  queue_ok q -> (length data <= MAX_PACKET_SIZE)%nat ->
  packet (write_length (slot_of i) (Z.of_nat (length data)) (write_buffer (slot_of i) data q)) j
  = if decide (slot_of j = slot_of i) then data else packet q j.
Proof.
  intros Hq Hd. unfold packet. simpl. destruct (decide (slot_of j = slot_of i)) as [->|Hne].
  - rewrite list_lookup_alter_eq.
    destruct (lookup_lt_is_Some_2 (buffers q) (slot_of i)) as [buf Hb]; [apply slot_lt, Hq|].
    rewrite Hb. simpl. rewrite list_lookup_insert_eq by (apply slot_lt, Hq).
    rewrite Z.mod_small by (unfold MAX_PACKET_SIZE in *; lia).
    rewrite Nat2Z.id. apply take_app_length.
  - by rewrite list_lookup_alter_ne, list_lookup_insert_ne.
Qed.

(** [try_enqueue] by itself: an oversized packet is refused, a full queue is
    reported, and otherwise the packet goes to the end of the queue and the
    reported position is the number of packets before it. *)
Theorem try_enqueue_spec q data :
  queue_ok q ->
  exists q', queue_ok q' /\
    run (try_enqueue data) q =
      ([], q', inr (if (MAX_PACKET_SIZE <? length data)%nat then Dead 0
                    else if N <=? count q then QueueFull else Queued (count q mod 256))) /\
    packets q' = if (MAX_PACKET_SIZE <? length data)%nat || (N <=? count q)
                 then packets q else packets q ++ [data].
Proof.
  intros Hq. unfold try_enqueue. destruct (Nat.ltb_spec MAX_PACKET_SIZE (length data)) as [|Hd].
  { by exists q. }
  rewrite run_bind. cbn [load run]. destruct (N <=? count q) eqn:Hfull.
  { by exists q. }
  rewrite run_bind. cbn [rmw run]. rewrite Hfull. simpl.
  set (q1 := write_length (slot_of (head q)) (Z.of_nat (length data))
               (write_buffer (slot_of (head q)) data q)).
  set (q' := with_head (head q + 1) (with_count (count q + 1) q1)).
  exists q'. pose proof Hq as [Hb Hl Hs Hle [Ht Hh] Hc]. apply Z.leb_gt in Hfull. split; [|split; [done|]].
  - split; simpl; rewrite ?length_alter, ?length_insert; try done; try lia.
    + apply Forall_alter; [done|]. intros buf _ Hlen. rewrite length_app, length_drop. lia.
    + apply Forall_insert; [done|]. rewrite Z.mod_small by (unfold MAX_PACKET_SIZE in *; lia). lia.
  - assert (Hp : forall j, packet q' j = if decide (slot_of j = slot_of (head q)) then data else packet q j).
    { intros j. exact (packet_write q data (head q) j Hq Hd). }
    unfold packets. cbn [tail count with_head with_count q' q1 write_length write_buffer].
    rewrite seqZ_app, fmap_app by lia. f_equal.
    + apply list_fmap_ext. intros k i Hk. apply lookup_seqZ in Hk as [-> Hk].
      rewrite Hp, decide_False; [done|]. intros He. apply (slot_inj (tail q)) in He; lia.
    + change (seqZ (tail q + count q) 1) with [tail q + count q]. simpl. f_equal.
      by rewrite Hp, Hh, decide_True.
Qed.

(** The oldest packet, or nothing. *)
Lemma run_try_dequeue q :
  queue_ok q ->
  match packets q with
  | [] => run try_dequeue q = ([], q, inr None)
  | p :: ps => exists q' buf len, queue_ok q' /\ packets q' = ps /\
      take (Z.to_nat len) buf = p /\ (Z.to_nat len <= length buf)%nat /\
      run try_dequeue q = ([], q', inr (Some (buf, len)))
  end.
Proof.
  intros Hq. pose proof Hq as [Hb Hl Hs Hle [Ht Hh] Hc].
  unfold packets. destruct (Z.eq_dec (count q) 0) as [H0|Hne].
  { rewrite H0. change (seqZ (tail q) 0) with (@nil Z). simpl. unfold try_dequeue. simpl. by rewrite H0. }
  rewrite seqZ_cons by lia. cbn [fmap list_fmap].
  destruct (lookup_lt_is_Some_2 (buffers q) (slot_of (tail q))) as [buf Hbuf]; [by apply slot_lt|].
  destruct (lookup_lt_is_Some_2 (lengths q) (slot_of (tail q))) as [len Hlen]; [by apply slot_lt|].
  exists (with_tail (tail q + 1) (with_count (count q - 1) q)), buf, len.
  split; [split; simpl; try done; lia|]. split.
  - unfold packets. simpl. rewrite Z.sub_1_r. apply list_fmap_ext. done.
  - split; [unfold packet; by rewrite Hbuf, Hlen|]. split.
    { pose proof (Forall_lookup_1 _ _ _ _ Hs Hbuf) as Hbl. pose proof (Forall_lookup_1 _ _ _ _ Hle Hlen) as Hll.
      simpl in Hbl, Hll. lia. }
    unfold try_dequeue. rewrite run_bind. cbn [load run].
    destruct (Z.eqb_spec (count q) 0); [done|]. rewrite run_bind. cbn [rmw run].
    destruct (Z.eqb_spec (count q) 0); [done|]. rewrite run_bind. cbn [load run].
    change (tail (with_count (count q - 1) q)) with (tail q).
    rewrite run_bind. cbn [load_slot run].
    change (lengths (with_count (count q - 1) q)) with (lengths q). rewrite Hlen. cbn [run].
    rewrite run_bind. cbn [load_slot run].
    change (buffers (with_count (count q - 1) q)) with (buffers q). by rewrite Hbuf.
Qed.

(** [drain] by itself hands out every queued packet, byte for byte, oldest
    first, and leaves the queue empty; one round more than there are packets is
    enough. *)
Theorem drain_spec q :
  queue_ok q ->
  exists q', queue_ok q' /\ packets q' = [] /\
    run (drain (Datatypes.S (length (packets q)))) q = ([], q', inr (Some (packets q))).
Proof.
  remember (packets q) as ps eqn:Hps. revert q Hps. induction ps as [|p ps IH]; intros q Hps Hq;
    pose proof (run_try_dequeue q Hq) as Hd; rewrite <- Hps in Hd.
  - exists q. split; [done|]. split; [done|]. cbn [drain length]. by rewrite run_bind, Hd.
  - destruct Hd as (q1 & buf & len & Hq1 & Hps1 & Hp & _ & Hrun).
    destruct (IH q1 (eq_sym Hps1) Hq1) as (q2 & Hq2 & He2 & Hrun2).
    exists q2. split; [done|]. split; [done|].
    change (length (p :: ps)) with (Datatypes.S (length ps)).
    remember (Datatypes.S (length ps)) as n. cbn [drain].
    rewrite run_bind, Hrun, run_bind, Hrun2. by rewrite Hp.
Qed.

End queue.

(** A queue of two places: [try_enqueue_spec] and [drain_spec] at work. *)
Definition two_packets : TransactionQueue :=
  {| buffers := [[1; 2; 3] ++ replicate 1347 0; [4] ++ replicate 1349 0]; lengths := [3; 1];
     head := 2; tail := 0; count := 2 |}.

Lemma two_packets_ok : queue_ok 2 two_packets.
Proof.
  split; cbn [two_packets buffers lengths head tail count length]; try lia.
  - repeat (apply Forall_cons_2; [unfold MAX_PACKET_SIZE; rewrite length_app, length_replicate; simpl; lia|]).
    apply Forall_nil_2.
  - repeat (apply Forall_cons_2; [unfold MAX_PACKET_SIZE; lia|]). apply Forall_nil_2.
Qed.

Lemma try_enqueue_spec_witness : exists q', run (try_enqueue 2 [7]) two_packets = ([], q', inr QueueFull).
Proof.
  destruct (try_enqueue_spec 2 ltac:(lia) two_packets [7] two_packets_ok) as (q' & _ & Hrun & _).
  exists q'. exact Hrun.
Defined.

Lemma drain_spec_witness : exists q', run (drain 2 3) two_packets = ([], q', inr (Some [[1; 2; 3]; [4]])).
Proof.
  destruct (drain_spec 2 ltac:(lia) two_packets two_packets_ok) as (q' & _ & _ & Hrun).
  exists q'. exact Hrun.
Defined.

(** ** Run by two threads, it is not *)

(** The producer has raised the count and not yet written the slot when the
    consumer runs. *)
Definition race_pool (data : list Z) : list (prog TransactionQueue unit (SendStatus + option Z)) :=
  [let! r := try_enqueue DEFAULT_TX_QUEUE_CAPACITY data in Ret (inl r);
   let! r := try_dequeue DEFAULT_TX_QUEUE_CAPACITY in Ret (inr (snd <$> r))].
Definition race_sched : list nat := [0; 0]%nat ++ replicate 6 1%nat ++ replicate 4 0%nat.

(** One producer and one consumer are enough to lose a packet: in this
    interleaving [try_enqueue] reports the packet as queued, [try_dequeue] has
    returned an empty packet that nobody sent, and the queue is left empty. *)
Theorem queue_race_loses_packet :
  let '(ts, (q, _)) :=
    run_sched race_sched (race_pool [1; 2; 3], (new DEFAULT_TX_QUEUE_CAPACITY, [])) in
  ts = [Ret (inl (Queued 0)); Ret (inr (Some 0))] /\
  packets DEFAULT_TX_QUEUE_CAPACITY q = [] /\ tail q = head q.
Proof. vm_compute. done. Qed.
