(* ===== verification/SessionCache.v ===== *)
(** * SessionCache: the 0-RTT session token cache

    [quic/src/session_cache.rs].  64 shards of two slots; a slot is an atomic
    packed address (0: empty), a token under a [SeqLock] and a version.  Every
    access to a slot's address, token (atomic thanks to the lock, see [SeqLock])
    or version is one action.  The clock is an argument of the operations that
    read it. *)
From S2P Require Import Prelude Conc Net.

Definition MAX_CACHE_SIZE : Z := 128.
Definition SHARDS : Z := 64.
Definition SLOTS_PER_SHARD : Z := MAX_CACHE_SIZE / SHARDS.
Definition SESSION_TTL_NS : Z := 3600000000000.

(** ** Packed addresses *)

Definition from_be (octets : list Z) : Z := fold_left (fun acc b => acc * 256 + b) octets 0.

(** [Ipv6Addr::segments] *)
Fixpoint segments (octets : list Z) : list Z :=
  match octets with
  | a :: b :: rest => (a * 256 + b) :: segments rest
  | _ => []
  end.

Definition pack_addr (addr : SocketAddr) : Z :=
  match addr with
  | V4 octets port => Z.lor (Z.shiftl (from_be octets) 16) port
  | V6 octets port =>
      let mix hash x := (Z.lxor hash x * 1099511628211) mod U64 in
      let hash := fold_left mix (segments octets) 2166136261 in
      Z.land (mix hash port) 281474976710655
  end.

Definition to_be4 (ip : Z) : list Z :=
  [ip / 16777216 mod 256; ip / 65536 mod 256; ip / 256 mod 256; ip mod 256].

Definition unpack_addr_v4 (packed : Z) : SocketAddr :=
  V4 (to_be4 (Z.shiftr packed 16 mod U32)) (Z.land packed 65535).

(** ** Tokens and slots *)

Record SessionToken : Type := { data : list Z; len : nat; timestamp_ns : Z }.

Definition token_empty : SessionToken :=
  {| data := replicate (Z.to_nat 1024) 0; len := 0; timestamp_ns := 0 |}.

Definition token_is_valid (t : SessionToken) (now_ns : Z) : bool :=
  (0 <? len t)%nat && (saturating_sub now_ns (timestamp_ns t) <? SESSION_TTL_NS).

Definition as_slice (t : SessionToken) : list Z := take (len t) (data t).

Record AtomicSlot : Type := { addr : Z; token : SessionToken; version : Z }.
Definition slot_new : AtomicSlot := {| addr := 0; token := token_empty; version := 0 |}.

Definition set_addr (a : Z) (s : AtomicSlot) : AtomicSlot :=
  {| addr := a; token := token s; version := version s |}.
Definition set_token (t : SessionToken) (s : AtomicSlot) : AtomicSlot :=
  {| addr := addr s; token := t; version := version s |}.
Definition bump (s : AtomicSlot) : AtomicSlot :=
  {| addr := addr s; token := token s; version := wrapping_add64 (version s) 1 |}.

Record SessionTokenCache : Type := {
  shards : list (list AtomicSlot);
  evict_counter : Z;
}.

Definition cache_new : SessionTokenCache :=
  {| shards := replicate (Z.to_nat SHARDS) [slot_new; slot_new]; evict_counter := 0 |}.

Definition shard_for (a : SocketAddr) : nat := Z.to_nat (as_usize (pack_addr a) mod SHARDS).

(** ** Operations *)

Abbreviation P := (prog SessionTokenCache unit).

Definition get_slot (sh i : nat) (c : SessionTokenCache) : option AtomicSlot :=
  shards c !! sh ≫= (fun slots => slots !! i).
Definition on_slot (sh i : nat) (f : AtomicSlot -> AtomicSlot) (c : SessionTokenCache)
    : SessionTokenCache :=
  {| shards := alter (fun slots => alter f i slots) sh (shards c);
     evict_counter := evict_counter c |}.

Definition index_msg : string := "index out of bounds".

Definition load_slot {A} (sh i : nat) (get : AtomicSlot -> A) : P A :=
  Act (fun c => ([], c))
      (fun c => match get_slot sh i c with
                | Some s => Ret (get s)
                | None => Fault (Panic index_msg)
                end).
Definition store_slot (sh i : nat) (f : AtomicSlot -> AtomicSlot) : P unit := store (on_slot sh i f).

(** The scan of [get] from slot [i] on, [n] slots left. *)
Fixpoint get_scan (sh i n : nat) (target_addr now_ns : Z) : P (option SessionToken) :=
  match n with
  | O => Ret None
  | Datatypes.S n =>
      let! slot_addr := load_slot sh i addr in
      if slot_addr =? target_addr then
        let! t := load_slot sh i token in
        Ret (if token_is_valid t now_ns then Some t else None)
      else get_scan sh (Datatypes.S i) n target_addr now_ns
  end.

Definition get (now_ns : Z) (a : SocketAddr) : P (option SessionToken) :=
  get_scan (shard_for a) 0 (Z.to_nat SLOTS_PER_SHARD) (pack_addr a) now_ns.

Definition write_slot (sh i : nat) (t : SessionToken) : P unit :=
  store_slot sh i (set_token t) ;;; store_slot sh i bump.

(** [compare_exchange(0, target)] on the slot's address. *)
Definition claim_slot (sh i : nat) (target_addr : Z) : P bool :=
  Act (fun c => ([], on_slot sh i (fun s => if addr s =? 0 then set_addr target_addr s else s) c))
      (fun c => match get_slot sh i c with
                | Some s => Ret (addr s =? 0)
                | None => Fault (Panic index_msg)
                end).

(** [true]: stored in one of the slots scanned. *)
Fixpoint insert_scan (sh i n : nat) (target_addr : Z) (t : SessionToken) : P bool :=
  match n with
  | O => Ret false
  | Datatypes.S n =>
      let! current_addr := load_slot sh i addr in
      if current_addr =? target_addr then write_slot sh i t ;;; Ret true
      else if current_addr =? 0 then
        let! ok := claim_slot sh i target_addr in
        if ok then write_slot sh i t ;;; Ret true
        else insert_scan sh (Datatypes.S i) n target_addr t
      else insert_scan sh (Datatypes.S i) n target_addr t
  end.

Definition make_token (token_data : list Z) (now_ns : Z) : SessionToken :=
  {| data := token_data ++ drop (length token_data) (data token_empty);
     len := length token_data; timestamp_ns := now_ns |}.

Definition insert (now_ns : Z) (a : SocketAddr) (token_data : list Z) : P (Result unit string) :=
  if (Z.to_nat 1024 <? length token_data)%nat then Ret (Err "Session token exceeds maximum size"%string)
  else
    let sh := shard_for a in
    let target_addr := pack_addr a in
    let t := make_token token_data now_ns in
    let! stored := insert_scan sh 0 (Z.to_nat SLOTS_PER_SHARD) target_addr t in
    if stored then Ret (Ok tt)
    else
      let! n := rmw (fun c => {| shards := shards c;
                                 evict_counter := wrapping_add64 (evict_counter c) 1 |}) evict_counter in
      let evict_slot_idx := Z.to_nat (n mod SLOTS_PER_SHARD) in
      store_slot sh evict_slot_idx (set_addr target_addr) ;;;
      write_slot sh evict_slot_idx t ;;;
      Ret (Ok tt).

Fixpoint invalidate_scan (sh i n : nat) (target_addr : Z) : P unit :=
  match n with
  | O => Ret tt
  | Datatypes.S n =>
      let! current_addr := load_slot sh i addr in
      if current_addr =? target_addr then
        store_slot sh i (set_addr 0) ;;; store_slot sh i bump
      else invalidate_scan sh (Datatypes.S i) n target_addr
  end.

Definition invalidate (a : SocketAddr) : P unit :=
  invalidate_scan (shard_for a) 0 (Z.to_nat SLOTS_PER_SHARD) (pack_addr a).

Record CacheStats : Type := { total_capacity : Z; entries_used : Z; entries_expired : Z }.

(** [stats] without interference. *)
Definition stats (now_ns : Z) (c : SessionTokenCache) : CacheStats :=
  let occupied := filter (fun s => addr s <> 0) (mjoin (shards c)) in
  {| total_capacity := MAX_CACHE_SIZE;
     entries_used := Z.of_nat (length occupied);
     entries_expired :=
       Z.of_nat (length (filter (fun s => token_is_valid (token s) now_ns = false) occupied)) |}.

(** ** Packing IPv4 addresses loses nothing *)

Lemma from_be4 a b c d : from_be [a; b; c; d] = a * 16777216 + b * 65536 + c * 256 + d.
Proof. unfold from_be. simpl. lia. Qed.

Lemma pack_v4 a b c d p :
  0 <= p < 65536 -> pack_addr (V4 [a; b; c; d] p) = from_be [a; b; c; d] * 65536 + p.
Proof.
  intros Hp. unfold pack_addr. rewrite Z.shiftl_mul_pow2 by lia.
  apply lor_field; lia.
Qed.

Lemma v4_octets o p : addr_ok (V4 o p) ->
  exists a b c d, o = [a; b; c; d] /\ 0 <= a < 256 /\ 0 <= b < 256 /\ 0 <= c < 256 /\ 0 <= d < 256 /\
    0 <= p < 65536.
Proof.
  intros (Hl & Ho & Hp). destruct o as [|a [|b [|c [|d [|]]]]]; try done.
  repeat (apply Forall_cons in Ho as [? Ho]). by exists a, b, c, d.
Qed.

Lemma unpack_pack_v4 o p : addr_ok (V4 o p) -> unpack_addr_v4 (pack_addr (V4 o p)) = V4 o p.
Proof.
  intros (a & b & c & d & -> & Ha & Hb & Hc & Hd & Hp)%v4_octets.
  rewrite pack_v4 by done. unfold unpack_addr_v4. rewrite from_be4.
  set (ip := a * 16777216 + b * 65536 + c * 256 + d).
  assert (Hip : 0 <= ip < U32) by (unfold ip, U32; lia).
  rewrite Z.shiftr_div_pow2 by lia. change (2 ^ 16) with 65536.
  rewrite Z.div_add_l, (Z.div_small p), Z.add_0_r, Z.mod_small by lia.
  change 65535 with (Z.ones 16). rewrite Z.land_ones by lia. change (2 ^ 16) with 65536.
  rewrite Z.add_comm, Z_mod_plus_full, Z.mod_small by lia.
  f_equal. unfold to_be4, ip. clear Hip ip.
  repeat (f_equal; try (Z.to_euclidean_division_equations; lia)).
Qed.

Lemma pack_v4_inj a b : is_v4 a -> is_v4 b -> addr_ok a -> addr_ok b -> pack_addr a = pack_addr b -> a = b.
Proof.
  destruct a as [o p|], b as [o' p'|]; try done. intros _ _ Ha Hb He.
  by rewrite <- (unpack_pack_v4 o p), <- (unpack_pack_v4 o' p'), He.
Qed.

(** ** The operations by themselves, on the two slots of a shard *)

Definition cache_shape (c : SessionTokenCache) : Prop :=
  length (shards c) = Z.to_nat SHARDS /\ Forall (fun slots => length slots = 2%nat) (shards c) /\
  0 <= evict_counter c.

Lemma shard_for_lt a : (shard_for a < Z.to_nat SHARDS)%nat.
Proof. unfold shard_for, SHARDS. pose proof (Z.mod_pos_bound (as_usize (pack_addr a)) 64). lia. Qed.

Lemma shape_shard c a : cache_shape c -> exists s0 s1, shards c !! shard_for a = Some [s0; s1].
Proof.
  intros (Hl & Hs & _). destruct (lookup_lt_is_Some_2 (shards c) (shard_for a)) as [slots Hx].
  { rewrite Hl. apply shard_for_lt. }
  pose proof (Forall_lookup_1 _ _ _ _ Hs Hx) as H2. destruct slots as [|s0 [|s1 [|]]]; try done. eauto.
Qed.

Definition with_shard (sh : nat) (slots : list AtomicSlot) (c : SessionTokenCache) : SessionTokenCache :=
  {| shards := <[sh := slots]> (shards c); evict_counter := evict_counter c |}.
Definition with_evict (n : Z) (c : SessionTokenCache) : SessionTokenCache :=
  {| shards := shards c; evict_counter := n |}.

Lemma on_slot_shard sh i f c slots :
  shards c !! sh = Some slots -> on_slot sh i f c = with_shard sh (alter f i slots) c.
Proof.
  intros Hs. unfold on_slot, with_shard. f_equal.
  by apply list_alter_at.
Qed.

(** What a lookup sees in the slots of the shard. *)
Fixpoint slots_get (slots : list AtomicSlot) (target_addr now_ns : Z) : option SessionToken :=
  match slots with
  | [] => None
  | s :: rest =>
      if addr s =? target_addr then if token_is_valid (token s) now_ns then Some (token s) else None
      else slots_get rest target_addr now_ns
  end.

(** The first slot from [i] on that holds the address or is empty. *)
Fixpoint slots_place (slots : list AtomicSlot) (i : nat) (target_addr : Z) : option nat :=
  match slots with
  | [] => None
  | s :: rest =>
      if (addr s =? target_addr) || (addr s =? 0) then Some i
      else slots_place rest (Datatypes.S i) target_addr
  end.

Definition filled (target_addr : Z) (t : SessionToken) (s : AtomicSlot) : AtomicSlot :=
  {| addr := target_addr; token := t; version := wrapping_add64 (version s) 1 |}.

Lemma run_load_slot {A} sh i (g : AtomicSlot -> A) c slots s :
  shards c !! sh = Some slots -> slots !! i = Some s ->
  run (load_slot sh i g) c = ([], c, inr (g s)).
Proof. intros Hs Hi. unfold load_slot, get_slot. simpl. rewrite Hs. simpl. by rewrite Hi. Qed.

Lemma run_get_scan sh i n target now c slots :
  shards c !! sh = Some slots -> length slots = (i + n)%nat ->
  run (get_scan sh i n target now) c = ([], c, inr (slots_get (drop i slots) target now)).
Proof.
  intros Hs. revert i. induction n as [|n IH]; intros i Hl; cbn [get_scan].
  { rewrite drop_ge by lia. done. }
  destruct (lookup_lt_is_Some_2 slots i) as [s Hi]; [lia|].
  rewrite run_bind, (run_load_slot _ _ _ _ _ _ Hs Hi), (drop_S _ _ _ Hi). cbn [slots_get].
  destruct (addr s =? target).
  - rewrite run_bind, (run_load_slot _ _ _ _ _ _ Hs Hi). done.
  - rewrite IH by lia. done.
Qed.

Lemma run_get now a c :
  cache_shape c ->
  exists s0 s1, shards c !! shard_for a = Some [s0; s1] /\
    run (get now a) c = ([], c, inr (slots_get [s0; s1] (pack_addr a) now)).
Proof.
  intros Hc. destruct (shape_shard c a Hc) as (s0 & s1 & Hs). exists s0, s1. split; [done|].
  unfold get. by rewrite (run_get_scan _ _ _ _ _ _ [s0; s1] Hs).
Qed.

Lemma run_write_slot sh i t c slots :
  shards c !! sh = Some slots ->
  run (write_slot sh i t) c = ([], with_shard sh (alter (fun s => bump (set_token t s)) i slots) c, inr tt).
Proof.
  intros Hs. unfold write_slot, store_slot, store. simpl.
  rewrite (on_slot_shard _ _ (set_token t) _ _ Hs).
  erewrite on_slot_shard by (apply list_lookup_insert_eq; by eapply lookup_lt_Some).
  unfold with_shard. simpl. by rewrite list_insert_insert_eq, list_alter_alter.
Qed.

Lemma run_write_own sh i t c slots s :
  shards c !! sh = Some slots -> slots !! i = Some s ->
  run (write_slot sh i t) c = ([], with_shard sh (alter (filled (addr s) t) i slots) c, inr tt).
Proof.
  intros Hs Hi. rewrite (run_write_slot _ _ _ _ _ Hs), !(list_alter_at _ _ _ s) by done. done.
Qed.

Lemma with_shard_twice sh l l' c : with_shard sh l (with_shard sh l' c) = with_shard sh l c.
Proof. unfold with_shard. simpl. by rewrite list_insert_insert_eq. Qed.

(** Storing the address first and the token after it fills the slot. *)
Lemma run_take_slot sh i target t c slots :
  shards c !! sh = Some slots ->
  run (write_slot sh i t) (on_slot sh i (set_addr target) c)
  = ([], with_shard sh (alter (filled target t) i slots) c, inr tt).
Proof.
  intros Hs. rewrite (on_slot_shard _ _ _ _ _ Hs).
  assert (Hs' : shards (with_shard sh (alter (set_addr target) i slots) c) !! sh
                = Some (alter (set_addr target) i slots)).
  { simpl. apply list_lookup_insert_eq. by eapply lookup_lt_Some. }
  rewrite (run_write_slot _ _ _ _ _ Hs'), with_shard_twice, list_alter_alter. done.
Qed.

Lemma run_insert_scan sh i n target t c slots :
  shards c !! sh = Some slots -> length slots = (i + n)%nat ->
  run (insert_scan sh i n target t) c =
  match slots_place (drop i slots) i target with
  | Some j => ([], with_shard sh (alter (filled target t) j slots) c, inr true)
  | None => ([], c, inr false)
  end.
Proof.
  intros Hs. revert i. induction n as [|n IH]; intros i Hl; cbn [insert_scan].
  { rewrite drop_ge by lia. done. }
  destruct (lookup_lt_is_Some_2 slots i) as [s Hi]; [lia|].
  rewrite run_bind, (run_load_slot _ _ _ _ _ _ Hs Hi), (drop_S _ _ _ Hi). cbn [slots_place].
  destruct (Z.eqb_spec (addr s) target) as [He|Hne]; cbn [orb].
  - by rewrite run_bind, (run_write_own _ _ _ _ _ _ Hs Hi), He.
  - destruct (Z.eqb_spec (addr s) 0) as [H0|]; [|rewrite IH by lia; by destruct (slots_place _ _ _)].
    rewrite run_bind. unfold claim_slot, get_slot. cbn [run]. rewrite Hs. cbn [mbind option_bind]. rewrite Hi, H0.
    cbn [Z.eqb run]. 
    assert (Hon : on_slot sh i (fun s => if addr s =? 0 then set_addr target s else s) c
                  = on_slot sh i (set_addr target) c).
    { rewrite !(on_slot_shard _ _ _ _ _ Hs), !(list_alter_at _ _ _ s) by done. by rewrite H0. }
    rewrite Hon, run_bind, (run_take_slot _ _ _ _ _ _ Hs). done.
Qed.

(** [insert] in terms of the two slots: the first slot that holds the address or
    is empty, and the one the eviction counter points to when there is none. *)
Lemma run_insert now a d c s0 s1 :
  shards c !! shard_for a = Some [s0; s1] -> (length d <= Z.to_nat 1024)%nat ->
  run (insert now a d) c =
  match slots_place [s0; s1] 0 (pack_addr a) with
  | Some j => ([], with_shard (shard_for a) (alter (filled (pack_addr a) (make_token d now)) j [s0; s1]) c,
               inr (Ok tt))
  | None => ([], with_evict (wrapping_add64 (evict_counter c) 1)
                   (with_shard (shard_for a)
                      (alter (filled (pack_addr a) (make_token d now))
                         (Z.to_nat (evict_counter c mod 2)) [s0; s1]) c), inr (Ok tt))
  end.
Proof.
  intros Hs Hd. unfold insert. destruct (Nat.ltb_spec (Z.to_nat 1024) (length d)); [lia|].
  rewrite run_bind, (run_insert_scan _ _ _ _ _ _ [s0; s1] Hs) by done. cbn [drop].
  destruct (slots_place [s0; s1] 0 (pack_addr a)) as [j|]; [done|].
  cbn [rmw bind run store_slot store]. change SLOTS_PER_SHARD with 2.
  erewrite run_bind, run_take_slot by (simpl; exact Hs). done.
Qed.

Lemma run_insert_too_long now a d c :
  (Z.to_nat 1024 < length d)%nat ->
  run (insert now a d) c = ([], c, inr (Err "Session token exceeds maximum size"%string)).
Proof. intros Hd. unfold insert. destruct (Nat.ltb_spec (Z.to_nat 1024) (length d)); [done|lia]. Qed.

Lemma evict_slot_cases n : 0 <= n -> Z.to_nat (n mod 2) = 0%nat \/ Z.to_nat (n mod 2) = 1%nat.
Proof. intros Hn. pose proof (Z.mod_pos_bound n 2). lia. Qed.

(** Every insertion replaces one slot of the address's shard, the first that
    answers for the address afterwards. *)
Lemma insert_shape now a d c :
  cache_shape c -> (length d <= Z.to_nat 1024)%nat ->
  exists c' s0 s1 j, run (insert now a d) c = ([], c', inr (Ok tt)) /\ cache_shape c' /\
    shards c !! shard_for a = Some [s0; s1] /\ (j < 2)%nat /\
    shards c' = <[shard_for a := alter (filled (pack_addr a) (make_token d now)) j [s0; s1]]> (shards c) /\
    slots_place (take j [s0; s1]) 0 (pack_addr a) = None.
Proof.
  intros Hc Hd. destruct (shape_shard c a Hc) as (s0 & s1 & Hs). destruct Hc as (Hl & H2 & He).
  rewrite (run_insert _ _ _ _ _ _ Hs Hd).
  assert (Hshape : forall j n, 0 <= n -> cache_shape {| shards := <[shard_for a := alter (filled (pack_addr a) (make_token d now)) j [s0; s1]]> (shards c); evict_counter := n |}).
  { intros j n Hn. split; [|split]; simpl; rewrite ?length_insert; try done.
    apply Forall_insert; [done|]. by rewrite length_alter. }
  destruct (slots_place [s0; s1] 0 (pack_addr a)) as [j|] eqn:Hp.
  - eexists _, s0, s1, j. split; [done|]. split; [by apply Hshape|]. split; [done|].
    revert Hp. cbn [slots_place].
    destruct ((addr s0 =? pack_addr a) || (addr s0 =? 0)) eqn:E0; [intros [= <-]; by auto with lia|].
    destruct ((addr s1 =? pack_addr a) || (addr s1 =? 0)) eqn:E1; [intros [= <-]|done].
    split; [lia|]. split; [done|]. cbn [take slots_place]. by rewrite E0.
  - eexists _, s0, s1, (Z.to_nat (evict_counter c mod 2)). split; [done|]. split.
    { apply Hshape. unfold wrapping_add64, U64. pose proof (Z.mod_pos_bound (evict_counter c + 1) (2 ^ 64)). lia. }
    split; [done|]. destruct (evict_slot_cases _ He) as [-> | ->]; (split; [lia|]; split; [done|]); [done|].
    revert Hp. cbn [slots_place take].
    by destruct ((addr s0 =? pack_addr a) || (addr s0 =? 0)).
Qed.

(** ** Insert, then get *)

Lemma slots_get_filled slots target t now j :
  (j < length slots)%nat -> slots_place (take j slots) 0 target = None ->
  slots_get (alter (filled target t) j slots) target now = if token_is_valid t now then Some t else None.
Proof.
  generalize 0%nat as k. revert j. induction slots as [|s slots IH]; intros j k Hj; simpl in Hj; [lia|].
  destruct j as [|j]; simpl.
  - by rewrite Z.eqb_refl.
  - destruct (addr s =? target) eqn:E; simpl; [done|]. destruct (addr s =? 0); [done|].
    intros Hp. apply (IH j (Datatypes.S k)); [lia|done].
Qed.

Lemma as_slice_make_token d now : as_slice (make_token d now) = d.
Proof. unfold as_slice, make_token. simpl. apply take_app_length. Qed.

(** Insert, then get, with no other thread in between: [insert] accepts every
    ticket of at most 1024 bytes, the next [get] for that address returns exactly
    these bytes as long as they are not empty and younger than the time to live
    (and nothing otherwise), and the addresses of the other shards are answered
    as before.  It holds of IPv6 addresses too. *)
Theorem session_insert_get c now a d now' :
  cache_shape c -> (length d <= Z.to_nat 1024)%nat ->
  exists c', run (insert now a d) c = ([], c', inr (Ok tt)) /\ cache_shape c' /\
    (exists r, run (get now' a) c' = ([], c', inr r) /\
       as_slice <$> r = if bool_decide (d <> []) && (saturating_sub now' now <? SESSION_TTL_NS)
                        then Some d else None) /\
    (forall b n, shard_for b <> shard_for a -> (run (get n b) c').2 = (run (get n b) c).2).
Proof.
  intros Hc Hd. destruct (insert_shape now a d c Hc Hd) as (c' & s0 & s1 & j & Hrun & Hc' & Hs & Hj & He & Hp).
  exists c'. split; [done|]. split; [done|]. split.
  - destruct (run_get now' a c' Hc') as (x0 & x1 & Hx & ->). eexists. split; [done|].
    rewrite He, list_lookup_insert_eq in Hx by (by eapply lookup_lt_Some). simplify_eq.
    rewrite <- Hx, (slots_get_filled [s0; s1]) by done.
    assert (Hv : token_is_valid (make_token d now) now'
                 = bool_decide (d <> []) && (saturating_sub now' now <? SESSION_TTL_NS)).
    { unfold token_is_valid. simpl. f_equal. by destruct d. }
    rewrite Hv. destruct (_ && _); [|done]. simpl. by rewrite as_slice_make_token.
  - intros b n Hb. destruct (run_get n b c' Hc') as (x0 & x1 & Hx & ->).
    destruct (run_get n b c Hc) as (y0 & y1 & Hy & ->). simpl.
    rewrite He, list_lookup_insert_ne, Hy in Hx by done. by simplify_eq.
Qed.

Lemma cache_new_shape : cache_shape cache_new.
Proof.
  split; [apply length_replicate|]. split; [|simpl; lia]. by apply Forall_replicate.
Qed.

Definition peer : SocketAddr := V4 [10; 0; 0; 1] 8009.

Lemma session_insert_get_witness :
  exists c' r, run (insert 5 peer [1; 2; 3]) cache_new = ([], c', inr (Ok tt)) /\
    run (get 9 peer) c' = ([], c', inr r) /\ as_slice <$> r = Some [1; 2; 3].
Proof.
  destruct (session_insert_get cache_new 5 peer [1; 2; 3] 9 cache_new_shape) as (c' & Hr & _ & (r & Hg & Ha) & _).
  { simpl. lia. }
  exists c', r. split; [exact Hr|]. split; [exact Hg|]. exact Ha.
Defined.

(** ** Only what was inserted *)

Inductive cache_op : Type :=
| OpInsert (now_ns : Z) (a : SocketAddr) (token_data : list Z)
| OpInvalidate (a : SocketAddr)
| OpGet (now_ns : Z) (a : SocketAddr).

Definition op_addr (o : cache_op) : SocketAddr :=
  match o with OpInsert _ a _ | OpInvalidate a | OpGet _ a => a end.

Definition apply_op (o : cache_op) (c : SessionTokenCache) : SessionTokenCache :=
  match o with
  | OpInsert now a d => (run (insert now a d) c).1.2
  | OpInvalidate a => (run (invalidate a) c).1.2
  | OpGet now a => (run (get now a) c).1.2
  end.
Definition apply_ops (ops : list cache_op) (c : SessionTokenCache) : SessionTokenCache :=
  fold_left (fun c o => apply_op o c) ops c.

(** An occupied slot holds a token that was inserted for the packed address it
    carries. *)
Definition slot_from (ops : list cache_op) (s : AtomicSlot) : Prop :=
  addr s <> 0 ->
  exists now b d, OpInsert now b d ∈ ops /\ pack_addr b = addr s /\ token s = make_token d now.

Definition cache_from (ops : list cache_op) (c : SessionTokenCache) : Prop :=
  cache_shape c /\ Forall (Forall (slot_from ops)) (shards c).

Lemma slot_from_mono ops ops' s : (forall o, o ∈ ops -> o ∈ ops') -> slot_from ops s -> slot_from ops' s.
Proof. intros Hin Hs Ha. destruct (Hs Ha) as (now & b & d & Ho & ?). exists now, b, d. auto. Qed.

Lemma cache_from_mono ops ops' c : (forall o, o ∈ ops -> o ∈ ops') -> cache_from ops c -> cache_from ops' c.
Proof.
  intros Hin [Hc Hf]. split; [done|]. eapply Forall_impl; [exact Hf|]. intros l Hl.
  eapply Forall_impl; [exact Hl|]. intros s. by apply slot_from_mono.
Qed.

(** [invalidate] in terms of the slots: the first that holds the address. *)
Fixpoint slots_clear (slots : list AtomicSlot) (target_addr : Z) : list AtomicSlot :=
  match slots with
  | [] => []
  | s :: rest =>
      if addr s =? target_addr then bump (set_addr 0 s) :: rest
      else s :: slots_clear rest target_addr
  end.

Lemma alter_drop_clear {A} (f : A -> A) i (l : list A) s :
  l !! i = Some s -> alter f i l = take i l ++ f s :: drop (Datatypes.S i) l.
Proof. revert i. induction l as [|x l IH]; intros [|i] Hi; simpl in *; simplify_eq; [done..|]. f_equal. by apply IH. Qed.

Lemma run_invalidate_scan sh i n target c slots :
  shards c !! sh = Some slots -> length slots = (i + n)%nat ->
  run (invalidate_scan sh i n target) c
  = ([], with_shard sh (take i slots ++ slots_clear (drop i slots) target) c, inr tt).
Proof.
  intros Hs. revert i. induction n as [|n IH]; intros i Hl; cbn [invalidate_scan].
  { rewrite drop_ge, app_nil_r, take_ge by lia. unfold with_shard. rewrite list_insert_id by done. by destruct c. }
  destruct (lookup_lt_is_Some_2 slots i) as [s Hi]; [lia|].
  rewrite run_bind, (run_load_slot _ _ _ _ _ _ Hs Hi), (drop_S _ _ _ Hi). cbn [slots_clear].
  destruct (addr s =? target).
  - cbn [store_slot store bind run]. rewrite (on_slot_shard _ _ _ _ _ Hs).
    erewrite on_slot_shard by (apply list_lookup_insert_eq; by eapply lookup_lt_Some).
    by rewrite with_shard_twice, list_alter_alter, (alter_drop_clear _ _ _ _ Hi).
  - rewrite IH by lia. rewrite (take_S_r _ _ _ Hi), <- app_assoc. done.
Qed.

Lemma slots_clear_from ops slots target :
  Forall (slot_from ops) slots -> Forall (slot_from ops) (slots_clear slots target).
Proof.
  induction 1 as [|s slots Hs Hf IH]; cbn [slots_clear]; [by constructor|].
  destruct (addr s =? target); constructor; [|done|done|done]. intros Hn. by destruct Hn.
Qed.

Lemma slots_clear_length slots target : length (slots_clear slots target) = length slots.
Proof. induction slots as [|s slots IH]; simpl; [done|]. destruct (addr s =? target); simpl; by rewrite ?IH. Qed.

Lemma apply_op_from ops o c : cache_from ops c -> cache_from (ops ++ [o]) (apply_op o c).
Proof.
  intros Hf. assert (Hm : cache_from (ops ++ [o]) c) by (eapply cache_from_mono; [|done]; set_solver).
  destruct Hf as [Hc _]. destruct o as [now a d|a|now a]; unfold apply_op.
  - destruct (Nat.le_gt_cases (length d) (Z.to_nat 1024)) as [Hd|Hd]; [|by rewrite run_insert_too_long].
    destruct (insert_shape now a d c Hc Hd) as (c' & s0 & s1 & j & -> & Hc' & Hs & Hj & He & _).
    split; [done|]. cbn [fst snd]. rewrite He. apply Forall_insert; [apply Hm|].
    apply Forall_alter; [apply (Forall_lookup_1 _ _ _ _ (proj2 Hm) Hs)|].
    intros s _ _ _. exists now, a, d. split; [set_solver|done].
  - destruct (shape_shard c a Hc) as (s0 & s1 & Hs).
    unfold invalidate. rewrite (run_invalidate_scan _ _ _ _ _ _ Hs) by done. cbn [fst snd take app drop].
    pose proof Hc as (Hl & H2 & He). split; [split; [|split]|]; cbn [shards evict_counter with_shard].
    + by rewrite length_insert.
    + apply Forall_insert; [done|]. by rewrite slots_clear_length.
    + done.
    + apply Forall_insert; [apply Hm|]. apply slots_clear_from. apply (Forall_lookup_1 _ _ _ _ (proj2 Hm) Hs).
  - destruct (run_get now a c Hc) as (s0 & s1 & _ & ->). done.
Qed.

Lemma apply_ops_from ops c pre : cache_from pre c -> cache_from (pre ++ ops) (apply_ops ops c).
Proof.
  revert c pre. induction ops as [|o ops IH]; intros c pre Hf; simpl; [by rewrite app_nil_r|].
  replace (pre ++ o :: ops) with ((pre ++ [o]) ++ ops) by (by rewrite <- app_assoc).
  apply IH. by apply apply_op_from.
Qed.

Lemma slots_get_from ops slots target now t :
  Forall (slot_from ops) slots -> target <> 0 -> slots_get slots target now = Some t ->
  token_is_valid t now = true /\
  exists now0 b d, OpInsert now0 b d ∈ ops /\ pack_addr b = target /\ t = make_token d now0.
Proof.
  intros Hf Ht. induction Hf as [|s slots Hs Hf IH]; cbn [slots_get]; [done|].
  destruct (Z.eqb_spec (addr s) target) as [<-|]; [|done].
  destruct (token_is_valid (token s) now) eqn:Hv; [|done]. intros [= <-]. split; [done|]. by apply Hs.
Qed.

(** C38. A cache that one thread at a time operates on never invents or mixes up
    tickets: after any sequence of operations on IPv4 peers, a [get] that returns
    a token returns one that an [insert] of the sequence stored for the very same
    address, with the bytes that were given to it, not empty and within the time
    to live.  [pack_addr] being injective on IPv4 is what excludes another
    peer's ticket; the address 0.0.0.0:0 is excluded because the cache uses its
    packed form for an empty slot. *)
Theorem session_get_sound ops now a :
  Forall (fun o => is_v4 (op_addr o) /\ addr_ok (op_addr o)) ops ->
  is_v4 a -> addr_ok a -> pack_addr a <> 0 ->
  exists r, run (get now a) (apply_ops ops cache_new) = ([], apply_ops ops cache_new, inr r) /\
    forall t, r = Some t ->
      exists now0 d, OpInsert now0 a d ∈ ops /\ as_slice t = d /\ d <> [] /\
        timestamp_ns t = now0 /\ saturating_sub now now0 < SESSION_TTL_NS.
Proof.
  intros Hops Hv4 Hok Hne.
  destruct (apply_ops_from ops cache_new []) as [Hc Hf].
  { split; [apply cache_new_shape|]. apply Forall_replicate. repeat constructor; intros Hn; by destruct Hn. }
  rewrite app_nil_l in Hf. destruct (run_get now a _ Hc) as (s0 & s1 & Hs & Hr).
  eexists. split; [exact Hr|]. intros t Ht.
  apply (slots_get_from ops) in Ht as (Hv & now0 & b & d & Hin & Hb & ->);
    [|by apply (Forall_lookup_1 _ _ _ _ Hf Hs)|done].
  pose proof (proj1 (Forall_forall _ _) Hops _ Hin) as [Hb4 Hbok].
  rewrite (pack_v4_inj b a) in Hin by done. exists now0, d. split; [done|].
  rewrite as_slice_make_token. split; [done|].
  apply andb_true_iff in Hv as [Hl Ht]. simpl in *. split; [by destruct d|]. split; [done|]. by apply Z.ltb_lt.
Qed.

Lemma session_get_sound_witness :
  exists r, run (get 9 peer) (apply_ops [OpInsert 5 peer [1; 2; 3]] cache_new)
            = ([], apply_ops [OpInsert 5 peer [1; 2; 3]] cache_new, inr r) /\ is_Some r.
Proof.
  destruct (session_get_sound [OpInsert 5 peer [1; 2; 3]] 9 peer) as (r & Hr & _).
  - repeat constructor; simpl; lia.
  - done.
  - repeat constructor; simpl; lia.
  - vm_compute. done.
  - exists r. split; [exact Hr|]. vm_compute in Hr. injection Hr as <-. by eexists.
Defined.

(** ** What it does not promise *)

(** Two peers of the same shard. *)
Definition peer_a : SocketAddr := V4 [10; 0; 0; 1] 8001.
Definition peer_b : SocketAddr := V4 [10; 0; 0; 2] 8001.

Definition stale_ops : list cache_op :=
  [OpInsert 1 peer_a [1]; OpInsert 2 peer_b [2]; OpInvalidate peer_a; OpInsert 3 peer_b [3]; OpInvalidate peer_b].

(** [invalidate] clears the first slot that holds the address and stops, and
    [insert] takes the first slot that is empty without looking whether a later
    one already holds the address: after these five operations the ticket that
    was replaced and then invalidated is served again. *)
Theorem session_invalidate_serves_stale :
  exists t, (run (get 4 peer_b) (apply_ops stale_ops cache_new)).2 = inr (Some t) /\ as_slice t = [2].
Proof. exists (make_token [2] 2). vm_compute. done. Qed.

(** A third peer of that shard; the writer inserts it while a reader asks for it. *)
Definition peer_c : SocketAddr := V4 [10; 0; 0; 3] 8001.
Definition insert_get_pool : list (P (option SessionToken)) :=
  [insert 3 peer_c [3] ;;; Ret None; get 4 peer_c].

(** With a reader beside the writer the previous two theorems' promise is lost:
    an [insert] that evicts publishes the new address before the new token, and a
    [get] that runs in between returns the evicted peer's ticket, here [peer_a]'s
    for [peer_c]. *)
Theorem session_race_wrong_ticket :
  exists t, (run_sched [0; 0; 0; 0; 1; 1]%nat
    (insert_get_pool, (apply_ops [OpInsert 1 peer_a [1]; OpInsert 2 peer_b [2]] cache_new, []))).1 !! 1%nat
    = Some (Ret (Some t)) /\ as_slice t = [1].
Proof. exists (make_token [1] 1). vm_compute. done. Qed.
