(* ===== verification/Pool.v ===== *)
(** * Pool: the connection pool

    [quic/src/pool.rs], the states of [quic/src/connection.rs] and the loop of
    [Endpoint::poll] ([quic/src/endpoint.rs]) over the dirty connections.  The
    pool belongs to the endpoint's thread: its operations are state passing
    functions, the clock ([now_ns]) an argument, and a [QuicConnection] is a
    parameter with its state.  The dirty bitmap, which other threads may mark,
    is modelled by atomic actions on its two words. *)
From S2P Require Import Prelude Net.
From S2P Require SessionCache.

Definition MAX_POOL_SIZE : nat := 128.
Definition MAX_RETRY_ATTEMPTS : Z := 2.

(** ** States *)

Inductive ConnectionState : Type := Connecting | Ready | Failed | Dead.

#[export] Instance ConnectionState_eq_dec : EqDecision ConnectionState.
Proof. solve_decision. Defined.

Definition as_usize_state (s : ConnectionState) : Z :=
  match s with Connecting => 0 | Ready => 1 | Failed => 2 | Dead => 3 end.

Definition from_usize (v : Z) : ConnectionState :=
  if v =? 0 then Connecting
  else if v =? 1 then Ready
  else if v =? 2 then Failed
  else Dead.

(** ** Addresses *)

(** Big-endian octets to an integer, and the 16-bit segments of an IPv6 address. *)
Definition from_be := SessionCache.from_be.
Definition segments := SessionCache.segments.

(** The segments placed at multiples of 16 bits, the first one highest. *)
Fixpoint place_segments (segs : list Z) (i : nat) (val : Z) : Z :=
  match segs with
  | [] => val
  | seg :: segs => place_segments segs (Datatypes.S i) (Z.lor val (Z.shiftl seg ((7 - Z.of_nat i) * 16)))
  end.

Definition socket_addr_to_u128 (a : SocketAddr) : Z :=
  match a with
  | V4 octets port => Z.lor (Z.shiftl (from_be octets) 16) port
  | V6 octets port => Z.lxor (place_segments (segments octets) 0 0) port
  end.

Definition hash_addr (a : SocketAddr) : nat :=
  match a with
  | V4 octets port =>
      let hash := 2166136261 in
      let hash := (Z.lxor hash (from_be octets) * 16777619) mod U32 in
      let hash := (Z.lxor hash port * 16777619) mod U32 in
      Z.to_nat (hash mod Z.of_nat MAX_POOL_SIZE)
  | V6 octets port =>
      let mix hash x := (Z.lxor hash x * 1099511628211) mod U64 in
      Z.to_nat (mix (fold_left mix (segments octets) 2166136261) port mod Z.of_nat MAX_POOL_SIZE)
  end.

(** The step of double hashing, not used by the probing below. *)
Definition hash_addr_secondary (a : SocketAddr) : Z :=
  match a with
  | V4 octets port => 1 + ((from_be octets * 31) mod U32 + port) mod U32 mod (Z.of_nat MAX_POOL_SIZE - 1)
  | V6 octets port =>
      let sum := fold_left wrapping_add64 (segments octets) 0 in
      1 + wrapping_add64 sum port mod (Z.of_nat MAX_POOL_SIZE - 1)
  end.

(** ** Slots *)

Section pool.
Context {Conn : Type} (conn_state : Conn -> ConnectionState).

Record ConnectionSlot : Type := {
  addr : SocketAddr; connection : option Conn; occupied : bool; version : Z; state : Z;
  retry_count : Z; last_activity : Z; connect_start_ns : Z; retry_deadline_ns : Z }.

Definition slot_default : ConnectionSlot :=
  {| addr := V4 [0; 0; 0; 0] 0; connection := None; occupied := false; version := 0;
     state := as_usize_state Connecting; retry_count := 0; last_activity := 0;
     connect_start_ns := 0; retry_deadline_ns := 0 |}.

Definition slot_state (s : ConnectionSlot) : ConnectionState := from_usize (state s).

Definition set_state (st : ConnectionState) (s : ConnectionSlot) : ConnectionSlot :=
  {| addr := addr s; connection := connection s; occupied := occupied s; version := version s;
     state := as_usize_state st; retry_count := retry_count s; last_activity := last_activity s;
     connect_start_ns := connect_start_ns s; retry_deadline_ns := retry_deadline_ns s |}.
Definition set_retry_count (n : Z) (s : ConnectionSlot) : ConnectionSlot :=
  {| addr := addr s; connection := connection s; occupied := occupied s; version := version s;
     state := state s; retry_count := n; last_activity := last_activity s;
     connect_start_ns := connect_start_ns s; retry_deadline_ns := retry_deadline_ns s |}.
Definition touch (now_ns : Z) (s : ConnectionSlot) : ConnectionSlot :=
  {| addr := addr s; connection := connection s; occupied := occupied s; version := version s;
     state := state s; retry_count := retry_count s; last_activity := now_ns;
     connect_start_ns := connect_start_ns s; retry_deadline_ns := retry_deadline_ns s |}.
Definition set_retry_deadline_ns (n : Z) (s : ConnectionSlot) : ConnectionSlot :=
  {| addr := addr s; connection := connection s; occupied := occupied s; version := version s;
     state := state s; retry_count := retry_count s; last_activity := last_activity s;
     connect_start_ns := connect_start_ns s; retry_deadline_ns := n |}.
Definition set_connection (c : option Conn) (s : ConnectionSlot) : ConnectionSlot :=
  {| addr := addr s; connection := c; occupied := occupied s; version := version s;
     state := state s; retry_count := retry_count s; last_activity := last_activity s;
     connect_start_ns := connect_start_ns s; retry_deadline_ns := retry_deadline_ns s |}.

Definition set_connect_start_ns (n : Z) (s : ConnectionSlot) : ConnectionSlot :=
  {| addr := addr s; connection := connection s; occupied := occupied s; version := version s;
     state := state s; retry_count := retry_count s; last_activity := last_activity s;
     connect_start_ns := n; retry_deadline_ns := retry_deadline_ns s |}.

Definition increment_retry (s : ConnectionSlot) : Z * ConnectionSlot :=
  let count := retry_count s + 1 in
  let s := set_retry_count count s in
  (count, if MAX_RETRY_ATTEMPTS <=? count then set_state Dead s else s).

Definition idle_time_ns (now_ns : Z) (s : ConnectionSlot) : Z := saturating_sub now_ns (last_activity s).

Definition can_retry (now_ns : Z) (s : ConnectionSlot) : bool :=
  bool_decide (slot_state s = Dead) && (retry_deadline_ns s <=? now_ns).

(** Taken over for a new address: what [find_or_allocate] and
    [evict_and_allocate] write; the deadline and the start time stay. *)
Definition assign (now_ns : Z) (a : SocketAddr) (s : ConnectionSlot) : ConnectionSlot :=
  {| addr := a; connection := None; occupied := true; version := wrapping_add64 (version s) 1;
     state := as_usize_state Connecting; retry_count := 0; last_activity := now_ns;
     connect_start_ns := connect_start_ns s; retry_deadline_ns := retry_deadline_ns s |}.

(** ** The pool *)

Record PoolStats : Type := {
  total_connects : Z; cache_hits : Z; cache_misses : Z; evictions : Z; active_connections : Z;
  zero_rtt_attempts : Z; zero_rtt_accepts : Z; zero_rtt_rejects : Z }.

Record ConnectionPool : Type := {
  slots : list ConnectionSlot; active_bitmap_lo : Z; active_bitmap_hi : Z; stats : PoolStats }.

Definition pool_new : ConnectionPool :=
  {| slots := replicate MAX_POOL_SIZE slot_default; active_bitmap_lo := 0; active_bitmap_hi := 0;
     stats := {| total_connects := 0; cache_hits := 0; cache_misses := 0; evictions := 0;
                 active_connections := 0; zero_rtt_attempts := 0; zero_rtt_accepts := 0;
                 zero_rtt_rejects := 0 |} |}.

Definition with_slots (l : list ConnectionSlot) (p : ConnectionPool) : ConnectionPool :=
  {| slots := l; active_bitmap_lo := active_bitmap_lo p; active_bitmap_hi := active_bitmap_hi p;
     stats := stats p |}.
Definition with_stats (st : PoolStats) (p : ConnectionPool) : ConnectionPool :=
  {| slots := slots p; active_bitmap_lo := active_bitmap_lo p; active_bitmap_hi := active_bitmap_hi p;
     stats := st |}.
Definition on_slot (idx : nat) (f : ConnectionSlot -> ConnectionSlot) (p : ConnectionPool) : ConnectionPool :=
  with_slots (alter f idx (slots p)) p.

Definition count_hit (p : ConnectionPool) : ConnectionPool :=
  with_stats {| total_connects := total_connects (stats p); cache_hits := cache_hits (stats p) + 1;
                cache_misses := cache_misses (stats p); evictions := evictions (stats p);
                active_connections := active_connections (stats p);
                zero_rtt_attempts := zero_rtt_attempts (stats p); zero_rtt_accepts := zero_rtt_accepts (stats p);
                zero_rtt_rejects := zero_rtt_rejects (stats p) |} p.
Definition count_miss (p : ConnectionPool) : ConnectionPool :=
  with_stats {| total_connects := total_connects (stats p); cache_hits := cache_hits (stats p);
                cache_misses := cache_misses (stats p) + 1; evictions := evictions (stats p);
                active_connections := active_connections (stats p);
                zero_rtt_attempts := zero_rtt_attempts (stats p); zero_rtt_accepts := zero_rtt_accepts (stats p);
                zero_rtt_rejects := zero_rtt_rejects (stats p) |} p.
Definition count_eviction (p : ConnectionPool) : ConnectionPool :=
  with_stats {| total_connects := total_connects (stats p); cache_hits := cache_hits (stats p);
                cache_misses := cache_misses (stats p); evictions := evictions (stats p) + 1;
                active_connections := active_connections (stats p);
                zero_rtt_attempts := zero_rtt_attempts (stats p); zero_rtt_accepts := zero_rtt_accepts (stats p);
                zero_rtt_rejects := zero_rtt_rejects (stats p) |} p.
Definition count_connect (p : ConnectionPool) : ConnectionPool :=
  with_stats {| total_connects := total_connects (stats p) + 1; cache_hits := cache_hits (stats p);
                cache_misses := cache_misses (stats p); evictions := evictions (stats p);
                active_connections := active_connections (stats p);
                zero_rtt_attempts := zero_rtt_attempts (stats p); zero_rtt_accepts := zero_rtt_accepts (stats p);
                zero_rtt_rejects := zero_rtt_rejects (stats p) |} p.
Definition count_active (d : Z) (p : ConnectionPool) : ConnectionPool :=
  with_stats {| total_connects := total_connects (stats p); cache_hits := cache_hits (stats p);
                cache_misses := cache_misses (stats p); evictions := evictions (stats p);
                active_connections := active_connections (stats p) + d;
                zero_rtt_attempts := zero_rtt_attempts (stats p); zero_rtt_accepts := zero_rtt_accepts (stats p);
                zero_rtt_rejects := zero_rtt_rejects (stats p) |} p.

(** The counters the endpoint raises: sessions restored, and packets sent as
    early data. *)
Definition count_zero_rtt (attempts accepts : Z) (p : ConnectionPool) : ConnectionPool :=
  with_stats {| total_connects := total_connects (stats p); cache_hits := cache_hits (stats p);
                cache_misses := cache_misses (stats p); evictions := evictions (stats p);
                active_connections := active_connections (stats p);
                zero_rtt_attempts := zero_rtt_attempts (stats p) + attempts;
                zero_rtt_accepts := zero_rtt_accepts (stats p) + accepts;
                zero_rtt_rejects := zero_rtt_rejects (stats p) |} p.

(** The bit of a slot in the word of its half. *)
Definition set_bit (i w : Z) : Z := Z.lor w (bit64 i).
Definition clear_bit (i w : Z) : Z := Z.land w (not64 (bit64 i)).

Definition on_active (f : Z -> Z -> Z) (idx : nat) (p : ConnectionPool) : ConnectionPool :=
  if (idx <? 64)%nat then
    {| slots := slots p; active_bitmap_lo := f (Z.of_nat idx) (active_bitmap_lo p);
       active_bitmap_hi := active_bitmap_hi p; stats := stats p |}
  else
    {| slots := slots p; active_bitmap_lo := active_bitmap_lo p;
       active_bitmap_hi := f (Z.of_nat (idx - 64)) (active_bitmap_hi p); stats := stats p |}.
Definition set_active := on_active set_bit.
Definition clear_active := on_active clear_bit.

(** *** Lookup *)

Definition slot_matches (target : Z) (s : ConnectionSlot) : bool :=
  occupied s && (socket_addr_to_u128 (addr s) =? target).

(** The scalar scan from slot [i] on. *)
Fixpoint scan_scalar (target : Z) (l : list ConnectionSlot) (i : nat) : option nat :=
  match l with
  | [] => None
  | s :: l => if slot_matches target s then Some i else scan_scalar target l (Datatypes.S i)
  end.

(** The scan by chunks of four. *)
Fixpoint scan_chunks (fuel : nat) (target : Z) (l : list ConnectionSlot) (chunk_start : nat) : option nat :=
  match fuel with
  | O => None
  | Datatypes.S fuel =>
      match scan_scalar target (take 4 l) chunk_start with
      | Some idx => Some idx
      | None => scan_chunks fuel target (drop 4 l) (chunk_start + 4)
      end
  end.

Definition count_lookup (r : option nat) (p : ConnectionPool) : option nat * ConnectionPool :=
  (r, match r with Some _ => count_hit p | None => count_miss p end).

Definition find_scalar (target : Z) (p : ConnectionPool) : option nat * ConnectionPool :=
  count_lookup (scan_scalar target (slots p) 0) p.

Definition find_simd_avx2 (target : Z) (p : ConnectionPool) : option nat * ConnectionPool :=
  count_lookup (scan_chunks (MAX_POOL_SIZE / 4) target (slots p) 0) p.

Definition find (avx2 : bool) (a : SocketAddr) (p : ConnectionPool) : option nat * ConnectionPool :=
  let target := socket_addr_to_u128 a in
  if avx2 then find_simd_avx2 target p else find_scalar target p.

(** *** Allocation *)

(** Linear probing from [start], [n] slots left: the slot of the address, or the
    first empty one. *)
Inductive probe_result : Type := Hit (idx : nat) | Empty (idx : nat) | FullPool.

Fixpoint probe (l : list ConnectionSlot) (a : SocketAddr) (start i n : nat) : Result probe_result fault :=
  match n with
  | O => Ok FullPool
  | Datatypes.S n =>
      let idx := ((start + i) mod MAX_POOL_SIZE)%nat in
      match l !! idx with
      | None => Err (Panic "index out of bounds")
      | Some s =>
          if occupied s then
            if decide (addr s = a) then Ok (Hit idx) else probe l a start (Datatypes.S i) n
          else Ok (Empty idx)
      end
  end.

(** The scan of [evict_and_allocate]: the first dead or failed connection, or
    the one with the oldest activity. *)
Fixpoint oldest (l : list ConnectionSlot) (i oldest_idx : nat) (oldest_time : Z) : nat :=
  match l with
  | [] => oldest_idx
  | s :: l =>
      if occupied s then
        if decide (slot_state s = Dead \/ slot_state s = Failed) then i
        else if last_activity s <? oldest_time then oldest l (Datatypes.S i) i (last_activity s)
        else oldest l (Datatypes.S i) oldest_idx oldest_time
      else oldest l (Datatypes.S i) oldest_idx oldest_time
  end.

Definition evict_and_allocate (now_ns : Z) (a : SocketAddr) (p : ConnectionPool) : nat * ConnectionPool :=
  let idx := oldest (slots p) 0 0 U64_MAX in
  (idx, count_eviction (on_slot idx (assign now_ns a) p)).

(** The claim of an empty slot succeeds, the endpoint being the only writer. *)
Definition find_or_allocate (now_ns : Z) (a : SocketAddr) (p : ConnectionPool)
    : Result (nat * ConnectionPool) fault :=
  match probe (slots p) a (hash_addr a) 0 MAX_POOL_SIZE with
  | Err e => Err e
  | Ok (Hit idx) => Ok (idx, count_hit p)
  | Ok (Empty idx) => Ok (idx, count_active 1 (count_miss (on_slot idx (assign now_ns a) p)))
  | Ok FullPool => Ok (evict_and_allocate now_ns a p)
  end.

(** *** The life of a connection *)

Definition store_connection (now_ns : Z) (idx : nat) (conn : Conn) (p : ConnectionPool) : ConnectionPool :=
  let initial_state := conn_state conn in
  count_connect (set_active idx
    (on_slot idx (fun s => touch now_ns (set_state initial_state (set_connection (Some conn) s))) p)).

Definition remove (idx : nat) (p : ConnectionPool) : ConnectionPool :=
  count_active (-1) (clear_active idx
    (on_slot idx (fun s =>
       {| addr := addr s; connection := None; occupied := false; version := wrapping_add64 (version s) 1;
          state := state s; retry_count := retry_count s; last_activity := last_activity s;
          connect_start_ns := connect_start_ns s; retry_deadline_ns := retry_deadline_ns s |}) p)).

Definition backoff_ms (retry : Z) : Z :=
  if retry =? 0 then 0 else if retry =? 1 then 10 else if retry =? 2 then 30 else 60.

Definition fail_slot (now_ns : Z) (s : ConnectionSlot) : ConnectionSlot :=
  let '(retry, s) := increment_retry s in
  if MAX_RETRY_ATTEMPTS <=? retry then
    set_retry_deadline_ns (Z.min (now_ns + backoff_ms retry * 1000000) U64_MAX) (set_state Dead s)
  else set_state Failed s.

Definition mark_failed (now_ns : Z) (idx : nat) (p : ConnectionPool) : ConnectionPool :=
  let dead := match slots p !! idx with
              | Some s => MAX_RETRY_ATTEMPTS <=? retry_count s + 1
              | None => false
              end in
  let p := on_slot idx (fail_slot now_ns) p in
  if dead then clear_active idx p else p.

Definition reset_retry (idx : nat) (p : ConnectionPool) : ConnectionPool :=
  on_slot idx (fun s => set_retry_deadline_ns 0 (set_retry_count 0 s)) p.

End pool.
