(* ===== verification/PoolSpec.v ===== *)
(** * PoolSpec: the pool is a map from addresses to slots

    As long as slots are only allocated, reused and evicted ([remove] is not
    called by the endpoint), the occupied slots hold pairwise different addresses
    and linear probing finds the slot of an address whenever there is one
    ([pool_inv]).  On IPv4 addresses the lookup by packed address, by chunks or
    one by one, answers the same question. *)
From S2P Require Import Prelude Net Pool.
From S2P Require SessionCache.

Section spec.
Context {Conn : Type} (conn_state : Conn -> ConnectionState).
Implicit Types (p : ConnectionPool (Conn := Conn)) (l : list (ConnectionSlot (Conn := Conn))).

(** Slot [j] belongs to the address [a]. *)
Definition holds l (j : nat) (a : SocketAddr) : Prop :=
  exists s, l !! j = Some s /\ occupied s = true /\ addr s = a.

Definition is_occupied l (j : nat) : Prop := exists a, holds l j a.

(** The slot [d] steps after the hash of [a]. *)
Definition probe_idx (a : SocketAddr) (d : nat) : nat := ((hash_addr a + d) mod MAX_POOL_SIZE)%nat.

Record pool_inv l : Prop := {
  inv_length : length l = MAX_POOL_SIZE;
  inv_distinct : forall i j a, holds l i a -> holds l j a -> i = j;
  inv_chain : forall j a, holds l j a -> exists d, (d < MAX_POOL_SIZE)%nat /\ j = probe_idx a d /\
                forall k, (k < d)%nat -> is_occupied l (probe_idx a k);
}.

Lemma probe_idx_lt a d : (probe_idx a d < MAX_POOL_SIZE)%nat.
Proof. unfold probe_idx, MAX_POOL_SIZE. apply Nat.mod_upper_bound. lia. Qed.

(** Probing reaches every slot. *)
Lemma probe_idx_surj a j : (j < MAX_POOL_SIZE)%nat -> exists d, (d < MAX_POOL_SIZE)%nat /\ j = probe_idx a d.
Proof.
  intros Hj. set (h := (hash_addr a mod MAX_POOL_SIZE)%nat).
  assert (Hh : (h < MAX_POOL_SIZE)%nat) by (apply Nat.mod_upper_bound; unfold MAX_POOL_SIZE; lia).
  assert (Hidx : forall d, probe_idx a d = ((h + d) mod MAX_POOL_SIZE)%nat).
  { intros d. unfold probe_idx, h. by rewrite Nat.Div0.add_mod_idemp_l. }
  destruct (Nat.le_gt_cases h j) as [Hle|Hgt].
  - exists (j - h)%nat. split; [lia|]. rewrite Hidx. rewrite Nat.mod_small by lia. lia.
  - exists (MAX_POOL_SIZE - h + j)%nat. split; [lia|]. rewrite Hidx.
    replace (h + (MAX_POOL_SIZE - h + j))%nat with (j + 1 * MAX_POOL_SIZE)%nat by lia.
    rewrite Nat.Div0.mod_add, Nat.mod_small by lia. done.
Qed.

(** ** Probing *)

(** The result of probing from step [i] on, the steps before it passed. *)
Lemma probe_spec l a n i :
  length l = MAX_POOL_SIZE -> (i + n = MAX_POOL_SIZE)%nat ->
  (forall k, (k < i)%nat -> is_occupied l (probe_idx a k) /\ ~ holds l (probe_idx a k) a) ->
  match probe l a (hash_addr a) i n with
  | Ok (Hit idx) => holds l idx a
  | Ok (Empty idx) => exists d, idx = probe_idx a d /\ (d < MAX_POOL_SIZE)%nat /\ ~ is_occupied l idx /\
      forall k, (k < d)%nat -> is_occupied l (probe_idx a k) /\ ~ holds l (probe_idx a k) a
  | Ok FullPool => forall j, (j < MAX_POOL_SIZE)%nat -> is_occupied l j /\ ~ holds l j a
  | Err _ => False
  end.
Proof.
  intros Hl. revert i. induction n as [|n IH]; intros i Hi Hk; cbn [probe].
  { intros j Hj. destruct (probe_idx_surj a j Hj) as (d & Hd & ->). apply Hk. lia. }
  fold (probe_idx a i). destruct (lookup_lt_is_Some_2 l (probe_idx a i)) as [s Hs].
  { rewrite Hl. apply probe_idx_lt. }
  rewrite Hs. destruct (occupied s) eqn:Ho.
  - destruct (decide (addr s = a)) as [Ha|Ha]; [by exists s|].
    apply IH; [lia|]. intros k Hlt. destruct (decide (k = i)) as [->|]; [|apply Hk; lia].
    split; [by exists (addr s), s|]. intros (s' & Hs' & _ & Ha'). rewrite Hs in Hs'. injection Hs' as <-. done.
  - exists i. split; [done|]. split; [lia|]. split; [|done].
    intros (b & s' & Hs' & Ho' & _). rewrite Hs in Hs'. injection Hs' as <-. by rewrite Ho in Ho'.
Qed.

(** A slot that probing stops at, empty, shows that the address has none. *)
Lemma chain_absent l a d :
  pool_inv l -> ~ is_occupied l (probe_idx a d) ->
  (forall k, (k < d)%nat -> ~ holds l (probe_idx a k) a) -> forall j, ~ holds l j a.
Proof.
  intros Hinv Hempty Hno j Hj. destruct (inv_chain _ Hinv j a Hj) as (e & He & -> & Hocc).
  destruct (Nat.lt_trichotomy d e) as [Hlt|[->|Hgt]].
  - by apply Hempty, Hocc.
  - apply Hempty. by exists a.
  - by apply (Hno e).
Qed.

(** ** Writing a slot *)

Lemma holds_alter_ne l j i f a : i <> j -> holds (alter f i l) j a <-> holds l j a.
Proof. intros Hne. unfold holds. by rewrite list_lookup_alter_ne. Qed.

Lemma holds_assign l i now a b :
  (i < length l)%nat -> holds (alter (assign now a) i l) i b <-> b = a.
Proof.
  intros Hi. unfold holds. rewrite list_lookup_alter_eq. destruct (lookup_lt_is_Some_2 l i Hi) as [s ->]. simpl.
  split; [by intros (s' & [= <-] & _ & <-)|]. intros ->. by eexists.
Qed.

Lemma occupied_assign l i now a j : (i < length l)%nat -> is_occupied l j -> is_occupied (alter (assign now a) i l) j.
Proof.
  intros Hi [b Hb]. destruct (decide (j = i)) as [->|Hne]; [exists a; by apply holds_assign|].
  exists b. by apply holds_alter_ne.
Qed.

(** Giving a slot to an address that has none keeps the invariant, if probing
    for it reaches that slot over occupied ones. *)
Lemma assign_inv l now a d :
  pool_inv l -> (d < MAX_POOL_SIZE)%nat -> (forall j, ~ holds l j a) ->
  (forall k, (k < d)%nat -> is_occupied l (probe_idx a k)) ->
  pool_inv (alter (assign now a) (probe_idx a d) l).
Proof.
  intros Hinv Hd Hnone Hocc. set (i := probe_idx a d).
  assert (Hi : (i < length l)%nat) by (rewrite (inv_length _ Hinv); apply probe_idx_lt).
  assert (Hcase : forall j b, holds (alter (assign now a) i l) j b -> (j = i /\ b = a) \/ (j <> i /\ holds l j b)).
  { intros j b Hj. destruct (decide (j = i)) as [->|Hne]; [left; split; [done|by apply holds_assign in Hj]|].
    right. split; [done|]. by apply holds_alter_ne in Hj. }
  split.
  - rewrite length_alter. apply Hinv.
  - intros j1 j2 b H1 H2. apply Hcase in H1 as [[-> ->]|[? H1]], H2 as [[-> Hb]|[? H2]]; [done| | |].
    + by apply Hnone in H2.
    + subst b. by apply Hnone in H1.
    + by apply (inv_distinct _ Hinv _ _ b).
  - intros j b Hj. apply Hcase in Hj as [[-> ->]|[Hne Hj]].
    + exists d. split; [done|]. split; [done|]. intros k Hk. by apply occupied_assign, Hocc.
    + destruct (inv_chain _ Hinv j b Hj) as (e & He & Hje & Hoe). exists e. split; [done|]. split; [done|].
      intros k Hk. by apply occupied_assign, Hoe.
Qed.

Lemma oldest_range l i o t : (o < i + length l)%nat -> (oldest l i o t < i + length l)%nat.
Proof.
  revert i o t. induction l as [|s l IH]; intros i o t Ho; cbn [oldest length] in *; [lia|].
  destruct (occupied s); [|rewrite <- Nat.add_succ_comm in *; by apply IH].
  destruct (decide _); [lia|]. rewrite <- Nat.add_succ_comm in *. destruct (_ <? _); apply IH; lia.
Qed.

Lemma probe_idx_at a i : (i < MAX_POOL_SIZE)%nat -> exists d, (d < MAX_POOL_SIZE)%nat /\ i = probe_idx a d.
Proof. apply probe_idx_surj. Qed.

(** What allocation does to the slots: nothing when the address has one;
    otherwise one slot is assigned, free unless all are occupied. *)
Lemma find_or_allocate_cases p now a :
  pool_inv (slots p) ->
  exists idx p', find_or_allocate now a p = Ok (idx, p') /\ pool_inv (slots p') /\ (idx < MAX_POOL_SIZE)%nat /\
    ((holds (slots p) idx a /\ slots p' = slots p) \/
     ((forall j, ~ holds (slots p) j a) /\ slots p' = alter (assign now a) idx (slots p) /\
      (is_occupied (slots p) idx -> forall j, (j < MAX_POOL_SIZE)%nat -> is_occupied (slots p) j))).
Proof.
  intros Hinv. pose proof (inv_length _ Hinv) as Hlen. unfold find_or_allocate.
  pose proof (probe_spec (slots p) a MAX_POOL_SIZE 0 Hlen eq_refl ltac:(lia)) as Hp.
  destruct (probe (slots p) a (hash_addr a) 0 MAX_POOL_SIZE) as [[idx|idx|]|e]; [| | |done].
  - exists idx, (count_hit p). do 2 (split; [done|]). split; [|by left].
    destruct Hp as (s & Hs & _). rewrite <- Hlen. by eapply lookup_lt_Some.
  - destruct Hp as (d & -> & Hd & Hempty & Hk).
    assert (Hnone : forall j, ~ holds (slots p) j a) by (apply (chain_absent _ _ d); [done|done|intros k Hlt; by apply Hk]).
    eexists _, _. split; [reflexivity|]. cbn [count_active count_miss on_slot with_stats with_slots slots].
    split; [apply assign_inv; [done|done|done|intros k Hlt; by apply Hk]|].
    split; [apply probe_idx_lt|]. right. split; [done|]. split; [done|]. intros Ho. by apply Hempty in Ho.
  - assert (Hnone : forall j, ~ holds (slots p) j a).
    { intros j Hj. destruct (Hj) as (s & Hs & _). apply (Hp j); [|done]. rewrite <- Hlen. by eapply lookup_lt_Some. }
    unfold evict_and_allocate. set (idx := oldest (slots p) 0 0 U64_MAX).
    assert (Hi : (idx < MAX_POOL_SIZE)%nat).
    { rewrite <- Hlen. apply oldest_range. rewrite Hlen. unfold MAX_POOL_SIZE. lia. }
    eexists _, _. split; [reflexivity|]. cbn [count_eviction on_slot with_stats with_slots slots].
    split; [|split; [done|right; split; [done|]; split; [done|]; intros _ j; apply Hp]]. destruct (probe_idx_surj a idx) as (d & Hd & ->); [done|].
    apply assign_inv; [done|done|done|]. intros k Hk. apply Hp, probe_idx_lt.
Qed.

(** Allocation keeps the pool a map from addresses to slots.  For every pool
    that satisfies the invariant, [find_or_allocate] returns without a fault a
    slot that then belongs to the address; if a slot already did, it is that one
    and no slot changes; otherwise only the returned slot changes, and it was
    free unless every slot was occupied.  The invariant (different addresses in
    occupied slots, unbroken probe sequences) holds again. *)
Theorem find_or_allocate_spec p now a :
  pool_inv (slots p) ->
  exists idx p', find_or_allocate now a p = Ok (idx, p') /\ pool_inv (slots p') /\ holds (slots p') idx a /\
    (forall j, holds (slots p) j a -> j = idx /\ slots p' = slots p) /\
    (forall j b, j <> idx -> holds (slots p') j b <-> holds (slots p) j b) /\
    (forall b, b <> a -> holds (slots p) idx b -> forall j, (j < MAX_POOL_SIZE)%nat -> is_occupied (slots p) j).
Proof.
  intros Hinv. pose proof (inv_length _ Hinv) as Hlen.
  destruct (find_or_allocate_cases p now a Hinv) as (idx & p' & Hf & Hinv' & Hi & Hc).
  exists idx, p'. split; [done|]. split; [done|]. destruct Hc as [[Hh ->]|(Hnone & -> & Hfull)].
  - split; [done|]. split; [intros j Hj; split; [by apply (inv_distinct _ Hinv _ _ a)|done]|]. split; [done|].
    intros b Hb Hib. exfalso. apply Hb. destruct Hib as (s & Hs & _ & <-), Hh as (s' & Hs' & _ & <-). by simplify_eq.
  - split; [apply holds_assign; rewrite ?Hlen; done|]. split; [intros j Hj; by apply Hnone in Hj|].
    split; [intros j b Hne; by apply holds_alter_ne|]. intros b _ Hib. apply Hfull. by exists b.
Qed.

(** ** Other operations *)

(** An operation on a slot that leaves its address and its occupation alone. *)
Lemma holds_same l i f j a :
  (forall s, addr (f s) = addr s /\ occupied (f s) = occupied s) -> holds (alter f i l) j a <-> holds l j a.
Proof.
  intros Hf. destruct (decide (i = j)) as [->|Hne]; [|by apply holds_alter_ne]. unfold holds.
  rewrite list_lookup_alter_eq. destruct (l !! j) as [s|]; simpl; [|done]. destruct (Hf s) as [H1 H2].
  split; intros (s' & [= <-] & Ho & Ha); eexists; (split; [done|]); by rewrite ?H1, ?H2 in *.
Qed.

Lemma pool_inv_same l i f :
  (forall s, addr (f s) = addr s /\ occupied (f s) = occupied s) -> pool_inv l -> pool_inv (alter f i l).
Proof.
  intros Hf [Hl Hd Hc]. split.
  - by rewrite length_alter.
  - intros j1 j2 a H1 H2. rewrite holds_same in H1, H2 by done. eauto.
  - intros j a Hj. rewrite holds_same in Hj by done. destruct (Hc j a Hj) as (d & Hd' & -> & Ho).
    exists d. split; [done|]. split; [done|]. intros k Hk. destruct (Ho k Hk) as [b Hb]. exists b. by apply holds_same.
Qed.

Lemma pool_new_inv : pool_inv (slots (pool_new (Conn := Conn))).
Proof.
  assert (Hno : forall j a, ~ holds (slots (pool_new (Conn := Conn))) j a).
  { intros j a (s & Hs & Ho & _). cbn [slots pool_new] in Hs. apply lookup_replicate in Hs as [-> _]. done. }
  split; [apply length_replicate| |]; intros; by exfalso; eapply Hno.
Qed.

(** ** Lookup by packed address *)

Lemma scan_scalar_app target l1 l2 i :
  scan_scalar target (l1 ++ l2) i
  = match scan_scalar target l1 i with Some j => Some j | None => scan_scalar target l2 (i + length l1) end.
Proof.
  revert i. induction l1 as [|s l1 IH]; intros i; cbn [app scan_scalar length]; [by rewrite Nat.add_0_r|].
  destruct (slot_matches target s); [done|]. rewrite IH. by rewrite Nat.add_succ_comm.
Qed.

(** Scanning by chunks of four is scanning. *)
Lemma scan_chunks_scalar target n l i :
  length l = (4 * n)%nat -> scan_chunks n target l i = scan_scalar target l i.
Proof.
  revert l i. induction n as [|n IH]; intros l i Hl; cbn [scan_chunks].
  { by destruct l. }
  transitivity (scan_scalar target (take 4 l ++ drop 4 l) i); [|by rewrite take_drop].
  rewrite scan_scalar_app, length_take, Nat.min_l by lia.
  destruct (scan_scalar target (take 4 l) i); [done|]. apply IH. rewrite length_drop. lia.
Qed.

Lemma scan_scalar_spec target l i :
  match scan_scalar target l i with
  | Some j => exists k s, j = (i + k)%nat /\ l !! k = Some s /\ slot_matches target s = true
  | None => forall k s, l !! k = Some s -> slot_matches target s = false
  end.
Proof.
  revert i. induction l as [|s l IH]; intros i; cbn [scan_scalar]; [done|].
  destruct (slot_matches target s) eqn:Hm; [exists 0%nat, s; rewrite Nat.add_0_r; done|].
  specialize (IH (Datatypes.S i)). destruct (scan_scalar target l (Datatypes.S i)) as [j|].
  - destruct IH as (k & s' & -> & Hk & Hs'). exists (Datatypes.S k), s'. split; [lia|done].
  - intros [|k] s' Hk; simpl in Hk; [by simplify_eq|by eapply IH].
Qed.

(** Pools of IPv4 peers. *)
Definition v4_pool l : Prop := forall j a, holds l j a -> is_v4 a /\ addr_ok a.

Lemma u128_v4 a : is_v4 a -> socket_addr_to_u128 a = SessionCache.pack_addr a.
Proof. by destruct a. Qed.

Lemma matches_holds l j s a :
  v4_pool l -> is_v4 a -> addr_ok a -> l !! j = Some s ->
  slot_matches (socket_addr_to_u128 a) s = true <-> holds l j a.
Proof.
  intros Hv Ha Hok Hs. unfold slot_matches. rewrite andb_true_iff, Z.eqb_eq. split.
  - intros [Ho He]. exists s. split; [done|]. split; [done|].
    destruct (Hv j (addr s)) as [Hv4 Hvok]; [by exists s|].
    apply SessionCache.pack_v4_inj; [done..|]. by rewrite <- !u128_v4.
  - intros (s' & Hs' & Ho & <-). rewrite Hs in Hs'. injection Hs' as <-. done.
Qed.

(** Lookup.  In a pool of IPv4 peers that satisfies the invariant, [find]
    returns the slot of the address if there is one and nothing otherwise; the
    scan by chunks of four and the scalar scan agree on every pool, and neither
    changes a slot. *)
Theorem find_spec p avx2 a :
  pool_inv (slots p) -> v4_pool (slots p) -> is_v4 a -> addr_ok a ->
  find avx2 a p = find (negb avx2) a p /\ slots (find avx2 a p).2 = slots p /\
  forall idx, (find avx2 a p).1 = Some idx <-> holds (slots p) idx a.
Proof.
  intros Hinv Hv Ha Hok. unfold find.
  assert (Hsimd : forall target, find_simd_avx2 target p = find_scalar target p).
  { intros target. unfold find_simd_avx2, find_scalar. f_equal. apply scan_chunks_scalar. apply (inv_length _ Hinv). }
  assert (Hfind : (if avx2 then find_simd_avx2 (socket_addr_to_u128 a) p else find_scalar (socket_addr_to_u128 a) p)
                  = find_scalar (socket_addr_to_u128 a) p) by (by destruct avx2; rewrite ?Hsimd).
  split; [by destruct avx2; cbn [negb]; rewrite Hsimd|]. rewrite Hfind. split; [unfold find_scalar, count_lookup; by destruct (scan_scalar _ _ _)|].
  intros idx. unfold find_scalar, count_lookup. cbn [fst].
  pose proof (scan_scalar_spec (socket_addr_to_u128 a) (slots p) 0) as Hs.
  destruct (scan_scalar (socket_addr_to_u128 a) (slots p) 0) as [j|].
  - destruct Hs as (k & s & -> & Hk & Hm). rewrite Nat.add_0_l. apply (matches_holds _ _ _ _ Hv Ha Hok Hk) in Hm.
    split; [by intros [= <-]|]. intros Hi. f_equal. by apply (inv_distinct _ Hinv _ _ a).
  - split; [done|]. intros Hi. destruct (Hi) as (s & Hk & _). apply (matches_holds _ _ _ _ Hv Ha Hok Hk) in Hi.
    by rewrite (Hs _ _ Hk) in Hi.
Qed.

End spec.

(** ** A pool with one peer *)

Definition peer : SocketAddr := V4 [10; 0; 0; 1] 8009.

Lemma find_or_allocate_spec_witness :
  exists idx p', find_or_allocate (Conn := unit) 5 peer pool_new = Ok (idx, p') /\ holds (slots p') idx peer.
Proof.
  destruct (find_or_allocate_spec (Conn := unit) pool_new 5 peer pool_new_inv) as (idx & p' & Hf & _ & Hh & _).
  exists idx, p'. split; [exact Hf|exact Hh].
Defined.

Lemma find_spec_witness : (find (Conn := unit) true peer pool_new).1 = None.
Proof.
  destruct (find_spec (Conn := unit) pool_new true peer) as (_ & _ & Hf).
  - apply pool_new_inv.
  - intros j a (s & Hs & Ho & _). cbn [slots pool_new] in Hs. apply lookup_replicate in Hs as [-> _]. done.
  - exact I.
  - repeat constructor; simpl; lia.
  - destruct ((find true peer pool_new).1) as [idx|] eqn:E; [|reflexivity].
    destruct (proj1 (Hf idx) eq_refl) as (s & Hs & Ho & _).
    cbn [slots pool_new] in Hs. apply lookup_replicate in Hs as [-> _]. discriminate Ho.
Defined.
