(* ===== verification/Dirty.v ===== *)
(** * Dirty: the bitmap of connections with pending work

    [DirtyTracker] of [quic/src/pool.rs] and the loops of [Endpoint::poll] over
    the bits it takes ([quic/src/endpoint.rs]).  Any thread may mark a
    connection, the poll loop takes the marks; every access to one of the two
    words is one atomic action.  [dirty_refines_set] states that the pair of
    words is a set of slots to which the marks, the clears and the takes of all
    threads apply one after the other: no mark is lost. *)
From S2P Require Import Prelude Conc Mpsc MpscBitmap.

Record DirtyTracker : Type := { dirty_lo : Z; dirty_hi : Z }.
Definition tracker_new : DirtyTracker := {| dirty_lo := 0; dirty_hi := 0 |}.

(** What happened to the set, for the specification. *)
Inductive event : Type :=
| Marked (slot_idx : nat)
| Cleared (slot_idx : nat)
| Took (who base : nat) (slots : list nat).   (* the thread that takes, the half, the slots *)

Abbreviation P := (prog DirtyTracker event).

Definition on_lo (f : Z -> Z) (t : DirtyTracker) : DirtyTracker :=
  {| dirty_lo := f (dirty_lo t); dirty_hi := dirty_hi t |}.
Definition on_hi (f : Z -> Z) (t : DirtyTracker) : DirtyTracker :=
  {| dirty_lo := dirty_lo t; dirty_hi := f (dirty_hi t) |}.

Definition shift_msg : string := "attempt to shift left with overflow".

(** The word of [slot_idx], changed in one action. *)
Definition update_word (slot_idx : nat) (f : Z -> Z -> Z) (ev : event) : P unit :=
  if (slot_idx <? 64)%nat then
    Act (fun t => ([ev], on_lo (f (Z.of_nat slot_idx)) t)) (fun _ => Ret tt)
  else if (slot_idx <? 128)%nat then
    Act (fun t => ([ev], on_hi (f (Z.of_nat (slot_idx - 64))) t)) (fun _ => Ret tt)
  else Fault (Panic shift_msg).

Definition mark_dirty (slot_idx : nat) : P unit :=
  update_word slot_idx (fun i w => Z.lor w (bit64 i)) (Marked slot_idx).

Definition clear_dirty (slot_idx : nat) : P unit :=
  update_word slot_idx (fun i w => Z.land w (not64 (bit64 i))) (Cleared slot_idx).

(** The loop of [poll]: the lowest bit's index, then clear it.  A word has at
    most 64 bits. *)
Fixpoint iter_bits (fuel : nat) (w : Z) : list nat :=
  match fuel with
  | O => []
  | Datatypes.S fuel =>
      if w =? 0 then [] else Z.to_nat (trailing_zeros w) :: iter_bits fuel (Z.land w (w - 1))
  end.

(** The slots a word marks, for the events: its set bits in order. *)
Definition marked (base : nat) (w : Z) : list nat :=
  (fun i => base + i)%nat <$> filter (fun k => Z.testbit w (Z.of_nat k) = true) (seq 0 64).

(** The slots the loop visits for a word whose first slot is [base]. *)
Definition visit (base : nat) (w : Z) : list nat := (fun i => base + i)%nat <$> iter_bits 64 w.

(** [who] is the calling thread, for the events only. *)
Definition take_dirty (who : nat) : P (Z * Z) :=
  let! lo := Act (fun t => ([Took who 0 (marked 0 (dirty_lo t))], on_lo (fun _ => 0) t)) (fun t => Ret (dirty_lo t)) in
  let! hi := Act (fun t => ([Took who 64 (marked 64 (dirty_hi t))], on_hi (fun _ => 0) t)) (fun t => Ret (dirty_hi t)) in
  Ret (lo, hi).

Definition any_dirty : P bool :=
  let! lo := load dirty_lo in
  if negb (lo =? 0) then Ret true
  else let! hi := load dirty_hi in Ret (negb (hi =? 0)).

(** The slots that one round of [poll] drives. *)
Definition poll_dirty (who : nat) : P (list nat) :=
  let! (lo, hi) := take_dirty who in
  Ret (visit 0 lo ++ visit 64 hi).

(** ** Bits *)

(** [w & (w - 1)] clears the lowest bit. *)
Lemma land_pred_bits w t k :
  0 <= t -> 0 <= k -> Z.testbit w t = true -> (forall i, 0 <= i < t -> Z.testbit w i = false) -> 0 < w ->
  Z.testbit (Z.land w (w - 1)) k = if decide (k = t) then false else Z.testbit w k.
Proof.
  intros Ht Hk Hbit Hlow Hw.
  assert (Hmod : w mod 2 ^ t = 0).
  { apply Z.bits_inj'. intros i Hi. rewrite Z.bits_0. destruct (Z.ltb_spec i t).
    - rewrite Z.mod_pow2_bits_low by lia. apply Hlow. lia.
    - by rewrite Z.mod_pow2_bits_high by lia. }
  set (m := w / 2 ^ t). pose proof (Z.pow_pos_nonneg 2 t ltac:(lia) Ht) as Hp.
  assert (Hwm : w = m * 2 ^ t) by (pose proof (Z.div_mod w (2 ^ t)); lia).
  assert (Hpred : w - 1 = (m - 1) * 2 ^ t + (2 ^ t - 1)) by lia.
  assert (Hodd : Z.odd m = true).
  { rewrite <- Z.bit0_odd. rewrite Hwm in Hbit. rewrite Z.mul_pow2_bits in Hbit by lia. by rewrite Z.sub_diag in Hbit. }
  rewrite Z.land_spec. destruct (Z.lt_ge_cases k t) as [Hlt|Hge].
  { rewrite Hlow by lia. by destruct (decide _). }
  assert (Hk1 : Z.testbit (w - 1) k = Z.testbit (m - 1) (k - t)).
  { rewrite <- (Z.sub_add t k) at 1. rewrite <- Z.shiftr_spec by lia. rewrite Z.shiftr_div_pow2 by lia. f_equal.
    rewrite Hpred, Z.div_add_l, Z.div_small by lia. lia. }
  assert (Hk2 : Z.testbit w k = Z.testbit m (k - t)) by (rewrite Hwm at 1; apply Z.mul_pow2_bits; lia).
  rewrite Hk1, Hk2. destruct (decide (k = t)) as [->|Hne].
  - rewrite Z.sub_diag, !Z.bit0_odd, Z.odd_sub, Hodd. done.
  - assert (Hm : m = 2 * (m / 2) + 1) by (pose proof (Z.div_mod m 2); rewrite (Zmod_odd m), Hodd in *; lia).
    replace (k - t) with (Z.succ (k - t - 1)) by lia.
    assert (Hs : Z.testbit m (Z.succ (k - t - 1)) = Z.testbit (m / 2) (k - t - 1)).
    { rewrite Hm at 1. apply Z.testbit_odd_succ. lia. }
    replace (m - 1) with (2 * (m / 2)) by lia. rewrite Hs, Z.testbit_even_succ by lia. apply andb_diag.
Qed.

Definition word_ok (w : Z) : Prop := 0 <= w < U64.

Lemma land_pred_ok w : word_ok w -> 0 < w -> word_ok (Z.land w (w - 1)).
Proof.
  intros [H0 H1] Hw. unfold word_ok. split; [apply Z.land_nonneg; lia|].
  enough (Z.land w (w - 1) <= w - 1) by lia.
  apply Z.ldiff_le; [lia|]. rewrite Z.ldiff_land. apply Z.bits_inj'. intros i Hi.
  rewrite !Z.land_spec, Z.lnot_spec, Z.bits_0 by done.
  by destruct (Z.testbit w i), (Z.testbit (w - 1) i).
Qed.

(** The set bits at or above [i], in order. *)
Definition bits_from (w : Z) (i n : nat) : list nat := filter (fun k => Z.testbit w (Z.of_nat k) = true) (seq i n).

Lemma bits_from_skip w i n j :
  (i <= j <= i + n)%nat -> (forall k, (i <= k < j)%nat -> Z.testbit w (Z.of_nat k) = false) ->
  bits_from w i n = bits_from w j (i + n - j).
Proof.
  intros Hj Hz. unfold bits_from. replace (seq i n) with (seq i (j - i) ++ seq j (i + n - j)).
  2: { replace j with (i + (j - i))%nat at 2 by lia. rewrite <- seq_app. f_equal. lia. }
  rewrite filter_app. replace (filter _ (seq i (j - i))) with (@nil nat); [done|]. symmetry.
  assert (Hall : forall k, k ∈ seq i (j - i) -> Z.testbit w (Z.of_nat k) = false).
  { intros k Hk. apply elem_of_seq in Hk. apply Hz. lia. }
  induction (seq i (j - i)) as [|k l IH]; [done|]. rewrite filter_cons, decide_False.
  - apply IH. intros x Hx. apply Hall. by right.
  - rewrite Hall by left. done.
Qed.

(** The loop enumerates the set bits. *)
Lemma iter_bits_from fuel w i n :
  word_ok w -> (n <= fuel)%nat -> (i + n = 64)%nat -> (forall k, (k < i)%nat -> Z.testbit w (Z.of_nat k) = false) ->
  iter_bits fuel w = bits_from w i n.
Proof.
  revert w i n. induction fuel as [|fuel IH]; intros w i n Hw Hn Hi Hlow.
  { replace n with 0%nat by lia. done. }
  cbn [iter_bits]. destruct (Z.eqb_spec w 0) as [->|Hne].
  { unfold bits_from. clear. revert i. induction n as [|n IH]; intros i; [done|]. cbn [seq].
    rewrite filter_cons, decide_False; [apply IH|by rewrite Z.bits_0]. }
  destruct (trailing_zeros_spec w Hw Hne) as (Ht & Hbit & Hz). set (t := trailing_zeros w) in *.
  assert (Hti : (i <= Z.to_nat t)%nat).
  { destruct (Nat.le_gt_cases i (Z.to_nat t)); [done|]. exfalso.
    pose proof (Hlow (Z.to_nat t) ltac:(lia)) as H'. rewrite Z2Nat.id in H' by lia. by rewrite Hbit in H'. }
  rewrite (bits_from_skip w i n (Z.to_nat t)) by (try lia; intros k Hk; apply Hz; lia).
  destruct (i + n - Z.to_nat t)%nat as [|r] eqn:Hr; [lia|]. unfold bits_from. cbn [seq]. rewrite filter_cons, decide_True.
  2: { by rewrite Z2Nat.id by lia. }
  f_equal. destruct Hw as [Hw0 Hw1].
  assert (Hb : forall k, 0 <= k -> Z.testbit (Z.land w (w - 1)) k = if decide (k = t) then false else Z.testbit w k).
  { intros k Hk. apply land_pred_bits; try done; lia. }
  rewrite (IH _ (Datatypes.S (Z.to_nat t)) r); [|by apply land_pred_ok; [split|lia]|lia|lia|].
  - unfold bits_from. apply list_filter_ext_in. intros k Hk. apply elem_of_seq in Hk. rewrite Hb by lia.
    by rewrite decide_False by lia.
  - intros k Hk. rewrite Hb by lia. destruct (decide (Z.of_nat k = t)); [done|]. apply Hz. lia.
Qed.

(** ** The set of dirty slots *)

(** Slot [i] of the pair of words. *)
Definition is_dirty (t : DirtyTracker) (i : nat) : bool :=
  if (i <? 64)%nat then Z.testbit (dirty_lo t) (Z.of_nat i)
  else Z.testbit (dirty_hi t) (Z.of_nat (i - 64)).

Definition dirty_slots (t : DirtyTracker) : gset nat :=
  list_to_set (filter (fun i => is_dirty t i = true) (seq 0 128)).

Lemma elem_of_dirty t i : i ∈ dirty_slots t <-> (i < 128)%nat /\ is_dirty t i = true.
Proof.
  unfold dirty_slots. rewrite elem_of_list_to_set, list_elem_of_filter, elem_of_seq. 
  split; intros [? ?]; (split; [|]); (done || lia).
Qed.

(** The abstract tracker: one set, changed by marks, clears and takes.  A take of
    one half returns its elements in increasing order and removes them. *)
Inductive set_step : gset nat -> event -> gset nat -> Prop :=
| step_mark X i : (i < 128)%nat -> set_step X (Marked i) ({[i]} ∪ X)
| step_clear X i : (i < 128)%nat -> set_step X (Cleared i) (X ∖ {[i]})
| step_take X who base l :
    l = filter (fun i => i ∈ X) (seq base 64) -> set_step X (Took who base l) (X ∖ list_to_set l).

Inductive set_run : gset nat -> list event -> gset nat -> Prop :=
| run_nil X : set_run X [] X
| run_snoc X tr e Y Z : set_run X tr Y -> set_step Y e Z -> set_run X (tr ++ [e]) Z.

Definition tracker_ok (t : DirtyTracker) : Prop := word_ok (dirty_lo t) /\ word_ok (dirty_hi t).

Definition inv (c : config DirtyTracker event) : Prop :=
  tracker_ok c.1 /\ set_run ∅ c.2 (dirty_slots c.1).

Lemma word_or w i : word_ok w -> 0 <= i < 64 ->
  word_ok (Z.lor w (bit64 i)) /\
  forall k, 0 <= k -> Z.testbit (Z.lor w (bit64 i)) k = Z.testbit w k || bool_decide (k = i).
Proof.
  intros [H0 H1] Hi. unfold bit64. rewrite Z.shiftl_1_l. pose proof (Z.pow_pos_nonneg 2 i). split.
  - split; [apply Z.lor_nonneg; lia|].
    destruct (Z.eq_dec (Z.lor w (2 ^ i)) 0) as [->|Hne]; [unfold U64; lia|].
    apply Z.log2_lt_pow2; [pose proof (proj2 (Z.lor_nonneg w (2 ^ i))); lia|].
    rewrite Z.log2_lor, Z.log2_pow2 by lia. apply Z.max_lub_lt; [|lia].
    destruct (Z.eq_dec w 0) as [->|]; [simpl; lia|]. apply Z.log2_lt_pow2; [lia|done].
  - intros k Hk. rewrite Z.lor_spec, Z.pow2_bits_eqb by lia. f_equal.
    destruct (Z.eqb_spec i k); symmetry; [by apply bool_decide_eq_true|apply bool_decide_eq_false; lia].
Qed.

Lemma testbit_high w k : word_ok w -> 64 <= k -> Z.testbit w k = false.
Proof.
  intros [H0 H1] Hk. destruct (Z.eq_dec w 0) as [->|]; [apply Z.bits_0|].
  apply Z.bits_above_log2; [lia|]. assert (Z.log2 w < 64) by (apply Z.log2_lt_pow2; [lia|done]). lia.
Qed.

Lemma word_andn w i : word_ok w -> 0 <= i < 64 ->
  word_ok (Z.land w (not64 (bit64 i))) /\
  forall k, 0 <= k -> Z.testbit (Z.land w (not64 (bit64 i))) k = Z.testbit w k && negb (bool_decide (k = i)).
Proof.
  intros Hw Hi. assert (Hb : 0 <= bit64 i < U64).
  { unfold bit64, U64. rewrite Z.shiftl_1_l. split; [apply Z.pow_nonneg; lia|apply Z.pow_lt_mono_r; lia]. }
  assert (Hbits : forall k, 0 <= k ->
    Z.testbit (Z.land w (not64 (bit64 i))) k = Z.testbit w k && negb (bool_decide (k = i))).
  { intros k Hk. rewrite Z.land_spec. destruct (Z.lt_ge_cases k 64) as [Hlt|Hge].
    - rewrite not64_bits by (done || lia). do 2 f_equal. unfold bit64. rewrite Z.shiftl_1_l, Z.pow2_bits_eqb by lia.
      destruct (Z.eqb_spec i k); symmetry; [by apply bool_decide_eq_true|apply bool_decide_eq_false; lia].
    - by rewrite testbit_high. }
  split; [|done]. destruct Hw as [H0 H1]. split; [apply Z.land_nonneg; lia|].
  enough (Z.land w (not64 (bit64 i)) <= w) by lia. apply Z.ldiff_le; [lia|].
  apply Z.bits_inj'. intros k Hk. rewrite Z.ldiff_spec, Z.bits_0, Hbits by done.
  by destruct (Z.testbit w k), (bool_decide (k = i)).
Qed.

(** Two trackers with the same bits represent the same set. *)
Lemma dirty_slots_eq t X :
  (forall i, (i < 128)%nat -> is_dirty t i = true <-> i ∈ X) -> (forall i, i ∈ X -> (i < 128)%nat) -> dirty_slots t = X.
Proof. intros H Hb. apply set_eq. intros i. rewrite elem_of_dirty. split; [intros [? ?]; by apply H|]. intros Hi. split; [auto|]. by apply H; auto. Qed.

(** The two ways in which a word changes, as a function of one bit. *)
Lemma or_bit_spec w n : word_ok w -> 0 <= n < 64 ->
  word_ok (Z.lor w (bit64 n)) /\
  forall k, 0 <= k -> Z.testbit (Z.lor w (bit64 n)) k = if decide (k = n) then true else Z.testbit w k.
Proof.
  intros Hw Hn. destruct (word_or w n Hw Hn) as [Hok Hbits]. split; [done|]. intros k Hk.
  rewrite Hbits by done. destruct (decide (k = n)); [rewrite bool_decide_eq_true_2 by done; apply orb_true_r|].
  rewrite bool_decide_eq_false_2 by done. apply orb_false_r.
Qed.

Lemma andn_bit_spec w n : word_ok w -> 0 <= n < 64 ->
  word_ok (Z.land w (not64 (bit64 n))) /\
  forall k, 0 <= k ->
    Z.testbit (Z.land w (not64 (bit64 n))) k = if decide (k = n) then false else Z.testbit w k.
Proof.
  intros Hw Hn. destruct (word_andn w n Hw Hn) as [Hok Hbits]. split; [done|]. intros k Hk.
  rewrite Hbits by done. destruct (decide (k = n)); [rewrite bool_decide_eq_true_2 by done; apply andb_false_r|].
  rewrite bool_decide_eq_false_2 by done. apply andb_true_r.
Qed.

(** ** Each action is a step of the set *)

(** Changing the bit of one slot. *)
Lemma is_dirty_update t i (f : Z -> Z -> Z) (g : bool -> bool) j :
  tracker_ok t -> (i < 128)%nat ->
  (forall w n, word_ok w -> 0 <= n < 64 -> word_ok (f n w) /\
     forall k, 0 <= k -> Z.testbit (f n w) k = if decide (k = n) then g (Z.testbit w k) else Z.testbit w k) ->
  let t' := if (i <? 64)%nat then on_lo (f (Z.of_nat i)) t else on_hi (f (Z.of_nat (i - 64))) t in
  tracker_ok t' /\ ((j < 128)%nat -> is_dirty t' j = if decide (j = i) then g (is_dirty t j) else is_dirty t j).
Proof.
  intros [Hlo Hhi] Hi Hf t'. unfold t', is_dirty. destruct (Nat.ltb_spec i 64) as [Hlt|Hge].
  - destruct (Hf (dirty_lo t) (Z.of_nat i) Hlo ltac:(lia)) as [Hok Hbits]. split; [done|]. intros Hj.
    cbn [on_lo dirty_lo dirty_hi]. destruct (Nat.ltb_spec j 64).
    + rewrite Hbits by lia. destruct (decide (j = i)), (decide (Z.of_nat j = Z.of_nat i)); (done || lia).
    + rewrite decide_False by lia. done.
  - destruct (Hf (dirty_hi t) (Z.of_nat (i - 64)) Hhi ltac:(lia)) as [Hok Hbits]. split; [done|]. intros Hj.
    cbn [on_hi dirty_lo dirty_hi]. destruct (Nat.ltb_spec j 64).
    + rewrite decide_False by lia. done.
    + rewrite Hbits by lia. destruct (decide (j = i)), (decide (Z.of_nat (j - 64) = Z.of_nat (i - 64))); (done || lia).
Qed.

(** The loop of [poll] visits the marked slots of a word. *)
Lemma visit_marked base w : word_ok w -> visit base w = marked base w.
Proof. intros Hw. unfold visit. by rewrite (iter_bits_from 64 _ 0 64) by (done || lia). Qed.

Lemma marked_lo t : marked 0 (dirty_lo t) = filter (fun i => i ∈ dirty_slots t) (seq 0 64).
Proof.
  unfold marked. rewrite list_fmap_id. apply list_filter_ext_in. intros i Hi. apply elem_of_seq in Hi.
  rewrite elem_of_dirty. unfold is_dirty. destruct (Nat.ltb_spec i 64); [|lia].
  split; [intros ?; split; [lia|done]|by intros [_ ?]].
Qed.

Lemma fmap_add_filter (A B : nat -> Prop) `{!forall x, Decision (A x)} `{!forall x, Decision (B x)} b i n :
  (forall k, (i <= k < i + n)%nat -> A k <-> B (b + k)%nat) ->
  (fun k => b + k)%nat <$> filter A (seq i n) = filter B (seq (b + i) n).
Proof.
  revert i. induction n as [|n IH]; intros i Hab; [done|]. cbn [seq]. rewrite !filter_cons.
  pose proof (Hab i ltac:(lia)). rewrite <- Nat.add_succ_r.
  destruct (decide (A i)), (decide (B (b + i)%nat)); try tauto; [rewrite fmap_cons; f_equal|];
    apply IH; intros k Hk; apply Hab; lia.
Qed.

Lemma marked_hi t : marked 64 (dirty_hi t) = filter (fun i => i ∈ dirty_slots t) (seq 64 64).
Proof.
  apply (fmap_add_filter _ _ 64 0 64). intros k Hk. rewrite elem_of_dirty. unfold is_dirty.
  destruct (Nat.ltb_spec (64 + k) 64); [lia|]. replace (64 + k - 64)%nat with k by lia.
  split; [intros ?; split; [lia|done]|by intros [_ ?]].
Qed.

Lemma inv_step c upd e X :
  inv c -> upd c.1 = ([e], (upd c.1).2) -> tracker_ok (upd c.1).2 -> dirty_slots (upd c.1).2 = X ->
  set_step (dirty_slots c.1) e X -> inv (apply_upd upd c).
Proof.
  intros [Ht Hr] Hu Hok <- Hs. split; [done|]. unfold apply_upd. cbn [snd].
  rewrite Hu at 1. cbn [fst]. eapply run_snoc; [exact Hr|exact Hs].
Qed.

(** The takes of a thread: the halves it took, oldest first. *)
Definition takes_of (who : nat) (tr : list event) : list (nat * list nat) :=
  omap (fun e => match e with Took w base l => if (w =? who)%nat then Some (base, l) else None | _ => None end) tr.

Lemma takes_app who tr tr' : takes_of who (tr ++ tr') = takes_of who tr ++ takes_of who tr'.
Proof. apply omap_app. Qed.

Lemma takes_took who w base l : takes_of who [Took w base l] = if (w =? who)%nat then [(base, l)] else [].
Proof. unfold takes_of. simpl. by destruct (w =? who)%nat. Qed.

(** Other threads keep the invariant and take nothing in the name of [who]; [who]
    takes nothing in theirs. *)
Definition others_keep (who : nat) (c c' : config DirtyTracker event) : Prop := takes_of who c'.2 = takes_of who c.2.
Definition only (who : nat) (c c' : config DirtyTracker event) : Prop := forall j, j <> who -> takes_of j c'.2 = takes_of j c.2.

#[local] Instance others_keep_preorder who : PreOrder (others_keep who).
Proof. split; [done|]. intros c1 c2 c3 H1 H2. unfold others_keep in *. congruence. Qed.

Abbreviation WP who := (wp inv (others_keep who) (only who)).

Lemma wp_update_word i f e g X :
  (i < 128)%nat ->
  (forall w n, word_ok w -> 0 <= n < 64 -> word_ok (f n w) /\
     forall k, 0 <= k -> Z.testbit (f n w) k = if decide (k = n) then g (Z.testbit w k) else Z.testbit w k) ->
  (forall t j, (j < 128)%nat -> (j ∈ X t <-> (if decide (j = i) then g (is_dirty t j) else is_dirty t j) = true)) ->
  (forall t j, j ∈ X t -> (j < 128)%nat) -> (forall t, set_step (dirty_slots t) e (X t)) ->
  (forall j, takes_of j [e] = []) ->
  forall who c, WP who (update_word i f e) (fun _ c' => takes_of who c'.2 = takes_of who c.2) c.
Proof.
  intros Hi Hf HX Hb Hstep Hno who c. unfold update_word.
  assert (Hquiet : forall (t : DirtyTracker -> DirtyTracker) (c' : config DirtyTracker event) j, takes_of j (apply_upd (fun t' => ([e], t t')) c').2 = takes_of j c'.2).
  { intros t c' j. unfold apply_upd. cbn [fst snd]. by rewrite takes_app, Hno, app_nil_r. }
  assert (Hall : forall c', inv c' -> let t' := if (i <? 64)%nat then on_lo (f (Z.of_nat i)) c'.1
                                                else on_hi (f (Z.of_nat (i - 64))) c'.1 in
            tracker_ok t' /\ dirty_slots t' = X c'.1).
  { intros c' [Ht _] t'. destruct (is_dirty_update c'.1 i f g 0 Ht Hi Hf) as [Hok _]. split; [done|].
    apply dirty_slots_eq; [|apply Hb]. intros j Hj. rewrite HX by done.
    unfold t'. by rewrite (proj2 (is_dirty_update c'.1 i f g j Ht Hi Hf) Hj). }
  destruct (Nat.ltb_spec i 64) as [Hlt|Hge].
  - intros c' HR Hc'. destruct (Hall c' Hc') as [Hok He]. split.
    { by eapply inv_step; [done|reflexivity|exact Hok|exact He|apply Hstep]. }
    split; [by intros j _; rewrite Hquiet|]. intros c2 HR2 _. rewrite HR2, Hquiet. apply HR.
  - destruct (Nat.ltb_spec i 128); [|lia]. intros c' HR Hc'. destruct (Hall c' Hc') as [Hok He]. split.
    { by eapply inv_step; [done|reflexivity|exact Hok|exact He|apply Hstep]. }
    split; [by intros j _; rewrite Hquiet|]. intros c2 HR2 _. rewrite HR2, Hquiet. apply HR.
Qed.

Lemma wp_mark_dirty i who c : (i < 128)%nat -> WP who (mark_dirty i) (fun _ c' => takes_of who c'.2 = takes_of who c.2) c.
Proof.
  intros Hi. apply (wp_update_word i _ _ (fun _ => true) (fun t => {[i]} ∪ dirty_slots t)); [done| | | | |done].
  - apply or_bit_spec.
  - intros t j Hj. rewrite elem_of_union, elem_of_singleton, elem_of_dirty. destruct (decide (j = i)); [tauto|]. split; [by intros [?|[_ ?]]|by right].
  - intros t j. rewrite elem_of_union, elem_of_singleton, elem_of_dirty. intros [->|[? _]]; done.
  - intros t. by constructor.
Qed.

Lemma wp_clear_dirty i who c : (i < 128)%nat -> WP who (clear_dirty i) (fun _ c' => takes_of who c'.2 = takes_of who c.2) c.
Proof.
  intros Hi. apply (wp_update_word i _ _ (fun _ => false) (fun t => dirty_slots t ∖ {[i]})); [done| | | | |done].
  - apply andn_bit_spec.
  - intros t j Hj. rewrite elem_of_difference, elem_of_singleton, elem_of_dirty. destruct (decide (j = i)); [split; [by intros [_ ?]|done]|]. split; [by intros [[_ ?] _]|done].
  - intros t j. rewrite elem_of_difference, elem_of_dirty. by intros [[? _] _].
  - intros t. by constructor.
Qed.

(** Emptying one word takes the slots of that half. *)
Lemma wp_take (base who : nat) (get : DirtyTracker -> Z) (set : DirtyTracker -> DirtyTracker) {A}
    (k : Z -> P A) c Q :
  (forall t, tracker_ok t -> tracker_ok (set t) /\ word_ok (get t) /\
     marked base (get t) = filter (fun i => i ∈ dirty_slots t) (seq base 64) /\
     forall i, (i < 128)%nat -> is_dirty (set t) i = is_dirty t i && negb (bool_decide (i ∈ seq base 64))) ->
  (forall w c', inv c' -> word_ok w -> takes_of who c'.2 = takes_of who c.2 ++ [(base, marked base w)] ->
     WP who (k w) Q c') ->
  WP who (bind (Act (fun t => ([Took who base (marked base (get t))], set t)) (fun t => Ret (get t))) k) Q c.
Proof.
  intros Hset Hk c' HR Hc'. destruct (Hset c'.1 (proj1 Hc')) as (Hok & Hw & Hv & Hd).
  match goal with |- ?I /\ _ => enough (Hi : I) end.
  { split; [done|]. unfold only. split.
    - intros j Hj. unfold apply_upd. cbn [fst snd]. rewrite takes_app, takes_took.
      rewrite (proj2 (Nat.eqb_neq who j)) by done. by rewrite app_nil_r.
    - apply Hk; [done|exact Hw|]. unfold apply_upd. cbn [fst snd]. rewrite takes_app, HR, takes_took. by rewrite Nat.eqb_refl. }
  eapply (inv_step c' _ (Took who base (marked base (get c'.1)))
            (dirty_slots c'.1 ∖ list_to_set (marked base (get c'.1)))); [done|reflexivity|exact Hok| |by constructor].
  cbn [snd]. apply dirty_slots_eq.
  - intros i Hi. rewrite Hd, Hv, elem_of_difference, elem_of_list_to_set, list_elem_of_filter, !elem_of_dirty by done.
    rewrite andb_true_iff, negb_true_iff, bool_decide_eq_false. tauto.
  - intros i. rewrite elem_of_difference, elem_of_dirty. by intros [[? _] _].
Qed.

Lemma wp_take_dirty {A} who (k : Z * Z -> P A) c Q :
  (forall lo hi c', inv c' -> word_ok lo -> word_ok hi ->
     takes_of who c'.2 = takes_of who c.2 ++ [(0%nat, marked 0 lo); (64%nat, marked 64 hi)] -> WP who (k (lo, hi)) Q c') ->
  WP who (bind (take_dirty who) k) Q c.
Proof.
  intros Hk. unfold take_dirty. apply wp_bind_assoc, wp_take.
  - intros t Ht. split; [split; [by split|apply Ht]|]. split; [apply Ht|]. split; [by apply marked_lo|]. intros i Hi. unfold is_dirty.
    cbn [on_lo dirty_lo dirty_hi]. destruct (Nat.ltb_spec i 64).
    + rewrite Z.bits_0, bool_decide_eq_true_2 by (apply elem_of_seq; lia). by rewrite andb_false_r.
    + rewrite bool_decide_eq_false_2 by (rewrite elem_of_seq; lia). by rewrite andb_true_r.
  - intros lo c1 _ Hlo H1. apply wp_bind_assoc, wp_take.
    2: { intros hi c2 Hc2 Hhi H2. apply Hk; [done..|]. by rewrite H2, H1, <- app_assoc. }
    intros t Ht. split; [split; [apply Ht|by split]|]. split; [apply Ht|]. split; [by apply marked_hi|]. intros i Hi. unfold is_dirty.
    cbn [on_hi dirty_lo dirty_hi]. destruct (Nat.ltb_spec i 64).
    + rewrite bool_decide_eq_false_2 by (rewrite elem_of_seq; lia). by rewrite andb_true_r.
    + rewrite Z.bits_0, bool_decide_eq_true_2 by (apply elem_of_seq; lia). by rewrite andb_false_r.
Qed.

(** ** The operations by themselves *)

Lemma run_update_word t i f ev g :
  tracker_ok t -> (i < 128)%nat ->
  (forall w n, word_ok w -> 0 <= n < 64 -> word_ok (f n w) /\
     forall k, 0 <= k -> Z.testbit (f n w) k = if decide (k = n) then g (Z.testbit w k) else Z.testbit w k) ->
  exists t', run (update_word i f ev) t = ([ev], t', inr tt) /\ tracker_ok t' /\
    forall j, (j < 128)%nat -> is_dirty t' j = if decide (j = i) then g (is_dirty t j) else is_dirty t j.
Proof.
  intros Ht Hi Hf. eexists. split; [|split; [exact (proj1 (is_dirty_update t i f g 0 Ht Hi Hf))|]].
  - unfold update_word. destruct (i <? 64)%nat; [done|]. destruct (Nat.ltb_spec i 128); [done|lia].
  - intros j Hj. exact (proj2 (is_dirty_update t i f g j Ht Hi Hf) Hj).
Qed.

Lemma run_mark_dirty i t :
  tracker_ok t -> (i < 128)%nat ->
  exists ev t', run (mark_dirty i) t = (ev, t', inr tt) /\ tracker_ok t' /\
    forall j, (j < 128)%nat -> is_dirty t' j = bool_decide (j = i) || is_dirty t j.
Proof.
  intros Ht Hi. destruct (run_update_word t i _ (Marked i) (fun _ => true) Ht Hi or_bit_spec) as (t' & Hr & Hok & Hd).
  exists [Marked i], t'. split; [done|]. split; [done|]. intros j Hj. rewrite Hd by done.
  case_bool_decide; destruct (decide (j = i)); (reflexivity || contradiction).
Qed.

Lemma run_clear_dirty i t :
  tracker_ok t -> (i < 128)%nat ->
  exists ev t', run (clear_dirty i) t = (ev, t', inr tt) /\ tracker_ok t' /\
    forall j, (j < 128)%nat -> is_dirty t' j = negb (bool_decide (j = i)) && is_dirty t j.
Proof.
  intros Ht Hi. destruct (run_update_word t i _ (Cleared i) (fun _ => false) Ht Hi andn_bit_spec) as (t' & Hr & Hok & Hd).
  exists [Cleared i], t'. split; [done|]. split; [done|]. intros j Hj. rewrite Hd by done.
  case_bool_decide; destruct (decide (j = i)); (reflexivity || contradiction).
Qed.

(** A round of [poll] takes the dirty slots, each once, and leaves none. *)
Lemma run_poll_dirty who t :
  tracker_ok t ->
  exists ev l, run (poll_dirty who) t = (ev, tracker_new, inr l) /\ NoDup l /\
    forall i, i ∈ l <-> (i < 128)%nat /\ is_dirty t i = true.
Proof.
  intros Ht. eexists _, (visit 0 (dirty_lo t) ++ visit 64 (dirty_hi t)). split; [reflexivity|].
  destruct (Ht) as [? ?]. rewrite !visit_marked, marked_lo, marked_hi, <- filter_app by done.
  change (seq 64 64) with (seq (0 + 64) 64). rewrite <- (seq_app 64 64 0). split; [apply NoDup_filter, NoDup_seq|].
  intros i. rewrite list_elem_of_filter, elem_of_seq, elem_of_dirty. split; [by intros [? _]|].
  intros Hi. split; [exact Hi|]. destruct Hi. lia.
Qed.

(** ** Clients *)

Inductive dirty_op : Type := OpMark (i : nat) | OpClear (i : nat) | OpTake.

Definition op_ok (o : dirty_op) : Prop :=
  match o with OpMark i | OpClear i => (i < 128)%nat | OpTake => True end.

(** Thread [who]: operations one after the other, with what its takes returned. *)
Fixpoint client (who : nat) (ops : list dirty_op) : P (list (list nat)) :=
  match ops with
  | [] => Ret []
  | OpMark i :: ops => mark_dirty i ;;; client who ops
  | OpClear i :: ops => clear_dirty i ;;; client who ops
  | OpTake :: ops => let! taken := poll_dirty who in let! rest := client who ops in Ret (taken :: rest)
  end.

(** The takes of a thread explain the lists its polls returned: each is what it took
    from the lower half, then what it took from the upper half. *)
Fixpoint explains (takes : list (nat * list nat)) (results : list (list nat)) : Prop :=
  match results, takes with
  | [], [] => True
  | r :: results, (0%nat, lo) :: (64%nat, hi) :: takes => r = lo ++ hi /\ explains takes results
  | _, _ => False
  end.

Lemma wp_client who ops c :
  inv c -> Forall op_ok ops ->
  WP who (client who ops) (fun rs c' => exists takes, takes_of who c'.2 = takes_of who c.2 ++ takes /\ explains takes rs) c.
Proof.
  intros Hc Hops. revert c Hc. induction Hops as [|o ops Ho Hops IH]; intros c Hc.
  { intros c' HR _. exists []. by rewrite app_nil_r. }
  assert (Hnext : forall p : P unit, WP who p (fun _ c' => takes_of who c'.2 = takes_of who c.2) c ->
            WP who (p ;;; client who ops) (fun rs c' => exists takes, takes_of who c'.2 = takes_of who c.2 ++ takes /\ explains takes rs) c).
  { intros p Hp. apply wp_bind; [exact _|done|]. refine (wp_mono_inv _ _ _ _ _ _ _ _ Hp). intros ? c1 Hc1 E. rewrite <- E. by apply IH. }
  destruct o as [i|i|]; cbn [client].
  - apply Hnext. by apply wp_mark_dirty.
  - apply Hnext. by apply wp_clear_dirty.
  - unfold poll_dirty. apply wp_bind_assoc, wp_take_dirty. intros lo hi c' Hc' Hlo Hhi E.
    change (bind (Ret ?a) ?k) with (k a). apply wp_bind; [exact _|done|]. eapply wp_mono_inv; [|by apply IH].
    intros rs c2 _ (takes & E2 & Hx). intros c3 HR _.
    exists ((0%nat, marked 0 lo) :: (64%nat, marked 64 hi) :: takes).
    split; [by rewrite HR, E2, E, <- app_assoc|]. cbn [explains]. by rewrite !visit_marked.
Qed.


(** Two markers and a poll loop. *)
Definition demo_threads : list (list dirty_op) := [[OpMark 3; OpMark 70]; [OpMark 5]; [OpTake; OpTake]].
Definition demo_sched : list nat := [0; 2; 1; 0; 2; 2; 2]%nat.

