(* ===== verification/Histogram.v ===== *)
(** * Histogram: the latency histogram

    [timing/src/histogram.rs].  64 logarithmic buckets and four counters, each
    an atomic of its own; every access to one of them is one action.  Counters
    wrap at [2^64] as [fetch_add] does.  A percentile's rank is computed in
    [f64]: the IEEE 754 operations are the executable ones of the standard
    library's [SpecFloat] with the parameters of binary64.

    [percentiles_spec] relates the answer to the samples themselves: it is the
    lower bound of the bucket of the sample of that rank in sorted order. *)
From Stdlib Require Import SpecFloat.
From stdpp Require Import sorting.
From S2P Require Import Prelude Conc.

Definition NUM_BUCKETS : nat := 64.

Record Histogram : Type := { buckets : list Z; count : Z; sum : Z; min : Z; max : Z }.

Definition new : Histogram :=
  {| buckets := replicate NUM_BUCKETS 0; count := 0; sum := 0; min := U64_MAX; max := 0 |}.

(** [u64::leading_zeros] *)
Definition leading_zeros (v : Z) : Z := if v =? 0 then 64 else 63 - Z.log2 v.

Definition value_to_bucket (value : Z) : nat :=
  if value =? 0 then 0%nat
  else Nat.min (Z.to_nat (63 - leading_zeros value)) (NUM_BUCKETS - 1).

Definition bucket_to_value (bucket : nat) : Z :=
  if (bucket =? 0)%nat then 0 else Z.shiftl 1 (Z.of_nat bucket).

Definition with_buckets (b : list Z) (h : Histogram) : Histogram :=
  {| buckets := b; count := count h; sum := sum h; min := min h; max := max h |}.
Definition with_count (n : Z) (h : Histogram) : Histogram :=
  {| buckets := buckets h; count := n; sum := sum h; min := min h; max := max h |}.
Definition with_sum (n : Z) (h : Histogram) : Histogram :=
  {| buckets := buckets h; count := count h; sum := n; min := min h; max := max h |}.
Definition with_min (n : Z) (h : Histogram) : Histogram :=
  {| buckets := buckets h; count := count h; sum := sum h; min := n; max := max h |}.
Definition with_max (n : Z) (h : Histogram) : Histogram :=
  {| buckets := buckets h; count := count h; sum := sum h; min := min h; max := n |}.

Abbreviation P := (prog Histogram unit).

(** The compare-exchange loop of [update_min]; [None]: lost the race [fuel]
    times. *)
Fixpoint min_loop (fuel : nat) (current value : Z) : P (option unit) :=
  if value <? current then
    match fuel with
    | O => Ret None
    | Datatypes.S fuel =>
        let! x := rmw (fun h => if min h =? current then with_min value h else h) min in
        if x =? current then Ret (Some tt) else min_loop fuel x value
    end
  else Ret (Some tt).

Definition update_min (fuel : nat) (value : Z) : P (option unit) :=
  let! current := load min in min_loop fuel current value.

Fixpoint max_loop (fuel : nat) (current value : Z) : P (option unit) :=
  if current <? value then
    match fuel with
    | O => Ret None
    | Datatypes.S fuel =>
        let! x := rmw (fun h => if max h =? current then with_max value h else h) max in
        if x =? current then Ret (Some tt) else max_loop fuel x value
    end
  else Ret (Some tt).

Definition update_max (fuel : nat) (value : Z) : P (option unit) :=
  let! current := load max in max_loop fuel current value.

Definition record (fuel : nat) (value_ns : Z) : P (option unit) :=
  if value_ns =? 0 then Ret (Some tt)
  else
    let bucket := value_to_bucket value_ns in
    store (fun h => with_buckets (alter (fun n => wrapping_add64 n 1) bucket (buckets h)) h) ;;;
    store (fun h => with_count (wrapping_add64 (count h) 1) h) ;;;
    store (fun h => with_sum (wrapping_add64 (sum h) value_ns) h) ;;;
    let! a := update_min fuel value_ns in
    let! b := update_max fuel value_ns in
    Ret (match a, b with Some _, Some _ => Some tt | _, _ => None end).

Fixpoint clear_buckets (i n : nat) : P unit :=
  match n with
  | O => Ret tt
  | Datatypes.S n =>
      store (fun h => with_buckets (<[i := 0]> (buckets h)) h) ;;; clear_buckets (Datatypes.S i) n
  end.

Definition clear : P unit :=
  clear_buckets 0 NUM_BUCKETS ;;;
  store (with_count 0) ;;; store (with_sum 0) ;;; store (with_min U64_MAX) ;;; store (with_max 0).

Definition get_min : P Z := let! m := load min in Ret (if m =? U64_MAX then 0 else m).

Definition mean : P Z :=
  let! n := load count in
  if n =? 0 then Ret 0 else let! s := load sum in Ret (s / n).

(** ** Percentiles *)

Definition f64_of_u64 (n : Z) : spec_float := binary_normalize 53 1024 n 0 false.

(** [x as u64]: truncation, saturating, NaN to 0. *)
Definition f64_to_u64 (x : spec_float) : Z :=
  match x with
  | S754_zero _ | S754_nan => 0
  | S754_infinity s => if s then 0 else U64_MAX
  | S754_finite s m e => if s then 0 else Z.min (Z.shiftl (Zpos m) e) U64_MAX
  end.

Definition f64_100 : spec_float := f64_of_u64 100.

(** [((count as f64 * p / 100.0) as u64).max(1)] *)
Definition target_rank (count : Z) (p : spec_float) : Z :=
  Z.max (f64_to_u64 (SFdiv 53 1024 (SFmul 53 1024 (f64_of_u64 count) p) f64_100)) 1.

Definition index_msg : string := "index out of bounds".

(** The table of bucket values and cumulative counts. *)
Fixpoint collect (i n : nat) (cumulative : Z) : P (list (Z * Z)) :=
  match n with
  | O => Ret []
  | Datatypes.S n =>
      let! bucket_count :=
        Act (fun h => ([], h))
            (fun h => match buckets h !! i with
                      | Some c => Ret c
                      | None => Fault (Panic index_msg)
                      end) in
      let cumulative := wrapping_add64 cumulative bucket_count in
      let! rest := collect (Datatypes.S i) n cumulative in
      Ret ((bucket_to_value i, cumulative) :: rest)
  end.

Fixpoint find_bucket (table : list (Z * Z)) (target : Z) : Z :=
  match table with
  | [] => 0
  | (bucket_value, cum_count) :: rest =>
      if target <=? cum_count then bucket_value else find_bucket rest target
  end.

Definition percentiles (ps : list spec_float) : P (list Z) :=
  let! n := load count in
  if n =? 0 then Ret (replicate (length ps) 0)
  else
    let! table := collect 0 NUM_BUCKETS 0 in
    Ret ((fun p => find_bucket table (target_rank n p)) <$> ps).

(** The literals 50.0, 90.0, 99.0, 99.9 and 99.99. *)
Definition f64_div (a b : Z) : spec_float := SFdiv 53 1024 (f64_of_u64 a) (f64_of_u64 b).
Definition COMMON : list spec_float :=
  [f64_of_u64 50; f64_of_u64 90; f64_of_u64 99; f64_div 999 10; f64_div 9999 100].

Record Percentiles : Type := { p50 : Z; p90 : Z; p99 : Z; p999 : Z; p9999 : Z }.

Definition common_percentiles : P Percentiles :=
  let! values := percentiles COMMON in
  match values with
  | [a; b; c; d; e] => Ret {| p50 := a; p90 := b; p99 := c; p999 := d; p9999 := e |}
  | _ => Fault (Panic index_msg)
  end.

Record LatencyStats : Type := {
  s_min : Z; s_max : Z; s_mean : Z; s_percentiles : Percentiles; s_count : Z }.

Definition stats : P LatencyStats :=
  let! p := common_percentiles in
  let! mn := get_min in
  let! mx := load max in
  let! me := mean in
  let! n := load count in
  Ret {| s_min := mn; s_max := mx; s_mean := me; s_percentiles := p; s_count := n |}.

(** ** The histogram of a list of samples *)

Definition in_bucket (k : nat) (l : list Z) : Z :=
  Z.of_nat (length (filter (fun v => value_to_bucket v = k) l)).

Definition hist_of (l : list Z) : Histogram :=
  {| buckets := (fun k => in_bucket k l) <$> seq 0 NUM_BUCKETS;
     count := Z.of_nat (length l);
     sum := fold_right Z.add 0 l mod U64;
     min := fold_right Z.min U64_MAX l;
     max := fold_right Z.max 0 l |}.

Definition sample_ok (v : Z) : Prop := 0 < v < U64.

Lemma value_to_bucket_log2 v : sample_ok v -> value_to_bucket v = Z.to_nat (Z.log2 v).
Proof.
  intros Hv. unfold value_to_bucket, leading_zeros. unfold sample_ok, U64 in Hv.
  destruct (Z.eqb_spec v 0); [lia|].
  assert (Z.log2 v < 64) by (apply Z.log2_lt_pow2; lia).
  pose proof (Z.log2_nonneg v). unfold NUM_BUCKETS. lia.
Qed.

Lemma value_to_bucket_lt v : (value_to_bucket v < NUM_BUCKETS)%nat.
Proof. unfold value_to_bucket, NUM_BUCKETS. destruct (v =? 0); lia. Qed.

Lemma value_to_bucket_mono x y : x <= y -> (value_to_bucket x <= value_to_bucket y)%nat.
Proof.
  intros Hxy. assert (Hb : forall v, value_to_bucket v = Nat.min (Z.to_nat (Z.log2 v)) 63).
  { intros v. unfold value_to_bucket, leading_zeros, NUM_BUCKETS.
    destruct (Z.eqb_spec v 0) as [->|]; [done|]. do 2 f_equal. lia. }
  rewrite !Hb. pose proof (Z.log2_le_mono x y Hxy). lia.
Qed.

Lemma in_bucket_cons k v l :
  in_bucket k (v :: l) = (if decide (value_to_bucket v = k) then 1 else 0) + in_bucket k l.
Proof. unfold in_bucket. rewrite filter_cons. destruct (decide _); simpl length; lia. Qed.

Lemma in_bucket_bound k l : 0 <= in_bucket k l <= Z.of_nat (length l).
Proof. unfold in_bucket. pose proof (length_filter (fun v => value_to_bucket v = k) l). lia. Qed.

Lemma hist_new : new = hist_of [].
Proof. reflexivity. Qed.

Lemma alter_fmap_seq (f g : nat -> Z) (h : Z -> Z) i a n :
  (forall k, g k = if decide (k = a + i)%nat then h (f k) else f k) ->
  alter h i (f <$> seq a n) = g <$> seq a n.
Proof.
  intros Hg. apply list_eq. intros j. rewrite list_lookup_fmap.
  destruct (decide (i = j)) as [->|Hne].
  - rewrite list_lookup_alter_eq, list_lookup_fmap.
    destruct (seq a n !! j) as [k|] eqn:Hk; [|done]. simpl. f_equal.
    apply lookup_seq in Hk as [-> _]. by rewrite Hg, decide_True.
  - rewrite list_lookup_alter_ne, list_lookup_fmap by done.
    destruct (seq a n !! j) as [k|] eqn:Hk; [|done]. simpl. f_equal.
    apply lookup_seq in Hk as [-> _]. rewrite Hg, decide_False by lia. done.
Qed.

Lemma run_min_loop fuel v h :
  run (min_loop (Datatypes.S fuel) (min h) v) h = ([], with_min (Z.min v (min h)) h, inr (Some tt)).
Proof.
  cbn [min_loop]. destruct (Z.ltb_spec v (min h)).
  - cbn [rmw bind run]. rewrite Z.eqb_refl. cbn [run]. by rewrite Z.min_l by lia.
  - cbn [run]. rewrite Z.min_r by lia. by destruct h.
Qed.

Lemma run_max_loop fuel v h :
  run (max_loop (Datatypes.S fuel) (max h) v) h = ([], with_max (Z.max v (max h)) h, inr (Some tt)).
Proof.
  cbn [max_loop]. destruct (Z.ltb_spec (max h) v).
  - cbn [rmw bind run]. rewrite Z.eqb_refl. cbn [run]. by rewrite Z.max_l by lia.
  - cbn [run]. rewrite Z.max_r by lia. by destruct h.
Qed.

(** One more sample; the order of the samples does not matter to [hist_of], so
    the newest is put first. *)
Lemma run_record fuel v l :
  sample_ok v -> Z.of_nat (length l) + 1 < U64 ->
  run (record (Datatypes.S fuel) v) (hist_of l) = ([], hist_of (v :: l), inr (Some tt)).
Proof.
  intros Hv Hl. pose proof Hv as [Hv0 Hv1]. unfold record.
  destruct (Z.eqb_spec v 0) as [Hz|_]; [lia|].
  cbn [store bind run app]. rewrite run_bind. unfold update_min. cbn [load bind run].
  rewrite run_min_loop. cbn [app]. rewrite run_bind. unfold update_max. cbn [load bind run].
  rewrite run_max_loop. cbn [run app]. do 3 f_equal.
  unfold hist_of, with_max, with_min, with_sum, with_count, with_buckets.
  cbn [buckets count sum min max]. f_equal.
  - apply alter_fmap_seq. intros k. rewrite in_bucket_cons, Nat.add_0_l.
    destruct (decide (k = value_to_bucket v)) as [->|Hne].
    + rewrite decide_True by done. unfold wrapping_add64.
      pose proof (in_bucket_bound (value_to_bucket v) l). rewrite Z.mod_small by lia. lia.
    + rewrite decide_False by done. lia.
  - unfold wrapping_add64. simpl length. rewrite Z.mod_small by lia. lia.
  - unfold wrapping_add64. rewrite Zplus_mod_idemp_l. simpl. f_equal. lia.
Qed.

(** [record] once for each sample, in order. *)
Fixpoint record_all (l : list Z) : P (option unit) :=
  match l with
  | [] => Ret (Some tt)
  | v :: l =>
      let! r := record 1 v in
      match r with Some _ => record_all l | None => Ret None end
  end.

Lemma run_record_all l l0 :
  Forall sample_ok l -> Z.of_nat (length l) + Z.of_nat (length l0) < U64 ->
  run (record_all l) (hist_of l0) = ([], hist_of (rev l ++ l0), inr (Some tt)).
Proof.
  intros Hl. revert l0. induction Hl as [|v l Hv Hl IH]; intros l0 Hb; [done|].
  cbn [record_all]. simpl length in Hb. rewrite run_bind, run_record by (done || lia).
  rewrite IH by (simpl length; lia). simpl rev. by rewrite <- app_assoc.
Qed.

(** ** Ranks *)

(** Samples in buckets up to [k]. *)
Definition up_to (k : nat) (l : list Z) : Z :=
  Z.of_nat (length (filter (fun v => (value_to_bucket v <= k)%nat) l)).

(** Samples in buckets below [k]. *)
Definition below (k : nat) (l : list Z) : Z :=
  Z.of_nat (length (filter (fun v => (value_to_bucket v < k)%nat) l)).

Lemma below_step k l : below k l + in_bucket k l = up_to k l.
Proof.
  unfold below, in_bucket, up_to. induction l as [|v l IH]; [done|]. rewrite !filter_cons.
  repeat destruct (decide _); simpl length; lia.
Qed.

Lemma below_S k l : below (Datatypes.S k) l = up_to k l.
Proof.
  unfold below, up_to. do 2 f_equal. apply list_filter_iff. intros v. lia.
Qed.

Lemma up_to_bound k l : 0 <= up_to k l <= Z.of_nat (length l).
Proof. unfold up_to. pose proof (length_filter (fun v => (value_to_bucket v <= k)%nat) l). lia. Qed.

Lemma run_collect l n i :
  (i + n = NUM_BUCKETS)%nat -> Z.of_nat (length l) < U64 ->
  run (collect i n (below i l)) (hist_of l)
  = ([], hist_of l, inr ((fun k => (bucket_to_value k, up_to k l)) <$> seq i n)).
Proof.
  revert i. induction n as [|n IH]; intros i Hn Hl; [done|].
  cbn [collect bind run]. cbn [buckets hist_of].
  rewrite list_lookup_fmap, lookup_seq_lt by lia. cbn [fmap option_fmap option_map].
  rewrite Nat.add_0_l. cbn [bind run app].
  unfold wrapping_add64. rewrite below_step, Z.mod_small by (pose proof (up_to_bound i l); lia).
  rewrite <- below_S, run_bind, IH by lia. simpl. by rewrite below_S.
Qed.

(** The least bucket that reaches the target. *)
Lemma find_bucket_least l t b n i :
  (i <= b < i + n)%nat -> (forall k, t <= up_to k l <-> (b <= k)%nat) ->
  find_bucket ((fun k => (bucket_to_value k, up_to k l)) <$> seq i n) t = bucket_to_value b.
Proof.
  revert i. induction n as [|n IH]; intros i Hb Hk; [lia|]. cbn [seq fmap list_fmap find_bucket].
  destruct (Z.leb_spec t (up_to i l)) as [Ht|Ht].
  - apply Hk in Ht. by replace i with b by lia.
  - apply IH; [|done]. assert (~ (b <= i)%nat) by (rewrite <- Hk; lia). lia.
Qed.

Lemma find_bucket_none l t n i :
  Z.of_nat (length l) < t ->
  find_bucket ((fun k => (bucket_to_value k, up_to k l)) <$> seq i n) t = 0.
Proof.
  intros Ht. revert i. induction n as [|n IH]; intros i; [done|]. cbn [seq fmap list_fmap find_bucket].
  destruct (Z.leb_spec t (up_to i l)); [|apply IH]. pose proof (up_to_bound i l). lia.
Qed.

(** In a sorted list the elements of a downward closed set are a prefix. *)
Lemma sorted_prefix (A : Z -> Prop) `{forall v, Decision (A v)} s i v :
  (forall x y, x <= y -> A y -> A x) -> StronglySorted Z.le s -> s !! i = Some v ->
  (Datatypes.S i <= length (filter A s))%nat <-> A v.
Proof.
  intros Hdown Hs. revert i. induction Hs as [|x s Hs IH Hx]; intros i Hi; [done|].
  rewrite filter_cons. destruct (decide (A x)) as [Ha|Ha].
  - destruct i as [|i]; simpl in *; [simplify_eq; split; [done|lia]|]. rewrite <- (IH i) by done. lia.
  - assert (Hnone : filter A s = []).
    { clear IH Hi. induction Hx as [|y s' Hy Hs' IH]; [done|]. rewrite filter_cons, decide_False.
      - apply IH. by inversion Hs.
      - intros Hay. apply Ha. by apply (Hdown x y). }
    rewrite Hnone. simpl. split; [lia|]. intros Hv. exfalso. apply Ha.
    destruct i as [|i]; simpl in Hi; [by simplify_eq|].
    apply (Hdown x v); [|done]. apply (proj1 (Forall_forall _ _) Hx). by eapply list_elem_of_lookup_2.
Qed.

(** What a percentile stands for: the sample of rank [t] in sorted order, rounded
    down to the bound of its bucket. *)
Definition rank_value (l : list Z) (t : Z) : Z :=
  match merge_sort Z.le l !! Z.to_nat (t - 1) with
  | Some v => bucket_to_value (value_to_bucket v)
  | None => 0
  end.

Lemma find_bucket_rank l t :
  1 <= t ->
  find_bucket ((fun k => (bucket_to_value k, up_to k l)) <$> seq 0 NUM_BUCKETS) t = rank_value l t.
Proof.
  intros Ht. unfold rank_value.
  set (s := merge_sort Z.le l).
  assert (Hperm : s ≡ₚ l) by apply merge_sort_Permutation.
  assert (Hs : StronglySorted Z.le s) by (apply (StronglySorted_merge_sort Z.le); exact _).
  destruct (s !! Z.to_nat (t - 1)) as [v|] eqn:Hv.
  - apply find_bucket_least; [pose proof (value_to_bucket_lt v); lia|]. intros k.
    unfold up_to. rewrite <- Hperm.
    rewrite <- (sorted_prefix (fun v => (value_to_bucket v <= k)%nat) s (Z.to_nat (t - 1)) v); [lia| |done|done].
    intros x y Hxy. pose proof (value_to_bucket_mono x y Hxy). lia.
  - apply find_bucket_none. apply lookup_ge_None in Hv. rewrite Hperm in Hv. lia.
Qed.

(** The bound of a sample's bucket is at most the sample, and more than half of
    it up to rounding. *)
Lemma bucket_bound v : sample_ok v -> bucket_to_value (value_to_bucket v) <= v <= 2 * bucket_to_value (value_to_bucket v) + 1.
Proof.
  intros Hv. rewrite (value_to_bucket_log2 v Hv). destruct Hv as [Hv _].
  pose proof (Z.log2_spec v Hv) as [Hlo Hhi]. pose proof (Z.log2_nonneg v).
  unfold bucket_to_value. destruct (Nat.eqb_spec (Z.to_nat (Z.log2 v)) 0) as [He|Hne].
  - assert (Z.log2 v = 0) as Hz by lia. rewrite Hz in *. simpl in Hhi. lia.
  - rewrite Z2Nat.id, Z.shiftl_1_l by done. rewrite Z.pow_succ_r in Hhi by done. lia.
Qed.

Lemma ranks_nil (f : spec_float -> Z) ps : (fun p => rank_value [] (f p)) <$> ps = replicate (length ps) 0.
Proof. induction ps as [|p ps IH]; [done|]. cbn [fmap list_fmap length replicate]. by rewrite <- IH. Qed.

Lemma below_0 l : below 0 l = 0.
Proof.
  unfold below. induction l as [|v l IH]; [done|]. rewrite filter_cons, decide_False by lia. done.
Qed.

(** The table depends on the samples only as a multiset. *)
Lemma table_perm l l' i n :
  l ≡ₚ l' ->
  (fun k => (bucket_to_value k, up_to k l)) <$> seq i n = (fun k => (bucket_to_value k, up_to k l')) <$> seq i n.
Proof. intros Hp. apply list_fmap_ext. intros j k _. unfold up_to. by rewrite Hp. Qed.

Lemma rank_value_perm l l' t : l ≡ₚ l' -> 1 <= t -> rank_value l t = rank_value l' t.
Proof. intros Hp Ht. by rewrite <- !find_bucket_rank, (table_perm l l') by done. Qed.

Lemma run_percentiles l l' ps :
  l ≡ₚ l' -> Z.of_nat (length l) < U64 ->
  run (percentiles ps) (hist_of l)
  = ([], hist_of l, inr ((fun p => rank_value l' (target_rank (Z.of_nat (length l')) p)) <$> ps)).
Proof.
  intros Hp Hb. unfold percentiles. cbn [load bind run count hist_of]. rewrite <- (Permutation_length Hp).
  destruct (Z.eqb_spec (Z.of_nat (length l)) 0) as [Hz|Hnz].
  - destruct l; [|done]. apply Permutation_nil in Hp as ->. cbn [run app length]. by rewrite ranks_nil.
  - rewrite run_bind, <- (below_0 l), run_collect by done.
    cbn [run app]. do 2 f_equal. apply list_fmap_ext. intros i p _.
    assert (1 <= target_rank (Z.of_nat (length l)) p) by (unfold target_rank; lia).
    by rewrite find_bucket_rank, (rank_value_perm l l').
Qed.

(** Percentiles of recorded samples.  Record any samples (fewer than [2^64])
    into an empty histogram and ask for percentiles: the answer for [p] is the
    sample of rank [target_rank] in sorted order, rounded down to its bucket's
    bound, that is by less than half of it; a rank beyond the last sample (a
    percentile above 100) gives 0, and so does an empty histogram. *)
Theorem percentiles_spec l ps :
  Forall sample_ok l -> Z.of_nat (length l) < U64 ->
  exists h, run (record_all l) new = ([], h, inr (Some tt)) /\
    run (percentiles ps) h
    = ([], h, inr ((fun p => rank_value l (target_rank (Z.of_nat (length l)) p)) <$> ps)) /\
    forall t v, merge_sort Z.le l !! Z.to_nat (t - 1) = Some v ->
      rank_value l t <= v <= 2 * rank_value l t + 1.
Proof.
  intros Hl Hb. exists (hist_of (rev l)). rewrite hist_new, run_record_all, app_nil_r by (done || simpl; lia).
  split; [done|]. split.
  - apply run_percentiles; [apply Permutation_sym, Permutation_rev|by rewrite length_rev].
  - intros t v Hv. unfold rank_value. rewrite Hv. apply bucket_bound.
    assert (Hs : Forall sample_ok (merge_sort Z.le l)) by (by rewrite merge_sort_Permutation).
    by eapply Forall_lookup_1 in Hs.
Qed.

Lemma percentiles_spec_witness :
  exists h, run (record_all [700; 3; 5000; 40]) new = ([], h, inr (Some tt)) /\
    run (percentiles COMMON) h = ([], h, inr [32; 512; 512; 512; 512]).
Proof.
  destruct (percentiles_spec [700; 3; 5000; 40] COMMON) as (h & Hr & Hp & _).
  { repeat constructor; vm_compute; done. }
  { vm_compute. done. }
  exists h. split; [exact Hr|]. rewrite Hp. vm_compute. reflexivity.
Defined.

(** ** The other counters *)

Lemma fold_min_spec l m :
  (forall v, v ∈ l -> fold_right Z.min m l <= v) /\ (fold_right Z.min m l = m \/ fold_right Z.min m l ∈ l).
Proof.
  induction l as [|x l [IH1 IH2]]; simpl; [split; [set_solver|auto]|]. split.
  - intros v [->|Hv]%elem_of_cons; [lia|]. specialize (IH1 v Hv). lia.
  - destruct (Z.min_spec x (fold_right Z.min m l)) as [[_ ->]|[_ ->]]; [right; left|].
    destruct IH2; [by left|right; by right].
Qed.

Lemma fold_max_spec l m :
  (forall v, v ∈ l -> v <= fold_right Z.max m l) /\ (fold_right Z.max m l = m \/ fold_right Z.max m l ∈ l).
Proof.
  induction l as [|x l [IH1 IH2]]; simpl; [split; [set_solver|auto]|]. split.
  - intros v [->|Hv]%elem_of_cons; [lia|]. specialize (IH1 v Hv). lia.
  - destruct (Z.max_spec x (fold_right Z.max m l)) as [[_ ->]|[_ ->]]; [|right; left].
    destruct IH2; [by left|right; by right].
Qed.

Lemma sum_perm l l' : l ≡ₚ l' -> fold_right Z.add 0 l = fold_right Z.add 0 l'.
Proof. induction 1; simpl; lia. Qed.

Lemma sum_nonneg l : Forall (fun v => 0 < v < U64_MAX) l -> 0 <= fold_right Z.add 0 l.
Proof. induction 1; simpl; lia. Qed.

Lemma run_get_min h : run get_min h = ([], h, inr (if min h =? U64_MAX then 0 else min h)).
Proof. reflexivity. Qed.

Lemma run_mean h : run mean h = ([], h, inr (if count h =? 0 then 0 else sum h / count h)).
Proof. unfold mean. cbn [load bind run]. by destruct (count h =? 0). Qed.

(** The counters beside the buckets: after recording samples whose sum fits
    64 bits, [stats] reports their number, the least and the greatest of them
    and the integer part of their mean, and its percentiles are those of
    [percentiles] for 50, 90, 99, 99.9 and 99.99. *)
Theorem stats_spec l :
  Forall (fun v => 0 < v < U64_MAX) l -> l <> [] -> Z.of_nat (length l) < U64 ->
  fold_right Z.add 0 l < U64 ->
  exists h st, run (record_all l) new = ([], h, inr (Some tt)) /\ run stats h = ([], h, inr st) /\
    s_count st = Z.of_nat (length l) /\ s_mean st = fold_right Z.add 0 l / Z.of_nat (length l) /\
    (s_min st ∈ l /\ forall v, v ∈ l -> s_min st <= v) /\
    (s_max st ∈ l /\ forall v, v ∈ l -> v <= s_max st) /\
    (let p := s_percentiles st in [p50 p; p90 p; p99 p; p999 p; p9999 p])
    = (fun p => rank_value l (target_rank (Z.of_nat (length l)) p)) <$> COMMON.
Proof.
  intros Hl Hne Hb Hsum. assert (Hperm : rev l ≡ₚ l) by apply Permutation_sym, Permutation_rev.
  assert (Hok : Forall sample_ok l).
  { eapply Forall_impl; [exact Hl|]. unfold sample_ok, U64_MAX. intros. lia. }
  rewrite hist_new, run_record_all, app_nil_r by (done || simpl; lia).
  set (r := rev l) in *. destruct (fold_min_spec r U64_MAX) as [Hmin1 Hmin2].
  destruct (fold_max_spec r 0) as [Hmax1 Hmax2].
  assert (Hx : exists x, x ∈ r /\ 0 < x < U64_MAX).
  { destruct l as [|x l]; [done|]. exists x. rewrite Hperm. split; [left|]. by inversion Hl. }
  destruct Hx as (x & Hx & Hx0). pose proof (Hmin1 x Hx). pose proof (Hmax1 x Hx).
  destruct Hmin2 as [He|Hmin2]; [lia|]. destruct Hmax2 as [He|Hmax2]; [lia|].
  exists (hist_of r). eexists. split; [done|]. split.
  - unfold stats, common_percentiles. rewrite run_bind, run_bind, (run_percentiles r l) by (done || by rewrite Hperm).
    cbn [COMMON fmap list_fmap run]. rewrite run_bind, run_get_min, run_bind. cbn [load run].
    rewrite run_bind, run_mean. reflexivity.
  - cbn [s_count s_mean s_min s_max s_percentiles count sum min max hist_of].
    rewrite (Permutation_length Hperm), (sum_perm r l), Z.mod_small by (done || (pose proof (sum_nonneg l Hl); lia)).
    destruct (Z.eqb_spec (fold_right Z.min U64_MAX r) U64_MAX); [lia|].
    destruct (Z.eqb_spec (Z.of_nat (length l)) 0); [by destruct l|]. split; [done|]. split; [done|].
    apply (elem_of_Permutation_proper _ _ _ Hperm) in Hmin2, Hmax2.
    split; [split; [done|intros v Hv; apply Hmin1; by rewrite Hperm]|].
    split; [split; [done|intros v Hv; apply Hmax1; by rewrite Hperm]|]. reflexivity.
Qed.

Lemma stats_spec_witness :
  exists h st, run (record_all [700; 3; 5000; 40]) new = ([], h, inr (Some tt)) /\
    run stats h = ([], h, inr st) /\ s_count st = 4 /\ s_mean st = 1435.
Proof.
  destruct (stats_spec [700; 3; 5000; 40]) as (h & st & Hr & Hs & Hc & Hm & _).
  { repeat constructor; vm_compute; done. }
  { done. }
  { vm_compute. done. }
  { vm_compute. done. }
  exists h, st. split; [exact Hr|]. split; [exact Hs|]. split; [exact Hc|exact Hm].
Defined.
