(* ===== verification/Strategy.v ===== *)
(** * Strategy: how and when to connect

    [quic/src/strategy.rs] and [quic/src/config.rs]: the configuration of the
    sender.  [timing_percentile] is an [f64]. *)
From Stdlib Require Import SpecFloat.
From S2P Require Import Prelude.
From S2P Require Histogram.

(** ** Ports *)

Inductive TpuPort : Type := Main | Forward | Both.

#[export] Instance TpuPort_eq_dec : EqDecision TpuPort.
Proof. solve_decision. Defined.

Definition default_for_staked (is_staked : bool) : TpuPort := if is_staked then Forward else Main.
Definition default_tpu_port : TpuPort := Main.

(** The addresses of a leader (main, forward) a port selects. *)
Definition port_addrs {A} (p : TpuPort) (main fwd : A) : list A :=
  match p with Main => [main] | Forward => [fwd] | Both => [main; fwd] end.

(** ** Adaptive timing *)

Record AdaptivePrewarmConfig : Type := {
  min_solana_slots : Z; max_solana_slots : Z; solana_slot_duration_ms : Z; default_handshake_ms : Z;
  bootstrap_from_median : bool; timing_percentile : spec_float }.

Definition adaptive_default : AdaptivePrewarmConfig :=
  {| min_solana_slots := 4; max_solana_slots := 20; solana_slot_duration_ms := 400;
     default_handshake_ms := 2000; bootstrap_from_median := true;
     timing_percentile := Histogram.f64_of_u64 90 |}.

Definition with_min_slots (min_slots : Z) : AdaptivePrewarmConfig :=
  {| min_solana_slots := min_slots; max_solana_slots := max_solana_slots adaptive_default;
     solana_slot_duration_ms := solana_slot_duration_ms adaptive_default;
     default_handshake_ms := default_handshake_ms adaptive_default;
     bootstrap_from_median := bootstrap_from_median adaptive_default;
     timing_percentile := timing_percentile adaptive_default |}.

Definition with_percentile (p : spec_float) : AdaptivePrewarmConfig :=
  {| min_solana_slots := min_solana_slots adaptive_default; max_solana_slots := max_solana_slots adaptive_default;
     solana_slot_duration_ms := solana_slot_duration_ms adaptive_default;
     default_handshake_ms := default_handshake_ms adaptive_default;
     bootstrap_from_median := bootstrap_from_median adaptive_default; timing_percentile := p |}.

(** ** Strategies *)

Inductive JitMode : Type := Single | Fanout (n : nat).
Record JitConfig : Type := { jit_mode : JitMode; jit_adaptive : option AdaptivePrewarmConfig }.

Record PrewarmConfig : Type := {
  prewarm_lookahead : nat; poll_interval_us : Z; prewarm_cpu_core : option Z }.
Definition prewarm_default : PrewarmConfig :=
  {| prewarm_lookahead := 10; poll_interval_us := 1000; prewarm_cpu_core := None |}.

Record InlinePrewarmConfig : Type := {
  lookahead : nat; inline_cpu_core : option Z; adaptive : option AdaptivePrewarmConfig }.
Definition inline_default : InlinePrewarmConfig :=
  {| lookahead := 10; inline_cpu_core := None; adaptive := Some adaptive_default |}.
Definition with_lookahead (n : nat) : InlinePrewarmConfig :=
  {| lookahead := n; inline_cpu_core := None; adaptive := Some adaptive_default |}.
Definition with_cpu_core (core : Z) (c : InlinePrewarmConfig) : InlinePrewarmConfig :=
  {| lookahead := lookahead c; inline_cpu_core := Some core; adaptive := adaptive c |}.
Definition with_adaptive (a : AdaptivePrewarmConfig) (c : InlinePrewarmConfig) : InlinePrewarmConfig :=
  {| lookahead := lookahead c; inline_cpu_core := inline_cpu_core c; adaptive := Some a |}.
Definition without_adaptive (c : InlinePrewarmConfig) : InlinePrewarmConfig :=
  {| lookahead := lookahead c; inline_cpu_core := inline_cpu_core c; adaptive := None |}.

Inductive ConnectStrategy : Type :=
| Jit (m : JitMode)
| JitConfigured (c : JitConfig)
| Prewarm (c : PrewarmConfig)
| InlinePrewarm (c : InlinePrewarmConfig).

Definition strategy_default : ConnectStrategy := InlinePrewarm inline_default.
Definition jit_single : ConnectStrategy := Jit Single.
Definition jit_fanout (count : nat) : ConnectStrategy := Jit (Fanout count).
Definition adaptive_jit (m : JitMode) (a : AdaptivePrewarmConfig) : ConnectStrategy :=
  JitConfigured {| jit_mode := m; jit_adaptive := Some a |}.
Definition prewarm (n : nat) : ConnectStrategy :=
  Prewarm {| prewarm_lookahead := n; poll_interval_us := poll_interval_us prewarm_default;
             prewarm_cpu_core := prewarm_cpu_core prewarm_default |}.
Definition inline_prewarm (n : nat) : ConnectStrategy := InlinePrewarm (with_lookahead n).
Definition adaptive_inline_prewarm (n : nat) (a : AdaptivePrewarmConfig) : ConnectStrategy :=
  InlinePrewarm (with_adaptive a (with_lookahead n)).

(** ** QUIC configuration *)

Record Config : Type := {
  max_connections : Z; idle_timeout_ms : Z; connect_timeout_ms : Z; keepalive_interval_ms : Z;
  max_streams_uni : Z; max_retry_attempts : Z; first_attempt_timeout_ms : Z; retry_timeout_ms : Z;
  staked_identity : option string; config_cpu_core : option Z }.

Definition config_default : Config :=
  {| max_connections := 128; idle_timeout_ms := 60000; connect_timeout_ms := 300;
     keepalive_interval_ms := 500; max_streams_uni := 2048; max_retry_attempts := 3;
     first_attempt_timeout_ms := 1000; retry_timeout_ms := 500; staked_identity := None;
     config_cpu_core := None |}.
