(* ===== verification/Timing.v ===== *)
(** * Timing: handshake times and the adaptive lookahead

    [quic/src/timing_registry.rs] and the two functions of [endpoint.rs] that
    turn the recorded handshake times of a peer into the number of Solana slots
    by which a connection is started early.  The registry is a table of 16
    locked maps; the endpoint is its only user, so that an entry behind its
    [Arc] is updated in place.  The histograms are those of [Histogram], used by
    one thread. *)
From Stdlib Require Import SpecFloat.
From stdpp Require Import sorting.
From S2P Require Import Prelude Conc Net Strategy.
From S2P Require Histogram SessionCache.

(** Addresses as keys of a map. *)
#[export] Instance SocketAddr_countable : Countable SocketAddr.
Proof.
  refine (inj_countable'
    (fun a => match a with V4 o p => inl (o, p) | V6 o p => inr (o, p) end)
    (fun x => match x with inl (o, p) => V4 o p | inr (o, p) => V6 o p end) _).
  by intros [].
Defined.

(** ** Entries *)

Inductive TimingCategory : Type := Handshake | ZeroRtt | OneRtt.

Record ConnectionTimings : Type := {
  handshake_histogram : Histogram.Histogram; zero_rtt_histogram : Histogram.Histogram;
  one_rtt_histogram : Histogram.Histogram; first_seen_ns : Z; last_success_ns : Z; attempts : Z }.

Definition timings_new (now_ns : Z) : ConnectionTimings :=
  {| handshake_histogram := Histogram.new; zero_rtt_histogram := Histogram.new;
     one_rtt_histogram := Histogram.new; first_seen_ns := now_ns; last_success_ns := now_ns; attempts := 0 |}.

(** The histogram after a [record] without contention, where one round of its
    compare-exchange loops is enough. *)
Definition hist_record (time_ns : Z) (h : Histogram.Histogram) : Histogram.Histogram :=
  (run (Histogram.record 1 time_ns) h).1.2.

Definition timings_record (now_ns time_ns : Z) (c : TimingCategory) (t : ConnectionTimings) : ConnectionTimings :=
  let on b h := if b : bool then hist_record time_ns h else h in
  {| handshake_histogram := on (match c with Handshake => true | _ => false end) (handshake_histogram t);
     zero_rtt_histogram := on (match c with ZeroRtt => true | _ => false end) (zero_rtt_histogram t);
     one_rtt_histogram := on (match c with OneRtt => true | _ => false end) (one_rtt_histogram t);
     first_seen_ns := first_seen_ns t; last_success_ns := now_ns; attempts := wrapping_add64 (attempts t) 1 |}.

(** ** Registry *)

Definition SHARDS : nat := 16.

Abbreviation shard := (gmap SocketAddr ConnectionTimings).
Record TimingRegistry : Type := { shards : list shard }.

Definition registry_new : TimingRegistry := {| shards := replicate SHARDS ∅ |}.

Definition shard_index (a : SocketAddr) : nat :=
  let mix hash x := (Z.lxor hash x * 1099511628211) mod U64 in
  let hash := match a with
              | V4 octets port => mix (mix 2166136261 (SessionCache.from_be octets)) port
              | V6 octets port => mix (fold_left mix (SessionCache.segments octets) 2166136261) port
              end in
  Z.to_nat (hash mod Z.of_nat SHARDS).

(** The index is reduced modulo the number of shards: it is in range. *)
Definition get (a : SocketAddr) (r : TimingRegistry) : option ConnectionTimings :=
  match shards r !! shard_index a with Some m => m !! a | None => None end.

Definition set_entry (a : SocketAddr) (t : ConnectionTimings) (r : TimingRegistry) : TimingRegistry :=
  {| shards := alter (<[a := t]>) (shard_index a) (shards r) |}.

Definition get_or_create (now_ns : Z) (a : SocketAddr) (r : TimingRegistry) : ConnectionTimings * TimingRegistry :=
  match get a r with
  | Some t => (t, r)
  | None => let t := timings_new now_ns in (t, set_entry a t r)
  end.

(** [get_or_create(addr).record(time, category)] *)
Definition record_timing (now_ns : Z) (a : SocketAddr) (time_ns : Z) (c : TimingCategory) (r : TimingRegistry)
    : TimingRegistry :=
  let '(t, r) := get_or_create now_ns a r in set_entry a (timings_record now_ns time_ns c t) r.

Definition ip_count (r : TimingRegistry) : nat := sum_list (size <$> shards r).

(** One percentile of a histogram. *)
Definition hist_percentile (p : spec_float) (h : Histogram.Histogram) : fault + Z :=
  match (run (Histogram.percentiles [p]) h).2 with
  | inl f => inl f
  | inr (v :: _) => inr v
  | inr [] => inl (Panic "index out of bounds")
  end.

Definition bind_fault {A B} (x : fault + A) (k : A -> fault + B) : fault + B :=
  match x with inl f => inl f | inr a => k a end.

Fixpoint collect_p50s (l : list ConnectionTimings) : fault + list Z :=
  match l with
  | [] => inr []
  | t :: l =>
      bind_fault (hist_percentile (Histogram.f64_of_u64 50) (handshake_histogram t)) (fun v =>
      bind_fault (collect_p50s l) (fun vs => inr (if 0 <? v then v :: vs else vs)))
  end.

(** The values of a map come in an order of its own; sorting forgets it. *)
Definition global_median_handshake_ms (r : TimingRegistry) : fault + option Z :=
  bind_fault (collect_p50s (shards r ≫= (fun m => (map_to_list m).*2))) (fun all_p50s =>
  if decide (all_p50s = []) then inr None
  else
    match merge_sort Z.le all_p50s !! (length all_p50s / 2)%nat with
    | Some median_ns => inr (Some (median_ns / 1000000))
    | None => inl (Panic "index out of bounds")
    end).

(** ** Lookahead *)

Definition get_bootstrap_timing_ms (config : option AdaptivePrewarmConfig) (r : TimingRegistry) : fault + Z :=
  match config with
  | None => inr 2000
  | Some cfg =>
      if bootstrap_from_median cfg then
        bind_fault (global_median_handshake_ms r) (fun m =>
          inr (match m with Some median_ms => median_ms | None => default_handshake_ms cfg end))
      else inr (default_handshake_ms cfg)
  end.

(** The handshake time expected of a peer. *)
Definition expected_handshake_ms (cfg : AdaptivePrewarmConfig) (r : TimingRegistry) (a : SocketAddr) : fault + Z :=
  match get a r with
  | Some timing =>
      bind_fault (hist_percentile (timing_percentile cfg) (handshake_histogram timing)) (fun handshake_ns =>
      if handshake_ns =? 0 then
        bind_fault (hist_percentile (timing_percentile cfg) (zero_rtt_histogram timing)) (fun zero_rtt_ns =>
        if 0 <? zero_rtt_ns then inr (zero_rtt_ns / 1000000) else get_bootstrap_timing_ms (Some cfg) r)
      else inr (handshake_ns / 1000000))
  | None => get_bootstrap_timing_ms (Some cfg) r
  end.

(** [Ord::clamp] panics when the bounds are in the wrong order, and division by
    zero panics. *)
Definition clamp (x lo hi : Z) : fault + Z :=
  if hi <? lo then inl (Panic "assertion failed: min <= max") else inr (Z.min (Z.max x lo) hi).

Definition calculate_lookahead_solana_slots (config : option AdaptivePrewarmConfig) (r : TimingRegistry)
    (a : SocketAddr) : fault + Z :=
  match config with
  | None => inr 4
  | Some cfg =>
      bind_fault (expected_handshake_ms cfg r a) (fun handshake_ms =>
      if solana_slot_duration_ms cfg =? 0 then inl (Panic "attempt to divide by zero")
      else
        let solana_slots_needed :=
          ((handshake_ms + solana_slot_duration_ms cfg - 1) mod U64) / solana_slot_duration_ms cfg in
        clamp solana_slots_needed (min_solana_slots cfg) (max_solana_slots cfg))
  end.
