(* ===== verification/TimingSpec.v ===== *)
(** * TimingSpec: the registry is one map, the lookahead covers the handshake

    The shards together behave as one map from addresses to histograms of the
    recorded times; the lookahead stays within its bounds, is large enough for
    the expected handshake time and no larger than necessary; the expected time
    is the configured percentile of the times recorded for the peer. *)
From Stdlib Require Import SpecFloat.
From stdpp Require Import sorting.
From S2P Require Import Prelude Conc Net Strategy Timing.
From S2P Require Histogram.

Set Default Proof Using "Type".

(** ** Histograms never fault *)

Definition hist_ok (h : Histogram.Histogram) : Prop := length (Histogram.buckets h) = Histogram.NUM_BUCKETS.

Lemma run_collect_ok n : forall h i c,
  (i + n <= length (Histogram.buckets h))%nat ->
  exists t, run (Histogram.collect i n c) h = ([], h, inr t).
Proof.
  induction n as [|n IH]; intros h i c Hi; cbn [Histogram.collect]; [by eexists|].
  destruct (lookup_lt_is_Some_2 (Histogram.buckets h) i) as [v Hv]; [lia|].
  rewrite run_bind. cbn [run]. rewrite Hv. cbn [run app]. rewrite run_bind.
  destruct (IH h (S i) (wrapping_add64 c v)) as [t Ht]; [lia|]. rewrite Ht. by eexists.
Qed.

Lemma hist_percentile_ok p h : hist_ok h -> exists v, hist_percentile p h = inr v.
Proof.
  intros Hh. unfold hist_percentile, Histogram.percentiles. rewrite run_bind. cbn [load run].
  destruct (Histogram.count h =? 0); [by eexists|]. rewrite run_bind.
  destruct (run_collect_ok Histogram.NUM_BUCKETS h 0 0) as [t ->]; [by rewrite Hh|]. by eexists.
Qed.

Lemma hist_record_ok v h : hist_ok h -> hist_ok (hist_record v h).
Proof.
  intros Hh. unfold hist_record, Histogram.record. destruct (v =? 0); [done|].
  cbn [store bind run app]. rewrite run_bind. unfold Histogram.update_min. cbn [load bind run].
  rewrite Histogram.run_min_loop. cbn [app]. rewrite run_bind. unfold Histogram.update_max. cbn [load bind run].
  rewrite Histogram.run_max_loop. cbn. unfold hist_ok in *. cbn. by rewrite length_alter.
Qed.

Definition timings_ok (t : ConnectionTimings) : Prop :=
  hist_ok (handshake_histogram t) /\ hist_ok (zero_rtt_histogram t) /\ hist_ok (one_rtt_histogram t).

Record registry_ok (r : TimingRegistry) : Prop := {
  ro_shards : length (shards r) = SHARDS;
  ro_entries : forall m a t, m ∈ shards r -> m !! a = Some t -> timings_ok t;
}.

Lemma timings_new_ok now : timings_ok (timings_new now).
Proof. done. Qed.

Lemma timings_record_ok now v c t : timings_ok t -> timings_ok (timings_record now v c t).
Proof. intros (H1 & H2 & H3). destruct c; (split; [|split]); simpl; try done; by apply hist_record_ok. Qed.

Lemma shard_index_lt a : (shard_index a < SHARDS)%nat.
Proof.
  unfold shard_index. set (h := match a with V4 _ _ => _ | V6 _ _ => _ end).
  pose proof (Z.mod_pos_bound h (Z.of_nat SHARDS)). unfold SHARDS in *. lia.
Qed.

Lemma registry_new_ok : registry_ok registry_new.
Proof.
  split; [done|]. intros m a t Hm. apply elem_of_replicate in Hm as [-> _]. by rewrite lookup_empty.
Qed.

(** ** One map *)

Lemma get_set_entry a t r b :
  length (shards r) = SHARDS -> get b (set_entry a t r) = if decide (b = a) then Some t else get b r.
Proof.
  intros Hl. unfold get, set_entry. simpl.
  destruct (decide (shard_index b = shard_index a)) as [Hs|Hne].
  - rewrite Hs, list_lookup_alter_eq.
    destruct (lookup_lt_is_Some_2 (shards r) (shard_index a)) as [m ->]; [rewrite Hl; apply shard_index_lt|].
    simpl. destruct (decide (b = a)) as [->|Hb]; [by rewrite lookup_insert_eq|by rewrite lookup_insert_ne].
  - rewrite list_lookup_alter_ne by done. by rewrite decide_False by congruence.
Qed.

Lemma set_entry_ok a t r : registry_ok r -> timings_ok t -> registry_ok (set_entry a t r).
Proof.
  intros [Hl He] Ht. split; simpl; [by rewrite length_alter|].
  intros m b t' Hm Hb. apply list_elem_of_lookup in Hm as [i Hi].
  destruct (decide (i = shard_index a)) as [->|Hne].
  - rewrite list_lookup_alter_eq in Hi. destruct (shards r !! shard_index a) as [m0|] eqn:Hm0; [|done].
    injection Hi as <-. apply lookup_insert_Some in Hb as [[_ <-]|[_ Hb]]; [done|].
    eapply He; [|exact Hb]. by eapply list_elem_of_lookup_2.
  - rewrite list_lookup_alter_ne in Hi by done. eapply He; [|exact Hb]. by eapply list_elem_of_lookup_2.
Qed.

Lemma get_entry_ok a r t : registry_ok r -> get a r = Some t -> timings_ok t.
Proof.
  intros [Hl He]. unfold get. destruct (shards r !! shard_index a) as [m|] eqn:Hm; [|done].
  intros Ha. eapply He; [|exact Ha]. by eapply list_elem_of_lookup_2.
Qed.

(** What the entry of [a] is taken to be before it exists. *)
Definition entry (now : Z) (a : SocketAddr) (r : TimingRegistry) : ConnectionTimings :=
  default (timings_new now) (get a r).

Lemma record_timing_get now a v c r b :
  length (shards r) = SHARDS ->
  get b (record_timing now a v c r)
  = if decide (b = a) then Some (timings_record now v c (entry now a r)) else get b r.
Proof.
  intros Hl. unfold record_timing, get_or_create, entry.
  destruct (get a r) as [t|] eqn:Hg; simpl.
  - by rewrite get_set_entry.
  - rewrite get_set_entry by (simpl; by rewrite length_alter).
    case_decide; [done|]. by rewrite get_set_entry, decide_False.
Qed.

Lemma record_timing_ok now a v c r : registry_ok r -> registry_ok (record_timing now a v c r).
Proof.
  intros Hr. unfold record_timing, get_or_create. destruct (get a r) as [t|] eqn:Hg.
  - apply set_entry_ok; [done|]. apply timings_record_ok. by eapply get_entry_ok.
  - apply set_entry_ok; [|apply timings_record_ok, timings_new_ok].
    apply set_entry_ok; [done|apply timings_new_ok].
Qed.

(** ** The recorded times of a peer *)

(** A log of measurements (time, peer, duration, category), oldest first. *)
Abbreviation measurement := (Z * SocketAddr * Z * TimingCategory)%type.

Definition replay (log : list measurement) : TimingRegistry :=
  fold_left (fun r '(now, a, v, c) => record_timing now a v c r) log registry_new.

(** The handshake times of [a] in a log. *)
Definition handshakes (a : SocketAddr) (log : list measurement) : list Z :=
  omap (fun '(_, b, v, c) =>
    match c with Handshake => if decide (b = a) then Some v else None | _ => None end) log.

Lemma replay_ok log : registry_ok (replay log).
Proof.
  unfold replay. pose proof registry_new_ok as Hr. revert Hr. generalize registry_new.
  induction log as [|[[[now a] v] c] log IH]; intros r Hr; [done|]. by apply IH, record_timing_ok.
Qed.

Lemma replay_snoc log now a v c : replay (log ++ [(now, a, v, c)]) = record_timing now a v c (replay log).
Proof. unfold replay. by rewrite fold_left_app. Qed.

Lemma handshakes_snoc a log m : handshakes a (log ++ [m]) = handshakes a log ++ handshakes a [m].
Proof. apply omap_app. Qed.

Lemma get_new a : get a registry_new = None.
Proof.
  unfold get, registry_new. cbn [shards]. rewrite lookup_replicate_2 by apply shard_index_lt. apply lookup_empty.
Qed.

Lemma handshakes_length a log : (length (handshakes a log) <= length log)%nat.
Proof.
  unfold handshakes. induction log as [|[[[t b] v] c] log IH]; [done|]. cbn.
  destruct c; [case_decide; cbn|..]; lia.
Qed.

(** The handshake histogram of a peer is that of its measurements. *)
Lemma replay_histogram log a :
  Forall (fun m => Histogram.sample_ok m.1.2) log -> Z.of_nat (length log) < U64 ->
  forall now, handshake_histogram (entry now a (replay log)) = Histogram.hist_of (rev (handshakes a log)).
Proof.
  intros Hs Hb now. induction log as [|[[[t b] v] c] log IH] using rev_ind.
  { unfold entry. cbn. by rewrite get_new. }
  apply Forall_app in Hs as [Hs Hm]. apply Forall_cons in Hm as [Hv _]. rewrite length_app in Hb. simpl in Hb, Hv.
  specialize (IH Hs ltac:(lia)). unfold entry in *.
  rewrite replay_snoc, record_timing_get by apply replay_ok.
  rewrite handshakes_snoc, rev_app_distr. cbn.
  case_decide as Hab.
  - subst b. cbn. unfold entry. destruct c; cbn; rewrite ?decide_True by done; cbn.
    + assert (Hh : handshake_histogram (default (timings_new t) (get a (replay log)))
                   = Histogram.hist_of (rev (handshakes a log))).
      { destruct (get a (replay log)); [exact IH|]. exact IH. }
      rewrite Hh. unfold hist_record. rewrite Histogram.run_record; [done|done|].
      rewrite length_rev. pose proof (handshakes_length a log). lia.
    + by destruct (get a (replay log)).
    + by destruct (get a (replay log)).
  - rewrite IH. destruct c; cbn; rewrite ?decide_False by congruence; done.
Qed.

(** ** The lookahead *)

Lemma collect_p50s_ok l : Forall timings_ok l -> exists vs, collect_p50s l = inr vs.
Proof.
  induction 1 as [|t l Ht _ [vs IH]]; cbn [collect_p50s]; [by eexists|].
  destruct (hist_percentile_ok (Histogram.f64_of_u64 50) (handshake_histogram t)) as [v ->]; [apply Ht|].
  rewrite IH. by eexists.
Qed.

Lemma global_median_ok r : registry_ok r -> exists m, global_median_handshake_ms r = inr m.
Proof.
  intros [Hl He]. unfold global_median_handshake_ms.
  destruct (collect_p50s_ok (shards r ≫= (fun m => (map_to_list m).*2))) as [vs ->].
  { apply Forall_forall. intros t (m & Ht & Hm)%list_elem_of_bind.
    apply list_elem_of_fmap in Ht as ([a t'] & -> & Hin). apply elem_of_map_to_list in Hin. by eapply He. }
  cbn [bind_fault]. destruct (decide (vs = [])) as [->|Hne]; [by eexists|].
  destruct (lookup_lt_is_Some_2 (merge_sort Z.le vs) (length vs / 2)) as [v ->]; [|by eexists].
  rewrite merge_sort_Permutation. apply Nat.div_lt; [|lia]. destruct vs; [done|simpl; lia].
Qed.

Lemma expected_handshake_ok cfg r a : registry_ok r -> exists ms, expected_handshake_ms cfg r a = inr ms.
Proof.
  intros Hr. assert (Hboot : exists ms, get_bootstrap_timing_ms (Some cfg) r = inr ms).
  { unfold get_bootstrap_timing_ms. destruct (bootstrap_from_median cfg); [|by eexists].
    destruct (global_median_ok r Hr) as [m ->]. by eexists. }
  unfold expected_handshake_ms. destruct (get a r) as [t|] eqn:Hg; [|done].
  destruct (get_entry_ok _ _ _ Hr Hg) as (H1 & H2 & _).
  destruct (hist_percentile_ok (timing_percentile cfg) _ H1) as [v ->]. cbn [bind_fault].
  destruct (v =? 0); [|by eexists].
  destruct (hist_percentile_ok (timing_percentile cfg) _ H2) as [w ->]. cbn [bind_fault].
  destruct (0 <? w); [by eexists|done].
Qed.

Lemma clamp_ok x lo hi : lo <= hi -> exists n, clamp x lo hi = inr n /\ lo <= n <= hi.
Proof. intros Hle. unfold clamp. destruct (Z.ltb_spec hi lo); [lia|]. eexists. split; [done|]. lia. Qed.

(** The arithmetic of the lookahead: the least number of slots that is enough,
    kept within the bounds. *)
Lemma slots_needed ms d lo hi :
  0 <= ms -> 0 < d -> ms + d <= U64 -> lo <= hi ->
  exists n, clamp (((ms + d - 1) mod U64) / d) lo hi = inr n /\ lo <= n <= hi /\
    (ms <= hi * d -> ms <= n * d) /\ (lo < n -> (n - 1) * d < ms).
Proof.
  intros Hms Hd Hb Hle. rewrite Z.mod_small by lia.
  set (q := (ms + d - 1) / d). assert (Hq : q * d <= ms + d - 1 < q * d + d).
  { pose proof (Z.div_mod (ms + d - 1) d). pose proof (Z.mod_pos_bound (ms + d - 1) d). unfold q. nia. }
  unfold clamp. destruct (Z.ltb_spec hi lo); [lia|]. eexists. split; [reflexivity|].
  split; [lia|]. split; intros; nia.
Qed.

(** The configurations the calculation is made for. *)
Definition config_sane (cfg : AdaptivePrewarmConfig) : Prop :=
  0 < solana_slot_duration_ms cfg /\ min_solana_slots cfg <= max_solana_slots cfg.

Lemma adaptive_default_sane : config_sane adaptive_default.
Proof. by split; vm_compute. Qed.

Lemma lookahead_ok cfg r a :
  registry_ok r -> (forall c, cfg = Some c -> config_sane c) ->
  exists n, calculate_lookahead_solana_slots cfg r a = inr n.
Proof.
  intros Hr Hc. destruct cfg as [cfg|]; [|by eexists]. destruct (Hc cfg eq_refl) as [Hd Hle].
  unfold calculate_lookahead_solana_slots. destruct (expected_handshake_ok cfg r a Hr) as [ms ->]. cbn [bind_fault].
  destruct (Z.eqb_spec (solana_slot_duration_ms cfg) 0) as [|_]; [lia|].
  destruct (clamp_ok ((ms + solana_slot_duration_ms cfg - 1) mod U64 / solana_slot_duration_ms cfg) _ _ Hle) as (n & Hn & _). eauto.
Qed.

(** C17. The adaptive lookahead is bounded, sufficient and no larger than it has
    to be, and panics only for configurations that make no sense.  In every registry
    the measurements can produce: with a slot duration of 0 it panics on the division,
    with a lower bound above the upper one, as of [with_min_slots(21)], in [clamp];
    with any other configuration it does not panic and the answer lies within the
    bounds.  If moreover expected handshake time and slot duration add up to a 64-bit
    number, the answer spans the expected handshake time whenever the upper bound
    does, and above the lower bound one slot less would not span it. *)
Theorem lookahead_bounds cfg r a :
  registry_ok r -> 0 <= solana_slot_duration_ms cfg ->
  let d := solana_slot_duration_ms cfg in
  let lo := min_solana_slots cfg in
  let hi := max_solana_slots cfg in
  let result := calculate_lookahead_solana_slots (Some cfg) r a in
  (d = 0 -> result = inl (Panic "attempt to divide by zero")) /\
  (0 < d -> hi < lo -> result = inl (Panic "assertion failed: min <= max")) /\
  (0 < d -> lo <= hi -> exists ms n,
     expected_handshake_ms cfg r a = inr ms /\ result = inr n /\ lo <= n <= hi /\
     (0 <= ms -> ms + d <= U64 -> (ms <= hi * d -> ms <= n * d) /\ (lo < n -> (n - 1) * d < ms))).
Proof.
  intros Hr Hd0 d lo hi result. destruct (expected_handshake_ok cfg r a Hr) as [ms He].
  unfold result, calculate_lookahead_solana_slots. rewrite He. cbn [bind_fault].
  fold d lo hi. split; [by intros ->|]. split.
  - intros Hd Hlt. destruct (Z.eqb_spec d 0); [lia|]. unfold clamp. by destruct (Z.ltb_spec hi lo); [|lia].
  - intros Hd Hle. exists ms. destruct (Z.eqb_spec d 0) as [|_]; [lia|].
    destruct (clamp_ok ((ms + d - 1) mod U64 / d) lo hi Hle) as (n & Hn & Hin). exists n.
    split; [done|]. split; [done|]. split; [done|]. intros H0 Hb.
    destruct (slots_needed ms d lo hi H0 Hd Hb Hle) as (n' & Hn' & _ & Hs). rewrite Hn in Hn'. injection Hn' as <-. exact Hs.
Qed.

Definition validator : SocketAddr := V4 [10; 0; 0; 1] 8009.

Definition demo_log : list measurement :=
  [(1, validator, 900000000, Handshake); (2, V4 [10; 0; 0; 2] 8009, 5000, OneRtt);
   (3, validator, 2500000000, Handshake); (4, validator, 3000000000, Handshake)].

Lemma lookahead_bounds_witness :
  (exists n, calculate_lookahead_solana_slots (Some adaptive_default) (replay demo_log) validator = inr n /\
     4 <= n <= 20 /\ 2147 <= n * 400) /\
  calculate_lookahead_solana_slots (Some (with_min_slots 21)) registry_new validator
  = inl (Panic "assertion failed: min <= max").
Proof.
  split.
  - destruct (lookahead_bounds adaptive_default (replay demo_log) validator (replay_ok demo_log) ltac:(vm_compute; discriminate))
      as (_ & _ & H).
    destruct (H eq_refl ltac:(vm_compute; discriminate)) as (ms & n & Hms & Hn & Hb & Hs).
    vm_compute in Hms. injection Hms as <-. exists n. split; [exact Hn|]. split; [exact Hb|].
    apply Hs; vm_compute; discriminate.
  - apply (lookahead_bounds (with_min_slots 21) registry_new validator registry_new_ok); vm_compute; (done || discriminate).
Defined.

(** The expected handshake time of a peer is the configured percentile of the
    handshakes measured with that peer, whatever was measured with others and in
    the other categories: it is read from the histogram of exactly those times,
    the sample of the percentile's rank is at most about twice as long, and an
    address without measurements gets none of another's. *)
Theorem expected_time_is_percentile cfg log a :
  Forall (fun m => Histogram.sample_ok m.1.2) log -> Z.of_nat (length log) < U64 ->
  let times := handshakes a log in
  let rank := Histogram.target_rank (Z.of_nat (length times)) (timing_percentile cfg) in
  (Histogram.rank_value times rank <> 0 ->
   expected_handshake_ms cfg (replay log) a = inr (Histogram.rank_value times rank / 1000000)) /\
  (forall v, merge_sort Z.le times !! Z.to_nat (rank - 1) = Some v ->
     Histogram.rank_value times rank <= v <= 2 * Histogram.rank_value times rank + 1) /\
  (Forall (fun m => m.1.1.2 <> a) log -> get a (replay log) = None).
Proof.
  intros Hs Hb times rank. split; [|split].
  - intros Hr. unfold expected_handshake_ms. pose proof (replay_histogram log a Hs Hb 0) as Hh.
    unfold entry in Hh. fold times in Hh.
    destruct (get a (replay log)) as [t|] eqn:Hg; simpl in Hh.
    + rewrite Hh. unfold hist_percentile.
      assert (Hlen : (length times <= length log)%nat) by apply handshakes_length.
      rewrite (Histogram.run_percentiles (rev times) times) by (rewrite ?length_rev; try lia; symmetry; apply Permutation_rev).
      cbn. fold rank. destruct (Z.eqb_spec (Histogram.rank_value times rank) 0); [done|]. done.
    + exfalso. apply Hr. assert (times = []) as ->; [|done].
      apply (f_equal Histogram.count) in Hh. cbn in Hh. rewrite length_rev in Hh. by destruct times.
  - intros v Hv. unfold Histogram.rank_value. rewrite Hv. apply Histogram.bucket_bound.
    assert (Ht : Forall Histogram.sample_ok (merge_sort Z.le times)).
    { rewrite merge_sort_Permutation. apply Forall_forall. intros x Hx.
      apply list_elem_of_omap in Hx as ([[[t b] v'] c] & Hin & He). rewrite Forall_forall in Hs.
      apply Hs in Hin. destruct c; [case_decide|..]; by simplify_eq. }
    by eapply Forall_lookup_1 in Ht.
  - clear. induction log as [|[[[t b] v] c] log IH] using rev_ind; intros Hn; [apply get_new|].
    apply Forall_app in Hn as [Hn Hm]. apply Forall_cons in Hm as [Hm _]. simpl in Hm.
    rewrite replay_snoc, record_timing_get, decide_False by (done || apply replay_ok). by apply IH.
Qed.

Lemma expected_time_is_percentile_witness :
  expected_handshake_ms adaptive_default (replay demo_log) validator = inr 2147.
Proof.
  destruct (expected_time_is_percentile adaptive_default demo_log validator) as (He & _).
  - repeat constructor; vm_compute; done.
  - reflexivity.
  - apply He. vm_compute. discriminate.
Defined.
