(* ===== verification/Quic.v ===== *)
(** * Quic: errors, the QUIC library and a connection

    [quic/src/error.rs] and the [QuicConnection] wrapper of
    [quic/src/connection.rs].  quiche and the UDP socket are parameters: the
    classes [quiche_api] and [udp_api] list the calls the program makes, as
    functions of the state of a connection and of the socket.  [M] is the monad
    the endpoint is written in: state, [Err] values that the caller may handle,
    and faults (panics) that nobody can. *)
From S2P Require Import Prelude Conc Net.
From S2P Require Pool TxQueue.

(** ** Errors *)

(** [quiche::Error]: [Done], or another error by its code. *)
Inductive quiche_error : Type := Done | Other (code : Z).

Module Error.
Inductive t : Type :=
| Io | Quic (e : quiche_error) | Tls | NotEstablished | Closed | Timeout | PoolFull | NotFound
| Dead (retries : Z) | InvalidKeypair | BufferExhausted | WouldBlock.
End Error.

(** ** The QUIC library and the socket *)

(** [q_pending] is a bound on the packets a connection has to send before
    [q_send] answers [Done]. *)
Class quiche_api (Q : Type) : Type := {
  q_connect : list Z -> SocketAddr -> Result Q quiche_error;
  q_set_session : list Z -> Q -> Result unit quiche_error * Q;
  q_session : Q -> option (list Z);
  q_is_established : Q -> bool;
  q_is_handshake_confirmed : Q -> bool;
  q_is_in_early_data : Q -> bool;
  q_is_closed : Q -> bool;
  q_peer_error : Q -> option Z;
  q_stream_send : Z -> list Z -> Q -> Result nat quiche_error * Q;
  q_send : Q -> Result (list Z * SocketAddr) quiche_error * Q;
  q_recv : list Z -> SocketAddr -> Q -> Result nat quiche_error * Q;
  q_on_timeout : Q -> Q;
  q_pending : Q -> nat;
}.

(** Sending packets comes to an end. *)
Class quiche_ok (Q : Type) `{quiche_api Q} : Prop := {
  q_send_progress q p q' : q_send q = (Ok p, q') -> (q_pending q' < q_pending q)%nat;
}.

Class udp_api (N : Type) : Type := {
  send_to : list Z -> SocketAddr -> N -> Result unit unit * N;
}.

(** ** A connection *)

Section connection.
Context {Q : Type} `{!quiche_api Q}.

Record QuicConnection : Type := {
  inner : Q; conn_state_word : Z; conn_retry_count : Z; conn_last_activity_ns : Z;
  local_stream_uni_next : Z; tx_queue : TxQueue.TransactionQueue }.

Definition with_inner (q : Q) (c : QuicConnection) : QuicConnection :=
  {| inner := q; conn_state_word := conn_state_word c; conn_retry_count := conn_retry_count c;
     conn_last_activity_ns := conn_last_activity_ns c; local_stream_uni_next := local_stream_uni_next c;
     tx_queue := tx_queue c |}.
Definition with_queue (q : TxQueue.TransactionQueue) (c : QuicConnection) : QuicConnection :=
  {| inner := inner c; conn_state_word := conn_state_word c; conn_retry_count := conn_retry_count c;
     conn_last_activity_ns := conn_last_activity_ns c; local_stream_uni_next := local_stream_uni_next c;
     tx_queue := q |}.

Definition connection_new (now_ns : Z) (conn : Q) : QuicConnection :=
  {| inner := conn;
     conn_state_word := Pool.as_usize_state (if q_is_established conn then Pool.Ready else Pool.Connecting);
     conn_retry_count := 0; conn_last_activity_ns := now_ns; local_stream_uni_next := 2;
     tx_queue := TxQueue.new TxQueue.DEFAULT_TX_QUEUE_CAPACITY |}.

Definition conn_state (c : QuicConnection) : Pool.ConnectionState := Pool.from_usize (conn_state_word c).

Definition conn_set_state (st : Pool.ConnectionState) (c : QuicConnection) : QuicConnection :=
  {| inner := inner c; conn_state_word := Pool.as_usize_state st; conn_retry_count := conn_retry_count c;
     conn_last_activity_ns := conn_last_activity_ns c; local_stream_uni_next := local_stream_uni_next c;
     tx_queue := tx_queue c |}.

(** The new count, and the connection. *)
Definition conn_increment_retry (c : QuicConnection) : Z * QuicConnection :=
  let n := wrapping_add64 (conn_retry_count c) 1 in
  (n, {| inner := inner c; conn_state_word := conn_state_word c; conn_retry_count := n;
         conn_last_activity_ns := conn_last_activity_ns c; local_stream_uni_next := local_stream_uni_next c;
         tx_queue := tx_queue c |}).
Definition conn_reset_retry (c : QuicConnection) : QuicConnection :=
  {| inner := inner c; conn_state_word := conn_state_word c; conn_retry_count := 0;
     conn_last_activity_ns := conn_last_activity_ns c; local_stream_uni_next := local_stream_uni_next c;
     tx_queue := tx_queue c |}.
Definition conn_touch (now_ns : Z) (c : QuicConnection) : QuicConnection :=
  {| inner := inner c; conn_state_word := conn_state_word c; conn_retry_count := conn_retry_count c;
     conn_last_activity_ns := now_ns; local_stream_uni_next := local_stream_uni_next c;
     tx_queue := tx_queue c |}.
Definition conn_on_timeout (c : QuicConnection) : QuicConnection := with_inner (q_on_timeout (inner c)) c.

(** A new unidirectional stream with the whole of [data]; the stream id moves on
    only after a success, which quiche also reports for a part of the data. *)
Definition send_uni (now_ns : Z) (data : list Z) (c : QuicConnection) : Result unit Error.t * QuicConnection :=
  if q_is_closed (inner c) then (Err Error.Closed, c)
  else if negb (q_is_established (inner c)) && negb (q_is_in_early_data (inner c)) then
    (Err Error.NotEstablished, c)
  else
    match q_stream_send (local_stream_uni_next c) data (inner c) with
    | (Ok _, q) =>
        (Ok tt, {| inner := q; conn_state_word := conn_state_word c; conn_retry_count := conn_retry_count c;
                   conn_last_activity_ns := now_ns;
                   local_stream_uni_next := wrapping_add64 (local_stream_uni_next c) 4;
                   tx_queue := tx_queue c |})
    | (Err Done, q) => (Err Error.WouldBlock, with_inner q c)
    | (Err (Other e), q) => (Err (Error.Quic (Other e)), with_inner q c)
    end.

Definition conn_send (c : QuicConnection) : Result (list Z * SocketAddr) Error.t * QuicConnection :=
  match q_send (inner c) with
  | (Ok p, q) => (Ok p, with_inner q c)
  | (Err Done, q) => (Err Error.WouldBlock, with_inner q c)
  | (Err (Other e), q) => (Err (Error.Quic (Other e)), with_inner q c)
  end.

Definition conn_recv (now_ns : Z) (buf : list Z) (from : SocketAddr) (c : QuicConnection)
    : Result nat Error.t * QuicConnection :=
  match q_recv buf from (inner c) with
  | (Ok len, q) =>
      (Ok len, {| inner := q; conn_state_word := conn_state_word c; conn_retry_count := conn_retry_count c;
                  conn_last_activity_ns := now_ns; local_stream_uni_next := local_stream_uni_next c;
                  tx_queue := tx_queue c |})
  | (Err Done, q) => (Err Error.WouldBlock, with_inner q c)
  | (Err (Other e), q) => (Err (Error.Quic (Other e)), with_inner q c)
  end.

End connection.
Arguments QuicConnection : clear implicits.

(** ** The monad of the endpoint *)

Definition M (S A : Type) : Type := S -> (fault + Result A Error.t) * S.

Section monad.
Context {S : Type}.

#[export] Instance M_ret : MRet (M S) := fun A a s => (inr (Ok a), s).
#[export] Instance M_bind : MBind (M S) := fun A B k m s =>
  match m s with
  | (inr (Ok a), s) => k a s
  | (inr (Err e), s) => (inr (Err e), s)
  | (inl f, s) => (inl f, s)
  end.

Definition fail {A} (e : Error.t) : M S A := fun s => (inr (Err e), s).
Definition panic {A} (f : fault) : M S A := fun s => (inl f, s).
Definition gets {A} (f : S -> A) : M S A := fun s => (inr (Ok (f s)), s).
Definition modify (f : S -> S) : M S unit := fun s => (inr (Ok tt), f s).

(** The [Result] of a call as a value: [match call { ... }] and [let _ = call]. *)
Definition attempt {A} (m : M S A) : M S (Result A Error.t) := fun s =>
  match m s with
  | (inr r, s) => (inr (Ok r), s)
  | (inl f, s) => (inl f, s)
  end.

(** [option.ok_or(e)?] *)
Definition ok_or {A} (o : option A) (e : Error.t) : M S A :=
  match o with Some a => mret a | None => fail e end.

Definition when (b : bool) (m : M S unit) : M S unit := if b then m else mret tt.

(** An operation of a component that is part of the state. *)
Definition exec {T E A} (get : S -> T) (put : T -> S -> S) (p : prog T E A) : M S A := fun s =>
  let '(_, t, r) := run p (get s) in
  (match r with inl f => inl f | inr a => inr (Ok a) end, put t s).

Definition lift_fault {A} (x : S -> fault + A) : M S A := fun s =>
  match x s with inl f => (inl f, s) | inr a => (inr (Ok a), s) end.

Fixpoint for_each {A} (l : list A) (f : A -> M S unit) : M S unit :=
  match l with
  | [] => mret tt
  | x :: l => f x ≫= fun _ => for_each l f
  end.

(** *** Reasoning *)

(** No fault, and [Q] of the result and the new state. *)
Definition safe {A} (m : M S A) (s : S) (Q : Result A Error.t -> S -> Prop) : Prop :=
  match m s with (inr r, s') => Q r s' | (inl _, _) => False end.

Lemma safe_ret {A} (a : A) s (Q : Result A Error.t -> S -> Prop) : Q (Ok a) s -> safe (mret a) s Q.
Proof. done. Qed.

Lemma safe_bind {A B} (m : M S A) (k : A -> M S B) s (Q : Result B Error.t -> S -> Prop) :
  safe m s (fun r s' => match r with Ok a => safe (k a) s' Q | Err e => Q (Err e) s' end) ->
  safe (m ≫= k) s Q.
Proof. unfold safe, mbind, M_bind. by destruct (m s) as [[|[]] s']. Qed.

Lemma safe_mono {A} (m : M S A) s (Q Q' : Result A Error.t -> S -> Prop) :
  safe m s Q -> (forall r s', Q r s' -> Q' r s') -> safe m s Q'.
Proof. unfold safe. destruct (m s) as [[|] s']; [done|]. auto. Qed.

Lemma safe_attempt {A} (m : M S A) s (Q : Result (Result A Error.t) Error.t -> S -> Prop) :
  safe m s (fun r s' => Q (Ok r) s') -> safe (attempt m) s Q.
Proof. unfold safe, attempt. by destruct (m s) as [[|] s']. Qed.

Lemma safe_when (b : bool) (m : M S unit) s Q :
  (b = true -> safe m s Q) -> (b = false -> Q (Ok tt) s) -> safe (when b m) s Q.
Proof. destruct b; intros H1 H2; [by apply H1|by apply safe_ret, H2]. Qed.

Lemma safe_for_each {A} (I : S -> Prop) (l : list A) (f : A -> M S unit) s :
  I s -> (forall x s, x ∈ l -> I s -> safe (f x) s (fun _ s' => I s')) ->
  safe (for_each l f) s (fun _ s' => I s').
Proof.
  revert s. induction l as [|x l IH]; intros s Hs Hf; [done|]. cbn [for_each]. apply safe_bind.
  eapply safe_mono; [apply Hf; [left|done]|]. simpl. intros [] s' Hs'; [|done].
  apply IH; [done|]. intros y t Hy. apply Hf. by right.
Qed.

Lemma safe_inv {A} (m : M S A) s (Q : Result A Error.t -> S -> Prop) :
  safe m s Q -> exists r s', m s = (inr r, s') /\ Q r s'.
Proof. unfold safe. destruct (m s) as [[|r] s']; [done|]. eauto. Qed.

(** [m] keeps [I] true, whatever its result. *)
Definition preserves {A} (I : S -> Prop) (m : M S A) : Prop := forall s, I s -> I (m s).2.

Lemma preserves_same {A} I (m : M S A) : (forall s, (m s).2 = s) -> preserves I m.
Proof. intros Hm s Hs. by rewrite Hm. Qed.

Lemma preserves_ok_or {A} I (o : option A) x : preserves I (ok_or o x).
Proof. apply preserves_same. by destruct o. Qed.

Lemma preserves_bind {A B} I (m : M S A) (k : A -> M S B) :
  preserves I m -> (forall a, preserves I (k a)) -> preserves I (m ≫= k).
Proof.
  intros Hm Hk s Hs. specialize (Hm s Hs). unfold mbind, M_bind.
  destruct (m s) as [[|[a|]] s1]; [done| |done]. by apply Hk.
Qed.

Lemma preserves_attempt {A} I (m : M S A) : preserves I m -> preserves I (attempt m).
Proof. intros Hm s Hs. specialize (Hm s Hs). unfold attempt. by destruct (m s) as [[] s1]. Qed.

Lemma preserves_when I b (m : M S unit) : preserves I m -> preserves I (when b m).
Proof. intros Hm. destruct b; [done|by apply preserves_same]. Qed.

Lemma preserves_for_each {A} I (l : list A) (f : A -> M S unit) :
  (forall x, x ∈ l -> preserves I (f x)) -> preserves I (for_each l f).
Proof.
  intros Hf. induction l as [|x l IH]; [by apply preserves_same|]. cbn [for_each].
  apply preserves_bind; [apply Hf; left|]. intros _. apply IH. intros y Hy. apply Hf. by right.
Qed.

Lemma preserves_modify I (f : S -> S) : (forall s, I s -> I (f s)) -> preserves I (modify f).
Proof. done. Qed.

Lemma safe_preserves {A} I (m : M S A) s (Q : Result A Error.t -> S -> Prop) :
  preserves I m -> I s -> safe m s Q -> safe m s (fun r s' => Q r s' /\ I s').
Proof. intros Hm Hs. specialize (Hm s Hs). unfold safe. by destruct (m s) as [[] s1]. Qed.

(** A loop that does something for one of its elements, and leaves it alone at
    the others. *)
Lemma safe_for_each_one {A} (I P R : S -> Prop) (l : list A) (f : A -> M S unit) x s :
  NoDup l -> x ∈ l -> I s -> P s ->
  (forall y s, y ∈ l -> y <> x -> I s -> safe (f y) s (fun r s' => r = Ok tt /\ I s')) ->
  (forall y, y <> x -> preserves P (f y) /\ preserves R (f y)) ->
  (forall s, I s -> P s -> safe (f x) s (fun r s' => r = Ok tt /\ I s' /\ R s')) ->
  safe (for_each l f) s (fun r s' => r = Ok tt /\ I s' /\ R s').
Proof.
  intros Hl Hx Hs HP Hne Hpr Heq. apply list_elem_of_split in Hx as (l1 & l2 & ->).
  apply NoDup_app in Hl as (_ & Hdis & [Hx2 _]%NoDup_cons).
  assert (Hx1 : x ∉ l1) by (intros H; apply (Hdis x H); left).
  assert (Hall : Forall (fun y => y <> x -> forall s, I s -> safe (f y) s (fun r s' => r = Ok tt /\ I s')) (l1 ++ x :: l2)).
  { apply Forall_forall. intros y Hy Hyx t. by apply Hne. }
  apply Forall_app in Hall as [H1 [_ H2]%Forall_cons]. clear Hne Hdis.
  assert (Htail : forall s, I s -> R s -> safe (for_each l2 f) s (fun r s' => r = Ok tt /\ I s' /\ R s')).
  { clear -H2 Hpr Hx2. induction H2 as [|y l2 Hy _ IH]; intros s Hs HR; [done|].
    apply not_elem_of_cons in Hx2 as [Hyx Hx2]. cbn [for_each]. apply safe_bind.
    eapply safe_mono; [apply (safe_preserves R); [by apply Hpr|done|by apply Hy]|].
    intros r s' [[-> Hs'] HR']. by apply IH. }
  revert s Hs HP. clear H2 Hx2. induction H1 as [|y l1 Hy _ IH]; intros s Hs HP; cbn [app for_each]; apply safe_bind.
  - eapply safe_mono; [by apply Heq|]. intros r s' (-> & Hs' & HR). by apply Htail.
  - apply not_elem_of_cons in Hx1 as [Hyx Hx1].
    eapply safe_mono; [apply (safe_preserves P); [by apply Hpr|done|by apply Hy]|].
    intros r s' [[-> Hs'] HP']. by apply IH.
Qed.

End monad.

(** One step of a proof that a computation preserves an invariant. *)
Ltac preserves_step db :=
  lazymatch goal with
  | |- preserves _ (mbind _ _) => apply preserves_bind; [|intros ?]
  | |- preserves _ (mret _) => by apply preserves_same
  | |- preserves _ (fail _) => by apply preserves_same
  | |- preserves _ (panic _) => by apply preserves_same
  | |- preserves _ (gets _) => by apply preserves_same
  | |- preserves _ (ok_or _ _) => apply preserves_ok_or
  | |- preserves _ (when _ _) => apply preserves_when
  | |- preserves _ (attempt _) => apply preserves_attempt
  | |- preserves _ (match ?x with _ => _ end) => destruct x
  | |- preserves _ _ => solve [db]
  end.
