(* ===== verification/QuicModel.v ===== *)
(** * QuicModel: a small instance of the QUIC interface

    A connection that remembers what was written to its streams and the packets
    it has to send; the peer's packet [1] confirms the handshake, [2] grants
    credit for one more stream, others are ignored; and a socket that records
    what was sent.  It shows that the hypotheses made about quiche can hold and lets
    the examples of the endpoint be evaluated. *)
From S2P Require Import Prelude Conc Net Quic.

Record model_conn : Type := {
  confirmed_ : bool; credit : nat; streams : list (Z * list Z); out : list (list Z * SocketAddr);
  remote : SocketAddr }.

Definition model_net : Type := list (list Z * SocketAddr).

Definition model_stream_send (id : Z) (data : list Z) (q : model_conn) : Result nat quiche_error * model_conn :=
  match credit q with
  | O => (Err Done, q)
  | S n => (Ok (length data),
            {| confirmed_ := confirmed_ q; credit := n; streams := streams q ++ [(id, data)];
               out := out q ++ [(data, remote q)]; remote := remote q |})
  end.

Definition model_send (q : model_conn) : Result (list Z * SocketAddr) quiche_error * model_conn :=
  match out q with
  | [] => (Err Done, q)
  | p :: l => (Ok p, {| confirmed_ := confirmed_ q; credit := credit q; streams := streams q; out := l;
                        remote := remote q |})
  end.

Definition model_recv (data : list Z) (from : SocketAddr) (q : model_conn) : Result nat quiche_error * model_conn :=
  match data with
  | 1 :: _ => (Ok (length data), {| confirmed_ := true; credit := credit q; streams := streams q; out := out q;
                                    remote := remote q |})
  | 2 :: _ => (Ok (length data), {| confirmed_ := confirmed_ q; credit := S (credit q); streams := streams q;
                                    out := out q; remote := remote q |})
  | _ => (Err Done, q)
  end.

#[export] Instance model_quiche : quiche_api model_conn := {
  q_connect scid a := Ok {| confirmed_ := false; credit := 2; streams := []; out := [(scid, a)]; remote := a |};
  q_set_session _ q := (Ok tt, q);
  q_session _ := None;
  q_is_established := confirmed_;
  q_is_handshake_confirmed := confirmed_;
  q_is_in_early_data _ := false;
  q_is_closed _ := false;
  q_peer_error _ := None;
  q_stream_send := model_stream_send;
  q_send := model_send;
  q_recv := model_recv;
  q_on_timeout q := q;
  q_pending q := length (out q);
}.

#[export] Instance model_quiche_ok : quiche_ok model_conn.
Proof.
  split. intros q p q'. simpl. unfold model_send. destruct (out q) as [|p0 l] eqn:Ho; [done|].
  intros [= <- <-]. simpl. lia.
Qed.

#[export] Instance model_udp : udp_api model_net := {
  send_to packet to net := (Ok tt, net ++ [(packet, to)]) }.

Definition peer_a : SocketAddr := V4 [10; 0; 0; 1] 8009.
Definition peer_b : SocketAddr := V4 [10; 0; 0; 2] 8009.
