(* ===== verification/IoUring.v ===== *)
(** * IoUring: the zero-copy send path

    [quic/src/io_uring_backend.rs] and the address conversion of
    [quic/src/endpoint.rs].  The backend hands the kernel pointers: a submission
    entry points to an operation on the heap, whose message header points to a
    packet buffer.  Here the heap is explicit: [boxes] holds the operations,
    [memory] the buffers, and following a pointer to something that was freed is
    [UndefinedBehaviour].  The ring and the kernel behind it are modelled by what
    io_uring documents: an entry that was pushed is executed at most once, after
    it was submitted, and its completion is posted after that; whether a push, a
    submission or a send succeeds is an argument. *)
From S2P Require Import Prelude Net.

Definition MAX_PACKET_SIZE : nat := 1350.

(** ** Socket addresses in C *)

Definition AF_INET : Z := 2.
Definition AF_INET6 : Z := 10.
Definition STORAGE_SIZE : nat := 128.

(** Two bytes of a [u16] in memory: native (little-endian) and network order. *)
Definition ne_bytes (n : Z) : list Z := [n mod 256; n / 256].
Definition be_bytes (n : Z) : list Z := [n / 256; n mod 256].

(** The structure in a zeroed [sockaddr_storage], and its size.  Addresses carry no
    flow information and no scope ([Net]). *)
Definition build_sockaddr (addr : SocketAddr) : list Z * nat :=
  let fill l := l ++ replicate (STORAGE_SIZE - length l) 0 in
  match addr with
  | V4 octets port => (fill (ne_bytes AF_INET ++ be_bytes port ++ octets ++ replicate 8 0), 16%nat)
  | V6 octets port => (fill (ne_bytes AF_INET6 ++ be_bytes port ++ replicate 4 0 ++ octets ++ replicate 4 0), 28%nat)
  end.

Definition read_u16 (b : Z * Z) : Z := b.1 + b.2 * 256.

Definition sockaddr_to_socket_addr (storage : list Z) : option SocketAddr :=
  match storage with
  | f0 :: f1 :: p0 :: p1 :: rest =>
      let family := read_u16 (f0, f1) in
      if family =? AF_INET then Some (V4 (take 4 rest) (read_u16 (p1, p0)))
      else if family =? AF_INET6 then Some (V6 (take 16 (drop 4 rest)) (read_u16 (p1, p0)))
      else None
  | _ => None
  end.

(** ** The backend *)

(** An operation: its buffer, the destination and the length of the data; the
    message header only points to these. *)
Record InFlightOp : Type := { buf : nat; sockaddr : list Z; iov_len : nat }.

Record IoUringBackend : Type := {
  buf_pool : list nat;             (* the last one is popped first *)
  in_flight : gmap Z nat;          (* the operation of each [user_data] *)
  next_user_data : Z;
}.

(** A submission entry: the [user_data] and the pointer to the operation. *)
Abbreviation sqe := (Z * nat)%type.

Record System : Type := {
  backend : IoUringBackend;
  memory : gmap nat (list Z);      (* the buffers that are allocated *)
  boxes : gmap nat InFlightOp;     (* the operations that are allocated *)
  next_box : nat;                  (* where the allocator goes on *)
  sq : list sqe;                   (* pushed, not yet submitted *)
  pending : list sqe;              (* with the kernel *)
  cq : list sqe;                   (* completed, not yet polled *)
}.

Definition uring_new (queue_depth : nat) : System :=
  {| backend := {| buf_pool := seq 0 queue_depth; in_flight := ∅; next_user_data := 0 |};
     memory := list_to_map ((fun i => (i, replicate MAX_PACKET_SIZE 0)) <$> seq 0 queue_depth);
     boxes := ∅; next_box := 0; sq := []; pending := []; cq := [] |}.

Definition copy_from_slice (data old : list Z) : list Z := data ++ drop (length data) old.

(** The drop of a box: the operation and its buffer are freed. *)
Definition drop_op (ptr : nat) (st : System) : System :=
  {| backend := backend st;
     memory := match boxes st !! ptr with Some op => delete (buf op) (memory st) | None => memory st end;
     boxes := delete ptr (boxes st); next_box := next_box st; sq := sq st; pending := pending st; cq := cq st |}.

(** [in_flight.insert]: a value that was there before is dropped. *)
Definition insert_in_flight (user_data : Z) (ptr : nat) (st : System) : System :=
  let st' := match in_flight (backend st) !! user_data with Some old => drop_op old st | None => st end in
  {| backend := {| buf_pool := buf_pool (backend st'); in_flight := <[user_data := ptr]> (in_flight (backend st'));
                   next_user_data := next_user_data (backend st') |};
     memory := memory st'; boxes := boxes st'; next_box := next_box st'; sq := sq st'; pending := pending st';
     cq := cq st' |}.

(** The buffer filled, the operation on the heap, the counter moved on. *)
Definition prepare (data : list Z) (addr : SocketAddr) (pool : list nat) (b : nat) (st : System) : System :=
  {| backend := {| buf_pool := pool; in_flight := in_flight (backend st);
                   next_user_data := wrapping_add64 (next_user_data (backend st)) 1 |};
     memory := alter (copy_from_slice data) b (memory st);
     boxes := <[next_box st := {| buf := b; sockaddr := (build_sockaddr addr).1; iov_len := length data |}]> (boxes st);
     next_box := S (next_box st); sq := sq st; pending := pending st; cq := cq st |}.

Definition push (e : sqe) (st : System) : System :=
  {| backend := backend st; memory := memory st; boxes := boxes st; next_box := next_box st;
     sq := sq st ++ [e]; pending := pending st; cq := cq st |}.
Definition ring_submit (st : System) : System :=
  {| backend := backend st; memory := memory st; boxes := boxes st; next_box := next_box st;
     sq := []; pending := pending st ++ sq st; cq := cq st |}.

Definition submit_send (push_ok submit_ok : bool) (data : list Z) (addr : SocketAddr) (st : System)
    : Result unit string * System :=
  if (MAX_PACKET_SIZE <? length data)%nat then (Err "Packet exceeds maximum size"%string, st)
  else
    match last (buf_pool (backend st)) with
    | None => (Err "No available buffers"%string, st)
    | Some b =>
        let user_data := next_user_data (backend st) in
        let ptr := next_box st in
        let st := prepare data addr (removelast (buf_pool (backend st))) b st in
        if negb push_ok then (Err "Failed to push to submission queue"%string, drop_op ptr st)
        else
          let st := insert_in_flight user_data ptr (push (user_data, ptr) st) in
          if negb submit_ok then (Err "Failed to submit to kernel"%string, st)
          else (Ok tt, ring_submit st)
    end.

(** One completion: the buffer goes back to the pool, the rest of the operation
    is freed. *)
Definition reclaim (user_data : Z) (st : System) : nat * System :=
  match in_flight (backend st) !! user_data with
  | None => (0%nat, st)
  | Some ptr =>
      (1%nat,
       {| backend := {| buf_pool := buf_pool (backend st) ++
                          match boxes st !! ptr with Some op => [buf op] | None => [] end;
                        in_flight := delete user_data (in_flight (backend st));
                        next_user_data := next_user_data (backend st) |};
          memory := memory st; boxes := delete ptr (boxes st); next_box := next_box st; sq := sq st;
          pending := pending st; cq := cq st |})
  end.

Fixpoint reclaim_all (cqes : list sqe) (st : System) : nat * System :=
  match cqes with
  | [] => (0%nat, st)
  | e :: cqes =>
      let '(n, st) := reclaim e.1 st in
      let '(m, st) := reclaim_all cqes st in ((n + m)%nat, st)
  end.

Definition poll_completions (st : System) : nat * System :=
  reclaim_all (cq st)
    {| backend := backend st; memory := memory st; boxes := boxes st; next_box := next_box st;
       sq := sq st; pending := pending st; cq := [] |}.

Definition available_buffers (st : System) : nat := length (buf_pool (backend st)).
Definition in_flight_count (st : System) : nat := size (in_flight (backend st)).

(** [drop] returns when this holds. *)
Definition drop_done (st : System) : bool := bool_decide (in_flight (backend st) = ∅).

(** ** The kernel *)

(** The kernel executes the entry at position [i]: it reads the message through
    the pointers. *)
Definition kernel_read (ptr : nat) (st : System) : Result (list Z * list Z) fault :=
  match boxes st !! ptr with
  | None => Err (UndefinedBehaviour "message header was freed")
  | Some op =>
      match memory st !! buf op with
      | None => Err (UndefinedBehaviour "buffer was freed")
      | Some bytes => Ok (take (iov_len op) bytes, sockaddr op)
      end
  end.

Definition complete (i : nat) (e : sqe) (st : System) : System :=
  {| backend := backend st; memory := memory st; boxes := boxes st; next_box := next_box st;
     sq := sq st; pending := delete i (pending st); cq := cq st ++ [e] |}.

(** ** Steps *)

Inductive label : Type :=
| Accepted (user_data : Z) (data : list Z) (addr : SocketAddr)   (* pushed *)
| Lost                                                             (* a buffer freed *)
| Sent (user_data : Z) (bytes : list Z) (sockaddr : list Z)        (* on the wire *)
| Faulted (f : fault)
| Quiet.

(** What a call of [submit_send] did, seen from outside. *)
Definition submit_label (push_ok : bool) (data : list Z) (addr : SocketAddr) (st : System) : label :=
  if (MAX_PACKET_SIZE <? length data)%nat then Quiet
  else match last (buf_pool (backend st)) with
       | None => Quiet
       | Some _ => if push_ok then Accepted (next_user_data (backend st)) data addr else Lost
       end.

Inductive uring_step : System -> label -> System -> Prop :=
| step_submit push_ok submit_ok data addr st :
    uring_step st (submit_label push_ok data addr st) (submit_send push_ok submit_ok data addr st).2
| step_poll st : uring_step st Quiet (poll_completions st).2
| step_send i e bytes sa st :
    pending st !! i = Some e -> kernel_read e.2 st = Ok (bytes, sa) ->
    uring_step st (Sent e.1 bytes sa) (complete i e st)
| step_send_failed i e st : pending st !! i = Some e -> uring_step st Quiet (complete i e st)
| step_fault i e f st :
    pending st !! i = Some e -> kernel_read e.2 st = Err f -> uring_step st (Faulted f) (complete i e st).

Inductive uring_run : System -> list label -> System -> Prop :=
| uring_nil st : uring_run st [] st
| uring_snoc st ls st' l st'' : uring_run st ls st' -> uring_step st' l st'' -> uring_run st (ls ++ [l]) st''.
