(* ===== verification/IoUringSpec.v ===== *)
(** * IoUringSpec: the kernel reads what was submitted

    The invariant of the backend: every operation the kernel may still touch is
    allocated, its buffer belongs to it alone and holds the packet, and the
    buffers are in the pool, with an operation, or were lost by a failed push. *)
From S2P Require Import Prelude Net IoUring.

(** ** Addresses *)

Lemma sockaddr_roundtrip addr : addr_ok addr -> sockaddr_to_socket_addr (build_sockaddr addr).1 = Some addr.
Proof.
  destruct addr as [o p|o p]; intros (Hl & _ & Hp); unfold build_sockaddr; cbn [fst].
  - destruct o as [|a [|b [|c [|d [|]]]]]; try done. cbn. unfold read_u16. cbn. do 2 f_equal.
    pose proof (Z.div_mod p 256). lia.
  - do 16 (destruct o as [|? o]; [done|]). destruct o; [|done]. cbn. unfold read_u16. cbn. do 2 f_equal.
    pose proof (Z.div_mod p 256). lia.
Qed.

(** ** Logs *)

#[local] Instance label_lost_dec l : Decision (l = Lost).
Proof. destruct l; (left; done) || (right; done). Defined.

Definition lost (ls : list label) : nat := length (filter (fun l => l = Lost) ls).
Definition sent (ls : list label) : list Z := omap (fun l => match l with Sent u _ _ => Some u | _ => None end) ls.

(** ** The invariant *)

(** The entries whose operation is alive; [extra] are completions. *)
Definition held (extra : list sqe) (st : System) : list sqe := sq st ++ pending st ++ extra.
Definition op_buf (st : System) (e : sqe) : nat := default 0%nat (buf <$> boxes st !! e.2).

Definition buffer_ok (st : System) (b : nat) : Prop :=
  exists bytes, memory st !! b = Some bytes /\ length bytes = MAX_PACKET_SIZE.

(** The operation holds the packet that was accepted under its [user_data]. *)
Definition carries (ls : list label) (st : System) (e : sqe) : Prop :=
  exists data addr, Accepted e.1 data addr ∈ ls /\ kernel_read e.2 st = Ok (data, (build_sockaddr addr).1).

(** What went on the wire is what was accepted. *)
Definition sent_ok (ls : list label) : Prop :=
  forall u bytes sa, Sent u bytes sa ∈ ls -> exists addr, Accepted u bytes addr ∈ ls /\ sa = (build_sockaddr addr).1.

Record uring_inv (depth : nat) (ls : list label) (extra : list sqe) (st : System) : Prop := {
  inv_map : in_flight (backend st) = list_to_map (held extra st);
  inv_keys : NoDup (held extra st).*1;
  inv_ptrs : NoDup (held extra st).*2;
  inv_boxes : Forall (fun e => is_Some (boxes st !! e.2) /\ (e.2 < next_box st)%nat) (held extra st);
  inv_bufs : NoDup (buf_pool (backend st) ++ (op_buf st <$> held extra st));
  inv_memory : Forall (buffer_ok st) (buf_pool (backend st) ++ (op_buf st <$> held extra st));
  inv_next : 0 <= next_user_data (backend st) <= Z.of_nat (length ls);
  inv_uds : Forall (fun e => e.1 < next_user_data (backend st)) (held extra st);
  inv_carries : Forall (carries ls st) (sq st ++ pending st);
  inv_sent : Forall (fun u => u < next_user_data (backend st) /\ u ∉ (sq st ++ pending st).*1) (sent ls);
  inv_sent_once : NoDup (sent ls);
  inv_sent_ok : sent_ok ls;
  inv_no_fault : forall f, Faulted f ∉ ls;
  inv_count : (length (buf_pool (backend st)) + length (held extra st) + lost ls = depth)%nat;
}.

Lemma init_inv depth : uring_inv depth [] [] (uring_new depth).
Proof.
  split; cbn; try done; try constructor; try lia.
  - rewrite app_nil_r. apply NoDup_seq.
  - rewrite app_nil_r. apply Forall_forall. intros b Hb. exists (replicate MAX_PACKET_SIZE 0).
    split; [|apply length_replicate]. cbn. apply elem_of_list_to_map_1.
    + rewrite <- list_fmap_compose. rewrite (list_fmap_ext _ id), list_fmap_id by done. apply NoDup_seq.
    + apply list_elem_of_fmap. by exists b.
  - intros u bytes sa H. by apply elem_of_nil in H.
  - intros f H. by apply elem_of_nil in H.
  - rewrite length_seq. unfold lost. cbn. lia.
Qed.

(** A quiet step: the log grows by a label that says nothing. *)
Lemma lost_snoc ls l : l <> Lost -> lost (ls ++ [l]) = lost ls.
Proof. intros Hl. unfold lost. rewrite filter_app, length_app, filter_cons_False by done. cbn. lia. Qed.

Lemma lost_one_more ls : lost (ls ++ [Lost]) = S (lost ls).
Proof. unfold lost. rewrite filter_app, length_app, filter_cons_True by done. cbn. lia. Qed.

Lemma sent_snoc ls l : (forall u b s, l <> Sent u b s) -> sent (ls ++ [l]) = sent ls.
Proof.
  intros Hl. unfold sent. rewrite omap_app. cbn. destruct l; try by rewrite app_nil_r. by edestruct Hl.
Qed.

Lemma sent_ok_snoc ls l : (forall u b s, l <> Sent u b s) -> sent_ok ls -> sent_ok (ls ++ [l]).
Proof.
  intros Hl Hok u bytes sa [H|H]%elem_of_app.
  - destruct (Hok _ _ _ H) as (addr & Ha & ->). exists addr. split; [|done]. apply elem_of_app. by left.
  - apply list_elem_of_singleton in H. by edestruct Hl.
Qed.

Lemma no_fault_snoc ls l : (forall f, l <> Faulted f) -> (forall f, Faulted f ∉ ls) -> forall f, Faulted f ∉ ls ++ [l].
Proof. intros Hl Hf f [H|H]%elem_of_app; [by eapply Hf|]. apply list_elem_of_singleton in H. by edestruct Hl. Qed.

Lemma carries_log ls l st e : carries ls st e -> carries (ls ++ [l]) st e.
Proof. intros (data & addr & Hin & Hk). exists data, addr. split; [|done]. apply elem_of_app. by left. Qed.

Lemma quiet_inv depth ls extra st : uring_inv depth ls extra st -> uring_inv depth (ls ++ [Quiet]) extra st.
Proof.
  intros [? ? ? ? ? ? Hn ? Hc Hs Hso Hok Hf Hcount]. split; try done.
  - rewrite length_app. cbn. lia.
  - eapply Forall_impl; [exact Hc|]. intros e. apply carries_log.
  - by rewrite sent_snoc.
  - by rewrite sent_snoc.
  - by apply sent_ok_snoc.
  - by apply no_fault_snoc.
  - by rewrite lost_snoc.
Qed.

(** ** Polling *)

Lemma held_cons e extra st : held (e :: extra) st ≡ₚ e :: held extra st.
Proof. unfold held. rewrite !app_assoc. symmetry. apply Permutation_middle. Qed.

Lemma op_buf_agree st st' e : boxes st' !! e.2 = boxes st !! e.2 -> op_buf st' e = op_buf st e.
Proof. unfold op_buf. by intros ->. Qed.

Lemma kernel_read_agree st st' ptr :
  boxes st' !! ptr = boxes st !! ptr ->
  (forall op, boxes st !! ptr = Some op -> memory st' !! buf op = memory st !! buf op) ->
  kernel_read ptr st' = kernel_read ptr st.
Proof. intros Hb Hm. unfold kernel_read. rewrite Hb. destruct (boxes st !! ptr) as [op|] eqn:E; [|done]. by rewrite Hm. Qed.

Lemma active_held extra st e : e ∈ sq st ++ pending st -> e ∈ held extra st.
Proof. unfold held. rewrite app_assoc. intros H. apply elem_of_app. by left. Qed.

Lemma reclaim_inv depth ls e extra st :
  uring_inv depth ls (e :: extra) st ->
  uring_inv depth ls extra (reclaim e.1 st).2 /\ (reclaim e.1 st).1 = 1%nat.
Proof.
  intros [Hmap Hkeys Hptrs Hboxes Hbufs Hmem Hnext Huds Hc Hs Hso Hok Hf Hcount].
  pose proof (held_cons e extra st) as Hp. rewrite Hp in Hkeys, Hptrs, Hboxes, Hbufs, Hmem, Huds, Hcount.
  assert (Hm : in_flight (backend st) = <[e.1 := e.2]> (list_to_map (held extra st))).
  { rewrite Hmap, (list_to_map_proper (M := gmap Z) (held (e :: extra) st) (e :: held extra st)); [by destruct e|by rewrite Hp|done]. }
  rewrite fmap_cons in Hkeys. rewrite fmap_cons in Hptrs. rewrite fmap_cons in Hbufs. rewrite fmap_cons in Hmem. apply NoDup_cons in Hkeys as [Hk Hkeys]. apply NoDup_cons in Hptrs as [Hptr Hptrs].
  apply Forall_cons in Hboxes as [[[op Hop] _] Hboxes]. apply Forall_cons in Huds as [_ Huds].
  assert (Hb : op_buf st e = buf op) by (unfold op_buf; by rewrite Hop).
  unfold reclaim. rewrite Hm, lookup_insert, decide_True by done. cbn [fst snd]. split; [|done].
  set (st' := {| backend := _ |}).
  assert (Hagree : forall e', e' ∈ held extra st -> boxes st' !! e'.2 = boxes st !! e'.2).
  { intros e' He'. cbn. apply lookup_delete_ne. intros Heq. apply Hptr. rewrite Heq. by apply list_elem_of_fmap_2. }
  assert (Hob : op_buf st' <$> held extra st = op_buf st <$> held extra st).
  { apply list_fmap_ext. intros i e' He'. apply op_buf_agree, Hagree. by eapply list_elem_of_lookup_2. }
  assert (Hperm : buf_pool (backend st') ++ (op_buf st <$> held extra st)
                  ≡ₚ buf_pool (backend st) ++ op_buf st e :: (op_buf st <$> held extra st)).
  { cbn. rewrite Hop, Hb, <- app_assoc. done. }
  assert (Hh : held extra st' = held extra st) by done. split; rewrite ?Hh; try done.
  - cbn. apply delete_insert_id. by apply not_elem_of_list_to_map_1.
  - apply Forall_forall. intros e' He'. rewrite Hagree by done. rewrite Forall_forall in Hboxes. by apply Hboxes.
  - by rewrite Hob, Hperm.
  - rewrite Hob, Hperm. exact Hmem.
  - apply Forall_forall. intros e' He'. rewrite Forall_forall in Hc. destruct (Hc e' He') as (data & addr & Hin & Hk').
    exists data, addr. split; [done|]. rewrite <- Hk'. apply kernel_read_agree; [|done].
    apply Hagree. by apply active_held.
  - cbn. rewrite Hop, length_app. cbn [length] in *. lia.
Qed.

Lemma reclaim_all_inv depth ls cqes st :
  uring_inv depth ls cqes st ->
  uring_inv depth ls [] (reclaim_all cqes st).2 /\ (reclaim_all cqes st).1 = length cqes.
Proof.
  revert st. induction cqes as [|e cqes IH]; intros st Hinv; [done|].
  destruct (reclaim_inv _ _ _ _ _ Hinv) as [Hinv' Hn]. cbn [reclaim_all].
  destruct (reclaim e.1 st) as [n st']. cbn [fst snd] in *. destruct (IH st' Hinv') as [Hinv'' Hm].
  destruct (reclaim_all cqes st') as [m st'']. cbn [fst snd] in *. split; [done|]. subst. done.
Qed.

Lemma reclaim_all_cq cqes st : cq (reclaim_all cqes st).2 = cq st.
Proof.
  revert st. induction cqes as [|e cqes IH]; intros st; [done|]. cbn [reclaim_all].
  destruct (reclaim e.1 st) as [n st'] eqn:E. specialize (IH st'). destruct (reclaim_all cqes st') as [m st''].
  cbn [snd] in *. rewrite IH. unfold reclaim in E. by destruct (in_flight (backend st) !! e.1); simplify_eq.
Qed.

(** The invariant of a state: its own completions are those that hold operations. *)
Definition inv_at (depth : nat) (ls : list label) (st : System) : Prop := uring_inv depth ls (cq st) st.

Lemma poll_inv depth ls st :
  inv_at depth ls st -> inv_at depth ls (poll_completions st).2 /\ (poll_completions st).1 = length (cq st).
Proof.
  intros Hinv. unfold poll_completions, inv_at. rewrite reclaim_all_cq. cbn [cq].
  apply reclaim_all_inv. by destruct Hinv; split.
Qed.

(** ** Moving entries along *)

(** Entries go from one queue to the next; operations and buffers stay. *)
Lemma move_inv depth ls extra extra' st st' :
  backend st' = backend st -> memory st' = memory st -> boxes st' = boxes st -> next_box st' = next_box st ->
  held extra' st' ≡ₚ held extra st -> sq st' ++ pending st' ⊆ sq st ++ pending st ->
  uring_inv depth ls extra st -> uring_inv depth ls extra' st'.
Proof.
  intros Eb Em Ex En Hp Hsub [Hmap Hkeys Hptrs Hboxes Hbufs Hmem Hnext Huds Hc Hs Hso Hok Hf Hcount].
  assert (Hob : op_buf st' <$> held extra' st' ≡ₚ op_buf st <$> held extra st).
  { rewrite Hp. rewrite (list_fmap_ext (op_buf st') (op_buf st)); [done|]. intros i e _. apply op_buf_agree. by rewrite Ex. }
  split; rewrite ?Eb; try done.
  - rewrite Hmap. apply (list_to_map_proper (M := gmap Z)); done.
  - by rewrite Hp.
  - by rewrite Hp.
  - rewrite Hp, Ex, En. done.
  - by rewrite Hob.
  - rewrite Hob. eapply Forall_impl; [exact Hmem|]. intros b (bytes & Hb & Hl). exists bytes. by rewrite Em.
  - by rewrite Hp.
  - apply Forall_forall. intros e He. rewrite Forall_forall in Hc. destruct (Hc e (Hsub e He)) as (data & addr & Hin & Hk).
    exists data, addr. split; [done|]. rewrite <- Hk. apply kernel_read_agree; [by rewrite Ex|by rewrite Em].
  - eapply Forall_impl; [exact Hs|]. intros u [Hu Hn]. split; [done|]. intros Hin. apply Hn.
    apply list_elem_of_fmap in Hin as (e & -> & He). apply list_elem_of_fmap_2. by apply Hsub.
  - by rewrite Hp.
Qed.

Lemma complete_inv depth ls i e st :
  pending st !! i = Some e -> inv_at depth ls st -> inv_at depth ls (complete i e st).
Proof.
  intros Hi. pose proof (delete_Permutation _ _ _ Hi) as Hp. apply move_inv; try done.
  - unfold held. cbn. set (rest := delete i (pending st)) in *. clearbody rest. rewrite Hp.
    rewrite (Permutation_app_comm (cq st) [e]). cbn. apply Permutation_app_head. by rewrite <- Permutation_middle.
  - cbn. set (rest := delete i (pending st)) in *. clearbody rest. intros x.
    rewrite !elem_of_app, Hp, elem_of_cons. tauto.
Qed.

Lemma submit_inv depth ls st : inv_at depth ls st -> inv_at depth ls (ring_submit st).
Proof.
  apply move_inv; try done.
  - unfold held. cbn. rewrite !app_assoc. by rewrite (Permutation_app_comm (pending st)).
  - cbn. intros x. rewrite !elem_of_app. tauto.
Qed.

(** What the kernel may read, it reads as it was accepted. *)
Lemma pending_carries depth ls i e st :
  pending st !! i = Some e -> inv_at depth ls st -> carries ls st e.
Proof.
  intros Hi Hinv. pose proof (inv_carries _ _ _ _ Hinv) as Hc. rewrite Forall_forall in Hc. apply Hc.
  apply elem_of_app. right. by eapply list_elem_of_lookup_2.
Qed.

Lemma send_inv depth ls i e bytes sa st :
  pending st !! i = Some e -> kernel_read e.2 st = Ok (bytes, sa) -> inv_at depth ls st ->
  inv_at depth (ls ++ [Sent e.1 bytes sa]) (complete i e st).
Proof.
  intros Hi Hk Hinv. destruct (pending_carries _ _ _ _ _ Hi Hinv) as (data & addr & Hin & Hk').
  assert (He : e ∈ sq st ++ pending st) by (apply elem_of_app; right; by eapply list_elem_of_lookup_2).
  assert (Hlt : e.1 < next_user_data (backend st)).
  { pose proof (inv_uds _ _ _ _ Hinv) as Hu. rewrite Forall_forall in Hu. apply Hu. by apply active_held. }
  assert (Hnew : e.1 ∉ sent ls).
  { intros Hsent. pose proof (inv_sent _ _ _ _ Hinv) as Hs. rewrite Forall_forall in Hs.
    destruct (Hs _ Hsent) as [_ Hno]. apply Hno. by apply list_elem_of_fmap_2. }
  assert (Hgone : e.1 ∉ (sq (complete i e st) ++ pending (complete i e st)).*1).
  { pose proof (inv_keys _ _ _ _ (complete_inv _ _ _ _ _ Hi Hinv)) as Hk2. unfold held in Hk2. rewrite app_assoc, fmap_app in Hk2.
    apply NoDup_app in Hk2 as (_ & Hd & _). intros Hin2. apply (Hd _ Hin2). cbn. rewrite fmap_app. apply elem_of_app. right. by left. }
  assert (Hsnoc : sent (ls ++ [Sent e.1 bytes sa]) = sent ls ++ [e.1]) by (unfold sent; by rewrite omap_app).
  rewrite Hk in Hk'. injection Hk' as -> ->.
  destruct (complete_inv _ _ _ _ _ Hi Hinv) as [? ? ? ? ? ? Hn ? Hc Hs Hso Hok Hf Hcount].
  split; try done; rewrite ?Hsnoc.
  - rewrite length_app. cbn [length]. lia.
  - eapply Forall_impl; [exact Hc|]. intros x. apply carries_log.
  - apply Forall_app_2; [done|]. by constructor.
  - apply NoDup_app. split; [done|]. split; [|by apply NoDup_singleton]. intros u Hu Hu'.
    apply list_elem_of_singleton in Hu' as ->. done.
  - intros u b s [H|H]%elem_of_app.
    + destruct (Hok _ _ _ H) as (a & Ha & ->). exists a. split; [|done]. apply elem_of_app. by left.
    + apply list_elem_of_singleton in H. simplify_eq. exists addr. split; [|done]. apply elem_of_app. by left.
  - by apply no_fault_snoc.
  - by rewrite lost_snoc.
Qed.

(** ** Submitting *)

Section submit.
Context (depth : nat) (ls : list label) (st : System) (data : list Z) (addr : SocketAddr) (b : nat).
Context (Hinv : inv_at depth ls st) (Hb : last (buf_pool (backend st)) = Some b).
Context (Hlen : (length data <= MAX_PACKET_SIZE)%nat) (Hls : Z.of_nat (length ls) + 1 < U64).

Let pool' := removelast (buf_pool (backend st)).
Let prepared := prepare data addr pool' b st.
Let new : sqe := (next_user_data (backend st), next_box st).

Lemma pool_split : buf_pool (backend st) = pool' ++ [b].
Proof.
  unfold pool'. apply last_Some in Hb as [l Hl]. rewrite Hl. by rewrite removelast_last.
Qed.

(** The popped buffer belongs to nobody else. *)
Lemma popped_free : (b ∉ pool') /\ b ∉ (op_buf st <$> held (cq st) st).
Proof.
  pose proof (inv_bufs _ _ _ _ Hinv) as Hn. rewrite pool_split, <- app_assoc in Hn.
  apply NoDup_app in Hn as (_ & Hd & Hn). cbn in Hn. apply NoDup_cons in Hn as [Hn _].
  split; [|done]. intros Hin. apply (Hd _ Hin). by left.
Qed.

Lemma held_other e : e ∈ held (cq st) st -> e.2 <> next_box st /\ e.1 <> next_user_data (backend st).
Proof.
  intros He. pose proof (inv_boxes _ _ _ _ Hinv) as H1. pose proof (inv_uds _ _ _ _ Hinv) as H2.
  rewrite Forall_forall in H1, H2. destruct (H1 _ He) as [_ Hlt]. pose proof (H2 _ He). split; lia.
Qed.

Lemma new_fresh : (new.1 ∉ (held (cq st) st).*1) /\ new.2 ∉ (held (cq st) st).*2.
Proof.
  split; intros Hin; apply list_elem_of_fmap in Hin as (e & He & Hin); by destruct (held_other e Hin).
Qed.

Lemma other_box e : e ∈ held (cq st) st -> boxes prepared !! e.2 = boxes st !! e.2.
Proof. intros He. cbn. apply lookup_insert_ne. intros Heq. by destruct (held_other e He). Qed.

(** Reading an older operation does not see the popped buffer. *)
Lemma other_buf e op : e ∈ held (cq st) st -> boxes st !! e.2 = Some op -> buf op <> b.
Proof.
  intros He Hop Heq. destruct popped_free as [_ Hn]. apply Hn. apply list_elem_of_fmap. exists e.
  split; [|done]. unfold op_buf. by rewrite Hop.
Qed.

Lemma prepared_next : next_user_data (backend prepared) = next_user_data (backend st) + 1.
Proof.
  pose proof (inv_next _ _ _ _ Hinv). cbn. unfold wrapping_add64. apply Z.mod_small. lia.
Qed.

Lemma popped_bytes : exists bytes, memory st !! b = Some bytes /\ length bytes = MAX_PACKET_SIZE.
Proof.
  pose proof (inv_memory _ _ _ _ Hinv) as Hm. rewrite Forall_forall in Hm. apply Hm.
  rewrite pool_split. apply elem_of_app. left. apply elem_of_app. right. by left.
Qed.

Lemma prepared_read : kernel_read (next_box st) prepared = Ok (data, (build_sockaddr addr).1).
Proof.
  destruct popped_bytes as (bytes & Hbytes & Hl). unfold kernel_read. cbn. rewrite lookup_insert, decide_True by done. cbn.
  rewrite lookup_alter, decide_True, Hbytes by done. cbn. unfold copy_from_slice. by rewrite take_app_length.
Qed.

Lemma prepared_buffer b' : buffer_ok st b' -> buffer_ok prepared b'.
Proof.
  intros (bytes & Hbytes & Hl). unfold buffer_ok. cbn. destruct (decide (b' = b)) as [->|Hne].
  - exists (copy_from_slice data bytes). rewrite lookup_alter, decide_True, Hbytes by done. split; [done|].
    unfold copy_from_slice. rewrite length_app, length_drop. lia.
  - exists bytes. by rewrite lookup_alter_ne.
Qed.

Let accepted := insert_in_flight new.1 new.2 (push new prepared).

Lemma key_fresh : in_flight (backend st) !! next_user_data (backend st) = None.
Proof.
  rewrite (inv_map _ _ _ _ Hinv). apply not_elem_of_list_to_map_1, new_fresh.
Qed.

Lemma accepted_eq :
  accepted = {| backend := {| buf_pool := pool'; in_flight := <[new.1 := new.2]> (in_flight (backend st));
                              next_user_data := next_user_data (backend prepared) |};
                memory := memory prepared; boxes := boxes prepared; next_box := next_box prepared;
                sq := sq st ++ [new]; pending := pending st; cq := cq st |}.
Proof. unfold accepted, insert_in_flight. cbn. by rewrite key_fresh. Qed.

Lemma accepted_inv : inv_at depth (ls ++ [Accepted new.1 data addr]) accepted.
Proof.
  pose proof Hinv as [Hmap Hkeys Hptrs Hboxes Hbufs Hmem Hnext Huds Hc Hs Hso Hok Hf Hcount].
  assert (Hh : held (cq accepted) accepted ≡ₚ new :: held (cq st) st).
  { rewrite accepted_eq. unfold held. cbn. rewrite <- app_assoc. symmetry. apply Permutation_middle. }
  assert (Hob : op_buf accepted <$> held (cq accepted) accepted ≡ₚ b :: (op_buf st <$> held (cq st) st)).
  { rewrite Hh, fmap_cons. assert (op_buf accepted new = b) as ->.
    { rewrite accepted_eq. unfold op_buf. cbn. by rewrite lookup_insert, decide_True. }
    rewrite (list_fmap_ext (op_buf accepted) (op_buf st)); [done|]. intros i e He. apply op_buf_agree.
    rewrite accepted_eq. cbn [boxes]. apply other_box. by eapply list_elem_of_lookup_2. }
  assert (Hall : buf_pool (backend accepted) ++ (op_buf accepted <$> held (cq accepted) accepted)
                 ≡ₚ buf_pool (backend st) ++ (op_buf st <$> held (cq st) st)).
  { rewrite Hob, pool_split, <- app_assoc. by rewrite accepted_eq. }
  assert (Hnx : next_user_data (backend accepted) = next_user_data (backend st) + 1) by (rewrite accepted_eq; apply prepared_next).
  unfold inv_at. split; rewrite ?Hall, ?Hh, ?Hnx, ?sent_snoc by done; try done.
  - transitivity (list_to_map (M := gmap Z nat) (new :: held (cq st) st)).
    { rewrite accepted_eq. cbn [backend in_flight]. by rewrite Hmap. }
    apply (list_to_map_proper (M := gmap Z)); [|by rewrite Hh].
    rewrite fmap_cons. apply NoDup_cons. by split; [apply new_fresh|].
  - rewrite fmap_cons. apply NoDup_cons. by split; [apply new_fresh|].
  - rewrite fmap_cons. apply NoDup_cons. by split; [apply new_fresh|].
  - rewrite accepted_eq. cbn [boxes next_box]. apply Forall_cons_2.
    + split; [|cbn; lia]. cbn. by rewrite lookup_insert, decide_True.
    + apply Forall_forall. intros e He. rewrite other_box by done. rewrite Forall_forall in Hboxes.
      destruct (Hboxes e He). split; [done|]. cbn. lia.
  - eapply Forall_impl; [exact Hmem|]. intros b' Hb'. rewrite accepted_eq. by apply prepared_buffer.
  - rewrite length_app. cbn. lia.
  - apply Forall_cons_2; [cbn; lia|]. eapply Forall_impl; [exact Huds|]. cbv beta. lia.
  - rewrite accepted_eq. cbn [sq pending]. apply Forall_forall. intros e He.
    assert (e = new \/ e ∈ sq st ++ pending st) as [->|He'].
    { rewrite !elem_of_app, list_elem_of_singleton in He. rewrite elem_of_app. tauto. }
    + exists data, addr. split; [apply elem_of_app; right; by left|]. rewrite <- prepared_read. by apply kernel_read_agree.
    + rewrite Forall_forall in Hc. destruct (Hc e He') as (d & a & Hin & Hk). exists d, a.
      split; [apply elem_of_app; by left|]. rewrite <- Hk. apply kernel_read_agree.
      * apply other_box. by apply active_held.
      * intros op Hop. cbn. apply lookup_alter_ne. intros Heq. eapply other_buf; [by apply active_held|exact Hop|done].
  - eapply Forall_impl; [exact Hs|]. intros u [Hu Hn]. split; [lia|]. rewrite accepted_eq. cbn [sq pending].
    rewrite !fmap_app, !elem_of_app. rewrite fmap_app, elem_of_app in Hn. cbn. rewrite list_elem_of_singleton. intros Hin.
    destruct Hin as [[|]|]; [tauto|lia|tauto].
  - by apply sent_ok_snoc.
  - by apply no_fault_snoc.
  - rewrite lost_snoc by done. rewrite pool_split, length_app in Hcount. rewrite accepted_eq. cbn [backend buf_pool length] in *. lia.
Qed.

(** A push that fails frees the operation and the buffer with it. *)
Lemma lose_inv : inv_at depth (ls ++ [Lost]) (drop_op (next_box st) prepared).
Proof.
  pose proof Hinv as [Hmap Hkeys Hptrs Hboxes Hbufs Hmem Hnext Huds Hc Hs Hso Hok Hf Hcount].
  set (st' := drop_op (next_box st) prepared).
  assert (Hbox : boxes st' = delete (next_box st) (boxes st)) by (cbn; by rewrite delete_insert_eq).
  assert (Hsame : forall e, e ∈ held (cq st) st -> boxes st' !! e.2 = boxes st !! e.2).
  { intros e He. rewrite Hbox. apply lookup_delete_ne. intros Heq. by destruct (held_other e He). }
  assert (Hmem' : forall b', b' <> b -> memory st' !! b' = memory st !! b').
  { intros b' Hne. cbn. rewrite lookup_insert, decide_True by done. cbn. by rewrite lookup_delete_ne, lookup_alter_ne. }
  assert (Hob : op_buf st' <$> held (cq st) st = op_buf st <$> held (cq st) st).
  { apply list_fmap_ext. intros i e He. apply op_buf_agree, Hsame. by eapply list_elem_of_lookup_2. }
  destruct popped_free as [Hfree1 Hfree2]. rewrite pool_split, <- app_assoc in Hbufs, Hmem. cbn [app] in Hbufs, Hmem.
  rewrite <- Permutation_middle in Hbufs, Hmem. apply NoDup_cons in Hbufs as [_ Hbufs]. apply Forall_cons in Hmem as [_ Hmem].
  assert (Hn : next_user_data (backend st') = next_user_data (backend st) + 1) by apply prepared_next.
  assert (Hh : held (cq st') st' = held (cq st) st) by done.
  unfold inv_at. split; rewrite ?Hh, ?Hn, ?Hob, ?sent_snoc by done; try done.
  - apply Forall_forall. intros e He. rewrite Hsame by done. rewrite Forall_forall in Hboxes.
    destruct (Hboxes e He). split; [done|]. cbn. lia.
  - apply Forall_forall. intros b' Hb'. rewrite Forall_forall in Hmem. destruct (Hmem b' Hb') as (bytes & Hbytes & Hl).
    exists bytes. rewrite Hmem'; [done|]. intros ->. apply elem_of_app in Hb' as [|]; done.
  - rewrite length_app. cbn [length]. lia.
  - eapply Forall_impl; [exact Huds|]. cbv beta. lia.
  - apply Forall_forall. intros e He. rewrite Forall_forall in Hc. destruct (Hc e He) as (d & a & Hin & Hk). exists d, a.
    split; [apply elem_of_app; by left|]. rewrite <- Hk. apply kernel_read_agree.
    + apply Hsame. by apply active_held.
    + intros op Hop. apply Hmem'. eapply other_buf; [by apply active_held|exact Hop].
  - eapply Forall_impl; [exact Hs|]. intros u [Hu Hnin]. split; [lia|done].
  - by apply sent_ok_snoc.
  - by apply no_fault_snoc.
  - rewrite lost_one_more. rewrite pool_split, length_app in Hcount. cbn [length] in Hcount.
    change (buf_pool (backend st')) with pool'. lia.
Qed.
End submit.

(** ** Every step *)

Lemma step_inv depth ls st l st' :
  Z.of_nat (length ls) + 1 < U64 -> inv_at depth ls st -> uring_step st l st' -> inv_at depth (ls ++ [l]) st'.
Proof.
  intros Hls Hinv Hstep. inversion Hstep as [push_ok submit_ok data addr| |i e bytes sa ? Hi Hk|i e ? Hi|i e f ? Hi Hk]; subst.
  - unfold submit_label, submit_send. destruct (Nat.ltb_spec MAX_PACKET_SIZE (length data)); [by apply quiet_inv|].
    destruct (last (buf_pool (backend st))) as [b|] eqn:Hb; [|by apply quiet_inv].
    destruct push_ok; cbn [negb]; [|by apply lose_inv].
    pose proof (accepted_inv depth ls st data addr b Hinv Hb ltac:(done) Hls) as Ha.
    destruct submit_ok; cbn [negb snd]; [by apply submit_inv|exact Ha].
  - apply quiet_inv. by apply poll_inv.
  - by apply send_inv.
  - apply quiet_inv. by apply complete_inv.
  - destruct (pending_carries _ _ _ _ _ Hi Hinv) as (data & addr & _ & Hk'). by rewrite Hk in Hk'.
Qed.

Lemma run_inv depth ls st :
  Z.of_nat (length ls) < U64 -> uring_run (uring_new depth) ls st -> inv_at depth ls st.
Proof.
  intros Hlen Hrun. remember (uring_new depth) as st0 eqn:H0. induction Hrun as [|st1 ls st2 l st3 Hrun IH Hstep]; subst.
  - apply init_inv.
  - rewrite length_app in Hlen. cbn in Hlen. eapply step_inv; [lia|apply IH; [lia|done]|done].
Qed.

(** C34. The kernel sends exactly what was submitted.  In every run of the backend
    (submissions, polls, and a kernel that executes submitted operations in any
    order and at any time) of fewer than [2^64] steps from a new backend: the kernel never follows a dangling pointer; every packet on
    the wire has the bytes and the destination of one submission, and each
    submission is sent at most once, so that no buffer is reused while the kernel
    may read it; each buffer is in the pool, in flight, or was lost by a failed
    push; and when [drop] may return the kernel holds no operation. *)
Theorem uring_sends_submitted depth ls st :
  uring_run (uring_new depth) ls st -> Z.of_nat (length ls) < U64 ->
  (forall f, Faulted f ∉ ls) /\
  (forall i e, pending st !! i = Some e -> exists m, kernel_read e.2 st = Ok m) /\
  (forall u bytes sa, Sent u bytes sa ∈ ls ->
     exists addr, Accepted u bytes addr ∈ ls /\ (addr_ok addr -> sockaddr_to_socket_addr sa = Some addr)) /\
  NoDup (sent ls) /\
  (available_buffers st + in_flight_count st + lost ls = depth)%nat /\
  (drop_done st = true -> sq st = [] /\ pending st = []).
Proof.
  intros Hrun Hlen. pose proof (run_inv depth ls st Hlen Hrun) as Hinv.
  assert (Hsize : in_flight_count st = length (held (cq st) st)).
  { unfold in_flight_count. rewrite (inv_map _ _ _ _ Hinv). rewrite (map_size_list_to_map (M := gmap Z)) by apply (inv_keys _ _ _ _ Hinv).
    done. }
  split; [apply (inv_no_fault _ _ _ _ Hinv)|]. split.
  { intros i e Hi. destruct (pending_carries _ _ _ _ _ Hi Hinv) as (data & addr & _ & ->). eauto. }
  split.
  { intros u bytes sa Hs. destruct (inv_sent_ok _ _ _ _ Hinv _ _ _ Hs) as (addr & Ha & ->). exists addr.
    split; [done|]. apply sockaddr_roundtrip. }
  split; [apply (inv_sent_once _ _ _ _ Hinv)|]. split.
  { rewrite Hsize. apply (inv_count _ _ _ _ Hinv). }
  intros Hd. apply bool_decide_eq_true in Hd. unfold in_flight_count in Hsize. rewrite Hd, map_size_empty in Hsize.
  unfold held in Hsize. rewrite !length_app in Hsize. split; apply length_zero_iff_nil; lia.
Qed.

Definition demo_addr : SocketAddr := V4 [127; 0; 0; 1] 8009.

Lemma uring_sends_submitted_witness :
  exists st, uring_run (uring_new 2)
      [Accepted 0 [1; 2; 3] demo_addr; Sent 0 [1; 2; 3] (build_sockaddr demo_addr).1; Lost] st /\
    available_buffers st = 0%nat /\ in_flight_count st = 1%nat.
Proof.
  set (st1 := (submit_send true true [1; 2; 3] demo_addr (uring_new 2)).2).
  set (st2 := complete 0 (0, 0%nat) st1).
  assert (Hrun : uring_run (uring_new 2)
    ((([] ++ [Accepted 0 [1; 2; 3] demo_addr]) ++ [Sent 0 [1; 2; 3] (build_sockaddr demo_addr).1]) ++ [Lost])
    (submit_send false true [4] demo_addr st2).2).
  { eapply uring_snoc; [eapply uring_snoc; [eapply uring_snoc; [apply uring_nil|]|]|].
    - exact (step_submit true true [1; 2; 3] demo_addr (uring_new 2)).
    - apply (step_send 0 (0, 0%nat)); vm_compute; reflexivity.
    - exact (step_submit false true [4] demo_addr st2). }
  destruct (uring_sends_submitted 2 _ _ Hrun) as (_ & _ & _ & _ & Hcount & _); [done|].
  eexists. split; [exact Hrun|]. assert (Ha : available_buffers (submit_send false true [4] demo_addr st2).2 = 0%nat)
    by (vm_compute; reflexivity). split; [exact Ha|]. rewrite Ha in Hcount. unfold lost in Hcount. vm_compute in Hcount.
  vm_compute. reflexivity.
Defined.
