(* ===== verification/Endpoint.v ===== *)
(** * Endpoint: driving the QUIC connections

    [quic/src/endpoint.rs]: the endpoint owns the connection pool ([Pool]), its
    dirty bitmap ([Dirty]), the session cache ([SessionCache]) and the timing
    registry ([Timing]), and drives quiche.  Every operation is a computation in
    the monad [M] over the state of the endpoint; [now_ns] is the time at which
    it runs and packets from the socket are arguments.  The io_uring backend (an
    optional feature) and the construction of the endpoint (socket options,
    certificates) are not modelled.

    The dirty bitmap is part of the pool in the source. *)
From S2P Require Import Prelude Conc Net Quic Strategy Timing.
From S2P Require Pool TxQueue SessionCache Dirty.

#[export] Existing Instance Pool.ConnectionState_eq_dec.

Abbreviation Connecting := Pool.Connecting.
Abbreviation Ready := Pool.Ready.
Abbreviation Failed := Pool.Failed.
Abbreviation Dead := Pool.Dead.

Section endpoint.
Context {Q N : Type} `{!quiche_api Q} `{!udp_api N} (avx2 : bool).

Record QuicEndpoint : Type := {
  socket : N;
  pool : Pool.ConnectionPool (Conn := QuicConnection Q);
  dirty : Dirty.DirtyTracker;
  conn_id_map : gmap (list Z) nat;
  session_cache : option SessionCache.SessionTokenCache;
  timing_registry : TimingRegistry;
  adaptive_config : option AdaptivePrewarmConfig;
  scid_counter : Z;
}.

Abbreviation E := (M QuicEndpoint).

Definition set_socket (n : N) (e : QuicEndpoint) : QuicEndpoint :=
  {| socket := n; pool := pool e; dirty := dirty e; conn_id_map := conn_id_map e;
     session_cache := session_cache e; timing_registry := timing_registry e;
     adaptive_config := adaptive_config e; scid_counter := scid_counter e |}.
Definition set_pool (p : Pool.ConnectionPool) (e : QuicEndpoint) : QuicEndpoint :=
  {| socket := socket e; pool := p; dirty := dirty e; conn_id_map := conn_id_map e;
     session_cache := session_cache e; timing_registry := timing_registry e;
     adaptive_config := adaptive_config e; scid_counter := scid_counter e |}.
Definition set_dirty (d : Dirty.DirtyTracker) (e : QuicEndpoint) : QuicEndpoint :=
  {| socket := socket e; pool := pool e; dirty := d; conn_id_map := conn_id_map e;
     session_cache := session_cache e; timing_registry := timing_registry e;
     adaptive_config := adaptive_config e; scid_counter := scid_counter e |}.
Definition set_conn_id_map (m : gmap (list Z) nat) (e : QuicEndpoint) : QuicEndpoint :=
  {| socket := socket e; pool := pool e; dirty := dirty e; conn_id_map := m;
     session_cache := session_cache e; timing_registry := timing_registry e;
     adaptive_config := adaptive_config e; scid_counter := scid_counter e |}.
Definition set_cache (c : SessionCache.SessionTokenCache) (e : QuicEndpoint) : QuicEndpoint :=
  {| socket := socket e; pool := pool e; dirty := dirty e; conn_id_map := conn_id_map e;
     session_cache := Some c; timing_registry := timing_registry e;
     adaptive_config := adaptive_config e; scid_counter := scid_counter e |}.
Definition set_registry (r : TimingRegistry) (e : QuicEndpoint) : QuicEndpoint :=
  {| socket := socket e; pool := pool e; dirty := dirty e; conn_id_map := conn_id_map e;
     session_cache := session_cache e; timing_registry := r;
     adaptive_config := adaptive_config e; scid_counter := scid_counter e |}.
Definition set_adaptive_config (c : AdaptivePrewarmConfig) (e : QuicEndpoint) : QuicEndpoint :=
  {| socket := socket e; pool := pool e; dirty := dirty e; conn_id_map := conn_id_map e;
     session_cache := session_cache e; timing_registry := timing_registry e;
     adaptive_config := Some c; scid_counter := scid_counter e |}.
Definition set_scid_counter (n : Z) (e : QuicEndpoint) : QuicEndpoint :=
  {| socket := socket e; pool := pool e; dirty := dirty e; conn_id_map := conn_id_map e;
     session_cache := session_cache e; timing_registry := timing_registry e;
     adaptive_config := adaptive_config e; scid_counter := n |}.

(** The fields an endpoint starts with. *)
Definition endpoint_new (s : N) (cache : option SessionCache.SessionTokenCache) : QuicEndpoint :=
  {| socket := s; pool := Pool.pool_new; dirty := Dirty.tracker_new; conn_id_map := ∅;
     session_cache := cache; timing_registry := registry_new; adaptive_config := None; scid_counter := 0 |}.

(** ** The pool, the bitmap and the cache from the endpoint *)

Definition get_slot (idx : nat) : E (Pool.ConnectionSlot (Conn := QuicConnection Q)) :=
  lift_fault (fun e => match Pool.slots (pool e) !! idx with
                       | Some s => inr s
                       | None => inl (Panic "index out of bounds")
                       end).

Definition on_pool (f : Pool.ConnectionPool -> Pool.ConnectionPool) : E unit :=
  modify (fun e => set_pool (f (pool e)) e).
Definition on_slot (idx : nat) (f : Pool.ConnectionSlot -> Pool.ConnectionSlot) : E unit :=
  on_pool (Pool.on_slot idx f).

Definition find (a : SocketAddr) : E (option nat) := fun e =>
  let '(r, p) := Pool.find avx2 a (pool e) in (inr (Ok r), set_pool p e).

Definition find_or_allocate (now_ns : Z) (a : SocketAddr) : E nat := fun e =>
  match Pool.find_or_allocate now_ns a (pool e) with
  | Ok (idx, p) => (inr (Ok idx), set_pool p e)
  | Err f => (inl f, e)
  end.

Definition mark_failed (now_ns : Z) (idx : nat) : E unit := on_pool (Pool.mark_failed now_ns idx).
Definition reset_retry (idx : nat) : E unit := on_pool (Pool.reset_retry idx).

Definition mark_dirty (idx : nat) : E unit := exec dirty set_dirty (Dirty.mark_dirty idx).
Definition clear_dirty (idx : nat) : E unit := exec dirty set_dirty (Dirty.clear_dirty idx).

(** A call on the session cache, if there is one. *)
Definition with_cache {A} (none : A) (p : prog SessionCache.SessionTokenCache unit A) : E A := fun e =>
  match session_cache e with
  | None => (inr (Ok none), e)
  | Some c =>
      let '(_, c, r) := run p c in
      (match r with inl f => inl f | inr a => inr (Ok a) end, set_cache c e)
  end.

Definition cache_get (now_ns : Z) (a : SocketAddr) : E (option SessionCache.SessionToken) :=
  with_cache None (SessionCache.get now_ns a).
Definition cache_insert (now_ns : Z) (a : SocketAddr) (data : list Z) : E (Result unit string) :=
  with_cache (Ok tt) (SessionCache.insert now_ns a data).
Definition cache_invalidate (a : SocketAddr) : E unit :=
  with_cache tt (SessionCache.invalidate a).

(** Saves the session ticket of a connection, if it has one. *)
Definition save_session (now_ns : Z) (a : SocketAddr) (q : Q) : E unit :=
  match q_session q with
  | None => mret tt
  | Some data => cache_insert now_ns a data ≫= fun _ => mret tt
  end.

(** [slot.connection_mut().ok_or(NotFound)?] and a call on the connection. *)
Definition connection_of (idx : nat) : E (QuicConnection Q) :=
  slot ← get_slot idx; ok_or (Pool.connection slot) Error.NotFound.
Definition put_connection (idx : nat) (c : QuicConnection Q) : E unit :=
  on_slot idx (Pool.set_connection (Some c)).

(** The result of [send_uni] on a slot, as a value. *)
Definition slot_send_uni (now_ns : Z) (idx : nat) (data : list Z) : E (Result unit Error.t) :=
  c ← connection_of idx;
  let '(r, c) := send_uni now_ns data c in
  put_connection idx c ≫= fun _ => mret r.

Definition try_enqueue (idx : nat) (data : list Z) : E TxQueue.SendStatus :=
  c ← connection_of idx;
  let '(_, q, r) := run (TxQueue.try_enqueue TxQueue.DEFAULT_TX_QUEUE_CAPACITY data) (tx_queue c) in
  put_connection idx (with_queue q c) ≫= fun _ =>
  match r with inl f => panic f | inr st => mret st end.

Definition has_pending (c : QuicConnection Q) : bool := 0 <? TxQueue.count (tx_queue c).

Definition generate_scid : E (list Z) := fun e =>
  let n := wrapping_add64 (scid_counter e) 1 in
  (inr (Ok ((fun i => Z.shiftr n (8 * i) mod 256) <$> seqZ 0 8)), set_scid_counter n e).

(** ** Driving a slot *)

(** Packets until quiche has no more, or the socket or quiche fails; [fuel]
    bounds the packets the connection has to send. *)
Fixpoint send_loop (fuel : nat) (c : QuicConnection Q) (net : N) (sent : nat)
    : Result nat Error.t * QuicConnection Q * N :=
  match conn_send c with
  | (Ok (packet, to), c) =>
      match send_to packet to net with
      | (Ok _, net) =>
          match fuel with
          | O => (Ok (S sent), c, net)
          | S fuel => send_loop fuel c net (S sent)
          end
      | (Err _, net) => (Err Error.Io, c, net)
      end
  | (Err Error.WouldBlock, c) => (Ok sent, c, net)
  | (Err e, c) => (Err e, c, net)
  end.

Definition send_pending_packets (idx : nat) : E nat :=
  c ← connection_of idx;
  net ← gets socket;
  let '(r, c, net) := send_loop (q_pending (inner c)) c net 0 in
  put_connection idx c ≫= fun _ =>
  modify (set_socket net) ≫= fun _ =>
  match r with Ok n => mret n | Err e => fail e end.

Definition MAX_RETRIES : nat := 5.

(** The attempts to send one queued transaction. *)
Fixpoint try_send (attempts : nat) (now_ns : Z) (data : list Z) (c : QuicConnection Q) : bool * QuicConnection Q :=
  match attempts with
  | O => (false, c)
  | S attempts =>
      match send_uni now_ns data c with
      | (Ok _, c) => (true, c)
      | (Err Error.WouldBlock, c) => try_send attempts now_ns data c
      | (Err _, c) => (false, c)
      end
  end.

(** The transactions that waited for the handshake, oldest first, until one
    cannot be sent.  A queue has at most as many rounds as packets, and one. *)
Fixpoint drain_loop (fuel : nat) (now_ns : Z) (c : QuicConnection Q) (count : nat)
    : fault + nat * QuicConnection Q :=
  let '(_, q, r) := run (TxQueue.try_dequeue TxQueue.DEFAULT_TX_QUEUE_CAPACITY) (tx_queue c) in
  let c := with_queue q c in
  match r with
  | inl f => inl f
  | inr None => inr (count, c)
  | inr (Some (buf, len)) =>
      if (length buf <? Z.to_nat len)%nat then inl (Panic "range end index out of range for slice")
      else
        match try_send MAX_RETRIES now_ns (take (Z.to_nat len) buf) c with
        | (true, c) => match fuel with O => inr (S count, c) | S fuel => drain_loop fuel now_ns c (S count) end
        | (false, c) => inr (count, c)
        end
  end.

Definition drain_queue (now_ns : Z) (idx : nat) : E nat :=
  c ← connection_of idx;
  match drain_loop (Z.to_nat (TxQueue.count (tx_queue c))) now_ns c 0 with
  | inl f => panic f
  | inr (n, c) => put_connection idx c ≫= fun _ => mret n
  end.

(** Records how long the handshake took, and saves the session. *)
Definition finish_handshake (now_ns : Z) (idx : nat) : E unit :=
  slot ← get_slot idx;
  c ← ok_or (Pool.connection slot) Error.NotFound;
  when (0 <? Pool.connect_start_ns slot)
    (token ← (if q_is_in_early_data (inner c) then mret (M := E) None else cache_get now_ns (Pool.addr slot));
     let category := if q_is_in_early_data (inner c) then ZeroRtt
                     else match token with Some _ => OneRtt | None => Handshake end in
     let handshake_time_ns := (now_ns - Pool.connect_start_ns slot) mod U64 in
     modify (fun e => set_registry
       (record_timing now_ns (Pool.addr slot) handshake_time_ns category (timing_registry e)) e)) ≫= fun _ =>
  save_session now_ns (Pool.addr slot) (inner c).

(** After the queue was drained: the packets go out, the mark is cleared if the
    queue is empty. *)
Definition after_drain (now_ns : Z) (idx flushed_count : nat) : E unit :=
  when (0 <? flushed_count)%nat (send_pending_packets idx ≫= fun _ => mret tt) ≫= fun _ =>
  slot ← get_slot idx;
  when (match Pool.connection slot with Some c => negb (has_pending c) | None => false end)
    (clear_dirty idx) ≫= fun _ =>
  finish_handshake now_ns idx.

(** What follows the confirmation of a handshake: a rejected or closed connection
    is given up, otherwise the queue is drained. *)
Definition confirmed (now_ns : Z) (idx : nat) : E unit :=
  c ← connection_of idx;
  match q_peer_error (inner c) with
  | Some error_code =>
      (if error_code =? 2 then on_slot idx (Pool.set_state Dead) else mark_failed now_ns idx) ≫= fun _ =>
      clear_dirty idx
  | None =>
      if q_is_closed (inner c) then mark_failed now_ns idx ≫= fun _ => clear_dirty idx
      else
        on_slot idx (Pool.set_state Ready) ≫= fun _ =>
        drain_queue now_ns idx ≫= after_drain now_ns idx
  end.

Definition drive_slot (now_ns : Z) (idx : nat) : E unit :=
  slot ← get_slot idx;
  let was_ready := bool_decide (Pool.slot_state slot = Ready) in
  send_pending_packets idx ≫= fun _ =>
  c ← connection_of idx;
  when (q_is_handshake_confirmed (inner c) && negb was_ready) (confirmed now_ns idx).

Definition flush_slot : Z -> nat -> E unit := drive_slot.

(** ** Receiving *)

(** A packet for the connection of its source address; [peer] selects the
    address under which a session ticket is saved. *)
Definition recv_packet (now_ns : Z) (peer : Pool.ConnectionSlot (Conn := QuicConnection Q) -> SocketAddr)
    (data : list Z) (from : SocketAddr) : E unit :=
  r ← find from;
  match r with
  | None => mret tt
  | Some idx =>
      slot ← get_slot idx;
      if bool_decide (Pool.slot_state slot = Dead) && negb (Pool.can_retry now_ns slot) then mret tt
      else
        match Pool.connection slot with
        | None => mret tt
        | Some c =>
            let '(r, q) := q_recv data from (inner c) in
            put_connection idx (with_inner q c) ≫= fun _ =>
            match r with
            | Ok _ =>
                on_slot idx (Pool.touch now_ns) ≫= fun _ =>
                when (q_is_established q) (save_session now_ns (peer slot) q)
            | Err Done => mret tt
            | Err (Other _) => mark_failed now_ns idx
            end
        end
  end.

Definition handle_recv (now_ns : Z) (data : list Z) (from : SocketAddr) : E unit :=
  recv_packet now_ns (fun _ => from) data from.

(** ** Connecting *)

(** One round of the wait for a handshake: the time since the start, the packets
    that arrived, and whether the socket failed. *)
Record round : Type := {
  elapsed_ms : Z; round_now_ns : Z; round_packets : list (list Z * SocketAddr); round_io_error : bool }.

(** Restores a cached session that is less than an hour old. *)
Definition restore_session (now_ns : Z) (a : SocketAddr) (conn : Q) : E Q :=
  token ← cache_get now_ns a;
  match token with
  | None => mret conn
  | Some token =>
      if (now_ns - SessionCache.timestamp_ns token) mod U64 <? 3600000000000 then
        match q_set_session (SessionCache.as_slice token) conn with
        | (Ok _, conn) => on_pool (Pool.count_zero_rtt 1 0) ≫= fun _ => mret conn
        | (Err _, conn) => mret conn
        end
      else cache_invalidate a ≫= fun _ => mret conn
  end.

(** [connect] up to the choice between the blocking and the non-blocking mode;
    [inl]: the connection was ready. *)
Definition connect_start (now_ns : Z) (a : SocketAddr) : E (nat + nat) :=
  idx ← find_or_allocate now_ns a;
  slot ← get_slot idx;
  if bool_decide (Pool.slot_state slot = Ready) then mret (inl idx)
  else
    scid ← generate_scid;
    match q_connect scid a with
    | Err e => fail (Error.Quic e)
    | Ok conn =>
        conn ← restore_session now_ns a conn;
        on_slot idx (Pool.set_connect_start_ns now_ns) ≫= fun _ =>
        on_pool (Pool.store_connection conn_state now_ns idx (connection_new now_ns conn)) ≫= fun _ =>
        modify (fun e => set_conn_id_map (<[scid := idx]> (conn_id_map e)) e) ≫= fun _ =>
        drive_slot now_ns idx ≫= fun _ =>
        mret (inr idx)
    end.

(** [connect(addr, false)] *)
Definition connect (now_ns : Z) (a : SocketAddr) : E nat :=
  r ← connect_start now_ns a; mret (match r with inl idx | inr idx => idx end).

(** The session ticket is taken once, and waited for until 300 ms have passed. *)
Definition take_ticket (now_ns : Z) (a : SocketAddr) (q : Q) (received : bool) : E bool :=
  if received then mret true
  else
    match q_session q with
    | None => mret false
    | Some data =>
        cached ← gets (fun e => match session_cache e with Some _ => true | None => false end);
        if cached : bool then
          r ← cache_insert now_ns a data; mret (match r with Ok _ => true | Err _ => false end)
        else mret false
    end.

Fixpoint wait_handshake (end_ns : Z) (a : SocketAddr) (idx : nat) (ticket : bool) (rs : list round) : E nat :=
  match rs with
  | [] => mark_failed end_ns idx ≫= fun _ => fail Error.Timeout
  | r :: rs =>
      if 3000 <=? elapsed_ms r then mark_failed (round_now_ns r) idx ≫= fun _ => fail Error.Timeout
      else
        for_each (round_packets r) (fun '(data, from) => handle_recv (round_now_ns r) data from) ≫= fun _ =>
        if round_io_error r then fail Error.Io
        else
          drive_slot (round_now_ns r) idx ≫= fun _ =>
          slot ← get_slot idx;
          match Pool.connection slot with
          | None => wait_handshake end_ns a idx ticket rs
          | Some c =>
              if q_is_handshake_confirmed (inner c) then
                on_slot idx (Pool.set_state Ready) ≫= fun _ =>
                ticket ← take_ticket (round_now_ns r) a (inner c) ticket;
                if negb ticket && (elapsed_ms r <? 300) then wait_handshake end_ns a idx ticket rs
                else mret idx
              else if q_is_closed (inner c) then
                mark_failed (round_now_ns r) idx ≫= fun _ => fail Error.Closed
              else wait_handshake end_ns a idx ticket rs
          end
  end.

(** [connect(addr, true)]; [rs] are the rounds before the timeout, at [end_ns]. *)
Definition connect_blocking (now_ns end_ns : Z) (a : SocketAddr) (rs : list round) : E nat :=
  r ← connect_start now_ns a;
  match r with
  | inl idx => mret idx
  | inr idx => wait_handshake end_ns a idx false rs
  end.

(** ** Sending *)

Definition send (now_ns : Z) (a : SocketAddr) (data : list Z) : E TxQueue.SendStatus :=
  r ← find a;
  idx ← match r with Some idx => mret (M := E) idx | None => connect now_ns a end;
  slot ← get_slot idx;
  match Pool.slot_state slot with
  | Pool.Ready =>
      r ← slot_send_uni now_ns idx data;
      match r with
      | Ok _ => flush_slot now_ns idx ≫= fun _ => reset_retry idx ≫= fun _ => mret TxQueue.Sent
      | Err Error.WouldBlock => try_enqueue idx data
      | Err e => fail e
      end
  | Pool.Connecting =>
      c ← ok_or (Pool.connection slot) Error.NotFound;
      early ← (if q_is_in_early_data (inner c)
               then r ← slot_send_uni now_ns idx data; mret (match r with Ok _ => true | Err _ => false end)
               else mret (M := E) false);
      if early : bool then
        on_pool (Pool.count_zero_rtt 0 1) ≫= fun _ =>
        flush_slot now_ns idx ≫= fun _ => reset_retry idx ≫= fun _ => mret TxQueue.SentEarlyData
      else
        status ← try_enqueue idx data;
        mark_dirty idx ≫= fun _ => mret status
  | Pool.Failed =>
      connect now_ns a ≫= fun _ =>
      status ← try_enqueue idx data;
      mark_dirty idx ≫= fun _ => mret status
  | Pool.Dead => mret (TxQueue.Dead (Pool.retry_count slot))
  end.

(** ** Polling *)

(** The connection is marked again while it has work; a dead or failed one is not. *)
Definition remark (idx : nat) : E unit :=
  slot ← get_slot idx;
  match Pool.slot_state slot with
  | Pool.Dead | Pool.Failed => mret tt
  | Pool.Connecting => mark_dirty idx
  | Pool.Ready =>
      when (match Pool.connection slot with Some c => has_pending c | None => false end) (mark_dirty idx)
  end.

Definition drive_dirty (now_ns : Z) (idx : nat) : E unit :=
  attempt (drive_slot now_ns idx) ≫= fun _ => remark idx.

(** One call of [recvmmsg]: for every message its length and its source address,
    unless that is of another family; the messages are in the receive buffers. *)
Definition recv_batch (msgs : list (nat * option SocketAddr)) : list (nat * SocketAddr) :=
  omap (fun '(len, from) => (fun a => (len, a)) <$> from) msgs.

(** What [poll] takes for the packets of a batch: the result at position [i] with
    the bytes of receive buffer [i]. *)
Definition batch_packets (bufs : list (list Z)) (results : list (nat * SocketAddr)) : list (list Z * SocketAddr) :=
  imap (fun i '(len, from) => (take len (default [] (bufs !! i)), from)) results.

(** [packets] are those of the calls to [recv_batch], in order; [io_error]: the
    last call failed. *)
Definition poll (now_ns : Z) (packets : list (list Z * SocketAddr)) (io_error : bool) : E unit :=
  for_each packets (fun '(data, from) => recv_packet now_ns Pool.addr data from) ≫= fun _ =>
  if io_error then fail Error.Io
  else
    slots ← exec dirty set_dirty (Dirty.poll_dirty 0);
    for_each slots (drive_dirty now_ns).

(** ** Keeping connections warm *)

Definition keep_alive_if_idle (now_ns : Z) (a : SocketAddr) (idle_threshold_ns : Z) : E unit :=
  r ← find a;
  match r with
  | None => mret tt
  | Some idx =>
      slot ← get_slot idx;
      when (idle_threshold_ns <? Pool.idle_time_ns now_ns slot) (drive_slot now_ns idx)
  end.

Definition prewarm_one (now_ns : Z) (a : SocketAddr) : E unit :=
  r ← find a;
  match r with
  | Some _ => mret tt
  | None => attempt (connect now_ns a) ≫= fun _ => mret tt
  end.

Definition prewarm (now_ns : Z) (addrs : list SocketAddr) : E unit := for_each addrs (prewarm_one now_ns).

(** ** Sending without waiting *)

(** Early data on a connection that takes it, or [NotEstablished]. *)
Definition send_early (now_ns : Z) (idx : nat) (data : list Z) (otherwise : E unit) : E unit :=
  slot ← get_slot idx;
  if match Pool.connection slot with Some c => q_is_in_early_data (inner c) | None => false end then
    on_pool (Pool.count_zero_rtt 0 1) ≫= fun _ =>
    r ← slot_send_uni now_ns idx data;
    match r with Ok _ => flush_slot now_ns idx | Err e => fail e end
  else otherwise ≫= fun _ => fail Error.NotEstablished.

Definition send_nonblocking (now_ns : Z) (a : SocketAddr) (data : list Z) : E unit :=
  r ← find a;
  match r with
  | Some idx =>
      slot ← get_slot idx;
      match Pool.slot_state slot with
      | Pool.Ready =>
          r ← slot_send_uni now_ns idx data;
          match r with Ok _ => flush_slot now_ns idx | Err e => fail e end
      | Pool.Connecting =>
          send_early now_ns idx data (attempt (drive_slot now_ns idx) ≫= fun _ => mret tt)
      | Pool.Failed => attempt (connect now_ns a) ≫= fun _ => fail Error.NotEstablished
      | Pool.Dead => fail (Error.Dead (Pool.retry_count slot))
      end
  | None =>
      token ← cache_get now_ns a;
      match token with
      | Some _ => idx ← connect now_ns a; send_early now_ns idx data (mret tt)
      | None => attempt (connect now_ns a) ≫= fun _ => fail Error.NotEstablished
      end
  end.

(** One iteration of [run_loop] and [run_tight_loop]. *)
Definition loop_step (now_ns : Z) (packets : list (list Z * SocketAddr)) (io_error : bool) (callback : E unit) : E unit :=
  attempt (poll now_ns packets io_error) ≫= fun _ => callback.

(** One iteration of [run_hot_loop]; [tx]: what [get_tx] returned. *)
Definition run_hot_loop_step (now_ns : Z) (packets : list (list Z * SocketAddr)) (io_error : bool)
    (addrs : list SocketAddr) (tx : option (SocketAddr * list Z)) : E unit :=
  attempt (poll now_ns packets io_error) ≫= fun _ =>
  prewarm now_ns addrs ≫= fun _ =>
  match tx with
  | None => mret tt
  | Some (a, data) => attempt (send_nonblocking now_ns a data) ≫= fun _ => mret tt
  end.

(** ** Queries *)

Definition connection_state (a : SocketAddr) : E (option Pool.ConnectionState) :=
  r ← find a;
  match r with
  | None => mret None
  | Some idx => slot ← get_slot idx; mret (Some (Pool.slot_state slot))
  end.

Definition is_ready (a : SocketAddr) : E bool :=
  st ← connection_state a; mret (bool_decide (st = Some Ready)).

Definition has_early_data (a : SocketAddr) : E bool :=
  r ← find a;
  match r with
  | None => mret false
  | Some idx =>
      slot ← get_slot idx;
      mret (match Pool.connection slot with Some c => q_is_in_early_data (inner c) | None => false end)
  end.

Definition lookahead_solana_slots (a : SocketAddr) : E Z :=
  lift_fault (fun e => calculate_lookahead_solana_slots (adaptive_config e) (timing_registry e) a).

End endpoint.
