(* ===== verification/EndpointSpec.v ===== *)
(** * EndpointSpec: the endpoint keeps its invariant and never panics

    The invariant joins those of the components: the pool is a map from
    addresses to slots, every transaction queue is well formed, and so are the
    dirty bitmap, the session cache and the timing registry.  [keeps m P]: run in
    a state with the invariant, [m] does not fault, restores the invariant, and a
    value it returns satisfies [P]; every operation of [Endpoint] does. *)
From S2P Require Import Prelude Conc Net Quic QuicModel Strategy Timing TimingSpec Endpoint.
From S2P Require Pool PoolSpec TxQueue SessionCache Dirty.

Set Default Proof Using "Type".

Abbreviation CAP := TxQueue.DEFAULT_TX_QUEUE_CAPACITY.

Section spec.
Context {Q N : Type} `{!quiche_api Q} `{!udp_api N} (avx2 : bool).
Abbreviation EP := (QuicEndpoint (Q := Q) (N := N)).
Abbreviation slot := (Pool.ConnectionSlot (Conn := QuicConnection Q)).
Implicit Types e : EP.

(** ** Invariant *)

Definition conn_ok (c : QuicConnection Q) : Prop := TxQueue.queue_ok CAP (tx_queue c).
Definition slot_ok (s : slot) : Prop := forall c, Pool.connection s = Some c -> conn_ok c.

Record endpoint_ok e : Prop := {
  eo_pool : PoolSpec.pool_inv (Pool.slots (pool e));
  eo_slots : forall i s, Pool.slots (pool e) !! i = Some s -> slot_ok s;
  eo_dirty : Dirty.tracker_ok (dirty e);
  eo_cache : forall c, session_cache e = Some c -> SessionCache.cache_shape c;
  eo_registry : registry_ok (timing_registry e);
  eo_adaptive : forall c, adaptive_config e = Some c -> config_sane c;
}.

Definition keeps {A} (m : M EP A) (P : A -> Prop) : Prop :=
  forall e, endpoint_ok e -> safe m e (fun r e' => endpoint_ok e' /\ forall a, r = Ok a -> P a).

Abbreviation anything := (fun _ => True).

Lemma keeps_weaken {A} (m : M EP A) (P P' : A -> Prop) : keeps m P -> (forall a, P a -> P' a) -> keeps m P'.
Proof. intros Hm HP e He. eapply safe_mono; [by apply Hm|]. intros r e' [Hok Hr]. split; [done|]. eauto. Qed.

Lemma keeps_ret {A} (a : A) (P : A -> Prop) : P a -> keeps (mret a) P.
Proof. intros HP e He. apply safe_ret. split; [done|]. by intros b [= <-]. Qed.

Lemma keeps_fail {A} x (P : A -> Prop) : keeps (fail x) P.
Proof. intros e He. by split. Qed.

Lemma keeps_bind {A B} (m : M EP A) (k : A -> M EP B) P R :
  keeps m P -> (forall a, P a -> keeps (k a) R) -> keeps (m ≫= k) R.
Proof.
  intros Hm Hk e He. apply safe_bind. eapply safe_mono; [by apply Hm|].
  intros [a|x] e' [Hok HP]; [|by split]. apply Hk; [by apply HP|done].
Qed.

Lemma keeps_seq {A B} (m : M EP A) (k : A -> M EP B) P :
  keeps m anything -> (forall a, keeps (k a) P) -> keeps (m ≫= k) P.
Proof. intros Hm Hk. eapply keeps_bind; [exact Hm|]. intros a _. apply Hk. Qed.

Lemma keeps_attempt {A} (m : M EP A) P : keeps m P -> keeps (attempt m) (fun r => forall a, r = Ok a -> P a).
Proof.
  intros Hm e He. apply safe_attempt. eapply safe_mono; [by apply Hm|]. intros r e' [Hok HP].
  split; [done|]. by intros r' [= <-].
Qed.

Lemma keeps_when (b : bool) (m : M EP unit) : keeps m anything -> keeps (when b m) anything.
Proof. intros Hm. destruct b; [done|]. by apply keeps_ret. Qed.

Lemma keeps_for_each {A} (l : list A) (f : A -> M EP unit) :
  (forall x, x ∈ l -> keeps (f x) anything) -> keeps (for_each l f) anything.
Proof.
  intros Hf. induction l as [|x l IH]; [by apply keeps_ret|]. cbn [for_each].
  apply keeps_seq; [apply Hf; left|]. intros _. apply IH. intros y Hy. apply Hf. by right.
Qed.

Lemma keeps_ok_or {A} (o : option A) x (P : A -> Prop) : (forall a, o = Some a -> P a) -> keeps (ok_or o x) P.
Proof. intros HP. destruct o; [by apply keeps_ret, HP|apply keeps_fail]. Qed.

Lemma keeps_gets {A} (f : EP -> A) (P : A -> Prop) : (forall e, endpoint_ok e -> P (f e)) -> keeps (gets f) P.
Proof. intros Hf e He. split; [done|]. intros a [= <-]. by apply Hf. Qed.

Lemma keeps_modify (f : EP -> EP) : (forall e, endpoint_ok e -> endpoint_ok (f e)) -> keeps (modify f) anything.
Proof. intros Hf e He. split; [by apply Hf|done]. Qed.

(** ** Components *)

Abbreviation in_range := (fun idx : nat => (idx < Pool.MAX_POOL_SIZE)%nat).

Lemma keeps_get_slot idx : in_range idx -> keeps (get_slot idx) slot_ok.
Proof.
  intros Hi e He. unfold safe, get_slot, lift_fault.
  destruct (lookup_lt_is_Some_2 (Pool.slots (pool e)) idx) as [s Hs].
  { by rewrite (PoolSpec.inv_length _ (eo_pool _ He)). }
  rewrite Hs. split; [done|]. intros a [= <-]. by eapply eo_slots.
Qed.

(** A change of the pool that leaves the addresses alone. *)
Lemma set_pool_ok e p :
  endpoint_ok e -> PoolSpec.pool_inv (Pool.slots p) -> (forall i s, Pool.slots p !! i = Some s -> slot_ok s) ->
  endpoint_ok (set_pool p e).
Proof. intros [] Hp Hs. by split. Qed.

Definition slot_update (f : slot -> slot) : Prop :=
  forall s, (Pool.addr (f s) = Pool.addr s /\ Pool.occupied (f s) = Pool.occupied s) /\ (slot_ok s -> slot_ok (f s)).

Lemma alter_slots_ok e i f p :
  endpoint_ok e -> slot_update f -> Pool.slots p = alter f i (Pool.slots (pool e)) -> endpoint_ok (set_pool p e).
Proof.
  intros He Hf Hp. apply set_pool_ok; [done|rewrite Hp|rewrite Hp].
  - apply PoolSpec.pool_inv_same; [|apply He]. intros s. apply Hf.
  - intros j s Hj. apply list_lookup_alter_cases in Hj as [(-> & s0 & Hs0 & ->)|[_ Hj]]; [|by eapply eo_slots].
    apply Hf. by eapply eo_slots.
Qed.

Lemma keeps_on_slot idx f : slot_update f -> keeps (on_slot idx f) anything.
Proof. intros Hf. apply keeps_modify. intros e He. by eapply (alter_slots_ok e idx f). Qed.

Lemma keeps_put_connection idx c : conn_ok c -> keeps (put_connection idx c) anything.
Proof.
  intros Hc. apply keeps_on_slot. intros s. split; [done|]. intros _ c' [= <-]. done.
Qed.

Lemma keeps_connection_of idx : in_range idx -> keeps (connection_of idx) conn_ok.
Proof.
  intros Hi. eapply keeps_bind; [by apply keeps_get_slot|]. intros s Hs. by apply keeps_ok_or.
Qed.

(** Changes of one slot that do not concern its connection. *)
Lemma slot_update_same f :
  (forall s, Pool.addr (f s) = Pool.addr s /\ Pool.occupied (f s) = Pool.occupied s /\
             Pool.connection (f s) = Pool.connection s) -> slot_update f.
Proof. intros Hf s. destruct (Hf s) as (H1 & H2 & H3). split; [done|]. intros Hs c. rewrite H3. apply Hs. Qed.

Lemma keeps_mark_failed now idx : keeps (mark_failed now idx) anything.
Proof.
  apply keeps_modify. intros e He. apply (alter_slots_ok e idx (Pool.fail_slot now)); [done| |].
  - apply slot_update_same. intros s. unfold Pool.fail_slot, Pool.increment_retry.
    by destruct (_ <=? _).
  - unfold Pool.mark_failed. destruct (match _ with Some _ => _ | None => _ end); [|done].
    unfold Pool.clear_active, Pool.on_active. by destruct (idx <? 64)%nat.
Qed.

Lemma keeps_reset_retry idx : keeps (reset_retry idx) anything.
Proof. apply keeps_modify. intros e He. by apply (alter_slots_ok e idx (fun s => Pool.set_retry_deadline_ns 0 (Pool.set_retry_count 0 s))); [|apply slot_update_same|]. Qed.

Lemma keeps_count_zero_rtt a b : keeps (on_pool (Pool.count_zero_rtt a b)) anything.
Proof.
  apply keeps_modify. intros e He. apply set_pool_ok; [done|apply He|]. intros i s. apply (eo_slots _ He).
Qed.

Lemma scan_in_range target (l : list slot) i j :
  Pool.scan_scalar target l i = Some j -> (j < i + length l)%nat.
Proof.
  pose proof (PoolSpec.scan_scalar_spec target l i) as H. destruct (Pool.scan_scalar target l i); [|done].
  intros [= <-]. destruct H as (k & s & -> & Hk & _). apply lookup_lt_Some in Hk. lia.
Qed.

Lemma keeps_find a : keeps (find avx2 a) (fun r => forall idx, r = Some idx -> in_range idx).
Proof.
  intros e He. unfold safe, find, Pool.find.
  pose proof (PoolSpec.inv_length _ (eo_pool _ He)) as Hl.
  assert (Hf : exists r p, (if avx2 then Pool.find_simd_avx2 (Pool.socket_addr_to_u128 a) (pool e)
                            else Pool.find_scalar (Pool.socket_addr_to_u128 a) (pool e)) = (r, p) /\
             Pool.slots p = Pool.slots (pool e) /\ forall idx, r = Some idx -> in_range idx).
  { assert (Hs : forall r, r = Pool.scan_scalar (Pool.socket_addr_to_u128 a) (Pool.slots (pool e)) 0 ->
        exists r' p, Pool.count_lookup r (pool e) = (r', p) /\ Pool.slots p = Pool.slots (pool e) /\
          forall idx, r' = Some idx -> in_range idx).
    { intros r ->. eexists _, _. split; [reflexivity|]. split; [by destruct (Pool.scan_scalar _ _ _)|].
      intros idx Hx. apply scan_in_range in Hx. lia. }
    destruct avx2; apply Hs; [|done]. apply PoolSpec.scan_chunks_scalar. by rewrite Hl. }
  destruct Hf as (r & p & -> & Hp & Hr). split.
  - apply set_pool_ok; [done|rewrite Hp; apply He|rewrite Hp]. intros i s. apply (eo_slots _ He).
  - by intros b [= <-].
Qed.

Lemma keeps_find_or_allocate now a : keeps (find_or_allocate now a) in_range.
Proof.
  intros e He. unfold safe, find_or_allocate.
  destruct (PoolSpec.find_or_allocate_cases (pool e) now a (eo_pool _ He)) as (idx & p & -> & Hinv & Hi & Hc).
  split; [|by intros b [= <-]]. apply set_pool_ok; [done|done|].
  destruct Hc as [[_ ->]|(_ & -> & _)]; intros i s; [apply (eo_slots _ He)|].
  intros Hs. apply list_lookup_alter_cases in Hs as [(-> & s0 & Hs0 & ->)|[_ Hs]]; [|by eapply eo_slots].
  by intros c.
Qed.

Lemma set_dirty_ok e t : endpoint_ok e -> Dirty.tracker_ok t -> endpoint_ok (set_dirty t e).
Proof. intros [] Ht. by split. Qed.

Lemma keeps_mark_dirty idx : in_range idx -> keeps (mark_dirty idx) anything.
Proof.
  intros Hi e He. unfold safe, mark_dirty, exec.
  destruct (Dirty.run_mark_dirty idx (dirty e) (eo_dirty _ He) Hi) as (ev & t & -> & Ht & _).
  split; [by apply set_dirty_ok|done].
Qed.

Lemma keeps_clear_dirty idx : in_range idx -> keeps (clear_dirty idx) anything.
Proof.
  intros Hi e He. unfold safe, clear_dirty, exec.
  destruct (Dirty.run_clear_dirty idx (dirty e) (eo_dirty _ He) Hi) as (ev & t & -> & Ht & _).
  split; [by apply set_dirty_ok|done].
Qed.

Lemma keeps_poll_dirty : keeps (exec dirty set_dirty (Dirty.poll_dirty 0)) (Forall in_range).
Proof.
  intros e He. unfold safe, exec.
  destruct (Dirty.run_poll_dirty 0 (dirty e) (eo_dirty _ He)) as (ev & l & -> & _ & Hl).
  split; [by apply set_dirty_ok|]. intros a [= <-]. apply Forall_forall. intros i Hi. by apply Hl in Hi as [? _].
Qed.

(** A call on the session cache. *)
Definition cache_call {A} (p : prog SessionCache.SessionTokenCache unit A) : Prop :=
  forall c, SessionCache.cache_shape c ->
    exists ev c' a, run p c = (ev, c', inr a) /\ SessionCache.cache_shape c'.

Lemma call_get now a : cache_call (SessionCache.get now a).
Proof.
  intros c Hc. destruct (SessionCache.run_get now a c Hc) as (s0 & s1 & _ & ->). eexists _, _, _. by split.
Qed.

Lemma call_insert now a d : cache_call (SessionCache.insert now a d).
Proof.
  intros c Hc. destruct (Nat.le_gt_cases (length d) (Z.to_nat 1024)) as [Hd|Hd].
  - destruct (SessionCache.insert_shape now a d c Hc Hd) as (c' & s0 & s1 & j & -> & Hc' & _). eexists _, _, _. by split.
  - rewrite SessionCache.run_insert_too_long by done. eexists _, _, _. by split.
Qed.

Lemma call_invalidate a : cache_call (SessionCache.invalidate a).
Proof.
  intros c Hc. destruct (SessionCache.shape_shard c a Hc) as (s0 & s1 & Hs). unfold SessionCache.invalidate.
  rewrite (SessionCache.run_invalidate_scan _ _ _ _ _ _ Hs) by done. eexists _, _, _. split; [reflexivity|].
  destruct Hc as (Hl & H2 & He). split; [|split]; cbn [SessionCache.shards SessionCache.evict_counter SessionCache.with_shard].
  - by rewrite length_insert.
  - apply Forall_insert; [done|]. by rewrite length_app, SessionCache.slots_clear_length.
  - done.
Qed.

Lemma keeps_with_cache {A} (none : A) p : cache_call p -> keeps (with_cache none p) anything.
Proof.
  intros Hp e He. unfold safe, with_cache. destruct (session_cache e) as [c|] eqn:Hc; [|by split].
  destruct (Hp c (eo_cache _ He _ Hc)) as (ev & c' & a & -> & Hc'). split; [|done].
  destruct He. split; try done. by intros c0 [= <-].
Qed.

Lemma keeps_cache_get now a : keeps (cache_get now a) anything.
Proof. apply keeps_with_cache, call_get. Qed.
Lemma keeps_cache_insert now a d : keeps (cache_insert now a d) anything.
Proof. apply keeps_with_cache, call_insert. Qed.
Lemma keeps_cache_invalidate a : keeps (cache_invalidate a) anything.
Proof. apply keeps_with_cache, call_invalidate. Qed.

Lemma keeps_save_session now a q : keeps (save_session now a q) anything.
Proof.
  unfold save_session. destruct (q_session q); [|by apply keeps_ret].
  apply keeps_seq; [apply keeps_cache_insert|]. intros _. by apply keeps_ret.
Qed.

(** ** Connections *)

(** Calls on a connection do not touch its queue. *)
Lemma send_uni_queue now data (c : QuicConnection Q) : tx_queue (send_uni now data c).2 = tx_queue c.
Proof.
  unfold send_uni. destruct (q_is_closed _); [done|]. destruct (_ && _); [done|].
  by destruct (q_stream_send _ _ _) as [[|[]] q].
Qed.

Lemma conn_send_queue (c : QuicConnection Q) : tx_queue (conn_send c).2 = tx_queue c.
Proof. unfold conn_send. by destruct (q_send _) as [[|[]] q]. Qed.

Lemma send_loop_queue fuel : forall (c : QuicConnection Q) (net : N) n,
  tx_queue (send_loop fuel c net n).1.2 = tx_queue c.
Proof.
  induction fuel as [|fuel IH]; intros c net n; cbn [send_loop];
    pose proof (conn_send_queue c) as Hq; destruct (conn_send c) as [[[p to]|[]] c'];
    try done; destruct (send_to p to net) as [[|] net']; try done.
  rewrite IH. done.
Qed.

Lemma try_send_queue n now data : forall c : QuicConnection Q, tx_queue (try_send n now data c).2 = tx_queue c.
Proof.
  induction n as [|n IH]; intros c; cbn [try_send]; [done|].
  pose proof (send_uni_queue now data c) as Hq. destruct (send_uni now data c) as [[|[]] c']; simpl in *; try done.
  by rewrite IH.
Qed.

(** Draining the queue of a connection does not fault. *)
Lemma drain_loop_ok now fuel : forall (c : QuicConnection Q) n,
  conn_ok c -> exists m c', drain_loop fuel now c n = inr (m, c') /\ conn_ok c'.
Proof.
  unfold conn_ok. induction fuel as [|fuel IH]; intros c n Hc; cbn [drain_loop];
    pose proof (TxQueue.run_try_dequeue CAP ltac:(done) (tx_queue c) Hc) as Hd;
    (destruct (TxQueue.packets CAP (tx_queue c)) as [|p ps];
     [rewrite Hd; eexists _, _; by split|]);
    destruct Hd as (q' & buf & len & Hq' & _ & _ & Hlen & ->);
    (rewrite (proj2 (Nat.ltb_ge _ _) Hlen));
    pose proof (try_send_queue MAX_RETRIES now (take (Z.to_nat len) buf) (with_queue q' c)) as Ht;
    destruct (try_send _ _ _ _) as [[] c']; simpl in Ht;
    try (eexists _, _; split; [reflexivity|]; by rewrite Ht).
  apply IH. by rewrite Ht.
Qed.

Create HintDb endpoint discriminated.
#[local] Hint Resolve keeps_mark_failed keeps_reset_retry keeps_count_zero_rtt keeps_find keeps_find_or_allocate
  keeps_cache_get keeps_cache_insert keeps_cache_invalidate keeps_save_session keeps_get_slot
  keeps_connection_of keeps_mark_dirty keeps_clear_dirty keeps_put_connection : endpoint.

(** One step of a proof that a computation keeps the invariant. *)
Ltac keeps_step :=
  lazymatch goal with
  | |- keeps (mret _) _ => apply keeps_ret
  | |- keeps (fail _) _ => apply keeps_fail
  | |- keeps (when _ _) _ => apply keeps_when
  | |- keeps (mbind _ _) _ =>
      first [ apply keeps_seq; [solve [eauto with endpoint nocore]|intros ?]
            | eapply keeps_bind; [solve [eauto with endpoint nocore]|intros ? ?]
            | apply keeps_seq; [|intros ?] ]
  | |- keeps (match ?x with _ => _ end) _ => destruct x eqn:?
  end.

Lemma keeps_slot_send_uni now idx data : in_range idx -> keeps (slot_send_uni now idx data) anything.
Proof.
  intros Hi. eapply keeps_bind; [by apply keeps_connection_of|]. intros c Hc.
  pose proof (send_uni_queue now data c) as Hq. destruct (send_uni now data c) as [r c']. simpl in Hq.
  apply keeps_seq; [apply keeps_put_connection; unfold conn_ok; by rewrite Hq|]. intros _. by apply keeps_ret.
Qed.

Lemma keeps_try_enqueue idx data : in_range idx -> keeps (try_enqueue idx data) anything.
Proof.
  intros Hi. eapply keeps_bind; [by apply keeps_connection_of|]. intros c Hc.
  destruct (TxQueue.try_enqueue_spec CAP ltac:(done) (tx_queue c) data Hc) as (q & Hq & -> & _).
  apply keeps_seq; [by apply keeps_put_connection|]. intros _. by apply keeps_ret.
Qed.

Lemma set_socket_ok e n : endpoint_ok e -> endpoint_ok (set_socket n e).
Proof. intros []. by split. Qed.

Lemma keeps_send_pending idx : in_range idx -> keeps (send_pending_packets idx) anything.
Proof.
  intros Hi. eapply keeps_bind; [by apply keeps_connection_of|]. intros c Hc.
  apply keeps_seq; [by apply keeps_gets|]. intros net.
  pose proof (send_loop_queue (q_pending (inner c)) c net 0) as Hq.
  destruct (send_loop _ _ _ _) as [[r c'] net']. simpl in Hq.
  apply keeps_seq; [apply keeps_put_connection; unfold conn_ok; by rewrite Hq|]. intros _.
  apply keeps_seq; [apply keeps_modify; intros e; apply set_socket_ok|]. intros _.
  destruct r; [by apply keeps_ret|apply keeps_fail].
Qed.

Lemma keeps_drain_queue now idx : in_range idx -> keeps (drain_queue now idx) anything.
Proof.
  intros Hi. eapply keeps_bind; [by apply keeps_connection_of|]. intros c Hc.
  destruct (drain_loop_ok now (Z.to_nat (TxQueue.count (tx_queue c))) c 0 Hc) as (m & c' & -> & Hc').
  apply keeps_seq; [by apply keeps_put_connection|]. intros _. by apply keeps_ret.
Qed.

Lemma keeps_finish_handshake now idx : in_range idx -> keeps (finish_handshake now idx) anything.
Proof.
  intros Hi. unfold finish_handshake. eapply keeps_bind; [by apply keeps_get_slot|]. intros s Hs.
  eapply keeps_bind; [by apply keeps_ok_or|]. intros c Hc. apply keeps_seq; [|intros _; apply keeps_save_session].
  apply keeps_when. apply keeps_seq; [destruct (q_is_in_early_data _); [by apply keeps_ret|apply keeps_cache_get]|].
  intros token. apply keeps_modify. intros e He. destruct He. split; try done. simpl. by apply record_timing_ok.
Qed.

Lemma slot_update_state st : slot_update (Pool.set_state st).
Proof. by apply slot_update_same. Qed.

#[local] Hint Resolve keeps_slot_send_uni keeps_try_enqueue keeps_send_pending keeps_drain_queue
  keeps_finish_handshake keeps_on_slot slot_update_state : endpoint.

Lemma keeps_after_drain now idx n : in_range idx -> keeps (after_drain now idx n) anything.
Proof.
  intros Hi. unfold after_drain. repeat keeps_step; try done; eauto with endpoint nocore.
Qed.

Lemma keeps_confirmed now idx : in_range idx -> keeps (confirmed now idx) anything.
Proof.
  intros Hi. unfold confirmed. eapply keeps_bind; [by apply keeps_connection_of|]. intros c Hc.
  destruct (q_peer_error (inner c)) as [code|].
  { apply keeps_seq; [|intros _; by apply keeps_clear_dirty].
    destruct (code =? 2); [apply keeps_on_slot, slot_update_state|apply keeps_mark_failed]. }
  destruct (q_is_closed (inner c)); [by repeat keeps_step; apply keeps_clear_dirty|].
  apply keeps_seq; [apply keeps_on_slot, slot_update_state|]. intros _.
  apply keeps_seq; [by apply keeps_drain_queue|]. intros n. by apply keeps_after_drain.
Qed.

Lemma keeps_drive_slot now idx : in_range idx -> keeps (drive_slot now idx) anything.
Proof.
  intros Hi. unfold drive_slot. repeat keeps_step. by apply keeps_confirmed.
Qed.

#[local] Hint Resolve keeps_drive_slot : endpoint.

(** ** Operations *)

Lemma keeps_recv_packet now peer data from : keeps (recv_packet avx2 now peer data from) anything.
Proof.
  unfold recv_packet. eapply keeps_bind; [apply keeps_find|]. intros [idx|] Hx; [|by apply keeps_ret].
  specialize (Hx idx eq_refl). eapply keeps_bind; [by apply keeps_get_slot|]. intros s Hs.
  destruct (_ && _); [by apply keeps_ret|].
  destruct (Pool.connection s) as [c|] eqn:Hc; [|by apply keeps_ret].
  destruct (q_recv data from (inner c)) as [r q].
  apply keeps_seq; [apply keeps_put_connection; by apply (Hs c)|]. intros _.
  destruct r as [n|[]]; [|by apply keeps_ret|apply keeps_mark_failed].
  apply keeps_seq; [apply keeps_on_slot; by apply slot_update_same|]. intros _.
  apply keeps_when, keeps_save_session.
Qed.

Lemma keeps_restore_session now a conn : keeps (restore_session now a conn) anything.
Proof.
  unfold restore_session. repeat keeps_step; done.
Qed.

Lemma store_connection_ok e now idx c :
  endpoint_ok e -> conn_ok c -> endpoint_ok (set_pool (Pool.store_connection conn_state now idx c (pool e)) e).
Proof.
  intros He Hc.
  apply (alter_slots_ok e idx (fun s => Pool.touch now (Pool.set_state (conn_state c) (Pool.set_connection (Some c) s)))).
  - done.
  - intros s. split; [done|]. by intros _ c' [= <-].
  - unfold Pool.store_connection, Pool.set_active, Pool.on_active. by destruct (idx <? 64)%nat.
Qed.

Lemma keeps_connect_start now a :
  keeps (connect_start now a) (fun r => in_range (match r with inl idx | inr idx => idx end)).
Proof.
  unfold connect_start. eapply keeps_bind; [apply keeps_find_or_allocate|]. intros idx Hi.
  eapply keeps_bind; [by apply keeps_get_slot|]. intros s Hs. case_bool_decide; [by apply keeps_ret|].
  apply keeps_seq.
  { intros e He. split; [|done]. destruct He. by split. }
  intros scid. destruct (q_connect scid a) as [conn|x]; [|apply keeps_fail].
  apply keeps_seq; [apply keeps_restore_session|]. intros conn'.
  apply keeps_seq; [apply keeps_on_slot; by apply slot_update_same|]. intros _.
  apply keeps_seq.
  { apply keeps_modify. intros e He. apply store_connection_ok; [done|]. by apply TxQueue.new_ok. }
  intros _. apply keeps_seq; [apply keeps_modify; intros e []; by split|]. intros _.
  apply keeps_seq; [by apply keeps_drive_slot|]. intros _. by apply keeps_ret.
Qed.

Lemma keeps_connect now a : keeps (connect now a) in_range.
Proof. eapply keeps_bind; [apply keeps_connect_start|]. intros r Hr. by apply keeps_ret. Qed.

Lemma keeps_take_ticket now a q received : keeps (take_ticket now a q received) anything.
Proof.
  unfold take_ticket. destruct received; [by apply keeps_ret|]. destruct (q_session q); [|by apply keeps_ret].
  apply keeps_seq; [by apply keeps_gets|]. intros []; repeat keeps_step; done.
Qed.

Lemma keeps_wait_handshake end_ns a idx rs : in_range idx ->
  forall ticket, keeps (wait_handshake avx2 end_ns a idx ticket rs) anything.
Proof.
  intros Hi. induction rs as [|r rs IH]; intros ticket; cbn [wait_handshake].
  { apply keeps_seq; [apply keeps_mark_failed|]. intros _. apply keeps_fail. }
  destruct (3000 <=? elapsed_ms r); [apply keeps_seq; [apply keeps_mark_failed|intros _; apply keeps_fail]|].
  apply keeps_seq; [apply keeps_for_each; intros [data from] _; apply keeps_recv_packet|]. intros _.
  destruct (round_io_error r); [apply keeps_fail|].
  apply keeps_seq; [by apply keeps_drive_slot|]. intros _.
  eapply keeps_bind; [by apply keeps_get_slot|]. intros s Hs.
  destruct (Pool.connection s) as [c|]; [|apply IH].
  destruct (q_is_handshake_confirmed (inner c)).
  - apply keeps_seq; [apply keeps_on_slot, slot_update_state|]. intros _.
    apply keeps_seq; [apply keeps_take_ticket|]. intros t. destruct (_ && _); [apply IH|by apply keeps_ret].
  - destruct (q_is_closed (inner c)); [|apply IH].
    apply keeps_seq; [apply keeps_mark_failed|intros _; apply keeps_fail].
Qed.

Lemma keeps_connect_blocking now end_ns a rs : keeps (connect_blocking avx2 now end_ns a rs) anything.
Proof.
  eapply keeps_bind; [apply keeps_connect_start|]. intros [idx|idx] Hi; [by apply keeps_ret|].
  by apply keeps_wait_handshake.
Qed.

#[local] Hint Resolve keeps_connect keeps_recv_packet keeps_connect_blocking : endpoint.

Lemma keeps_send now a data : keeps (send avx2 now a data) anything.
Proof.
  unfold send. eapply keeps_bind; [apply keeps_find|]. intros r Hr.
  apply (keeps_bind _ _ in_range).
  { destruct r as [idx|]; [by apply keeps_ret, Hr|apply keeps_connect]. }
  intros idx Hi. eapply keeps_bind; [by apply keeps_get_slot|]. intros s Hs.
  destruct (Pool.slot_state s).
  - eapply keeps_bind; [by apply keeps_ok_or|]. intros c Hc. apply keeps_seq.
    { destruct (q_is_in_early_data _); repeat keeps_step; done. }
    intros []; unfold flush_slot; repeat keeps_step; done.
  - repeat keeps_step; try done; unfold flush_slot; eauto with endpoint nocore.
  - repeat keeps_step; done.
  - by apply keeps_ret.
Qed.

Lemma keeps_remark idx : in_range idx -> keeps (remark idx) anything.
Proof.
  intros Hi. unfold remark. eapply keeps_bind; [by apply keeps_get_slot|]. intros s Hs.
  destruct (Pool.slot_state s); repeat keeps_step; try done; by apply keeps_mark_dirty.
Qed.

Lemma keeps_drive_dirty now idx : in_range idx -> keeps (drive_dirty now idx) anything.
Proof.
  intros Hi. unfold drive_dirty. eapply keeps_bind; [by apply keeps_attempt, keeps_drive_slot|].
  intros _ _. by apply keeps_remark.
Qed.

Lemma keeps_poll now packets io_error : keeps (poll avx2 now packets io_error) anything.
Proof.
  unfold poll. apply keeps_seq; [apply keeps_for_each; intros [data from] _; apply keeps_recv_packet|]. intros _.
  destruct io_error; [apply keeps_fail|]. eapply keeps_bind; [apply keeps_poll_dirty|]. intros l Hl.
  apply keeps_for_each. intros idx Hx. rewrite Forall_forall in Hl. by apply keeps_drive_dirty, Hl.
Qed.

Lemma keeps_keep_alive now a t : keeps (keep_alive_if_idle avx2 now a t) anything.
Proof.
  unfold keep_alive_if_idle. eapply keeps_bind; [apply keeps_find|]. intros [idx|] Hx; [|by apply keeps_ret].
  specialize (Hx idx eq_refl). repeat keeps_step. by apply keeps_drive_slot.
Qed.

Lemma keeps_try_connect now a : keeps (attempt (connect now a)) anything.
Proof. eapply keeps_weaken; [apply keeps_attempt, keeps_connect|done]. Qed.

Lemma keeps_prewarm now addrs : keeps (prewarm avx2 now addrs) anything.
Proof.
  apply keeps_for_each. intros a _. unfold prewarm_one. eapply keeps_bind; [apply keeps_find|].
  intros [idx|] _; [by apply keeps_ret|]. apply keeps_seq; [apply keeps_try_connect|]. intros _. by apply keeps_ret.
Qed.

Lemma keeps_send_early now idx data m : in_range idx -> keeps m anything -> keeps (send_early now idx data m) anything.
Proof.
  intros Hi Hm. unfold send_early, flush_slot. eapply keeps_bind; [by apply keeps_get_slot|]. intros s Hs.
  destruct (match _ with Some _ => _ | None => _ end).
  - repeat keeps_step; by apply keeps_drive_slot.
  - apply keeps_seq; [done|]. intros _. apply keeps_fail.
Qed.

Lemma keeps_send_nonblocking now a data : keeps (send_nonblocking avx2 now a data) anything.
Proof.
  unfold send_nonblocking. eapply keeps_bind; [apply keeps_find|]. intros [idx|] Hx.
  - specialize (Hx idx eq_refl). eapply keeps_bind; [by apply keeps_get_slot|]. intros s Hs.
    destruct (Pool.slot_state s).
    + apply keeps_send_early; [done|]. apply keeps_seq; [|intros _; by apply keeps_ret].
      eapply keeps_weaken; [by apply keeps_attempt, keeps_drive_slot|done].
    + unfold flush_slot. repeat keeps_step. by apply keeps_drive_slot.
    + apply keeps_seq; [apply keeps_try_connect|intros _; apply keeps_fail].
    + apply keeps_fail.
  - apply keeps_seq; [apply keeps_cache_get|]. intros [token|].
    + eapply keeps_bind; [apply keeps_connect|]. intros idx Hi. apply keeps_send_early; [done|by apply keeps_ret].
    + apply keeps_seq; [apply keeps_try_connect|intros _; apply keeps_fail].
Qed.

Lemma keeps_connection_state a : keeps (connection_state avx2 a) anything.
Proof.
  unfold connection_state. eapply keeps_bind; [apply keeps_find|]. intros [idx|] Hx; [|by apply keeps_ret].
  specialize (Hx idx eq_refl). by repeat keeps_step.
Qed.

Lemma keeps_hot_loop_step now packets io addrs tx : keeps (run_hot_loop_step avx2 now packets io addrs tx) anything.
Proof.
  unfold run_hot_loop_step. apply keeps_seq; [eapply keeps_weaken; [apply keeps_attempt, keeps_poll|done]|]. intros _.
  apply keeps_seq; [apply keeps_prewarm|]. intros _. destruct tx as [[a data]|]; [|by apply keeps_ret].
  apply keeps_seq; [eapply keeps_weaken; [apply keeps_attempt, keeps_send_nonblocking|done]|]. intros _. by apply keeps_ret.
Qed.

Lemma keeps_is_ready a : keeps (is_ready avx2 a) anything.
Proof. apply keeps_seq; [apply keeps_connection_state|]. intros st. by apply keeps_ret. Qed.

Lemma keeps_has_early_data a : keeps (has_early_data avx2 a) anything.
Proof.
  unfold has_early_data. eapply keeps_bind; [apply keeps_find|]. intros [idx|] Hx; [|by apply keeps_ret].
  specialize (Hx idx eq_refl). by repeat keeps_step.
Qed.

Lemma set_adaptive_ok c e : config_sane c -> endpoint_ok e -> endpoint_ok (set_adaptive_config c e).
Proof. intros Hc []. split; try done. by intros c' [= <-]. Qed.

Lemma keeps_set_adaptive c : config_sane c -> keeps (modify (set_adaptive_config c)) anything.
Proof. intros Hc. apply keeps_modify. intros e. by apply set_adaptive_ok. Qed.

Lemma keeps_lookahead a : keeps (lookahead_solana_slots a) anything.
Proof.
  intros e He. unfold safe, lookahead_solana_slots, lift_fault.
  destruct (lookahead_ok (adaptive_config e) (timing_registry e) a) as [n ->]; [apply He..|]. done.
Qed.

(** ** Every sequence of operations *)

Inductive operation : Type :=
| Connect (now_ns : Z) (a : SocketAddr)
| ConnectBlocking (now_ns end_ns : Z) (a : SocketAddr) (rs : list round)
| Send (now_ns : Z) (a : SocketAddr) (data : list Z)
| SendNonblocking (now_ns : Z) (a : SocketAddr) (data : list Z)
| Poll (now_ns : Z) (packets : list (list Z * SocketAddr)) (io_error : bool)
| KeepAlive (now_ns : Z) (a : SocketAddr) (idle_threshold_ns : Z)
| PrewarmAll (now_ns : Z) (addrs : list SocketAddr)
| HandleRecv (now_ns : Z) (data : list Z) (from : SocketAddr)
| HotLoop (now_ns : Z) (packets : list (list Z * SocketAddr)) (io_error : bool) (addrs : list SocketAddr)
    (tx : option (SocketAddr * list Z))
| SetAdaptive (c : AdaptivePrewarmConfig)
| Lookahead (a : SocketAddr)
| IsReady (a : SocketAddr)
| HasEarlyData (a : SocketAddr)
| Query (a : SocketAddr).

(** A configuration that is set has a slot duration and ordered bounds; with another
    one [calculate_lookahead_solana_slots] panics (see [TimingSpec.lookahead_bounds]). *)
Definition operation_ok (o : operation) : Prop :=
  match o with SetAdaptive c => config_sane c | _ => True end.

(** The result of an operation is left aside, an error included. *)
Definition ignore {A} (m : M EP A) : M EP unit := attempt m ≫= fun _ => mret tt.

Definition perform (o : operation) : M EP unit :=
  match o with
  | Connect now a => ignore (connect now a)
  | ConnectBlocking now end_ns a rs => ignore (connect_blocking avx2 now end_ns a rs)
  | Send now a data => ignore (send avx2 now a data)
  | SendNonblocking now a data => ignore (send_nonblocking avx2 now a data)
  | Poll now packets io_error => ignore (poll avx2 now packets io_error)
  | KeepAlive now a t => ignore (keep_alive_if_idle avx2 now a t)
  | PrewarmAll now addrs => ignore (prewarm avx2 now addrs)
  | HandleRecv now data from => ignore (handle_recv avx2 now data from)
  | HotLoop now packets io_error addrs tx => ignore (run_hot_loop_step avx2 now packets io_error addrs tx)
  | SetAdaptive c => ignore (modify (set_adaptive_config c))
  | Lookahead a => ignore (lookahead_solana_slots a)
  | IsReady a => ignore (is_ready avx2 a)
  | HasEarlyData a => ignore (has_early_data avx2 a)
  | Query a => ignore (connection_state avx2 a)
  end.

Lemma keeps_ignore {A} (m : M EP A) P : keeps m P -> keeps (ignore m) anything.
Proof. intros Hm. eapply keeps_bind; [by apply keeps_attempt|]. intros _ _. by apply keeps_ret. Qed.

Lemma keeps_perform o : operation_ok o -> keeps (perform o) anything.
Proof.
  intros Ho. destruct o; eapply keeps_ignore;
    first [apply keeps_connect|apply keeps_connect_blocking|apply keeps_send|apply keeps_send_nonblocking
          |apply keeps_poll|apply keeps_keep_alive|apply keeps_prewarm|apply keeps_recv_packet
          |apply keeps_hot_loop_step|by apply keeps_set_adaptive|apply keeps_lookahead|apply keeps_is_ready|apply keeps_has_early_data
          |apply keeps_connection_state].
Qed.

Lemma endpoint_new_ok n cache :
  (forall c, cache = Some c -> SessionCache.cache_shape c) -> endpoint_ok (endpoint_new n cache).
Proof.
  intros Hc. split; cbn [endpoint_new pool dirty session_cache timing_registry];
    [apply PoolSpec.pool_new_inv| |by split|done|apply registry_new_ok|done].
  intros i s Hs. cbn [Pool.slots Pool.pool_new] in Hs. apply lookup_replicate in Hs as [-> _]. by intros c.
Qed.

(** C14. The endpoint never panics.  From a new endpoint, every sequence of its
    operations (connecting, sending, polling with whatever packets, keeping
    alive, prewarming, rounds of the hot loop, setting an adaptive configuration with a slot duration and
    ordered bounds, asking for the lookahead or the state of a connection), whatever quiche, the socket and the peers answer, runs
    without a fault: no slot, bitmap, queue or cache index is out of range; and
    in every state reached the pool is a map from addresses to slots and every
    queue, the bitmap, the cache and the registry are well formed. *)
Theorem endpoint_never_panics n cache ops :
  (forall c, cache = Some c -> SessionCache.cache_shape c) -> Forall operation_ok ops ->
  safe (for_each ops perform) (endpoint_new n cache) (fun r e => r = Ok tt /\ endpoint_ok e).
Proof.
  intros Hc Hops. assert (Hall : forall e, endpoint_ok e ->
    safe (for_each ops perform) e (fun r e' => r = Ok tt /\ endpoint_ok e')).
  { induction Hops as [|o ops Hop Hops IH]; intros e He; [by split|]. cbn [for_each]. apply safe_bind.
    assert (Ho : safe (perform o) e (fun r e' => r = Ok tt /\ endpoint_ok e')).
    { pose proof (keeps_perform o Hop e He) as Hk. revert Hk. unfold safe.
      assert (Hok : forall A (m : M EP A), match ignore m e with (inr r, _) => r = Ok tt | _ => True end).
      { intros A m. unfold ignore, attempt, mbind, M_bind. by destruct (m e) as [[] e']. }
      destruct o; cbn [perform]; match goal with |- context [ignore ?m e] => specialize (Hok _ m) end;
        destruct (ignore _ e) as [[|r] e']; try done; intros [? _]; by split. }
    eapply safe_mono; [exact Ho|]. intros r e' [-> He']. by apply IH. }
  apply Hall. by apply endpoint_new_ok.
Qed.

End spec.

Definition sample_ops : list operation :=
  [PrewarmAll 5 [peer_a; peer_b]; Send 6 peer_a [42]; Poll 7 [([1], peer_a); ([3], peer_b)] false;
   Send 8 peer_b [1]; SendNonblocking 8 peer_a [2]; KeepAlive 9 peer_a 1; SetAdaptive adaptive_default; Lookahead peer_a;
   HotLoop 9 [([1], peer_a)] false [peer_b] (Some (peer_a, [5]));
   IsReady peer_b; HasEarlyData peer_a; Query peer_a].

Lemma endpoint_never_panics_witness :
  (for_each sample_ops (perform false) (endpoint_new (Q := model_conn) ([] : model_net) None)).1 = inr (Ok tt).
Proof.
  destruct (safe_inv _ _ _ (endpoint_never_panics (Q := model_conn) false ([] : model_net) None sample_ops ltac:(done) ltac:(repeat constructor; vm_compute; discriminate)))
    as (r & e & -> & -> & _). done.
Defined.
