(* ===== verification/EndpointRun.v ===== *)
(** * EndpointRun: what becomes of a transaction

    A transaction sent during the handshake is queued and its connection marked;
    the poll that sees the handshake confirmed hands the queue to quiche, oldest
    first ([send_then_poll]).  The loop stops at a transaction quiche does not take,
    and that one is lost.  Two more ways in which a connection is left behind:
    [poll] does not look at a connection that nobody marked, and the queue of a
    connection that is already ready is not drained. *)
From S2P Require Import Prelude Conc Net Quic QuicModel Strategy Timing TimingSpec Endpoint EndpointSpec.
From S2P Require Pool PoolSpec TxQueue SessionCache Dirty.

Set Default Proof Using "Type".

Section run.
Context {Q N : Type} `{!quiche_api Q} `{!udp_api N} (avx2 : bool).
Abbreviation EP := (QuicEndpoint (Q := Q) (N := N)).
Abbreviation slot := (Pool.ConnectionSlot (Conn := QuicConnection Q)).
Implicit Types (e : EP) (s : slot) (c : QuicConnection Q).

(** ** Draining a queue *)

Definition queued (c : QuicConnection Q) : list (list Z) := TxQueue.packets CAP (tx_queue c).

(** The reference, in terms of quiche alone.  A stream can be opened on a
    connection that is established or in early data, and not closed. *)
Definition can_send (q : Q) : bool := negb (q_is_closed q) && (q_is_established q || q_is_in_early_data q).

(** At most [n] attempts to give [p] to quiche on stream [sid]: the next one is
    made only after quiche was [Done].  [b]: quiche took it. *)
Inductive attempts (sid : Z) (p : list Z) : nat -> Q -> bool -> Q -> Prop :=
| attempt_taken n q w q' :
    can_send q = true -> q_stream_send sid p q = (Ok w, q') -> attempts sid p (S n) q true q'
| attempt_again n q b q' q'' :
    can_send q = true -> q_stream_send sid p q = (Err Done, q') -> attempts sid p n q' b q'' ->
    attempts sid p (S n) q b q''
| attempt_refused n q x q' :
    can_send q = true -> q_stream_send sid p q = (Err (Other x), q') -> attempts sid p (S n) q false q'
| attempt_closed n q : can_send q = false -> attempts sid p (S n) q false q
| attempt_enough q : attempts sid p 0 q false q.

(** The first [k] of the packets are given to quiche in order, each on the next
    unidirectional stream and with five attempts at most; the one behind them, if
    there is one, is refused. *)
Inductive handed : list (list Z) -> Z -> Q -> nat -> Z -> Q -> Prop :=
| handed_none sid q : handed [] sid q 0 sid q
| handed_one p ps sid q q1 k sid' q' :
    attempts sid p 5 q true q1 -> handed ps (wrapping_add64 sid 4) q1 k sid' q' ->
    handed (p :: ps) sid q (S k) sid' q'
| handed_stop p ps sid q q' : attempts sid p 5 q false q' -> handed (p :: ps) sid q 0 sid q'.

(** The same with the connection: the packets one after the other, until one is not
    taken. *)
Fixpoint send_all (now_ns : Z) (ps : list (list Z)) (c : QuicConnection Q) : nat * QuicConnection Q :=
  match ps with
  | [] => (0%nat, c)
  | p :: ps =>
      match try_send MAX_RETRIES now_ns p c with
      | (true, c) => let '(n, c) := send_all now_ns ps c in (S n, c)
      | (false, c) => (0%nat, c)
      end
  end.

(** A connection apart from its queue. *)
Lemma send_uni_with_queue now p q c :
  send_uni now p (with_queue q c) = ((send_uni now p c).1, with_queue q (send_uni now p c).2).
Proof.
  unfold send_uni. simpl. destruct (q_is_closed _); [done|]. destruct (_ && _); [done|].
  by destruct (q_stream_send _ _ _) as [[|[]] q'].
Qed.

Lemma try_send_with_queue n now p q : forall c,
  try_send n now p (with_queue q c) = ((try_send n now p c).1, with_queue q (try_send n now p c).2).
Proof.
  induction n as [|n IH]; intros c; cbn [try_send]; [done|]. rewrite send_uni_with_queue.
  destruct (send_uni now p c) as [[|[]] c']; simpl; try done; apply IH.
Qed.

Lemma send_all_with_queue now ps q : forall c,
  send_all now ps (with_queue q c) = ((send_all now ps c).1, with_queue q (send_all now ps c).2).
Proof.
  induction ps as [|p ps IH]; intros c; cbn [send_all]; [done|]. rewrite try_send_with_queue.
  destruct (try_send MAX_RETRIES now p c) as [[] c']; simpl; [|done].
  rewrite IH. by destruct (send_all now ps c').
Qed.

Lemma try_send_attempts now p n : forall c,
  attempts (local_stream_uni_next c) p n (inner c) (try_send n now p c).1 (inner (try_send n now p c).2) /\
  local_stream_uni_next (try_send n now p c).2
  = if (try_send n now p c).1 then wrapping_add64 (local_stream_uni_next c) 4 else local_stream_uni_next c.
Proof.
  induction n as [|n IH]; intros c; cbn [try_send]; [by split; [constructor|]|]. unfold send_uni.
  assert (Hcan : can_send (inner c) = negb (q_is_closed (inner c)) &&
    (q_is_established (inner c) || q_is_in_early_data (inner c))) by done.
  destruct (q_is_closed (inner c)); [by split; [constructor|]|].
  destruct (q_is_established (inner c)), (q_is_in_early_data (inner c)); simpl in *;
    [..|by split; [constructor|]];
    (destruct (q_stream_send (local_stream_uni_next c) p (inner c)) as [[w|[|x]] q'] eqn:Hs; simpl;
      [by split; [econstructor|]| |by split; [econstructor|]];
     destruct (IH (with_inner q' c)) as [Ha Hn]; split; [by eapply attempt_again|done]).
Qed.

Lemma send_all_handed now ps : forall c,
  handed ps (local_stream_uni_next c) (inner c) (send_all now ps c).1
    (local_stream_uni_next (send_all now ps c).2) (inner (send_all now ps c).2).
Proof.
  induction ps as [|p ps IH]; intros c; cbn [send_all]; [constructor|].
  destruct (try_send_attempts now p MAX_RETRIES c) as [Ha Hn].
  destruct (try_send MAX_RETRIES now p c) as [[] c1]; simpl in Ha, Hn.
  - specialize (IH c1). rewrite Hn in IH. destruct (send_all now ps c1) as [k c2]. by eapply handed_one.
  - simpl. rewrite Hn. by apply handed_stop.
Qed.

(** The reference leaves no choice. *)
Lemma attempts_det sid p n q b q1 b' q2 : attempts sid p n q b q1 -> attempts sid p n q b' q2 -> b = b' /\ q1 = q2.
Proof. intros H. revert b' q2. induction H; intros ? ? Hr; inversion Hr; subst; try congruence; try (split; congruence). apply IHattempts. congruence. Qed.

Lemma handed_det ps sid q k sid1 q1 k' sid2 q2 :
  handed ps sid q k sid1 q1 -> handed ps sid q k' sid2 q2 -> k = k' /\ sid1 = sid2 /\ q1 = q2.
Proof.
  intros H. revert k' sid2 q2. induction H as [|p ps sid q q1 k sid1 q' Ha H IH|p ps sid q q1 Ha]; intros k' sid2 q2; inversion 1;
    subst; try done;
    match goal with H1 : attempts _ _ _ _ _ _, H2 : attempts _ _ _ _ _ _ |- _ =>
      destruct (attempts_det _ _ _ _ _ _ _ _ H1 H2); simplify_eq end; [|done].
  match goal with H2 : handed _ _ _ _ _ _ |- _ => by destruct (IH _ _ _ H2) as (-> & -> & ->) end.
Qed.

(** Draining is sending the queued packets in order; what is left is what comes
    after the packet that was not taken. *)
Lemma drain_loop_spec now fuel : forall c n,
  conn_ok c -> (length (queued c) <= fuel)%nat ->
  exists q, drain_loop fuel now c n
            = inr ((n + (send_all now (queued c) c).1)%nat, with_queue q (send_all now (queued c) c).2) /\
    TxQueue.queue_ok CAP q /\
    TxQueue.packets CAP q = drop (S (send_all now (queued c) c).1) (queued c).
Proof.
  induction fuel as [|fuel IH]; intros c n Hc Hf; unfold queued in *;
    pose proof (TxQueue.run_try_dequeue CAP ltac:(done) (tx_queue c) Hc) as Hd;
    destruct (TxQueue.packets CAP (tx_queue c)) as [|p ps] eqn:Hps;
    try (simpl in Hf; lia); cbn [drain_loop send_all].
  - rewrite Hd. exists (tx_queue c). rewrite Nat.add_0_r. split; [by destruct c|]. split; [done|by rewrite Hps].
  - rewrite Hd. exists (tx_queue c). rewrite Nat.add_0_r. split; [by destruct c|]. split; [done|by rewrite Hps].
  - destruct Hd as (q' & buf & len & Hq' & Hps' & Hp & Hlen & ->).
    rewrite (proj2 (Nat.ltb_ge _ _) Hlen), Hp, try_send_with_queue.
    destruct (try_send MAX_RETRIES now p c) as [[] c1]; simpl.
    + specialize (IH (with_queue q' c1) (S n) Hq'). unfold queued in IH. cbn [tx_queue with_queue] in IH.
      rewrite Hps', send_all_with_queue in IH. specialize (IH ltac:(simpl in Hf; lia)).
      destruct (send_all now ps c1) as [k c2]. simpl in *. destruct IH as (q2 & -> & Hq2 & Hp2).
      exists q2. split; [|done]. do 2 f_equal. lia.
    + exists q'. rewrite Nat.add_0_r. done.
Qed.

(** ** One slot *)

Definition slot_at e (idx : nat) s : Prop := Pool.slots (pool e) !! idx = Some s.

(** [c'] is [c] after some packets were taken from quiche. *)
Definition flushed c c' : Prop := rtc (fun c c' => c' = (conn_send c).2) c c'.

Lemma flushed_queue c c' : flushed c c' -> tx_queue c' = tx_queue c.
Proof. induction 1 as [|c c1 c2 -> _ IH]; [done|]. by rewrite IH, conn_send_queue. Qed.

(** quiche has produced packets. *)
Definition sent_packets : Q -> Q -> Prop := rtc (fun q q' => q' = (q_send q).2).

Lemma flushed_inner c c' :
  flushed c c' -> sent_packets (inner c) (inner c') /\ local_stream_uni_next c' = local_stream_uni_next c.
Proof.
  induction 1 as [c|c c1 c2 -> _ [IH Hn]]; [by split|]. rewrite Hn. unfold conn_send in *.
  destruct (q_send (inner c)) as [[?|[]] q] eqn:Hq; simpl in *;
    (split; [eapply rtc_l; [reflexivity|]; by rewrite Hq|done]).
Qed.

Lemma send_loop_flushed fuel : forall c (net : N) n, flushed c (send_loop fuel c net n).1.2.
Proof.
  induction fuel as [|fuel IH]; intros c net n; cbn [send_loop];
    assert (Hstep : flushed c (conn_send c).2) by (by apply rtc_once);
    destruct (conn_send c) as [[[p to]|[]] c'];
    try exact Hstep; destruct (send_to p to net) as [[|] net']; try exact Hstep.
  unfold flushed in *. etrans; [exact Hstep|apply IH].
Qed.

(** *** Computations that leave the slots, or the bitmap, alone *)

(** Properties of the slots, and of the bitmap. *)
Definition of_slots (F : list slot -> Prop) e : Prop := F (Pool.slots (pool e)).
Definition of_dirty (F : Dirty.DirtyTracker -> Prop) e : Prop := F (dirty e).

Lemma preserves_get_slot I j : preserves I (get_slot (N := N) (Q := Q) j).
Proof. apply preserves_same. intros e. unfold get_slot, lift_fault. by destruct (Pool.slots (pool e) !! j). Qed.

Lemma preserves_connection_of I j : preserves I (connection_of (N := N) (Q := Q) j).
Proof. apply preserves_bind; [apply preserves_get_slot|]. intros s. apply preserves_ok_or. Qed.

Lemma slots_dirty F {A} (p : prog Dirty.DirtyTracker Dirty.event A) : preserves (of_slots F) (exec dirty set_dirty p).
Proof. intros e. unfold exec, of_slots. by destruct (run p (dirty e)) as [[ev t] r]. Qed.

Lemma preserves_cache (I : EP -> Prop) {A} (none : A) p :
  (forall t e, I e -> I (set_cache t e)) -> preserves I (with_cache none p).
Proof.
  intros HI e He. unfold with_cache. destruct (session_cache e) as [c|]; [|done].
  destruct (run p c) as [[ev t] r]. by apply HI.
Qed.

Lemma find_slots a (p : Pool.ConnectionPool (Conn := QuicConnection Q)) :
  Pool.slots (Pool.find avx2 a p).2 = Pool.slots p.
Proof.
  unfold Pool.find, Pool.find_simd_avx2, Pool.find_scalar, Pool.count_lookup.
  destruct avx2; cbn [snd]; by case_match.
Qed.

Lemma preserves_find (I : EP -> Prop) a :
  (forall p e, Pool.slots p = Pool.slots (pool e) -> I e -> I (set_pool p e)) -> preserves I (find avx2 a).
Proof.
  intros HI e He. unfold find. pose proof (find_slots a (pool e)) as Hp.
  destruct (Pool.find avx2 a (pool e)) as [r p]. by apply HI.
Qed.

Create HintDb frame discriminated.
#[local] Hint Resolve preserves_get_slot preserves_connection_of slots_dirty : frame.

(** A step of a proof of [preserves] for an operation of the endpoint. *)
Ltac frame_step :=
  lazymatch goal with
  | |- preserves _ (modify _) => apply preserves_modify; done
  | |- preserves _ (with_cache _ _) => apply preserves_cache; done
  | |- preserves _ (find _ _) => apply preserves_find; done
  | |- _ => preserves_step ltac:(eauto with frame nocore)
  end.

Lemma slots_save_session F now a q : preserves (of_slots F) (save_session now a q).
Proof. unfold save_session, cache_insert. repeat frame_step. Qed.
#[local] Hint Resolve slots_save_session : frame.

Lemma slots_finish F now j : preserves (of_slots F) (finish_handshake now j).
Proof. unfold finish_handshake, cache_get. repeat frame_step. Qed.
#[local] Hint Resolve slots_finish : frame.

Lemma slots_remark F j : preserves (of_slots F) (remark j).
Proof. unfold remark, mark_dirty. repeat frame_step. Qed.

(** *** A property of one slot *)

Definition one_slot (idx : nat) (P : slot -> Prop) (l : list slot) : Prop := exists s, l !! idx = Some s /\ P s.
Abbreviation holds_slot idx P := (of_slots (one_slot idx P)).

(** Properties that survive taking packets from quiche. *)
Definition flush_free (P : slot -> Prop) : Prop :=
  forall s c c', Pool.connection s = Some c -> flushed c c' -> P s -> P (Pool.set_connection (Some c') s).

Lemma one_slot_alter idx P j f l :
  (j = idx -> forall s, l !! idx = Some s -> P s -> P (f s)) -> one_slot idx P l -> one_slot idx P (alter f j l).
Proof.
  intros Hf (s & Hs & HP). unfold one_slot. destruct (decide (j = idx)) as [->|Hne].
  - exists (f s). rewrite list_lookup_alter_eq, Hs. split; [done|]. by apply Hf.
  - exists s. by rewrite list_lookup_alter_ne.
Qed.

Lemma holds_on_slot idx P j f : (j = idx -> forall s, P s -> P (f s)) -> preserves (holds_slot idx P) (on_slot j f).
Proof. intros Hf e. apply one_slot_alter. auto. Qed.

(** A connection is read and written back. *)
Lemma preserves_update_connection {A} (I : EP -> Prop) j (f : QuicConnection Q -> M EP A) :
  (forall e s c, slot_at e j s -> Pool.connection s = Some c -> I e -> I (f c e).2) ->
  preserves I (connection_of j ≫= f).
Proof.
  intros Hf e He. unfold connection_of, get_slot, lift_fault, mbind, M_bind.
  destruct (Pool.slots (pool e) !! j) as [s|] eqn:Hs; [|done].
  destruct (Pool.connection s) as [c|] eqn:Hc; [|done]. by eapply Hf.
Qed.

Lemma holds_send_pending idx P j : flush_free P -> preserves (holds_slot idx P) (send_pending_packets j).
Proof.
  intros HP. apply preserves_update_connection. intros e s c Hs Hc He. unfold gets, mbind, M_bind.
  pose proof (send_loop_flushed (q_pending (inner c)) c (socket e) 0) as Hfl.
  destruct (send_loop _ _ _ _) as [[r c'] net]. simpl in Hfl.
  assert (Hput : holds_slot idx P (put_connection j c' e).2).
  { apply one_slot_alter; [|done]. intros -> s0 Hs0 HP0. unfold slot_at in Hs.
    assert (s0 = s) as -> by congruence. by eapply HP. }
  destruct (put_connection j c' e) as [[|[]] e1]; simpl in Hput |- *; destruct r; exact Hput.
Qed.

Lemma holds_after_drain idx P now n : flush_free P -> preserves (holds_slot idx P) (after_drain now idx n).
Proof.
  intros HP. unfold after_drain, clear_dirty.
  repeat lazymatch goal with
         | |- preserves _ (send_pending_packets _) => by apply holds_send_pending
         | _ => frame_step
         end.
Qed.

Lemma keeps_preserves {A} I (m : M EP A) R e :
  keeps m R -> preserves I m -> endpoint_ok e -> I e -> safe m e (fun _ e' => endpoint_ok e' /\ I e').
Proof.
  intros Hk Hp He HI. eapply safe_mono; [by apply (safe_preserves I); [| |apply Hk]|]. by intros r e' [[? _] ?].
Qed.

(** ** Steps whose effect is known *)

Lemma safe_get_slot e idx s (R : Result slot Error.t -> EP -> Prop) :
  slot_at e idx s -> R (Ok s) e -> safe (get_slot idx) e R.
Proof. intros Hs HR. unfold safe, get_slot, lift_fault. unfold slot_at in Hs. by rewrite Hs. Qed.

Lemma safe_connection_of e idx s c (R : Result (QuicConnection Q) Error.t -> EP -> Prop) :
  slot_at e idx s -> Pool.connection s = Some c -> R (Ok c) e -> safe (connection_of idx) e R.
Proof.
  intros Hs Hc HR. apply safe_bind. eapply safe_get_slot; [exact Hs|]. by rewrite Hc.
Qed.

Definition with_slot (idx : nat) (f : slot -> slot) e : EP := set_pool (Pool.on_slot idx f (pool e)) e.

Lemma slot_at_with_slot e idx f s : slot_at e idx s -> slot_at (with_slot idx f e) idx (f s).
Proof. intros Hs. unfold slot_at, with_slot in *. simpl. by rewrite list_lookup_alter_eq, Hs. Qed.

Lemma safe_on_slot e idx f (R : Result unit Error.t -> EP -> Prop) :
  R (Ok tt) (with_slot idx f e) -> safe (on_slot idx f) e R.
Proof. done. Qed.

Lemma send_pending_at e idx s c n c1 net1 (R : Result nat Error.t -> EP -> Prop) :
  slot_at e idx s -> Pool.connection s = Some c ->
  send_loop (q_pending (inner c)) c (socket e) 0 = (Ok n, c1, net1) ->
  R (Ok n) (set_socket net1 (with_slot idx (Pool.set_connection (Some c1)) e)) ->
  safe (send_pending_packets idx) e R.
Proof.
  intros Hs Hc Hl HR. apply safe_bind. eapply safe_connection_of; [done|done|].
  apply safe_bind. unfold safe, gets. by rewrite Hl.
Qed.

(** The result of delivering the queue of [c] over [c1]: the slot is ready, and
    its connection has sent the first [k] packets. *)
Definition delivered (now : Z) (c c1 : QuicConnection Q) (s' : slot) : Prop :=
  exists c' q, Pool.slot_state s' = Ready /\ Pool.connection s' = Some c' /\
    flushed (with_queue q (send_all now (queued c) c1).2) c' /\
    TxQueue.packets CAP q = drop (S (send_all now (queued c) c1).1) (queued c).

Lemma delivered_flush_free now c c1 : flush_free (delivered now c c1).
Proof.
  intros s0 c0 c0' Hc0 Hfl (c' & q & Hr & Hc' & Hfl' & Hq). exists c0', q. split; [done|]. split; [done|].
  split; [|done]. assert (c' = c0) as -> by congruence. unfold flushed in *. by etrans.
Qed.

Lemma confirmed_delivers e now idx s c c1 :
  endpoint_ok e -> (idx < Pool.MAX_POOL_SIZE)%nat -> slot_at e idx s -> Pool.connection s = Some c1 ->
  tx_queue c1 = tx_queue c -> q_peer_error (inner c1) = None -> q_is_closed (inner c1) = false ->
  safe (confirmed now idx) e (fun _ e' => endpoint_ok e' /\ holds_slot idx (delivered now c c1) e').
Proof.
  intros He Hi Hs Hc Hq1 Hpe Hcl. assert (Hc1 : conn_ok c1) by (by eapply (eo_slots _ He)).
  pose proof (drain_loop_spec now (Z.to_nat (TxQueue.count (tx_queue c1))) c1 0 Hc1) as Hd.
  replace (queued c1) with (queued c) in Hd by (unfold queued; by rewrite Hq1).
  destruct Hd as (q & Hd & Hqok & Hqp).
  { unfold queued, TxQueue.packets. rewrite length_fmap, length_seqZ, Hq1. lia. }
  unfold confirmed. apply safe_bind. eapply safe_connection_of; [exact Hs|done|]. rewrite Hpe, Hcl.
  apply safe_bind, safe_on_slot. set (e2 := with_slot idx (Pool.set_state Ready) e).
  assert (He2 : endpoint_ok e2) by (apply (keeps_on_slot idx _ (slot_update_state Ready) e He)).
  assert (Hs2 : slot_at e2 idx (Pool.set_state Ready s)) by (by apply slot_at_with_slot).
  apply safe_bind. unfold drain_queue. apply safe_bind. eapply safe_connection_of; [exact Hs2|done|].
  rewrite Hd. apply safe_bind, safe_on_slot, safe_ret.
  eapply keeps_preserves; [by apply keeps_after_drain|apply holds_after_drain, delivered_flush_free| |].
  - apply (keeps_put_connection idx (with_queue q _) Hqok e2 He2).
  - eexists. split; [by apply slot_at_with_slot|]. eexists _, q. do 2 (split; [done|]).
    split; [apply rtc_refl|done].
Qed.

(** Driving a slot whose handshake turns out to be confirmed. *)
Lemma drive_delivers e now idx s c n c1 net1 :
  endpoint_ok e -> slot_at e idx s -> Pool.connection s = Some c -> Pool.slot_state s <> Ready ->
  send_loop (q_pending (inner c)) c (socket e) 0 = (Ok n, c1, net1) ->
  q_is_handshake_confirmed (inner c1) = true -> q_peer_error (inner c1) = None -> q_is_closed (inner c1) = false ->
  safe (drive_slot now idx) e (fun _ e' => endpoint_ok e' /\ holds_slot idx (delivered now c c1) e').
Proof.
  intros He Hs Hc Hst Hl Hconf Hpe Hcl.
  assert (Hi : (idx < Pool.MAX_POOL_SIZE)%nat).
  { rewrite <- (PoolSpec.inv_length _ (eo_pool _ He)). by eapply lookup_lt_Some. }
  assert (Hq1 : tx_queue c1 = tx_queue c).
  { pose proof (send_loop_queue (q_pending (inner c)) c (socket e) 0) as H. by rewrite Hl in H. }
  unfold drive_slot. apply safe_bind. eapply safe_get_slot; [exact Hs|].
  apply safe_bind. apply (safe_mono _ _ (fun r e' => r = Ok n /\ endpoint_ok e' /\
    slot_at e' idx (Pool.set_connection (Some c1) s))).
  { pose proof (keeps_send_pending idx Hi e He) as Hk.
    assert (Heff : safe (send_pending_packets idx) e
              (fun r e' => r = Ok n /\ slot_at e' idx (Pool.set_connection (Some c1) s))).
    { eapply send_pending_at; [done|done|exact Hl|]. split; [done|]. by apply (slot_at_with_slot e). }
    revert Hk Heff. unfold safe. destruct (send_pending_packets idx e) as [[|r] e']; [done|].
    intros [? _] [-> ?]. done. }
  intros r e1 (-> & He1 & Hs1). apply safe_bind. eapply safe_connection_of; [exact Hs1|done|].
  rewrite Hconf, bool_decide_eq_false_2 by done. cbn [negb andb when]. by eapply confirmed_delivers.
Qed.

(** ** Other slots *)

(** Driving a slot leaves the others alone. *)
Definition same_at (i : nat) (o : option slot) (l : list slot) : Prop := l !! i = o.

Lemma other_on_slot i o j f : i <> j -> preserves (of_slots (same_at i o)) (on_slot j f).
Proof. intros Hne e He. unfold of_slots, same_at in *. simpl. by rewrite list_lookup_alter_ne. Qed.

Lemma mark_failed_slots now j (p : Pool.ConnectionPool (Conn := QuicConnection Q)) :
  Pool.slots (Pool.mark_failed now j p) = alter (Pool.fail_slot now) j (Pool.slots p).
Proof.
  unfold Pool.mark_failed. destruct (match _ with Some _ => _ | None => _ end); [|done].
  unfold Pool.clear_active, Pool.on_active. by destruct (j <? 64)%nat.
Qed.

Lemma other_mark_failed i o j now : i <> j -> preserves (of_slots (same_at i o)) (mark_failed now j).
Proof.
  intros Hne e He. unfold mark_failed, on_pool, modify, of_slots, same_at in *. cbn [snd set_pool pool].
  by rewrite mark_failed_slots, list_lookup_alter_ne.
Qed.

#[local] Hint Resolve other_on_slot other_mark_failed : frame.

Lemma other_send_pending i o j : i <> j -> preserves (of_slots (same_at i o)) (send_pending_packets j).
Proof. intros Hne. unfold send_pending_packets, put_connection. repeat frame_step. Qed.
Lemma other_drain_queue i o now j : i <> j -> preserves (of_slots (same_at i o)) (drain_queue now j).
Proof. intros Hne. unfold drain_queue, put_connection. repeat frame_step. Qed.

#[local] Hint Resolve other_send_pending other_drain_queue slots_remark : frame.

Lemma other_drive_slot i o now j : i <> j -> preserves (of_slots (same_at i o)) (drive_slot now j).
Proof. intros Hne. unfold drive_slot, confirmed, after_drain, clear_dirty. repeat frame_step. Qed.
#[local] Hint Resolve other_drive_slot : frame.

Lemma other_drive_dirty i o now j : i <> j -> preserves (of_slots (same_at i o)) (drive_dirty now j).
Proof. intros Hne. unfold drive_dirty. repeat frame_step. Qed.

(** Hence any property of another slot. *)
Lemma holds_drive_dirty idx P now j : idx <> j -> preserves (holds_slot idx P) (drive_dirty now j).
Proof.
  intros Hne e (s & Hs & HP). exists s. split; [|done]. by apply (other_drive_dirty idx (Some s)).
Qed.

(** ** Polling delivers what waited for the handshake *)

Lemma mark_dirty_at e idx :
  endpoint_ok e -> (idx < Pool.MAX_POOL_SIZE)%nat ->
  safe (mark_dirty idx) e (fun r e' => r = Ok tt /\ endpoint_ok e' /\ pool e' = pool e /\
    Dirty.is_dirty (dirty e') idx = true).
Proof.
  intros He Hi. destruct (Dirty.run_mark_dirty idx (dirty e) (eo_dirty _ He) Hi) as (ev & t & Hr & Ht & Hd).
  unfold safe, mark_dirty, exec. rewrite Hr. split; [done|]. split; [destruct He; by split|]. split; [done|].
  cbn [dirty set_dirty]. rewrite Hd by done. by rewrite bool_decide_eq_true_2.
Qed.

Lemma slot_in_range e idx : endpoint_ok e -> (idx < Pool.MAX_POOL_SIZE)%nat -> exists s, slot_at e idx s.
Proof. intros He Hi. apply lookup_lt_is_Some_2. by rewrite (PoolSpec.inv_length _ (eo_pool _ He)). Qed.

Lemma slot_at_range e idx s : endpoint_ok e -> slot_at e idx s -> (idx < Pool.MAX_POOL_SIZE)%nat.
Proof. intros He Hs. rewrite <- (PoolSpec.inv_length _ (eo_pool _ He)). by eapply lookup_lt_Some. Qed.

Lemma remark_ok e idx :
  endpoint_ok e -> (idx < Pool.MAX_POOL_SIZE)%nat ->
  safe (remark idx) e (fun r e' => r = Ok tt /\ endpoint_ok e').
Proof.
  intros He Hi. destruct (slot_in_range e idx He Hi) as [s Hs]. apply safe_bind. eapply safe_get_slot; [exact Hs|].
  assert (Hm : safe (mark_dirty idx) e (fun r e' => r = Ok tt /\ endpoint_ok e')).
  { eapply safe_mono; [by apply mark_dirty_at|]. by intros r e' (-> & ? & _). }
  destruct (Pool.slot_state s); try done. by apply safe_when.
Qed.

Lemma drive_dirty_ok e now idx :
  endpoint_ok e -> (idx < Pool.MAX_POOL_SIZE)%nat ->
  safe (drive_dirty now idx) e (fun r e' => r = Ok tt /\ endpoint_ok e').
Proof.
  intros He Hi. apply safe_bind, safe_attempt. eapply safe_mono; [by apply keeps_drive_slot|].
  intros r e1 [He1 _]. by apply remark_ok.
Qed.

(** The packets of one poll. *)
Definition receive (now : Z) (packets : list (list Z * SocketAddr)) : M EP unit :=
  for_each packets (fun '(data, from) => recv_packet avx2 now Pool.addr data from).

Lemma keeps_receive now packets : keeps (receive now packets) (fun _ => True).
Proof. apply keeps_for_each. intros [data from] _. apply keeps_recv_packet. Qed.

(** C15. What waited for the handshake is sent when it is confirmed.  A poll whose
    packets [packets] lead to a state in which slot [idx] is marked, is not yet
    ready and has connection [c]; after quiche's own packets are out ([c1]) the
    handshake is confirmed, the connection is not closed and the peer has reported
    no error, and the socket takes the packets quiche has pending.  Then the poll
    makes the slot ready and hands the queued transactions to quiche, oldest
    first, each on the next unidirectional stream and with up to five attempts
    while quiche is [Done], as the relation [handed] says; then quiche produces
    packets.  What stays in the queue is what came after the first transaction
    that quiche refused; that one is in neither. *)
Theorem poll_delivers_queue e e1 now packets idx s c c1 :
  endpoint_ok e -> receive now packets e = (inr (Ok tt), e1) ->
  slot_at e1 idx s -> Pool.connection s = Some c -> Pool.slot_state s <> Ready ->
  Dirty.is_dirty (dirty e1) idx = true ->
  (forall net, exists n net1, send_loop (q_pending (inner c)) c net 0 = (Ok n, c1, net1)) ->
  q_is_handshake_confirmed (inner c1) = true -> q_peer_error (inner c1) = None -> q_is_closed (inner c1) = false ->
  safe (poll avx2 now packets false) e (fun r e' => r = Ok tt /\ endpoint_ok e' /\
    exists s' c' k q, slot_at e' idx s' /\ Pool.slot_state s' = Ready /\ Pool.connection s' = Some c' /\
      handed (queued c) (local_stream_uni_next c1) (inner c1) k (local_stream_uni_next c') q /\
      sent_packets q (inner c') /\ queued c' = drop (S k) (queued c)).
Proof.
  intros He Hrecv Hs Hc Hst Hd Hl Hconf Hpe Hcl.
  assert (He1 : endpoint_ok e1).
  { pose proof (keeps_receive now packets e He) as Hk. unfold safe in Hk. rewrite Hrecv in Hk. apply Hk. }
  pose proof (slot_at_range _ _ _ He1 Hs) as Hi. unfold poll. apply safe_bind. fold (receive now packets). unfold safe at 1. rewrite Hrecv. apply safe_bind.
  destruct (Dirty.run_poll_dirty 0 (dirty e1) (eo_dirty _ He1)) as (ev & l & Hrun & Hnd & Hmem).
  unfold safe at 1, exec at 1. rewrite Hrun. set (e2 := set_dirty Dirty.tracker_new e1).
  assert (He2 : endpoint_ok e2) by (destruct He1; by split).
  eapply safe_mono.
  - apply (safe_for_each_one endpoint_ok (holds_slot idx (eq s)) (holds_slot idx (delivered now c c1)) _ _ idx);
      [done|by apply Hmem|done|by exists s| | |].
    + intros j e3 Hj _ He3. apply Hmem in Hj as [Hj _]. by apply drive_dirty_ok.
    + intros j Hj. split; by apply holds_drive_dirty.
    + intros e3 He3 (s3 & Hs3 & <-). apply safe_bind, safe_attempt. destruct (Hl (socket e3)) as (n & net1 & Hl3).
      eapply safe_mono; [by eapply drive_delivers|]. intros r e4 [He4 Hdel].
      eapply safe_mono; [apply (safe_preserves (holds_slot idx (delivered now c c1))); [apply slots_remark|done|]|].
      { by apply remark_ok. }
      by intros r' e5 [[-> ?] ?].
  - intros r e' (-> & He' & s' & Hs' & c' & q & Hr & Hc' & Hfl & Hq). split; [done|]. split; [done|].
    pose proof (send_all_handed now (queued c) c1) as Hh. destruct (flushed_inner _ _ Hfl) as [Hsent Hn].
    exists s', c', (send_all now (queued c) c1).1, (inner (send_all now (queued c) c1).2).
    do 3 (split; [done|]). rewrite Hn. split; [done|]. split; [done|]. unfold queued at 1. by rewrite (flushed_queue _ _ Hfl).
Qed.

(** ** Sending *)

Lemma safe_find e a idx (R : Result (option nat) Error.t -> EP -> Prop) :
  endpoint_ok e -> (Pool.find avx2 a (pool e)).1 = Some idx ->
  (forall p, Pool.slots p = Pool.slots (pool e) -> endpoint_ok (set_pool p e) -> R (Ok (Some idx)) (set_pool p e)) ->
  safe (find avx2 a) e R.
Proof.
  intros He Hf HR. unfold safe, find. pose proof (find_slots a (pool e)) as Hp.
  destruct (Pool.find avx2 a (pool e)) as [r p]. simpl in Hf, Hp. subst r. apply HR; [done|].
  apply set_pool_ok; [done|rewrite Hp; apply He|rewrite Hp; apply He].
Qed.

(** What [try_enqueue] answers, and the queue afterwards. *)
Definition enqueue_status (c : QuicConnection Q) (data : list Z) : TxQueue.SendStatus :=
  if (TxQueue.MAX_PACKET_SIZE <? length data)%nat then TxQueue.Dead 0
  else if CAP <=? TxQueue.count (tx_queue c) then TxQueue.QueueFull
  else TxQueue.Queued (TxQueue.count (tx_queue c) mod 256).

Definition queue_after (c : QuicConnection Q) (data : list Z) : list (list Z) :=
  if (TxQueue.MAX_PACKET_SIZE <? length data)%nat || (CAP <=? TxQueue.count (tx_queue c))
  then queued c else queued c ++ [data].

Lemma try_enqueue_at e idx s c data :
  endpoint_ok e -> slot_at e idx s -> Pool.connection s = Some c ->
  safe (try_enqueue idx data) e (fun r e' => r = Ok (enqueue_status c data) /\ endpoint_ok e' /\ dirty e' = dirty e /\
    exists c', slot_at e' idx (Pool.set_connection (Some c') s) /\ inner c' = inner c /\ queued c' = queue_after c data).
Proof.
  intros He Hs Hc. assert (Hq : conn_ok c) by (by eapply (eo_slots _ He)).
  destruct (TxQueue.try_enqueue_spec CAP ltac:(done) (tx_queue c) data Hq) as (q' & Hq' & Hr & Hp).
  unfold try_enqueue. apply safe_bind. eapply safe_connection_of; [exact Hs|done|]. rewrite Hr.
  apply safe_bind, safe_on_slot, safe_ret. split; [done|].
  split; [apply (keeps_put_connection idx (with_queue q' c) Hq' e He)|]. split; [done|].
  exists (with_queue q' c). split; [by apply slot_at_with_slot|]. by split.
Qed.

(** Sending during the handshake.  A transaction for a connection that is
    still connecting and takes no early data is appended to its queue, behind
    what is there, or refused with [QueueFull] or, if it is too long, [Dead]; the
    slot is marked for the next poll in every case, and nothing is handed to
    quiche. *)
Theorem send_queues_transaction e now a data idx s c :
  endpoint_ok e -> (Pool.find avx2 a (pool e)).1 = Some idx -> slot_at e idx s ->
  Pool.slot_state s = Connecting -> Pool.connection s = Some c -> q_is_in_early_data (inner c) = false ->
  safe (send avx2 now a data) e (fun r e' => r = Ok (enqueue_status c data) /\ endpoint_ok e' /\
    Dirty.is_dirty (dirty e') idx = true /\
    exists c', slot_at e' idx (Pool.set_connection (Some c') s) /\ inner c' = inner c /\ queued c' = queue_after c data).
Proof.
  intros He Hf Hs Hst Hc Hea. apply safe_bind. eapply safe_find; [done|done|]. intros p Hp He1.
  apply safe_bind, safe_ret. assert (Hs1 : slot_at (set_pool p e) idx s) by (unfold slot_at in *; by rewrite <- Hp in Hs).
  apply safe_bind. eapply safe_get_slot; [exact Hs1|]. rewrite Hst, Hc. apply safe_bind, safe_ret.
  rewrite Hea. apply safe_bind, safe_ret, safe_bind. eapply safe_mono; [by eapply try_enqueue_at|].
  intros r e2 (-> & He2 & _ & c' & Hs2 & Hin & Hq). apply safe_bind.
  eapply safe_mono; [apply mark_dirty_at; [done|by eapply slot_at_range]|].
  intros r' e3 (-> & He3 & Hpool & Hd). apply safe_ret. do 3 (split; [done|]).
  exists c'. unfold slot_at in *. rewrite Hpool. done.
Qed.

(** ** The packets of quiche come to an end *)

Lemma conn_send_progress `{!quiche_ok Q} c p c' :
  conn_send c = (Ok p, c') -> (q_pending (inner c') < q_pending (inner c))%nat.
Proof.
  unfold conn_send. destruct (q_send (inner c)) as [[p'|[]] q] eqn:Hq; try done.
  intros [= _ <-]. by eapply q_send_progress.
Qed.

(** [send_pending_packets] terminates: with a quiche that comes to an end,
    the loop sends at most as many packets as quiche has pending, more fuel
    changes nothing, and when it returns a count, quiche has just answered that
    it has nothing more to send. *)
Theorem send_pending_terminates `{!quiche_ok Q} fuel : forall c (net : N) n,
  (q_pending (inner c) <= fuel)%nat ->
  (forall more, send_loop (fuel + more) c net n = send_loop fuel c net n) /\
  forall m c' net', send_loop fuel c net n = (Ok m, c', net') ->
    (n <= m <= n + q_pending (inner c))%nat /\ exists c0, conn_send c0 = (Err Error.WouldBlock, c').
Proof.
  induction fuel as [|fuel IH]; intros c net n Hf.
  - assert (Hno : forall p c', conn_send c <> (Ok p, c')).
    { intros p c' H. apply conn_send_progress in H. lia. }
    split; [intros [|more]|intros m c' net']; cbn [Nat.add send_loop]; try done;
      destruct (conn_send c) as [[[p to]|x] c1] eqn:Hc; try (by destruct (Hno (p, to) c1)); try done.
    destruct x; intros [=]; subst; split; [lia|eauto].
  - split; [intros more|intros m c' net']; cbn [Nat.add send_loop];
      destruct (conn_send c) as [[[p to]|x] c1] eqn:Hc; try done.
    + destruct (send_to p to net) as [[|] net1]; [|done]. apply IH. apply conn_send_progress in Hc. lia.
    + destruct (send_to p to net) as [[|] net1]; [|done]. apply conn_send_progress in Hc. intros H.
      apply IH in H as [? ?]; [|lia]. split; [lia|done].
    + destruct x; intros [=]; subst; split; [lia|eauto].
Qed.

End run.

(** ** An example *)

Abbreviation demo_endpoint := (QuicEndpoint (Q := model_conn) (N := model_net)).

(** The slot of an address, and its connection. *)
Definition slot_get (e : demo_endpoint) (a : SocketAddr) : nat := default 0%nat (Pool.find false a (pool e)).1.
Definition slot_read (e : demo_endpoint) (idx : nat) : Pool.ConnectionSlot :=
  default Pool.slot_default (Pool.slots (pool e) !! idx).
Definition conn_read (e : demo_endpoint) (idx : nat) : QuicConnection model_conn :=
  default (connection_new 0 {| confirmed_ := false; credit := 0; streams := []; out := []; remote := peer_a |})
    (Pool.connection (slot_read e idx)).

Definition demo_after (ops : list operation) : demo_endpoint :=
  (for_each ops (perform false) (endpoint_new [] None)).2.

Lemma demo_after_ok ops : Forall operation_ok ops -> endpoint_ok (demo_after ops).
Proof.
  intros Hops. pose proof (keeps_for_each ops (perform (Q := model_conn) (N := model_net) false)
                (fun o Ho => keeps_perform false o (proj1 (Forall_forall _ _) Hops o Ho)) (endpoint_new [] None)) as Hk.
  unfold safe in Hk. unfold demo_after. destruct (for_each _ _ _) as [[|r] e].
  - destruct Hk. by apply endpoint_new_ok.
  - apply Hk. by apply endpoint_new_ok.
Qed.

Definition demo_start : demo_endpoint := demo_after [Connect 5 peer_a].
Lemma demo_start_ok : endpoint_ok demo_start.
Proof. apply demo_after_ok. by repeat constructor. Qed.

Definition demo_sent : demo_endpoint := demo_after [Connect 5 peer_a; Send 6 peer_a [42]; Send 6 peer_a [43; 44]; Send 6 peer_a [45]].
Definition demo_idx : nat := Eval vm_compute in slot_get demo_start peer_a.

Lemma slot_read_at e idx : endpoint_ok e -> (idx <? Pool.MAX_POOL_SIZE)%nat = true -> slot_at e idx (slot_read e idx).
Proof.
  intros He Hi. destruct (slot_in_range e idx He) as [s Hs]; [by apply Nat.ltb_lt|].
  unfold slot_read. unfold slot_at in *. by rewrite Hs.
Qed.

Definition has_connection (e : demo_endpoint) (idx : nat) : bool :=
  match Pool.connection (slot_read e idx) with Some _ => true | None => false end.

Lemma conn_read_at e idx : has_connection e idx = true -> Pool.connection (slot_read e idx) = Some (conn_read e idx).
Proof. unfold has_connection, conn_read. by destruct (Pool.connection (slot_read e idx)). Qed.

Lemma conn_at e idx s c : slot_at e idx s -> Pool.connection s = Some c -> conn_read e idx = c.
Proof. unfold slot_at, conn_read, slot_read. intros -> Hc. simpl. by rewrite Hc. Qed.

(** A connection of the model with nothing to send. *)
Lemma idle_send_loop (c : QuicConnection model_conn) (net : model_net) :
  out (inner c) = [] -> send_loop (q_pending (inner c)) c net 0 = (Ok 0%nat, c, net).
Proof.
  intros Ho. simpl. rewrite Ho. simpl. unfold conn_send. simpl. unfold model_send. rewrite Ho. by destruct c.
Qed.

Lemma send_queues_transaction_witness :
  exists e', send false 6 peer_a [42] demo_start = (inr (Ok (TxQueue.Queued 0)), e') /\
             Dirty.is_dirty (dirty e') demo_idx = true /\ queued (conn_read e' demo_idx) = [[42]].
Proof.
  pose proof (send_queues_transaction false demo_start 6 peer_a [42] demo_idx (slot_read demo_start demo_idx)
    (conn_read demo_start demo_idx) demo_start_ok ltac:(vm_compute; reflexivity)
    (slot_read_at demo_start demo_idx demo_start_ok eq_refl) ltac:(vm_compute; reflexivity)
    (conn_read_at demo_start demo_idx ltac:(vm_compute; reflexivity)) eq_refl) as H.
  apply safe_inv in H as (r & e' & Hrun & -> & _ & Hd & c' & Hs & _ & Hq). exists e'. rewrite Hrun.
  assert (enqueue_status (conn_read demo_start demo_idx) [42] = TxQueue.Queued 0) as -> by (vm_compute; reflexivity).
  split; [done|]. split; [done|]. rewrite (conn_at _ _ _ _ Hs eq_refl), Hq. vm_compute. reflexivity.
Defined.

Lemma poll_delivers_queue_witness :
  exists e', poll false 7 [([1], peer_a)] false demo_sent = (inr (Ok tt), e') /\
    Pool.slot_state (slot_read e' demo_idx) = Ready /\ queued (conn_read e' demo_idx) = [].
Proof.
  assert (He : endpoint_ok demo_sent) by (apply demo_after_ok; by repeat constructor). set (e1 := (receive false 7 [([1], peer_a)] demo_sent).2).
  assert (Hr : receive false 7 [([1], peer_a)] demo_sent = (inr (Ok tt), e1)).
  { rewrite (surjective_pairing (receive _ _ _ _)). apply (f_equal (fun r => (r, e1))). vm_compute. reflexivity. }
  assert (He1 : endpoint_ok e1).
  { destruct (safe_inv _ _ _ (keeps_receive false 7 [([1], peer_a)] demo_sent He)) as (r & e' & Hk & Hok & _). congruence. }
  pose proof (poll_delivers_queue false demo_sent e1 7 [([1], peer_a)] demo_idx (slot_read e1 demo_idx)
    (conn_read e1 demo_idx) (conn_read e1 demo_idx) He Hr (slot_read_at e1 demo_idx He1 eq_refl)
    (conn_read_at e1 demo_idx ltac:(vm_compute; reflexivity)) ltac:(vm_compute; discriminate)
    ltac:(vm_compute; reflexivity)
    (fun net => ex_intro _ 0%nat (ex_intro _ net (idle_send_loop (conn_read e1 demo_idx) net ltac:(vm_compute; reflexivity))))
    ltac:(vm_compute; reflexivity) eq_refl eq_refl) as H.
  apply safe_inv in H as (r & e' & Hrun & -> & _ & s' & c' & k & q & Hs & Hst & Hc & Hh & _ & Hq). exists e'. split; [done|].
  destruct (handed_det _ _ _ _ _ _ _ _ _ Hh (send_all_handed 7 (queued (conn_read e1 demo_idx)) (conn_read e1 demo_idx))) as (-> & _).
  rewrite (conn_at _ _ _ _ Hs Hc), Hq. split; [unfold slot_read; unfold slot_at in Hs; by rewrite Hs|].
  vm_compute. reflexivity.
Defined.

Definition demo_pending : QuicConnection model_conn :=
  connection_new 0 {| confirmed_ := false; credit := 0; streams := [];
                      out := [([1], peer_a); ([2], peer_a)]; remote := peer_a |}.

Lemma send_pending_terminates_witness :
  exists c0 c' net', send_loop 3 demo_pending ([] : model_net) 0 = (Ok 2%nat, c', net') /\
    conn_send c0 = (Err Error.WouldBlock, c').
Proof.
  destruct (send_pending_terminates 3 demo_pending ([] : model_net) 0
              ltac:(apply Nat.leb_le; vm_compute; reflexivity)) as [_ H].
  assert (Hr : (send_loop 3 demo_pending ([] : model_net) 0).1.1 = Ok 2%nat) by (vm_compute; reflexivity).
  destruct (send_loop 3 demo_pending ([] : model_net) 0) as [[r c'] net']. simpl in Hr. subst r.
  destruct (H _ _ _ eq_refl) as [_ [c0 Hc0]]. by exists c0, c', net'.
Defined.
