(* ===== verification/EndpointFaults.v ===== *)
(** * EndpointFaults: transactions and handshakes that are left behind

    Two consequences of what the endpoint marks for [poll] and what [drive_slot]
    does: a transaction that was queued because quiche would not take it stays in
    the queue of a ready connection, and a connection that was only prewarmed
    does not become ready by polling. *)
From S2P Require Import Prelude Conc Net Quic QuicModel Strategy Timing TimingSpec Endpoint EndpointSpec EndpointRun.
From S2P Require Pool PoolSpec TxQueue SessionCache Dirty.

Set Default Proof Using "Type".

Section faults.
Context {Q N : Type} `{!quiche_api Q} `{!udp_api N} (avx2 : bool).
Abbreviation EP := (QuicEndpoint (Q := Q) (N := N)).
Abbreviation slot := (Pool.ConnectionSlot (Conn := QuicConnection Q)).
Abbreviation holds_slot idx P := (of_slots (N := N) (one_slot idx P)).
Implicit Types (e : EP) (s : slot) (c : QuicConnection Q).

(** ** Receiving and a property of one slot *)

Lemma preserves_read_slot {A} (I : EP -> Prop) j (f : slot -> M EP A) :
  (forall e s, slot_at e j s -> I e -> I (f s e).2) -> preserves I (get_slot j ≫= f).
Proof.
  intros Hf e He. unfold get_slot, lift_fault, mbind, M_bind.
  destruct (Pool.slots (pool e) !! j) as [s|] eqn:Hs; [|done]. by apply Hf.
Qed.

(** Properties of a slot that packets from the peer do not change. *)
Record recv_free (P : slot -> Prop) : Prop := {
  rf_inner s c q : Pool.connection s = Some c -> P s -> P (Pool.set_connection (Some (with_inner q c)) s);
  rf_touch s now : P s -> P (Pool.touch now s);
  rf_failed s now data from q code q' : q_recv data from q = (Err (Other code), q') -> P s -> P (Pool.fail_slot now s);
}.

Lemma holds_mark_failed idx P now j :
  (forall s, P s -> P (Pool.fail_slot now s)) -> preserves (holds_slot idx P) (mark_failed now j).
Proof.
  intros HP e He. unfold mark_failed, on_pool, modify, of_slots. cbn [snd set_pool pool].
  rewrite mark_failed_slots. apply one_slot_alter; [auto|done].
Qed.

Lemma holds_recv_packet idx P now peer data from :
  recv_free P -> preserves (holds_slot idx P) (recv_packet avx2 now peer data from).
Proof.
  intros [Hi Ht Hf]. unfold recv_packet. apply preserves_bind; [by apply preserves_find; intros p e0; unfold of_slots; simpl; intros ->|].
  intros [j|]; [|by apply preserves_same]. apply preserves_read_slot. intros e s Hs He.
  destruct (_ && _); [done|]. destruct (Pool.connection s) as [c|] eqn:Hc; [|done].
  destruct (q_recv data from (inner c)) as [r q'] eqn:Hq.
  assert (Hput : holds_slot idx P (put_connection j (with_inner q' c) e).2).
  { apply one_slot_alter; [|done]. intros -> s0 Hs0 HP0. unfold slot_at in Hs.
    assert (s0 = s) as -> by congruence. by apply Hi. }
  unfold mbind at 1, M_bind. destruct (put_connection j (with_inner q' c) e) as [[|[[]|]] e1]; try exact Hput.
  simpl in Hput. destruct r as [n|[|code]]; [|done|by apply holds_mark_failed; [intros s1; eapply Hf; exact Hq|]].
  apply (preserves_bind (holds_slot idx P)); [by apply holds_on_slot; auto| |done]. intros _.
  apply preserves_when, slots_save_session.
Qed.

(** ** A ready connection is not drained *)

(** Slot [idx] is ready, and its queue starts with [ps]. *)
Definition stuck (ps : list (list Z)) s : Prop :=
  Pool.slot_state s = Ready /\ exists c, Pool.connection s = Some c /\ queued c = ps.

Lemma stuck_flush_free ps : flush_free (stuck ps).
Proof.
  intros s c c' Hc Hfl (Hr & c0 & Hc0 & Hq). split; [done|]. exists c'. split; [done|].
  unfold queued in *. rewrite (flushed_queue _ _ Hfl). by assert (c0 = c) as <- by congruence.
Qed.

(** A peer whose packets quiche accepts. *)
Definition well_behaved : Prop := forall data from (q : Q) code q', q_recv data from q <> (Err (Other code), q').

Lemma stuck_recv_free ps : well_behaved -> recv_free (stuck ps).
Proof.
  intros Hw. split.
  - intros s c q Hc (Hr & c0 & Hc0 & Hq). split; [done|]. exists (with_inner q c). split; [done|].
    by assert (c0 = c) as <- by congruence.
  - done.
  - intros s now data from q code q' H. by destruct (Hw _ _ _ _ _ H).
Qed.

(** Driving a ready connection sends its packets and nothing else. *)
Lemma drive_ready idx P now j :
  flush_free P -> (forall s, P s -> Pool.slot_state s = Ready) -> preserves (holds_slot idx P) (drive_slot now j).
Proof.
  intros HP Hr. destruct (decide (idx = j)) as [<-|Hne].
  2: { intros e (s & Hs & HPs). exists s. split; [|done]. by apply (other_drive_slot idx (Some s)). }
  apply preserves_read_slot. intros e s Hs He. assert (Pool.slot_state s = Ready) as ->.
  { destruct He as (s0 & Hs0 & HP0). unfold slot_at in Hs. assert (s0 = s) as -> by congruence. by apply Hr. }
  rewrite bool_decide_eq_true_2 by done. revert e He Hs. 
  enough (Hgo : preserves (holds_slot idx P) (send_pending_packets idx ≫= fun _ =>
            c ← connection_of idx; when (q_is_handshake_confirmed (inner c) && negb true) (confirmed now idx)))
    by (intros e He _; by apply Hgo).
  apply preserves_bind; [by apply holds_send_pending|]. intros _.
  apply preserves_bind; [apply preserves_connection_of|]. intros c. rewrite andb_false_r. by apply preserves_same.
Qed.

Lemma stuck_drive_dirty idx ps now j : preserves (holds_slot idx (stuck ps)) (drive_dirty now j).
Proof.
  apply preserves_bind; [|intros _; apply slots_remark]. apply preserves_attempt, drive_ready; [apply stuck_flush_free|].
  by intros s [? _].
Qed.

Lemma holds_poll idx P now packets io :
  recv_free P -> (forall j, preserves (holds_slot idx P) (drive_dirty now j)) ->
  preserves (holds_slot idx P) (poll avx2 now packets io).
Proof.
  intros Hr Hd. unfold poll. apply preserves_bind.
  { apply preserves_for_each. intros [data from] _. by apply holds_recv_packet. }
  intros _. destruct io; [by apply preserves_same|]. apply preserves_bind; [apply slots_dirty|].
  intros l. apply preserves_for_each. auto.
Qed.

(** The operations that run in the background. *)
Definition upkeep (o : operation) : bool :=
  match o with Poll _ _ _ | KeepAlive _ _ _ | HandleRecv _ _ _ => true | _ => false end.

Lemma upkeep_operation_ok o : upkeep o = true -> operation_ok o.
Proof. by destruct o. Qed.

Lemma stuck_upkeep idx ps o :
  well_behaved -> upkeep o = true -> preserves (holds_slot idx (stuck ps)) (perform avx2 o).
Proof.
  intros Hw Ho. assert (Hig : forall A (m : M EP A), preserves (holds_slot idx (stuck ps)) m ->
                          preserves (holds_slot idx (stuck ps)) (ignore m)).
  { intros A m Hm. apply preserves_bind; [by apply preserves_attempt|]. intros _. by apply preserves_same. }
  destruct o; try done; apply Hig; clear Hig.
  - apply holds_poll; [by apply stuck_recv_free|]. intros j. apply stuck_drive_dirty.
  - unfold keep_alive_if_idle. apply preserves_bind.
    { apply preserves_find. intros p e0. unfold of_slots. simpl. by intros ->. }
    intros [j|]; [|by apply preserves_same]. apply preserves_bind; [apply preserves_get_slot|]. intros s.
    apply preserves_when, drive_ready; [apply stuck_flush_free|]. by intros s0 [? _].
  - by apply holds_recv_packet, stuck_recv_free.
Qed.

(** A transaction that quiche would not take at once is queued, and then
    stays where it is.  [send] on a ready connection answers [Queued] when quiche
    has no room, but does not mark the slot, and driving a ready connection does
    not look at its queue: whatever polls, keep-alives and packets follow, as
    long as the connection stays up, the transaction remains in the queue and
    nothing of the queue is sent. *)
Theorem blocked_transaction_stuck e now a data idx s c c1 ops :
  well_behaved -> endpoint_ok e -> (Pool.find avx2 a (pool e)).1 = Some idx -> slot_at e idx s ->
  Pool.slot_state s = Ready -> Pool.connection s = Some c -> send_uni now data c = (Err Error.WouldBlock, c1) ->
  (length data <= TxQueue.MAX_PACKET_SIZE)%nat -> TxQueue.count (tx_queue c) < CAP ->
  Forall (fun o => upkeep o = true) ops ->
  safe (send avx2 now a data) e (fun r e1 => r = Ok (TxQueue.Queued (TxQueue.count (tx_queue c) mod 256)) /\
    dirty e1 = dirty e /\
    safe (for_each ops (perform avx2)) e1 (fun _ e2 => endpoint_ok e2 /\
      exists s2 c2, slot_at e2 idx s2 /\ Pool.slot_state s2 = Ready /\ Pool.connection s2 = Some c2 /\
        queued c2 = queued c ++ [data])).
Proof.
  intros Hw He Hf Hs Hst Hc Hsend Hlen Hcount Hops. apply safe_bind. eapply safe_find; [done|done|]. intros p Hp He1.
  apply safe_bind, safe_ret. set (e1 := set_pool p e) in *.
  assert (Hs1 : slot_at e1 idx s) by (unfold slot_at in *; by rewrite <- Hp in Hs).
  apply safe_bind. eapply safe_get_slot; [exact Hs1|]. rewrite Hst. apply safe_bind. unfold slot_send_uni.
  apply safe_bind. eapply safe_connection_of; [exact Hs1|done|]. rewrite Hsend.
  apply safe_bind, safe_on_slot, safe_ret.
  assert (Hq1 : tx_queue c1 = tx_queue c) by (pose proof (send_uni_queue now data c) as H; by rewrite Hsend in H).
  set (e2 := with_slot idx (Pool.set_connection (Some c1)) e1).
  assert (He2 : endpoint_ok e2).
  { apply (keeps_put_connection idx c1); [|done]. unfold conn_ok. rewrite Hq1. by apply (eo_slots _ He _ _ Hs). }
  eapply safe_mono; [apply (try_enqueue_at e2 idx (Pool.set_connection (Some c1) s) c1); [done|by apply slot_at_with_slot|done]|].
  intros r e3 (-> & He3 & Hd & c3 & Hs3 & _ & Hq3).
  unfold enqueue_status, queue_after, queued in *. rewrite Hq1, (proj2 (Nat.ltb_ge _ _) Hlen), (proj2 (Z.leb_gt _ _) Hcount) in *.
  split; [done|]. split; [done|]. eapply safe_mono.
  - eapply (keeps_preserves (holds_slot idx (stuck (queued c ++ [data])))); [| |done|].
    + apply keeps_for_each. intros o Ho. apply keeps_perform, upkeep_operation_ok. by eapply (proj1 (Forall_forall _ _) Hops).
    + apply preserves_for_each. intros o Ho. apply stuck_upkeep; [done|]. by eapply (proj1 (Forall_forall _ _) Hops).
    + eexists. split; [exact Hs3|]. split; [done|]. by exists c3.
  - intros r e4 (He4 & s2 & Hs2 & Hr2 & c2 & Hc2 & Hq2). split; [done|]. by exists s2, c2.
Qed.

(** ** A prewarmed connection is not polled *)

(** quiche before the first packet of the peer: a connection is [fresh] when it
    is created, setting the session and taking packets from it leave it so, and
    a fresh connection is neither established nor confirmed. *)
Record handshake_needs_peer (fresh : Q -> Prop) : Prop := {
  hp_connect scid a q : q_connect scid a = Ok q -> fresh q;
  hp_session data q : fresh q -> fresh (q_set_session data q).2;
  hp_send q : fresh q -> fresh (q_send q).2;
  hp_waits q : fresh q -> q_is_established q = false /\ q_is_handshake_confirmed q = false;
}.

Section prewarmed.
Context (fresh : Q -> Prop).
Hypothesis Hfresh : handshake_needs_peer fresh.

Definition not_ready (s : slot) : Prop := Pool.slot_state s <> Ready.

(** No slot is ready and none is marked. *)
Definition unmarked e : Prop :=
  Forall not_ready (Pool.slots (pool e)) /\ forall i, (i < 128)%nat -> Dirty.is_dirty (dirty e) i = false.

Lemma unmarked_alter e p j f :
  (forall s, not_ready s -> not_ready (f s)) -> Pool.slots p = alter f j (Pool.slots (pool e)) ->
  unmarked e -> unmarked (set_pool p e).
Proof.
  intros Hf Hp [Hs Hd]. split; [|done]. cbn [pool set_pool]. rewrite Hp. apply Forall_alter; [done|]. auto.
Qed.

Lemma unmarked_pool e p : Pool.slots p = Pool.slots (pool e) -> unmarked e -> unmarked (set_pool p e).
Proof. intros Hp [Hs Hd]. split; [|done]. cbn [pool set_pool]. by rewrite Hp. Qed.

Lemma unmarked_on_slot j f : (forall s, not_ready s -> not_ready (f s)) -> preserves unmarked (on_slot j f).
Proof. intros Hf e He. by apply (unmarked_alter e _ j f). Qed.

Lemma fail_slot_not_ready now s : not_ready (Pool.fail_slot now s).
Proof.
  unfold not_ready, Pool.fail_slot, Pool.increment_retry.
  repeat case_match; simplify_eq; done.
Qed.

Lemma unmarked_mark_failed now j : preserves unmarked (mark_failed now j).
Proof.
  intros e He. apply (unmarked_alter e _ j (Pool.fail_slot now)); [|apply mark_failed_slots|done].
  intros s _. apply fail_slot_not_ready.
Qed.

Lemma unmarked_find a : preserves unmarked (find avx2 a).
Proof. apply preserves_find. intros p e. apply unmarked_pool. Qed.

Lemma unmarked_cache {A} (none : A) p : preserves unmarked (with_cache none p).
Proof. by apply preserves_cache. Qed.

Lemma unmarked_save_session now a q : preserves unmarked (save_session now a q).
Proof.
  unfold save_session. destruct (q_session q); [|by apply preserves_same].
  apply preserves_bind; [apply unmarked_cache|]. intros _. by apply preserves_same.
Qed.

Lemma unmarked_put j c : preserves unmarked (put_connection j c).
Proof. by apply unmarked_on_slot. Qed.

Create HintDb unmarked discriminated.
#[local] Hint Resolve unmarked_on_slot unmarked_mark_failed unmarked_find unmarked_cache unmarked_save_session
  unmarked_put preserves_get_slot preserves_connection_of : unmarked.

Ltac unmarked_step :=
  lazymatch goal with
  | |- preserves _ (modify _) => apply preserves_modify; done
  | |- _ => preserves_step ltac:(eauto with unmarked nocore)
  end.

Lemma unmarked_recv_packet now peer data from : preserves unmarked (recv_packet avx2 now peer data from).
Proof. unfold recv_packet. repeat unmarked_step. Qed.

Lemma unmarked_send_pending j : preserves unmarked (send_pending_packets j).
Proof. unfold send_pending_packets. repeat unmarked_step. Qed.

(** A connection that nobody answered. *)
Definition fresh_slot (s : slot) : Prop := exists c, Pool.connection s = Some c /\ fresh (inner c).

Lemma fresh_flush_free : flush_free fresh_slot.
Proof using Hfresh.
  intros s c c' Hc Hfl (c0 & Hc0 & Hf). exists c'. split; [done|]. assert (c0 = c) as -> by congruence.
  clear Hc Hc0. induction Hfl as [|c c1 c2 -> _ IH]; [done|]. apply IH. unfold conn_send.
  pose proof (hp_send _ Hfresh _ Hf) as Hs. by destruct (q_send (inner c)) as [[|[]] q].
Qed.

Lemma unmarked_drive now idx e :
  unmarked e -> holds_slot idx fresh_slot e -> unmarked (drive_slot now idx e).2.
Proof using Hfresh.
  intros He Hf. enough (Hgo : unmarked (drive_slot now idx e).2 /\ holds_slot idx fresh_slot (drive_slot now idx e).2) by apply Hgo.
  revert e He Hf. enough (Hp : preserves (fun e => unmarked e /\ holds_slot idx fresh_slot e) (drive_slot now idx)).
  { intros e He Hf. by apply Hp. }
  unfold drive_slot. apply preserves_bind; [apply preserves_get_slot|]. intros s. apply preserves_bind.
  { intros e [He Hf]. split; [by apply unmarked_send_pending|by apply holds_send_pending; [apply fresh_flush_free|]]. }
  intros _. apply preserves_update_connection. intros e s0 c Hs Hc [He (s1 & Hs1 & c1 & Hc1 & Hf)].
  unfold slot_at in Hs. assert (s1 = s0) as -> by congruence. assert (c1 = c) as -> by congruence.
  destruct (hp_waits _ Hfresh _ Hf) as [_ Hno]. rewrite Hno. split; [done|]. exists s0. split; [done|]. by exists c.
Qed.

Lemma unmarked_restore now a q : preserves unmarked (restore_session now a q).
Proof.
  unfold restore_session, cache_get, cache_invalidate. repeat unmarked_step.
  apply preserves_modify. intros e. by apply unmarked_pool.
Qed.

Lemma restore_fresh now a q e q' e' :
  fresh q -> restore_session now a q e = (inr (Ok q'), e') -> fresh q'.
Proof using Hfresh.
  intros Hq. unfold restore_session, cache_get, cache_invalidate, mbind, M_bind.
  destruct (with_cache None _ e) as [[|[[token|]|]] e1]; try done; [|by intros [= <- _]].
  pose proof (hp_session _ Hfresh (SessionCache.as_slice token) _ Hq) as Hq1.
  destruct (_ <? _).
  - destruct (q_set_session _ q) as [[] q1]; by intros [= <- _].
  - destruct (with_cache tt _ e1) as [[|[]] e2]; try done. by intros [= <- _].
Qed.

Lemma slots_restore F now a q : preserves (of_slots (N := N) F) (restore_session now a q).
Proof.
  unfold restore_session, cache_get, cache_invalidate.
  repeat lazymatch goal with
         | |- preserves _ (with_cache _ _) => apply preserves_cache; done
         | |- preserves _ (on_pool _) => intros ? He; exact He
         | _ => preserves_step ltac:(done)
         end.
Qed.

(** A new connection in a slot. *)
Lemma store_unmarked now idx (q : Q) e :
  fresh q -> unmarked e -> (idx < length (Pool.slots (pool e)))%nat ->
  let e' := set_pool (Pool.store_connection conn_state now idx (connection_new now q) (pool e)) e in
  unmarked e' /\ holds_slot idx fresh_slot e'.
Proof using Hfresh.
  intros Hq He Hi e'. destruct (hp_waits _ Hfresh _ Hq) as [Hno _].
  set (f := fun s => Pool.touch now (Pool.set_state (conn_state (connection_new now q))
                       (Pool.set_connection (Some (connection_new now q)) s))).
  assert (Hsl : Pool.slots (Pool.store_connection conn_state now idx (connection_new now q) (pool e))
                = alter f idx (Pool.slots (pool e))).
  { unfold Pool.store_connection, Pool.set_active, Pool.on_active. by destruct (idx <? 64)%nat. }
  split.
  - apply (unmarked_alter e _ idx f); [|done|done]. intros s _. unfold not_ready, f, conn_state. simpl. by rewrite Hno.
  - destruct (lookup_lt_is_Some_2 _ _ Hi) as [s Hs]. exists (f s). cbn [e' pool set_pool]. rewrite Hsl, list_lookup_alter_eq, Hs.
    split; [done|]. by exists (connection_new now q).
Qed.

Lemma unmarked_allocate now a e :
  endpoint_ok e -> unmarked e ->
  exists idx p, find_or_allocate now a e = (inr (Ok idx), set_pool p e) /\ unmarked (set_pool p e) /\
    (idx < length (Pool.slots p))%nat.
Proof.
  intros He Hu. destruct (PoolSpec.find_or_allocate_cases (pool e) now a (eo_pool _ He)) as (idx & p & Hf & Hinv & Hi & Hc).
  exists idx, p. unfold find_or_allocate. rewrite Hf. split; [done|].
  rewrite (PoolSpec.inv_length _ Hinv). split; [|done].
  destruct Hc as [[_ Hp]|(_ & Hp & _)]; [by apply unmarked_pool|]. by apply (unmarked_alter e _ idx (Pool.assign now a)).
Qed.

Lemma unmarked_connect_start now a e : endpoint_ok e -> unmarked e -> unmarked (connect_start now a e).2.
Proof using Hfresh.
  intros He Hu. destruct (unmarked_allocate now a e He Hu) as (idx & p & Hf & Hu1 & Hi).
  unfold connect_start. unfold mbind at 1, M_bind at 1. rewrite Hf. set (e1 := set_pool p e) in *.
  revert Hu1. apply preserves_read_slot. intros e2 s Hs Hu2.
  rewrite bool_decide_eq_false_2 by (apply (Forall_lookup_1 _ _ _ _ (proj1 Hu2) Hs)).
  assert (Hi2 : (idx < length (Pool.slots (pool e2)))%nat) by (by eapply lookup_lt_Some). clear Hs Hi He Hu Hf.
  unfold mbind at 1, M_bind at 1, generate_scid. set (e3 := set_scid_counter _ e2).
  generalize ((fun i => Z.shiftr (wrapping_add64 (scid_counter e2) 1) (8 * i) mod 256) <$> seqZ 0 8). intros scid.
  assert (Hu3 : unmarked e3) by done. change (pool e2) with (pool e3) in Hi2. clearbody e3. clear Hu2 e2.
  destruct (q_connect scid a) as [q|x] eqn:Hq; [|done]. apply (hp_connect _ Hfresh) in Hq.
  pose proof (unmarked_restore now a q e3 Hu3) as Hu4.
  pose proof (slots_restore (fun l => (idx < length l)%nat) now a q e3 Hi2) as Hi4.
  unfold mbind at 1, M_bind at 1. destruct (restore_session now a q e3) as [[|[q'|]] e4] eqn:Hr; try done.
  apply restore_fresh in Hr; [|done]. simpl in Hu4, Hi4.
  set (e5 := with_slot idx (Pool.set_connect_start_ns now) e4).
  assert (Hu5 : unmarked e5) by (by apply unmarked_on_slot).
  destruct (store_unmarked now idx q' e5 Hr Hu5) as [Hu6 Hf6].
  { unfold e5, with_slot. simpl. by rewrite length_alter. }
  match type of Hu6 with unmarked ?e6 => set (e7 := set_conn_id_map (<[scid := idx]> (conn_id_map e6)) e6) end.
  change (unmarked ((drive_slot now idx ≫= fun _ => mret (M := M EP) (@inr nat nat idx)) e7).2).
  pose proof (unmarked_drive now idx e7 Hu6 Hf6) as Hu8. unfold mbind, M_bind.
  by destruct (drive_slot now idx e7) as [[|[]] e8].
Qed.

(** What a prewarming loop and polls do. *)
Definition prewarm_or_poll (o : operation) : bool :=
  match o with Poll _ _ _ | PrewarmAll _ _ => true | _ => false end.

Lemma prewarm_operation_ok o : prewarm_or_poll o = true -> operation_ok o.
Proof. by destruct o. Qed.

Definition quiet e : Prop := endpoint_ok e /\ unmarked e.

Lemma quiet_of {A} (m : M EP A) R :
  keeps m R -> (forall e, quiet e -> unmarked (m e).2) -> preserves quiet m.
Proof.
  intros Hk Hm e He. split; [|by apply Hm]. destruct He as [He _].
  destruct (safe_inv _ _ _ (Hk e He)) as (r & e' & Hr & Hok & _). by rewrite Hr.
Qed.

Lemma quiet_find a : preserves quiet (find avx2 a).
Proof. eapply quiet_of; [apply keeps_find|]. intros e [_ He]. by apply unmarked_find. Qed.

Lemma quiet_connect now a : preserves quiet (connect now a).
Proof using Hfresh.
  eapply quiet_of; [apply keeps_connect|]. intros e [He Hu]. unfold connect, mbind, M_bind.
  pose proof (unmarked_connect_start now a e He Hu) as Hc. by destruct (connect_start now a e) as [[|[[]|]] e'].
Qed.

Lemma quiet_receive now packets : preserves quiet (receive avx2 now packets).
Proof.
  eapply quiet_of; [apply keeps_receive|]. intros e [_ He]. revert e He. apply preserves_for_each.
  intros [data from] _. apply unmarked_recv_packet.
Qed.

(** With no slot marked, a poll drives nothing. *)
Lemma quiet_poll now packets io : preserves quiet (poll avx2 now packets io).
Proof.
  apply (preserves_bind quiet (receive avx2 now packets)); [apply quiet_receive|]. intros _.
  destruct io; [by apply preserves_same|]. intros e [He [Hs Hd]].
  destruct (Dirty.run_poll_dirty 0 (dirty e) (eo_dirty _ He)) as (ev & l & Hrun & _ & Hmem).
  unfold mbind, M_bind, exec. rewrite Hrun. assert (l = []) as ->.
  { destruct l as [|i l]; [done|]. destruct (proj1 (Hmem i)) as [Hi Hdi]; [left|]. by rewrite Hd in Hdi. }
  split; [destruct He; by split|]. split; [done|]. intros i Hi. cbn [for_each mret M_ret snd dirty set_dirty].
  unfold Dirty.is_dirty. simpl. rewrite !Z.bits_0. by destruct (i <? 64)%nat.
Qed.

Lemma quiet_perform o : prewarm_or_poll o = true -> preserves quiet (perform avx2 o).
Proof using Hfresh.
  intros Ho. assert (Hig : forall A (m : M EP A), preserves quiet m -> preserves quiet (ignore m)).
  { intros A m Hm. apply preserves_bind; [by apply preserves_attempt|]. intros _. by apply preserves_same. }
  destruct o; try done; apply Hig; [apply quiet_poll|]. apply preserves_for_each. intros a _. unfold prewarm_one.
  apply preserves_bind; [apply quiet_find|]. intros [i|]; [by apply preserves_same|].
  apply preserves_bind; [apply preserves_attempt, quiet_connect|]. intros _. by apply preserves_same.
Qed.

Lemma quiet_not_ready e a : quiet e -> (is_ready avx2 a e).1 = inr (Ok false).
Proof.
  intros He. pose proof (quiet_find a e He) as [He1 [Hs _]]. pose proof (keeps_find avx2 a e (proj1 He)) as Hk.
  apply safe_inv in Hk as (r & e1 & Hr & _ & Hidx).
  unfold is_ready, connection_state, mbind, M_bind. rewrite Hr in *. simpl in Hs, He1.
  assert (exists o, r = Ok o) as [o ->].
  { unfold find in Hr. destruct (Pool.find avx2 a (pool e)). injection Hr. eauto. }
  destruct o as [idx|]; [|done]. destruct (slot_in_range e1 idx He1 (Hidx _ eq_refl idx eq_refl)) as [s Hsl].
  unfold get_slot, lift_fault. pose proof (Forall_lookup_1 _ _ _ _ Hs Hsl) as Hn. unfold slot_at in Hsl. rewrite Hsl.
  cbn. rewrite bool_decide_eq_false_2; [done|]. intros [= H]. by apply Hn.
Qed.

(** Prewarming and polling never make a connection ready.  quiche confirms a
    handshake only after packets of the peer; [connect] drives a new connection
    once and does not mark it, and [poll] drives marked connections only.  So an
    endpoint that does nothing but prewarm and poll, with whatever packets the
    peers send, reports every address as not ready. *)
Theorem prewarm_alone_never_ready n cache ops :
  (forall t, cache = Some t -> SessionCache.cache_shape t) ->
  Forall (fun o => prewarm_or_poll o = true) ops ->
  safe (for_each ops (perform avx2)) (endpoint_new n cache) (fun _ e => forall a, (is_ready avx2 a e).1 = inr (Ok false)).
Proof using Hfresh.
  intros Hc Hops. assert (Hnew : quiet (endpoint_new n cache)).
  { split; [by apply endpoint_new_ok|]. split; [by apply Forall_replicate|].
    intros i _. unfold Dirty.is_dirty. simpl. rewrite !Z.bits_0. by destruct (i <? 64)%nat. }
  eapply safe_mono; [eapply (keeps_preserves quiet); [| |by apply endpoint_new_ok|done]|].
  - apply keeps_for_each. intros o Ho. apply keeps_perform, prewarm_operation_ok. by eapply (proj1 (Forall_forall _ _) Hops).
  - apply preserves_for_each. intros o Ho. apply quiet_perform. by eapply (proj1 (Forall_forall _ _) Hops).
  - intros r e [_ He] a. by apply quiet_not_ready.
Qed.

End prewarmed.

End faults.

(** ** Receive buffers *)

(** With the address of every message understood, each packet is its own
    message. *)
Lemma batch_aligned (bufs : list (list Z)) (msgs : list (nat * SocketAddr)) :
  batch_packets bufs (recv_batch ((fun '(len, a) => (len, Some a)) <$> msgs))
  = imap (fun i '(len, from) => (take len (default [] (bufs !! i)), from)) msgs.
Proof.
  unfold batch_packets. f_equal. induction msgs as [|[len a] msgs IH]; [done|]. exact (f_equal (cons (len, a)) IH).
Qed.

(** A message of another family shifts the ones behind it: the second peer is
    credited with the first message. *)
Example batch_misaligned :
  batch_packets [[9; 9]; [1; 2]] (recv_batch [(2%nat, None); (2%nat, Some peer_a)]) = [([9; 9], peer_a)].
Proof. reflexivity. Qed.

(** ** Examples *)

Definition demo_full : demo_endpoint :=
  demo_after [Connect 5 peer_a; HandleRecv 6 [1] peer_a; KeepAlive 2000000000 peer_a 1; Send 7 peer_a [1]; Send 7 peer_a [2]].

(** A connection without credit: quiche takes nothing. *)
Lemma blocked_send (c : QuicConnection model_conn) now data :
  confirmed_ (inner c) = true -> credit (inner c) = 0%nat -> send_uni now data c = (Err Error.WouldBlock, c).
Proof.
  intros Hc Hcr. unfold send_uni. simpl. rewrite Hc. simpl. unfold model_stream_send. rewrite Hcr. by destruct c.
Qed.

Lemma model_well_behaved : well_behaved (Q := model_conn).
Proof. intros data from q code q'. simpl. unfold model_recv. by repeat case_match. Qed.

Lemma blocked_transaction_stuck_witness :
  exists e1, send false 8 peer_a [3] demo_full = (inr (Ok (TxQueue.Queued 0)), e1) /\
    safe (for_each [Poll 9 [([2], peer_a)] false; KeepAlive 9000000000 peer_a 1; Poll 10 [] false] (perform false)) e1
      (fun _ e2 => queued (conn_read e2 demo_idx) = [[3]]).
Proof.
  assert (He : endpoint_ok demo_full) by (apply demo_after_ok; by repeat constructor).
  pose proof (blocked_transaction_stuck false demo_full 8 peer_a [3] demo_idx (slot_read demo_full demo_idx)
    (conn_read demo_full demo_idx) (conn_read demo_full demo_idx)
    [Poll 9 [([2], peer_a)] false; KeepAlive 9000000000 peer_a 1; Poll 10 [] false]
    model_well_behaved He ltac:(vm_compute; reflexivity) (slot_read_at demo_full demo_idx He eq_refl)
    ltac:(vm_compute; reflexivity) (conn_read_at demo_full demo_idx ltac:(vm_compute; reflexivity))
    (blocked_send (conn_read demo_full demo_idx) 8 [3] ltac:(vm_compute; reflexivity) ltac:(vm_compute; reflexivity))
    ltac:(apply Nat.leb_le; reflexivity) ltac:(apply Z.ltb_lt; vm_compute; reflexivity)
    ltac:(repeat constructor)) as H.
  assert (Hq : queued (conn_read demo_full demo_idx) ++ [[3]] = [[3]]) by (vm_compute; reflexivity).
  assert (Hn : TxQueue.count (tx_queue (conn_read demo_full demo_idx)) mod 256 = 0) by (vm_compute; reflexivity).
  apply safe_inv in H as (r & e1 & Hrun & -> & _ & Hs). exists e1. rewrite Hrun, Hn. split; [done|].
  eapply safe_mono; [exact Hs|]. intros r e2 (_ & s2 & c2 & Hs2 & _ & Hc2 & Hq2).
  by rewrite (conn_at _ _ _ _ Hs2 Hc2), Hq2.
Defined.

Lemma model_needs_peer : handshake_needs_peer (Q := model_conn) (fun q => confirmed_ q = false).
Proof.
  split; try done.
  - intros scid a q. simpl. by intros [= <-].
  - intros q Hq. simpl. unfold model_send. by destruct (out q).
Qed.

Lemma prewarm_alone_never_ready_witness :
  safe (for_each [PrewarmAll 5 [peer_a; peer_b]; Poll 6 [([1], peer_a)] false; Poll 7 [] false] (perform false))
    (endpoint_new (Q := model_conn) ([] : model_net) None) (fun _ e => (is_ready false peer_a e).1 = inr (Ok false)).
Proof.
  eapply safe_mono; [apply (prewarm_alone_never_ready false _ model_needs_peer ([] : model_net) None); [done|repeat constructor]|].
  intros r e H. apply H.
Defined.
