(* ===== verification/Sender.v ===== *)
(** * Sender: sending a transaction to the coming leaders

    [quic/src/sender.rs] and [quic/src/prewarm.rs].  The sender owns an endpoint
    and reads the leader buffer, which another thread updates.  What the
    environment provides (the time, the state of the leader buffer, the packets
    of the socket) is a stream [env]: every call that looks at the environment
    takes the next element, so that two reads of the leader buffer in one
    operation may see different states.  [calls] is a ghost: the calls on the
    endpoint that matter to the specification, in order, with their results.

    The endpoint is behind the interface [endpoint_api]; [Endpoint] implements it
    ([quic_endpoint_api]) and [endpoint_laws] is what the sender relies on.
    Reads of slot ranges that only feed the log, the pinning of the thread and
    the handle of the background thread are left out. *)
From S2P Require Import Prelude Conc Net Quic Strategy Timing Endpoint.
From S2P Require Pool TxQueue SessionCache Leader.

#[export] Existing Instance Leader.buffer_lookup.
#[export] Existing Instance Leader.buffer_lookup_ok.

(** ** The endpoint as the sender sees it *)

Class endpoint_api (E : Type) : Type := {
  ep_poll : Z -> list (list Z * SocketAddr) -> bool -> M E unit;
  ep_send : Z -> SocketAddr -> list Z -> M E TxQueue.SendStatus;
  ep_send_nonblocking : Z -> SocketAddr -> list Z -> M E unit;
  ep_reset_retry : SocketAddr -> M E unit;
  ep_connect : Z -> SocketAddr -> M E nat;
  ep_connect_blocking : Z -> Z -> SocketAddr -> list round -> M E nat;
  ep_connection_state : SocketAddr -> M E (option Pool.ConnectionState);
  ep_keep_alive_if_idle : Z -> SocketAddr -> Z -> M E unit;
  ep_prewarm : Z -> list SocketAddr -> M E unit;
  ep_lookahead_solana_slots : SocketAddr -> M E Z;
  ep_set_adaptive_config : AdaptivePrewarmConfig -> E -> E;
}.

(** [if let Some(idx) = pool.find(addr) { pool.reset_retry(idx) }] *)
Definition reset_retry_of {Q N} (avx2 : bool) (a : SocketAddr) : M (QuicEndpoint (Q := Q) (N := N)) unit :=
  r ← find avx2 a; match r with Some idx => reset_retry idx | None => mret tt end.

#[export] Instance quic_endpoint_api {Q N} `{!quiche_api Q} `{!udp_api N} (avx2 : bool)
    : endpoint_api (QuicEndpoint (Q := Q) (N := N)) := {
  ep_poll := poll avx2;
  ep_send := send avx2;
  ep_send_nonblocking := send_nonblocking avx2;
  ep_reset_retry := reset_retry_of avx2;
  ep_connect := connect;
  ep_connect_blocking := connect_blocking avx2;
  ep_connection_state := connection_state avx2;
  ep_keep_alive_if_idle := keep_alive_if_idle avx2;
  ep_prewarm := prewarm avx2;
  ep_lookahead_solana_slots := lookahead_solana_slots;
  ep_set_adaptive_config := set_adaptive_config;
}.

(** ** Data *)

Record SendOptions : Type := { opt_tpu_port : option TpuPort; opt_fanout : option nat }.
Definition send_options_default : SendOptions := {| opt_tpu_port := None; opt_fanout := None |}.

Record SendResult : Type := {
  sent : nat; early_data : nat; queued : nat; queue_full : nat; dead : nat; errors : nat }.
Definition send_result_default : SendResult :=
  {| sent := 0; early_data := 0; queued := 0; queue_full := 0; dead := 0; errors := 0 |}.

Record SenderConfig : Type := {
  strategy : ConnectStrategy; sender_tpu_port : TpuPort; quic_config : Config }.
Definition sender_config_default : SenderConfig :=
  {| strategy := strategy_default; sender_tpu_port := default_tpu_port; quic_config := config_default |}.

(** One more answer of [endpoint.send]. *)
Definition tally (r : Result TxQueue.SendStatus Error.t) (t : SendResult) : SendResult :=
  match r with
  | Ok TxQueue.Sent =>
      {| sent := S (sent t); early_data := early_data t; queued := queued t; queue_full := queue_full t;
         dead := dead t; errors := errors t |}
  | Ok TxQueue.SentEarlyData =>
      {| sent := sent t; early_data := S (early_data t); queued := queued t; queue_full := queue_full t;
         dead := dead t; errors := errors t |}
  | Ok (TxQueue.Queued _) =>
      {| sent := sent t; early_data := early_data t; queued := S (queued t); queue_full := queue_full t;
         dead := dead t; errors := errors t |}
  | Ok TxQueue.QueueFull =>
      {| sent := sent t; early_data := early_data t; queued := queued t; queue_full := S (queue_full t);
         dead := dead t; errors := errors t |}
  | Ok (TxQueue.Dead _) =>
      {| sent := sent t; early_data := early_data t; queued := queued t; queue_full := queue_full t;
         dead := S (dead t); errors := errors t |}
  | Err _ =>
      {| sent := sent t; early_data := early_data t; queued := queued t; queue_full := queue_full t;
         dead := dead t; errors := S (errors t) |}
  end.

(** What happens around the sender at one moment. *)
Record moment {B : Type} : Type := {
  clock : Z; buffer : B; arrived : list (list Z * SocketAddr); socket_failed : bool;
  wait_end : Z; wait_rounds : list round }.
Arguments moment : clear implicits.

Inductive call : Type :=
| CallPoll
| CallSend (a : SocketAddr) (data : list Z) (r : Result TxQueue.SendStatus Error.t)
| CallNonblocking (a : SocketAddr) (data : list Z)
| CallConnect (a : SocketAddr)
| CallKeepAlive (a : SocketAddr)
| CallPrewarm (addrs : list SocketAddr).

(** ** The sender *)

Section sender.
Context {E B : Type} `{!endpoint_api E} `{!Leader.LeaderLookup B} (env : nat -> moment B).

Record TransactionSender : Type := {
  config : SenderConfig; endpoint : E; inline_prewarm_config : option InlinePrewarmConfig;
  tick : nat; calls : list call }.

Abbreviation SM := (M TransactionSender).

Definition set_endpoint (e : E) (s : TransactionSender) : TransactionSender :=
  {| config := config s; endpoint := e; inline_prewarm_config := inline_prewarm_config s;
     tick := tick s; calls := calls s |}.
Definition set_tick (n : nat) (s : TransactionSender) : TransactionSender :=
  {| config := config s; endpoint := endpoint s; inline_prewarm_config := inline_prewarm_config s;
     tick := n; calls := calls s |}.
Definition add_call (c : call) (s : TransactionSender) : TransactionSender :=
  {| config := config s; endpoint := endpoint s; inline_prewarm_config := inline_prewarm_config s;
     tick := tick s; calls := calls s ++ [c] |}.

(** The next moment of the environment. *)
Definition next : SM (moment B) := fun s => (inr (Ok (env (tick s))), set_tick (S (tick s)) s).
Definition record (c : call) : SM unit := modify (add_call c).

(** An operation of the endpoint. *)
Definition on_endpoint {A} (m : M E A) : SM A := fun s =>
  let '(r, e) := m (endpoint s) in (r, set_endpoint e s).

(** A read of the leader buffer. *)
Definition ask {A} (f : B -> A) : SM A := m ← next; mret (f (buffer m)).

Definition do_poll : SM unit :=
  m ← next; record CallPoll ≫= fun _ => on_endpoint (ep_poll (clock m) (arrived m) (socket_failed m)).

Definition do_send (a : SocketAddr) (tx : list Z) : SM (Result TxQueue.SendStatus Error.t) :=
  m ← next;
  r ← attempt (on_endpoint (ep_send (clock m) a tx));
  record (CallSend a tx r) ≫= fun _ => mret r.

Definition port_of (opts : SendOptions) : SM TpuPort :=
  gets (fun s => default (sender_tpu_port (config s)) (opt_tpu_port opts)).

Definition get_leader_addrs (index : nat) (tpu_port : TpuPort) : SM (list SocketAddr) :=
  o ← ask (fun b => Leader.get_leader b index);
  p ← ok_or o Error.NotFound;
  mret (port_addrs tpu_port p.1 p.2).

(** *** Sending *)

Fixpoint send_to_addrs (tx : list Z) (addrs : list SocketAddr) (result : SendResult) : SM SendResult :=
  match addrs with
  | [] => mret result
  | a :: addrs => r ← do_send a tx; send_to_addrs tx addrs (tally r result)
  end.

Definition sender_send (tx : list Z) (opts : SendOptions) : SM SendResult :=
  do_poll ≫= fun _ =>
  tpu_port ← port_of opts;
  addrs ← get_leader_addrs 0 tpu_port;
  send_to_addrs tx addrs send_result_default.

Definition is_dead (r : Result TxQueue.SendStatus Error.t) : bool :=
  match r with Ok (TxQueue.Dead _) => true | _ => false end.
Definition is_sent (r : Result TxQueue.SendStatus Error.t) : bool :=
  match r with Ok TxQueue.Sent | Ok TxQueue.SentEarlyData => true | _ => false end.

(** The addresses of one leader; a success resets the retries of the slot. *)
Fixpoint fanout_addrs (tx : list Z) (addrs : list SocketAddr) (acc : SendResult * nat) : SM (SendResult * nat) :=
  match addrs with
  | [] => mret acc
  | a :: addrs =>
      r ← do_send a tx;
      when (is_sent r) (on_endpoint (ep_reset_retry a)) ≫= fun _ =>
      fanout_addrs tx addrs (tally r acc.1, (if is_dead r then S acc.2 else acc.2))
  end.

(** The leaders [idxs], one after the other, until one is not valid; a leader
    without addresses is skipped. *)
Fixpoint fanout_leaders (polls : bool) (tx : list Z) (tpu_port : TpuPort) (idxs : list nat) (acc : SendResult * nat)
    : SM (SendResult * nat) :=
  match idxs with
  | [] => mret acc
  | i :: idxs =>
      when (polls && (0 <? i)%nat) do_poll ≫= fun _ =>
      valid ← ask (fun b => Leader.is_valid b i);
      if valid : bool then
        addrs ← attempt (get_leader_addrs i tpu_port);
        match addrs with
        | Err _ => fanout_leaders polls tx tpu_port idxs acc
        | Ok addrs => acc ← fanout_addrs tx addrs acc; fanout_leaders polls tx tpu_port idxs acc
        end
      else mret acc
  end.

(** The backup leaders 10 to 13, if all ten primary leaders are dead. *)
Definition send_backup (tx : list Z) (tpu_port : TpuPort) (primary_fanout : nat) (acc : SendResult * nat) : SM SendResult :=
  if (primary_fanout <=? acc.2)%nat && (primary_fanout =? 10)%nat then
    acc ← fanout_leaders false tx tpu_port (seq 10 4) acc; mret acc.1
  else mret acc.1.

Definition send_fanout (tx : list Z) (count : nat) (opts : SendOptions) : SM SendResult :=
  do_poll ≫= fun _ =>
  tpu_port ← port_of opts;
  let primary_fanout := Nat.min count 10 in
  acc ← fanout_leaders true tx tpu_port (seq 0 primary_fanout) (send_result_default, 0%nat);
  send_backup tx tpu_port primary_fanout acc.

Definition do_send_nonblocking (a : SocketAddr) (tx : list Z) : SM unit :=
  m ← next; record (CallNonblocking a tx) ≫= fun _ => on_endpoint (ep_send_nonblocking (clock m) a tx).

Definition sender_send_nonblocking (tx : list Z) (opts : SendOptions) : SM unit :=
  tpu_port ← port_of opts;
  addrs ← get_leader_addrs 0 tpu_port;
  for_each addrs (fun a => do_send_nonblocking a tx).

(** Best effort: errors are logged. *)
Fixpoint nonblocking_leaders (tx : list Z) (tpu_port : TpuPort) (idxs : list nat) : SM unit :=
  match idxs with
  | [] => mret tt
  | i :: idxs =>
      valid ← ask (fun b => Leader.is_valid b i);
      if valid : bool then
        addrs ← attempt (get_leader_addrs i tpu_port);
        match addrs with
        | Err _ => nonblocking_leaders tx tpu_port idxs
        | Ok addrs =>
            for_each addrs (fun a => attempt (do_send_nonblocking a tx) ≫= fun _ => mret tt) ≫= fun _ =>
            nonblocking_leaders tx tpu_port idxs
        end
      else mret tt
  end.

Definition send_nonblocking_fanout (tx : list Z) (count : nat) (opts : SendOptions) : SM unit :=
  tpu_port ← port_of opts; nonblocking_leaders tx tpu_port (seq 0 count).

(** *** Prewarming *)

Definition KEEP_ALIVE_THRESHOLD_NS : Z := 1000000000.

(** The addresses of the valid leaders among [idxs], each looked up as it comes. *)
Fixpoint leader_addrs (tpu_port : TpuPort) (idxs : list nat) : SM (list SocketAddr) :=
  match idxs with
  | [] => mret []
  | i :: idxs =>
      valid ← ask (fun b => Leader.is_valid b i);
      if valid : bool then
        o ← ask (fun b => Leader.get_leader b i);
        rest ← leader_addrs tpu_port idxs;
        mret (match o with Some (main, fwd) => port_addrs tpu_port main fwd ++ rest | None => rest end)
      else leader_addrs tpu_port idxs
  end.

Definition get_prewarm_addrs (n : nat) (tpu_port : TpuPort) : SM (list SocketAddr) :=
  leader_addrs tpu_port (seq 0 n).

Definition lookahead_or (d : nat) : SM nat :=
  gets (fun s => match inline_prewarm_config s with Some c => lookahead c | None => d end).

Definition default_port : SM TpuPort := gets (fun s => sender_tpu_port (config s)).

Definition do_prewarm (addrs : list SocketAddr) : SM unit :=
  m ← next; record (CallPrewarm addrs) ≫= fun _ => on_endpoint (ep_prewarm (clock m) addrs).

Definition prewarm_with_lookahead (n : nat) : SM unit :=
  tpu_port ← default_port; addrs ← get_prewarm_addrs n tpu_port; do_prewarm addrs.

Definition sender_prewarm : SM unit := lookahead_or 5 ≫= prewarm_with_lookahead.

(** One leader of the keep-alive round. *)
Definition keep_alive_leader (tpu_port : TpuPort) (i : nat) : SM unit :=
  valid ← ask (fun b => Leader.is_valid b i);
  if valid : bool then
    o ← ask (fun b => Leader.get_leader b i);
    match o with
    | None => mret tt
    | Some (main, fwd) =>
        for_each (port_addrs tpu_port main fwd) (fun a =>
          m ← next; record (CallKeepAlive a) ≫= fun _ =>
          attempt (on_endpoint (ep_keep_alive_if_idle (clock m) a KEEP_ALIVE_THRESHOLD_NS)) ≫= fun _ => mret tt)
    end
  else mret tt.

Definition keep_alive_lookahead : SM unit :=
  n ← lookahead_or 10; tpu_port ← default_port; for_each (seq 0 n) (keep_alive_leader tpu_port).

(** The address to prewarm: the main one, unless the forward port is used. *)
Definition prewarm_addr (tpu_port : TpuPort) (main fwd : SocketAddr) : SocketAddr :=
  match tpu_port with Main | Both => main | Forward => fwd end.

(** A leader is connected to when the current slot is in the window before its
    first slot and there is no connection yet. *)
Definition adaptive_leader (tpu_port : TpuPort) (current_solana_slot : Z) (i : nat) : SM unit :=
  valid ← ask (fun b => Leader.is_valid b i);
  if valid : bool then
    o ← ask (fun b => Leader.get_leader b i);
    match o with
    | None => mret tt
    | Some (main, fwd) =>
        slots ← ask (fun b => Leader.get_leader_slots b i);
        match slots with
        | None => mret tt
        | Some (leader_start_solana_slot, _) =>
            let a := prewarm_addr tpu_port main fwd in
            lookahead_slots ← on_endpoint (ep_lookahead_solana_slots a);
            let connect_at := saturating_sub leader_start_solana_slot lookahead_slots in
            if (connect_at <=? current_solana_slot) && (current_solana_slot <? leader_start_solana_slot) then
              st ← on_endpoint (ep_connection_state a);
              match st with
              | Some _ => mret tt
              | None =>
                  m ← next; record (CallConnect a) ≫= fun _ =>
                  attempt (on_endpoint (ep_connect (clock m) a)) ≫= fun _ => mret tt
              end
            else mret tt
        end
    end
  else mret tt.

Definition prewarm_adaptive : SM unit :=
  tpu_port ← default_port;
  slots ← ask (fun b => Leader.get_leader_slots b 0);
  let current := match slots with Some (start, _) => start | None => 0 end in
  if current =? 0 then mret tt
  else n ← lookahead_or 10; for_each (seq 0 n) (adaptive_leader tpu_port current).

Definition sender_poll : SM unit :=
  do_poll ≫= fun _ =>
  cfg ← gets inline_prewarm_config;
  match cfg with
  | None => mret tt
  | Some c =>
      match adaptive c with Some _ => prewarm_adaptive | None => sender_prewarm end ≫= fun _ =>
      keep_alive_lookahead
  end.

(** *** The loops *)

(** One iteration of [run_hot_loop]; [tx]: what [get_tx] returned. *)
Definition hot_loop_step (tx : option (list Z)) : SM unit :=
  n ← lookahead_or 5;
  tpu_port ← default_port;
  attempt do_poll ≫= fun _ =>
  addrs ← get_prewarm_addrs n tpu_port;
  do_prewarm addrs ≫= fun _ =>
  match tx with
  | None => mret tt
  | Some tx =>
      leader ← attempt (get_leader_addrs 0 tpu_port);
      match leader with
      | Err _ => mret tt
      | Ok leader => for_each leader (fun a => attempt (do_send_nonblocking a tx) ≫= fun _ => mret tt)
      end
  end.

(** One iteration of [run_hot_loop_fanout]. *)
Definition hot_loop_fanout_step (fanout : nat) (tx : option (list Z)) : SM unit :=
  n ← lookahead_or (Nat.max fanout 5);
  tpu_port ← default_port;
  attempt do_poll ≫= fun _ =>
  addrs ← get_prewarm_addrs n tpu_port;
  do_prewarm addrs ≫= fun _ =>
  match tx with
  | None => mret tt
  | Some tx => attempt (send_nonblocking_fanout tx fanout send_options_default) ≫= fun _ => mret tt
  end.

(** *** Construction *)

(** The adaptive timing a strategy asks for. *)
Definition adaptive_of (st : ConnectStrategy) : option AdaptivePrewarmConfig :=
  match st with
  | InlinePrewarm c => adaptive c
  | JitConfigured c => jit_adaptive c
  | Prewarm _ | Jit _ => None
  end.

(** [TransactionSender::new] around an endpoint: the port follows the identity;
    the second component is the configuration of the background thread. *)
Definition sender_new (c : SenderConfig) (e : E) : TransactionSender * option PrewarmConfig :=
  let is_staked := match staked_identity (quic_config c) with Some _ => true | None => false end in
  let c := {| strategy := strategy c; sender_tpu_port := default_for_staked is_staked; quic_config := quic_config c |} in
  ({| config := c;
      endpoint := match adaptive_of (strategy c) with Some a => ep_set_adaptive_config a e | None => e end;
      inline_prewarm_config := match strategy c with InlinePrewarm cfg => Some cfg | _ => None end;
      tick := 0; calls := [] |},
   match strategy c with Prewarm cfg => Some cfg | _ => None end).

(** ** The prewarm thread *)

Record PrewarmThread : Type := {
  pw_endpoint : E; pw_config : PrewarmConfig; pw_tpu_port : TpuPort;
  connected : list bool; connected_addrs : list (option SocketAddr); pw_tick : nat; pw_connects : list SocketAddr }.

Abbreviation PM := (M PrewarmThread).

Definition prewarm_thread_new (e : E) (c : PrewarmConfig) (p : TpuPort) : PrewarmThread :=
  {| pw_endpoint := e; pw_config := c; pw_tpu_port := p; connected := replicate 10 false;
     connected_addrs := replicate 10 None; pw_tick := 0; pw_connects := [] |}.

Definition set_connected (i : nat) (o : option SocketAddr) (t : PrewarmThread) : PrewarmThread :=
  {| pw_endpoint := pw_endpoint t; pw_config := pw_config t; pw_tpu_port := pw_tpu_port t;
     connected := <[i := match o with Some _ => true | None => false end]> (connected t);
     connected_addrs := <[i := o]> (connected_addrs t); pw_tick := pw_tick t; pw_connects := pw_connects t |}.

Definition pw_next : PM (moment B) := fun t =>
  (inr (Ok (env (pw_tick t))),
   {| pw_endpoint := pw_endpoint t; pw_config := pw_config t; pw_tpu_port := pw_tpu_port t;
      connected := connected t; connected_addrs := connected_addrs t; pw_tick := S (pw_tick t);
      pw_connects := pw_connects t |}).

Definition pw_on_endpoint {A} (m : M E A) : PM A := fun t =>
  let '(r, e) := m (pw_endpoint t) in
  (r, {| pw_endpoint := e; pw_config := pw_config t; pw_tpu_port := pw_tpu_port t;
         connected := connected t; connected_addrs := connected_addrs t; pw_tick := pw_tick t;
         pw_connects := pw_connects t |}).

Definition pw_record (a : SocketAddr) : PM unit := modify (fun t =>
  {| pw_endpoint := pw_endpoint t; pw_config := pw_config t; pw_tpu_port := pw_tpu_port t;
     connected := connected t; connected_addrs := connected_addrs t; pw_tick := pw_tick t;
     pw_connects := pw_connects t ++ [a] |}).

(** The arrays have ten entries. *)
Definition pw_index {A} (f : PrewarmThread -> list A) (i : nat) : PM A :=
  lift_fault (fun t => match f t !! i with Some x => inr x | None => inl (Panic "index out of bounds") end).

(** Connects to leader [i] at [a], unless that is noted as done. *)
Definition connect_if_needed (i : nat) (a : SocketAddr) : PM unit :=
  c ← pw_index connected i;
  if c : bool then mret tt
  else
    m ← pw_next;
    pw_record a ≫= fun _ =>
    r ← attempt (pw_on_endpoint (ep_connect_blocking (clock m) (wait_end m) a (wait_rounds m)));
    match r with
    | Ok _ => modify (set_connected i (Some a))
    | Err _ => mret tt
    end.

Definition refresh_leader (i : nat) : PM unit :=
  m ← pw_next;
  if Leader.is_valid (buffer m) i then
    m ← pw_next;
    match Leader.get_leader (buffer m) i with
    | None => mret tt
    | Some (main, fwd) =>
        tpu_port ← gets pw_tpu_port;
        let a := prewarm_addr tpu_port main fwd in
        prev ← pw_index connected_addrs i;
        when (match prev with Some p => negb (bool_decide (p = a)) | None => false end)
          (modify (set_connected i None)) ≫= fun _ =>
        connect_if_needed i a
    end
  else mret tt.

Definition refresh_connections : PM unit :=
  n ← gets (fun t => Nat.min (prewarm_lookahead (pw_config t)) 10);
  for_each (seq 0 n) refresh_leader.

(** One iteration of [run] that is not the last. *)
Definition prewarm_thread_step : PM unit :=
  m ← pw_next;
  attempt (pw_on_endpoint (ep_poll (clock m) (arrived m) (socket_failed m))) ≫= fun _ => refresh_connections.

End sender.

Arguments TransactionSender : clear implicits.
Arguments PrewarmThread : clear implicits.
