(* ===== verification/SenderSpec.v ===== *)
(** * SenderSpec: what a fanout sends, and to whom

    The sender against the laws of its endpoint ([endpoint_laws]): every
    operation of the endpoint keeps an invariant and does not fault.  [does m s P]
    says that [m], started in [s], keeps that invariant and the configuration, and
    that its result and the calls it made satisfy [P]. *)
From S2P Require Import Prelude Conc Net Quic QuicModel Strategy Timing TimingSpec Endpoint EndpointSpec Sender.
From S2P Require Pool PoolSpec TxQueue SessionCache Leader.

Set Default Proof Using "Type".

(** ** What the sender relies on *)

Class endpoint_laws (E : Type) `{!endpoint_api E} (ok : E -> Prop) : Prop := {
  law_poll now ps io e : ok e -> safe (ep_poll now ps io) e (fun _ e' => ok e');
  law_send now a d e : ok e -> safe (ep_send now a d) e (fun _ e' => ok e');
  law_reset a e : ok e -> safe (ep_reset_retry a) e (fun r e' => r = Ok tt /\ ok e');
  law_blocking now t a rs e : ok e -> safe (ep_connect_blocking now t a rs) e (fun _ e' => ok e');
}.

(** The QUIC endpoint satisfies them. *)
#[export] Instance quic_endpoint_laws {Q N} `{!quiche_api Q} `{!udp_api N} (avx2 : bool) :
  endpoint_laws (QuicEndpoint (Q := Q) (N := N)) (endpoint_api0 := quic_endpoint_api avx2) endpoint_ok.
Proof.
  assert (Hk : forall A (m : M (QuicEndpoint (Q := Q) (N := N)) A) P, keeps m P ->
            forall e, endpoint_ok e -> safe m e (fun _ e' => endpoint_ok e')).
  { intros A m P Hm e He. eapply safe_mono; [by apply Hm|]. by intros r e' [? _]. }
  split; intros; simpl; [eapply Hk; [apply keeps_poll|done]|eapply Hk; [apply keeps_send|done]|
                         |eapply Hk; [apply keeps_connect_blocking|done]].
  unfold reset_retry_of. apply safe_bind. eapply safe_mono.
  { eapply (safe_mono _ _ (fun r e' => endpoint_ok e' /\ exists o, r = Ok o)).
    - pose proof (keeps_find avx2 a e H) as Hf. revert Hf. unfold safe, find.
      destruct (Pool.find avx2 a (pool e)) as [r p]. intros [? _]. split; [done|]. by exists r.
    - intros r e' H'. exact H'. }
  intros r e' [He' [o ->]]. destruct o as [idx|]; [|by split].
  pose proof (keeps_reset_retry idx e' He') as Hr. revert Hr. unfold safe, reset_retry, on_pool, modify. by intros [? _].
Qed.

Section spec.
Context {E B : Type} `{!endpoint_api E} (ok : E -> Prop) `{!endpoint_laws E ok} `{!Leader.LeaderLookup B}.
Context (env : nat -> moment B).
Abbreviation S' := (TransactionSender E).
Implicit Types s : S'.

Definition good s s' : Prop :=
  ok (endpoint s') /\ config s' = config s /\ inline_prewarm_config s' = inline_prewarm_config s.

Definition does {A} (m : M S' A) s (P : Result A Error.t -> list call -> Prop) : Prop :=
  safe m s (fun r s' => good s s' /\ exists new, calls s' = calls s ++ new /\ P r new).

Lemma does_mono {A} (m : M S' A) s P P' : does m s P -> (forall r new, P r new -> P' r new) -> does m s P'.
Proof. intros Hm HP. eapply safe_mono; [exact Hm|]. intros r s' (Hg & new & Hc & Hp). split; [done|]. eauto. Qed.

Lemma does_ret {A} (a : A) s (P : Result A Error.t -> list call -> Prop) :
  ok (endpoint s) -> P (Ok a) [] -> does (mret a) s P.
Proof. intros Hs HP. split; [done|]. exists []. by rewrite app_nil_r. Qed.

Lemma does_bind {A C} (m : M S' A) (k : A -> M S' C) s P R :
  does m s P ->
  (forall a new s', good s s' -> P (Ok a) new -> does (k a) s' (fun r new' => R r (new ++ new'))) ->
  (forall x new, P (Err x) new -> R (Err x) new) -> does (m ≫= k) s R.
Proof.
  intros Hm Hk He. apply safe_bind. eapply safe_mono; [exact Hm|].
  intros [a|x] s1 (Hg & new & Hc & HP); [|split; [done|eauto]].
  eapply safe_mono; [by eapply Hk|]. intros r s2 ((Hok & Hcfg & Hin) & new' & Hc' & HR).
  destruct Hg as (_ & Hcfg0 & Hin0). split; [split; [done|]; split; congruence|].
  exists (new ++ new'). split; [|done]. by rewrite Hc', Hc, app_assoc.
Qed.

(** The common case: the first part makes no call and does not fail. *)
Lemma does_pure {A C} (m : M S' A) (k : A -> M S' C) s (P : A -> Prop) R :
  does m s (fun r new => new = [] /\ exists a, r = Ok a /\ P a) ->
  (forall a s', good s s' -> P a -> does (k a) s' R) -> does (m ≫= k) s R.
Proof.
  intros Hm Hk. eapply does_bind; [exact Hm| |].
  - intros a new s' Hg (-> & b & [= <-] & HP). by apply Hk.
  - by intros x new (_ & b & [=] & _).
Qed.

Lemma does_ask {A} (f : B -> A) s : ok (endpoint s) ->
  does (ask env f) s (fun r new => new = [] /\ exists a, r = Ok a /\ exists n, a = f (buffer (env n))).
Proof.
  intros Hs. unfold does, safe, ask, next, mbind, M_bind. simpl. split; [done|]. exists []. rewrite app_nil_r.
  split; [done|]. split; [done|]. eexists. split; [done|]. by eexists.
Qed.

Lemma does_attempt {A} (m : M S' A) s P : does m s P -> does (attempt m) s (fun r new => exists r', r = Ok r' /\ P r' new).
Proof.
  intros Hm. apply safe_attempt. eapply safe_mono; [exact Hm|]. intros r s' (Hg & new & Hc & HP). split; [done|].
  exists new. split; [done|]. by exists r.
Qed.

Lemma does_when (b : bool) (m : M S' unit) s P :
  ok (endpoint s) -> (b = true -> does m s P) -> (b = false -> P (Ok tt) []) -> does (when b m) s P.
Proof. intros Hs H1 H2. destruct b; [by apply H1|]. apply does_ret; [done|by apply H2]. Qed.

(** Operations of the endpoint, with a call before or after. *)
Lemma does_endpoint {A} (m : M E A) s (P : Result A Error.t -> Prop) :
  safe m (endpoint s) (fun r e' => ok e' /\ P r) -> does (on_endpoint m) s (fun r new => new = [] /\ P r).
Proof.
  unfold does, safe, on_endpoint. destruct (m (endpoint s)) as [[|r] e']; [done|]. intros [Hok HP].
  split; [done|]. exists []. by rewrite app_nil_r.
Qed.

Lemma does_record c s : ok (endpoint s) -> does (record c) s (fun r new => r = Ok tt /\ new = [c]).
Proof. intros Hs. split; [done|]. by exists [c]. Qed.

Lemma does_ret_gets {A} s (f : S' -> A) a : ok (endpoint s) -> f s = a ->
  does (gets f) s (fun r new => new = [] /\ exists b, r = Ok b /\ b = a).
Proof. intros Hs <-. split; [done|]. exists []. rewrite app_nil_r. split; [done|]. split; [done|]. by eexists. Qed.

Lemma does_next s : ok (endpoint s) ->
  does (next env) s (fun r new => new = [] /\ exists m, r = Ok m /\ exists n, m = env n).
Proof.
  intros Hs. split; [done|]. exists []. rewrite app_nil_r. split; [done|]. split; [done|]. eexists. split; [done|]. by eexists.
Qed.

Lemma does_poll s : ok (endpoint s) -> does (do_poll env) s (fun _ new => new = [CallPoll]).
Proof using Type*.
  intros Hs. eapply does_pure; [by apply does_next|]. intros m s1 [Hs1 _] _.
  eapply does_bind; [by apply does_record| |by intros x new [[=] _]].
  intros [] new s2 [Hs2 _] [_ ->]. eapply does_mono.
  - apply (does_endpoint _ _ (fun _ => True)). eapply safe_mono; [by apply law_poll|]. done.
  - intros r new [-> _]. done.
Qed.

Lemma does_send a tx s : ok (endpoint s) ->
  does (do_send env a tx) s (fun r new => exists st, r = Ok st /\ new = [CallSend a tx st]).
Proof using Type*.
  intros Hs. eapply does_pure; [by apply does_next|]. intros m s1 [Hs1 _] _.
  eapply (does_pure _ _ _ (fun _ => True)).
  { eapply does_mono; [apply does_attempt, (does_endpoint _ _ (fun _ => True))|].
    - eapply safe_mono; [by apply law_send|]. done.
    - intros r new (r' & -> & -> & _). split; [done|]. by exists r'. }
  intros st s2 [Hs2 _] _. eapply does_bind; [by apply does_record| |by intros x new [[=] _]].
  intros [] new s3 [Hs3 _] [_ ->]. apply does_ret; [done|]. by exists st.
Qed.

(** ** Accounting *)

(** The answers of the calls to [send], with their addresses. *)
Definition send_of (c : call) : option (SocketAddr * Result TxQueue.SendStatus Error.t) :=
  match c with CallSend a _ r => Some (a, r) | _ => None end.
Definition sends_of (cs : list call) : list (SocketAddr * Result TxQueue.SendStatus Error.t) := omap send_of cs.

(** Every send carries the transaction. *)
Definition carries (tx : list Z) (c : call) : Prop :=
  match c with CallSend _ data _ | CallNonblocking _ data => data = tx | _ => True end.

(** The address belongs to a leader that the buffer had at some moment. *)
Definition found (port : TpuPort) (a : SocketAddr) : Prop :=
  exists n i main fwd, Leader.get_leader (buffer (env n)) i = Some (main, fwd) /\ a ∈ port_addrs port main fwd.

(** Every send carries the transaction, to such an address. *)
Definition goes_to (port : TpuPort) (tx : list Z) (c : call) : Prop :=
  carries tx c /\ match c with CallSend a _ _ => found port a | _ => True end.

Lemma goes_carries port tx cs : Forall (goes_to port tx) cs -> Forall (carries tx) cs.
Proof. intros Hc. eapply Forall_impl; [exact Hc|]. by intros c [? _]. Qed.

(** A result that counts the answers. *)
Definition tally_all (l : list (SocketAddr * Result TxQueue.SendStatus Error.t)) (t : SendResult) : SendResult :=
  foldl (fun t x => tally x.2 t) t l.
Definition dead_of (l : list (SocketAddr * Result TxQueue.SendStatus Error.t)) : nat :=
  length (filter (fun x => is_dead x.2 = true) l).

Lemma tally_all_app l1 l2 t : tally_all (l1 ++ l2) t = tally_all l2 (tally_all l1 t).
Proof. apply foldl_app. Qed.

Definition total (t : SendResult) : nat :=
  (sent t + early_data t + queued t + queue_full t + dead t + errors t)%nat.

Lemma tally_total r t : total (tally r t) = S (total t).
Proof. destruct r as [[]|]; unfold total; simpl; lia. Qed.

Lemma tally_all_total l t : total (tally_all l t) = (length l + total t)%nat.
Proof.
  revert t. induction l as [|x l IH]; intros t; [done|]. cbn [tally_all foldl length]. fold (tally_all l (tally x.2 t)).
  rewrite IH, tally_total. lia.
Qed.

(** The calls of a loop over leaders that started from [acc]: the answers counted
    in its result, and the addresses in order. *)
Definition loop_post (port : TpuPort) (tx : list Z) (acc : SendResult * nat) (addrs : list SocketAddr -> Prop)
    (r : Result (SendResult * nat) Error.t) (new : list call) : Prop :=
  Forall (goes_to port tx) new /\
  forall acc', r = Ok acc' ->
    acc' = (tally_all (sends_of new) acc.1, (dead_of (sends_of new) + acc.2)%nat) /\ addrs (sends_of new).*1.

Lemma does_fanout_addrs port tx addrs : Forall (found port) addrs -> forall acc s, ok (endpoint s) ->
  does (fanout_addrs env tx addrs acc) s (loop_post port tx acc (eq addrs)).
Proof using Type*.
  induction 1 as [|a addrs Ha0 _ IH]; intros acc s Hs; cbn [fanout_addrs].
  { apply does_ret; [done|]. split; [constructor|]. intros acc' [= <-]. by destruct acc. }
  eapply does_bind; [by apply does_send| |by intros x new (st & [=] & _)].
  intros st new s1 [Hs1 _] (st' & [= <-] & ->). eapply does_pure.
  { apply (does_when _ _ _ (fun r new => new = [] /\ exists u : unit, r = Ok u /\ True)); [done| |].
    - intros _. eapply does_mono; [apply (does_endpoint _ _ (fun r => r = Ok tt))|].
      + eapply safe_mono; [by apply law_reset|]. by intros r e' [-> ?].
      + intros r new [-> ->]. split; [done|]. by exists tt.
    - intros _. split; [done|]. by exists tt. }
  intros [] s2 [Hs2 _] _. eapply does_mono; [by apply IH|]. intros r new [Hc Hr].
  split; [constructor; [by split|done]|]. intros acc' Hacc. destruct (Hr acc' Hacc) as [-> Ha].
  change (sends_of ([CallSend a tx st] ++ new)) with ((a, st) :: sends_of new). rewrite fmap_cons.
  split; [|by rewrite <- Ha]. f_equal. unfold dead_of. rewrite filter_cons. cbn [snd fst].
  destruct (is_dead st) eqn:Hd; [rewrite decide_True by done; cbn [length]; lia|rewrite decide_False by done; lia].
Qed.

Lemma sends_of_app l1 l2 : sends_of (l1 ++ l2) = sends_of l1 ++ sends_of l2.
Proof. apply omap_app. Qed.

Lemma dead_of_app l1 l2 : dead_of (l1 ++ l2) = (dead_of l1 + dead_of l2)%nat.
Proof. unfold dead_of. by rewrite filter_app, length_app. Qed.

(** One part of a loop, and then the rest. *)
Lemma loop_post_app port tx acc acc1 addrs1 addrs2 addrs new1 new2 r :
  loop_post port tx acc addrs1 (Ok acc1) new1 -> loop_post port tx acc1 addrs2 r new2 ->
  (forall l1 l2, addrs1 l1 -> addrs2 l2 -> addrs (l1 ++ l2)) ->
  loop_post port tx acc addrs r (new1 ++ new2).
Proof.
  intros [Hc1 Hr1] [Hc2 Hr2] Ha. split; [by apply Forall_app|]. intros acc' ->.
  destruct (Hr1 _ eq_refl) as [-> Ha1]. destruct (Hr2 _ eq_refl) as [-> Ha2].
  rewrite sends_of_app, tally_all_app, dead_of_app, fmap_app. split; [|by apply Ha]. f_equal. simpl. lia.
Qed.

(** *** Targets *)

(** The addresses of a leader, and of the leaders up to the first that is not
    valid. *)
Definition leader_targets (b : B) (port : TpuPort) (i : nat) : list SocketAddr :=
  match Leader.get_leader b i with Some (main, fwd) => port_addrs port main fwd | None => [] end.

Fixpoint targets (b : B) (port : TpuPort) (idxs : list nat) : list SocketAddr :=
  match idxs with
  | [] => []
  | i :: idxs => if Leader.is_valid b i then leader_targets b port i ++ targets b port idxs else []
  end.

(** The buffer does not change meanwhile. *)
Definition steady (b : B) : Prop := forall n, buffer (env n) = b.

(** The addresses a loop over leaders finds, when each read of the buffer has its own
    moment. *)
Inductive read_targets (port : TpuPort) : list nat -> list SocketAddr -> Prop :=
| read_done : read_targets port [] []
| read_invalid n i idxs : Leader.is_valid (buffer (env n)) i = false -> read_targets port (i :: idxs) []
| read_leader n m i idxs main fwd l :
    Leader.is_valid (buffer (env n)) i = true -> Leader.get_leader (buffer (env m)) i = Some (main, fwd) ->
    read_targets port idxs l -> read_targets port (i :: idxs) (port_addrs port main fwd ++ l)
| read_missing n m i idxs l :
    Leader.is_valid (buffer (env n)) i = true -> Leader.get_leader (buffer (env m)) i = None ->
    read_targets port idxs l -> read_targets port (i :: idxs) l.

Lemma read_steady port idxs l b : steady b -> read_targets port idxs l -> l = targets b port idxs.
Proof.
  intros Hb. induction 1 as [|n i idxs Hv|n m i idxs main fwd l Hv Hl _ IH|n m i idxs l Hv Hl _ IH]; [done|..];
    cbn [targets]; unfold leader_targets; rewrite (Hb n) in Hv; rewrite Hv; [done|..];
    rewrite (Hb m) in Hl; rewrite Hl; [by f_equal|done].
Qed.

Lemma does_get_leader i port s : ok (endpoint s) ->
  does (get_leader_addrs env i port) s (fun r new => new = [] /\ exists n,
    match r with
    | Ok l => exists main fwd, Leader.get_leader (buffer (env n)) i = Some (main, fwd) /\ l = port_addrs port main fwd
    | Err x => Leader.get_leader (buffer (env n)) i = None /\ x = Error.NotFound
    end).
Proof.
  intros Hs. eapply does_pure; [by apply does_ask|]. intros o s1 [Hs1 _] [n ->].
  destruct (Leader.get_leader (buffer (env n)) i) as [[main fwd]|] eqn:Hl.
  - apply does_ret; [done|]. split; [done|]. exists n. rewrite Hl. by exists main, fwd.
  - split; [done|]. exists []. rewrite app_nil_r. split; [done|]. split; [done|]. exists n. by rewrite Hl.
Qed.

Lemma does_fanout_leaders polls tx port idxs : forall acc s, ok (endpoint s) ->
  does (fanout_leaders env polls tx port idxs acc) s
    (loop_post port tx acc (read_targets port idxs)).
Proof using Type*.
  induction idxs as [|i idxs IH]; intros acc s Hs; cbn [fanout_leaders].
  { apply does_ret; [done|]. split; [constructor|]. intros acc' [= <-]. destruct acc. split; [done|constructor]. }
  eapply does_bind.
  { apply (does_when _ _ _ (fun _ new => new = [CallPoll] \/ new = [])); [done| |by right].
    intros _. eapply does_mono; [by apply does_poll|]. by left. }
  2: { intros x new Hn. split; [|done]. by destruct Hn as [-> | ->]; repeat constructor. }
  intros [] new0 s0 [Hs0 _] Hnew0.
  assert (Hskip : forall r new addrs, loop_post port tx acc addrs r new -> loop_post port tx acc addrs r (new0 ++ new)).
  { intros r new addrs [Hc Hr]. assert (sends_of (new0 ++ new) = sends_of new) as Hss.
    { rewrite sends_of_app. by destruct Hnew0 as [-> | ->]. }
    split; [apply Forall_app; split; [by destruct Hnew0 as [-> | ->]; repeat constructor|done]|]. by rewrite Hss. }
  eapply does_mono; [|intros r new; apply Hskip]. clear Hskip Hnew0 new0.
  eapply does_pure; [by apply does_ask|]. intros v s1 [Hs1 _] [n ->].
  destruct (Leader.is_valid (buffer (env n)) i) eqn:Hv.
  2: { apply does_ret; [done|]. split; [constructor|]. intros acc' [= <-]. split; [by destruct acc|by apply (read_invalid _ n)]. }
  eapply does_pure.
  { eapply does_mono; [by apply does_attempt, does_get_leader|].
    intros r new (r' & -> & -> & m & Hm). split; [done|]. exists r'. split; [done|]. exact (ex_intro _ m Hm). }
  intros r s2 [Hs2 _] [m Hm]. destruct r as [l|x].
  - destruct Hm as (main & fwd & Hl & ->). eapply does_bind; [apply does_fanout_addrs; [|done]| |].
    { apply Forall_forall. intros a Ha. by exists m, i, main, fwd. }
    + intros acc1 new1 s3 [Hs3 _] H1. eapply does_mono; [by apply IH|]. intros r new2 H2.
      eapply loop_post_app; [exact H1|exact H2|]. intros l1 l2 <- H2'. by apply (read_leader _ n m).
    + intros x new [Hc _]. by split.
  - destruct Hm as [Hl _]. eapply does_mono; [by apply IH|]. intros r new [Hc Hr]. split; [done|].
    intros acc' Hacc. destruct (Hr acc' Hacc) as [-> Ha]. split; [done|]. by apply (read_missing _ n m).
Qed.

(** *** A fanout *)

Definition port_used s (opts : SendOptions) : TpuPort := default (sender_tpu_port (config s)) (opt_tpu_port opts).

(** The calls of a fanout: those of the primary leaders, then those of the backup
    leaders. *)
Definition fanout_post tx count port (r : Result SendResult Error.t) (new : list call) : Prop :=
  Forall (goes_to port tx) new /\ forall res, r = Ok res ->
    res = tally_all (sends_of new) send_result_default /\
    exists prim back, sends_of new = prim ++ back /\
      read_targets port (seq 0 (Nat.min count 10)) prim.*1 /\
      if (10 <=? count)%nat && (10 <=? dead_of prim)%nat then read_targets port (seq 10 4) back.*1 else back = [].

Lemma does_backup tx port n acc s : ok (endpoint s) ->
  does (send_backup env tx port n acc) s (fun r new => Forall (goes_to port tx) new /\ forall res, r = Ok res ->
    res = tally_all (sends_of new) acc.1 /\
    if (n <=? acc.2)%nat && (n =? 10)%nat then read_targets port (seq 10 4) (sends_of new).*1 else sends_of new = []).
Proof using Type*.
  intros Hs. unfold send_backup. destruct (_ && _).
  - eapply does_bind; [by apply does_fanout_leaders| |by intros x new [? _]].
    intros acc1 new s1 [Hs1 _] [Hc Hr]. apply does_ret; [done|]. rewrite app_nil_r. split; [done|].
    intros res [= <-]. destruct (Hr _ eq_refl) as [-> Ha]. by split.
  - apply does_ret; [done|]. split; [constructor|]. by intros res [= <-].
Qed.

Lemma does_fanout tx count opts s : ok (endpoint s) ->
  does (send_fanout env tx count opts) s (fanout_post tx count (port_used s opts)).
Proof using Type*.
  intros Hs. unfold send_fanout. eapply does_bind; [by apply does_poll| |].
  2: { intros x new ->. by split; [repeat constructor|]. }
  intros [] new0 s1 (Hs1 & Hcfg & _) ->. eapply does_pure.
  { apply (does_ret_gets s1 _ (port_used s opts)); [done|]. unfold port_used. by rewrite Hcfg. }
  intros port s2 [Hs2 _] ->. eapply does_bind; [by apply does_fanout_leaders| |].
  2: { intros x new [Hc _]. split; [by constructor|done]. }
  intros acc new1 s3 [Hs3 _] [Hc1 Hr1]. destruct (Hr1 _ eq_refl) as [-> Ha1].
  eapply does_mono; [by apply does_backup|]. intros r new2 [Hc2 Hr2].
  split; [constructor; [done|by apply Forall_app]|]. intros res ->. destruct (Hr2 _ eq_refl) as [-> Ha2].
  change (sends_of ([CallPoll] ++ new1 ++ new2)) with (sends_of (new1 ++ new2)). rewrite sends_of_app.
  split; [by rewrite tally_all_app|]. exists (sends_of new1), (sends_of new2).
  split; [done|]. split; [exact Ha1|]. revert Ha2. cbn [snd]. rewrite Nat.add_0_r.
  destruct (Nat.leb_spec 10 count) as [Hle|Hlt].
  - rewrite Nat.min_r by lia. by rewrite andb_true_r.
  - rewrite Nat.min_l by lia. rewrite (proj2 (Nat.eqb_neq count 10)) by lia. by rewrite andb_false_r.
Qed.

(** C16. What a fanout does.  Whatever the environment, [send_fanout] does not
    panic and keeps the endpoint's invariant; every send it makes carries the
    transaction, and if it returns a result, the six counters of the result count
    the answers of exactly the sends made, so that their sum is the number of
    sends.  If the leader buffer [b] does not change meanwhile, the sends go, in
    this order, to the addresses the chosen port selects for the leaders
    0, 1, ... below the count and below ten, up to the first that is not valid,
    and then, if ten were asked for and ten answers were [Dead], to those of the
    backup leaders 10 to 13, again up to the first that is not valid. *)
Theorem fanout_sends tx count opts s :
  ok (endpoint s) ->
  safe (send_fanout env tx count opts) s (fun r s' => ok (endpoint s') /\
    exists new, calls s' = calls s ++ new /\ Forall (carries tx) new /\ forall res, r = Ok res ->
      res = tally_all (sends_of new) send_result_default /\ total res = length (sends_of new) /\
      forall b, steady b -> exists prim back, sends_of new = prim ++ back /\
        prim.*1 = targets b (port_used s opts) (seq 0 (Nat.min count 10)) /\
        back.*1 = if (10 <=? count)%nat && (10 <=? dead_of prim)%nat
                  then targets b (port_used s opts) (seq 10 4) else []).
Proof using Type*.
  intros Hs. eapply safe_mono; [by apply does_fanout|]. intros r s' ([Hs' _] & new & Hc & Hca & Hr).
  split; [done|]. exists new. split; [done|]. split; [by eapply goes_carries|]. intros res ->.
  destruct (Hr _ eq_refl) as [-> Ha].
  split; [done|]. split; [rewrite tally_all_total; unfold total; simpl; lia|].
  intros b Hb. destruct Ha as (prim & back & Hsp & Hp & Hbk). exists prim, back. split; [done|].
  split; [by apply read_steady|]. destruct (_ && _); [by apply read_steady|by rewrite Hbk].
Qed.

End spec.

(** ** An example: three leaders, one of them reached twice *)

Definition demo_moment {B} (b : B) (n : nat) : moment B :=
  {| clock := Z.of_nat n; buffer := b; arrived := []; socket_failed := false; wait_end := 0; wait_rounds := [] |}.

Definition demo_leader (i : Z) : Leader.LeaderEntry :=
  Leader.entry_new [i] (V4 [10; 0; 0; i] 8009) (V4 [10; 0; 0; i] 8010).
Definition demo_buffer : Leader.LeaderBuffer :=
  Leader.update 40 [demo_leader 1; demo_leader 2; demo_leader 1] Leader.buffer_new.

Definition demo_sender : TransactionSender (QuicEndpoint (Q := model_conn) (N := model_net)) :=
  (sender_new (endpoint_api0 := quic_endpoint_api false) sender_config_default (endpoint_new [] None)).1.

Lemma demo_sender_ok : endpoint_ok (endpoint demo_sender).
Proof. apply set_adaptive_ok; [apply adaptive_default_sane|by apply endpoint_new_ok]. Qed.

Lemma fanout_sends_witness :
  exists res s', send_fanout (endpoint_api0 := quic_endpoint_api false) (demo_moment demo_buffer) [7] 5
                   send_options_default demo_sender = (inr (Ok res), s') /\
    (sends_of (calls s')).*1 = [V4 [10; 0; 0; 1] 8009; V4 [10; 0; 0; 2] 8009; V4 [10; 0; 0; 1] 8009] /\
    res = {| sent := 0; early_data := 0; queued := 3; queue_full := 0; dead := 0; errors := 0 |}.
Proof.
  destruct (safe_inv _ _ _ (fanout_sends endpoint_ok (endpoint_api0 := quic_endpoint_api false) (demo_moment demo_buffer)
              [7] 5 send_options_default demo_sender demo_sender_ok))
    as (r & s' & Hrun & _ & new & Hc & _ & Hr).
  assert (Hr' : (send_fanout (endpoint_api0 := quic_endpoint_api false) (demo_moment demo_buffer) [7] 5
                   send_options_default demo_sender).1
                = inr (Ok {| sent := 0; early_data := 0; queued := 3; queue_full := 0; dead := 0; errors := 0 |}))
    by (vm_compute; reflexivity).
  rewrite Hrun in Hr'. injection Hr' as ->.
  destruct (Hr _ eq_refl) as (_ & _ & Ht). destruct (Ht demo_buffer (fun n => eq_refl)) as (prim & back & Hs & Hp & Hb).
  eexists _, s'. split; [exact Hrun|]. split; [|done]. change (calls demo_sender) with (@nil call) in Hc. rewrite Hc. cbn [app].
  rewrite Hs, fmap_app, Hb, Hp. vm_compute. reflexivity.
Defined.
