(* ===== verification/SenderRun.v ===== *)
(** * SenderRun: prewarming and the backup leaders

    When the adaptive prewarming connects ([adaptive_connects_in_window]), and two
    cases in which it and the fanout do nothing: the leader buffer has no backup
    leaders ([backup_leaders_never_tried]), and the prewarm thread does not look
    at the connections it has made ([prewarm_thread_never_reconnects]). *)
From S2P Require Import Prelude Conc Net Quic QuicModel Strategy Timing TimingSpec Endpoint EndpointSpec Sender SenderSpec.
From S2P Require Pool PoolSpec TxQueue SessionCache Leader.

Set Default Proof Using "Type".

(** ** The backup leaders *)

Section backup.
Context {E : Type} `{!endpoint_api E} (env : nat -> moment Leader.LeaderBuffer).
Implicit Types s : TransactionSender E.

(** A fanout without its last part. *)
Definition primary_only (tx : list Z) (count : nat) (opts : SendOptions) : M (TransactionSender E) SendResult :=
  do_poll env ≫= fun _ =>
  tpu_port ← port_of opts;
  acc ← fanout_leaders env true tx tpu_port (seq 0 (Nat.min count 10)) (send_result_default, 0%nat);
  mret acc.1.

Lemma backup_does_nothing tx port n acc s :
  exists s', send_backup env tx port n acc s = (inr (Ok acc.1), s') /\ calls s' = calls s /\ endpoint s' = endpoint s.
Proof.
  unfold send_backup. destruct (_ && _); [|by exists s].
  exists (set_tick (S (tick s)) s). done.
Qed.

(** The fallback of a fanout is never taken with the leader buffer.  The code
    means to try the backup leaders 10 to 13 when all ten primary leaders are
    dead, but [LeaderBuffer] has ten entries and reports every position from 10 on
    as not valid: whatever the buffer holds and however it changes meanwhile, a
    fanout makes the calls of its first part, and no others, and returns its
    result. *)
Theorem backup_leaders_never_tried tx count opts s :
  exists s1 s2, send_fanout env tx count opts s = ((primary_only tx count opts s).1, s2) /\
    primary_only tx count opts s = ((primary_only tx count opts s).1, s1) /\
    calls s2 = calls s1 /\ endpoint s2 = endpoint s1.
Proof.
  unfold send_fanout, primary_only, mbind, M_bind.
  destruct (do_poll env s) as [[|[]] s1]; [by exists s1, s1| |by exists s1, s1].
  destruct (port_of opts s1) as [[|[port|]] s2]; [by exists s2, s2| |by exists s2, s2].
  destruct (fanout_leaders _ _ _ _ _ _ s2) as [[|[acc|]] s3]; [by exists s3, s3| |by exists s3, s3].
  destruct (backup_does_nothing tx port (Nat.min count 10) acc s3) as (s4 & -> & Hc & He). by exists s3, s4.
Qed.

End backup.

(** ** Adaptive prewarming *)

Section adaptive.
Context {E B : Type} `{!endpoint_api E} `{!Leader.LeaderLookup B} (env : nat -> moment B).
Implicit Types s : TransactionSender E.

(** The calls that [m], started in [s], makes satisfy [P], whatever its result. *)
Definition emits {A} (m : M (TransactionSender E) A) s (P : call -> Prop) : Prop :=
  exists new, calls (m s).2 = calls s ++ new /\ Forall P new.

Lemma emits_none {A} (m : M (TransactionSender E) A) s P : calls (m s).2 = calls s -> emits m s P.
Proof. intros Hc. exists []. by rewrite app_nil_r. Qed.

Lemma emits_bind {A C} (m : M (TransactionSender E) A) (k : A -> M (TransactionSender E) C) s P :
  emits m s P -> (forall a s', m s = (inr (Ok a), s') -> emits (k a) s' P) -> emits (m ≫= k) s P.
Proof.
  intros (new & Hc & HP) Hk. unfold emits, mbind, M_bind. destruct (m s) as [[|[a|]] s1] eqn:Hm; [by exists new| |by exists new].
  destruct (Hk a s1 eq_refl) as (new' & Hc' & HP'). exists (new ++ new'). simpl in Hc.
  split; [by rewrite Hc', Hc, app_assoc|]. by apply Forall_app.
Qed.

Lemma emits_for_each {A} (l : list A) (f : A -> M (TransactionSender E) unit) P :
  (forall x s, x ∈ l -> emits (f x) s P) -> forall s, emits (for_each l f) s P.
Proof.
  intros Hf. induction l as [|x l IH]; intros s; [by apply emits_none|]. cbn [for_each].
  apply emits_bind; [apply Hf; left|]. intros a s' _. apply IH. intros y t Hy. apply Hf. by right.
Qed.

Lemma emits_endpoint {A} (m : M E A) s P : emits (on_endpoint m) s P.
Proof. apply emits_none. unfold on_endpoint. by destruct (m (endpoint s)). Qed.

Lemma emits_attempt {A} (m : M (TransactionSender E) A) s P : emits m s P -> emits (attempt m) s P.
Proof. unfold emits, attempt. by destruct (m s) as [[] s1]. Qed.

(** What a read, and an operation of the endpoint, return. *)
Lemma ask_value {A} (f : B -> A) s a s' : ask env f s = (inr (Ok a), s') -> a = f (buffer (env (tick s))).
Proof. unfold ask, next, mbind, M_bind. by intros [= <- _]. Qed.

Lemma endpoint_value {A} (m : M E A) s a s' : on_endpoint m s = (inr (Ok a), s') -> (m (endpoint s)).1 = inr (Ok a).
Proof. unfold on_endpoint. destruct (m (endpoint s)) as [r e]. by intros [= -> _]. Qed.

(** A connection that is due: [current] is in the window of [L] slots before the
    first slot of leader [i], [L] is the endpoint's estimate for the address, and
    the endpoint had no connection to it. *)
Definition due (port : TpuPort) (n : nat) (current : Z) (c : call) : Prop :=
  match c with
  | CallConnect a => exists i n1 n2 main fwd start stop L e0 e1,
      (i < n)%nat /\ Leader.get_leader (buffer (env n1)) i = Some (main, fwd) /\ a = prewarm_addr port main fwd /\
      Leader.get_leader_slots (buffer (env n2)) i = Some (start, stop) /\
      (ep_lookahead_solana_slots a e0).1 = inr (Ok L) /\ saturating_sub start L <= current < start /\
      (ep_connection_state a e1).1 = inr (Ok None)
  | _ => False
  end.

Lemma emits_adaptive_leader port n current i s :
  (i < n)%nat -> emits (adaptive_leader env port current i) s (due port n current).
Proof.
  intros Hi. unfold adaptive_leader. apply emits_bind; [by apply emits_none|]. intros v s1 _.
  destruct v; [|by apply emits_none]. apply emits_bind; [by apply emits_none|]. intros o s2 Ho.
  apply ask_value in Ho. destruct o as [[main fwd]|]; [|by apply emits_none].
  apply emits_bind; [by apply emits_none|]. intros sl s3 Hsl. apply ask_value in Hsl.
  destruct sl as [[start stop]|]; [|by apply emits_none].
  apply emits_bind; [apply emits_endpoint|]. intros L s4 HL. apply endpoint_value in HL.
  destruct (Z.leb_spec (saturating_sub start L) current), (Z.ltb_spec current start);
    cbn [andb]; try by apply emits_none.
  apply emits_bind; [apply emits_endpoint|]. intros st s5 Hst. apply endpoint_value in Hst.
  destruct st; [by apply emits_none|]. apply emits_bind; [by apply emits_none|]. intros m s6 _.
  apply emits_bind.
  - exists [CallConnect (prewarm_addr port main fwd)]. split; [done|]. repeat constructor.
    exists i, (tick s1), (tick s2), main, fwd, start, stop, L. do 2 eexists. do 5 (split; [by eauto|]). split; [lia|exact Hst].
  - intros _ s7 _. apply emits_bind; [apply emits_attempt, emits_endpoint|]. intros _ s8 _. by apply emits_none.
Qed.

(** Adaptive prewarming connects just in time.  Every call [prewarm_adaptive]
    makes on the endpoint is a connection attempt to one of the leaders ahead,
    at the address the port selects, made while the current slot (the first slot
    of leader 0, which is not 0) lies in the window that the endpoint's estimate
    opens before the leader's first slot, and only if there is no connection to
    that address; a leader whose slots have begun is not connected to. *)
Theorem adaptive_connects_in_window s :
  exists new, calls (prewarm_adaptive env s).2 = calls s ++ new /\
    Forall (fun c => exists current stop, Leader.get_leader_slots (buffer (env (tick s))) 0 = Some (current, stop) /\
      current <> 0 /\
      due (sender_tpu_port (config s)) (match inline_prewarm_config s with Some c => lookahead c | None => 10 end)
        current c) new.
Proof.
  change (emits (prewarm_adaptive env) s (fun c => exists current stop,
    Leader.get_leader_slots (buffer (env (tick s))) 0 = Some (current, stop) /\ current <> 0 /\
    due (sender_tpu_port (config s)) (match inline_prewarm_config s with Some c => lookahead c | None => 10%nat end) current c)).
  unfold prewarm_adaptive. apply emits_bind; [by apply emits_none|]. intros port s1 [= <- <-].
  apply emits_bind; [by apply emits_none|]. intros sl s2 [= <- <-].
  destruct (Leader.get_leader_slots (buffer (env (tick s))) 0) as [[current stop]|]; [|by apply emits_none].
  destruct (Z.eqb_spec current 0) as [|Hne]; [by apply emits_none|].
  apply emits_bind; [by apply emits_none|]. intros n s3 [= <- <-]. apply emits_for_each.
  intros i s' Hi. apply elem_of_seq in Hi.
  destruct (emits_adaptive_leader (sender_tpu_port (config s))
              (match inline_prewarm_config s with Some c => lookahead c | None => 10%nat end) current i s') as (new & Hc & HP).
  { simpl in Hi. lia. }
  exists new. split; [done|]. eapply Forall_impl; [exact HP|]. intros c Hdue. by exists current, stop.
Qed.

End adaptive.

(** ** The prewarm thread *)

Section prewarm_thread.
Context {E B : Type} `{!endpoint_api E} (ok : E -> Prop) `{!endpoint_laws E ok} `{!Leader.LeaderLookup B}.
Context (env : nat -> moment B).
Implicit Types t : PrewarmThread E.

(** The two arrays have ten entries and agree. *)
Record thread_ok t : Prop := {
  to_endpoint : ok (pw_endpoint t);
  to_length : length (connected t) = 10%nat /\ length (connected_addrs t) = 10%nat;
  to_agree : forall i c o, connected t !! i = Some c -> connected_addrs t !! i = Some o ->
               c = match o with Some _ => true | None => false end;
}.

Lemma set_connected_ok i o t : thread_ok t -> thread_ok (set_connected i o t).
Proof.
  intros [He [Hl1 Hl2] Ha]. split; [done|simpl; by rewrite !length_insert|]. intros j c o'. simpl.
  intros [(-> & <- & _)|[Hne Hc]]%list_lookup_insert_Some [(Heq & <- & _)|[Hne' Ho]]%list_lookup_insert_Some; try done.
  by eapply Ha.
Qed.

Lemma safe_index {A} (f : PrewarmThread E -> list A) i t x (R : Result A Error.t -> PrewarmThread E -> Prop) :
  f t !! i = Some x -> R (Ok x) t -> safe (pw_index f i) t R.
Proof. intros Hx HR. unfold safe, pw_index, lift_fault. by rewrite Hx. Qed.

Lemma safe_on_pw {A} (m : M E A) t (R : Result A Error.t -> PrewarmThread E -> Prop) :
  safe m (pw_endpoint t) (fun r e => R r {| pw_endpoint := e; pw_config := pw_config t; pw_tpu_port := pw_tpu_port t;
      connected := connected t; connected_addrs := connected_addrs t; pw_tick := pw_tick t; pw_connects := pw_connects t |}) ->
  safe (pw_on_endpoint m) t R.
Proof. unfold safe, pw_on_endpoint. by destruct (m (pw_endpoint t)) as [[] e]. Qed.

Lemma thread_new_ok e c p : ok e -> thread_ok (prewarm_thread_new e c p).
Proof.
  intros He. split; [done|done|]. intros i b o Hb Ho. apply lookup_replicate in Hb as [-> _].
  by apply lookup_replicate in Ho as [-> _].
Qed.

(** The books say that leader [i] of buffer [b] is connected to. *)
Definition settled (b : B) t (i : nat) : Prop :=
  forall main fwd, Leader.is_valid b i = true -> Leader.get_leader b i = Some (main, fwd) ->
    connected_addrs t !! i = Some (Some (prewarm_addr (pw_tpu_port t) main fwd)).

(** The invariant of a round, with what it leaves alone. *)
Definition round_post t t' : Prop :=
  thread_ok t' /\ pw_tpu_port t' = pw_tpu_port t /\ pw_config t' = pw_config t.

Lemma connect_if_needed_ok i a t :
  (i < 10)%nat -> thread_ok t ->
  safe (connect_if_needed env i a) t (fun r t' => r = Ok tt /\ round_post t t' /\
    (connected_addrs t !! i = Some (Some a) ->
     connected_addrs t' = connected_addrs t /\ pw_connects t' = pw_connects t)).
Proof using Type*.
  intros Hi Ht. destruct (Ht) as [He [Hl1 Hl2] Ha].
  destruct (lookup_lt_is_Some_2 (connected t) i) as [c Hc]; [lia|].
  destruct (lookup_lt_is_Some_2 (connected_addrs t) i) as [o Ho]; [lia|].
  apply safe_bind. eapply safe_index; [exact Hc|]. destruct c eqn:Hcv.
  { by apply safe_ret. }
  assert (o = None) as -> by (specialize (Ha _ _ _ Hc Ho); by destruct o).
  apply safe_bind. apply safe_bind. apply safe_bind, safe_attempt, safe_on_pw.
  eapply safe_mono; [by apply (law_blocking (ok := ok))|]. intros r e' He'.
  rewrite Ho. destruct r as [idx|x]; (split; [done|]; split; [|done]; split; [|done]).
  - apply set_connected_ok. by split.
  - by split.
Qed.

Lemma refresh_leader_ok i t :
  (i < 10)%nat -> thread_ok t ->
  safe (refresh_leader env i) t (fun r t' => r = Ok tt /\ round_post t t' /\
    forall b, steady env b -> settled b t i -> connected_addrs t' = connected_addrs t /\ pw_connects t' = pw_connects t).
Proof using Type*.
  intros Hi Ht. unfold refresh_leader. apply safe_bind. unfold safe at 1, pw_next at 1.
  set (t1 := {| pw_endpoint := pw_endpoint t; pw_tick := _ |}).
  assert (Ht1 : thread_ok t1) by (destruct Ht; by split).
  destruct (Leader.is_valid _ i) eqn:Hv; [|by split].
  apply safe_bind. unfold safe at 1, pw_next at 1. set (t2 := {| pw_endpoint := pw_endpoint t1; pw_tick := _ |}).
  assert (Ht2 : thread_ok t2) by (destruct Ht1; by split).
  destruct (Leader.get_leader _ i) as [[main fwd]|] eqn:Hl; [|by split].
  apply safe_bind. unfold safe at 1, gets at 1. set (a := prewarm_addr (pw_tpu_port t2) main fwd).
  destruct (lookup_lt_is_Some_2 (connected_addrs t2) i) as [o Ho]; [destruct (to_length _ Ht2); lia|].
  apply safe_bind. eapply safe_index; [exact Ho|]. apply safe_bind, safe_when; intros Hb.
  - set (t3 := set_connected i None t2). change (safe (connect_if_needed env i a) t3 (fun r t' => r = Ok tt /\ round_post t t' /\
      forall b, steady env b -> settled b t i -> connected_addrs t' = connected_addrs t /\ pw_connects t' = pw_connects t)).
    eapply safe_mono; [apply connect_if_needed_ok; [done|by apply set_connected_ok]|].
    intros r t' (-> & Hp & _). do 2 (split; [done|]). intros b Hs Hset. exfalso.
    rewrite Hs in Hv, Hl. specialize (Hset _ _ Hv Hl). change (connected_addrs t) with (connected_addrs t2) in Hset.
    rewrite Ho in Hset. injection Hset as ->. by rewrite bool_decide_eq_true_2 in Hb.
  - eapply safe_mono; [by apply connect_if_needed_ok|].
    intros r t' (-> & Hp & Hsame). do 2 (split; [done|]). intros b Hs Hset. apply Hsame.
    rewrite Hs in Hv, Hl. exact (Hset _ _ Hv Hl).
Qed.

(** Nothing changes in [t'] that the books of [t] already cover. *)
Definition round_inv (b : B) (n : nat) t t' : Prop :=
  round_post t t' /\ (steady env b -> (forall i, (i < n)%nat -> settled b t i) ->
    connected_addrs t' = connected_addrs t /\ pw_connects t' = pw_connects t).

Lemma refresh_connections_ok b t :
  thread_ok t ->
  safe (refresh_connections env) t (fun _ t' => round_inv b (Nat.min (prewarm_lookahead (pw_config t)) 10) t t').
Proof using Type*.
  intros Ht. unfold refresh_connections. apply safe_bind. unfold safe at 1, gets at 1.
  set (n := Nat.min (prewarm_lookahead (pw_config t)) 10).
  apply (safe_for_each (round_inv b n t)); [split; [by split|done]|].
  intros i t1 Hi [(Ht1 & Hp1 & Hc1) Hs1]. apply elem_of_seq in Hi.
  eapply safe_mono; [apply refresh_leader_ok; [lia|exact Ht1]|].
  intros r t2 (_ & (Ht2 & Hp2 & Hc2) & Hs2). split; [split; [done|]; split; congruence|].
  intros Hst Hset. destruct (Hs1 Hst Hset) as [Ha Hc]. destruct (Hs2 b Hst) as [Ha' Hc']; [|split; congruence].
  intros main fwd Hv Hl. rewrite Ha, Hp1. apply Hset; [lia|done|done].
Qed.

Lemma prewarm_step_ok b t :
  thread_ok t ->
  safe (prewarm_thread_step env) t (fun _ t' => round_inv b (Nat.min (prewarm_lookahead (pw_config t)) 10) t t').
Proof using Type*.
  intros Ht. unfold prewarm_thread_step. apply safe_bind. unfold safe at 1, pw_next at 1.
  apply safe_bind, safe_attempt, safe_on_pw. eapply safe_mono; [apply (law_poll (ok := ok)), Ht|].
  intros r e' He'. set (t1 := {| pw_endpoint := e'; pw_config := _ |}).
  assert (Ht1 : thread_ok t1) by (destruct Ht; by split). exact (refresh_connections_ok b t1 Ht1).
Qed.

(** The prewarm thread never reconnects.  It notes a leader's address when a
    connection attempt succeeds and skips the leader from then on, without asking
    the endpoint whether the connection is still there: while the leaders stay
    the same, any number of rounds over settled books makes no connection
    attempt, whatever has become of the connections.  The rounds do not panic and
    keep the two arrays in agreement. *)
Theorem prewarm_thread_never_reconnects b k t :
  thread_ok t -> steady env b -> (forall i, (i < 10)%nat -> settled b t i) ->
  safe (for_each (replicate k tt) (fun _ => prewarm_thread_step env)) t
    (fun _ t' => thread_ok t' /\ pw_connects t' = pw_connects t).
Proof using Type*.
  intros Ht Hs Hset. eapply safe_mono.
  - apply (safe_for_each (fun t' => round_post t t' /\ connected_addrs t' = connected_addrs t /\ pw_connects t' = pw_connects t));
      [by split|]. intros [] t1 _ ((Ht1 & Hp1 & Hc1) & Ha1 & Hn1).
    eapply safe_mono; [exact (prewarm_step_ok b t1 Ht1)|]. intros r t2 [(Ht2 & Hp2 & Hc2) H2].
    destruct H2 as [Ha2 Hn2]; [done| |split; [split; [done|]; split; congruence|split; congruence]].
    intros i Hi main fwd Hv Hl. rewrite Ha1, Hp1. apply Hset; [lia|done|done].
  - by intros r t' [[? _] [_ ?]].
Qed.

End prewarm_thread.

(** The books after a first round: leader 0 is connected to, and its peer closes
    the connection later. *)
Definition demo_round : moment Leader.LeaderBuffer :=
  {| clock := 5; buffer := Leader.update 40 [demo_leader 1] Leader.buffer_new; arrived := []; socket_failed := false;
     wait_end := 0;
     wait_rounds := [{| elapsed_ms := 400; round_now_ns := 6; round_packets := [([1], V4 [10; 0; 0; 1] 8009)];
                        round_io_error := false |}] |}.

Definition demo_thread : PrewarmThread (QuicEndpoint (Q := model_conn) (N := model_net)) :=
  (prewarm_thread_step (endpoint_api0 := quic_endpoint_api false) (fun _ => demo_round)
    (prewarm_thread_new (endpoint_new (Q := model_conn) ([] : model_net) None) prewarm_default Main)).2.

Lemma prewarm_thread_never_reconnects_witness :
  pw_connects demo_thread = [V4 [10; 0; 0; 1] 8009] /\
  safe (for_each (replicate 3 tt) (fun _ => prewarm_thread_step (endpoint_api0 := quic_endpoint_api false)
                                              (fun _ => demo_round))) demo_thread
    (fun _ t' => pw_connects t' = [V4 [10; 0; 0; 1] 8009]).
Proof.
  assert (Ht : thread_ok endpoint_ok demo_thread).
  { destruct (safe_inv _ _ _ (prewarm_step_ok endpoint_ok (endpoint_api0 := quic_endpoint_api false) (fun _ => demo_round)
      (buffer demo_round) _ (thread_new_ok endpoint_ok _ prewarm_default Main
      (endpoint_new_ok (Q := model_conn) ([] : model_net) None ltac:(done))))) as (r & t' & Hr & [Hp _] & _). unfold demo_thread. rewrite Hr. exact Hp. }
  assert (Hset : forall i, (i < 10)%nat -> settled (buffer demo_round) demo_thread i).
  { assert (Hall : forall j, (j < 10)%nat -> match Leader.get_leader (buffer demo_round) j with
      | Some (m, f) => bool_decide (connected_addrs demo_thread !! j = Some (Some (prewarm_addr Main m f)))
      | None => true end = true).
    { intros j Hj. do 10 (destruct j as [|j]; [vm_compute; reflexivity|]). lia. }
    intros i Hi main fwd _ Hl. specialize (Hall i Hi). rewrite Hl in Hall. by apply bool_decide_eq_true in Hall. }
  pose proof (prewarm_thread_never_reconnects endpoint_ok (endpoint_api0 := quic_endpoint_api false)
    (fun _ => demo_round) (buffer demo_round) 3 demo_thread Ht (fun _ => eq_refl) Hset) as Hsafe.
  assert (Hc : pw_connects demo_thread = [V4 [10; 0; 0; 1] 8009]) by (vm_compute; reflexivity).
  split; [exact Hc|]. eapply safe_mono; [exact Hsafe|]. intros r t' [_ Hn]. rewrite Hn. exact Hc.
Defined.
