(* ===== verification/Unroll.v ===== *)
(** * Unroll: the loop-unrolling macro

    [unroll/src/unroll.rs].  [unroll!(n, |i| body)] expands to [n] copies of the
    body, each with a constant [i].  The rules of the macro are tables here: the
    entry rules, the [@inline] rules (the offsets of the copies, in order) and the
    [@bisect] rules (two calls, each with its kind, size and offset); [expand]
    applies them the way the expander does.  The fuel is the depth of nested
    calls. *)
From S2P Require Import Prelude.

Inductive kind : Type := Inline | Bisect.

Definition inline_rule (n : Z) : option (list Z) :=
  match n with
  | 1 => Some [0]
  | 2 => Some [0; 1]
  | 3 => Some [0; 1; 2]
  | 4 => Some [0; 1; 2; 3]
  | 5 => Some [0; 1; 2; 3; 4]
  | 6 => Some [0; 1; 2; 3; 4; 5]
  | 7 => Some [0; 1; 2; 3; 4; 5; 6]
  | 8 => Some [0; 1; 2; 3; 4; 5; 6; 7]
  | 9 => Some [0; 1; 2; 3; 4; 5; 6; 7; 8]
  | 10 => Some [0; 1; 2; 3; 4; 5; 6; 7; 8; 9]
  | 11 => Some [0; 1; 2; 3; 4; 5; 6; 7; 8; 9; 10]
  | 12 => Some [0; 1; 2; 3; 4; 5; 6; 7; 8; 9; 10; 11]
  | 13 => Some [0; 1; 2; 3; 4; 5; 6; 7; 8; 9; 10; 11; 12]
  | 14 => Some [0; 1; 2; 3; 4; 5; 6; 7; 8; 9; 10; 11; 12; 13]
  | 15 => Some [0; 1; 2; 3; 4; 5; 6; 7; 8; 9; 10; 11; 12; 13; 14]
  | 16 => Some [0; 1; 2; 3; 4; 5; 6; 7; 8; 9; 10; 11; 12; 13; 14; 15]
  | _ => None
  end.

(** The two calls of a rule: kind, size and what is added to the offset. *)
Abbreviation call := (kind * Z * Z)%type.

Definition bisect_rule (n : Z) : option (call * call) :=
  match n with
  | 17 => Some ((Inline, 16, 0), (Inline, 1, 16))
  | 18 => Some ((Inline, 16, 0), (Inline, 2, 16))
  | 19 => Some ((Inline, 16, 0), (Inline, 3, 16))
  | 20 => Some ((Inline, 16, 0), (Inline, 4, 16))
  | 21 => Some ((Inline, 16, 0), (Inline, 5, 16))
  | 22 => Some ((Inline, 16, 0), (Inline, 6, 16))
  | 23 => Some ((Inline, 16, 0), (Inline, 7, 16))
  | 24 => Some ((Inline, 16, 0), (Inline, 8, 16))
  | 25 => Some ((Inline, 16, 0), (Inline, 9, 16))
  | 26 => Some ((Inline, 16, 0), (Inline, 10, 16))
  | 27 => Some ((Inline, 16, 0), (Inline, 11, 16))
  | 28 => Some ((Inline, 16, 0), (Inline, 12, 16))
  | 29 => Some ((Inline, 16, 0), (Inline, 13, 16))
  | 30 => Some ((Inline, 16, 0), (Inline, 14, 16))
  | 31 => Some ((Inline, 16, 0), (Inline, 15, 16))
  | 32 => Some ((Inline, 16, 0), (Inline, 16, 16))
  | 33 => Some ((Bisect, 32, 0), (Inline, 1, 32))
  | 34 => Some ((Bisect, 32, 0), (Inline, 2, 32))
  | 35 => Some ((Bisect, 32, 0), (Inline, 3, 32))
  | 36 => Some ((Bisect, 32, 0), (Inline, 4, 32))
  | 37 => Some ((Bisect, 32, 0), (Inline, 5, 32))
  | 38 => Some ((Bisect, 32, 0), (Inline, 6, 32))
  | 39 => Some ((Bisect, 32, 0), (Inline, 7, 32))
  | 40 => Some ((Bisect, 32, 0), (Inline, 8, 32))
  | 41 => Some ((Bisect, 32, 0), (Inline, 9, 32))
  | 42 => Some ((Bisect, 32, 0), (Inline, 10, 32))
  | 43 => Some ((Bisect, 32, 0), (Inline, 11, 32))
  | 44 => Some ((Bisect, 32, 0), (Inline, 12, 32))
  | 45 => Some ((Bisect, 32, 0), (Inline, 13, 32))
  | 46 => Some ((Bisect, 32, 0), (Inline, 14, 32))
  | 47 => Some ((Bisect, 32, 0), (Inline, 15, 32))
  | 48 => Some ((Bisect, 32, 0), (Inline, 16, 32))
  | 49 => Some ((Bisect, 32, 0), (Bisect, 17, 32))
  | 50 => Some ((Bisect, 32, 0), (Bisect, 18, 32))
  | 51 => Some ((Bisect, 32, 0), (Bisect, 19, 32))
  | 52 => Some ((Bisect, 32, 0), (Bisect, 20, 32))
  | 53 => Some ((Bisect, 32, 0), (Bisect, 21, 32))
  | 54 => Some ((Bisect, 32, 0), (Bisect, 22, 32))
  | 55 => Some ((Bisect, 32, 0), (Bisect, 23, 32))
  | 56 => Some ((Bisect, 32, 0), (Bisect, 24, 32))
  | 57 => Some ((Bisect, 32, 0), (Bisect, 25, 32))
  | 58 => Some ((Bisect, 32, 0), (Bisect, 26, 32))
  | 59 => Some ((Bisect, 32, 0), (Bisect, 27, 32))
  | 60 => Some ((Bisect, 32, 0), (Bisect, 28, 32))
  | 61 => Some ((Bisect, 32, 0), (Bisect, 29, 32))
  | 62 => Some ((Bisect, 32, 0), (Bisect, 30, 32))
  | 63 => Some ((Bisect, 32, 0), (Bisect, 31, 32))
  | 64 => Some ((Bisect, 32, 0), (Bisect, 32, 32))
  | 128 => Some ((Bisect, 64, 0), (Bisect, 64, 64))
  | 256 => Some ((Bisect, 128, 0), (Bisect, 128, 128))
  | 512 => Some ((Bisect, 256, 0), (Bisect, 256, 256))
  | 1024 => Some ((Bisect, 512, 0), (Bisect, 512, 512))
  | _ => None
  end.

(** The entry rules; [None] is the [compile_error!]. *)
Definition entry_rule (n : Z) : option (option (kind * Z)) :=
  match n with
  | 0 => Some None
  | 1 => Some (Some (Inline, 1))
  | 2 => Some (Some (Inline, 2))
  | 3 => Some (Some (Inline, 3))
  | 4 => Some (Some (Inline, 4))
  | 5 => Some (Some (Inline, 5))
  | 6 => Some (Some (Inline, 6))
  | 7 => Some (Some (Inline, 7))
  | 8 => Some (Some (Inline, 8))
  | 9 => Some (Some (Inline, 9))
  | 10 => Some (Some (Inline, 10))
  | 11 => Some (Some (Inline, 11))
  | 12 => Some (Some (Inline, 12))
  | 13 => Some (Some (Inline, 13))
  | 14 => Some (Some (Inline, 14))
  | 15 => Some (Some (Inline, 15))
  | 16 => Some (Some (Inline, 16))
  | 17 => Some (Some (Bisect, 17))
  | 18 => Some (Some (Bisect, 18))
  | 19 => Some (Some (Bisect, 19))
  | 20 => Some (Some (Bisect, 20))
  | 21 => Some (Some (Bisect, 21))
  | 22 => Some (Some (Bisect, 22))
  | 23 => Some (Some (Bisect, 23))
  | 24 => Some (Some (Bisect, 24))
  | 25 => Some (Some (Bisect, 25))
  | 26 => Some (Some (Bisect, 26))
  | 27 => Some (Some (Bisect, 27))
  | 28 => Some (Some (Bisect, 28))
  | 29 => Some (Some (Bisect, 29))
  | 30 => Some (Some (Bisect, 30))
  | 31 => Some (Some (Bisect, 31))
  | 32 => Some (Some (Bisect, 32))
  | 33 => Some (Some (Bisect, 33))
  | 34 => Some (Some (Bisect, 34))
  | 35 => Some (Some (Bisect, 35))
  | 36 => Some (Some (Bisect, 36))
  | 37 => Some (Some (Bisect, 37))
  | 38 => Some (Some (Bisect, 38))
  | 39 => Some (Some (Bisect, 39))
  | 40 => Some (Some (Bisect, 40))
  | 41 => Some (Some (Bisect, 41))
  | 42 => Some (Some (Bisect, 42))
  | 43 => Some (Some (Bisect, 43))
  | 44 => Some (Some (Bisect, 44))
  | 45 => Some (Some (Bisect, 45))
  | 46 => Some (Some (Bisect, 46))
  | 47 => Some (Some (Bisect, 47))
  | 48 => Some (Some (Bisect, 48))
  | 49 => Some (Some (Bisect, 49))
  | 50 => Some (Some (Bisect, 50))
  | 51 => Some (Some (Bisect, 51))
  | 52 => Some (Some (Bisect, 52))
  | 53 => Some (Some (Bisect, 53))
  | 54 => Some (Some (Bisect, 54))
  | 55 => Some (Some (Bisect, 55))
  | 56 => Some (Some (Bisect, 56))
  | 57 => Some (Some (Bisect, 57))
  | 58 => Some (Some (Bisect, 58))
  | 59 => Some (Some (Bisect, 59))
  | 60 => Some (Some (Bisect, 60))
  | 61 => Some (Some (Bisect, 61))
  | 62 => Some (Some (Bisect, 62))
  | 63 => Some (Some (Bisect, 63))
  | 64 => Some (Some (Bisect, 64))
  | 128 => Some (Some (Bisect, 128))
  | 256 => Some (Some (Bisect, 256))
  | 512 => Some (Some (Bisect, 512))
  | 1024 => Some (Some (Bisect, 1024))
  | _ => None
  end.

(** The values of [i] in the copies, in order. *)
Fixpoint expand (fuel : nat) (k : kind) (n offset : Z) : option (list Z) :=
  match k with
  | Inline => map (fun d => offset + d) <$> inline_rule n
  | Bisect =>
      match fuel with
      | 0%nat => None
      | Datatypes.S fuel =>
          '(c1, c2) ← bisect_rule n;
          l ← expand fuel c1.1.1 c1.1.2 (offset + c1.2);
          r ← expand fuel c2.1.1 c2.1.2 (offset + c2.2);
          Some (l ++ r)
      end
  end.

(** Ten levels are enough for 1024. *)
Definition DEPTH : nat := 10.

Definition unroll (n : Z) : option (list Z) :=
  e ← entry_rule n;
  match e with
  | None => Some []
  | Some (k, m) => expand DEPTH k m 0
  end.

(** The code the macro generates, for a body that changes a state. *)
Definition run_unrolled {S} (n : Z) (body : Z -> S -> S) (s : S) : option S :=
  (fun l => fold_left (fun s i => body i s) l s) <$> unroll n.

(** ** The expansion is the loop *)

Definition supported (n : Z) : bool := (0 <=? n) && (n <=? 64) || bool_decide (n ∈ [128; 256; 512; 1024]).

(** [for i in 0..n] *)
Definition for_loop {S} (n : Z) (body : Z -> S -> S) (s : S) : S :=
  fold_left (fun s i => body i s) (seqZ 0 n) s.

Definition sizes : list Z := seqZ 0 65 ++ [128; 256; 512; 1024].

Lemma supported_sizes n : supported n = true -> n ∈ sizes.
Proof.
  unfold supported, sizes. intros H. apply orb_true_iff in H as [H|H]; apply elem_of_app.
  - left. apply elem_of_seqZ. lia.
  - right. by apply bool_decide_eq_true in H.
Qed.

Lemma unroll_sizes n : n ∈ sizes -> unroll n = Some (seqZ 0 n).
Proof.
  assert (Hall : forallb (fun n => bool_decide (unroll n = Some (seqZ 0 n))) sizes = true) by (vm_compute; reflexivity).
  rewrite forallb_forall in Hall. intros Hn. apply list_elem_of_In in Hn. by apply Hall, bool_decide_eq_true in Hn.
Qed.

Lemma entry_supported n e : entry_rule n = Some e -> supported n = true.
Proof.
  unfold entry_rule. intros H.
  repeat match type of H with
         | match ?x with _ => _ end = _ => destruct x; try discriminate H
         end; reflexivity.
Qed.

(** Unrolling is the loop.  For every body and state, [unroll!] with a size it
    supports (0 to 64, 128, 256, 512 and 1024) runs the body for [0], [1], up to
    [n - 1], each once and in this order, as the loop it replaces does; for every
    other size the expansion stops with an error instead of dropping or repeating
    a round. *)
Theorem unroll_is_loop {S} n (body : Z -> S -> S) s :
  run_unrolled n body s = if supported n then Some (for_loop n body s) else None.
Proof.
  unfold run_unrolled. destruct (supported n) eqn:Hs.
  - apply supported_sizes in Hs. by rewrite unroll_sizes.
  - unfold unroll. destruct (entry_rule n) as [e|] eqn:He; [|done]. apply entry_supported in He. by rewrite Hs in He.
Qed.
