(* ===== verification/Date.v ===== *)
(** * Date: the HTTP [Date] header

    [server/src/date.rs].  [format_http_date] walks the years and months from
    1970 on; [http_date_correct] compares it with the closed formula of the
    Gregorian calendar.  The cache around it ([CACHED_DATE], a buffer of 32
    bytes rewritten by a background thread) is modelled by [update_date] and
    [append_date]. *)
From S2P Require Import Prelude.
From Stdlib Require Import Ascii.

Definition DAYS : list string := ["Sun"; "Mon"; "Tue"; "Wed"; "Thu"; "Fri"; "Sat"]%string.
Definition MONTHS : list string :=
  ["Jan"; "Feb"; "Mar"; "Apr"; "May"; "Jun"; "Jul"; "Aug"; "Sep"; "Oct"; "Nov"; "Dec"]%string.

Definition is_leap_year (year : Z) : bool :=
  (year mod 4 =? 0) && (negb (year mod 100 =? 0) || (year mod 400 =? 0)).

Definition get_days_in_month (month : nat) (year : Z) : Z :=
  match month with
  | 0%nat => 31
  | 1%nat => if is_leap_year year then 29 else 28
  | 2%nat => 31
  | 3%nat => 30
  | 4%nat => 31
  | 5%nat => 30
  | 6%nat => 31
  | 7%nat => 31
  | 8%nat => 30
  | 9%nat => 31
  | 10%nat => 30
  | 11%nat => 31
  | _ => 0
  end.

(** *** Decimal numbers, [{}] and [{:02}] *)

Definition digit (n : Z) : ascii := ascii_of_nat (48 + Z.to_nat (n mod 10)).

Fixpoint digits_acc (fuel : nat) (n : Z) (acc : string) : string :=
  match fuel with
  | O => acc
  | Datatypes.S fuel =>
      let acc := String.String (digit n) acc in
      if n / 10 =? 0 then acc else digits_acc fuel (n / 10) acc
  end.

(** A [u64] has at most 20 digits. *)
Definition decimal (n : Z) : string := digits_acc 20 n EmptyString.

Definition pad2 (n : Z) : string :=
  if n <? 10 then String.append "0"%string (decimal n) else decimal n.

#[global] Arguments decimal : simpl never.
#[global] Arguments pad2 : simpl never.

(** ** The walk *)

(** [None]: more years than [fuel]. *)
Fixpoint year_loop (fuel : nat) (year days_remaining : Z) : option (Z * Z) :=
  match fuel with
  | O => None
  | Datatypes.S fuel =>
      let days_in_year := if is_leap_year year then 366 else 365 in
      if days_remaining <? days_in_year then Some (year, days_remaining)
      else year_loop fuel (year + 1) (days_remaining - days_in_year)
  end.

(** The months from [m] on, [n] left; 0 when no month holds the day. *)
Fixpoint month_loop (m n : nat) (year days_remaining : Z) : nat * Z :=
  match n with
  | O => (0%nat, days_remaining)
  | Datatypes.S n =>
      let days_in_month := get_days_in_month m year in
      if days_remaining <? days_in_month then (m, days_remaining)
      else month_loop (Datatypes.S m) n year (days_remaining - days_in_month)
  end.

Definition render (dow month : nat) (day year hour minute second : Z) : option string :=
  day_name ← DAYS !! dow;
  month_name ← MONTHS !! month;
  Some (day_name ++ ", " ++ pad2 day ++ " " ++ month_name ++ " " ++ decimal year ++ " " ++
        pad2 hour ++ ":" ++ pad2 minute ++ ":" ++ pad2 second ++ " GMT")%string.

(** Every year has at least 365 days, so one round more than the quotient is
    enough ([year_loop_spec]). *)
Definition format_http_date (secs : Z) : option string :=
  let days_since_epoch := secs / 86400 in
  let secs_today := secs mod 86400 in
  let dow := Z.to_nat ((days_since_epoch + 4) mod 7) in
  '(year, days_remaining) ← year_loop (Datatypes.S (Z.to_nat (days_since_epoch / 365))) 1970 days_since_epoch;
  let '(month, days_remaining) := month_loop 0 12 year days_remaining in
  let day := days_remaining + 1 in
  let hour := secs_today / 3600 in
  let minute := secs_today mod 3600 / 60 in
  let second := secs_today mod 60 in
  render dow month day year hour minute second.

(** ** The cache *)

Record DateCache : Type := { formatted : list ascii; len : nat }.

Definition cache_init : DateCache := {| formatted := replicate 32 (ascii_of_nat 0); len := 0 |}.

(** [buf[..len].copy_from_slice(..)] panics when the date is longer than the
    buffer. *)
Definition update_date (secs : Z) (c : DateCache) : Result DateCache fault :=
  match format_http_date secs with
  | None => Err (Panic "index out of bounds")
  | Some s =>
      let bytes := String.list_ascii_of_string s in
      if (32 <? length bytes)%nat then Err (Panic "range end index out of range")
      else Ok {| formatted := bytes ++ drop (length bytes) (formatted c); len := length bytes |}
  end.

Definition append_date (c : DateCache) (buf : list ascii) : list ascii := buf ++ take (len c) (formatted c).

Example date_1994 : format_http_date 784887151 = Some "Tue, 15 Nov 1994 08:12:31 GMT"%string.
Proof. vm_compute. reflexivity. Qed.
Example date_epoch : format_http_date 0 = Some "Thu, 01 Jan 1970 00:00:00 GMT"%string.
Proof. vm_compute. reflexivity. Qed.

(** ** The calendar *)

(** Leap years among the years 1 to [y] of the Gregorian calendar. *)
Definition leap_years_to (y : Z) : Z := y / 4 - y / 100 + y / 400.

(** Days from 1 January 1970 to 1 January of [y]. *)
Definition days_before_year (y : Z) : Z :=
  365 * (y - 1970) + (leap_years_to (y - 1) - leap_years_to 1969).

(** Days of the year before its month [m] (0: January), which has a leap day
    from March on. *)
Definition days_before_month (m : nat) (y : Z) : Z :=
  nth m [0; 31; 59; 90; 120; 151; 181; 212; 243; 273; 304; 334] 0 +
  (if (2 <=? m)%nat && is_leap_year y then 1 else 0).

Definition days_from_civil (y : Z) (m : nat) (d : Z) : Z :=
  days_before_year y + days_before_month m y + (d - 1).

Lemma leap_years_step y :
  leap_years_to y - leap_years_to (y - 1) = if is_leap_year y then 1 else 0.
Proof.
  unfold leap_years_to, is_leap_year.
  assert (Hstep : forall k, 0 < k -> y / k - (y - 1) / k = if y mod k =? 0 then 1 else 0).
  { intros k Hk. pose proof (Z.div_mod y k). pose proof (Z.mod_pos_bound y k Hk).
    destruct (Z.eqb_spec (y mod k) 0) as [Hz|Hne].
    - replace ((y - 1) / k) with (y / k - 1); [lia|]. apply (Z.div_unique _ _ _ (k - 1)); lia.
    - replace ((y - 1) / k) with (y / k); [lia|]. apply (Z.div_unique _ _ _ (y mod k - 1)); lia. }
  pose proof (Hstep 4). pose proof (Hstep 100). pose proof (Hstep 400).
  assert (H100 : y mod 100 = 0 -> y mod 4 = 0) by (Z.to_euclidean_division_equations; lia).
  assert (H400 : y mod 400 = 0 -> y mod 100 = 0) by (Z.to_euclidean_division_equations; lia).
  destruct (Z.eqb_spec (y mod 4) 0), (Z.eqb_spec (y mod 100) 0), (Z.eqb_spec (y mod 400) 0); simpl; lia.
Qed.

Definition days_in_year (y : Z) : Z := if is_leap_year y then 366 else 365.

Lemma days_before_year_step y : days_before_year (y + 1) = days_before_year y + days_in_year y.
Proof.
  unfold days_before_year, days_in_year. pose proof (leap_years_step y).
  replace (y + 1 - 1) with y by lia. destruct (is_leap_year y); lia.
Qed.

Lemma days_before_month_step m y :
  (m < 11)%nat -> days_before_month (Datatypes.S m) y = days_before_month m y + get_days_in_month m y.
Proof. intros Hm. do 11 (destruct m as [|m]; [unfold days_before_month; simpl; destruct (is_leap_year y); lia|]). lia. Qed.

Lemma december y : days_before_month 11 y + get_days_in_month 11 y = days_in_year y.
Proof. unfold days_before_month, days_in_year. simpl. destruct (is_leap_year y); lia. Qed.

(** ** Correctness *)

Lemma year_loop_spec fuel y0 rem :
  0 <= rem -> rem / 365 < Z.of_nat fuel ->
  exists y r, year_loop fuel y0 rem = Some (y, r) /\ y0 <= y /\ 0 <= r < days_in_year y /\
    days_before_year y + r = days_before_year y0 + rem.
Proof.
  revert y0 rem. induction fuel as [|fuel IH]; intros y0 rem Hrem Hf.
  { pose proof (Z.div_pos rem 365). lia. }
  cbn [year_loop]. fold (days_in_year y0). destruct (Z.ltb_spec rem (days_in_year y0)) as [Hlt|Hge].
  { exists y0, rem. split; [done|]. lia. }
  assert (Hd : 365 <= days_in_year y0) by (unfold days_in_year; destruct (is_leap_year y0); lia).
  destruct (IH (y0 + 1) (rem - days_in_year y0)) as (y & r & Hrun & Hy & Hr & He); [lia| |].
  - pose proof (Z.div_le_mono (rem - days_in_year y0) (rem - 365) 365).
    replace (rem - 365) with (rem + (-1) * 365) in * by lia. rewrite Z.div_add in * by lia. lia.
  - exists y, r. split; [done|]. rewrite days_before_year_step in He. lia.
Qed.

Lemma month_loop_spec n m y rem :
  (m + n = 12)%nat -> (0 < n)%nat -> 0 <= rem -> days_before_month m y + rem < days_in_year y ->
  exists k r, month_loop m n y rem = (k, r) /\ (k < 12)%nat /\ 0 <= r < get_days_in_month k y /\
    days_before_month k y + r = days_before_month m y + rem.
Proof.
  revert m rem. induction n as [|n IH]; intros m rem Hm Hn Hrem Hlt; [lia|].
  cbn [month_loop]. destruct (Z.ltb_spec rem (get_days_in_month m y)) as [Hr|Hr].
  { exists m, rem. split; [done|]. lia. }
  destruct n as [|n].
  { replace m with 11%nat in * by lia. pose proof (december y). lia. }
  destruct (IH (Datatypes.S m) (rem - get_days_in_month m y)) as (k & r & Hrun & Hk & Hr' & He); try lia.
  { rewrite days_before_month_step by lia. lia. }
  exists k, r. split; [done|]. rewrite days_before_month_step in He by lia. lia.
Qed.

(** The instant a date and a time of day stand for. *)
Definition to_secs (y : Z) (m : nat) (d hour minute second : Z) : Z :=
  days_from_civil y m d * 86400 + hour * 3600 + minute * 60 + second.

Lemma render_total dow month day year hour minute second :
  (dow < 7)%nat -> (month < 12)%nat -> is_Some (render dow month day year hour minute second).
Proof.
  intros Hd Hm. unfold render.
  destruct (lookup_lt_is_Some_2 DAYS dow Hd) as [dn ->]. simpl.
  destruct (lookup_lt_is_Some_2 MONTHS month Hm) as [mn ->]. simpl. eauto.
Qed.

Lemma format_civil secs :
  0 <= secs ->
  exists year month day hour minute second text,
    format_http_date secs = Some text /\
    render (Z.to_nat ((days_from_civil year month day + 4) mod 7)) month day year hour minute second = Some text /\
    to_secs year month day hour minute second = secs /\
    1970 <= year /\ (month < 12)%nat /\ 1 <= day <= get_days_in_month month year /\
    0 <= hour < 24 /\ 0 <= minute < 60 /\ 0 <= second < 60.
Proof.
  intros Hs. unfold format_http_date. set (days := secs / 86400). set (t := secs mod 86400).
  assert (Hdays : 0 <= days) by (apply Z.div_pos; lia).
  assert (Ht : 0 <= t < 86400) by (apply Z.mod_pos_bound; lia).
  assert (Hsecs : secs = 86400 * days + t) by (apply Z.div_mod; lia).
  destruct (year_loop_spec (Datatypes.S (Z.to_nat (days / 365))) 1970 days) as (y & r & -> & Hy & Hr & He);
    [lia|pose proof (Z.div_pos days 365); lia|].
  destruct (month_loop_spec 12 0 y r) as (m & r' & Hm & Hm12 & Hr' & He'); try lia.
  { unfold days_before_month. simpl. lia. }
  cbn [mbind option_bind]. rewrite Hm. change (days_before_year 1970) with 0 in He.
  change (days_before_month 0 y) with 0 in He'.
  assert (Hciv : days_from_civil y m (r' + 1) = days) by (unfold days_from_civil; lia).
  destruct (render_total (Z.to_nat ((days + 4) mod 7)) m (r' + 1) y (t / 3600) (t mod 3600 / 60) (t mod 60))
    as [text Htext]; [pose proof (Z.mod_pos_bound (days + 4) 7); lia|done|].
  exists y, m, (r' + 1), (t / 3600), (t mod 3600 / 60), (t mod 60), text.
  rewrite Hciv. split; [done|]. split; [done|]. unfold to_secs. rewrite Hciv.
  clear - Ht Hsecs Hy Hm12 Hr'. split; [|split; [|split; [|split]]]; try lia;
    Z.to_euclidean_division_equations; lia.
Qed.

(** ** The buffer *)

Lemma digits_acc_length fuel n acc k :
  (0 < k <= fuel)%nat -> 0 <= n < 10 ^ Z.of_nat k -> (k = 1%nat \/ 10 ^ Z.of_nat (k - 1) <= n) ->
  String.length (digits_acc fuel n acc) = (k + String.length acc)%nat.
Proof.
  revert n acc k. induction fuel as [|fuel IH]; intros n acc k Hk Hn Hlo; [lia|]. cbn [digits_acc].
  destruct (decide (k = 1%nat)) as [->|Hk1].
  - rewrite Z.div_small by (simpl in Hn; lia). done.
  - destruct Hlo as [?|Hlo]; [done|].
    assert (Hp : 10 ^ Z.of_nat k = 10 * 10 ^ Z.of_nat (k - 1)).
    { rewrite <- Z.pow_succ_r by lia. f_equal. lia. }
    assert (Hp' : 10 ^ Z.of_nat (k - 1) = 10 * 10 ^ Z.of_nat (k - 2)).
    { rewrite <- Z.pow_succ_r by lia. f_equal. lia. }
    pose proof (Z.pow_pos_nonneg 10 (Z.of_nat (k - 2))).
    assert (Hdiv : 10 ^ Z.of_nat (k - 2) <= n / 10 < 10 ^ Z.of_nat (k - 1)).
    { split; [apply Z.div_le_lower_bound; lia|apply Z.div_lt_upper_bound; lia]. }
    destruct (Z.eqb_spec (n / 10) 0); [lia|].
    rewrite (IH _ _ (k - 1)%nat); [simpl; lia|lia|lia|].
    right. replace (k - 1 - 1)%nat with (k - 2)%nat by lia. lia.
Qed.

Lemma decimal_length n k :
  (0 < k <= 20)%nat -> 0 <= n < 10 ^ Z.of_nat k -> (k = 1%nat \/ 10 ^ Z.of_nat (k - 1) <= n) ->
  String.length (decimal n) = k.
Proof. intros Hk Hn Hlo. unfold decimal. rewrite (digits_acc_length _ _ _ k) by done. simpl. lia. Qed.

Lemma string_append_length s t : String.length (String.append s t) = (String.length s + String.length t)%nat.
Proof. induction s as [|c s IH]; simpl; [done|]. by rewrite IH. Qed.

Lemma pad2_length n : 0 <= n < 100 -> String.length (pad2 n) = 2%nat.
Proof.
  intros Hn. unfold pad2. destruct (Z.ltb_spec n 10).
  - rewrite string_append_length, (decimal_length n 1); [done|lia|simpl; lia|lia].
  - apply decimal_length; [lia|simpl; lia|right; simpl; lia].
Qed.

(** Days and months have names of three letters. *)
Lemma render_length dow month day year hour minute second text :
  0 <= day < 100 -> 1000 <= year < 10000 -> 0 <= hour < 100 -> 0 <= minute < 100 -> 0 <= second < 100 ->
  render dow month day year hour minute second = Some text -> String.length text = 29%nat.
Proof.
  intros Hd Hy Hh Hm Hs. unfold render.
  assert (Hdays : forall i x, DAYS !! i = Some x -> String.length x = 3%nat).
  { intros i x. do 7 (destruct i as [|i]; [intros [= <-]; done|]). done. }
  assert (Hmonths : forall i x, MONTHS !! i = Some x -> String.length x = 3%nat).
  { intros i x. do 12 (destruct i as [|i]; [intros [= <-]; done|]). done. }
  destruct (DAYS !! dow) as [dn|] eqn:Hdn; simpl; [|done].
  destruct (MONTHS !! month) as [mn|] eqn:Hmn; simpl; [|done]. intros [= <-].
  rewrite !string_append_length, !pad2_length, (Hdays _ _ Hdn), (Hmonths _ _ Hmn), (decimal_length year 4)
    by (simpl; lia).
  done.
Qed.

Lemma get_days_in_month_bound m y : get_days_in_month m y <= 31.
Proof. do 12 (destruct m as [|m]; [simpl; destruct (is_leap_year y); lia|]). simpl. lia. Qed.

Lemma days_before_month_nonneg m y : 0 <= days_before_month m y.
Proof.
  unfold days_before_month.
  do 12 (destruct m as [|m]; [cbn [nth]; destruct (_ && _); lia|]).
  destruct m; cbn [nth]; destruct (_ && _); lia.
Qed.

Lemma days_before_year_mono y y' : y <= y' -> days_before_year y <= days_before_year y'.
Proof.
  intros Hy. replace y' with (y + Z.of_nat (Z.to_nat (y' - y))) by lia.
  induction (Z.to_nat (y' - y)) as [|n IH]; [rewrite Z.add_0_r; lia|].
  replace (y + Z.of_nat (Datatypes.S n)) with (y + Z.of_nat n + 1) by lia.
  rewrite days_before_year_step. unfold days_in_year. destruct (is_leap_year _); lia.
Qed.

(** The first second of the year 10000. *)
Definition YEAR_10000 : Z := 253402300800.

Lemma year_below_10000 year month day hour minute second :
  to_secs year month day hour minute second < YEAR_10000 -> 1 <= day -> 0 <= hour -> 0 <= minute -> 0 <= second ->
  year < 10000.
Proof.
  intros Hs Hd Hh Hm Hsec. destruct (Z_lt_ge_dec year 10000) as [|Hy]; [done|exfalso].
  pose proof (days_before_year_mono 10000 year ltac:(lia)) as Hb.
  change (days_before_year 10000) with 2932897 in Hb. pose proof (days_before_month_nonneg month year).
  unfold to_secs, days_from_civil, YEAR_10000 in *. lia.
Qed.

Lemma list_ascii_length t : length (String.list_ascii_of_string t) = String.length t.
Proof. induction t as [|c t IH]; simpl; [done|]. by rewrite IH. Qed.

(** The [Date] header is right: for every [u64] number of seconds, the walk
    over the years ends, and the text is that of a valid calendar date and time
    of day which, by the closed formula of the Gregorian calendar, is exactly
    that many seconds after the epoch; the day of the week is the one that
    follows from 1 January 1970 being a Thursday.  Before the year 10000 the text
    has 29 bytes, so that the updater never overruns the cached buffer of 32, and
    a response gets exactly this text. *)
Theorem http_date_correct secs :
  0 <= secs < U64 ->
  exists year month day hour minute second text,
    format_http_date secs = Some text /\
    render (Z.to_nat ((days_from_civil year month day + 4) mod 7)) month day year hour minute second = Some text /\
    to_secs year month day hour minute second = secs /\
    1970 <= year /\ (month < 12)%nat /\ 1 <= day <= get_days_in_month month year /\
    0 <= hour < 24 /\ 0 <= minute < 60 /\ 0 <= second < 60 /\
    (secs < YEAR_10000 -> String.length text = 29%nat /\
     forall c buf, exists c', update_date secs c = Ok c' /\
       append_date c' buf = buf ++ String.list_ascii_of_string text).
Proof.
  intros [Hs _]. destruct (format_civil secs Hs) as (y & m & d & h & mi & s & text & Hf & Hr & Ht & Hy & Hm & Hd & Hh & Hmi & Hse).
  exists y, m, d, h, mi, s, text. repeat (split; [done|]). intros Hmax.
  assert (Hlen : String.length text = 29%nat).
  { pose proof (get_days_in_month_bound m y). rewrite <- Ht in Hmax.
    pose proof (year_below_10000 _ _ _ _ _ _ Hmax). eapply render_length; [..|exact Hr]; lia. }
  split; [done|]. intros c buf. unfold update_date, append_date. rewrite Hf, list_ascii_length, Hlen.
  eexists. split; [reflexivity|]. cbn [len formatted]. rewrite <- Hlen, <- list_ascii_length.
  by rewrite take_app_length.
Qed.

Lemma http_date_correct_witness :
  exists text, format_http_date 784887151 = Some text /\ text = "Tue, 15 Nov 1994 08:12:31 GMT"%string.
Proof.
  destruct (http_date_correct 784887151) as (y & m & d & h & mi & s & text & Hf & _).
  { split; vm_compute; done. }
  exists text. split; [exact Hf|]. vm_compute in Hf. by injection Hf as <-.
Defined.
