(* ===== verification/Str.v ===== *)
(** * Str: Rust strings

    The operations of [str] and of byte slices that the server uses: a byte is
    an integer below 256, a [str] is the list of its code points, [from_utf8]
    and [as_bytes] go between the two. *)
From Stdlib Require Import Ascii.
From S2P Require Import Prelude.

Abbreviation str := (list Z).

(** String literals. *)
Definition lit (s : string) : str := (fun c => Z.of_nat (nat_of_ascii c)) <$> String.list_ascii_of_string s.

(** A byte literal in which the source's double quotes are written as single
    ones. *)
Definition quoted (s : string) : list Z := (fun c => if c =? 39 then 34 else c) <$> lit s.

(** ** UTF-8 *)

Definition continuation (lo hi b : Z) : bool := (lo <=? b) && (b <=? hi).
Definition cont (b : Z) : bool := continuation 128 191 b.

(** [str::from_utf8]: the well-formed sequences of the Unicode standard. *)
Fixpoint from_utf8 (bs : list Z) : option str :=
  match bs with
  | [] => Some []
  | b0 :: r0 =>
      if b0 <? 128 then cons b0 <$> from_utf8 r0
      else
        match r0 with
        | [] => None
        | b1 :: r1 =>
            if continuation 194 223 b0 then
              if cont b1 then cons ((b0 - 192) * 64 + (b1 - 128)) <$> from_utf8 r1 else None
            else
              match r1 with
              | [] => None
              | b2 :: r2 =>
                  if continuation 224 239 b0 then
                    if (if b0 =? 224 then continuation 160 191 b1
                        else if b0 =? 237 then continuation 128 159 b1 else cont b1) && cont b2
                    then cons ((b0 - 224) * 4096 + (b1 - 128) * 64 + (b2 - 128)) <$> from_utf8 r2
                    else None
                  else
                    match r2 with
                    | [] => None
                    | b3 :: r3 =>
                        if continuation 240 244 b0 &&
                           (if b0 =? 240 then continuation 144 191 b1
                            else if b0 =? 244 then continuation 128 143 b1 else cont b1) &&
                           cont b2 && cont b3
                        then cons ((b0 - 240) * 262144 + (b1 - 128) * 4096 + (b2 - 128) * 64 + (b3 - 128))
                               <$> from_utf8 r3
                        else None
                    end
              end
        end
  end.

Definition encode_char (c : Z) : list Z :=
  if c <? 128 then [c]
  else if c <? 2048 then [192 + c / 64; 128 + c mod 64]
  else if c <? 65536 then [224 + c / 4096; 128 + c / 64 mod 64; 128 + c mod 64]
  else [240 + c / 262144; 128 + c / 4096 mod 64; 128 + c / 64 mod 64; 128 + c mod 64].

Definition as_bytes (s : str) : list Z := s ≫= encode_char.

(** ** Splitting and trimming *)

(** [char::is_whitespace] *)
Definition is_whitespace (c : Z) : bool :=
  continuation 9 13 c || (c =? 32) || (c =? 133) || (c =? 160) || (c =? 5760) ||
  continuation 8192 8202 c || (c =? 8232) || (c =? 8233) || (c =? 8239) || (c =? 8287) || (c =? 12288).

Fixpoint drop_while (f : Z -> bool) (s : str) : str :=
  match s with
  | [] => []
  | c :: r => if f c then drop_while f r else s
  end.

Definition trim (s : str) : str := rev (drop_while is_whitespace (rev (drop_while is_whitespace s))).

(** The pieces between the code points [sep]. *)
Fixpoint split_on (sep : Z) (s : str) : list str :=
  match s with
  | [] => [[]]
  | c :: r =>
      match split_on sep r with
      | [] => []
      | p :: ps => if c =? sep then [] :: p :: ps else (c :: p) :: ps
      end
  end.

(** [str::lines]: lines end with a line feed, a carriage return before it is
    not part of the line; text after the last line feed is a line unless it is
    empty. *)
Definition strip_cr (s : str) : str :=
  match rev s with
  | 13 :: r => rev r
  | _ => s
  end.

Fixpoint line_pieces (pieces : list str) : list str :=
  match pieces with
  | [] => []
  | [last] => match last with [] => [] | _ => [last] end
  | p :: ps => strip_cr p :: line_pieces ps
  end.

Definition lines (s : str) : list str := line_pieces (split_on 10 s).

(** [str::split_whitespace] *)
Fixpoint words_acc (s : str) (w : str) : list str :=
  match s with
  | [] => match w with [] => [] | _ => [w] end
  | c :: r =>
      if is_whitespace c then match w with [] => words_acc r [] | _ => w :: words_acc r [] end
      else words_acc r (w ++ [c])
  end.
Definition split_whitespace (s : str) : list str := words_acc s [].

(** The position of the first [c]. *)
Fixpoint find_char (c : Z) (s : str) : option nat :=
  match s with
  | [] => None
  | x :: r => if x =? c then Some 0%nat else Datatypes.S <$> find_char c r
  end.

Definition to_ascii_lowercase (c : Z) : Z := if continuation 65 90 c then c + 32 else c.
Definition eq_ignore_ascii_case (a b : str) : bool :=
  bool_decide ((to_ascii_lowercase <$> a) = (to_ascii_lowercase <$> b)).

(** ** Numbers *)

Definition is_ascii_digit (c : Z) : bool := continuation 48 57 c.

(** [str::parse::<usize>] on the digits. *)
Fixpoint parse_digits (s : str) (acc : Z) : option Z :=
  match s with
  | [] => Some acc
  | c :: r =>
      if is_ascii_digit c then
        let acc := acc * 10 + (c - 48) in
        if acc <? U64 then parse_digits r acc else None
      else None
  end.

Definition parse_usize (s : str) : option Z :=
  match s with
  | [] => None
  | [43] => None
  | 43 :: r => parse_digits r 0
  | _ => parse_digits s 0
  end.

(** [str::parse::<u16>] *)
Definition parse_u16 (s : str) : option Z :=
  match parse_usize s with Some n => if n <? 65536 then Some n else None | None => None end.

(** The decimal digits of a [u64], as [itoa] and [format!] write them. *)
Fixpoint digits_acc (fuel : nat) (n : Z) (acc : str) : str :=
  match fuel with
  | O => acc
  | Datatypes.S fuel =>
      let acc := (48 + n mod 10) :: acc in
      if n / 10 =? 0 then acc else digits_acc fuel (n / 10) acc
  end.
Definition decimal (n : Z) : str := digits_acc 20 n [].

(** ** Facts *)

Definition is_ascii (c : Z) : Prop := 0 <= c < 128.

Lemma from_utf8_ascii s : Forall is_ascii s -> from_utf8 s = Some s.
Proof.
  induction 1 as [|c s Hc Hs IH]; [done|]. cbn [from_utf8]. unfold is_ascii in Hc.
  destruct (Z.ltb_spec c 128); [|lia]. by rewrite IH.
Qed.

Lemma as_bytes_ascii s : Forall is_ascii s -> as_bytes s = s.
Proof.
  induction 1 as [|c s Hc Hs IH]; [done|]. change (as_bytes (c :: s)) with (encode_char c ++ as_bytes s).
  unfold encode_char, is_ascii in *. destruct (Z.ltb_spec c 128); [|lia]. by rewrite IH.
Qed.

Lemma drop_while_none f s : (forall c, head s = Some c -> f c = false) -> drop_while f s = s.
Proof. destruct s as [|c s]; [done|]. simpl. intros H. by rewrite H. Qed.

(** A text that neither starts nor ends with white space is its own trim. *)
Lemma trim_id s :
  (forall c, head s = Some c -> is_whitespace c = false) ->
  (forall c, last s = Some c -> is_whitespace c = false) -> trim s = s.
Proof.
  intros Hh Hl. unfold trim. rewrite (drop_while_none _ s) by done.
  rewrite (drop_while_none _ (rev s)).
  - apply rev_involutive.
  - intros c Hc. apply Hl. destruct s as [|x s] using rev_ind; [done|].
    rewrite rev_app_distr in Hc. simpl in Hc. simplify_eq. apply last_snoc.
Qed.
