(* ===== verification/Timer.v ===== *)
(** * Timer: the time stamp counter and the timers

    [timing/src/rdtsc.rs], [timing/src/timer.rs] and the rest of
    [timing/src/lib.rs].  What the processor's counter reads is an argument, and so
    are the clock of the calibration and the feature [enabled]; products are taken
    in [u128] and cut to [u64] as in the source.  The registry of named histograms
    is used by one thread at a time; its locks are left out. *)
From S2P Require Import Prelude Conc Str.
From S2P Require Histogram.

Definition G : Z := 1000000000.

(** The two halves of the counter. *)
Definition rdtsc (hi lo : Z) : Z := Z.lor (Z.shiftl hi 32) lo.

(** [end_cycles - start_cycles] wraps in a release build. *)
Definition calibrate_frequency (start_cycles end_cycles nanos : Z) : Result Z fault :=
  let cycles := (end_cycles - start_cycles) mod U64 in
  if nanos =? 0 then Err (Panic "attempt to divide by zero") else Ok ((cycles * G / nanos) mod U64).

(** [init]: the new [CYCLES_PER_SECOND]. *)
Definition init (enabled : bool) (start_cycles end_cycles nanos freq : Z) : Result Z fault :=
  if enabled then calibrate_frequency start_cycles end_cycles nanos else Ok freq.

Definition cycles_to_nanos (freq cycles : Z) : Z :=
  if freq =? 0 then cycles / 3 else (cycles * G / freq) mod U64.
Definition nanos_to_cycles (freq nanos : Z) : Z :=
  if freq =? 0 then (nanos * 3) mod U64 else (nanos * freq / G) mod U64.

(** Histograms are shared: a timer has the name of one. *)
Abbreviation registry := (gmap string Histogram.Histogram).

(** ** TimePoint *)

Record TimePoint : Type := { cycles : Z }.

Section timers.
Context (enabled : bool) (freq : Z).

Definition now (tsc : Z) : TimePoint := {| cycles := if enabled then tsc else 0 |}.
Definition elapsed_ns (tsc : Z) (t : TimePoint) : Z :=
  if enabled then if cycles t <? tsc then cycles_to_nanos freq (tsc - cycles t) else 0 else 0.
Definition elapsed_cycles (tsc : Z) (t : TimePoint) : Z :=
  if enabled then if cycles t <? tsc then tsc - cycles t else 0 else 0.

(** ** Timer *)

Record Timer : Type := { start : TimePoint; histogram : option string }.

Definition timer_start (tsc : Z) : Timer := {| start := now tsc; histogram := None |}.
Definition start_with_histogram (tsc : Z) (h : string) : Timer := {| start := now tsc; histogram := Some h |}.
Definition timer_elapsed_ns (tsc : Z) (t : Timer) : Z := elapsed_ns tsc (start t).
Definition elapsed_micros (tsc : Z) (t : Timer) : Z := timer_elapsed_ns tsc t / 1000.
Definition elapsed_millis (tsc : Z) (t : Timer) : Z := timer_elapsed_ns tsc t / 1000000.
Definition restart (tsc : Z) (t : Timer) : Timer := {| start := now tsc; histogram := histogram t |}.

(** [record] on the histogram [h], alone. *)
Definition record_in (h : string) (ns : Z) (r : registry) : registry :=
  alter (fun hist => (run (Histogram.record 1 ns) hist).1.2) h r.

Definition stop (tsc : Z) (t : Timer) (r : registry) : Z * registry :=
  let elapsed := timer_elapsed_ns tsc t in
  (elapsed, match histogram t with Some h => record_in h elapsed r | None => r end).

(** ** TimerGuard *)

Record TimerGuard : Type := { guard_start : TimePoint; guard_histogram : string; name : option string }.

Definition guard_new (tsc : Z) (h : string) : TimerGuard :=
  {| guard_start := now tsc; guard_histogram := h; name := None |}.
Definition guard_named (tsc : Z) (h n : string) : TimerGuard :=
  {| guard_start := now tsc; guard_histogram := h; name := Some n |}.
Definition guard_elapsed_ns (tsc : Z) (g : TimerGuard) : Z := elapsed_ns tsc (guard_start g).
Definition guard_drop (tsc : Z) (g : TimerGuard) (r : registry) : registry :=
  record_in (guard_histogram g) (elapsed_ns tsc (guard_start g)) r.

(** ** ScopedTimer *)

Record ScopedTimer : Type := { scoped_histogram : string; threshold_ns : Z }.

Definition scoped_new (h : string) : ScopedTimer := {| scoped_histogram := h; threshold_ns := 1000000 |}.
Definition with_threshold (ns : Z) (t : ScopedTimer) : ScopedTimer :=
  {| scoped_histogram := scoped_histogram t; threshold_ns := ns |}.

Definition micro : str := [956; 115].

(** The line the timer prints: [who] names the operation. *)
Definition threshold_warning (who : str) (elapsed : Z) : str :=
  lit "operation " ++ who ++ lit "exceeded threshold: " ++ decimal (elapsed / 1000) ++ micro.

(** The closure [f] may use the registry; the result, the line printed, if any, and
    the registry afterwards. *)
Definition time_as {A} (who : str) (tsc0 tsc1 : Z) (f : registry -> A * registry) (t : ScopedTimer) (r : registry)
    : A * option str * registry :=
  let start := now tsc0 in
  let '(result, r) := f r in
  let elapsed := elapsed_ns tsc1 start in
  (result, if threshold_ns t <? elapsed then Some (threshold_warning who elapsed) else None,
   record_in (scoped_histogram t) elapsed r).

Definition time {A} (tsc0 tsc1 : Z) (f : registry -> A * registry) := time_as [] tsc0 tsc1 f.
Definition time_named {A} (tsc0 tsc1 : Z) (n : str) (f : registry -> A * registry) :=
  time_as (lit "'" ++ n ++ lit "' ") tsc0 tsc1 f.

Definition scoped_guard (tsc : Z) (t : ScopedTimer) : TimerGuard := guard_new tsc (scoped_histogram t).
Definition scoped_guard_named (tsc : Z) (n : string) (t : ScopedTimer) : TimerGuard :=
  guard_named tsc (scoped_histogram t) n.

(** [time_block!] *)
Definition time_block {A} (tsc0 tsc1 : Z) (block : registry -> A * registry) (r : registry) : A * Z * registry :=
  let start := now tsc0 in
  let '(result, r) := block r in
  (result, elapsed_ns tsc1 start, r).

(** [time_if_enabled!] *)
Definition time_if_enabled {A} (tsc0 tsc1 : Z) (h : string) (block : registry -> A * registry) (r : registry)
    : A * registry :=
  if enabled then
    let start := now tsc0 in
    let '(result, r) := block r in
    (result, record_in h (elapsed_ns tsc1 start) r)
  else block r.

End timers.

(** ** The registry *)

(** The name is the handle that is shared. *)
Definition global_histogram (n : string) (r : registry) : string * registry :=
  match r !! n with
  | Some _ => (n, r)
  | None => (n, <[n := Histogram.new]> r)
  end.

Definition clear_all (r : registry) : registry := (fun h => (run Histogram.clear h).1.2) <$> r.

(** ** LatencyStats *)

Definition show (unit : str) (f : Z -> Z) (s : Histogram.LatencyStats) : str :=
  let p := Histogram.s_percentiles s in
  lit "count=" ++ decimal (Histogram.s_count s) ++ lit " min=" ++ decimal (f (Histogram.s_min s)) ++ unit ++
  lit " p50=" ++ decimal (f (Histogram.p50 p)) ++ unit ++ lit " p99=" ++ decimal (f (Histogram.p99 p)) ++ unit ++
  lit " p999=" ++ decimal (f (Histogram.p999 p)) ++ unit ++ lit " max=" ++ decimal (f (Histogram.s_max s)) ++ unit.
Definition format (s : Histogram.LatencyStats) : str := show (lit "ns") (fun n => n) s.
Definition format_micros (s : Histogram.LatencyStats) : str := show micro (fun n => n / 1000) s.

Definition show_percentiles (unit : str) (f : Z -> Z) (p : Histogram.Percentiles) : str :=
  lit "p50=" ++ decimal (f (Histogram.p50 p)) ++ unit ++ lit " p90=" ++ decimal (f (Histogram.p90 p)) ++ unit ++
  lit " p99=" ++ decimal (f (Histogram.p99 p)) ++ unit ++ lit " p999=" ++ decimal (f (Histogram.p999 p)) ++ unit ++
  lit " p9999=" ++ decimal (f (Histogram.p9999 p)) ++ unit.
Definition percentiles_format (p : Histogram.Percentiles) : str := show_percentiles (lit "ns") (fun n => n) p.
Definition percentiles_format_micros (p : Histogram.Percentiles) : str := show_percentiles micro (fun n => n / 1000) p.

(** [report_all]: a line for each histogram with samples, in the order of the map. *)
Definition report_all (r : registry) : Result (list (string * str)) fault :=
  foldr (fun '(n, h) acc =>
           match (run Histogram.stats h).2, acc with
           | inl f, _ => Err f
           | _, Err f => Err f
           | inr s, Ok lines => Ok (if 0 <? Histogram.s_count s then (n, format_micros s) :: lines else lines)
           end) (Ok []) (map_to_list r).

(** ** What a timer measures *)

Lemma div_lt_mul a b c : 0 < b -> a / b < c -> a < c * b.
Proof. intros Hb H. pose proof (Z.mul_succ_div_gt a b Hb). nia. Qed.

(** A conversion to cycles and back loses less than a cycle and a nanosecond. *)
Lemma cycles_back freq t :
  0 < freq < U64 -> 0 <= t < U64 -> t * freq / G < U64 ->
  t - G / freq - 1 <= cycles_to_nanos freq (nanos_to_cycles freq t) <= t.
Proof.
  intros Hf Ht Hc. unfold cycles_to_nanos, nanos_to_cycles. rewrite (proj2 (Z.eqb_neq freq 0)) by lia.
  assert (HG : 0 < G) by done. set (c := t * freq / G) in *.
  assert (H0 : 0 <= c) by (apply Z.div_pos; nia). rewrite (Z.mod_small c) by lia.
  assert (Hup : c * G <= t * freq) by (unfold c; pose proof (Z.mul_div_le (t * freq) G HG); lia).
  assert (Hlow : t * freq < (c + 1) * G) by (apply div_lt_mul; [done|]; fold c; lia).
  assert (Hle : c * G / freq <= t) by (apply Z.div_le_upper_bound; lia).
  assert (Hge : 0 <= c * G / freq) by (apply Z.div_pos; lia).
  rewrite Z.mod_small by lia. split; [|done].
  pose proof (Z.mul_succ_div_gt (c * G) freq ltac:(lia)). pose proof (Z.mul_succ_div_gt G freq ltac:(lia)).
  set (n := c * G / freq) in *. set (g := G / freq) in *. nia.
Qed.

(** What a timer measures.  Let the counter run at the calibrated frequency:
    after [t] nanoseconds it has advanced by [t * freq / 10^9] cycles.  Then
    [elapsed_ns] never exceeds the true time and falls short of it by at most one
    cycle ([10^9 / freq] nanoseconds, 0 above one gigahertz) and one nanosecond;
    with equal or lower readings it is 0, and without the feature too.  The bound
    holds as long as neither count leaves [u64]. *)
Theorem timer_measures_time freq t tsc :
  0 < freq < U64 -> 0 <= t < U64 -> 0 <= tsc -> tsc + t * freq / G < U64 ->
  let read := tsc + nanos_to_cycles freq t in
  t - G / freq - 1 <= elapsed_ns true freq read (now true tsc) <= t /\
  (forall earlier, earlier <= tsc -> elapsed_ns true freq earlier (now true tsc) = 0) /\
  elapsed_ns false freq read (now false tsc) = 0.
Proof.
  intros Hf Ht Htsc Hc read.
  assert (Hpos : 0 <= t * freq / G) by (apply Z.div_pos; [nia|done]).
  assert (Hn : nanos_to_cycles freq t = t * freq / G).
  { unfold nanos_to_cycles. rewrite (proj2 (Z.eqb_neq freq 0)) by lia. apply Z.mod_small. lia. }
  pose proof (cycles_back freq t Hf Ht ltac:(lia)) as Hb. split; [|split].
  - unfold elapsed_ns, now. cbn [cycles]. destruct (Z.ltb_spec tsc read) as [Hlt|Hge].
    + unfold read. by replace (tsc + nanos_to_cycles freq t - tsc) with (nanos_to_cycles freq t) by lia.
    + assert (nanos_to_cycles freq t = 0) as Hz by (unfold read in Hge; lia). rewrite Hz in Hb.
      unfold cycles_to_nanos in Hb. rewrite (proj2 (Z.eqb_neq freq 0)) in Hb by lia.
      rewrite Z.mul_0_l, Zdiv_0_l, Zmod_0_l in Hb. lia.
  - intros earlier He. unfold elapsed_ns, now. cbn [cycles]. by rewrite (proj2 (Z.ltb_ge _ _)) by lia.
  - done.
Qed.

Lemma timer_measures_time_witness :
  let read := 5000 + nanos_to_cycles 2500000000 1001 in
  1000 <= elapsed_ns true 2500000000 read (now true 5000) <= 1001.
Proof.
  exact (proj1 (timer_measures_time 2500000000 1001 5000 ltac:(done) ltac:(done) ltac:(done) ltac:(vm_compute; done))).
Defined.
