(* ===== verification/Request.v ===== *)
(** * Request: JSON-RPC requests and their base64 payload

    [server/src/request.rs] and [server/src/error.rs].  The JSON library is a
    parameter: [Value] is its type of documents and [from_value] what
    [serde_json::from_value::<SendTransactionParams>] makes of one (its error is
    the text of the [serde_json::Error]).

    [base64_decode] is proved to invert the RFC 4648 encoder, and
    [send_transaction_decoded] carries that through [from_rpc_request]. *)
From S2P Require Import Prelude Str.

(** ** Errors *)

Inductive ServerError : Type :=
| Io (e : str)
| JsonParse (e : str)
| InvalidRequest (s : str)
| MethodNotFound (s : str)
| InvalidParams (s : str)
| Internal (s : str)
| QueueFull
| InvalidHttp (s : str)
| Base64Decode (s : str)
| ChannelSend
| ChannelReceive.

Definition to_rpc_code (e : ServerError) : Z :=
  match e with
  | JsonParse _ => -32700
  | InvalidRequest _ => -32600
  | MethodNotFound _ => -32601
  | InvalidParams _ | Base64Decode _ => -32602
  | _ => -32603
  end.

Definition to_rpc_message (e : ServerError) : str :=
  match e with
  | JsonParse _ => lit "Parse error"
  | InvalidRequest _ => lit "Invalid Request"
  | MethodNotFound _ => lit "Method not found"
  | InvalidParams _ => lit "Invalid params"
  | Base64Decode _ => lit "Invalid params"
  | _ => lit "Internal error"
  end.

(** [ServerError]'s [Display] *)
Definition error_to_string (e : ServerError) : str :=
  match e with
  | Io s => lit "I/O error: " ++ s
  | JsonParse s => lit "JSON parse error: " ++ s
  | InvalidRequest s => lit "Invalid JSON-RPC request: " ++ s
  | MethodNotFound s => lit "Method not found: " ++ s
  | InvalidParams s => lit "Invalid parameters: " ++ s
  | Internal s => lit "Internal error: " ++ s
  | QueueFull => lit "Queue full"
  | InvalidHttp s => lit "Invalid HTTP request: " ++ s
  | Base64Decode s => lit "Base64 decode error: " ++ s
  | ChannelSend => lit "Channel send error"
  | ChannelReceive => lit "Channel receive error"
  end.

Definition to_rpc_data (e : ServerError) : option str := Some (error_to_string e).

(** ** Base64 *)

Definition insert_all (f : nat -> nat * Z) (n : nat) (table : list Z) : list Z :=
  fold_left (fun t i => <[(f i).1 := (f i).2]> t) (seq 0 n) table.

Definition DECODE_TABLE : list Z :=
  let table := replicate 256 255 in
  let table := insert_all (fun i => ((65 + i)%nat, Z.of_nat i)) 26 table in
  let table := insert_all (fun i => ((97 + i)%nat, Z.of_nat i + 26)) 26 table in
  let table := insert_all (fun i => ((48 + i)%nat, Z.of_nat i + 52)) 10 table in
  <[47%nat := 63]> (<[43%nat := 62]> table).

(** [DECODE_TABLE[b as usize]] for a byte [b]. *)
Definition decode_byte (b : Z) : Z := default 255 (DECODE_TABLE !! Z.to_nat b).

Definition EQUALS : Z := 61.

(** [<<] on [u8] *)
Definition shl8 (x k : Z) : Z := Z.shiftl x k mod 256.

Definition invalid_char (i : nat) : str :=
  lit "Invalid base64 character at position " ++ decimal (Z.of_nat i).

(** The loop over groups of four from position [i] on; fewer than four bytes
    end it. *)
Fixpoint decode_loop (i : nat) (input output : list Z) : Result (list Z) str :=
  match input with
  | b0 :: b1 :: b2 :: b3 :: rest =>
      let a := decode_byte b0 in
      let b := decode_byte b1 in
      let c := decode_byte b2 in
      let d := decode_byte b3 in
      if (a =? 255) || (b =? 255) then Err (invalid_char i)
      else
        let output := output ++ [Z.lor (shl8 a 2) (Z.shiftr b 4)] in
        if negb (b2 =? EQUALS) && (c =? 255) then Err (invalid_char (i + 2))
        else
          let output := if b2 =? EQUALS then output
                        else output ++ [Z.lor (shl8 b 4) (Z.shiftr c 2)] in
          if negb (b3 =? EQUALS) && (d =? 255) then Err (invalid_char (i + 3))
          else
            let output := if b3 =? EQUALS then output
                          else output ++ [Z.lor (shl8 c 6) d] in
            decode_loop (i + 4) rest output
  | _ => Ok output
  end.

Fixpoint count_while (f : Z -> bool) (l : list Z) : nat :=
  match l with
  | [] => 0
  | x :: r => if f x then Datatypes.S (count_while f r) else 0
  end.

Definition is_padding (b : Z) : bool := b =? EQUALS.

Definition base64_decode (input : str) : Result (list Z) str :=
  let input_bytes := as_bytes (trim input) in
  let padding := count_while is_padding (rev input_bytes) in
  let input_len := (length input_bytes - padding)%nat in
  if (input_len =? 0)%nat then Ok [] else decode_loop 0 input_bytes [].

Definition decode_base64 (s : str) : Result (list Z) ServerError :=
  match base64_decode s with
  | Ok v => Ok v
  | Err e => Err (Base64Decode e)
  end.

(** ** Requests *)

Record SendTransactionParams : Type := {
  params_transaction : str; params_fanout : Z; params_target_slot : Z;
  params_neighbor_fanout : option Z }.

Section request.
Context {Value : Type} (from_value : Value -> Result SendTransactionParams str).

Record JsonRpcRequest : Type := { jsonrpc : str; id : Value; method : str; params : Value }.

Definition validate (req : JsonRpcRequest) : Result unit ServerError :=
  if bool_decide (jsonrpc req = lit "2.0") then Ok tt
  else Err (InvalidRequest (lit "Invalid jsonrpc version: " ++ jsonrpc req)).

Record ParsedRequest : Type := {
  request_id : Value; transaction : list Z; fanout : Z; target_slot : Z; neighbor_fanout : option Z }.

Definition from_rpc_request (req : JsonRpcRequest) : Result ParsedRequest ServerError :=
  match validate req with
  | Err e => Err e
  | Ok _ =>
      if negb (bool_decide (method req = lit "sendTransaction")) then Err (MethodNotFound (method req))
      else
        match from_value (params req) with
        | Err e => Err (InvalidParams e)
        | Ok p =>
            match decode_base64 (params_transaction p) with
            | Err e => Err e
            | Ok tx =>
                if params_fanout p =? 0 then Err (InvalidParams (lit "fanout must be greater than 0"))
                else if match params_neighbor_fanout p with Some nf => 8 <? nf | None => false end
                then Err (InvalidParams (lit "neighbor_fanout must be between 0 and 8"))
                else Ok {| request_id := id req; transaction := tx; fanout := params_fanout p;
                           target_slot := params_target_slot p;
                           neighbor_fanout := params_neighbor_fanout p |}
            end
        end
  end.

Record JsonRpcError : Type := { code : Z; message : str; data : option str }.

Definition from_server_error (e : ServerError) : JsonRpcError :=
  {| code := to_rpc_code e; message := to_rpc_message e; data := to_rpc_data e |}.

Record JsonRpcResponse : Type := {
  response_jsonrpc : str; response_id : Value; result : option Value; error : option JsonRpcError }.

Definition response_success (i result : Value) : JsonRpcResponse :=
  {| response_jsonrpc := lit "2.0"; response_id := i; result := Some result; error := None |}.
Definition response_error (i : Value) (e : JsonRpcError) : JsonRpcResponse :=
  {| response_jsonrpc := lit "2.0"; response_id := i; result := None; error := Some e |}.
Definition from_error (i : Value) (e : ServerError) : JsonRpcResponse :=
  response_error i (from_server_error e).

End request.

(** ** The decoder inverts the encoder *)

Definition alphabet (i : Z) : Z :=
  if i <? 26 then 65 + i
  else if i <? 52 then 97 + (i - 26)
  else if i <? 62 then 48 + (i - 52)
  else if i =? 62 then 43 else 47.

(** RFC 4648, section 4. *)
Fixpoint base64_encode (bytes : list Z) : list Z :=
  match bytes with
  | [] => []
  | [a] => [alphabet (a / 4); alphabet (a mod 4 * 16); EQUALS; EQUALS]
  | [a; b] => [alphabet (a / 4); alphabet (a mod 4 * 16 + b / 16); alphabet (b mod 16 * 4); EQUALS]
  | a :: b :: c :: rest =>
      alphabet (a / 4) :: alphabet (a mod 4 * 16 + b / 16) :: alphabet (b mod 16 * 4 + c / 64)
      :: alphabet (c mod 64) :: base64_encode rest
  end.

Definition is_byte (b : Z) : Prop := 0 <= b < 256.

Lemma alphabet_table i : 0 <= i < 64 ->
  decode_byte (alphabet i) = i /\ alphabet i <> EQUALS /\ is_ascii (alphabet i) /\
  is_whitespace (alphabet i) = false.
Proof.
  intros Hi.
  pose proof (seqZ_forallb (fun i => (decode_byte (alphabet i) =? i) && negb (alphabet i =? EQUALS) &&
      (0 <=? alphabet i) && (alphabet i <? 128) && negb (is_whitespace (alphabet i))) 0 64 i
    ltac:(vm_compute; reflexivity) ltac:(lia)) as Hall. cbv beta in Hall.
  repeat (apply andb_true_iff in Hall as [Hall ?]). unfold is_ascii.
  repeat match goal with H : negb _ = true |- _ => apply negb_true_iff in H end.
  split; [lia|]. split; [lia|]. split; [lia|done].
Qed.

(** The three bytes of a group from its four 6-bit values. *)
Lemma group_first a b : is_byte a -> is_byte b ->
  Z.lor (shl8 (a / 4) 2) (Z.shiftr (a mod 4 * 16 + b / 16) 4) = a.
Proof.
  intros Ha Hb. unfold is_byte in *. unfold shl8. rewrite Z.shiftl_mul_pow2, Z.shiftr_div_pow2 by lia.
  change (2 ^ 4) with 16. rewrite Z.div_add_l, (Z.div_small (b / 16)) by (Z.to_euclidean_division_equations; lia).
  rewrite Z.mod_small, lor_field by (change (2 ^ 2) with 4; Z.to_euclidean_division_equations; lia).
  change (2 ^ 2) with 4. Z.to_euclidean_division_equations. lia.
Qed.

Lemma group_second a b c : is_byte a -> is_byte b -> is_byte c ->
  Z.lor (shl8 (a mod 4 * 16 + b / 16) 4) (Z.shiftr (b mod 16 * 4 + c / 64) 2) = b.
Proof.
  intros Ha Hb Hc. unfold is_byte in *. unfold shl8. rewrite Z.shiftl_mul_pow2, Z.shiftr_div_pow2 by lia.
  assert (H1 : ((a mod 4 * 16 + b / 16) * 2 ^ 4) mod 256 = b / 16 * 2 ^ 4).
  { change (2 ^ 4) with 16. symmetry. apply (Z.mod_unique _ _ (a mod 4)); Z.to_euclidean_division_equations; lia. }
  assert (H2 : (b mod 16 * 4 + c / 64) / 2 ^ 2 = b mod 16).
  { change (2 ^ 2) with 4. symmetry. apply (Z.div_unique _ _ _ (c / 64)); Z.to_euclidean_division_equations; lia. }
  rewrite H1, H2, lor_field by (try (change (2 ^ 4) with 16); Z.to_euclidean_division_equations; lia).
  change (2 ^ 4) with 16. Z.to_euclidean_division_equations. lia.
Qed.

Lemma group_third b c : is_byte b -> is_byte c ->
  Z.lor (shl8 (b mod 16 * 4 + c / 64) 6) (c mod 64) = c.
Proof.
  intros Hb Hc. unfold is_byte in *. unfold shl8. rewrite Z.shiftl_mul_pow2 by lia.
  assert (H1 : ((b mod 16 * 4 + c / 64) * 2 ^ 6) mod 256 = c / 64 * 2 ^ 6).
  { change (2 ^ 6) with 64. symmetry. apply (Z.mod_unique _ _ (b mod 16)); Z.to_euclidean_division_equations; lia. }
  rewrite H1, lor_field by (try (change (2 ^ 6) with 64); Z.to_euclidean_division_equations; lia).
  change (2 ^ 6) with 64. Z.to_euclidean_division_equations. lia.
Qed.

(** One step of the loop for each of the three shapes a group has. *)
Lemma decode_group i w x y z rest out :
  0 <= w < 64 -> 0 <= x < 64 -> 0 <= y < 64 -> 0 <= z < 64 ->
  decode_loop i (alphabet w :: alphabet x :: alphabet y :: alphabet z :: rest) out
  = decode_loop (i + 4) rest (out ++ [Z.lor (shl8 w 2) (Z.shiftr x 4); Z.lor (shl8 x 4) (Z.shiftr y 2);
                                      Z.lor (shl8 y 6) z]).
Proof.
  intros Hw Hx Hy Hz. cbn [decode_loop].
  destruct (alphabet_table w Hw) as (-> & _), (alphabet_table x Hx) as (-> & _),
    (alphabet_table y Hy) as (-> & Hyne & _), (alphabet_table z Hz) as (-> & Hzne & _).
  rewrite (proj2 (Z.eqb_neq w 255)), (proj2 (Z.eqb_neq x 255)), (proj2 (Z.eqb_neq y 255)),
    (proj2 (Z.eqb_neq z 255)), (proj2 (Z.eqb_neq _ _) Hyne), (proj2 (Z.eqb_neq _ _) Hzne) by lia.
  cbn [orb andb negb]. by rewrite <- !app_assoc.
Qed.

Lemma decode_group_pad1 i w x y out :
  0 <= w < 64 -> 0 <= x < 64 -> 0 <= y < 64 ->
  decode_loop i [alphabet w; alphabet x; alphabet y; EQUALS] out
  = Ok (out ++ [Z.lor (shl8 w 2) (Z.shiftr x 4); Z.lor (shl8 x 4) (Z.shiftr y 2)]).
Proof.
  intros Hw Hx Hy. cbn [decode_loop].
  destruct (alphabet_table w Hw) as (-> & _), (alphabet_table x Hx) as (-> & _),
    (alphabet_table y Hy) as (-> & Hyne & _).
  rewrite (proj2 (Z.eqb_neq w 255)), (proj2 (Z.eqb_neq x 255)), (proj2 (Z.eqb_neq y 255)),
    (proj2 (Z.eqb_neq _ _) Hyne), Z.eqb_refl by lia.
  cbn [orb andb negb]. by rewrite <- !app_assoc.
Qed.

Lemma decode_group_pad2 i w x out :
  0 <= w < 64 -> 0 <= x < 64 ->
  decode_loop i [alphabet w; alphabet x; EQUALS; EQUALS] out = Ok (out ++ [Z.lor (shl8 w 2) (Z.shiftr x 4)]).
Proof.
  intros Hw Hx. cbn [decode_loop].
  destruct (alphabet_table w Hw) as (-> & _), (alphabet_table x Hx) as (-> & _).
  rewrite (proj2 (Z.eqb_neq w 255)), (proj2 (Z.eqb_neq x 255)), Z.eqb_refl by lia. done.
Qed.

Ltac six_bits := unfold is_byte in *; Z.to_euclidean_division_equations; lia.

Lemma decode_loop_encode n bytes i out :
  (length bytes <= n)%nat -> Forall is_byte bytes ->
  decode_loop i (base64_encode bytes) out = Ok (out ++ bytes).
Proof.
  assert (H0 : is_byte 0) by (unfold is_byte; lia).
  revert bytes i out. induction n as [|n IH]; intros bytes i out Hn Hb.
  { destruct bytes; [|simpl in Hn; lia]. simpl. by rewrite app_nil_r. }
  destruct bytes as [|a [|b [|c rest]]]; repeat (apply Forall_cons in Hb as [? Hb]); cbn [base64_encode].
  - simpl. by rewrite app_nil_r.
  - rewrite decode_group_pad2 by six_bits. do 3 f_equal.
    pose proof (group_first a 0) as Hg. rewrite Z.add_0_r in Hg. by apply Hg.
  - rewrite decode_group_pad1 by six_bits. do 2 f_equal. rewrite group_first by done. do 2 f_equal.
    pose proof (group_second a b 0) as Hg. rewrite Z.add_0_r in Hg. by apply Hg.
  - rewrite decode_group by six_bits.
    rewrite IH by (done || simpl in Hn; lia).
    rewrite group_first, group_second, group_third, <- app_assoc by done. done.
Qed.

Definition plain (c : Z) : Prop := is_ascii c /\ is_whitespace c = false.

Lemma encode_plain n bytes :
  (length bytes <= n)%nat -> Forall is_byte bytes -> Forall plain (base64_encode bytes).
Proof.
  assert (Ha : forall i, 0 <= i < 64 -> plain (alphabet i)).
  { intros i Hi. destruct (alphabet_table i Hi) as (_ & _ & ? & ?). done. }
  assert (He : plain EQUALS) by (split; [unfold is_ascii, EQUALS; lia|done]).
  revert bytes. induction n as [|n IH]; intros bytes Hn Hb; [by destruct bytes; [constructor|simpl in Hn; lia]|].
  destruct bytes as [|a [|b [|c rest]]]; repeat (apply Forall_cons in Hb as [? Hb]); cbn [base64_encode];
    repeat (apply Forall_cons_2; [first [done|apply Ha; six_bits]|]); try done.
  apply IH; [simpl in Hn; lia|done].
Qed.

Lemma plain_trim s : Forall plain s -> as_bytes (trim s) = s.
Proof.
  intros Hs. rewrite trim_id.
  - apply as_bytes_ascii. eapply Forall_impl; [exact Hs|]. by intros c [? _].
  - intros c Hc. destruct s as [|x s]; [done|]. simpl in Hc. simplify_eq. by apply Forall_cons in Hs as [[_ ?] _].
  - intros c Hc. apply last_Some in Hc as [l' ->]. apply Forall_app in Hs as [_ Hs].
    by apply Forall_cons in Hs as [[_ ?] _].
Qed.

Lemma count_while_lt f l x : x ∈ l -> f x = false -> (count_while f l < length l)%nat.
Proof.
  intros Hx Hf. induction l as [|y l IH]; [by apply elem_of_nil in Hx|]. simpl.
  apply elem_of_cons in Hx as [<-|Hx]; [rewrite Hf; lia|]. specialize (IH Hx). destruct (f y); lia.
Qed.

(** A text of plain characters whose first one is not padding reaches the loop. *)
Lemma decode_plain c s :
  Forall plain (c :: s) -> c <> EQUALS -> base64_decode (c :: s) = decode_loop 0 (c :: s) [].
Proof.
  intros Hs Hc. unfold base64_decode. rewrite plain_trim by done.
  pose proof (count_while_lt is_padding (rev (c :: s)) c) as Hlt.
  rewrite length_rev in Hlt. destruct (Nat.eqb_spec (length (c :: s) -
    count_while is_padding (rev (c :: s)))%nat 0) as [He|]; [|done].
  assert (count_while is_padding (rev (c :: s)) < length (c :: s))%nat; [|lia].
  apply Hlt; [|by apply Z.eqb_neq]. rewrite list_elem_of_In, <- in_rev. by left.
Qed.

Lemma encode_head a rest : is_byte a ->
  exists s, base64_encode (a :: rest) = alphabet (a / 4) :: s /\ alphabet (a / 4) <> EQUALS.
Proof.
  intros Ha. destruct (alphabet_table (a / 4) ltac:(six_bits)) as (_ & Hne & _).
  destruct rest as [|b [|c rest]]; eexists; split; done.
Qed.

Lemma base64_decode_encode bytes : Forall is_byte bytes -> base64_decode (base64_encode bytes) = Ok bytes.
Proof.
  intros Hb. pose proof (encode_plain (length bytes) bytes (le_n _) Hb) as Hp.
  pose proof (decode_loop_encode (length bytes) bytes 0 [] (le_n _) Hb) as Hd.
  destruct bytes as [|a rest]; [done|].
  destruct (encode_head a rest) as (s & He & Hne); [by apply Forall_cons in Hb as [? _]|].
  rewrite He in *. by rewrite decode_plain.
Qed.

(** C37. A [sendTransaction] request is decoded faithfully: when the JSON library
    makes parameters of it whose transaction is the RFC 4648 encoding of some
    bytes, [from_rpc_request] accepts it exactly if the fan-out is not 0 and the
    neighbour fan-out is at most 8, the accepted request carries precisely these
    bytes, and a refusal is reported as the JSON-RPC error -32602. *)
Theorem send_transaction_decoded {Value} (from_value : Value -> Result SendTransactionParams str) req p tx :
  jsonrpc req = lit "2.0" -> method req = lit "sendTransaction" ->
  from_value (params req) = Ok p -> params_transaction p = base64_encode tx -> Forall is_byte tx ->
  0 <= params_fanout p ->
  if bool_decide (0 < params_fanout p /\ default 0 (params_neighbor_fanout p) <= 8)
  then from_rpc_request from_value req
       = Ok {| request_id := id req; transaction := tx; fanout := params_fanout p;
               target_slot := params_target_slot p; neighbor_fanout := params_neighbor_fanout p |}
  else exists e, from_rpc_request from_value req = Err e /\ to_rpc_code e = -32602.
Proof.
  intros Hj Hm Hv Ht Hb Hf. unfold from_rpc_request, validate, decode_base64.
  rewrite (bool_decide_eq_true_2 _ Hj), (bool_decide_eq_true_2 _ Hm), Hv, Ht, base64_decode_encode by done.
  cbn [negb].
  destruct (Z.eqb_spec (params_fanout p) 0) as [H0|Hne].
  { rewrite bool_decide_eq_false_2 by lia. eexists. split; [reflexivity|done]. }
  destruct (params_neighbor_fanout p) as [nf|]; cbn [default].
  - destruct (Z.ltb_spec 8 nf).
    + rewrite bool_decide_eq_false_2 by (simpl; lia). eexists. split; [reflexivity|done].
    + by rewrite bool_decide_eq_true_2 by (simpl; lia).
  - by rewrite bool_decide_eq_true_2 by (simpl; lia).
Qed.

(** A JSON library that knows one document. *)
Definition demo_params : SendTransactionParams :=
  {| params_transaction := lit "SGVsbG8="; params_fanout := 2; params_target_slot := 7;
     params_neighbor_fanout := None |}.
Definition demo_request : JsonRpcRequest (Value := unit) :=
  {| jsonrpc := lit "2.0"; id := tt; method := lit "sendTransaction"; params := tt |}.

Lemma send_transaction_decoded_witness :
  from_rpc_request (fun _ => Ok demo_params) demo_request
  = Ok {| request_id := tt; transaction := lit "Hello"; fanout := 2; target_slot := 7; neighbor_fanout := None |}.
Proof.
  exact (send_transaction_decoded (fun _ => Ok demo_params) demo_request demo_params (lit "Hello")
           eq_refl eq_refl eq_refl eq_refl ltac:(repeat constructor; vm_compute; done) ltac:(vm_compute; done)).
Defined.

(** ** Texts without padding *)

Lemma decode_loop_tail n bytes tail i out :
  (length bytes <= n)%nat -> Forall is_byte bytes -> (length bytes mod 3 = 0)%nat -> (length tail < 4)%nat ->
  decode_loop i (base64_encode bytes ++ tail) out = Ok (out ++ bytes).
Proof.
  revert bytes i out. induction n as [|n IH]; intros bytes i out Hn Hb Hm Htail.
  { destruct bytes; [|simpl in Hn; lia]. destruct tail as [|? [|? [|? [|]]]]; simpl in *; try lia; by rewrite app_nil_r. }
  destruct bytes as [|a [|b [|c rest]]]; repeat (apply Forall_cons in Hb as [? Hb]); cbn [base64_encode]; try done.
  - destruct tail as [|? [|? [|? [|]]]]; simpl in *; try lia; by rewrite app_nil_r.
  - cbn [app]. rewrite decode_group by six_bits.
    rewrite IH; [|simpl in Hn; lia|done| |done].
    + rewrite group_first, group_second, group_third, <- app_assoc by done. done.
    + cbn [length] in Hm. replace (Datatypes.S (Datatypes.S (Datatypes.S (length rest))))%nat
        with (length rest + 1 * 3)%nat in Hm by lia. by rewrite Nat.Div0.mod_add in Hm.
Qed.

(** Characters after the last whole group of four are ignored without an
    error: after the encoding of whole groups of three bytes, up to three more
    characters of the alphabet change nothing.  The unpadded encoding of
    [Hello], [SGVsbG8], is accepted as [Hel]. *)
Theorem base64_ignores_tail bytes tail :
  Forall is_byte bytes -> (length bytes mod 3 = 0)%nat -> bytes <> [] ->
  (length tail < 4)%nat -> Forall plain tail ->
  base64_decode (base64_encode bytes ++ tail) = Ok bytes /\
  base64_decode (lit "SGVsbG8") = Ok (lit "Hel").
Proof.
  intros Hb Hm Hne Hlen Ht. split; [|vm_compute; done].
  pose proof (encode_plain (length bytes) bytes (le_n _) Hb) as Hp.
  pose proof (decode_loop_tail (length bytes) bytes tail 0 [] (le_n _) Hb Hm Hlen) as Hd.
  destruct bytes as [|a rest]; [done|].
  destruct (encode_head a rest) as (s & He & Hn); [by apply Forall_cons in Hb as [? _]|].
  rewrite He in *. cbn [app] in *. rewrite decode_plain; [done| |done].
  apply Forall_cons in Hp as [? Hp]. apply Forall_cons_2; [done|]. by apply Forall_app_2.
Qed.

Lemma base64_ignores_tail_witness :
  base64_decode (base64_encode (lit "Hel") ++ lit "bG8") = Ok (lit "Hel").
Proof.
  refine (proj1 (base64_ignores_tail (lit "Hel") (lit "bG8") _ _ _ _ _)).
  - repeat constructor; vm_compute; done.
  - reflexivity.
  - discriminate.
  - vm_compute. lia.
  - repeat constructor; vm_compute; done.
Defined.
