(* ===== verification/Http.v ===== *)
(** * Http: requests and responses of the RPC server

    [server/src/http.rs], and from [server/src/server.rs] the receive side of a
    [Connection] (the cached scan for the end of the headers).  Buffers are
    lists of bytes, texts lists of code points.  Arithmetic on [usize] in the
    byte-level scan wraps, as in a release build. *)
From S2P Require Import Prelude Str Request.

Definition CRLF : list Z := [13; 10].
Definition CRLF2 : list Z := [13; 10; 13; 10].

(** The loop [for i in i..i + n] that looks for the empty line. *)
Fixpoint scan_from (buf : list Z) (i n : nat) : option nat :=
  match n with
  | O => None
  | Datatypes.S n =>
      if bool_decide (take 4 (drop i buf) = CRLF2) then Some i else scan_from buf (Datatypes.S i) n
  end.

Definition find_headers_end (buf : list Z) : option nat := scan_from buf 0 (length buf - 3).

(** ** The byte-level scan for Content-Length *)

Definition CONTENT_LENGTH_TAIL : list Z := lit "ontent-length:".

(** Whether the 15 bytes at the head of [l] are the header's name, at the start
    of a line ([prev] is the byte before them). *)
Definition at_content_length (prev : option Z) (l : list Z) : bool :=
  bool_decide (prev = None \/ prev = Some 10) &&
  match l with
  | c :: r => ((c =? 67) || (c =? 99)) && eq_ignore_ascii_case (take 14 r) CONTENT_LENGTH_TAIL
  | [] => false
  end.

(** The digits, [usize] arithmetic. *)
Fixpoint read_digits (l : list Z) (val : Z) : Z :=
  match l with
  | c :: r => if is_ascii_digit c then read_digits r ((val * 10 + (c - 48)) mod U64) else val
  | [] => val
  end.

Definition read_value (l : list Z) : Z := read_digits (drop_while (fun b => b =? 32) l) 0.

(** The loop from the suffix [l] on; [prev] is the byte before it. *)
Fixpoint content_length_scan (prev : option Z) (l : list Z) : option Z :=
  if (length l <? 15)%nat then None
  else if at_content_length prev l then Some (read_value (drop 15 l))
  else
    match l with
    | [] => None
    | c :: r => content_length_scan (Some c) r
    end.

Definition find_content_length_bytes (headers : list Z) : option Z := content_length_scan None headers.

(** ** HttpRequest *)

Definition is_body_complete (buf : list Z) (headers_end : nat) : bool :=
  let body_start := (headers_end + 4)%nat in
  match find_content_length_bytes (take headers_end buf) with
  | Some content_length => content_length <=? Z.of_nat (length buf - body_start)
  | None => true
  end.

Definition is_complete (buf : list Z) : bool :=
  match find_headers_end buf with
  | Some headers_end => is_body_complete buf headers_end
  | None => false
  end.

Definition parse_request_line (line : str) : Result (str * str) ServerError :=
  match split_whitespace line with
  | method :: path :: _ :: _ => Ok (method, path)
  | _ => Err (InvalidHttp (lit "Invalid request line: " ++ line))
  end.

Definition parse_header_line (line : str) : Result (str * str) ServerError :=
  match find_char 58 line with
  | Some pos => Ok (trim (take pos line), trim (drop (pos + 1) line))
  | None => Err (InvalidHttp (lit "Invalid header: " ++ line))
  end.

Record HttpRequest : Type := {
  method : str; path : str; headers : list (str * str); body : list Z; connection_close : bool }.

(** The loop over the header lines. *)
Fixpoint parse_headers (ls : list str) (hs : list (str * str)) (content_length : Z) (close : bool)
    : Result (list (str * str) * Z * bool) ServerError :=
  match ls with
  | [] => Ok (hs, content_length, close)
  | line :: ls =>
      match line with
      | [] => parse_headers ls hs content_length close
      | _ =>
          match parse_header_line line with
          | Err e => Err e
          | Ok (name, value) =>
              if eq_ignore_ascii_case name (lit "content-length") then
                match parse_usize value with
                | Some n => parse_headers ls (hs ++ [(name, value)]) n close
                | None => Err (InvalidHttp (lit "Invalid Content-Length"))
                end
              else if eq_ignore_ascii_case name (lit "connection") then
                parse_headers ls (hs ++ [(name, value)]) content_length
                  (eq_ignore_ascii_case value (lit "close"))
              else parse_headers ls (hs ++ [(name, value)]) content_length close
          end
      end
  end.

Definition extract_body (buf : list Z) (body_start : nat) (content_length : Z) : Result (list Z) ServerError :=
  if (body_start <? length buf)%nat then
    let available := Z.of_nat (length buf - body_start) in
    if content_length <=? available then Ok (take (Z.to_nat content_length) (drop body_start buf))
    else Err (InvalidHttp (lit "Incomplete body: expected " ++ decimal content_length ++
                           lit ", got " ++ decimal available))
  else if content_length =? 0 then Ok []
  else Err (InvalidHttp (lit "Missing body")).

Definition parse (buf : list Z) : Result HttpRequest ServerError :=
  match find_headers_end buf with
  | None => Err (InvalidHttp (lit "Incomplete HTTP request"))
  | Some headers_end =>
      match from_utf8 (take headers_end buf) with
      | None => Err (InvalidHttp (lit "Invalid UTF-8 in headers"))
      | Some headers_str =>
          match lines headers_str with
          | [] => Err (InvalidHttp (lit "Empty request"))
          | request_line :: ls =>
              match parse_request_line request_line with
              | Err e => Err e
              | Ok (m, p) =>
                  match parse_headers ls [] 0 false with
                  | Err e => Err e
                  | Ok (hs, content_length, close) =>
                      match extract_body buf (headers_end + 4) content_length with
                      | Err e => Err e
                      | Ok b => Ok {| method := m; path := p; headers := hs; body := b;
                                      connection_close := close |}
                      end
                  end
              end
          end
      end
  end.

Definition get_header (r : HttpRequest) (name : str) : option str :=
  snd <$> head (filter (fun h => eq_ignore_ascii_case h.1 name = true) (headers r)).

(** ** HttpResponse *)

Record HttpResponse : Type := {
  status : Z; status_text : str; r_headers : list (str * str); r_body : list Z; keep_alive : bool }.

Definition response_ok : HttpResponse :=
  {| status := 200; status_text := lit "OK"; r_headers := []; r_body := []; keep_alive := true |}.
Definition bad_request : HttpResponse :=
  {| status := 400; status_text := lit "Bad Request"; r_headers := []; r_body := []; keep_alive := true |}.
Definition internal_error : HttpResponse :=
  {| status := 500; status_text := lit "Internal Server Error"; r_headers := []; r_body := []; keep_alive := true |}.

Definition with_json_bytes (json : list Z) (r : HttpResponse) : HttpResponse :=
  {| status := status r; status_text := status_text r;
     r_headers := r_headers r ++ [(lit "Content-Type", lit "application/json")];
     r_body := json; keep_alive := keep_alive r |}.
Definition with_header (name value : str) (r : HttpResponse) : HttpResponse :=
  {| status := status r; status_text := status_text r; r_headers := r_headers r ++ [(name, value)];
     r_body := r_body r; keep_alive := keep_alive r |}.
Definition with_body (b : list Z) (r : HttpResponse) : HttpResponse :=
  {| status := status r; status_text := status_text r; r_headers := r_headers r;
     r_body := b; keep_alive := keep_alive r |}.
Definition with_connection_close (r : HttpResponse) : HttpResponse :=
  {| status := status r; status_text := status_text r; r_headers := r_headers r;
     r_body := r_body r; keep_alive := false |}.

Definition header_bytes (h : str * str) : list Z := as_bytes h.1 ++ lit ": " ++ as_bytes h.2 ++ CRLF.

(** [date] is what [date::append_date] appends. *)
Definition build (date : list Z) (r : HttpResponse) : list Z :=
  lit "HTTP/1.1 " ++ decimal (status r) ++ [32] ++ as_bytes (status_text r) ++ CRLF ++
  lit "Content-Length: " ++ decimal (Z.of_nat (length (r_body r))) ++ CRLF ++
  lit "Date: " ++ date ++ CRLF ++
  (r_headers r ≫= header_bytes) ++
  (if keep_alive r then lit "Connection: keep-alive" else lit "Connection: close") ++ CRLF ++
  CRLF ++ r_body r.

(** ** The receive side of a connection *)

Record RecvState : Type := { recv_buf : list Z; last_scanned_pos : nat; headers_end_cache : option nat }.

Definition recv_new : RecvState := {| recv_buf := []; last_scanned_pos := 0; headers_end_cache := None |}.

(** What [try_read] does with the bytes of one [read]. *)
Definition extend (bytes : list Z) (c : RecvState) : RecvState :=
  {| recv_buf := recv_buf c ++ bytes; last_scanned_pos := last_scanned_pos c;
     headers_end_cache := headers_end_cache c |}.

Definition is_request_complete (c : RecvState) : bool * RecvState :=
  let buf_len := length (recv_buf c) in
  match headers_end_cache c with
  | Some headers_end => (is_body_complete (recv_buf c) headers_end, c)
  | None =>
      if (buf_len <? 4)%nat then (false, c)
      else
        let start := (last_scanned_pos c - 3)%nat in
        match scan_from (recv_buf c) start (buf_len - 3 - start) with
        | Some i =>
            (is_body_complete (recv_buf c) i,
             {| recv_buf := recv_buf c; last_scanned_pos := buf_len; headers_end_cache := Some i |})
        | None =>
            (false, {| recv_buf := recv_buf c; last_scanned_pos := buf_len; headers_end_cache := None |})
        end
  end.

Definition clear_recv_buf (c : RecvState) : RecvState :=
  {| recv_buf := []; last_scanned_pos := 0; headers_end_cache := None |}.

(** ** The cached scan agrees with the full one *)

Definition at_end (buf : list Z) (j : nat) : Prop := take 4 (drop j buf) = CRLF2.

Lemma at_end_bound buf j : at_end buf j -> (j + 4 <= length buf)%nat.
Proof.
  unfold at_end. intros H. apply (f_equal length) in H. rewrite length_take, length_drop in H.
  change (length CRLF2) with 4%nat in H. lia.
Qed.

Lemma at_end_app buf more j : (j + 4 <= length buf)%nat -> at_end (buf ++ more) j <-> at_end buf j.
Proof. intros Hj. unfold at_end. rewrite drop_app_le, take_app_le by (rewrite ?length_drop; lia). done. Qed.

Definition first_end (buf : list Z) (h : nat) : Prop :=
  at_end buf h /\ forall j, (j < h)%nat -> ~ at_end buf j.

Lemma first_end_app buf more h : first_end buf h -> first_end (buf ++ more) h.
Proof.
  intros [Hh Hj]. pose proof (at_end_bound _ _ Hh). split; [by apply at_end_app|].
  intros j Hlt. rewrite at_end_app by lia. auto.
Qed.

Lemma scan_from_spec buf n i :
  match scan_from buf i n with
  | Some h => (i <= h < i + n)%nat /\ at_end buf h /\ forall j, (i <= j < h)%nat -> ~ at_end buf j
  | None => forall j, (i <= j < i + n)%nat -> ~ at_end buf j
  end.
Proof.
  revert i. induction n as [|n IH]; intros i; cbn [scan_from]; [lia|].
  case_bool_decide as Hd; [split; [lia|]; split; [done|lia]|].
  specialize (IH (Datatypes.S i)). destruct (scan_from buf (Datatypes.S i) n) as [h|].
  - destruct IH as (Hh & Hat & Hj). split; [lia|]. split; [done|]. intros j Hlt.
    destruct (decide (j = i)) as [->|]; [done|apply Hj; lia].
  - intros j Hlt. destruct (decide (j = i)) as [->|]; [done|apply IH; lia].
Qed.

Lemma find_headers_end_spec buf h : find_headers_end buf = Some h <-> first_end buf h.
Proof.
  unfold find_headers_end. pose proof (scan_from_spec buf (length buf - 3) 0) as Hs.
  destruct (scan_from buf 0 (length buf - 3)) as [h'|].
  - destruct Hs as (Hh & Hat & Hj). assert (Hf : first_end buf h') by (split; [done|intros j Hlt; apply Hj; lia]).
    split; [by intros [= <-]|]. intros [Hat2 Hj2]. f_equal.
    destruct (Nat.lt_trichotomy h h') as [Hlt|[->|Hlt]]; [|done|].
    + exfalso. by apply (proj2 Hf h).
    + exfalso. by apply (Hj2 h').
  - split; [done|]. intros [Hat _]. exfalso. pose proof (at_end_bound _ _ Hat). apply (Hs h); [lia|done].
Qed.

Definition recv_inv (c : RecvState) : Prop :=
  (last_scanned_pos c <= length (recv_buf c))%nat /\
  match headers_end_cache c with
  | Some h => first_end (recv_buf c) h
  | None => forall j, (j + 4 <= last_scanned_pos c)%nat -> ~ at_end (recv_buf c) j
  end.

Lemma extend_inv bytes c : recv_inv c -> recv_inv (extend bytes c).
Proof.
  intros [Hl Hc]. split; cbn [extend recv_buf last_scanned_pos headers_end_cache]; [rewrite length_app; lia|].
  destruct (headers_end_cache c) as [h|]; [by apply first_end_app|].
  intros j Hj. rewrite at_end_app by lia. auto.
Qed.

Lemma is_complete_first buf h : first_end buf h -> is_complete buf = is_body_complete buf h.
Proof. intros Hf. unfold is_complete. by rewrite (proj2 (find_headers_end_spec buf h) Hf). Qed.

Lemma is_complete_none buf : (forall j, ~ at_end buf j) -> is_complete buf = false.
Proof.
  intros Hn. unfold is_complete. destruct (find_headers_end buf) as [h|] eqn:Hf; [|done].
  apply find_headers_end_spec in Hf as [Hat _]. by apply Hn in Hat.
Qed.

Lemma is_request_complete_spec c :
  recv_inv c ->
  (is_request_complete c).1 = is_complete (recv_buf c) /\ recv_inv (is_request_complete c).2 /\
  recv_buf (is_request_complete c).2 = recv_buf c.
Proof.
  intros [Hl Hc]. unfold is_request_complete. destruct (headers_end_cache c) as [h|] eqn:He.
  { split; [symmetry; by apply is_complete_first|]. split; [split; [done|cbn [snd]; by rewrite He]|done]. }
  destruct (Nat.ltb_spec (length (recv_buf c)) 4) as [Hlt|Hge].
  { split; [symmetry; apply is_complete_none; intros j Hj; apply at_end_bound in Hj; lia|].
    split; [split; [done|cbn [snd]; by rewrite He]|done]. }
  set (start := (last_scanned_pos c - 3)%nat).
  pose proof (scan_from_spec (recv_buf c) (length (recv_buf c) - 3 - start) start) as Hs.
  assert (Hbefore : forall j, (j < start)%nat -> ~ at_end (recv_buf c) j) by (intros j Hj; apply Hc; lia).
  destruct (scan_from _ start _) as [h|]; cbn [fst snd recv_buf].
  - destruct Hs as (Hh & Hat & Hj).
    assert (Hf : first_end (recv_buf c) h).
    { split; [done|]. intros j Hlt. destruct (Nat.lt_ge_cases j start); [auto|apply Hj; lia]. }
    split; [symmetry; by apply is_complete_first|]. done.
  - assert (Hnone : forall j, ~ at_end (recv_buf c) j).
    { intros j Hat. pose proof (at_end_bound _ _ Hat). destruct (Nat.lt_ge_cases j start); [by apply (Hbefore j)|].
      apply (Hs j); [lia|done]. }
    split; [symmetry; by apply is_complete_none|]. split; [split; [done|]|done]. intros j _. apply Hnone.
Qed.

(** A connection that receives chunks, asking after each whether the request is
    complete. *)
Fixpoint feed (chunks : list (list Z)) (c : RecvState) : list bool * RecvState :=
  match chunks with
  | [] => ([], c)
  | bytes :: chunks =>
      let '(b, c1) := is_request_complete (extend bytes c) in
      let '(bs, c2) := feed chunks c1 in
      (b :: bs, c2)
  end.

(** The reference: look at the whole buffer every time. *)
Fixpoint feed_ref (chunks : list (list Z)) (buf : list Z) : list bool :=
  match chunks with
  | [] => []
  | bytes :: chunks => is_complete (buf ++ bytes) :: feed_ref chunks (buf ++ bytes)
  end.

Lemma feed_spec chunks c :
  recv_inv c -> (feed chunks c).1 = feed_ref chunks (recv_buf c) /\
  recv_buf (feed chunks c).2 = recv_buf c ++ mjoin chunks.
Proof.
  revert c. induction chunks as [|bytes chunks IH]; intros c Hc; cbn [feed feed_ref mjoin].
  { by rewrite app_nil_r. }
  destruct (is_request_complete_spec (extend bytes c)) as (Hb & Hinv & Hbuf); [by apply extend_inv|].
  destruct (is_request_complete (extend bytes c)) as [b c1]. cbn [fst snd] in *.
  destruct (IH c1 Hinv) as [H1 H2]. destruct (feed chunks c1) as [bs c2]. cbn [fst snd] in *.
  rewrite Hb, H1, H2, Hbuf. cbn [extend recv_buf]. by rewrite <- app_assoc.
Qed.

(** C25. However the bytes of a connection are cut into reads, asking
    [is_request_complete] after each read (which scans only the new bytes, from
    three before them, and remembers the end of the headers once found) gives
    the same answers as [HttpRequest::is_complete] on the whole buffer. *)
Theorem incremental_scan_correct chunks :
  (feed chunks recv_new).1 = feed_ref chunks [] /\ recv_buf (feed chunks recv_new).2 = mjoin chunks.
Proof.
  apply (feed_spec chunks recv_new). split; [done|]. cbn. intros j Hj. lia.
Qed.
