(* ===== verification/HttpSpec.v ===== *)
(** * HttpSpec: requests on the wire

    A reference printer of HTTP requests, and the proof that the server frames
    and parses what it prints: no proper prefix is taken for a complete request,
    the whole text is, and [parse] gives the request back. *)
From S2P Require Import Prelude Str Request Http.

(** ** The printer *)

Definition request_line (m p : str) : str := m ++ 32 :: p ++ 32 :: lit "HTTP/1.1".
Definition header_line (h : str * str) : str := h.1 ++ 58 :: 32 :: h.2.

(** What the client says about the connection: nothing, to keep it or to close
    it. *)
Inductive persistence : Type := Unsaid | KeepAlive | Closing.
Definition wants_close (pe : persistence) : bool := match pe with Closing => true | _ => false end.
Definition persistence_headers (pe : persistence) : list (str * str) :=
  match pe with
  | Unsaid => []
  | KeepAlive => [(lit "Connection", lit "keep-alive")]
  | Closing => [(lit "Connection", lit "close")]
  end.

(** The headers of a request: the given ones, the length of the body and what
    the client says about the connection. *)
Definition all_headers (hs : list (str * str)) (b : list Z) (pe : persistence) : list (str * str) :=
  hs ++ (lit "Content-Length", decimal (Z.of_nat (length b))) :: persistence_headers pe.

(** The lines, with a line end between them and an empty line after the last. *)
Fixpoint wire (l : str) (ls : list str) (tail : list Z) : list Z :=
  match ls with
  | [] => l ++ CRLF2 ++ tail
  | l' :: ls => l ++ CRLF ++ wire l' ls tail
  end.

Definition print_request (m p : str) (hs : list (str * str)) (b : list Z) (pe : persistence) : list Z :=
  wire (request_line m p) (header_line <$> all_headers hs b pe) b.

(** ** Well-formed texts *)

Definition token (s : str) : Prop := s <> [] /\ Forall (fun c => plain c /\ c <> 58) s.

Definition value_ok (s : str) : Prop :=
  Forall (fun c => is_ascii c /\ c <> 10 /\ c <> 13) s /\
  (forall c, head s = Some c -> is_whitespace c = false) /\
  (forall c, last s = Some c -> is_whitespace c = false).

Definition header_ok (h : str * str) : Prop :=
  token h.1 /\ value_ok h.2 /\
  eq_ignore_ascii_case h.1 (lit "content-length") = false /\
  eq_ignore_ascii_case h.1 (lit "connection") = false.

(** A line of the header block: not empty, ASCII, no line ends inside. *)
Definition line_ok (l : str) : Prop := l <> [] /\ Forall (fun c => is_ascii c /\ c <> 10 /\ c <> 13) l.

Lemma plain_line c : plain c -> is_ascii c /\ c <> 10 /\ c <> 13.
Proof. intros [Ha Hw]. split; [done|]. split; intros ->; done. Qed.

Lemma token_chars s : token s -> Forall (fun c => is_ascii c /\ c <> 10 /\ c <> 13) s.
Proof. intros [_ H]. eapply Forall_impl; [exact H|]. intros c [Hc _]. by apply plain_line. Qed.

Lemma lit_chars_ok s :
  forallb (fun c => (0 <=? c) && (c <? 128) && negb (c =? 10) && negb (c =? 13)) (lit s) = true ->
  Forall (fun c => is_ascii c /\ c <> 10 /\ c <> 13) (lit s).
Proof.
  rewrite forallb_forall. intros H. apply Forall_forall. intros c Hc. apply list_elem_of_In in Hc.
  specialize (H c Hc). unfold is_ascii. repeat (apply andb_true_iff in H as [H ?]). 
  repeat match goal with H : negb _ = true |- _ => apply negb_true_iff in H end. lia.
Qed.

Lemma request_line_ok m p : token m -> token p -> line_ok (request_line m p).
Proof.
  intros Hm Hp. split; [destruct m; [by destruct Hm|done]|]. unfold request_line.
  apply Forall_app_2; [by apply token_chars|]. apply Forall_cons_2; [by unfold is_ascii|].
  apply Forall_app_2; [by apply token_chars|]. apply Forall_cons_2; [by unfold is_ascii|].
  by apply lit_chars_ok.
Qed.

Lemma header_line_ok n v : token n -> value_ok v -> line_ok (header_line (n, v)).
Proof.
  intros Hn [Hv _]. split; [by destruct n|]. unfold header_line.
  apply Forall_app_2; [by apply token_chars|]. repeat (apply Forall_cons_2; [by unfold is_ascii|]). done.
Qed.

(** ** The end of the headers *)

Lemma at_end_head buf j c : buf !! j = Some c -> c <> 13 -> ~ at_end buf j.
Proof. intros Hc Hne Ha. unfold at_end in Ha. rewrite (drop_S _ _ _ Hc) in Ha. by injection Ha as Ha _. Qed.

Lemma at_end_shift pre buf j : at_end (pre ++ buf) (length pre + j) <-> at_end buf j.
Proof. unfold at_end. by rewrite drop_app_add. Qed.

Lemma in_line l rest j : line_ok l -> (j < length l)%nat -> ~ at_end (l ++ rest) j.
Proof.
  intros [_ Hl] Hj. destruct (lookup_lt_is_Some_2 l j Hj) as [c Hc].
  apply (at_end_head _ _ c); [by rewrite lookup_app_l|]. by apply (Forall_lookup_1 _ _ _ _ Hl Hc).
Qed.

(** Where the first line's end is followed by another line. *)
Lemma line_end l l' rest j :
  line_ok l -> line_ok l' -> (j < length (l ++ CRLF))%nat -> ~ at_end ((l ++ CRLF) ++ l' ++ rest) j.
Proof.
  intros Hl [Hne Hl'] Hj. rewrite length_app in Hj. change (length CRLF) with 2%nat in Hj.
  destruct (Nat.lt_ge_cases j (length l)) as [Hlt|Hge]; [rewrite <- app_assoc; by apply in_line|].
  rewrite <- app_assoc. destruct l' as [|c l']; [done|]. apply Forall_cons in Hl' as [(_ & _ & Hc) _].
  replace j with (length l + (j - length l))%nat by lia. rewrite at_end_shift.
  destruct (j - length l)%nat as [|[|k]] eqn:Hk; [| |lia].
  - intros Ha. unfold at_end in Ha. simpl in Ha. by injection Ha as Ha.
  - intros Ha. unfold at_end in Ha. simpl in Ha. by injection Ha.
Qed.

Lemma wire_app l ls tail more : wire l ls (tail ++ more) = wire l ls tail ++ more.
Proof. revert l. induction ls as [|l' ls IH]; intros l; cbn [wire]; [|rewrite IH]; by rewrite <- !app_assoc. Qed.

Lemma wire_cons_app l ls tail : exists rest, wire l ls tail = l ++ rest.
Proof. destruct ls; eexists; reflexivity. Qed.

(** The header block: the wire text before the empty line. *)
Fixpoint block (l : str) (ls : list str) : list Z :=
  match ls with
  | [] => l
  | l' :: ls => l ++ CRLF ++ block l' ls
  end.

Lemma wire_block l ls tail : wire l ls tail = block l ls ++ CRLF2 ++ tail.
Proof. revert l. induction ls as [|l' ls IH]; intros l; cbn [wire block]; [done|]. by rewrite IH, <- !app_assoc. Qed.

Lemma wire_first_end l ls tail :
  Forall line_ok (l :: ls) -> first_end (wire l ls tail) (length (block l ls)).
Proof.
  revert l. induction ls as [|l' ls IH]; intros l Hl; apply Forall_cons in Hl as [Hl Hls]; cbn [wire block].
  - split.
    + rewrite <- (Nat.add_0_r (length l)), at_end_shift. done.
    + intros j Hj. by apply in_line.
  - destruct (IH l' Hls) as [Hat Hno]. rewrite app_assoc, (app_assoc l). split.
    + rewrite (length_app _ (block l' ls)). by apply at_end_shift.
    + intros j Hj. apply Forall_cons in Hls as [Hl' _].
      destruct (wire_cons_app l' ls tail) as [rest Hrest].
      destruct (Nat.lt_ge_cases j (length (l ++ CRLF))) as [Hlt|Hge].
      * rewrite Hrest. by apply line_end.
      * replace j with (length (l ++ CRLF) + (j - length (l ++ CRLF)))%nat by lia. rewrite at_end_shift.
        apply Hno. rewrite length_app in Hj. lia.
Qed.

(** ** Decimal numbers *)

Lemma digit_char n : is_ascii_digit (48 + n mod 10) = true.
Proof. unfold is_ascii_digit, continuation. pose proof (Z.mod_pos_bound n 10). lia. Qed.

Lemma read_digits_acc fuel n acc :
  0 <= n < U64 -> n < 10 ^ Z.of_nat fuel -> read_digits (digits_acc fuel n acc) 0 = read_digits acc n.
Proof.
  revert n acc. induction fuel as [|fuel IH]; intros n acc Hn Hf; [simpl in Hf; by replace n with 0 by lia|].
  cbn [digits_acc]. assert (Hd : forall v, v = n / 10 ->
    read_digits ((48 + n mod 10) :: acc) v = read_digits acc n).
  { intros v ->. cbn [read_digits]. rewrite digit_char. f_equal.
    replace (n / 10 * 10 + (48 + n mod 10 - 48)) with n by (pose proof (Z.div_mod n 10); lia).
    apply Z.mod_small. lia. }
  destruct (Z.eqb_spec (n / 10) 0) as [H0|_]; [by apply Hd|].
  rewrite IH; [by apply Hd| |].
  - pose proof (Z.div_le_upper_bound n 10 n). pose proof (Z.div_pos n 10). lia.
  - apply Z.div_lt_upper_bound; [lia|]. rewrite <- Z.pow_succ_r by lia.
    by replace (Z.succ (Z.of_nat fuel)) with (Z.of_nat (Datatypes.S fuel)) by lia.
Qed.

Lemma parse_digits_acc fuel n acc :
  0 <= n < U64 -> n < 10 ^ Z.of_nat fuel -> parse_digits (digits_acc fuel n acc) 0 = parse_digits acc n.
Proof.
  revert n acc. induction fuel as [|fuel IH]; intros n acc Hn Hf; [simpl in Hf; by replace n with 0 by lia|].
  cbn [digits_acc]. assert (Hd : forall v, v = n / 10 ->
    parse_digits ((48 + n mod 10) :: acc) v = parse_digits acc n).
  { intros v ->. cbn [parse_digits]. rewrite digit_char.
    replace (n / 10 * 10 + (48 + n mod 10 - 48)) with n by (pose proof (Z.div_mod n 10); lia).
    destruct (Z.ltb_spec n U64); [done|lia]. }
  destruct (Z.eqb_spec (n / 10) 0) as [H0|_]; [by apply Hd|].
  rewrite IH; [by apply Hd| |].
  - pose proof (Z.div_le_upper_bound n 10 n). pose proof (Z.div_pos n 10). lia.
  - apply Z.div_lt_upper_bound; [lia|]. rewrite <- Z.pow_succ_r by lia.
    by replace (Z.succ (Z.of_nat fuel)) with (Z.of_nat (Datatypes.S fuel)) by lia.
Qed.

Lemma digits_acc_app fuel n acc more : digits_acc fuel n acc ++ more = digits_acc fuel n (acc ++ more).
Proof.
  revert n acc. induction fuel as [|fuel IH]; intros n acc; [done|]. cbn [digits_acc].
  destruct (n / 10 =? 0); [done|]. by rewrite IH.
Qed.

Lemma u64_digits n : 0 <= n < U64 -> n < 10 ^ Z.of_nat 20.
Proof. unfold U64. lia. Qed.

Lemma read_decimal n more :
  0 <= n < U64 -> (forall c, head more = Some c -> is_ascii_digit c = false) ->
  read_digits (decimal n ++ more) 0 = n.
Proof.
  intros Hn Hm. unfold decimal. rewrite digits_acc_app, read_digits_acc by (done || by apply u64_digits).
  cbn [app]. destruct more as [|c more]; [done|]. cbn [read_digits]. by rewrite (Hm c).
Qed.

(** Only digits, at least one. *)
Lemma digits_acc_chars fuel n acc :
  Forall (fun c => is_ascii_digit c = true) acc -> Forall (fun c => is_ascii_digit c = true) (digits_acc fuel n acc).
Proof.
  revert n acc. induction fuel as [|fuel IH]; intros n acc Ha; [done|]. cbn [digits_acc].
  assert (Forall (fun c => is_ascii_digit c = true) ((48 + n mod 10) :: acc)) by (constructor; [apply digit_char|done]).
  destruct (n / 10 =? 0); auto.
Qed.

Lemma digits_acc_longer fuel n acc : (0 < fuel)%nat -> (length acc < length (digits_acc fuel n acc))%nat.
Proof.
  revert n acc. induction fuel as [|fuel IH]; intros n acc Hf; [lia|]. cbn [digits_acc].
  destruct (n / 10 =? 0); [simpl; lia|]. destruct fuel as [|fuel]; [simpl; lia|].
  specialize (IH (n / 10) ((48 + n mod 10) :: acc) ltac:(lia)). cbn [length] in IH. lia.
Qed.

Lemma decimal_cons n : exists c s, decimal n = c :: s.
Proof.
  pose proof (digits_acc_longer 20 n [] ltac:(lia)) as Hl. fold (decimal n) in Hl.
  destruct (decimal n) as [|c s]; [simpl in Hl; lia|eauto].
Qed.

Lemma decimal_chars n : Forall (fun c => is_ascii_digit c = true) (decimal n).
Proof. by apply digits_acc_chars. Qed.

Lemma digit_facts c : is_ascii_digit c = true -> plain c /\ c <> 43 /\ c <> 32.
Proof.
  unfold is_ascii_digit, continuation. intros H. assert (48 <= c <= 57) as Hc by lia.
  pose proof (seqZ_forallb (fun c => (0 <=? c) && (c <? 128) && negb (is_whitespace c)) 48 10 c
    ltac:(vm_compute; reflexivity) ltac:(lia)) as Hall. cbv beta in Hall.
  repeat (apply andb_true_iff in Hall as [Hall ?]). apply negb_true_iff in H0.
  split; [|lia]. split; [unfold is_ascii; lia|done].
Qed.

Lemma parse_decimal n : 0 <= n < U64 -> parse_usize (decimal n) = Some n.
Proof.
  intros Hn. pose proof (parse_digits_acc 20 n [] Hn (u64_digits n Hn)) as Hp. fold (decimal n) in Hp.
  pose proof (decimal_chars n) as Hc. destruct (decimal_cons n) as (c & s & Hd). rewrite Hd in *.
  apply Forall_cons in Hc as [Hc _]. apply digit_facts in Hc as (_ & Hne & _).
  unfold parse_usize. by destruct (decide (c = 43)); [|destruct c as [|p|p]; [|repeat (destruct p as [p|p|]; try done)|]].
Qed.

(** ** Content-Length *)

Definition lower (s : str) : str := to_ascii_lowercase <$> s.

Lemma lower_58 c : to_ascii_lowercase c = 58 -> c = 58.
Proof. unfold to_ascii_lowercase, continuation. destruct (_ && _) eqn:E; lia. Qed.

(** Fifteen bytes at the start of a line are the header's name only if the line
    is [name ++ sep :: _] with that name and a colon. *)
Lemma at_content_length_line prev name sep rest :
  Forall (fun c => plain c /\ c <> 58) name -> sep = 32 \/ sep = 58 ->
  at_content_length prev (name ++ sep :: rest) = true ->
  sep = 58 /\ eq_ignore_ascii_case name (lit "content-length") = true.
Proof.
  intros Hname Hsep Hat. unfold at_content_length in Hat. apply andb_true_iff in Hat as [_ Hat].
  assert (H15 : lower (take 15 (name ++ sep :: rest)) = lit "content-length:").
  { destruct (name ++ sep :: rest) as [|c r]; [done|]. apply andb_true_iff in Hat as [Hc Hr].
    apply bool_decide_eq_true in Hr. unfold lower. cbn [take fmap list_fmap].
    change (list_fmap Z Z to_ascii_lowercase (take 14 r)) with (to_ascii_lowercase <$> take 14 r).
    rewrite Hr. assert (c = 67 \/ c = 99) as [-> | ->] by lia; reflexivity. }
  clear Hat. set (pat := lit "content-length:") in *.
  assert (Hlen : length pat = 15%nat) by reflexivity.
  assert (Hlk : forall j c, (j < 15)%nat -> (name ++ sep :: rest) !! j = Some c ->
             pat !! j = Some (to_ascii_lowercase c)).
  { intros j c Hj Hc. rewrite <- H15. unfold lower. rewrite list_lookup_fmap, lookup_take_lt by done. by rewrite Hc. }
  assert (Hsepl : to_ascii_lowercase sep = sep) by (destruct Hsep; subst; reflexivity).
  destruct (Nat.lt_trichotomy (length name) 14) as [Hlt|[Heq|Hgt]].
  - exfalso. pose proof (Hlk (length name) sep ltac:(lia)) as H.
    rewrite lookup_app_r, Nat.sub_diag in H by lia. specialize (H eq_refl). rewrite Hsepl in H.
    assert (Hno : forallb (fun c => negb (c =? 32) && negb (c =? 58)) (take 14 pat) = true) by reflexivity.
    rewrite forallb_forall in Hno.
    assert (Hin : take 14 pat !! length name = Some sep) by (by rewrite lookup_take_lt).
    apply list_elem_of_lookup_2, list_elem_of_In, Hno in Hin. destruct Hsep; subst; done.
  - pose proof (Hlk 14%nat sep ltac:(lia)) as H. rewrite lookup_app_r, Heq in H by lia.
    specialize (H eq_refl). rewrite Hsepl in H. injection H as H. split; [done|].
    apply bool_decide_eq_true. apply (f_equal (take 14)) in H15. unfold lower in H15.
    rewrite <- fmap_take, take_take in H15. change (14 `min` 15)%nat with 14%nat in H15.
    rewrite <- Heq, take_app_length in H15. rewrite H15, Heq. reflexivity.
  - exfalso. destruct (lookup_lt_is_Some_2 name 14) as [c Hc]; [lia|].
    pose proof (Hlk 14%nat c ltac:(lia)) as H. rewrite lookup_app_l in H by lia. specialize (H Hc).
    injection H as H. symmetry in H. apply lower_58 in H.
    apply (Forall_lookup_1 _ _ _ _ Hname) in Hc as [_ Hc]. done.
Qed.

Lemma scan_unfold prev l :
  (15 <= length l)%nat ->
  content_length_scan prev l
  = if at_content_length prev l then Some (read_value (drop 15 l))
    else match l with [] => None | c :: r => content_length_scan (Some c) r end.
Proof. intros Hl. destruct l as [|c r]; [simpl in Hl; lia|]. cbn [content_length_scan].
  destruct (Nat.ltb_spec (length (c :: r)) 15); [lia|done]. Qed.

Lemma not_line_start x l : x <> 10 -> at_content_length (Some x) l = false.
Proof. intros Hx. unfold at_content_length. rewrite bool_decide_eq_false_2; [done|]. intros [|[=]]; done. Qed.

(** Inside a line nothing matches. *)
Lemma scan_rest_of_line x l rest :
  x <> 10 -> Forall (fun c => is_ascii c /\ c <> 10 /\ c <> 13) l -> (15 <= length rest)%nat ->
  content_length_scan (Some x) (l ++ CRLF ++ rest) = content_length_scan (Some 10) rest.
Proof.
  intros Hx Hl Hr. revert x Hx. induction Hl as [|c l (_ & Hc & _) Hl IH]; intros x Hx.
  - cbn [app]. rewrite scan_unfold by (rewrite length_app; lia). rewrite not_line_start by done.
    cbn [CRLF app]. rewrite scan_unfold by (simpl; lia). by rewrite not_line_start.
  - cbn [app]. rewrite scan_unfold by (cbn [length]; rewrite !length_app; lia).
    rewrite not_line_start by done. by apply IH.
Qed.

Lemma scan_line prev l rest :
  line_ok l -> at_content_length prev (l ++ CRLF ++ rest) = false -> (15 <= length rest)%nat ->
  content_length_scan prev (l ++ CRLF ++ rest) = content_length_scan (Some 10) rest.
Proof.
  intros [Hne Hl] Hat Hr. rewrite scan_unfold by (rewrite !length_app; lia). rewrite Hat.
  destruct l as [|c l]; [done|]. apply Forall_cons in Hl as [(_ & Hc & _) Hl]. cbn [app].
  by apply scan_rest_of_line.
Qed.

Definition length_header (n : Z) : str * str := (lit "Content-Length", decimal n).

Lemma block_cons_app l ls : exists rest, block l ls = l ++ rest /\ (rest = [] \/ exists r, rest = 13 :: r).
Proof.
  destruct ls as [|l' ls]; [exists []; rewrite app_nil_r; auto|].
  eexists. split; [reflexivity|]. right. by eexists.
Qed.

Lemma scan_length_line prev n ls :
  0 <= n < U64 -> prev = None \/ prev = Some 10 ->
  content_length_scan prev (block (header_line (length_header n)) ls) = Some n.
Proof.
  intros Hn Hp. destruct (block_cons_app (header_line (length_header n)) ls) as (rest & -> & Hrest).
  assert (Hl : header_line (length_header n) ++ rest = lit "Content-Length:" ++ 32 :: decimal n ++ rest).
  { unfold header_line, length_header. cbn [fst snd]. by rewrite <- app_assoc. }
  rewrite Hl, scan_unfold by (rewrite length_app; change (length (lit "Content-Length:")) with 15%nat; lia).
  assert (Hat : at_content_length prev (lit "Content-Length:" ++ 32 :: decimal n ++ rest) = true).
  { unfold at_content_length. by rewrite bool_decide_eq_true_2. }
  rewrite Hat. change 15%nat with (length (lit "Content-Length:")). rewrite drop_app_length. f_equal.
  unfold read_value. cbn [drop_while]. rewrite Z.eqb_refl.
  rewrite drop_while_none.
  - apply read_decimal; [done|]. intros c Hc. destruct Hrest as [->|[r ->]]; [done|]. by injection Hc as <-.
  - intros c Hc. pose proof (decimal_chars n) as Hd. destruct (decimal_cons n) as (d & s & He). rewrite He in *.
    injection Hc as <-. apply Forall_cons in Hd as [Hd _]. apply digit_facts in Hd as (_ & _ & ?). by apply Z.eqb_neq.
Qed.

Lemma length_line_length n more : (16 <= length (block (header_line (length_header n)) more))%nat.
Proof.
  destruct (block_cons_app (header_line (length_header n)) more) as (rest & -> & _).
  rewrite !length_app. unfold header_line, length_header. cbn [fst snd]. rewrite length_app.
  change (length (lit "Content-Length")) with 14%nat. cbn [length]. lia.
Qed.

Lemma block_length n hs l more :
  (16 <= length (block l ((header_line <$> hs) ++ header_line (length_header n) :: more)))%nat.
Proof.
  revert l. induction hs as [|h hs IH]; intros l; cbn [fmap list_fmap app block]; rewrite !length_app.
  - pose proof (length_line_length n more). lia.
  - specialize (IH (header_line h)). lia.
Qed.

(** The scan passes every line before the Content-Length header. *)
Lemma scan_block prev name sep tl hs n more :
  0 <= n < U64 -> line_ok (name ++ sep :: tl) -> Forall (fun c => plain c /\ c <> 58) name -> sep = 32 \/ sep = 58 ->
  (sep = 58 -> eq_ignore_ascii_case name (lit "content-length") = false) -> Forall header_ok hs ->
  content_length_scan prev (block (name ++ sep :: tl) ((header_line <$> hs) ++ header_line (length_header n) :: more))
  = Some n.
Proof.
  intros Hn Hl Hname Hsep Hno Hhs. revert prev name sep tl Hl Hname Hsep Hno.
  assert (Hat : forall prev name sep tl rest, Forall (fun c => plain c /\ c <> 58) name -> sep = 32 \/ sep = 58 ->
    (sep = 58 -> eq_ignore_ascii_case name (lit "content-length") = false) ->
    at_content_length prev ((name ++ sep :: tl) ++ rest) = false).
  { intros prev name sep tl rest Hname Hsep Hno. destruct (at_content_length _ _) eqn:E; [exfalso|done].
    rewrite <- app_assoc in E. cbn [app] in E. apply at_content_length_line in E as [-> E]; [|done|done].
    rewrite Hno in E; done. }
  induction Hhs as [|[hn hv] hs (Htok & Hval & Hcl & _) Hhs IH]; intros prev name sep tl Hl Hname Hsep Hno;
    cbn [fmap list_fmap app block].
  - rewrite scan_line; [apply scan_length_line; auto|done|by apply Hat|].
    pose proof (length_line_length n more). lia.
  - rewrite scan_line; [|done|by apply Hat|].
    + apply (IH (Some 10) hn 58 (32 :: hv)); [by apply header_line_ok|apply Htok|auto|done].
    + pose proof (block_length n hs (header_line (hn, hv)) more). lia.
Qed.

(** ** Lines and words *)

Lemma split_on_nonempty sep s : split_on sep s <> [].
Proof.
  induction s as [|c s IH]; cbn [split_on]; [done|].
  destruct (split_on sep s); [done|]. by destruct (c =? sep).
Qed.

Lemma split_on_none sep s : Forall (fun c => c <> sep) s -> split_on sep s = [s].
Proof.
  induction 1 as [|c s Hc Hs IH]; [done|]. cbn [split_on]. rewrite IH.
  by rewrite (proj2 (Z.eqb_neq c sep) Hc).
Qed.

Lemma split_on_app sep s rest :
  Forall (fun c => c <> sep) s -> split_on sep (s ++ sep :: rest) = s :: split_on sep rest.
Proof.
  induction 1 as [|c s Hc Hs IH]; cbn [app split_on].
  - rewrite Z.eqb_refl. pose proof (split_on_nonempty sep rest). by destruct (split_on sep rest).
  - rewrite IH. by rewrite (proj2 (Z.eqb_neq c sep) Hc).
Qed.

Lemma strip_cr_snoc s : strip_cr (s ++ [13]) = s.
Proof. unfold strip_cr. rewrite rev_app_distr. simpl. apply rev_involutive. Qed.

Lemma lines_block l ls : Forall line_ok (l :: ls) -> lines (block l ls) = l :: ls.
Proof.
  unfold lines. revert l. induction ls as [|l' ls IH]; intros l Hl; apply Forall_cons in Hl as [[Hne Hl] Hls];
    assert (H10 : Forall (fun c => c <> 10) l) by (eapply Forall_impl; [exact Hl|]; by intros c (_ & ? & _)); cbn [block].
  - rewrite split_on_none by done. by destruct l.
  - replace (l ++ CRLF ++ block l' ls) with ((l ++ [13]) ++ 10 :: block l' ls) by (by rewrite <- app_assoc).
    rewrite split_on_app by (apply Forall_app_2; [done|by repeat constructor]).
    specialize (IH l' Hls). pose proof (split_on_nonempty 10 (block l' ls)).
    destruct (split_on 10 (block l' ls)) as [|p ps]; [done|]. cbn [line_pieces] in *. by rewrite strip_cr_snoc, IH.
Qed.

Lemma words_token t rest w : Forall plain t -> words_acc (t ++ rest) w = words_acc rest (w ++ t).
Proof.
  intros Ht. revert w. induction Ht as [|c t [_ Hc] Ht IH]; intros w; cbn [app words_acc]; [by rewrite app_nil_r|].
  by rewrite Hc, IH, <- app_assoc.
Qed.

Lemma token_plain s : token s -> Forall plain s.
Proof. intros [_ H]. eapply Forall_impl; [exact H|]. by intros c [? _]. Qed.

Lemma words_space t rest : token t -> words_acc (32 :: rest) t = t :: words_acc rest [].
Proof. intros [Hne _]. cbn [words_acc]. by destruct t. Qed.

Lemma parse_request_line_spec m p : token m -> token p -> parse_request_line (request_line m p) = Ok (m, p).
Proof.
  intros Hm Hp. unfold parse_request_line, split_whitespace, request_line.
  rewrite words_token by (by apply token_plain). cbn [app]. rewrite words_space by done.
  rewrite words_token by (by apply token_plain). cbn [app]. rewrite words_space by done. reflexivity.
Qed.

(** ** Headers *)

Lemma find_char_token c t rest : Forall (fun x => x <> c) t -> find_char c (t ++ c :: rest) = Some (length t).
Proof.
  induction 1 as [|x t Hx Ht IH]; cbn [app find_char]; [by rewrite Z.eqb_refl|].
  rewrite (proj2 (Z.eqb_neq x c) Hx), IH. done.
Qed.

Lemma trim_space s : trim (32 :: s) = trim s.
Proof. reflexivity. Qed.

Lemma parse_header_line_spec n v : token n -> value_ok v -> parse_header_line (header_line (n, v)) = Ok (n, v).
Proof.
  intros Hn (Hv & Hh & Hl). unfold parse_header_line, header_line. cbn [fst snd].
  rewrite find_char_token by (eapply Forall_impl; [apply Hn|]; by intros c [_ ?]).
  rewrite take_app_length, drop_app_add. cbn [drop]. rewrite trim_space, (trim_id v) by done.
  do 2 f_equal. pose proof (token_plain n Hn) as Hp. apply trim_id; intros c Hc.
  - destruct n; [done|]. injection Hc as <-. by apply Forall_cons in Hp as [[_ ?] _].
  - apply last_Some in Hc as [l' ->]. apply Forall_app in Hp as [_ Hp]. by apply Forall_cons in Hp as [[_ ?] _].
Qed.

Lemma header_line_cons n v : token n -> exists c r, header_line (n, v) = c :: r.
Proof. intros [Hne _]. destruct n as [|c n]; [done|]. by eexists _, _. Qed.

(** Headers other than the two that matter are only collected. *)
Lemma parse_headers_app hs ls acc cl close :
  Forall header_ok hs ->
  parse_headers ((header_line <$> hs) ++ ls) acc cl close = parse_headers ls (acc ++ hs) cl close.
Proof.
  intros Hhs. revert acc. induction Hhs as [|[n v] hs (Hn & Hv & Hc1 & Hc2) Hhs IH]; intros acc.
  { by rewrite app_nil_r. }
  rewrite fmap_cons. cbn [app parse_headers]. destruct (header_line_cons n v Hn) as (c & r & He).
  pose proof (parse_header_line_spec n v Hn Hv) as Hp. rewrite He in *. rewrite Hp. cbn [fst] in Hc1, Hc2.
  rewrite Hc1, Hc2. by rewrite IH, <- app_assoc.
Qed.

Lemma token_lit s :
  lit s <> [] -> forallb (fun c => (0 <=? c) && (c <? 128) && negb (is_whitespace c) && negb (c =? 58)) (lit s) = true ->
  token (lit s).
Proof.
  intros Hne H. split; [done|]. rewrite forallb_forall in H. apply Forall_forall. intros c Hc.
  apply list_elem_of_In, H in Hc. repeat (apply andb_true_iff in Hc as [Hc ?]).
  repeat match goal with H : negb _ = true |- _ => apply negb_true_iff in H end.
  split; [split; [unfold is_ascii; lia|done]|lia].
Qed.

Lemma token_value t : token t -> value_ok t.
Proof.
  intros Ht. pose proof (token_plain t Ht) as Hp. split; [by apply token_chars|]. split; intros c Hc.
  - destruct t; [done|]. injection Hc as <-. by apply Forall_cons in Hp as [[_ ?] _].
  - apply last_Some in Hc as [l' ->]. apply Forall_app in Hp as [_ Hp]. by apply Forall_cons in Hp as [[_ ?] _].
Qed.

Lemma decimal_token n : token (decimal n).
Proof.
  split; [by destruct (decimal_cons n) as (c & s & ->)|].
  eapply Forall_impl; [apply decimal_chars|]. intros c Hc. cbv beta in Hc. split; [by apply digit_facts|].
  intros ->. done.
Qed.

Lemma length_header_ok n : token (length_header n).1 /\ value_ok (length_header n).2.
Proof. split; [by apply token_lit|apply token_value, decimal_token]. Qed.

(** The two headers the server looks at. *)
Lemma parse_headers_end n pe acc :
  0 <= n < U64 ->
  parse_headers (header_line (length_header n) :: (header_line <$> persistence_headers pe)) acc 0 false
  = Ok (acc ++ length_header n :: persistence_headers pe, n, wants_close pe).
Proof.
  intros Hn. destruct (length_header_ok n) as [Ht Hv].
  cbn [parse_headers]. destruct (header_line_cons (length_header n).1 (length_header n).2 Ht) as (c & r & He).
  pose proof (parse_header_line_spec _ _ Ht Hv) as Hp. rewrite <- surjective_pairing in *. rewrite He in *.
  rewrite Hp. unfold length_header at 1. cbv beta iota zeta.
  change (eq_ignore_ascii_case (lit "Content-Length") (lit "content-length")) with true. cbv iota.
  rewrite parse_decimal by done. destruct pe; [done| |].
  all: cbn [persistence_headers wants_close]; rewrite fmap_cons, fmap_nil.
  all: match goal with |- context [header_line ?h] =>
         assert (Hc : parse_header_line (header_line h) = Ok h) by (vm_compute; reflexivity);
         destruct (header_line_cons h.1 h.2) as (c' & r' & He'); [by apply token_lit|]
       end.
  all: rewrite <- surjective_pairing in He'; rewrite He' in *; cbn [parse_headers]; rewrite Hc.
  all: change (eq_ignore_ascii_case (lit "Connection") (lit "content-length")) with false.
  all: change (eq_ignore_ascii_case (lit "Connection") (lit "connection")) with true; cbv iota.
  all: by rewrite <- app_assoc.
Qed.

(** A text of lines, an empty line and a body is complete exactly at its end, if
    its Content-Length says so. *)
Lemma wire_past_headers l ls n tail :
  Forall line_ok (l :: ls) -> find_content_length_bytes (block l ls) = Some n ->
  is_complete (wire l ls tail) = (n <=? Z.of_nat (length tail)).
Proof.
  intros Hl Hn. rewrite (is_complete_first _ _ (wire_first_end _ _ tail Hl)). unfold is_body_complete.
  rewrite wire_block, take_app_length, Hn, !length_app. change (length CRLF2) with 4%nat. do 2 f_equal. lia.
Qed.

Lemma wire_complete l ls b k :
  Forall line_ok (l :: ls) -> find_content_length_bytes (block l ls) = Some (Z.of_nat (length b)) ->
  (k <= length (wire l ls b))%nat ->
  is_complete (take k (wire l ls b)) = bool_decide (k = length (wire l ls b)).
Proof.
  intros Hl Hn Hk. set (n := length (block l ls)).
  assert (Hlen : length (wire l ls b) = (n + 4 + length b)%nat).
  { rewrite wire_block, !length_app. change (length CRLF2) with 4%nat. unfold n. lia. }
  rewrite Hlen in *. destruct (Nat.lt_ge_cases k (n + 4)) as [Hlt|Hge].
  - rewrite bool_decide_eq_false_2 by lia. apply is_complete_none. intros j Hj.
    pose proof (at_end_bound _ _ Hj) as Hjb. rewrite length_take in Hjb.
    destruct (wire_first_end _ _ b Hl) as [_ Hno]. fold n in Hno. apply (Hno j); [lia|].
    rewrite <- (take_drop k (wire _ _ b)). apply at_end_app; [rewrite length_take; lia|done].
  - replace (take k (wire l ls b)) with (wire l ls (take (k - (n + 4)) b)).
    + rewrite (wire_past_headers _ _ _ _ Hl Hn), length_take, Nat.min_l by lia.
      case_bool_decide; [apply Z.leb_le|apply Z.leb_gt]; lia.
    + rewrite !wire_block, !app_assoc. replace k with (length (block l ls ++ CRLF2) + (k - (n + 4)))%nat at 2.
      * by rewrite take_app_add.
      * rewrite length_app. change (length CRLF2) with 4%nat. fold n. lia.
Qed.

Section framing.
Context (m p : str) (hs : list (str * str)) (b : list Z) (pe : persistence).
Context (Hm : token m) (Hp : token p) (Hhs : Forall header_ok hs) (Hb : Z.of_nat (length b) < U64).

Definition head_lines : list str := header_line <$> all_headers hs b pe.
Definition head_block : list Z := block (request_line m p) head_lines.

Lemma head_lines_split :
  head_lines = (header_line <$> hs) ++ header_line (length_header (Z.of_nat (length b))) ::
               (header_line <$> persistence_headers pe).
Proof. unfold head_lines, all_headers. by rewrite fmap_app, fmap_cons. Qed.

Lemma lines_all_ok : Forall line_ok (request_line m p :: head_lines).
Proof.
  apply Forall_cons_2; [by apply request_line_ok|]. rewrite head_lines_split. apply Forall_app_2.
  - apply Forall_fmap. eapply Forall_impl; [exact Hhs|]. intros [n v] (Hn & Hv & _). by apply header_line_ok.
  - apply Forall_cons_2; [apply header_line_ok; [apply (proj1 (length_header_ok 0))|apply token_value, decimal_token]|].
    destruct pe; [done| |]; (apply Forall_cons_2; [|done]);
      (apply header_line_ok; [by apply token_lit|by apply token_value, token_lit]).
Qed.

Lemma block_ascii l ls : Forall line_ok (l :: ls) -> Forall is_ascii (block l ls).
Proof.
  revert l. induction ls as [|l' ls IH]; intros l Hl; apply Forall_cons in Hl as [[_ Hl] Hls]; cbn [block];
    (assert (Ha : Forall is_ascii l) by (eapply Forall_impl; [exact Hl|]; by intros c (? & _ & _))); [done|].
  apply Forall_app_2; [done|]. apply Forall_app_2; [|by apply IH]. by repeat constructor.
Qed.

Lemma head_content_length : find_content_length_bytes head_block = Some (Z.of_nat (length b)).
Proof.
  unfold find_content_length_bytes, head_block. rewrite head_lines_split.
  apply (scan_block None m 32 (p ++ 32 :: lit "HTTP/1.1")); [lia|by apply request_line_ok|apply Hm|auto|done|done].
Qed.

Lemma parse_printed :
  parse (print_request m p hs b pe)
  = Ok {| method := m; path := p; headers := all_headers hs b pe; body := b; connection_close := wants_close pe |}.
Proof.
  unfold parse, print_request. fold head_lines.
  rewrite (proj2 (find_headers_end_spec _ _) (wire_first_end _ _ b lines_all_ok)).
  rewrite wire_block. fold head_block. rewrite take_app_length.
  rewrite from_utf8_ascii by (apply block_ascii, lines_all_ok).
  unfold head_block at 1. rewrite lines_block by apply lines_all_ok.
  rewrite parse_request_line_spec by done. rewrite head_lines_split at 1.
  rewrite parse_headers_app, parse_headers_end by (done || lia). cbn [app].
  unfold extract_body. rewrite !length_app. change (length CRLF2) with 4%nat.
  replace (length head_block + (4 + length b) - (length head_block + 4))%nat with (length b) by lia.
  destruct (Nat.ltb_spec (length head_block + 4) (length head_block + (4 + length b))) as [Hlt|Hge].
  - rewrite Z.leb_refl. rewrite drop_app_add. cbn [CRLF2 drop app]. rewrite Nat2Z.id, firstn_all. done.
  - assert (b = []) as Hnil by (destruct b; [done|simpl in Hge; lia]). by rewrite Hnil.
Qed.

End framing.

(** C24. Framing and parsing of requests.  Print any request: method and path
    without white space or colon, headers of ASCII text other than Content-Length
    and Connection, those two as the printer adds them, any body.  Then, however
    many of its bytes have arrived, the server takes the request for complete
    exactly when all of them have, and [parse] gives back method, path, headers,
    body and the wish to close. *)
Theorem http_request_roundtrip m p hs b pe k :
  token m -> token p -> Forall header_ok hs -> Z.of_nat (length b) < U64 ->
  (k <= length (print_request m p hs b pe))%nat ->
  is_complete (take k (print_request m p hs b pe))
  = bool_decide (k = length (print_request m p hs b pe)) /\
  parse (print_request m p hs b pe)
  = Ok {| method := m; path := p; headers := all_headers hs b pe; body := b; connection_close := wants_close pe |}.
Proof.
  intros Hm Hp Hhs Hb Hk. split; [|by apply parse_printed].
  apply wire_complete; [by apply lines_all_ok|by apply head_content_length|done].
Qed.

Lemma http_request_roundtrip_witness :
  let msg := print_request (lit "POST") (lit "/") [(lit "Host", lit "localhost:8080")] (lit "{}") Closing in
  is_complete (take 20 msg) = false /\
  parse msg = Ok {| method := lit "POST"; path := lit "/";
                    headers := all_headers [(lit "Host", lit "localhost:8080")] (lit "{}") Closing;
                    body := lit "{}"; connection_close := true |}.
Proof.
  refine (http_request_roundtrip (lit "POST") (lit "/") [(lit "Host", lit "localhost:8080")] (lit "{}") Closing 20 _ _ _ _ _).
  - by apply token_lit.
  - by apply token_lit.
  - apply Forall_cons_2; [|apply Forall_nil_2]. split; [by apply token_lit|]. split; [|split; reflexivity].
    split; [by apply lit_chars_ok|]. split; intros c [= <-]; reflexivity.
  - reflexivity.
  - vm_compute. lia.
Defined.
