(* ===== verification/Server.v ===== *)
(** * Server: connections, connection pool, event loop and worker

    [server/src/server.rs], [queue.rs], [worker.rs] and [config.rs].  The event
    loop is a set of handlers, each a function from the state of the server to
    the new state and the events it causes: a new connection is accepted, a
    connection is readable or writable, worker responses are delivered, the
    worker takes a batch of requests.  What the operating system answers to
    [read] and [write] is an argument of the handler.  The request queue (SPSC)
    and the response queue (MPSC) are first-in first-out lists, which is what
    the refinement theorems of the two channels justify.

    The JSON library is a parameter: [from_slice] parses a request, [from_value]
    its parameters, [to_vec] prints a response.  A TCP stream is a number that is
    never used twice; the address of the peer is not used by the server. *)
From S2P Require Import Prelude Net Str Request Http.
From S2P Require RingBuffer.

(** ** Configuration *)

Record ServerConfig : Type := {
  bind_addr : SocketAddr; queue_size : Z; worker_cpu_core : option Z; max_request_size : Z;
  max_connections : Z; tcp_recv_buffer_size : Z; tcp_send_buffer_size : Z }.

Definition default_config : ServerConfig :=
  {| bind_addr := V4 [127; 0; 0; 1] 8080; queue_size := 4096; worker_cpu_core := Some 5;
     max_request_size := 1024 * 1024; max_connections := 10240;
     tcp_recv_buffer_size := 64 * 1024; tcp_send_buffer_size := 64 * 1024 |}.

(** [with_queue_size] *)
Definition with_queue_size (size : Z) (c : ServerConfig) : Result ServerConfig fault :=
  if RingBuffer.is_power_of_two size then
    Ok {| bind_addr := bind_addr c; queue_size := size; worker_cpu_core := worker_cpu_core c;
          max_request_size := max_request_size c; max_connections := max_connections c;
          tcp_recv_buffer_size := tcp_recv_buffer_size c; tcp_send_buffer_size := tcp_send_buffer_size c |}
  else Err (Panic "Queue size must be a power of 2").

Definition with_bind_addr (addr : SocketAddr) (c : ServerConfig) : ServerConfig :=
  {| bind_addr := addr; queue_size := queue_size c; worker_cpu_core := worker_cpu_core c;
     max_request_size := max_request_size c; max_connections := max_connections c;
     tcp_recv_buffer_size := tcp_recv_buffer_size c; tcp_send_buffer_size := tcp_send_buffer_size c |}.
Definition with_worker_cpu_core (core : Z) (c : ServerConfig) : ServerConfig :=
  {| bind_addr := bind_addr c; queue_size := queue_size c; worker_cpu_core := Some core;
     max_request_size := max_request_size c; max_connections := max_connections c;
     tcp_recv_buffer_size := tcp_recv_buffer_size c; tcp_send_buffer_size := tcp_send_buffer_size c |}.
Definition with_max_request_size (size : Z) (c : ServerConfig) : ServerConfig :=
  {| bind_addr := bind_addr c; queue_size := queue_size c; worker_cpu_core := worker_cpu_core c;
     max_request_size := size; max_connections := max_connections c;
     tcp_recv_buffer_size := tcp_recv_buffer_size c; tcp_send_buffer_size := tcp_send_buffer_size c |}.
Definition with_max_connections (count : Z) (c : ServerConfig) : ServerConfig :=
  {| bind_addr := bind_addr c; queue_size := queue_size c; worker_cpu_core := worker_cpu_core c;
     max_request_size := max_request_size c; max_connections := count;
     tcp_recv_buffer_size := tcp_recv_buffer_size c; tcp_send_buffer_size := tcp_send_buffer_size c |}.
Definition with_tcp_buffer_sizes (recv send : Z) (c : ServerConfig) : ServerConfig :=
  {| bind_addr := bind_addr c; queue_size := queue_size c; worker_cpu_core := worker_cpu_core c;
     max_request_size := max_request_size c; max_connections := max_connections c;
     tcp_recv_buffer_size := recv; tcp_send_buffer_size := send |}.

Definition validate_config (c : ServerConfig) : Result unit str :=
  if negb (RingBuffer.is_power_of_two (queue_size c)) then
    Err (lit "Queue size must be a power of 2, got " ++ decimal (queue_size c))
  else if max_request_size c =? 0 then Err (lit "Max request size must be greater than 0")
  else if max_connections c =? 0 then Err (lit "Max connections must be greater than 0")
  else Ok tt.

(** ** Connections *)

Definition MAX_REQUEST_SIZE : nat := 1024 * 1024.

Inductive ConnectionState : Type := Reading | Processing | Writing.
#[export] Instance ConnectionState_eq_dec : EqDecision ConnectionState.
Proof. solve_decision. Defined.

Record Connection : Type := {
  stream : nat;
  recv : RecvState;      (* [recv_buf], [last_scanned_pos], [headers_end_cache] *)
  send_buf : list Z;
  json_buf : list Z;
  send_pos : nat;
  pending_request_id : option Z;
  state : ConnectionState;
  should_close : bool;
}.

Definition connection_new (s : nat) : Connection :=
  {| stream := s; recv := recv_new; send_buf := []; json_buf := []; send_pos := 0;
     pending_request_id := None; state := Reading; should_close := false |}.

Definition set_recv (r : RecvState) (c : Connection) : Connection :=
  {| stream := stream c; recv := r; send_buf := send_buf c; json_buf := json_buf c;
     send_pos := send_pos c; pending_request_id := pending_request_id c; state := state c;
     should_close := should_close c |}.
Definition set_send_pos (n : nat) (c : Connection) : Connection :=
  {| stream := stream c; recv := recv c; send_buf := send_buf c; json_buf := json_buf c;
     send_pos := n; pending_request_id := pending_request_id c; state := state c;
     should_close := should_close c |}.

(** What the stream answers to the [read] calls of one readiness event: some
    chunks of data, then the end of the loop. *)
Inductive read_end : Type := ReadWouldBlock | ReadEof | ReadFailed.
Record reads : Type := { chunks : list (list Z); reads_end : read_end }.

Fixpoint read_loop (bs : list (list Z)) (e : read_end) (c : Connection) : Connection * Result bool unit :=
  match bs with
  | [] => (c, match e with ReadWouldBlock => Ok true | ReadEof => Ok false | ReadFailed => Err tt end)
  | b :: bs =>
      let c := set_recv (extend b (recv c)) c in
      if (MAX_REQUEST_SIZE <? length (recv_buf (recv c)))%nat then (c, Err tt) else read_loop bs e c
  end.

(** [Ok false]: closed by the client. *)
Definition try_read (io : reads) (c : Connection) : Connection * Result bool unit :=
  read_loop (chunks io) (reads_end io) c.

(** The answers to [write]: how many bytes were taken, then the end. *)
Inductive write_end : Type := WriteWouldBlock | WriteFailed.
Record writes : Type := { counts : list nat; writes_end : write_end }.

(** The bytes the stream took, in order; [Ok true]: all of the buffer. *)
Fixpoint write_loop (ns : list nat) (e : write_end) (c : Connection)
    : list Z * Connection * Result bool unit :=
  if (send_pos c <? length (send_buf c))%nat then
    match ns with
    | [] => ([], c, match e with WriteWouldBlock => Ok false | WriteFailed => Err tt end)
    | n :: ns =>
        let '(out, c', r) := write_loop ns e (set_send_pos (send_pos c + n) c) in
        (take n (drop (send_pos c) (send_buf c)) ++ out, c', r)
    end
  else ([], c, Ok true).

Definition try_write (io : writes) (c : Connection) : list Z * Connection * Result bool unit :=
  write_loop (counts io) (writes_end io) c.

Definition connection_complete (c : Connection) : bool * Connection :=
  let '(b, r) := is_request_complete (recv c) in (b, set_recv r c).

Definition queue_response (response : list Z) (c : Connection) : Connection :=
  {| stream := stream c; recv := recv c; send_buf := response; json_buf := json_buf c;
     send_pos := 0; pending_request_id := pending_request_id c; state := Writing;
     should_close := should_close c |}.

Definition is_response_sent (c : Connection) : bool := (length (send_buf c) <=? send_pos c)%nat.

Definition reset_for_next_request (c : Connection) : Connection :=
  {| stream := stream c; recv := clear_recv_buf (recv c); send_buf := []; json_buf := [];
     send_pos := 0; pending_request_id := None; state := Reading; should_close := should_close c |}.

(** ** Connection pool *)

Record RecycledBuffers : Type := {
  recycled_recv : list Z; recycled_send : list Z; recycled_json : list Z }.

Record ConnectionPool : Type := {
  connections : list (option Connection);
  free_slots : list nat;
  recycled_buffers : list RecycledBuffers;
}.

Definition pool_new : ConnectionPool := {| connections := []; free_slots := []; recycled_buffers := [] |}.

(** [Vec::pop] *)
Definition vec_pop {A} (l : list A) : option (A * list A) :=
  match last l with Some x => Some (x, take (length l - 1) l) | None => None end.

(** The buffers of a recycled connection are taken as they are. *)
Definition create_connection (s : nat) (p : ConnectionPool) : Connection * ConnectionPool :=
  match vec_pop (recycled_buffers p) with
  | Some (r, rest) =>
      ({| stream := s;
          recv := {| recv_buf := recycled_recv r; last_scanned_pos := 0; headers_end_cache := None |};
          send_buf := recycled_send r; json_buf := recycled_json r; send_pos := 0;
          pending_request_id := None; state := Reading; should_close := false |},
       {| connections := connections p; free_slots := free_slots p; recycled_buffers := rest |})
  | None => (connection_new s, p)
  end.

Definition alloc_empty (p : ConnectionPool) : nat * ConnectionPool :=
  match vec_pop (free_slots p) with
  | Some (idx, rest) =>
      (idx, {| connections := connections p; free_slots := rest; recycled_buffers := recycled_buffers p |})
  | None =>
      (length (connections p),
       {| connections := connections p ++ [None]; free_slots := free_slots p;
          recycled_buffers := recycled_buffers p |})
  end.

Definition pool_set (idx : nat) (c : Connection) (p : ConnectionPool) : ConnectionPool :=
  if (idx <? length (connections p))%nat then
    {| connections := <[idx := Some c]> (connections p); free_slots := free_slots p;
       recycled_buffers := recycled_buffers p |}
  else p.

Definition pool_get (idx : nat) (p : ConnectionPool) : option Connection :=
  match connections p !! idx with Some (Some c) => Some c | _ => None end.

Definition pool_remove (idx : nat) (p : ConnectionPool) : ConnectionPool :=
  if (idx <? length (connections p))%nat then
    let recycled :=
      match connections p !! idx with
      | Some (Some c) =>
          if (length (recycled_buffers p) <? 64)%nat then
            recycled_buffers p ++ [{| recycled_recv := []; recycled_send := []; recycled_json := [] |}]
          else recycled_buffers p
      | _ => recycled_buffers p
      end in
    {| connections := <[idx := None]> (connections p); free_slots := free_slots p ++ [idx];
       recycled_buffers := recycled |}
  else p.

(** ** Queues, worker and event loop *)

Section server.
Context {Value : Type} (null : Value).
Context (from_value : Value -> Result SendTransactionParams str).
Context (from_slice : list Z -> Result (JsonRpcRequest (Value := Value)) str).
Context (to_vec : JsonRpcResponse (Value := Value) -> list Z).

(** [response_tx] is the response queue with the [request_id] and the [token]
    of the request. *)
Record QueuedRequest : Type := { q_request_id : Z; q_token : nat; q_request : ParsedRequest (Value := Value) }.
Record QueuedResponse : Type := { r_request_id : Z; r_token : nat; r_result : Result str str }.

(** What can be observed: a request taken from a stream, a response queued on a
    stream (with the request it answers, if any), bytes the stream took, and a
    transaction handed to the sender. *)
Inductive event : Type :=
| Submitted (s : nat) (q : QueuedRequest)
| Queued (s : nat) (answers : option Z) (bytes : list Z)
| Wire (s : nat) (bytes : list Z)
| Transmit (id : Z) (tx : list Z) (fanout : Z).

Record Server : Type := {
  pool : ConnectionPool;
  next_request_id : Z;           (* [NEXT_REQUEST_ID] *)
  requests : list QueuedRequest;   (* from the event loop to the worker *)
  responses : list QueuedResponse; (* from the worker to the event loop *)
  worker_gone : bool;            (* the receiver of the requests was dropped *)
  next_stream : nat;
}.

Definition server_new : Server :=
  {| pool := pool_new; next_request_id := 1; requests := []; responses := [];
     worker_gone := false; next_stream := 0 |}.

Definition set_pool (p : ConnectionPool) (st : Server) : Server :=
  {| pool := p; next_request_id := next_request_id st; requests := requests st;
     responses := responses st; worker_gone := worker_gone st; next_stream := next_stream st |}.

Definition with_queues (qs : list QueuedRequest) (rs : list QueuedResponse) (st : Server) : Server :=
  {| pool := pool st; next_request_id := next_request_id st; requests := qs; responses := rs;
     worker_gone := worker_gone st; next_stream := next_stream st |}.

(** [fetch_add(1)] on an [AtomicU64] *)
Definition generate_request_id (st : Server) : Z * Server :=
  (next_request_id st,
   {| pool := pool st; next_request_id := wrapping_add64 (next_request_id st) 1; requests := requests st;
      responses := responses st; worker_gone := worker_gone st; next_stream := next_stream st |}).

(** [req_tx.send]: refused when the worker is gone. *)
Definition send_request (q : QueuedRequest) (st : Server) : Result Server unit :=
  if worker_gone st then Err tt
  else Ok {| pool := pool st; next_request_id := next_request_id st; requests := requests st ++ [q];
             responses := responses st; worker_gone := worker_gone st; next_stream := next_stream st |}.

(** *** Requests *)

(** The id is drawn before the send can fail. *)
Definition handle_request (buf : list Z) (token : nat) (st : Server)
    : Result (QueuedRequest * bool) ServerError * Server :=
  match parse buf with
  | Err e => (Err e, st)
  | Ok http_req =>
      if negb (bool_decide (Http.method http_req = lit "POST")) then
        (Err (InvalidHttp (lit "Method not allowed: " ++ Http.method http_req)), st)
      else
        match from_slice (body http_req) with
        | Err e => (Err (JsonParse e), st)
        | Ok rpc_req =>
            match from_rpc_request from_value rpc_req with
            | Err e => (Err e, st)
            | Ok parsed =>
                let '(id, st) := generate_request_id st in
                let queued := {| q_request_id := id; q_token := token; q_request := parsed |} in
                match send_request queued st with
                | Err _ => (Err QueueFull, st)
                | Ok st => (Ok (queued, connection_close http_req), st)
                end
            end
        end
  end.

Definition write_json_response (json_buf : list Z) (r : QueuedResponse) : list Z :=
  let json_buf := json_buf ++ quoted "{'jsonrpc':'2.0','id':" in
  let json_buf := json_buf ++ decimal (r_request_id r) in
  match r_result r with
  | Ok request_id_hex =>
      json_buf ++ quoted ",'result':{'status':'queued','request_id':'" ++
      as_bytes request_id_hex ++ quoted "'}}"
  | Err error_msg =>
      json_buf ++ quoted ",'error':{'code':-32603,'message':'" ++ as_bytes error_msg ++ quoted "'}}"
  end.

(** The HTTP response and the new content of the connection's [json_buf];
    [date] is the text of the [Date] header. *)
Definition create_response (date : list Z) (r : QueuedResponse) (close : bool) : list Z * list Z :=
  let json_buf := write_json_response [] r in
  let resp := with_json_bytes json_buf response_ok in
  let resp := if close then with_connection_close resp else resp in
  (build date resp, json_buf).

Definition error_response (date : list Z) (id : Value) (e : ServerError) (close : bool) : list Z :=
  let resp := with_json_bytes (to_vec (from_error id e)) bad_request in
  let resp := if close then with_connection_close resp else resp in
  build date resp.

(** *** One event of a connection *)

Record io : Type := {
  readable : bool; writable : bool; io_reads : reads; io_writes : writes; date : list Z }.

Definition submitted (req_id : Z) (close : bool) (c : Connection) : Connection :=
  {| stream := stream c; recv := clear_recv_buf (recv c); send_buf := send_buf c;
     json_buf := json_buf c; send_pos := send_pos c; pending_request_id := Some req_id;
     state := Processing; should_close := close |}.

(** A complete request is handled: it goes to the worker, or its error is
    answered. *)
Definition on_request (token : nat) (date : list Z) (c : Connection) (st : Server)
    : list event * Connection * Server :=
  match handle_request (recv_buf (recv c)) token st with
  | (Ok (q, close), st) => ([Submitted (stream c) q], submitted (q_request_id q) close c, st)
  | (Err e, st) =>
      let response := error_response date null e false in
      ([Queued (stream c) None response], queue_response response c, st)
  end.

(** The read half of a client event; the flag says that the connection is to
    be removed. *)
Definition on_readable (token : nat) (ev : io) (c : Connection) (st : Server)
    : bool * list event * Connection * Server :=
  if readable ev && bool_decide (state c = Reading) then
    match try_read (io_reads ev) c with
    | (c, Ok true) =>
        let '(complete, c) := connection_complete c in
        if complete && bool_decide (pending_request_id c = None) then
          let '(evs, c, st) := on_request token (date ev) c st in (false, evs, c, st)
        else (false, [], c, st)
    | (c, _) => (true, [], c, st)
    end
  else (false, [], c, st).

(** What follows a [try_write]: close or get ready for the next request when
    everything was sent. *)
Definition after_write (c : Connection) (r : Result bool unit) : bool * Connection :=
  match r with
  | Ok _ =>
      if is_response_sent c then
        if should_close c then (true, c) else (false, reset_for_next_request c)
      else (false, c)
  | Err _ => (true, c)
  end.

Definition on_writable (ev : io) (c : Connection) : bool * list event * Connection :=
  if writable ev && negb (bool_decide (send_buf c = [])) then
    let '(out, c, r) := try_write (io_writes ev) c in
    let '(remove, c') := after_write c r in
    (remove, [Wire (stream c) out], c')
  else (false, [], c).

(** [pool.get_mut(idx)] is a reference into the pool: the connection is written
    back before it is removed. *)
Definition put_back (idx : nat) (c : Connection) (remove : bool) (st : Server) : Server :=
  let st := set_pool (pool_set idx c (pool st)) st in
  if remove then set_pool (pool_remove idx (pool st)) st else st.

Definition client_event (token : nat) (ev : io) (st : Server) : list event * Server :=
  let idx := (token - 1)%nat in
  match pool_get idx (pool st) with
  | None => ([], st)
  | Some c =>
      let '(remove, evs, c, st) := on_readable token ev c st in
      let '(remove, evs', c) := if remove then (true, [], c) else on_writable ev c in
      (evs ++ evs', put_back idx c remove st)
  end.

(** *** Accepting *)

Definition accept (st : Server) : nat * Server :=
  let '(idx, p) := alloc_empty (pool st) in
  let '(c, p) := create_connection (next_stream st) p in
  (S idx,
   {| pool := pool_set idx c p; next_request_id := next_request_id st; requests := requests st;
      responses := responses st; worker_gone := worker_gone st; next_stream := S (next_stream st) |}).

(** *** Delivering responses *)

Definition deliver (w : writes) (date : list Z) (r : QueuedResponse) (st : Server) : list event * Server :=
  let idx := (r_token r - 1)%nat in
  match pool_get idx (pool st) with
  | None => ([], st)
  | Some c =>
      if bool_decide (pending_request_id c = Some (r_request_id r)) then
        let '(http_response, json) := create_response date r (should_close c) in
        let c := queue_response http_response c in
        let c := {| stream := stream c; recv := recv c; send_buf := send_buf c; json_buf := json;
                    send_pos := send_pos c; pending_request_id := None; state := state c;
                    should_close := should_close c |} in
        let '(out, c', res) := try_write w c in
        let '(remove, c') := after_write c' res in
        ([Queued (stream c) (Some (r_request_id r)) http_response; Wire (stream c) out],
         put_back idx c' remove st)
      else ([], st)
  end.

(** Responses are delivered one after the other; [ws] are the answers to the
    writes. *)
Fixpoint deliver_all (ws : list writes) (date : list Z) (rs : list QueuedResponse) (st : Server)
    : list event * Server :=
  match rs with
  | [] => ([], st)
  | r :: rs =>
      let w := default {| counts := []; writes_end := WriteWouldBlock |} (head ws) in
      let '(evs, st) := deliver w date r st in
      let '(evs', st) := deliver_all (tail ws) date rs st in
      (evs ++ evs', st)
  end.

(** At most [n] responses are taken from the queue and delivered; a batch of the
    event loop has at most 64. *)
Definition deliver_some (n : nat) (ws : list writes) (date : list Z) (st : Server) : list event * Server :=
  deliver_all ws date (take n (responses st))
    {| pool := pool st; next_request_id := next_request_id st; requests := requests st;
       responses := drop n (responses st); worker_gone := worker_gone st; next_stream := next_stream st |}.

Definition deliver_batch : list writes -> list Z -> Server -> list event * Server := deliver_some 64.

(** *** Worker *)

(** [format!("{:016x}", n)] *)
Definition hex_digit (d : Z) : Z := if d <? 10 then 48 + d else 87 + d.
Definition hex16 (n : Z) : str := (fun i => hex_digit (n / 16 ^ (15 - i) mod 16)) <$> seqZ 0 16.

Definition respond (q : QueuedRequest) (result : Result str str) : QueuedResponse :=
  {| r_request_id := q_request_id q; r_token := q_token q; r_result := result |}.

(** The response goes out before the transaction is handed to the sender. *)
Definition process_request (q : QueuedRequest) : QueuedResponse * list event :=
  if bool_decide (transaction (q_request q) = []) then (respond q (Err (lit "Empty transaction")), [])
  else (respond q (Ok (hex16 (q_request_id q))),
        [Transmit (q_request_id q) (transaction (q_request q)) (fanout (q_request q))]).

Definition BATCH_SIZE : nat := 64.

(** The worker deals with at most [n] requests; a round of [worker_loop] takes
    [BATCH_SIZE]. *)
Definition worker_take (n : nat) (st : Server) : list event * Server :=
  let done := process_request <$> take n (requests st) in
  (done ≫= snd,
   {| pool := pool st; next_request_id := next_request_id st; requests := drop n (requests st);
      responses := responses st ++ done.*1; worker_gone := worker_gone st; next_stream := next_stream st |}).

Definition worker_round : Server -> list event * Server := worker_take BATCH_SIZE.

(** ** Steps of the server

    The two threads share only the queues; the steps of one may come between any
    two requests or responses the other deals with. *)

Inductive server_step : Server -> list event -> Server -> Prop :=
| step_accept st : server_step st [] (accept st).2
| step_client st token ev :
    (0 < token)%nat -> server_step st (client_event token ev st).1 (client_event token ev st).2
| step_deliver st n ws date : server_step st (deliver_some n ws date st).1 (deliver_some n ws date st).2
| step_worker st n : worker_gone st = false -> server_step st (worker_take n st).1 (worker_take n st).2
| step_worker_gone st :
    server_step st [] {| pool := pool st; next_request_id := next_request_id st; requests := requests st;
                         responses := responses st; worker_gone := true; next_stream := next_stream st |}.

(** The states the server reaches before the counter of request ids wraps
    around, with everything that was observed. *)
Inductive reaches : list event -> Server -> Prop :=
| reaches_new : reaches [] server_new
| reaches_step tr st evs st' :
    reaches tr st -> server_step st evs st' -> next_request_id st' <> 0 -> reaches (tr ++ evs) st'.

End server.
