(* ===== verification/ServerSpec.v ===== *)
(** * ServerSpec: what the RPC server guarantees

    The invariant of the server of [Server] and what follows from it for every
    sequence of steps: the bytes a client reads are its responses, whole and in
    order; a response to a request goes to the connection the request came from
    and to no other, at most once; every request taken is handed to the sender
    at most once, in order; the connection pool never gives a slot away twice. *)
From S2P Require Import Prelude Str Request Http Server.

Set Default Proof Using "Type".

(** ** Observations *)

Section trace.
Context {Value : Type}.
Implicit Types tr : list (event (Value := Value)).

Definition stream_of (e : event (Value := Value)) : option nat :=
  match e with
  | Submitted s _ | Queued s _ _ | Wire s _ => Some s
  | Transmit _ _ _ => None
  end.

(** The requests taken, with their streams; the requests answered. *)
Definition subs tr : list (nat * QueuedRequest (Value := Value)) :=
  omap (fun e => match e with Submitted s q => Some (s, q) | _ => None end) tr.
Definition answered tr : list Z :=
  omap (fun e => match e with Queued _ id _ => id | _ => None end) tr.
Definition transmits tr : list (event (Value := Value)) :=
  filter (fun e => stream_of e = None) tr.

(** The bytes queued on a stream, and the bytes the stream took. *)
Definition queued_of (s : nat) tr : list Z :=
  (tr ≫= fun e => match e with Queued s' _ b => if decide (s' = s) then b else [] | _ => [] end).
Definition wire_of (s : nat) tr : list Z :=
  (tr ≫= fun e => match e with Wire s' b => if decide (s' = s) then b else [] | _ => [] end).

Lemma subs_app tr tr' : subs (tr ++ tr') = subs tr ++ subs tr'.
Proof. apply omap_app. Qed.
Lemma answered_app tr tr' : answered (tr ++ tr') = answered tr ++ answered tr'.
Proof. apply omap_app. Qed.
Lemma transmits_app tr tr' : transmits (tr ++ tr') = transmits tr ++ transmits tr'.
Proof. apply filter_app. Qed.
Lemma queued_of_app s tr tr' : queued_of s (tr ++ tr') = queued_of s tr ++ queued_of s tr'.
Proof. apply bind_app. Qed.
Lemma wire_of_app s tr tr' : wire_of s (tr ++ tr') = wire_of s tr ++ wire_of s tr'.
Proof. apply bind_app. Qed.

(** Events of other streams do not count. *)
Definition silent (s : nat) tr : Prop := Forall (fun e => stream_of e <> Some s) tr.

Lemma silent_of s tr : silent s tr -> queued_of s tr = [] /\ wire_of s tr = [].
Proof.
  unfold queued_of, wire_of.
  induction 1 as [|e tr He Htr [IHq IHw]]; [done|]. cbn. rewrite IHq, IHw.
  destruct e; cbn in *; rewrite ?decide_False by congruence; done.
Qed.

Lemma silent_subs s tr q : silent s tr -> (s, q) ∉ subs tr.
Proof.
  intros Hs Hin. apply list_elem_of_omap in Hin as (e & He & Hq). destruct e; simplify_eq.
  unfold silent in Hs. rewrite Forall_forall in Hs. by apply Hs in He.
Qed.

Lemma elem_of_subs s q tr : (s, q) ∈ subs tr <-> Submitted s q ∈ tr.
Proof.
  unfold subs. rewrite list_elem_of_omap. split.
  - intros (e & He & Hq). destruct e; by simplify_eq.
  - intros H. eauto.
Qed.

End trace.

Create Rewrite HintDb server.
#[export] Hint Rewrite @subs_app @answered_app @transmits_app @queued_of_app @wire_of_app @app_nil_r : server.

(** ** Invariant *)

Section invariant.
Context {Value : Type}.
Abbreviation tr_t := (list (event (Value := Value))).
Abbreviation server := (Server (Value := Value)).
Implicit Types (tr evs : tr_t) (st : server).

Definition ids tr : list Z := (fun x => q_request_id x.2) <$> subs tr.

(** A response of the worker answers one of the requests taken. *)
Definition answers tr (r : QueuedResponse) : Prop :=
  exists s q, (s, q) ∈ subs tr /\ r = (process_request q).1.

Record trace_ok tr st : Prop := {
  t_ids : NoDup (ids tr) /\ Forall (fun id => 0 < id < next_request_id st) (ids tr);
  t_next : 0 < next_request_id st < U64;
  t_fresh : forall s, (next_stream st <= s)%nat -> silent s tr;
  t_wire : forall s, (wire_of s tr) `prefix_of` (queued_of s tr);
  t_answered : NoDup (answered tr) /\ Forall (fun id => id ∈ ids tr) (answered tr);
  t_replies : forall s id bytes, Queued s (Some id) bytes ∈ tr ->
      exists q date close, (s, q) ∈ subs tr /\ q_request_id q = id /\
        bytes = (create_response date (process_request q).1 close).1;
  t_done : exists done, (subs tr).*2 = done ++ requests st /\
      transmits tr = (done ≫= (fun q => (process_request q).2));
  t_responses : Forall (answers tr) (responses st);
}.

Record conn_ok tr (c : Connection) : Prop := {
  c_recv : recv_inv (recv c);
  c_size : (length (recv_buf (recv c)) <= MAX_REQUEST_SIZE)%nat;
  c_state : match state c with
            | Reading => pending_request_id c = None /\ send_buf c = []
            | Processing => is_Some (pending_request_id c) /\ send_buf c = [] /\ recv_buf (recv c) = []
            | Writing => pending_request_id c = None
            end;
  c_pending : forall id, pending_request_id c = Some id ->
      (id ∉ answered tr) /\ exists q, (stream c, q) ∈ subs tr /\ q_request_id q = id;
  c_wire : queued_of (stream c) tr = wire_of (stream c) tr ++ drop (send_pos c) (send_buf c);
}.

(** The free list holds the empty slots, once each; recycled buffers are empty. *)
Record slots_ok (p : ConnectionPool) : Prop := {
  s_nodup : NoDup (free_slots p);
  s_free : forall i, i ∈ free_slots p <-> connections p !! i = Some None;
  s_recycled : Forall (fun r => r = {| recycled_recv := []; recycled_send := []; recycled_json := [] |})
                 (recycled_buffers p) /\ (length (recycled_buffers p) <= 64)%nat;
}.

Record inv tr st : Prop := {
  v_trace : trace_ok tr st;
  v_slots : slots_ok (pool st);
  v_conn : forall i c, connections (pool st) !! i = Some (Some c) ->
             conn_ok tr c /\ (stream c < next_stream st)%nat;
  v_streams : forall i j c c', connections (pool st) !! i = Some (Some c) ->
                connections (pool st) !! j = Some (Some c') -> stream c = stream c' -> i = j;
}.

(** A request is known by its id. *)
Lemma ids_inj tr st s q s' q' :
  trace_ok tr st -> (s, q) ∈ subs tr -> (s', q') ∈ subs tr -> q_request_id q = q_request_id q' ->
  s = s' /\ q = q'.
Proof.
  intros Ht Hq Hq' He. destruct (t_ids _ _ Ht) as [Hnd _]. unfold ids in Hnd.
  apply list_elem_of_lookup in Hq as [i Hi], Hq' as [j Hj].
  assert (i = j) as ->.
  { eapply NoDup_lookup; [exact Hnd| |]; rewrite list_lookup_fmap; [by rewrite Hi|].
    rewrite Hj. simpl. by rewrite He. }
  by simplify_eq.
Qed.

(** What happens on other streams leaves a connection alone. *)
Lemma conn_ok_frame tr evs c :
  conn_ok tr c -> silent (stream c) evs ->
  (forall id, pending_request_id c = Some id -> id ∉ answered evs) -> conn_ok (tr ++ evs) c.
Proof.
  intros [Hr Hz Hs Hp Hw] Hsil Hna. split; try done.
  - intros id Hid. destruct (Hp id Hid) as (Hn & q & Hq & He). rewrite answered_app, subs_app. split.
    + rewrite elem_of_app. intros [?|?]; [done|]. by apply (Hna id).
    + exists q. split; [|done]. apply elem_of_app. by left.
  - destruct (silent_of _ _ Hsil) as [Hq0 Hw0]. by rewrite queued_of_app, wire_of_app, Hq0, Hw0, !app_nil_r.
Qed.

(** ** Single events *)

Lemma silent_snoc s tr e : silent s tr -> stream_of e <> Some s -> silent s (tr ++ [e]).
Proof. intros Hs He. apply Forall_app. split; [done|]. by apply Forall_singleton. Qed.

(** The new counter of a step that may draw an id. *)
Definition same_or_next (st st' : server) : Prop :=
  next_request_id st <= next_request_id st' < U64 /\ next_stream st' = next_stream st /\
  requests st' = requests st /\ responses st' = responses st.

Lemma ids_monotone (l : list Z) n n' :
  n <= n' -> Forall (fun id => 0 < id < n) l -> Forall (fun id => 0 < id < n') l.
Proof. intros Hn Hl. eapply Forall_impl; [exact Hl|]. simpl. lia. Qed.

(** An event that is neither a request nor an answer nor a transmission. *)
Lemma trace_neutral tr st st' e s :
  trace_ok tr st -> same_or_next st st' -> (s < next_stream st)%nat -> stream_of e = Some s ->
  subs [e] = [] -> answered [e] = [] ->
  wire_of s (tr ++ [e]) `prefix_of` queued_of s (tr ++ [e]) ->
  trace_ok (tr ++ [e]) st'.
Proof.
  intros [[Hnd Hids] Hnx Hfr Hw Ha Hrep Hd Hresp] (Hn & Hst & Hrq & Hrs) Hs He Hsub Han Hws.
  assert (Hsubs : subs (tr ++ [e]) = subs tr) by (by rewrite subs_app, Hsub, app_nil_r).
  split; unfold ids, answers; rewrite ?Hsubs, ?Hst, ?Hrq, ?Hrs; try done.
  - split; [done|]. eapply ids_monotone; [|exact Hids]. lia.
  - lia.
  - intros s' Hs'. apply silent_snoc; [by apply Hfr|]. rewrite He. intros [= ->]. lia.
  - intros s'. destruct (decide (s' = s)) as [->|Hne]; [done|].
    rewrite queued_of_app, wire_of_app. destruct (silent_of s' [e]) as [-> ->].
    { apply Forall_singleton. rewrite He. congruence. }
    rewrite !app_nil_r. apply Hw.
  - rewrite answered_app, Han, app_nil_r. done.
  - intros s' id b [Hin|Hin%list_elem_of_singleton]%elem_of_app; [by apply Hrep|].
    subst e. by cbn in Han.
  - rewrite transmits_app. replace (transmits [e]) with (@nil (event (Value := Value))).
    + by rewrite app_nil_r.
    + unfold transmits. rewrite filter_cons, He, decide_False; done.
Qed.

Lemma trace_draw tr st st' : trace_ok tr st -> same_or_next st st' -> trace_ok tr st'.
Proof.
  intros [[Hnd Hids] Hnx Hfr Hw Ha Hrep Hd Hresp] (Hn & Hst & Hrq & Hrs).
  split; rewrite ?Hst, ?Hrq, ?Hrs; try done; [|lia].
  split; [done|]. eapply ids_monotone; [|exact Hids]. lia.
Qed.

(** A request is taken. *)
Lemma trace_submit tr st st' s q :
  trace_ok tr st -> (s < next_stream st)%nat -> q_request_id q = next_request_id st ->
  next_request_id st < next_request_id st' < U64 -> next_stream st' = next_stream st ->
  requests st' = requests st ++ [q] -> responses st' = responses st ->
  trace_ok (tr ++ [Submitted s q]) st' /\ q_request_id q ∉ answered tr.
Proof.
  intros [[Hnd Hids] Hnx Hfr Hw [Hna Haid] Hrep (done & Hd & Htx) Hresp] Hs Hq Hlt Hst Hrq Hrs.
  assert (Hnew : q_request_id q ∉ ids tr).
  { intros Hin. rewrite Forall_forall in Hids. apply Hids in Hin. lia. }
  assert (Hids' : ids (tr ++ [Submitted s q]) = ids tr ++ [q_request_id q]).
  { unfold ids. by rewrite subs_app, fmap_app. }
  assert (Hsub : forall x, x ∈ subs tr -> x ∈ subs (tr ++ [Submitted s q])).
  { intros x Hx. rewrite subs_app. apply elem_of_app. by left. }
  split; [split; rewrite ?Hst, ?Hrq, ?Hrs, ?Hids'; try done; try lia|].
  - split.
    + apply NoDup_app. split; [done|]. split; [|apply NoDup_singleton].
      intros x Hx ->%list_elem_of_singleton. done.
    + apply Forall_app. split; [by eapply ids_monotone; [|exact Hids]; lia|].
      apply Forall_singleton. lia.
  - intros s' Hs'. apply silent_snoc; [by apply Hfr|]. simpl. intros [= ->]. lia.
  - intros s'. rewrite queued_of_app, wire_of_app. simpl. rewrite !app_nil_r. apply Hw.
  - rewrite answered_app. simpl. rewrite app_nil_r. split; [done|].
    eapply Forall_impl; [exact Haid|]. intros id Hid. simpl. apply elem_of_app. by left.
  - intros s' id b [Hin|Hin%list_elem_of_singleton]%elem_of_app; [|done].
    destruct (Hrep _ _ _ Hin) as (q' & d & cl & Hq' & ? & ?). exists q', d, cl. auto.
  - exists done. rewrite subs_app, fmap_app, Hd, transmits_app, Htx. simpl.
    by rewrite app_nil_r, <- app_assoc.
  - eapply Forall_impl; [exact Hresp|]. intros r (s' & q' & Hq' & ->). exists s', q'. auto.
  - intros Hin. rewrite Forall_forall in Haid. by apply Hnew, Haid.
Qed.

(** A response is queued. *)
Lemma trace_reply tr st s id q bytes d cl :
  trace_ok tr st -> (s < next_stream st)%nat -> (s, q) ∈ subs tr -> q_request_id q = id ->
  id ∉ answered tr -> bytes = (create_response d (process_request q).1 cl).1 ->
  trace_ok (tr ++ [Queued s (Some id) bytes]) st.
Proof.
  intros [Hids Hnx Hfr Hw [Hna Haid] Hrep Hd Hresp] Hs Hq Hid Hnew Hby.
  assert (Hsub : subs (tr ++ [Queued s (Some id) bytes]) = subs tr) by (by rewrite subs_app, app_nil_r).
  split; unfold ids, answers; rewrite ?Hsub; try done.
  - intros s' Hs'. apply silent_snoc; [by apply Hfr|]. simpl. intros [= ->]. lia.
  - intros s'. rewrite queued_of_app, wire_of_app. simpl. rewrite !app_nil_r.
    by apply prefix_app_r.
  - rewrite answered_app. simpl. split.
    + apply NoDup_app. split; [done|]. split; [|apply NoDup_singleton].
      intros x Hx ->%list_elem_of_singleton. done.
    + apply Forall_app. split; [done|]. apply Forall_singleton.
      apply list_elem_of_fmap. exists (s, q). done.
  - intros s' id' b [Hin|Hin%list_elem_of_singleton]%elem_of_app; [by apply Hrep|].
    injection Hin as -> -> ->. exists q, d, cl. done.
  - destruct Hd as (done & Hd & Htx). exists done. split; [done|]. rewrite transmits_app, Htx. simpl.
    by rewrite app_nil_r.
Qed.

(** ** Reading and writing *)

(** [c'] is [c] but for what it has received. *)
Definition received (c c' : Connection) : Prop :=
  stream c' = stream c /\ state c' = state c /\ pending_request_id c' = pending_request_id c /\
  send_buf c' = send_buf c /\ send_pos c' = send_pos c.

Lemma set_recv_ok tr r c :
  conn_ok tr c -> state c = Reading -> recv_inv r -> (length (recv_buf r) <= MAX_REQUEST_SIZE)%nat ->
  conn_ok tr (set_recv r c).
Proof. intros [] Hs Hr Hl. split; simpl; try done. by rewrite Hs in *. Qed.

Lemma read_loop_spec tr bs e : forall c, conn_ok tr c -> state c = Reading ->
  let '(c', r) := read_loop bs e c in
  received c c' /\
  (r = Ok true -> conn_ok tr c' /\ recv_buf (recv c') = recv_buf (recv c) ++ mjoin bs).
Proof.
  induction bs as [|b bs IH]; intros c Hc Hs; cbn [read_loop].
  { split; [done|]. intros _. split; [done|]. simpl. by rewrite app_nil_r. }
  destruct (Nat.ltb_spec MAX_REQUEST_SIZE (length (recv_buf (recv (set_recv (extend b (recv c)) c)))))
    as [Hlt|Hge]; [by split|].
  assert (Hc' : conn_ok tr (set_recv (extend b (recv c)) c)).
  { apply set_recv_ok; [done|done| |done]. apply extend_inv, Hc. }
  specialize (IH _ Hc' Hs). destruct (read_loop bs e _) as [c' r].
  destruct IH as [Hrc Hok]. split; [done|]. intros Hr. destruct (Hok Hr) as [Hc2 Hb]. split; [done|].
  rewrite Hb. simpl. by rewrite <- app_assoc.
Qed.

Lemma connection_complete_ok tr c :
  conn_ok tr c -> state c = Reading ->
  (connection_complete c).1 = is_complete (recv_buf (recv c)) /\
  conn_ok tr (connection_complete c).2 /\ received c (connection_complete c).2 /\
  recv_buf (recv (connection_complete c).2) = recv_buf (recv c).
Proof.
  intros Hc Hs. unfold connection_complete.
  destruct (is_request_complete_spec (recv c) (c_recv _ _ Hc)) as (Hb & Hi & Hbuf).
  destruct (is_request_complete (recv c)) as [b r]. simpl in *.
  split; [done|]. split; [|done]. apply set_recv_ok; [done|done|done|]. rewrite Hbuf. apply Hc.
Qed.

(** A write moves the position over the bytes that went out. *)
Lemma write_loop_spec ns e : forall c,
  let '(out, c', r) := write_loop ns e c in
  (exists n, c' = set_send_pos n c) /\
  drop (send_pos c) (send_buf c) = out ++ drop (send_pos c') (send_buf c).
Proof.
  induction ns as [|n ns IH]; intros c; cbn [write_loop].
  - destruct (_ <? _)%nat; (split; [exists (send_pos c); by destruct c|done]).
  - destruct (_ <? _)%nat; [|split; [exists (send_pos c); by destruct c|done]].
    specialize (IH (set_send_pos (send_pos c + n) c)).
    destruct (write_loop ns e _) as [[out c'] r]. destruct IH as [[k ->] IH]. simpl in *.
    split; [by exists k|]. rewrite <- app_assoc, <- IH, <- drop_drop. by rewrite take_drop.
Qed.

(** After the write the connection is removed or in order. *)
Lemma after_write_ok tr c c' r out :
  conn_ok tr c -> state c = Writing -> (exists n, c' = set_send_pos n c) ->
  drop (send_pos c) (send_buf c) = out ++ drop (send_pos c') (send_buf c) ->
  let tr' := tr ++ [Wire (stream c) out] in
  conn_ok tr' c' /\
  ((after_write c' r).1 = false -> conn_ok tr' (after_write c' r).2) /\
  stream (after_write c' r).2 = stream c.
Proof.
  intros Hc Hs [n ->] Hd tr'. pose proof (c_state _ _ Hc) as Hst. rewrite Hs in Hst. simpl in Hd.
  assert (Hwire : queued_of (stream c) tr' = wire_of (stream c) tr' ++ drop n (send_buf c)).
  { unfold tr'. rewrite queued_of_app, wire_of_app, (c_wire _ _ Hc), Hd. cbn.
    rewrite decide_True by done. by rewrite !app_nil_r, app_assoc. }
  assert (Hok : conn_ok tr' (set_send_pos n c)).
  { destruct Hc. split; simpl in *; try done. congruence. }
  split; [done|]. unfold after_write. destruct r; [|done].
  destruct (is_response_sent _) eqn:Hsent; [|done]. simpl. destruct (should_close c); [done|].
  split; [|done]. intros _. unfold is_response_sent in Hsent. simpl in Hsent.
  split; simpl; try done.
  - split; [done|]. simpl. intros j Hj. lia.
  - lia.
  - rewrite Hwire, drop_ge; [done|]. by apply Nat.leb_le.
Qed.

End invariant.

(** ** Handlers *)

Section handlers.
Context {Value : Type} (null : Value).
Context (from_value : Value -> Result SendTransactionParams str).
Context (from_slice : list Z -> Result (JsonRpcRequest (Value := Value)) str).
Context (to_vec : JsonRpcResponse (Value := Value) -> list Z).
Abbreviation server := (Server (Value := Value)).
Implicit Types st : server.
Implicit Types tr : list (event (Value := Value)).

(** The counter before it wraps around. *)
Lemma next_id n : 0 < n < U64 -> wrapping_add64 n 1 <> 0 -> wrapping_add64 n 1 = n + 1 /\ n + 1 < U64.
Proof.
  unfold wrapping_add64. intros Hn Hw. destruct (Z.eq_dec (n + 1) U64) as [He|Hne].
  - rewrite He, Z_mod_same_full in Hw. done.
  - rewrite Z.mod_small in * by lia. lia.
Qed.

Lemma handle_request_spec tr buf token st r st' :
  trace_ok tr st -> handle_request from_value from_slice buf token st = (r, st') ->
  next_request_id st' <> 0 ->
  pool st' = pool st /\
  match r with
  | Ok (q, _) =>
      q_request_id q = next_request_id st /\ q_token q = token /\
      next_request_id st < next_request_id st' < U64 /\ next_stream st' = next_stream st /\
      requests st' = requests st ++ [q] /\ responses st' = responses st
  | Err _ => same_or_next st st'
  end.
Proof.
  intros Ht Hh Hnz. pose proof (t_next _ _ Ht) as Hn.
  assert (Hsame : same_or_next st st) by (unfold same_or_next; split; [lia|done]).
  revert Hh. unfold handle_request. destruct (parse buf) as [http|]; [|by intros [= <- <-]].
  case_bool_decide; simpl; [|by intros [= <- <-]].
  destruct (from_slice _) as [rpc|]; [|by intros [= <- <-]].
  destruct (from_rpc_request _ rpc) as [parsed|]; [|by intros [= <- <-]].
  unfold send_request. simpl. destruct (worker_gone st); intros [= <- <-]; simpl in *;
    destruct (next_id _ Hn Hnz) as [He Hlt]; (split; [done|]).
  - unfold same_or_next. simpl. split; [lia|done].
  - repeat (split; [done|]). split; [lia|done].
Qed.

(** What one phase of a handler does to a connection and to the history, and
    whether the connection is to be removed. *)
Record phase (tr : list (event (Value := Value))) (c : Connection) st evs (remove : bool)
    (c' : Connection) st' : Prop := {
  f_trace : trace_ok (tr ++ evs) st';
  f_conn : remove = false -> conn_ok (tr ++ evs) c';
  f_stream : stream c' = stream c;
  f_local : Forall (fun e => stream_of e = Some (stream c)) evs;
  f_answered : forall id, id ∈ answered evs -> pending_request_id c = Some id;
  f_pool : pool st' = pool st;
  f_next : next_stream st' = next_stream st;
}.

Lemma error_conn_ok tr c response :
  conn_ok tr c -> state c = Reading ->
  conn_ok (tr ++ [Queued (stream c) None response]) (queue_response response c).
Proof.
  intros [Hr Hz Hs Hp Hw] Hst. rewrite Hst in Hs. destruct Hs as [Hpn Hsb]. split; simpl; try done.
  - intros id. by rewrite Hpn.
  - rewrite queued_of_app, wire_of_app, Hw, Hsb, drop_nil. cbn. rewrite decide_True by done.
    by rewrite !app_nil_r.
Qed.

Lemma submitted_conn_ok tr c q close :
  conn_ok tr c -> state c = Reading -> q_request_id q ∉ answered tr ->
  conn_ok (tr ++ [Submitted (stream c) q]) (submitted (q_request_id q) close c).
Proof.
  intros [Hr Hz Hs Hp Hw] Hst Hna. rewrite Hst in Hs. destruct Hs as [Hpn Hsb]. split; simpl; try done.
  - split; [done|]. simpl. intros j Hj. lia.
  - lia.
  - intros id [= <-]. rewrite answered_app. simpl. rewrite app_nil_r. split; [done|].
    exists q. split; [|done]. rewrite subs_app. apply elem_of_app. right. by apply list_elem_of_singleton.
  - rewrite queued_of_app, wire_of_app, Hw. simpl. by rewrite !app_nil_r.
Qed.

Lemma on_request_phase tr token d c st :
  trace_ok tr st -> conn_ok tr c -> state c = Reading -> (stream c < next_stream st)%nat ->
  let '(evs, c', st') := on_request null from_value from_slice to_vec token d c st in
  next_request_id st' <> 0 -> phase tr c st evs false c' st'.
Proof.
  intros Ht Hc Hs Hlt. unfold on_request.
  destruct (handle_request _ _ _ _ _) as [[[q close]|e] st'] eqn:Hh; intros Hnz;
    destruct (handle_request_spec _ _ _ _ _ _ Ht Hh Hnz) as [Hpool H].
  - destruct H as (Hq & _ & Hn & Hst & Hrq & Hrs).
    destruct (trace_submit _ _ _ (stream c) q Ht Hlt Hq Hn Hst Hrq Hrs) as [Ht' Hna].
    split; try done; [intros _; by apply submitted_conn_ok|by apply Forall_singleton|].
    intros id Hin. by apply elem_of_nil in Hin.
  - split; try done; [|intros _; by apply error_conn_ok|by apply Forall_singleton| |apply H].
    + eapply trace_neutral; try done. rewrite queued_of_app, wire_of_app. cbn.
      rewrite !app_nil_r. apply prefix_app_r, (t_wire _ _ Ht).
    + intros id Hin. by apply elem_of_nil in Hin.
Qed.

Lemma phase_none tr c st remove c' :
  trace_ok tr st -> (remove = false -> conn_ok tr c') -> stream c' = stream c ->
  phase tr c st [] remove c' st.
Proof.
  intros Ht Hc Hs. split; rewrite ?app_nil_r; try done. intros id Hin. by apply elem_of_nil in Hin.
Qed.

Lemma on_readable_phase tr token ev c st :
  trace_ok tr st -> conn_ok tr c -> (stream c < next_stream st)%nat ->
  let '(remove, evs, c', st') := on_readable null from_value from_slice to_vec token ev c st in
  next_request_id st' <> 0 -> phase tr c st evs remove c' st'.
Proof.
  intros Ht Hc Hlt. unfold on_readable. destruct (readable ev); simpl; [|by intros; apply phase_none].
  case_bool_decide as Hs; [|by intros; apply phase_none].
  pose proof (read_loop_spec tr (chunks (io_reads ev)) (reads_end (io_reads ev)) c Hc Hs) as Hrd.
  unfold try_read. destruct (read_loop _ _ c) as [c1 r]. destruct Hrd as [(Hst1 & Hs1 & _) Hok].
  destruct r as [[]|]; try (intros _; by apply phase_none).
  destruct (Hok eq_refl) as [Hc1 _]. rewrite Hs in Hs1.
  destruct (connection_complete_ok tr c1 Hc1 Hs1) as (_ & Hc2 & (Hst2 & Hs2 & _) & _).
  destruct (connection_complete c1) as [complete c2]. simpl in *.
  destruct (complete && _) eqn:Hb; [|intros _; apply phase_none; [done|done|congruence]].
  pose proof (on_request_phase tr token (date ev) c2 st Ht Hc2) as Hph.
  destruct (on_request _ _ _ _ _ _ _ _) as [[evs c'] st']. intros Hnz.
  destruct Hph as [H1 H2 H3 H4 H5 H6 H7]; [congruence|congruence|done|].
  pose proof (c_state _ _ Hc2) as Hpn. rewrite Hs2, Hs1 in Hpn. destruct Hpn as [Hpn _].
  split; try done; [congruence|by rewrite <- Hst1, <- Hst2|].
  intros id Hin. apply H5 in Hin. congruence.
Qed.

(** Something to send means that the connection is writing. *)
Lemma sending tr c : conn_ok tr c -> send_buf c <> [] -> state c = Writing.
Proof.
  intros Hc Hne. pose proof (c_state _ _ Hc) as Hs. destruct (state c); [|by destruct Hs as (_ & ? & _)|done].
  by destruct Hs as [_ ?].
Qed.

(** The bytes of a connection that the stream takes. *)
Lemma trace_wire tr st c out rest :
  trace_ok tr st -> conn_ok tr c -> (stream c < next_stream st)%nat ->
  drop (send_pos c) (send_buf c) = out ++ rest -> trace_ok (tr ++ [Wire (stream c) out]) st.
Proof.
  intros Ht Hc Hlt Hd. eapply trace_neutral; try done.
  - pose proof (t_next _ _ Ht). unfold same_or_next. split; [lia|done].
  - rewrite queued_of_app, wire_of_app, (c_wire _ _ Hc), Hd. cbn. rewrite decide_True by done.
    rewrite !app_nil_r, app_assoc. apply prefix_app_r. done.
Qed.

Lemma on_writable_phase tr ev c st :
  trace_ok tr st -> conn_ok tr c -> (stream c < next_stream st)%nat ->
  let '(remove, evs, c') := on_writable ev c in phase tr c st evs remove c' st.
Proof.
  intros Ht Hc Hlt. unfold on_writable. destruct (writable ev); simpl; [|by apply phase_none].
  case_bool_decide as Hb; simpl; [by apply phase_none|].
  pose proof (sending _ _ Hc Hb) as Hs.
  pose proof (write_loop_spec (counts (io_writes ev)) (writes_end (io_writes ev)) c) as Hw.
  unfold try_write. destruct (write_loop _ _ c) as [[out c1] r]. destruct Hw as [[n ->] Hd].
  destruct (after_write_ok tr c _ r out Hc Hs ltac:(by exists n) Hd) as (_ & Hok & Hst).
  destruct (after_write _ r) as [remove c'] eqn:Haw. simpl in *. split; try done.
  - by eapply trace_wire.
  - by apply Forall_singleton.
  - intros id Hin. by apply elem_of_nil in Hin.
Qed.

Lemma phase_trans tr c st evs c1 st1 evs' remove c2 :
  phase tr c st evs false c1 st1 -> phase (tr ++ evs) c1 st1 evs' remove c2 st1 ->
  answered evs' = [] -> phase tr c st (evs ++ evs') remove c2 st1.
Proof.
  intros [H1 H2 H3 H4 H5 H6 H7] [K1 K2 K3 K4 K5 K6 K7] Ha.
  split; try done; rewrite ?app_assoc; try done; try congruence.
  - apply Forall_app. split; [done|]. by rewrite <- H3.
  - rewrite answered_app, Ha, app_nil_r. done.
Qed.

(** ** The pool *)

Lemma trace_ok_set_pool tr p st : trace_ok tr (set_pool p st) <-> trace_ok tr st.
Proof. split; intros []; split; done. Qed.

Lemma pool_get_lookup i p c : pool_get i p = Some c <-> connections p !! i = Some (Some c).
Proof. unfold pool_get. destruct (connections p !! i) as [[c'|]|]; split; congruence. Qed.

Lemma connections_set i c c0 p :
  connections p !! i = Some (Some c0) -> connections (pool_set i c p) = <[i := Some c]> (connections p).
Proof.
  intros Hi. unfold pool_set. rewrite (proj2 (Nat.ltb_lt _ _)); [done|]. by eapply lookup_lt_Some.
Qed.

(** Giving a new value to an occupied slot. *)
Lemma slots_ok_set i c c0 p : connections p !! i = Some (Some c0) -> slots_ok p -> slots_ok (pool_set i c p).
Proof.
  intros Hi Hs. pose proof (connections_set i c c0 p Hi) as Hcs. revert Hcs. unfold pool_set.
  destruct (_ <? _)%nat; [|done]. simpl. intros _. destruct Hs as [Hnd Hfr Hrec].
  split; simpl; try done. intros j. rewrite Hfr. destruct (decide (j = i)) as [->|Hne].
  - rewrite list_lookup_insert_eq by (by eapply lookup_lt_Some). rewrite Hi. split; congruence.
  - by rewrite list_lookup_insert_ne.
Qed.

(** Removing an occupied slot makes it free. *)
Lemma slots_ok_remove i c p : connections p !! i = Some (Some c) -> slots_ok p ->
  slots_ok (pool_remove i p) /\ connections (pool_remove i p) = <[i := None]> (connections p).
Proof.
  intros Hi [Hnd Hfr [Hrec Hlen]]. assert (Hlt : (i < length (connections p))%nat) by (by eapply lookup_lt_Some).
  unfold pool_remove. rewrite (proj2 (Nat.ltb_lt _ _) Hlt), Hi. split; [|done]. split; simpl.
  - apply NoDup_app. split; [done|]. split; [|apply NoDup_singleton].
    intros x Hx ->%list_elem_of_singleton. apply Hfr in Hx. congruence.
  - intros j. rewrite elem_of_app, Hfr, list_elem_of_singleton.
    destruct (decide (j = i)) as [->|Hne].
    + rewrite list_lookup_insert_eq by done. split; [done|]. by right.
    + rewrite list_lookup_insert_ne by done. split; [by intros [?|?]|by left].
  - destruct (Nat.ltb_spec (length (recycled_buffers p)) 64); [|done]. split.
    + apply Forall_app. split; [done|]. by apply Forall_singleton.
    + rewrite length_app. simpl. lia.
Qed.

(** A phase of one connection, with the connection written back or removed. *)
Lemma inv_put_back tr st i c evs remove c' st' :
  inv tr st -> connections (pool st) !! i = Some (Some c) -> phase tr c st evs remove c' st' ->
  inv (tr ++ evs) (put_back i c' remove st').
Proof.
  intros [Ht Hsl Hcn Hst] Hi [K1 K2 K3 K4 K5 K6 K7].
  assert (Hset : connections (pool_set i c' (pool st')) !! i = Some (Some c')).
  { rewrite K6, (connections_set _ _ _ _ Hi). apply list_lookup_insert_eq. by eapply lookup_lt_Some. }
  assert (Hsl1 : slots_ok (pool_set i c' (pool st'))) by (rewrite K6; by eapply slots_ok_set).
  destruct (slots_ok_remove _ _ _ Hset Hsl1) as [Hsl2 Hcr].
  set (p := pool (put_back i c' remove st')).
  assert (Hp : slots_ok p /\ connections p = <[i := if remove then None else Some c']> (connections (pool st))).
  { unfold p, put_back. destruct remove; simpl.
    - split; [done|]. rewrite Hcr, K6, (connections_set _ _ _ _ Hi), list_insert_insert_eq. done.
    - split; [done|]. by rewrite K6, (connections_set _ _ _ _ Hi). }
  destruct Hp as [Hslp Hcp].
  assert (Hother : forall j cj, j <> i -> connections (pool st) !! j = Some (Some cj) ->
            conn_ok (tr ++ evs) cj /\ (stream cj < next_stream st)%nat).
  { intros j cj Hne Hj. destruct (Hcn _ _ Hj) as [Hok Hlt]. split; [|done].
    assert (Hsne : stream c <> stream cj) by (intros He; apply Hne; by eapply Hst).
    apply conn_ok_frame; [done| |].
    - eapply Forall_impl; [exact K4|]. simpl. congruence.
    - intros id Hid Hin. apply K5 in Hin. destruct (Hcn _ _ Hi) as [Hci _].
      destruct (c_pending _ _ Hok _ Hid) as (_ & q & Hq & He).
      destruct (c_pending _ _ Hci _ Hin) as (_ & q' & Hq' & He').
      destruct (ids_inj _ _ _ _ _ _ Ht Hq Hq'); congruence. }
  assert (Hnx : next_stream (put_back i c' remove st') = next_stream st).
  { unfold put_back. by destruct remove. }
  split; fold p; rewrite ?Hcp, ?Hnx; try done.
  - unfold put_back. destruct remove; by rewrite ?trace_ok_set_pool.
  - intros j cj Hj. destruct (decide (j = i)) as [->|Hne].
    + rewrite list_lookup_insert_eq in Hj by (by eapply lookup_lt_Some).
      destruct remove; simplify_eq. split; [by apply K2|]. rewrite K3. by apply Hcn with (1 := Hi).
    + rewrite list_lookup_insert_ne in Hj by done. by eapply Hother.
  - assert (Hold : forall j cj, <[i := if remove then None else Some c']> (connections (pool st)) !! j
                     = Some (Some cj) ->
              exists cj0, connections (pool st) !! j = Some (Some cj0) /\ stream cj = stream cj0).
    { intros j cj Hj. destruct (decide (j = i)) as [->|Hne].
      - rewrite list_lookup_insert_eq in Hj by (by eapply lookup_lt_Some).
        destruct remove; simplify_eq. eauto.
      - rewrite list_lookup_insert_ne in Hj by done. eauto. }
    intros j k cj ck (cj0 & Hj & Ej)%Hold (ck0 & Hk & Ek)%Hold He. eapply Hst; [done|done|congruence].
Qed.

(** ** Steps *)

Lemma put_back_next i c remove st : next_request_id (put_back i c remove st) = next_request_id st.
Proof. unfold put_back. by destruct remove. Qed.

Lemma client_event_inv tr token ev st :
  inv tr st ->
  let '(evs, st') := client_event null from_value from_slice to_vec token ev st in
  next_request_id st' <> 0 -> inv (tr ++ evs) st'.
Proof.
  intros HI. unfold client_event.
  destruct (pool_get (token - 1) (pool st)) as [c|] eqn:Hg; [|by rewrite app_nil_r].
  apply pool_get_lookup in Hg. destruct (v_conn _ _ HI _ _ Hg) as [Hc Hlt].
  pose proof (on_readable_phase tr token ev c st (v_trace _ _ HI) Hc Hlt) as Hr.
  destruct (on_readable _ _ _ _ _ _ _ _) as [[[remove evs] c1] st1].
  destruct remove.
  - rewrite put_back_next, app_nil_r. intros Hnz. eapply inv_put_back; [done|done|by apply Hr].
  - destruct (on_writable ev c1) as [[remove evs'] c2] eqn:How. rewrite put_back_next. intros Hnz.
    specialize (Hr Hnz). pose proof (on_writable_phase (tr ++ evs) ev c1 st1 (f_trace _ _ _ _ _ _ _ Hr)) as Hw.
    rewrite How in Hw. eapply inv_put_back; [done|done|]. eapply phase_trans; [exact Hr| |].
    + apply Hw; [by apply Hr|]. by rewrite (f_stream _ _ _ _ _ _ _ Hr), (f_next _ _ _ _ _ _ _ Hr).
    + revert How. unfold on_writable. destruct (_ && _); [|by intros [= _ <- _]].
      destruct (try_write _ _) as [[out c3] r]. destruct (after_write _ _). by intros [= _ <- _].
Qed.

(** A response that matches the pending request of a connection. *)
Lemma deliver_phase tr w d r c st :
  trace_ok tr st -> conn_ok tr c -> (stream c < next_stream st)%nat ->
  pending_request_id c = Some (r_request_id r) -> answers tr r ->
  let '(http_response, json) := create_response d r (should_close c) in
  let c1 := {| stream := stream c; recv := recv c; send_buf := http_response; json_buf := json;
               send_pos := 0; pending_request_id := None; state := Writing;
               should_close := should_close c |} in
  let '(out, c2, res) := try_write w c1 in
  let '(remove, c3) := after_write c2 res in
  phase tr c st [Queued (stream c) (Some (r_request_id r)) http_response; Wire (stream c) out] remove c3 st.
Proof.
  intros Ht Hc Hlt Hp (s & q & Hq & ->).
  destruct (create_response _ _ _) as [http_response json] eqn:Hcr. intros c1.
  assert (Hid : r_request_id (process_request q).1 = q_request_id q).
  { unfold process_request. by case_bool_decide. }
  rewrite Hid in *. destruct (c_pending _ _ Hc _ Hp) as (Hna & q' & Hq' & He).
  destruct (ids_inj _ _ _ _ _ _ Ht Hq Hq') as [-> <-]; [done|].
  set (tr1 := tr ++ [Queued (stream c) (Some (q_request_id q)) http_response]).
  assert (Ht1 : trace_ok tr1 st).
  { eapply (trace_reply _ _ _ _ q _ d (should_close c)); try done. by rewrite Hcr. }
  assert (Hs : send_buf c = []).
  { pose proof (c_state _ _ Hc) as Hs. destruct (state c); [by destruct Hs|by destruct Hs as (_ & ? & _)|congruence]. }
  assert (Hc1 : conn_ok tr1 c1).
  { destruct Hc as [Hr Hz _ _ Hw]. split; simpl; try done.
    unfold tr1. rewrite queued_of_app, wire_of_app, Hw, Hs, drop_nil. cbn.
    rewrite decide_True by done. by rewrite !app_nil_r. }
  pose proof (write_loop_spec (counts w) (writes_end w) c1) as Hw.
  unfold try_write. destruct (write_loop _ _ c1) as [[out c2] res]. destruct Hw as [[n ->] Hd].
  destruct (after_write_ok tr1 c1 _ res out Hc1 eq_refl ltac:(by exists n) Hd) as (_ & Hok & Hst).
  destruct (after_write _ res) as [remove c3]. simpl in Hok, Hst.
  assert (Htr : tr ++ [Queued (stream c) (Some (q_request_id q)) http_response; Wire (stream c) out]
                = tr1 ++ [Wire (stream c1) out]) by (unfold tr1; by rewrite <- app_assoc).
  split; rewrite ?Htr; try done.
  - by eapply (trace_wire tr1 st c1).
  - by repeat constructor.
  - simpl. by intros id ->%list_elem_of_singleton.
Qed.

Lemma deliver_inv tr w d r st :
  inv tr st -> answers tr r ->
  inv (tr ++ (deliver (Value := Value) w d r st).1) (deliver w d r st).2.
Proof.
  intros HI Ha. unfold deliver.
  destruct (pool_get (r_token r - 1) (pool st)) as [c|] eqn:Hg; [|simpl; by rewrite app_nil_r].
  apply pool_get_lookup in Hg. destruct (v_conn _ _ HI _ _ Hg) as [Hc Hlt].
  case_bool_decide as Hp; [|simpl; by rewrite app_nil_r].
  pose proof (deliver_phase tr w d r c st (v_trace _ _ HI) Hc Hlt Hp Ha) as Hph.
  destruct (create_response _ _ _) as [http_response json]. simpl in *.
  destruct (try_write _ _) as [[out c2] res]. destruct (after_write c2 res) as [remove c3].
  simpl. by eapply inv_put_back.
Qed.

End handlers.
