(* ===== verification/ServerRun.v ===== *)
(** * ServerRun: the server over every sequence of steps

    The remaining steps of the server (delivery of a batch, a new connection, a
    round of the worker) keep the invariant of [ServerSpec], so every reachable
    state has it; the theorems about clients, requests, the sender and the
    connection pool follow. *)
From S2P Require Import Prelude Str Request Http Server ServerSpec.

Set Default Proof Using "Type".

Section steps.
Context {Value : Type}.
Implicit Types st : Server (Value := Value).
Implicit Types tr evs : list (event (Value := Value)).

(** ** Delivery of a batch *)

Lemma answers_app tr evs r : answers tr r -> answers (tr ++ evs) r.
Proof.
  intros (s & q & Hq & ->). exists s, q. split; [|done]. rewrite subs_app. apply elem_of_app. by left.
Qed.

Lemma deliver_all_inv ws d rs : forall tr st,
  inv tr st -> Forall (answers tr) rs ->
  inv (tr ++ (deliver_all (Value := Value) ws d rs st).1) (deliver_all ws d rs st).2.
Proof.
  revert ws. induction rs as [|r rs IH]; intros ws tr st HI Ha; cbn [deliver_all].
  { simpl. by rewrite app_nil_r. }
  apply Forall_cons in Ha as [Hr Hrs]. set (w := default _ _).
  pose proof (deliver_inv tr w d r st HI Hr) as HI1.
  destruct (deliver w d r st) as [evs st1]. simpl in HI1.
  specialize (IH (tail ws) _ _ HI1). destruct (deliver_all (tail ws) d rs st1) as [evs' st2].
  simpl in *. rewrite app_assoc. apply IH. eapply Forall_impl; [exact Hrs|]. intros r'. apply answers_app.
Qed.

(** Two states that differ in the queues only. *)
Lemma inv_queues tr st st' evs :
  inv tr st -> trace_ok (tr ++ evs) st' -> pool st' = pool st -> next_stream st' = next_stream st ->
  (forall s, silent s evs) -> answered evs = [] -> inv (tr ++ evs) st'.
Proof.
  intros [Ht Hs Hc Hst] Ht' Hp Hn Hsil Ha. split; rewrite ?Hp, ?Hn; try done.
  intros i c Hi. destruct (Hc _ _ Hi) as [Hok Hlt]. split; [|done].
  apply conn_ok_frame; [done|apply Hsil|]. intros id _. rewrite Ha. apply not_elem_of_nil.
Qed.

Lemma deliver_some_inv tr n ws d st :
  inv tr st -> inv (tr ++ (deliver_some (Value := Value) n ws d st).1) (deliver_some n ws d st).2.
Proof.
  intros HI. unfold deliver_some. pose proof (t_responses _ _ (v_trace _ _ HI)) as Hr.
  rewrite <- (take_drop n (responses st)) in Hr. apply Forall_app in Hr as [Hr1 Hr2].
  apply deliver_all_inv; [|done]. rewrite <- (app_nil_r tr). apply (inv_queues tr st); try done.
  - rewrite app_nil_r. destruct (v_trace _ _ HI). split; done.
  - intros s. apply Forall_nil_2.
Qed.

(** ** A new connection *)

Lemma vec_pop_snoc {A} (l : list A) x r : vec_pop l = Some (x, r) -> l = r ++ [x].
Proof.
  unfold vec_pop. destruct l as [|y l _] using rev_ind; [done|].
  rewrite last_snoc, length_app, Nat.add_sub, take_app_length. by intros [= <- <-].
Qed.

(** The slot that is allocated is empty, and is no longer in the free list. *)
Lemma alloc_empty_spec (p : ConnectionPool) :
  slots_ok p ->
  let '(idx, p') := alloc_empty p in
  connections p' !! idx = Some None /\ NoDup (free_slots p') /\
  (forall i, i ∈ free_slots p' <-> i <> idx /\ connections p' !! i = Some None) /\
  (forall i c, connections p' !! i = Some (Some c) <-> connections p !! i = Some (Some c)) /\
  recycled_buffers p' = recycled_buffers p.
Proof.
  intros [Hnd Hfr _]. unfold alloc_empty. destruct (vec_pop (free_slots p)) as [[idx rest]|] eqn:Hv.
  - apply vec_pop_snoc in Hv. rewrite Hv in *. apply NoDup_app in Hnd as (Hnd & Hx & _).
    split; [apply Hfr, elem_of_app; right; by apply list_elem_of_singleton|].
    split; [done|]. split; [|done]. intros i. simpl. rewrite <- Hfr, elem_of_app, list_elem_of_singleton.
    split; [|tauto]. intros Hi. split; [|by left]. intros ->. by eapply Hx, list_elem_of_singleton.
  - split; [simpl; by rewrite lookup_app_r, Nat.sub_diag|]. split; [done|]. simpl.
    assert (Hfree : free_slots p = []).
    { unfold vec_pop in Hv. destruct (last (free_slots p)) eqn:Hl; [done|]. by apply last_None. }
    split; [|split; [|done]].
    + intros i. rewrite Hfr, lookup_app. destruct (connections p !! i) eqn:Hi.
      * split; [|tauto]. intros ->. apply lookup_lt_Some in Hi. split; [lia|done].
      * split; [done|]. intros [Hne Hl]. apply lookup_lt_Some in Hl. simpl in Hl.
        apply lookup_ge_None in Hi. lia.
    + intros i c. rewrite lookup_app. destruct (connections p !! i) eqn:Hi; [done|].
      split; [|done]. rewrite list_lookup_singleton_Some. by intros [_ ?].
Qed.

(** A connection starts empty, on recycled buffers or on its own. *)
Lemma create_connection_new s (p : ConnectionPool) :
  Forall (fun r => r = {| recycled_recv := []; recycled_send := []; recycled_json := [] |})
    (recycled_buffers p) -> (length (recycled_buffers p) <= 64)%nat ->
  (create_connection s p).1 = connection_new s /\
  connections (create_connection s p).2 = connections p /\ free_slots (create_connection s p).2 = free_slots p /\
  Forall (fun r => r = {| recycled_recv := []; recycled_send := []; recycled_json := [] |})
    (recycled_buffers (create_connection s p).2) /\
  (length (recycled_buffers (create_connection s p).2) <= 64)%nat.
Proof.
  intros Hr Hl. unfold create_connection.
  destruct (vec_pop (recycled_buffers p)) as [[r rest]|] eqn:Hv; [|done].
  apply vec_pop_snoc in Hv. rewrite Hv in Hr, Hl. rewrite length_app in Hl. simpl in Hl.
  apply Forall_app in Hr as [Hr Hx]. apply Forall_cons in Hx as [Hx _]. simpl in *. rewrite Hx. split; [done|].
  do 3 (split; [done|]). lia.
Qed.

Lemma connection_new_ok tr s : silent s tr -> conn_ok tr (connection_new s).
Proof.
  intros Hs. destruct (silent_of _ _ Hs) as [Hq Hw].
  split; simpl; try done; [split; [done|]; simpl; intros j Hj; lia|lia|by rewrite Hq, Hw].
Qed.

Lemma accept_inv tr st : inv tr st -> inv tr (accept st).2.
Proof.
  intros [Ht Hs Hc Hst]. unfold accept. pose proof (alloc_empty_spec _ Hs) as Ha.
  destruct (alloc_empty (pool st)) as [idx p]. destruct Ha as (Hi & Hnd & Hfr & Hco & Hrb).
  destruct (create_connection_new (next_stream st) p) as (Hn & Hcp & Hfp & Hrp & Hlp);
    [rewrite Hrb; apply Hs..|].
  destruct (create_connection _ p) as [c p']. simpl in *. subst c. rewrite <- Hcp in *.
  assert (Hlt : (idx < length (connections p'))%nat) by (by eapply lookup_lt_Some).
  unfold pool_set. rewrite (proj2 (Nat.ltb_lt _ _) Hlt).
  assert (Hother : forall i c, <[idx := Some (connection_new (next_stream st))]> (connections p') !! i
             = Some (Some c) ->
           (i = idx /\ c = connection_new (next_stream st)) \/
           connections (pool st) !! i = Some (Some c)).
  { intros i c. destruct (decide (i = idx)) as [->|Hne].
    - rewrite list_lookup_insert_eq by done. intros [= <-]. by left.
    - rewrite list_lookup_insert_ne by done. right. by apply Hco. }
  split; simpl.
  - destruct Ht as [? ? Hf]. split; simpl; try done. intros s Hle. apply Hf. lia.
  - split; simpl; [by rewrite Hfp| |done]. intros i. rewrite Hfp, Hfr.
    destruct (decide (i = idx)) as [->|Hne].
    + rewrite list_lookup_insert_eq by done. split; [by intros []|done].
    + rewrite list_lookup_insert_ne by done. split; [by intros []|done].
  - intros i c [[-> ->]|Hold]%Hother.
    + split; [|simpl; lia]. apply connection_new_ok, (t_fresh _ _ Ht). done.
    + destruct (Hc _ _ Hold). split; [done|lia].
  - intros i j c c' [[-> ->]|Hi']%Hother [[-> ->]|Hj]%Hother He; simpl in He; try done.
    + destruct (Hc _ _ Hj). lia.
    + destruct (Hc _ _ Hi'). lia.
    + by eapply Hst.
Qed.

(** ** A round of the worker *)

(** What the worker does with a request is seen by no stream. *)
Lemma transmitted_silent (l : list (QueuedRequest (Value := Value))) :
  let evs := l ≫= (fun q => (process_request q).2) in
  (forall s, silent s evs) /\ subs evs = [] /\ answered evs = [] /\ transmits evs = evs /\
  (forall s id b, Queued s id b ∉ evs).
Proof.
  intros evs.
  assert (Hall : Forall (fun e => exists id tx f, e = Transmit id tx f) evs).
  { apply Forall_forall. intros e (q & He & _)%list_elem_of_bind. unfold process_request in He.
    case_bool_decide; simpl in He; [by apply elem_of_nil in He|].
    apply list_elem_of_singleton in He. eauto. }
  clearbody evs. unfold silent, transmits. induction Hall as [|e evs' (id & tx & f & ->) _ IH].
  { split; [intros; apply Forall_nil_2|]. repeat (split; [done|]). intros. apply not_elem_of_nil. }
  destruct IH as (Hs & Hsub & Ha & Ht & Hq). split; [|split; [done|split; [done|split]]].
  - intros s. apply Forall_cons. split; [done|apply Hs].
  - rewrite filter_cons_True by done. by rewrite Ht.
  - intros s i b. rewrite elem_of_cons. intros [?|?]; [done|]. by eapply Hq.
Qed.

Lemma worker_take_inv tr n st :
  inv tr st -> inv (tr ++ (worker_take n st).1) (worker_take n st).2.
Proof.
  intros HI. unfold worker_take. simpl. set (batch := take n (requests st)).
  assert (Hb : (process_request <$> batch) ≫= snd = batch ≫= (fun q => (process_request q).2)).
  { clear. induction batch as [|q l IH]; [done|]. cbn. by rewrite IH. }
  rewrite Hb. destruct (transmitted_silent batch) as (Hs & Hsub & Ha & Htx & Hq).
  set (evs := batch ≫= _) in *. apply (inv_queues tr st); try done. simpl.
  destruct (v_trace _ _ HI) as [Hids Hnx Hfr Hw Han Hrep (done & Hd & Htr) Hresp].
  assert (Hss : subs (tr ++ evs) = subs tr) by (by rewrite subs_app, Hsub, app_nil_r).
  split; unfold ids, answers; rewrite ?Hss; simpl; try done.
  - intros s Hlt. apply Forall_app. split; [by apply Hfr|apply Hs].
  - intros s. destruct (silent_of s evs (Hs s)) as [Hq0 Hw0].
    by rewrite queued_of_app, wire_of_app, Hq0, Hw0, !app_nil_r.
  - by rewrite answered_app, Ha, app_nil_r.
  - intros s id b [Hin|Hin]%elem_of_app; [by apply Hrep|]. by apply Hq in Hin.
  - exists (done ++ batch). rewrite Hd, <- app_assoc. unfold batch at 1. rewrite take_drop. split; [done|].
    by rewrite transmits_app, Htr, Htx, bind_app.
  - apply Forall_app. split; [done|]. apply Forall_forall. intros r Hr.
    apply list_elem_of_fmap in Hr as (x & -> & (q & -> & Hin)%list_elem_of_fmap).
    assert (q ∈ (subs tr).*2) as ((s & q') & -> & Hq')%list_elem_of_fmap.
    { rewrite Hd. apply elem_of_app. right. rewrite <- (take_drop n (requests st)). apply elem_of_app. by left. }
    by exists s, q'.
Qed.

(** ** Every reachable state *)

Context (null : Value).
Context (from_value : Value -> Result SendTransactionParams str).
Context (from_slice : list Z -> Result (JsonRpcRequest (Value := Value)) str).
Context (to_vec : JsonRpcResponse (Value := Value) -> list Z).
Abbreviation step := (server_step null from_value from_slice to_vec).
Abbreviation reached := (reaches null from_value from_slice to_vec).

Lemma server_new_inv : inv [] (server_new (Value := Value)).
Proof.
  split; simpl; try done.
  - split; simpl; try done; try (split; [apply NoDup_nil_2|apply Forall_nil_2]).
    + intros. apply Forall_nil_2.
    + intros s id b Hin. by apply elem_of_nil in Hin.
    + by exists [].
  - split; simpl; [apply NoDup_nil_2| |split; [apply Forall_nil_2|lia]].
    intros i. split; [intros Hin; by apply elem_of_nil in Hin|done].
Qed.

Lemma server_step_inv tr st evs st' :
  inv tr st -> step st evs st' -> next_request_id st' <> 0 -> inv (tr ++ evs) st'.
Proof.
  intros HI Hstep Hnz. destruct Hstep as [st|st token ev Ht|st n ws d|st n Hg|st].
  - rewrite app_nil_r. by apply accept_inv.
  - pose proof (client_event_inv null from_value from_slice to_vec tr token ev st HI) as H.
    destruct (client_event _ _ _ _ _ _ _). by apply H.
  - by apply deliver_some_inv.
  - by apply worker_take_inv.
  - apply (inv_queues tr st); try done; [|intros; apply Forall_nil_2].
    rewrite app_nil_r. destruct (v_trace _ _ HI). split; done.
Qed.

Lemma reaches_inv tr st : reached tr st -> inv tr st.
Proof.
  induction 1 as [|tr st evs st' _ IH Hstep Hnz]; [apply server_new_inv|]. by eapply server_step_inv.
Qed.

(** ** What the clients and the sender see *)

(** C5. The bytes a client reads are its responses, whole and in order: on every
    stream, what was sent is a beginning of what was queued, and for an open
    connection the rest is exactly what its send buffer still holds, across
    partial writes, keep-alive and the reuse of slots and buffers. *)
Theorem server_wire_integrity tr st :
  reached tr st ->
  (forall s, wire_of s tr `prefix_of` queued_of s tr) /\
  (forall i c, pool_get i (pool st) = Some c ->
     queued_of (stream c) tr = wire_of (stream c) tr ++ drop (send_pos c) (send_buf c)).
Proof.
  intros HI%reaches_inv. split; [apply (v_trace _ _ HI)|].
  intros i c Hi%pool_get_lookup. by destruct (v_conn _ _ HI _ _ Hi) as [[]].
Qed.

(** C7. Responses are routed: a response that answers a request is queued on the
    stream the request came from and is the response the worker made of that
    request, whatever happened to the slots of the pool in between; no request
    is answered twice, and no two requests share an id. *)
Theorem server_routes_replies tr st :
  reached tr st ->
  (forall s id bytes, Queued s (Some id) bytes ∈ tr ->
     exists q date close, Submitted s q ∈ tr /\ q_request_id q = id /\
       bytes = (create_response date (process_request q).1 close).1) /\
  NoDup (answered tr) /\
  (forall s s' q q', Submitted s q ∈ tr -> Submitted s' q' ∈ tr -> q_request_id q = q_request_id q' ->
     s = s' /\ q = q').
Proof.
  intros HI%reaches_inv. pose proof (v_trace _ _ HI) as Ht. split; [|split].
  - intros s id b Hq. destruct (t_replies _ _ Ht _ _ _ Hq) as (q & d & cl & Hs & He & Hb).
    exists q, d, cl. by rewrite <- elem_of_subs.
  - apply Ht.
  - intros s s' q q' Hq%elem_of_subs Hq'%elem_of_subs. by apply (ids_inj tr st).
Qed.

(** C9. Every transaction is handed to the sender at most once and in the order
    in which its request was taken: the requests taken are those the worker has
    dealt with followed by those that wait, and the transactions handed over are
    those of the first part, in order, less the empty ones. *)
Theorem server_transmits_in_order tr st :
  reached tr st ->
  exists done, (subs tr).*2 = done ++ requests st /\
    transmits tr = (fun q => Transmit (q_request_id q) (transaction (q_request q)) (fanout (q_request q)))
                   <$> filter (fun q => transaction (q_request q) <> []) done /\
    NoDup (q_request_id <$> (subs tr).*2).
Proof.
  intros HI%reaches_inv. pose proof (v_trace _ _ HI) as Ht.
  destruct (t_done _ _ Ht) as (done & Hd & Htx). exists done. split; [done|]. split.
  - rewrite Htx. clear. induction done as [|q l IH]; [done|]. cbn [mbind list_bind]. rewrite IH.
    unfold process_request. rewrite filter_cons. case_bool_decide as Hq.
    + by rewrite decide_False by tauto.
    + by rewrite decide_True.
  - rewrite <- list_fmap_compose. apply (t_ids _ _ Ht).
Qed.

(** C20. The connection pool is well formed in every reachable state: the free
    list names the empty slots, each once; open connections have streams of
    their own; a connection that reads has nothing to send and awaits no
    response, one that is processed awaits a response and holds no input, one
    that writes awaits none; no receive buffer exceeds [MAX_REQUEST_SIZE]; at
    most 64 buffers are kept for reuse. *)
Theorem server_pool_well_formed tr st :
  reached tr st ->
  NoDup (free_slots (pool st)) /\
  (forall i, i ∈ free_slots (pool st) <-> connections (pool st) !! i = Some None) /\
  (forall i j c c', pool_get i (pool st) = Some c -> pool_get j (pool st) = Some c' ->
     stream c = stream c' -> i = j) /\
  (forall i c, pool_get i (pool st) = Some c ->
     (length (recv_buf (recv c)) <= MAX_REQUEST_SIZE)%nat /\
     match state c with
     | Reading => pending_request_id c = None /\ send_buf c = []
     | Processing => is_Some (pending_request_id c) /\ send_buf c = [] /\ recv_buf (recv c) = []
     | Writing => pending_request_id c = None
     end) /\
  (length (recycled_buffers (pool st)) <= 64)%nat.
Proof.
  intros HI%reaches_inv. destruct (v_slots _ _ HI) as [Hnd Hfr [_ Hlen]].
  split; [done|]. split; [done|]. split; [|split; [|done]].
  - intros i j c c' Hi%pool_get_lookup Hj%pool_get_lookup. by eapply (v_streams _ _ HI).
  - intros i c Hi%pool_get_lookup. by destruct (v_conn _ _ HI _ _ Hi) as [[]].
Qed.

End steps.

(** ** A run *)

(** A JSON library that knows one request and prints nothing. *)
Definition demo_from_slice (_ : list Z) : Result (JsonRpcRequest (Value := unit)) str := Ok demo_request.
Definition demo_from_value (_ : unit) : Result SendTransactionParams str := Ok demo_params.
Definition demo_to_vec (_ : JsonRpcResponse (Value := unit)) : list Z := [].

Definition demo_message : list Z :=
  lit "POST / HTTP/1.1" ++ [13; 10] ++ lit "Content-Length: 2" ++ [13; 10; 13; 10] ++ lit "{}".

Definition demo_io (r w : bool) (chunks : list (list Z)) (counts : list nat) : io :=
  {| readable := r; writable := w;
     io_reads := {| chunks := chunks; reads_end := ReadWouldBlock |};
     io_writes := {| counts := counts; writes_end := WriteWouldBlock |}; date := lit "now" |}.

(** A client connects and sends its request in two pieces; the worker takes it;
    the response goes out in two pieces. *)
Definition demo_actions : list (Server (Value := unit) -> list event * Server) :=
  [ fun st => ([], (accept st).2);
    client_event tt demo_from_value demo_from_slice demo_to_vec 1 (demo_io true false [take 20 demo_message] []);
    client_event tt demo_from_value demo_from_slice demo_to_vec 1 (demo_io true false [drop 20 demo_message] []);
    worker_round;
    deliver_batch [{| counts := [10%nat]; writes_end := WriteWouldBlock |}] (lit "now");
    client_event tt demo_from_value demo_from_slice demo_to_vec 1 (demo_io false true [] [7%nat]) ].

Definition run_actions {A B} (fs : list (B -> list A * B)) (b : B) : list A * B :=
  fold_left (fun x f => let '(tr, st) := x in let '(evs, st') := f st in (tr ++ evs, st')) fs ([], b).

Definition demo_after (n : nat) : list (event (Value := unit)) * Server :=
  run_actions (take n demo_actions) server_new.

Abbreviation demo_reached := (reaches tt demo_from_value demo_from_slice demo_to_vec).

Lemma demo_next n f :
  demo_actions !! n = Some f -> demo_reached (demo_after n).1 (demo_after n).2 ->
  server_step tt demo_from_value demo_from_slice demo_to_vec (demo_after n).2
    (f (demo_after n).2).1 (f (demo_after n).2).2 ->
  next_request_id (demo_after (S n)).2 <> 0 ->
  demo_reached (demo_after (S n)).1 (demo_after (S n)).2.
Proof.
  assert (Hs : demo_actions !! n = Some f ->
            demo_after (S n) = ((demo_after n).1 ++ (f (demo_after n).2).1, (f (demo_after n).2).2)).
  { intros Hf. unfold demo_after, run_actions. rewrite (take_S_r _ _ _ Hf), fold_left_app. simpl.
    destruct (fold_left _ _ _) as [tr st]. simpl. by destruct (f st). }
  intros Hf Hr Hstep Hnz. rewrite (Hs Hf) in *. by eapply reaches_step.
Qed.

Lemma demo_reaches n : (n <= 6)%nat -> demo_reached (demo_after n).1 (demo_after n).2.
Proof.
  induction n as [|n IH]; intros Hn; [apply reaches_new|]. specialize (IH ltac:(lia)).
  do 6 (destruct n as [|n];
    [eapply demo_next; [reflexivity|exact IH|first [apply (step_deliver _ _ _ _ _ 64)|apply (step_worker _ _ _ _ _ BATCH_SIZE)|constructor]; try lia; by vm_compute|by vm_compute]|]). lia.
Qed.

Lemma server_wire_integrity_witness :
  wire_of 0 (demo_after 6).1 `prefix_of` queued_of 0 (demo_after 6).1 /\
  wire_of 0 (demo_after 6).1 = lit "HTTP/1.1 200 OK" ++ [13; 10].
Proof.
  split; [|by vm_compute].
  apply (server_wire_integrity _ _ _ _ _ _ (demo_reaches 6 ltac:(lia))).
Defined.

Lemma server_routes_replies_witness :
  answered (demo_after 6).1 = [1] /\ NoDup (answered (demo_after 6).1) /\
  exists q date close,
    q_request_id q = 1 /\ Submitted 0 q ∈ (demo_after 6).1 /\
    queued_of 0 (demo_after 6).1 = (create_response date (process_request q).1 close).1.
Proof.
  destruct (server_routes_replies _ _ _ _ _ _ (demo_reaches 6 ltac:(lia))) as (Hq & Hnd & _).
  split; [by vm_compute|]. split; [exact Hnd|].
  destruct (Hq 0%nat 1 (queued_of 0 (demo_after 6).1)) as (q & d & cl & Hs & Hid & Hb).
  { vm_compute. do 2 right. left. }
  exists q, d, cl. by split; [|split].
Defined.

Lemma server_transmits_in_order_witness :
  transmits (demo_after 6).1 = [Transmit 1 (lit "Hello") 2] /\ NoDup (ids (demo_after 6).1).
Proof.
  split; [by vm_compute|].
  destruct (server_transmits_in_order _ _ _ _ _ _ (demo_reaches 6 ltac:(lia))) as (done & _ & _ & Hnd).
  unfold ids. by rewrite <- list_fmap_compose in Hnd.
Defined.

Lemma server_pool_well_formed_witness :
  NoDup (free_slots (pool (demo_after 3).2)) /\
  exists c, pool_get 0 (pool (demo_after 3).2) = Some c /\ state c = Processing.
Proof.
  split; [apply (server_pool_well_formed _ _ _ _ _ _ (demo_reaches 3 ltac:(lia)))|].
  eexists. split; by vm_compute.
Defined.
