(* ===== verification/ServerLive.v ===== *)
(** * ServerLive: pending requests are answered

    A connection that awaits a response always has its request in one of the two
    queues ([flow]), so that once the worker and the delivery have caught up the
    response is on the connection; and two ways in which the event loop loses
    what a client sent. *)
From S2P Require Import Prelude Str Request Http Server ServerSpec ServerRun.

Set Default Proof Using "Type".

Section flow.
Context {Value : Type}.
Implicit Types st : Server (Value := Value).

(** A request and a response are matched by token and id. *)
Definition request_tag (q : QueuedRequest (Value := Value)) : nat * Z := (q_token q, q_request_id q).
Definition response_tag (r : QueuedResponse) : nat * Z := (r_token r, r_request_id r).
Definition outstanding st : list (nat * Z) :=
  (request_tag <$> requests st) ++ (response_tag <$> responses st).

Definition flow (tags : list (nat * Z)) (p : ConnectionPool) : Prop :=
  forall i c id, connections p !! i = Some (Some c) -> pending_request_id c = Some id -> (S i, id) ∈ tags.

Lemma flow_mono tags tags' p : tags ⊆ tags' -> flow tags p -> flow tags' p.
Proof. intros Hs Hf i c id Hi Hp. by eapply Hs, Hf. Qed.

(** The slots of the pool after a handler has put its connection back. *)
Lemma put_back_lookup idx c remove st j :
  connections (pool (put_back idx c remove st)) !! j =
  if decide (j = idx) then (fun _ => if remove then None else Some c) <$> connections (pool st) !! j
  else connections (pool st) !! j.
Proof.
  assert (Hset : forall p : ConnectionPool, connections (pool_set idx c p) = <[idx := Some c]> (connections p)).
  { intros p. unfold pool_set. destruct (Nat.ltb_spec idx (length (connections p))); [done|].
    by rewrite list_insert_ge. }
  assert (Hrem : forall p : ConnectionPool, connections (pool_remove idx p) = <[idx := None]> (connections p)).
  { intros p. unfold pool_remove. destruct (Nat.ltb_spec idx (length (connections p))); [done|].
    by rewrite list_insert_ge. }
  unfold put_back. destruct remove; simpl; rewrite ?Hrem, ?Hset, ?list_insert_insert_eq;
    (case_decide as Hj; [subst j; rewrite list_lookup_insert; case_decide as Hl|by rewrite list_lookup_insert_ne]).
  all: try (destruct Hl as [_ Hl]; by apply lookup_lt_is_Some in Hl as [x ->]).
  all: rewrite lookup_ge_None_2; [done|]; apply not_lt; tauto.
Qed.

Lemma flow_put_back tags tags' idx c remove st :
  flow tags (pool st) -> tags ⊆ tags' ->
  (forall id, remove = false -> pending_request_id c = Some id -> (S idx, id) ∈ tags') ->
  flow tags' (pool (put_back idx c remove st)).
Proof.
  intros Hf Hs Hc i c' id. rewrite put_back_lookup. case_decide as Hi.
  - subst i. destruct (connections (pool st) !! idx); [|done]. simpl. destruct remove; [done|].
    intros [= <-]. by apply Hc.
  - intros Hl Hp. by eapply Hs, Hf.
Qed.

(** A write leaves the pending request alone; after it there is none, or it is
    the same. *)
Lemma try_write_pending w c out c' r : try_write w c = (out, c', r) -> pending_request_id c' = pending_request_id c.
Proof.
  pose proof (write_loop_spec (counts w) (writes_end w) c) as H. unfold try_write.
  destruct (write_loop _ _ _) as [[out' c1] r']. destruct H as [[n ->] _]. by intros [= <- <- <-].
Qed.

Lemma after_write_pending c r id :
  pending_request_id (after_write c r).2 = Some id -> pending_request_id c = Some id.
Proof. unfold after_write. destruct r; [|done]. destruct (is_response_sent c), (should_close c); done. Qed.

Lemma put_back_queues idx c remove st :
  requests (put_back idx c remove st) = requests st /\ responses (put_back idx c remove st) = responses st.
Proof. unfold put_back. by destruct remove. Qed.

(** ** Delivery *)

Lemma deliver_queues w d r st :
  requests (deliver w d r st).2 = requests st /\ responses (deliver w d r st).2 = responses st.
Proof.
  unfold deliver. destruct (pool_get _ _); [|done]. case_bool_decide; [|done].
  destruct (create_response _ _ _). destruct (try_write _ _) as [[? ?] ?].
  destruct (after_write _ _). simpl. apply put_back_queues.
Qed.

Lemma deliver_flow tags w d r st :
  flow (response_tag r :: tags) (pool st) -> flow tags (pool (deliver w d r st).2).
Proof.
  intros Hf. unfold deliver.
  assert (Hskip : (forall c, pool_get (r_token r - 1) (pool st) = Some c ->
             pending_request_id c <> Some (r_request_id r)) -> flow tags (pool st)).
  { intros Hno i c id Hi Hp. specialize (Hf i c id Hi Hp). apply elem_of_cons in Hf as [He|Hin]; [|done].
    unfold response_tag in He. injection He as He1 He2.
    destruct (Hno c); [|congruence]. apply pool_get_lookup. by rewrite <- He1, Nat.sub_1_r. }
  destruct (pool_get _ _) as [c|] eqn:Hg; [|by apply Hskip]. apply pool_get_lookup in Hg.
  case_bool_decide as Hp; [|by apply Hskip; intros c' [= <-]].
  destruct (create_response _ _ _) as [b j]. destruct (try_write _ _) as [[out c'] res] eqn:Hw.
  apply try_write_pending in Hw. simpl in Hw. destruct (after_write c' res) as [remove c3] eqn:Ha. simpl.
  intros i ci id. rewrite put_back_lookup. case_decide as Hi.
  - subst i. rewrite Hg. simpl. destruct remove; [done|]. intros [= <-] Hc3.
    pose proof (after_write_pending c' res id) as Hap. rewrite Ha in Hap. specialize (Hap Hc3). congruence.
  - intros Hl Hpi. specialize (Hf i ci id Hl Hpi). apply elem_of_cons in Hf as [He|Hin]; [|done].
    exfalso. apply Hi. unfold response_tag in He. injection He as He1 He2. lia.
Qed.

Lemma deliver_all_queues d rs : forall ws st,
  requests (deliver_all ws d rs st).2 = requests st /\ responses (deliver_all ws d rs st).2 = responses st.
Proof.
  induction rs as [|r rs IH]; intros ws st; [done|]. cbn [deliver_all]. set (w := default _ _).
  pose proof (deliver_queues w d r st) as [H1 H2]. destruct (deliver w d r st) as [evs st1].
  destruct (IH (tail ws) st1) as [H3 H4]. destruct (deliver_all (tail ws) d rs st1). simpl in *. split; congruence.
Qed.

Lemma deliver_all_flow d rs : forall ws tags st,
  flow ((response_tag <$> rs) ++ tags) (pool st) -> flow tags (pool (deliver_all ws d rs st).2).
Proof.
  induction rs as [|r rs IH]; intros ws tags st Hf; [done|]. cbn [deliver_all]. set (w := default _ _).
  pose proof (deliver_flow _ w d r st Hf) as Hf1.
  destruct (deliver w d r st) as [evs st1]. specialize (IH (tail ws) tags st1 Hf1).
  destruct (deliver_all (tail ws) d rs st1). exact IH.
Qed.

(** ** The other steps *)

Lemma deliver_some_flow n ws d st :
  flow (outstanding st) (pool st) ->
  flow (outstanding (deliver_some n ws d st).2) (pool (deliver_some n ws d st).2).
Proof.
  intros Hf. unfold deliver_some. set (st0 := {| pool := pool st |}).
  unfold outstanding. destruct (deliver_all_queues d (take n (responses st)) ws st0) as [-> ->].
  apply deliver_all_flow. eapply flow_mono; [|exact Hf]. unfold outstanding. simpl.
  rewrite <- (take_drop n (responses st)) at 1. rewrite fmap_app. set_solver.
Qed.

Lemma worker_take_flow n st :
  flow (outstanding st) (pool st) -> flow (outstanding (worker_take n st).2) (pool (worker_take n st).2).
Proof.
  intros Hf. eapply flow_mono; [|exact Hf]. unfold outstanding, worker_take. simpl.
  rewrite <- (take_drop n (requests st)) at 1. rewrite !fmap_app, <- !list_fmap_compose.
  replace (response_tag ∘ fst ∘ process_request <$> take n (requests st))
    with (request_tag <$> take n (requests st)); [set_solver|].
  apply list_fmap_ext. intros i q _. unfold process_request. simpl. by case_bool_decide.
Qed.

(** A new connection awaits nothing. *)
Lemma accept_flow tr st :
  inv tr st -> flow (outstanding st) (pool st) -> flow (outstanding (accept st).2) (pool (accept st).2).
Proof.
  intros HI Hf. replace (outstanding (accept st).2) with (outstanding st).
  2:{ unfold accept. destruct (alloc_empty _), (create_connection _ _). done. }
  unfold accept. pose proof (alloc_empty_spec _ (v_slots _ _ HI)) as Ha.
  destruct (alloc_empty (pool st)) as [idx p]. destruct Ha as (Hi & _ & _ & Hco & Hrb).
  destruct (create_connection_new (next_stream st) p) as (Hn & Hcp & _);
    [rewrite Hrb; apply (v_slots _ _ HI)..|].
  destruct (create_connection _ p) as [c p']. simpl in *. subst c.
  intros i c id. unfold pool_set. destruct (_ <? _)%nat; simpl; rewrite Hcp.
  - destruct (decide (i = idx)) as [->|Hne].
    + rewrite list_lookup_insert_eq by (by eapply lookup_lt_Some). by intros [= <-].
    + rewrite list_lookup_insert_ne by done. rewrite Hco. apply Hf.
  - rewrite Hco. apply Hf.
Qed.

Context (null : Value).
Context (from_value : Value -> Result SendTransactionParams str).
Context (from_slice : list Z -> Result (JsonRpcRequest (Value := Value)) str).
Context (to_vec : JsonRpcResponse (Value := Value) -> list Z).

Lemma read_loop_pending bs e : forall c, pending_request_id (read_loop bs e c).1 = pending_request_id c.
Proof.
  induction bs as [|b bs IH]; intros c; [done|]. cbn [read_loop]. destruct (_ <? _)%nat; [done|].
  by rewrite IH.
Qed.

(** The request a connection awaits is the one it awaited, or one that is now in
    the queue. *)
Lemma handle_request_tags buf token st r st' :
  handle_request from_value from_slice buf token st = (r, st') ->
  pool st' = pool st /\ outstanding st ⊆ outstanding st' /\
  forall q close, r = Ok (q, close) -> (token, q_request_id q) ∈ outstanding st'.
Proof.
  clear null to_vec. unfold handle_request. intros Hh.
  destruct (parse buf) as [http|]; [|by simplify_eq].
  destruct (negb _); [by simplify_eq|].
  destruct (from_slice _) as [rpc|]; [|by simplify_eq].
  destruct (from_rpc_request _ rpc) as [parsed|]; [|by simplify_eq].
  unfold send_request in Hh. simpl in Hh. destruct (worker_gone st); simplify_eq; [done|].
  split; [done|]. unfold outstanding. simpl. rewrite fmap_app. split; [set_solver|].
  intros q close [= <- <-]. simpl. apply elem_of_app. left. apply elem_of_app. right.
  by apply list_elem_of_singleton.
Qed.

Lemma on_readable_flow token ev c st :
  let '(remove, evs, c', st') := on_readable null from_value from_slice to_vec token ev c st in
  pool st' = pool st /\ outstanding st ⊆ outstanding st' /\
  forall id, pending_request_id c' = Some id ->
    pending_request_id c = Some id \/ (token, id) ∈ outstanding st'.
Proof.
  unfold on_readable. destruct (_ && _); [|by auto].
  pose proof (read_loop_pending (chunks (io_reads ev)) (reads_end (io_reads ev)) c) as Hp.
  unfold try_read. destruct (read_loop _ _ c) as [c1 r]. simpl in Hp.
  destruct r as [[]|]; try (rewrite Hp; by auto).
  unfold connection_complete. destruct (is_request_complete (recv c1)) as [b r]. simpl.
  destruct (b && _); [|simpl; rewrite Hp; by auto].
  unfold on_request. destruct (handle_request _ _ _ _ _) as [res st'] eqn:Hh.
  destruct (handle_request_tags _ _ _ _ _ Hh) as (Hpool & Hsub & Hq).
  destruct res as [[q close]|e]; simpl; (split; [done|split; [done|]]).
  - intros id [= <-]. right. by eapply Hq.
  - intros id. rewrite Hp. by left.
Qed.

Lemma client_event_flow token ev st :
  (0 < token)%nat -> flow (outstanding st) (pool st) ->
  let st' := (client_event null from_value from_slice to_vec token ev st).2 in
  flow (outstanding st') (pool st').
Proof.
  intros Ht Hf. unfold client_event. destruct (pool_get _ _) as [c|] eqn:Hg; [|done].
  apply pool_get_lookup in Hg. pose proof (on_readable_flow token ev c st) as Hr.
  destruct (on_readable _ _ _ _ _ _ _ _) as [[[remove evs] c1] st1]. destruct Hr as (Hp & Hs & Hc).
  assert (Hw : exists remove' evs' c2, (if remove then (true, [], c1) else on_writable (Value := Value) ev c1)
             = (remove', evs', c2) /\
           forall id, pending_request_id c2 = Some id -> pending_request_id c1 = Some id).
  { destruct remove; [by eexists _, _, _|]. unfold on_writable. destruct (_ && _); [|by eexists _, _, _].
    destruct (try_write _ _) as [[out c2] r] eqn:Hw. apply try_write_pending in Hw.
    destruct (after_write c2 r) as [rm c3] eqn:Ha. eexists _, _, _. split; [done|].
    intros id Hid. pose proof (after_write_pending c2 r id) as Hap. rewrite Ha in Hap. rewrite <- Hw. by apply Hap. }
  destruct Hw as (remove' & evs' & c2 & -> & Hc2). simpl. unfold outstanding.
  destruct (put_back_queues (token - 1) c2 remove' st1) as [-> ->]. fold (outstanding st1).
  eapply flow_put_back; [by rewrite Hp|done|]. intros id _ Hid.
  replace (S (token - 1)) with token by lia.
  destruct (Hc id (Hc2 _ Hid)) as [Hold|]; [|done].
  apply Hs. replace token with (S (token - 1)) by lia. by eapply Hf.
Qed.

Lemma reaches_flow tr st :
  reaches null from_value from_slice to_vec tr st -> flow (outstanding st) (pool st).
Proof.
  induction 1 as [|tr st evs st' Hr IH Hstep Hnz]; [done|].
  apply reaches_inv in Hr. destruct Hstep as [st|st token ev Ht|st n ws d|st n Hg|st].
  - by eapply accept_flow.
  - by apply client_event_flow.
  - by apply deliver_some_flow.
  - by apply worker_take_flow.
  - done.
Qed.

End flow.

(** ** Catching up *)

Section catch_up.
Context {Value : Type}.
Implicit Types st : Server (Value := Value).

(** Rounds of the worker, and of the delivery, one after the other. *)
Definition worker_rounds (n : nat) st : Server := Nat.iter n (fun st => (worker_round st).2) st.

Fixpoint deliver_rounds (n : nat) (ws : nat -> list writes) (d : list Z) st : list (event (Value := Value)) * Server :=
  match n with
  | O => ([], st)
  | S n =>
      let '(evs, st) := deliver_batch (ws n) d st in
      let '(evs', st) := deliver_rounds n ws d st in (evs ++ evs', st)
  end.

(** A response for another request leaves the connection as it is; its own
    response is queued on it. *)
Lemma deliver_pending w d r st i c id :
  connections (pool st) !! i = Some (Some c) -> pending_request_id c = Some id ->
  (exists bytes, Queued (stream c) (Some id) bytes ∈ (deliver w d r st).1) \/
  (response_tag r <> (S i, id) /\ connections (pool (deliver w d r st).2) !! i = Some (Some c)).
Proof.
  intros Hi Hp. unfold deliver, response_tag.
  destruct (pool_get (r_token r - 1) (pool st)) as [c'|] eqn:Hg.
  2:{ right. split; [|done]. intros [= Ht _]. rewrite Ht in Hg. simpl in Hg. rewrite Nat.sub_0_r in Hg.
      apply pool_get_lookup in Hi. congruence. }
  case_bool_decide as Hm.
  - apply pool_get_lookup in Hg. destruct (decide (r_token r - 1 = i)%nat) as [He|Hne].
    + rewrite He in Hg. assert (c' = c) as -> by congruence. left.
      rewrite Hp in Hm. injection Hm as ->. destruct (create_response _ _ _) as [b j].
      destruct (try_write _ _) as [[out c2] res], (after_write _ _). exists b. simpl. left.
    + right. split; [intros [= Ht _]; lia|].
      destruct (create_response _ _ _), (try_write _ _) as [[out c2] res], (after_write _ _). simpl.
      by rewrite put_back_lookup, decide_False.
  - right. split; [|done]. intros [= Ht Hid]. rewrite Ht in Hg. simpl in Hg. rewrite Nat.sub_0_r in Hg.
    apply pool_get_lookup in Hg. congruence.
Qed.

Lemma deliver_all_pending d rs i c id : forall ws st,
  connections (pool st) !! i = Some (Some c) -> pending_request_id c = Some id ->
  (exists bytes, Queued (stream c) (Some id) bytes ∈ (deliver_all ws d rs st).1) \/
  (((S i, id) ∉ (response_tag <$> rs)) /\ connections (pool (deliver_all ws d rs st).2) !! i = Some (Some c)).
Proof.
  induction rs as [|r rs IH]; intros ws st Hi Hp; cbn [deliver_all].
  { right. split; [apply not_elem_of_nil|done]. }
  set (w := default _ _). pose proof (deliver_pending w d r st i c id Hi Hp) as Hd.
  destruct (deliver w d r st) as [evs st1]. simpl in Hd.
  destruct Hd as [[b Hb]|[Hne Hi1]].
  { left. exists b. destruct (deliver_all _ _ _ _). simpl. apply elem_of_app. by left. }
  specialize (IH (tail ws) st1 Hi1 Hp). destruct (deliver_all (tail ws) d rs st1) as [evs' st2]. simpl in *.
  destruct IH as [[b Hb]|[Hni Hi2]].
  - left. exists b. apply elem_of_app. by right.
  - right. split; [|done]. rewrite elem_of_cons. intros [He|?]; [by symmetry in He|done].
Qed.

Lemma deliver_rounds_pending d i c id n : forall ws st,
  (length (responses st) <= n)%nat ->
  connections (pool st) !! i = Some (Some c) -> pending_request_id c = Some id ->
  (S i, id) ∈ (response_tag <$> responses st) ->
  exists bytes, Queued (stream c) (Some id) bytes ∈ (deliver_rounds n ws d st).1.
Proof.
  induction n as [|n IH]; intros ws st Hn Hi Hp Hin.
  { destruct (responses st); [by apply elem_of_nil in Hin|simpl in Hn; lia]. }
  cbn [deliver_rounds]. unfold deliver_batch, deliver_some. set (st0 := {| pool := pool st |}).
  pose proof (deliver_all_queues d (take 64 (responses st)) (ws n) st0) as [_ Hq].
  destruct (deliver_all_pending d (take 64 (responses st)) i c id (ws n) st0 Hi Hp) as [[b Hb]|[Hni Hi1]];
    destruct (deliver_all _ _ _ st0) as [evs st1]; simpl in *.
  { exists b. destruct (deliver_rounds _ _ _ _). simpl. apply elem_of_app. by left. }
  rewrite <- (take_drop 64 (responses st)), fmap_app in Hin. apply elem_of_app in Hin as [Hin|Hin]; [done|].
  destruct (IH ws st1) as [b Hb]; [rewrite Hq, length_drop; lia|done|done|by rewrite Hq|].
  exists b. destruct (deliver_rounds n ws d st1). simpl in *. apply elem_of_app. by right.
Qed.

Lemma worker_rounds_drain n : forall st,
  (length (requests st) <= n)%nat ->
  requests (worker_rounds n st) = [] /\ pool (worker_rounds n st) = pool st.
Proof.
  unfold worker_rounds. induction n as [|n IH]; intros st Hn.
  { simpl. split; [|done]. destruct (requests st); [done|simpl in Hn; lia]. }
  rewrite Nat.iter_succ_r. destruct (IH (worker_round st).2) as [H1 H2]; [|done].
  unfold worker_round, worker_take, BATCH_SIZE. simpl. rewrite length_drop. lia.
Qed.

Lemma worker_rounds_flow n : forall st,
  flow (outstanding st) (pool st) -> flow (outstanding (worker_rounds n st)) (pool (worker_rounds n st)).
Proof.
  unfold worker_rounds. induction n as [|n IH]; intros st Hf; [done|].
  rewrite Nat.iter_succ_r. apply IH. by apply worker_take_flow.
Qed.

(** C8. No request is lost on the way: in every reachable state a connection that
    awaits a response is answered once the worker has taken the requests that
    wait and their responses have been delivered; one round per request and one
    per response are enough, whatever the sockets do. *)
Theorem server_answers_pending (null : Value) from_value from_slice to_vec tr st i c id ws d :
  reaches null from_value from_slice to_vec tr st ->
  pool_get i (pool st) = Some c -> pending_request_id c = Some id ->
  let st1 := worker_rounds (length (requests st)) st in
  exists bytes, Queued (stream c) (Some id) bytes ∈ (deliver_rounds (length (responses st1)) ws d st1).1.
Proof.
  intros Hr Hi%pool_get_lookup Hp st1. pose proof (reaches_flow _ _ _ _ _ _ Hr) as Hf.
  apply (worker_rounds_flow (length (requests st))) in Hf. fold st1 in Hf.
  destruct (worker_rounds_drain (length (requests st)) st (le_n _)) as [Hq Hpool]. fold st1 in Hq, Hpool.
  apply (deliver_rounds_pending d i c id); [done|by rewrite Hpool|done|].
  rewrite <- Hpool in Hi. specialize (Hf i c id Hi Hp). unfold outstanding in Hf. by rewrite Hq in Hf.
Qed.

End catch_up.

Lemma server_answers_pending_witness :
  exists bytes, Queued 0 (Some 1) bytes ∈
    (deliver_rounds 1 (fun _ => []) (lit "now") (worker_rounds 1 (demo_after 3).2)).1.
Proof.
  assert (Hc : exists c, pool_get 0 (pool (demo_after 3).2) = Some c /\ stream c = 0%nat /\
             pending_request_id c = Some 1) by (eexists; by vm_compute).
  destruct Hc as (c & Hg & Hs & Hp).
  pose proof (server_answers_pending _ _ _ _ _ _ 0 c 1 (fun _ => []) (lit "now")
                (demo_reaches 3 ltac:(lia)) Hg Hp) as H.
  rewrite Hs in H. exact H.
Defined.

(** ** What the event loop loses *)

(** A client that sends a whole request and then shuts down its sending side
    gets no response: when the data and the end of the stream are seen by the
    same event, the connection is dropped, whatever the data was, before the
    request is looked at. *)
Theorem half_closed_request_lost {Value} (null : Value) from_value from_slice to_vec token ev c st bs :
  pool_get (token - 1) (pool st) = Some c -> state c = Reading ->
  readable ev = true -> io_reads ev = {| chunks := bs; reads_end := ReadEof |} ->
  let '(evs, st') := client_event null from_value from_slice to_vec token ev st in
  evs = [] /\ pool_get (token - 1) (pool st') = None /\ requests st' = requests st.
Proof.
  intros Hg Hs Hr Hio. unfold client_event. rewrite Hg.
  assert (Hl : exists c1 res, try_read (io_reads ev) c = (c1, res) /\ res <> Ok true).
  { rewrite Hio. unfold try_read. simpl. clear Hg Hio. revert c Hs.
    induction bs as [|b bs IH]; intros c Hs; cbn [read_loop]; [by eexists _, _|].
    destruct (_ <? _)%nat; [by eexists _, _|]. by apply IH. }
  destruct Hl as (c1 & res & Hl & Hne). unfold on_readable. rewrite Hr, Hl, bool_decide_eq_true_2 by done.
  cbn [andb].
  assert (Hput : connections (pool (put_back (token - 1) c1 true st)) !! (token - 1)%nat = Some None).
  { apply pool_get_lookup in Hg. by rewrite put_back_lookup, decide_True, Hg. }
  destruct res as [[]|]; [done| |]; cbv beta iota zeta; (split; [done|]); unfold pool_get; by rewrite Hput.
Qed.

Lemma half_closed_request_lost_witness :
  let ev := {| readable := true; writable := false;
               io_reads := {| chunks := [demo_message]; reads_end := ReadEof |};
               io_writes := {| counts := []; writes_end := WriteWouldBlock |}; date := lit "now" |} in
  let st := (client_event tt demo_from_value demo_from_slice demo_to_vec 1 ev (demo_after 1).2).2 in
  is_complete demo_message = true /\ pool_get 0 (pool st) = None /\ requests st = [].
Proof.
  intros ev st. split; [by vm_compute|].
  assert (Hc : exists c, pool_get 0 (pool (demo_after 1).2) = Some c /\ state c = Reading)
    by (eexists; by vm_compute).
  destruct Hc as (c & Hg & Hs).
  pose proof (half_closed_request_lost tt demo_from_value demo_from_slice demo_to_vec 1 ev c
                (demo_after 1).2 [demo_message] Hg Hs eq_refl eq_refl) as H.
  subst st. destruct (client_event _ _ _ _ _ _ _) as [evs st]. by destruct H as (_ & ? & ?).
Defined.
