(* ===== verification/Scan.v ===== *)
(** * Scan: substring search

    The search of [str::find] and of the byte scans that look for a key, and the
    lemmas that find a key behind text in which it cannot start. *)
From S2P Require Import Prelude Str Request HttpSpec.

Fixpoint starts_with (p s : str) : bool :=
  match p, s with
  | [], _ => true
  | a :: p, b :: s => (a =? b) && starts_with p s
  | _, [] => false
  end.

(** The position of the first occurrence. *)
Fixpoint find_sub (buf key : list Z) : option nat :=
  if starts_with key buf then Some 0%nat
  else
    match buf with
    | [] => None
    | _ :: r => Datatypes.S <$> find_sub r key
    end.

(** The key differs from the text before either ends. *)
Fixpoint differs (key s : list Z) : bool :=
  match key, s with
  | a :: key, b :: s => negb (a =? b) || differs key s
  | _, _ => false
  end.

(** No occurrence of the key starts in [s], whatever follows. *)
Fixpoint clear (key s : list Z) : bool :=
  match s with
  | [] => true
  | _ :: r => differs key s && clear key r
  end.

Lemma differs_starts key s r : differs key s = true -> starts_with key (s ++ r) = false.
Proof.
  revert s. induction key as [|a key IH]; intros s H; [done|]. destruct s as [|b s]; [done|].
  cbn [differs app starts_with] in *. destruct (a =? b); [by apply IH|done].
Qed.

Lemma differs_app key s r : differs key s = true -> differs key (s ++ r) = true.
Proof.
  revert s. induction key as [|a key IH]; intros s H; [done|]. destruct s as [|b s]; [done|].
  cbn [differs app] in *. destruct (a =? b); [by apply IH|done].
Qed.

Lemma clear_app key s r : clear key s = true -> clear key r = true -> clear key (s ++ r) = true.
Proof.
  intros Hs Hr. induction s as [|c s IH]; [done|]. cbn [clear app] in *. apply andb_true_iff in Hs as [Hd Hs].
  rewrite IH by done. apply (differs_app key (c :: s) r) in Hd. cbn [app] in Hd. by rewrite Hd.
Qed.

Lemma clear_other a key s : Forall (fun c => c <> a) s -> clear (a :: key) s = true.
Proof.
  induction 1 as [|c s Hc Hs IH]; [done|]. cbn [clear differs]. rewrite IH, (proj2 (Z.eqb_neq a c)) by done. done.
Qed.

Lemma find_sub_none key s : key <> [] -> clear key s = true -> find_sub s key = None.
Proof.
  intros Hne. induction s as [|c s IH]; intros H; [by destruct key|]. cbn [clear] in H.
  apply andb_true_iff in H as [Hd Hs]. apply (differs_starts _ _ []) in Hd. rewrite app_nil_r in Hd.
  cbn [find_sub]. by rewrite Hd, IH.
Qed.

Lemma find_sub_at key s r :
  clear key s = true -> starts_with key r = true -> find_sub (s ++ r) key = Some (length s).
Proof.
  intros H Hr. induction s as [|c s IH]; [destruct r; cbn [find_sub app]; by rewrite Hr|].
  cbn [clear] in H. apply andb_true_iff in H as [Hd Hs]. apply (differs_starts _ _ r) in Hd.
  cbn [find_sub app] in *. by rewrite Hd, IH.
Qed.

Lemma clear_decimal key n : clear (34 :: key) (decimal n) = true.
Proof. apply clear_other. eapply Forall_impl; [apply decimal_chars|]. cbv beta. intros c Hc ->. done. Qed.

Lemma decimal_at_most_20 n : (length (decimal n) <= 20)%nat.
Proof.
  unfold decimal. cut (forall fuel n acc, (length (digits_acc fuel n acc) <= fuel + length acc)%nat).
  { intros H. specialize (H 20%nat n []). by rewrite Nat.add_0_r in H. }
  induction fuel as [|fuel IH]; intros m acc; cbn [digits_acc]; [lia|].
  destruct (m / 10 =? 0); [cbn [length]; lia|]. specialize (IH (m / 10) ((48 + m mod 10) :: acc)). cbn [length] in *. lia.
Qed.

(** ** Text with white space around it *)

Lemma last_rev {A} (l : list A) : last (rev l) = head l.
Proof. rewrite rev_alt. apply last_reverse. Qed.

(** White space around the text. *)
Definition blank (c : Z) : Prop := is_ascii c /\ is_whitespace c = true.

Lemma drop_while_app f p s : Forall (fun c => f c = true) p -> drop_while f (p ++ s) = drop_while f s.
Proof. induction 1 as [|c p Hc Hp IH]; [done|]. cbn [app drop_while]. by rewrite Hc. Qed.

Lemma trim_blank p s q :
  Forall blank p -> Forall blank q ->
  (forall c, head s = Some c -> is_whitespace c = false) ->
  (forall c, last s = Some c -> is_whitespace c = false) -> s <> [] -> trim (p ++ s ++ q) = s.
Proof.
  intros Hp Hq Hh Hl Hne.
  assert (Hw : forall l, Forall blank l -> Forall (fun c => is_whitespace c = true) l)
    by (intros l Hl'; eapply Forall_impl; [exact Hl'|]; by intros c [_ ?]).
  unfold trim. rewrite drop_while_app by auto. rewrite (drop_while_none _ (s ++ q)).
  - rewrite rev_app_distr, drop_while_app by (apply Forall_rev; auto).
    rewrite drop_while_none; [apply rev_involutive|]. intros c Hc. apply Hl.
    rewrite <- (rev_involutive s), last_rev. done.
  - intros c Hc. apply Hh. by destruct s.
Qed.

Lemma blank_ascii p : Forall blank p -> Forall is_ascii p.
Proof. intros Hp. eapply Forall_impl; [exact Hp|]. by intros c [? _]. Qed.

Lemma decimal_plain n : Forall (fun c => is_ascii c /\ is_whitespace c = false /\ c <> 44) (decimal n).
Proof.
  eapply Forall_impl; [apply decimal_chars|]. intros c Hc.
  unfold is_ascii_digit, continuation in Hc.
  assert (c ∈ seqZ 48 10) as Hin by (apply elem_of_seqZ; lia). unfold is_ascii.
  split; [lia|]. split; [|lia]. clear Hc. revert c Hin. apply Forall_forall. by repeat constructor.
Qed.
