(* ===== verification/Client.v ===== *)
(** * Client: the client of the RPC server

    [client/src]: addresses ([connection.rs]), requests ([request.rs]), the scan
    of responses ([response.rs]) and the exchange of one request and one response
    over a plain stream ([connection.rs], [client.rs]).  What the socket answers
    is an argument, and so is how a TLS handshake ends; TLS traffic is not
    modelled.  The base64 library's encoder is the parameter [encode]. *)
From S2P Require Import Prelude Str Scan.
From S2P Require Http.

(** ** Errors and options *)

Inductive Error : Type :=
| Connect | Send | Recv | InvalidHttp | InvalidResponse | Rpc (code : Z) | WouldBlock.

Record SendOptions : Type := { fanout : option Z; target_slot : option Z }.
Definition send_options_default : SendOptions := {| fanout := None; target_slot := None |}.
Definition set_fanout (n : Z) (o : SendOptions) : SendOptions := {| fanout := Some n; target_slot := target_slot o |}.
Definition set_target_slot (n : Z) (o : SendOptions) : SendOptions := {| fanout := fanout o; target_slot := Some n |}.
Definition get_fanout (o : SendOptions) : Z := default 1 (fanout o).
Definition get_target_slot (o : SendOptions) : Z := default 0 (target_slot o).

(** ** Addresses *)

Record UrlInfo : Type := { host : str; port : Z; use_tls : bool }.

(** The position of the last [c]. *)
Fixpoint rfind (c : Z) (s : str) : option nat :=
  match s with
  | [] => None
  | x :: r =>
      match rfind c r with
      | Some i => Some (S i)
      | None => if x =? c then Some 0%nat else None
      end
  end.

(** The host and port after the scheme. *)
Definition parse_authority (rest : str) (use_tls : bool) : Result UrlInfo Error :=
  let rest := match split_on 47 rest with p :: _ => p | [] => rest end in
  let without := Ok {| host := rest; port := if use_tls then 443 else 80; use_tls := use_tls |} in
  match rfind 58 rest with
  | None => without
  | Some colon_pos =>
      let potential_port := drop (colon_pos + 1) rest in
      if forallb is_ascii_digit potential_port && negb (bool_decide (potential_port = [])) then
        match parse_u16 potential_port with
        | Some p => Ok {| host := take colon_pos rest; port := p; use_tls := use_tls |}
        | None => Err Connect
        end
      else without
  end.

Definition parse_addr (addr : str) : Result UrlInfo Error :=
  if starts_with (lit "https://") addr then parse_authority (drop 8 addr) true
  else if starts_with (lit "http://") addr then parse_authority (drop 7 addr) false
  else
    match rfind 58 addr with
    | None => Err Connect
    | Some colon_pos =>
        match parse_u16 (drop (colon_pos + 1) addr) with
        | Some p => Ok {| host := take colon_pos addr; port := p; use_tls := false |}
        | None => Err Connect
        end
    end.

(** The Host header: the port is left out when it is the scheme's. *)
Definition host_header (u : UrlInfo) : str :=
  if (use_tls u && (port u =? 443)) || (negb (use_tls u) && (port u =? 80)) then host u
  else host u ++ 58 :: decimal (port u).

(** ** Requests *)

Section client.
Context (encode : list Z -> list Z).

Definition request_body (request_id : Z) (tx : list Z) (fanout target_slot : Z) : list Z :=
  quoted "{'jsonrpc':'2.0','id':" ++ decimal request_id ++
  quoted ",'method':'sendTransaction','params':{'transaction':'" ++ encode tx ++
  quoted "','fanout':" ++ decimal fanout ++ quoted ",'target_slot':" ++ decimal target_slot ++ quoted "}}".

Definition build_request (host : str) (request_id : Z) (tx : list Z) (fanout target_slot : Z) : list Z :=
  let body := request_body request_id tx fanout target_slot in
  lit "POST / HTTP/1.1" ++ Http.CRLF ++
  lit "Host: " ++ as_bytes host ++ Http.CRLF ++
  lit "Content-Type: application/json" ++ Http.CRLF ++
  lit "Content-Length: " ++ decimal (Z.of_nat (length body)) ++ Http.CRLF ++
  lit "Connection: keep-alive" ++ Http.CRLF ++ Http.CRLF ++ body.

(** ** Responses *)

Definition find_headers_end (buf : list Z) : option nat :=
  if (length buf <? 4)%nat then None else Http.scan_from buf 0 (length buf - 3).

Definition find_content_length (buf : list Z) (headers_end : nat) : option Z :=
  let headers := take headers_end buf in
  if (length headers <? 15)%nat then None else Http.content_length_scan None headers.

Definition is_body_complete (buf : list Z) (headers_end : nat) : bool :=
  let body_start := (headers_end + 4)%nat in
  match find_content_length buf headers_end with
  | Some content_length => content_length <=? Z.of_nat (length buf - body_start)
  | None => true
  end.

Definition is_complete (buf : list Z) : bool :=
  match find_headers_end buf with
  | Some headers_end => is_body_complete buf headers_end
  | None => false
  end.

(** [u8 - b'0'] of a digit. *)
Definition get_http_status (buf : list Z) : Z :=
  if (length buf <? 12)%nat then 0
  else
    match find_char 32 (take 12 buf) with
    | None => 0
    | Some pos =>
        match drop (pos + 1) buf with
        | d1 :: d2 :: d3 :: _ =>
            if is_ascii_digit d1 && is_ascii_digit d2 && is_ascii_digit d3
            then (d1 - 48) * 100 + (d2 - 48) * 10 + (d3 - 48)
            else 0
        | _ => 0
        end
    end.

Definition find_key (buf key : list Z) : option nat := find_sub buf key.

Definition find_byte (buf : list Z) (needle : Z) : option nat := find_char needle buf.

(** [i32] arithmetic in a release build. *)
Definition wrap_i32 (z : Z) : Z := (z + 2147483648) mod 4294967296 - 2147483648.

Fixpoint read_i32 (l : list Z) (val : Z) : Z :=
  match l with
  | c :: r => if is_ascii_digit c then read_i32 r (wrap_i32 (wrap_i32 (val * 10) + (c - 48))) else val
  | [] => val
  end.

Definition parse_number_after (buf : list Z) : option Z :=
  colon ← find_byte buf 58;
  let rest := drop_while (fun b => (b =? 32) || (b =? 9)) (drop (colon + 1) buf) in
  match rest with
  | [] => None
  | c :: r =>
      let '(negative, digits) := if c =? 45 then (true, r) else (false, rest) in
      match digits with
      | d :: _ =>
          if is_ascii_digit d then
            let val := read_i32 digits 0 in Some (if negative : bool then wrap_i32 (- val) else val)
          else None
      | [] => None
      end
  end.

Definition hex_value (b : Z) : option Z :=
  if (48 <=? b) && (b <=? 57) then Some (b - 48)
  else if (97 <=? b) && (b <=? 102) then Some (b - 97 + 10)
  else if (65 <=? b) && (b <=? 70) then Some (b - 65 + 10)
  else None.

(** [checked_mul] and [checked_add] *)
Fixpoint parse_hex_acc (hex : list Z) (val : Z) : option Z :=
  match hex with
  | [] => Some val
  | b :: r =>
      digit ← hex_value b;
      if val * 16 <? U64 then if val * 16 + digit <? U64 then parse_hex_acc r (val * 16 + digit) else None else None
  end.
Definition parse_hex_u64 (hex : list Z) : option Z := parse_hex_acc hex 0.

Definition find_error_code (body : list Z) : option Z :=
  error_pos ← find_key body (quoted "'error'");
  code_pos ← find_key (drop error_pos body) (quoted "'code'");
  parse_number_after (drop (error_pos + code_pos) body).

Definition find_request_id (body : list Z) : option Z :=
  key_pos ← find_key body (quoted "'request_id'");
  let rest := drop key_pos body in
  colon ← find_byte rest 58;
  quote_start ← find_byte (drop colon rest) 34;
  let value_start := (colon + quote_start + 1)%nat in
  if (length rest <=? value_start)%nat then None
  else
    let value_rest := drop value_start rest in
    quote_end ← find_byte value_rest 34;
    parse_hex_u64 (take quote_end value_rest).

Definition parse_json_rpc_response (body : list Z) : Result Z Error :=
  match find_error_code body with
  | Some code => Err (Rpc code)
  | None =>
      match find_request_id body with
      | Some request_id => Ok request_id
      | None => Err InvalidResponse
      end
  end.

Definition parse_response (buf : list Z) : Result Z Error :=
  match find_headers_end buf with
  | None => Err InvalidHttp
  | Some headers_end =>
      let status := get_http_status buf in
      if (status <? 200) || (300 <=? status) then Err InvalidHttp
      else parse_json_rpc_response (drop (headers_end + 4) buf)
  end.

(** ** Connections *)

(** What a [poll] answers: an error, or the events (none: it timed out). *)
Record io_event : Type := { on_connection : bool; ev_readable : bool; ev_writable : bool; ev_error : bool }.
Inductive poll_result : Type := PollError | Events (events : list io_event).

(** [wait_writable] and [wait_readable]: poll until an event of the connection
    passes [test]; [e] is the error otherwise.  [None]: the answers ran out. *)
Fixpoint wait_for (test : io_event -> bool) (e : Error) (polls : list poll_result)
    : option (Result unit Error * list poll_result) :=
  match polls with
  | [] => None
  | PollError :: polls => Some (Err e, polls)
  | Events events :: polls =>
      if existsb (fun ev => on_connection ev && test ev) events then Some (Ok tt, polls)
      else match events with [] => Some (Err e, polls) | _ => wait_for test e polls end
  end.
Definition wait_writable := wait_for ev_writable Send.
Definition wait_readable := wait_for ev_readable Recv.

(** [take_error]: the call itself can fail, or it gives the error pending on the
    socket, if there is one. *)
Inductive take_error_result : Type := TakeFailed | Taken (pending : bool).

(** The events of one poll in [wait_connected]. *)
Fixpoint connect_events (take_error : take_error_result) (events : list io_event) : option (Result unit Error) :=
  match events with
  | [] => None
  | ev :: events =>
      if on_connection ev then
        if ev_writable ev then Some (match take_error with TakeFailed => Err Connect | Taken _ => Ok tt end)
        else if ev_error ev then Some (Err Connect)
        else connect_events take_error events
      else connect_events take_error events
  end.

Fixpoint wait_connected (take_error : take_error_result) (polls : list poll_result)
    : option (Result unit Error * list poll_result) :=
  match polls with
  | [] => None
  | PollError :: polls => Some (Err Connect, polls)
  | Events events :: polls =>
      match connect_events take_error events with
      | Some r => Some (r, polls)
      | None => match events with [] => Some (Err Connect, polls) | _ => wait_connected take_error polls end
      end
  end.

Inductive ConnState : Type := Disconnected | Connecting | TlsHandshake | Connected.
#[export] Instance ConnState_eq_dec : EqDecision ConnState.
Proof. solve_decision. Defined.

(** [has_stream]: [stream] is [Some].  Addresses, the poll and the TLS state are
    left out. *)
Record Connection : Type := { has_stream : bool; state : ConnState; tls : bool }.

(** What the system answers while a connection is made: whether the stream is
    opened and registered, the polls, the pending error, whether a TLS session
    could be set up and how its handshake ends. *)
Record connect_env : Type := {
  opened : bool; registered : bool; connect_polls : list poll_result; pending : take_error_result;
  tls_made : bool; handshake : Result unit Error }.

Definition do_connect (env : connect_env) (c : Connection) : option (Result unit Error) * Connection :=
  if negb (opened env) then (Some (Err Connect), c)
  else if negb (registered env) then (Some (Err Connect), c)
  else
    let c := {| has_stream := true; state := Connecting; tls := tls c |} in
    match wait_connected (pending env) (connect_polls env) with
    | None => (None, c)
    | Some (Err e, _) => (Some (Err e), c)
    | Some (Ok _, _) =>
        if tls c && negb (tls_made env) then (Some (Err Connect), c)
        else
        match (if tls c then handshake env else Ok tt) with
        | Err e => (Some (Err e), {| has_stream := true; state := TlsHandshake; tls := tls c |})
        | Ok _ => (Some (Ok tt), {| has_stream := true; state := Connected; tls := tls c |})
        end
    end.

Definition reconnect (env : connect_env) (c : Connection) : option (Result unit Error) * Connection :=
  do_connect env {| has_stream := false; state := Disconnected; tls := tls c |}.

Definition is_connected (c : Connection) : bool := bool_decide (state c = Connected).

(** *** A plain stream *)

(** What a [write] and a [read] of the stream answer. *)
Inductive write_result : Type := Wrote (n : nat) | WriteBlocked | WriteInterrupted | WriteError.
Inductive read_result : Type := Got (bytes : list Z) | ReadBlocked | ReadError.

(** The result, the bytes that went out and the polls that are left. *)
Fixpoint send_plain (ws : list write_result) (polls : list poll_result) (data : list Z)
    : option (Result unit Error * list Z * list poll_result) :=
  match data with
  | [] => Some (Ok tt, [], polls)
  | _ =>
      match ws with
      | [] => None
      | Wrote 0 :: _ => Some (Err Send, [], polls)
      | Wrote n :: ws =>
          '(r, out, polls) ← send_plain ws polls (drop n data); Some (r, take n data ++ out, polls)
      | WriteBlocked :: ws =>
          '(r, polls) ← wait_writable polls;
          match r with
          | Ok _ => send_plain ws polls data
          | Err e => Some (Err e, [], polls)
          end
      | WriteInterrupted :: ws => send_plain ws polls data
      | WriteError :: _ => Some (Err Send, [], polls)
      end
  end.

(** [send] of a connection without TLS. *)
Definition conn_send (ws : list write_result) (polls : list poll_result) (data : list Z) (c : Connection)
    : option (Result unit Error * list Z * list poll_result) :=
  if negb (has_stream c) then Some (Err Send, [], polls) else send_plain ws polls data.

(** [recv_plain]: an empty read is the end of the stream. *)
Definition recv_plain (r : read_result) (buf : list Z) : Result (list Z) Error :=
  match r with
  | Got [] => Err Recv
  | Got bytes => Ok (buf ++ bytes)
  | ReadBlocked => Err WouldBlock
  | ReadError => Err Recv
  end.

(** ** The client *)

(** [LandClient]; the two buffers are rebuilt by every call. *)
Record LandClient : Type := { conn : Connection; client_host : str; request_id : Z }.

(** [LandClient::connect]; [resolved]: the name has an address.  [poll_made]: a
    poll could be created. *)
Definition client_connect (resolved poll_made : bool) (env : connect_env) (addr : str)
    : option (Result LandClient Error) :=
  match parse_addr addr with
  | Err e => Some (Err e)
  | Ok u =>
      if negb (resolved && poll_made) then Some (Err Connect)
      else
        match do_connect env {| has_stream := false; state := Disconnected; tls := use_tls u |} with
        | (None, _) => None
        | (Some (Err e), _) => Some (Err e)
        | (Some (Ok _), c) => Some (Ok {| conn := c; client_host := host_header u; request_id := 0 |})
        end
  end.

(** The loop of [send_with_opts] that reads the response; a connection without a
    stream was refused by the send before. *)
Fixpoint recv_loop (polls : list poll_result) (rs : list read_result) (buf : list Z)
    : option (Result (list Z) Error) :=
  '(ready, polls) ← (if bool_decide (buf = []) then wait_readable polls else Some (Ok tt, polls));
  match ready with
  | Err e => Some (Err e)
  | Ok _ =>
      match rs with
      | [] => None
      | r :: rs =>
          match recv_plain r buf with
          | Ok buf => if is_complete buf then Some (Ok buf) else recv_loop polls rs buf
          | Err WouldBlock =>
              '(ready, polls) ← wait_readable polls;
              match ready with Err e => Some (Err e) | Ok _ => recv_loop polls rs buf end
          | Err e => Some (Err e)
          end
      end
  end.

(** [send_with_opts] over a connection without TLS: the result, the bytes sent
    and the client afterwards. *)
Definition send_with_opts (ws : list write_result) (polls : list poll_result) (rs : list read_result)
    (tx : list Z) (opts : SendOptions) (c : LandClient) : option (Result Z Error * list Z) * LandClient :=
  let c := {| conn := conn c; client_host := client_host c; request_id := wrapping_add64 (request_id c) 1 |} in
  let send_buf := build_request (client_host c) (request_id c) tx (get_fanout opts) (get_target_slot opts) in
  (match conn_send ws polls send_buf (conn c) with
   | None => None
   | Some (Err e, out, _) => Some (Err e, out)
   | Some (Ok _, out, polls) =>
       match recv_loop polls rs [] with
       | None => None
       | Some (Err e) => Some (Err e, out)
       | Some (Ok buf) => Some (parse_response buf, out)
       end
   end, c).

Definition client_send ws polls rs tx := send_with_opts ws polls rs tx send_options_default.

End client.
