(* ===== verification/ClientSpec.v ===== *)
(** * ClientSpec: the client and the server understand each other

    The client's framing of responses is the server's framing of requests; what
    the client prints is a request of the reference printer, which the server
    takes in as it was meant; what the server answers, however the stream cuts
    it, the client reads as it was meant. *)
From S2P Require Import Prelude Str Request Http HttpSpec Scan Client.
From S2P Require Server.

(** ** Framing *)

Lemma find_headers_end_same buf : Client.find_headers_end buf = Http.find_headers_end buf.
Proof.
  unfold Client.find_headers_end, Http.find_headers_end. destruct (Nat.ltb_spec (length buf) 4); [|done].
  by replace (length buf - 3)%nat with 0%nat by lia.
Qed.

Lemma find_content_length_same buf h :
  Client.find_content_length buf h = find_content_length_bytes (take h buf).
Proof.
  unfold Client.find_content_length, find_content_length_bytes.
  destruct (Nat.ltb_spec (length (take h buf)) 15) as [Hl|]; [|done].
  destruct (take h buf) as [|c r]; [done|]. cbn [content_length_scan].
  by rewrite (proj2 (Nat.ltb_lt _ _) Hl).
Qed.

Lemma is_complete_same buf : Client.is_complete buf = Http.is_complete buf.
Proof.
  unfold Client.is_complete, Http.is_complete, Client.is_body_complete, Http.is_body_complete.
  rewrite find_headers_end_same. destruct (Http.find_headers_end buf); [|done].
  by rewrite find_content_length_same.
Qed.

(** ** Requests *)

Definition client_headers (host : str) : list (str * str) :=
  [(lit "Host", host); (lit "Content-Type", lit "application/json")].

Lemma build_request_print encode host id tx fo ts :
  value_ok host ->
  build_request encode host id tx fo ts
  = print_request (lit "POST") (lit "/") (client_headers host) (request_body encode id tx fo ts) KeepAlive.
Proof.
  intros [Hh _]. unfold build_request. rewrite as_bytes_ascii by (eapply Forall_impl; [exact Hh|]; by intros c [? _]).
  unfold print_request, all_headers, client_headers. cbn [app fmap list_fmap persistence_headers wire].
  unfold header_line, request_line. cbn [fst snd]. rewrite <- !app_assoc. reflexivity.
Qed.

Lemma client_headers_ok host : value_ok host -> Forall header_ok (client_headers host).
Proof.
  intros Hh. apply Forall_cons_2; [|apply Forall_cons_2; [|done]].
  - split; [by apply token_lit|]. by split.
  - split; [by apply token_lit|]. split; [by apply token_value, token_lit|]. by split.
Qed.

(** C26. The server takes in what the client sends.  For a host of ASCII text,
    transaction bytes and a fan-out that is not 0, the request that
    [build_request] prints is complete for the server exactly when its last
    byte has arrived, and if the JSON library reads the document the client
    wrote, [handle_request] queues, under a fresh id, a request with exactly
    these transaction bytes, this fan-out and this target slot, and leaves the
    connection open. *)
Theorem client_request_accepted {Value} (from_value : Value -> Result SendTransactionParams str) from_slice encode
    host id tx fo ts v docid token (st : Server.Server (Value := Value)) k :
  let req := build_request encode host id tx fo ts in
  let q := {| Server.q_request_id := Server.next_request_id st; Server.q_token := token;
              Server.q_request := {| Request.request_id := docid; Request.transaction := tx; Request.fanout := fo; Request.target_slot := ts;
                                     Request.neighbor_fanout := None |} |} in
  value_ok host -> Forall is_byte tx -> 0 < fo ->
  Z.of_nat (length (request_body encode id tx fo ts)) < U64 ->
  encode tx = base64_encode tx ->
  from_slice (request_body encode id tx fo ts)
  = Ok {| jsonrpc := lit "2.0"; Request.id := docid; Request.method := lit "sendTransaction"; Request.params := v |} ->
  from_value v = Ok {| params_transaction := encode tx; params_fanout := fo; params_target_slot := ts;
                       params_neighbor_fanout := None |} ->
  Server.worker_gone st = false -> (k <= length req)%nat ->
  Http.is_complete (take k req) = bool_decide (k = length req) /\
  exists st', Server.handle_request from_value from_slice req token st = (Ok (q, false), st') /\
    Server.requests st' = Server.requests st ++ [q] /\
    Server.next_request_id st' = wrapping_add64 (Server.next_request_id st) 1.
Proof.
  intros req q Hh Htx Hfo Hlen Henc Hs Hv Hw Hk. unfold req in *. rewrite build_request_print in * by done.
  split; [apply wire_complete; [apply lines_all_ok|apply head_content_length|]|].
  all: try (by apply token_lit); try (by apply client_headers_ok); try done.
  unfold Server.handle_request.
  rewrite parse_printed by (done || (by apply token_lit) || (by apply client_headers_ok)).
  rewrite bool_decide_eq_true_2 by done. cbn [negb body connection_close wants_close]. rewrite Hs.
  unfold from_rpc_request, validate, decode_base64. cbn [jsonrpc Request.method params].
  rewrite !bool_decide_eq_true_2 by done. cbn [negb]. rewrite Hv. cbn [params_transaction].
  rewrite Henc, base64_decode_encode by done. cbn [params_fanout params_neighbor_fanout params_target_slot].
  rewrite (proj2 (Z.eqb_neq fo 0)) by lia. cbn [Server.generate_request_id]. unfold Server.send_request.
  cbn [Server.worker_gone]. rewrite Hw. by eexists.
Qed.

Lemma client_request_accepted_witness :
  exists st', Server.handle_request (Value := unit)
      (fun _ => Ok {| params_transaction := lit "SGVsbG8="; params_fanout := 2; params_target_slot := 9;
                      params_neighbor_fanout := None |})
      (fun _ => Ok {| jsonrpc := lit "2.0"; Request.id := tt; Request.method := lit "sendTransaction";
                      Request.params := tt |})
      (build_request base64_encode (lit "localhost:8080") 1 (lit "Hello") 2 9) 4 Server.server_new
    = (Ok ({| Server.q_request_id := 1; Server.q_token := 4;
              Server.q_request := {| Request.request_id := tt; Request.transaction := lit "Hello"; Request.fanout := 2;
                                     Request.target_slot := 9; Request.neighbor_fanout := None |} |}, false), st') /\
    length (Server.requests st') = 1%nat.
Proof.
  destruct (client_request_accepted
    (fun _ : unit => Ok {| params_transaction := lit "SGVsbG8="; params_fanout := 2; params_target_slot := 9;
                           params_neighbor_fanout := None |})
    (fun _ => Ok {| jsonrpc := lit "2.0"; Request.id := tt; Request.method := lit "sendTransaction";
                    Request.params := tt |})
    base64_encode (lit "localhost:8080") 1 (lit "Hello") 2 9 tt tt 4 Server.server_new 0) as (_ & st' & Hh & Hr & _).
  - split; [by apply lit_chars_ok|]. split; intros c [= <-]; reflexivity.
  - repeat constructor; vm_compute; done.
  - done.
  - vm_compute. done.
  - reflexivity.
  - reflexivity.
  - reflexivity.
  - reflexivity.
  - apply Nat.le_0_l.
  - exists st'. split; [exact Hh|]. by rewrite Hr.
Defined.

(** ** Addresses *)

Definition scheme (u : UrlInfo) : str := if use_tls u then lit "https://" else lit "http://".

Lemma rfind_none c s : Forall (fun x => x <> c) s -> rfind c s = None.
Proof. induction 1 as [|x s Hx Hs IH]; [done|]. cbn [rfind]. by rewrite IH, (proj2 (Z.eqb_neq x c) Hx). Qed.

Lemma rfind_app c s r : Forall (fun x => x <> c) r -> rfind c (s ++ c :: r) = Some (length s).
Proof.
  intros Hr. induction s as [|x s IH]; cbn [app rfind length]; [by rewrite rfind_none, Z.eqb_refl by done|].
  by rewrite IH.
Qed.

Lemma decimal_digits n : forallb is_ascii_digit (decimal n) = true.
Proof.
  apply forallb_forall. intros c Hc. apply list_elem_of_In in Hc. pose proof (decimal_chars n) as Hd.
  rewrite Forall_forall in Hd. by apply Hd.
Qed.

Lemma decimal_not c n : is_ascii_digit c = false -> Forall (fun x => x <> c) (decimal n).
Proof. intros Hc. eapply Forall_impl; [apply decimal_chars|]. cbv beta. by intros x Hx ->; rewrite Hc in Hx. Qed.

Lemma parse_u16_decimal n : 0 <= n < 65536 -> parse_u16 (decimal n) = Some n.
Proof.
  intros Hn. unfold parse_u16. rewrite parse_decimal by (unfold U64; lia). by rewrite (proj2 (Z.ltb_lt _ _)) by lia.
Qed.

(** An address made of the scheme and the Host header of [u] is parsed as [u]:
    the port that the header leaves out is the one the scheme stands for. *)
Lemma parse_addr_host_header u :
  Forall (fun c => c <> 58 /\ c <> 47) (host u) -> 0 <= port u < 65536 ->
  parse_addr (scheme u ++ host_header u) = Ok u.
Proof.
  intros Hh Hp. destruct u as [h p t]. cbn [host port] in *.
  assert (parse_addr (scheme {| host := h; port := p; use_tls := t |} ++ host_header {| host := h; port := p; use_tls := t |})
          = parse_authority (host_header {| host := h; port := p; use_tls := t |}) t) as -> by (by destruct t).
  assert (H47 : Forall (fun c => c <> 47) h) by (eapply Forall_impl; [exact Hh|]; by intros c [_ ?]).
  assert (H58 : Forall (fun c => c <> 58) h) by (eapply Forall_impl; [exact Hh|]; by intros c [? _]).
  unfold parse_authority, host_header. cbn [use_tls port host].
  destruct ((t && (p =? 443)) || (negb t && (p =? 80))) eqn:E.
  - rewrite split_on_none, rfind_none by done. do 2 f_equal. destruct t; cbn in E; lia.
  - rewrite split_on_none by (apply Forall_app_2; [done|]; apply Forall_cons_2; [done|by apply decimal_not]).
    rewrite rfind_app by (by apply decimal_not). rewrite drop_app_add. cbn [drop]. rewrite drop_0.
    rewrite decimal_digits, parse_u16_decimal, take_app_length by done.
    destruct (decimal_cons p) as (c & s & ->). by rewrite bool_decide_eq_false_2.
Qed.

(** ** Hexadecimal numbers *)

Lemma hex_value_digit d : 0 <= d < 16 -> hex_value (Server.hex_digit d) = Some d.
Proof.
  intros Hd. pose proof (seqZ_forallb (fun d => default (-1) (hex_value (Server.hex_digit d)) =? d) 0 16 d
    ltac:(vm_compute; reflexivity) ltac:(lia)) as Hv. apply Z.eqb_eq in Hv.
  destruct (hex_value _); simpl in Hv; [by subst|lia].
Qed.

Lemma parse_hex_digits n k j :
  0 <= n < U64 -> 0 <= j -> j + Z.of_nat k = 16 ->
  parse_hex_acc ((fun i => Server.hex_digit (n / 16 ^ (15 - i) mod 16)) <$> seqZ j (Z.of_nat k)) (n / 16 ^ (16 - j))
  = Some n.
Proof.
  intros Hn. revert j. induction k as [|k IH]; intros j Hj Hk.
  { replace (16 - j) with 0 by lia. by rewrite Z.div_1_r. }
  rewrite seqZ_cons by lia. cbn [fmap list_fmap parse_hex_acc].
  rewrite hex_value_digit by (apply Z.mod_pos_bound; lia). cbn [mbind option_bind].
  set (a := n / 16 ^ (16 - j)). set (b := n / 16 ^ (15 - j)).
  assert (Hab : a * 16 + b mod 16 = b).
  { unfold a, b. replace (16 - j) with (15 - j + 1) by lia. rewrite Z.pow_add_r, <- Z.div_div by lia.
    change (16 ^ 1) with 16. pose proof (Z.div_mod (n / 16 ^ (15 - j)) 16). lia. }
  assert (Hb : b <= n) by (apply Z.div_le_upper_bound; [lia|]; pose proof (Z.pow_pos_nonneg 16 (15 - j)); nia).
  pose proof (Z.mod_pos_bound b 16).
  rewrite (proj2 (Z.ltb_lt _ _)), (proj2 (Z.ltb_lt _ _)), Hab by lia.
  replace (Z.pred (Z.of_nat (Datatypes.S k))) with (Z.of_nat k) by lia.
  specialize (IH (Z.succ j) ltac:(lia) ltac:(lia)). by replace (16 - Z.succ j) with (15 - j) in IH by lia.
Qed.

Lemma parse_hex16 n : 0 <= n < U64 -> parse_hex_u64 (Server.hex16 n) = Some n.
Proof.
  intros Hn. pose proof (parse_hex_digits n 16 0 Hn ltac:(lia) ltac:(lia)) as H.
  replace (n / 16 ^ (16 - 0)) with 0 in H by (symmetry; apply Z.div_small; unfold U64 in Hn; lia). exact H.
Qed.

Lemma hex16_chars n : Forall (fun c => 48 <= c <= 57 \/ 97 <= c <= 102) (Server.hex16 n).
Proof.
  unfold Server.hex16. apply Forall_fmap, Forall_true. intros i. cbn. unfold Server.hex_digit.
  pose proof (Z.mod_pos_bound (n / 16 ^ (15 - i)) 16). destruct (Z.ltb_spec (n / 16 ^ (15 - i) mod 16) 10); lia.
Qed.

(** ** Responses *)

(** The documents of the two kinds of response. *)
Definition queued_body (id : Z) : list Z :=
  quoted "{'jsonrpc':'2.0','id':" ++ decimal id ++ quoted ",'result':{'status':'queued'," ++
  quoted "'request_id':'" ++ Server.hex16 id ++ quoted "'}}".
Definition failed_body (id : Z) : list Z :=
  quoted "{'jsonrpc':'2.0','id':" ++ decimal id ++ quoted "," ++
  quoted "'error':{'code':-32603,'message':'Empty transaction'}}".

Lemma hex16_no_quote n : Forall (fun c => c <> 34) (Server.hex16 n).
Proof. eapply Forall_impl; [apply hex16_chars|]. cbv beta. lia. Qed.

Lemma clear_hex_value n : clear (quoted "'error'") (34 :: Server.hex16 n) = true.
Proof.
  cbn [clear]. rewrite andb_true_iff. split; [|apply (clear_other 34), hex16_no_quote].
  pose proof (hex16_chars n) as Hc. pose proof (eq_refl : length (Server.hex16 n) = 16%nat) as Hl.
  destruct (Server.hex16 n) as [|x0 [|x1 l]]; [done..|]. repeat (apply Forall_cons in Hc as [? Hc]).
  change (quoted "'error'") with (34 :: 101 :: 114 :: quoted "ror'"). cbn [differs].
  rewrite (proj2 (Z.eqb_neq 114 x1)) by lia. cbn. by rewrite orb_true_r.
Qed.

Lemma queued_no_error id : find_error_code (queued_body id) = None.
Proof.
  unfold find_error_code, find_key. rewrite (find_sub_none (quoted "'error'")); [done|done|]. unfold queued_body.
  apply clear_app; [done|]. apply clear_app; [apply (clear_decimal (quoted "error'"))|].
  apply clear_app; [done|]. change (quoted "'request_id':'") with (quoted "'request_id':" ++ [34]).
  rewrite <- app_assoc. apply clear_app; [done|].
  change ([34] ++ Server.hex16 id ++ quoted "'}}") with ((34 :: Server.hex16 id) ++ quoted "'}}").
  apply clear_app; [apply clear_hex_value|done].
Qed.

Lemma queued_request_id id : 0 <= id < U64 -> find_request_id (queued_body id) = Some id.
Proof.
  intros Hid. unfold find_request_id, find_key, queued_body.
  set (value := quoted "'request_id':'" ++ Server.hex16 id ++ quoted "'}}").
  rewrite !app_assoc, find_sub_at.
  - cbn [mbind option_bind]. rewrite drop_app_length.
    change (find_byte value 58) with (Some 12%nat). cbn [mbind option_bind].
    change (find_byte (drop 12 value) 34) with (Some 1%nat). cbn [mbind option_bind].
    change (length value) with 33%nat. cbn [Nat.leb Nat.add].
    change (drop 14 value) with (Server.hex16 id ++ 34 :: [125; 125]).
    unfold find_byte. rewrite find_char_token by apply hex16_no_quote. cbn [mbind option_bind].
    rewrite take_app_length. by apply parse_hex16.
  - apply clear_app; [|done]. apply clear_app; [done|]. apply (clear_decimal (quoted "request_id'")).
  - reflexivity.
Qed.

Lemma failed_error_code id : find_error_code (failed_body id) = Some (-32603).
Proof.
  unfold find_error_code, find_key, failed_body. rewrite !app_assoc, find_sub_at.
  - cbn [mbind option_bind]. rewrite drop_app_length.
    set (e := quoted "'error':{'code':-32603,'message':'Empty transaction'}}").
    change (find_sub e (quoted "'code'")) with (Some 9%nat). cbn [mbind option_bind].
    rewrite drop_app_add. reflexivity.
  - apply clear_app; [|done]. apply clear_app; [done|]. apply (clear_decimal (quoted "error'")).
  - reflexivity.
Qed.

(** The response of the event loop to a worker's answer, as lines and a body. *)
Definition answer_body {Value} (q : Server.QueuedRequest (Value := Value)) : list Z :=
  if bool_decide (Request.transaction (Server.q_request q) = []) then failed_body (Server.q_request_id q)
  else queued_body (Server.q_request_id q).
Definition answer {Value} (date : list Z) (q : Server.QueuedRequest (Value := Value)) (close : bool) : list Z :=
  (Server.create_response date (Server.process_request q).1 close).1.

Definition status_line : str := lit "HTTP/1.1" ++ 32 :: lit "200 OK".
Definition answer_headers (date : list Z) (n : Z) (close : bool) : list (str * str) :=
  [length_header n; (lit "Date", date); (lit "Content-Type", lit "application/json");
   (lit "Connection", if close then lit "close" else lit "keep-alive")].

Lemma hex16_bytes id : as_bytes (Server.hex16 id) = Server.hex16 id.
Proof. apply as_bytes_ascii. eapply Forall_impl; [apply hex16_chars|]. unfold is_ascii. cbv beta. lia. Qed.

Lemma write_answer {Value} (q : Server.QueuedRequest (Value := Value)) :
  Server.write_json_response [] (Server.process_request q).1 = answer_body q.
Proof.
  unfold Server.process_request, answer_body. case_bool_decide; unfold Server.write_json_response;
    cbn [fst Server.respond Server.r_result Server.r_request_id].
  - unfold failed_body. rewrite <- !app_assoc. reflexivity.
  - unfold queued_body. rewrite hex16_bytes, <- !app_assoc. reflexivity.
Qed.

Lemma answer_wire {Value} date (q : Server.QueuedRequest (Value := Value)) close :
  answer date q close
  = wire status_line (header_line <$> answer_headers date (Z.of_nat (length (answer_body q))) close) (answer_body q).
Proof.
  unfold answer, Server.create_response. cbn [fst]. rewrite write_answer. generalize (answer_body q). intros b.
  unfold build, answer_headers, length_header. destruct close; cbn [fmap list_fmap wire]; unfold header_line; cbn [fst snd].
  all: unfold with_connection_close, with_json_bytes, response_ok;
    cbn [status status_text r_headers r_body keep_alive app mbind list_bind].
  all: unfold header_bytes; cbn [fst snd]; rewrite <- !app_assoc; reflexivity.
Qed.

Lemma answer_lines_ok date n close :
  value_ok date -> Forall line_ok (status_line :: (header_line <$> answer_headers date n close)).
Proof.
  intros Hd. apply Forall_cons_2; [split; [done|]; by apply (lit_chars_ok "HTTP/1.1 200 OK")|].
  unfold answer_headers. rewrite !fmap_cons. repeat apply Forall_cons_2; [..|done].
  - by apply header_line_ok; destruct (length_header_ok n).
  - apply header_line_ok; [by apply token_lit|done].
  - apply header_line_ok; [by apply token_lit|by apply token_value, token_lit].
  - apply header_line_ok; [by apply token_lit|]. destruct close; by apply token_value, token_lit.
Qed.

Lemma answer_body_length {Value} (q : Server.QueuedRequest (Value := Value)) : Z.of_nat (length (answer_body q)) < U64.
Proof.
  unfold answer_body, queued_body, failed_body. pose proof (decimal_at_most_20 (Server.q_request_id q)) as Hd.
  case_bool_decide; rewrite !length_app; unfold quoted; rewrite !length_fmap.
  all: repeat match goal with |- context [length (lit ?s)] =>
         let n := eval vm_compute in (length (lit s)) in change (length (lit s)) with n end.
  all: try change (length (Server.hex16 _)) with 16%nat.
  all: unfold U64; lia.
Qed.

Lemma answer_complete {Value} date (q : Server.QueuedRequest (Value := Value)) close k :
  value_ok date -> (k <= length (answer date q close))%nat ->
  Client.is_complete (take k (answer date q close)) = bool_decide (k = length (answer date q close)).
Proof.
  intros Hd Hk. rewrite is_complete_same. rewrite answer_wire in *.
  apply wire_complete; [by apply answer_lines_ok| |done].
  unfold find_content_length_bytes, answer_headers. rewrite fmap_cons.
  pose proof (answer_body_length q).
  apply (scan_block None (lit "HTTP/1.1") 32 (lit "200 OK") []); [lia| | |auto|done|done].
  - split; [done|]. by apply (lit_chars_ok "HTTP/1.1 200 OK").
  - by apply (token_lit "HTTP/1.1").
Qed.

(** What the client makes of it. *)
Definition outcome {Value} (q : Server.QueuedRequest (Value := Value)) : Result Z Error :=
  if bool_decide (Request.transaction (Server.q_request q) = []) then Err (Rpc (-32603)) else Ok (Server.q_request_id q).

Lemma parse_answer {Value} date (q : Server.QueuedRequest (Value := Value)) close :
  value_ok date -> 0 <= Server.q_request_id q < U64 -> parse_response (answer date q close) = outcome q.
Proof.
  intros Hd Hid. unfold parse_response. rewrite find_headers_end_same, answer_wire.
  rewrite (proj2 (find_headers_end_spec _ _) (wire_first_end _ _ _ (answer_lines_ok _ _ _ Hd))).
  assert (Hst : get_http_status (answer date q close) = 200).
  { rewrite answer_wire. by destruct (wire_cons_app status_line (header_line <$> answer_headers date
      (Z.of_nat (length (answer_body q))) close) (answer_body q)) as [rest ->]. }
  rewrite answer_wire in Hst. rewrite Hst. cbn [Z.ltb Z.leb Z.compare Pos.compare Pos.compare_cont orb].
  rewrite wire_block, drop_app_add. cbn [CRLF2 app drop]. rewrite drop_0.
  unfold parse_json_rpc_response, answer_body, outcome.
  case_bool_decide; [by rewrite failed_error_code|]. by rewrite queued_no_error, queued_request_id.
Qed.

(** ** The exchange *)

(** Writes that accept [n] bytes or more before any of them fails. *)
Fixpoint writes_take (ws : list write_result) (n : nat) : bool :=
  match n, ws with
  | 0, _ => true
  | _, Wrote (Datatypes.S k) :: ws => writes_take ws (n - Datatypes.S k)
  | _, WriteBlocked :: ws | _, WriteInterrupted :: ws => writes_take ws n
  | _, _ => false
  end%nat.

(** Reads that give bytes or block. *)
Definition read_ok (r : read_result) : bool :=
  match r with
  | Got (_ :: _) | ReadBlocked => true
  | _ => false
  end.
Fixpoint read_bytes (rs : list read_result) : list Z :=
  match rs with
  | Got bytes :: rs => bytes ++ read_bytes rs
  | _ :: rs => read_bytes rs
  | [] => []
  end.

(** Polls that neither fail nor time out; how many of them find the connection
    readable and writable. *)
Definition poll_ok (p : poll_result) : bool :=
  match p with
  | Events (_ :: _) => true
  | _ => false
  end.
Definition poll_ready (p : poll_result) : bool :=
  match p with
  | Events events => existsb (fun ev => on_connection ev && (ev_readable ev && ev_writable ev)) events
  | PollError => false
  end.
Definition ready_polls (ps : list poll_result) : nat := length (filter poll_ready ps).

(** What remains after a wait: at most one ready poll was used. *)
Definition rest_of (ps rest : list poll_result) : Prop :=
  forallb poll_ok rest = true /\ (ready_polls ps <= Datatypes.S (ready_polls rest))%nat.

Lemma ready_cons p ps : ready_polls (p :: ps) = ((if poll_ready p then 1 else 0) + ready_polls ps)%nat.
Proof. unfold ready_polls. rewrite filter_cons. destruct (poll_ready p); by case_decide. Qed.

Lemma wait_for_ready test e ps :
  (forall ev, ev_readable ev && ev_writable ev = true -> test ev = true) ->
  forallb poll_ok ps = true -> (0 < ready_polls ps)%nat ->
  exists rest, wait_for test e ps = Some (Ok tt, rest) /\ rest_of ps rest.
Proof.
  intros Htest. induction ps as [|p ps IH]; intros Hok Hr; [by apply Nat.lt_irrefl in Hr|].
  cbn [forallb] in Hok. apply andb_true_iff in Hok as [Hp Hok]. rewrite ready_cons in Hr.
  destruct p as [|[|ev evs]]; [done..|]. unfold rest_of. rewrite ready_cons. cbn [wait_for].
  destruct (existsb (fun ev => on_connection ev && test ev) (ev :: evs)) eqn:Et.
  - exists ps. split; [done|]. split; [done|]. destruct (poll_ready _); lia.
  - assert (poll_ready (Events (ev :: evs)) = false) as Hn.
    { apply not_true_is_false. unfold poll_ready. intros (x & Hx & Hb)%existsb_exists.
      apply andb_true_iff in Hb as [Hc Hb]. apply Htest in Hb.
      assert (existsb (fun ev => on_connection ev && test ev) (ev :: evs) = true) as Ht; [|congruence].
      apply existsb_exists. exists x. by rewrite Hc, Hb. }
    rewrite Hn in *. destruct (IH Hok Hr) as (rest & Hw & Hrest). by exists rest.
Qed.

Lemma wait_writable_ready ps : forallb poll_ok ps = true -> (0 < ready_polls ps)%nat ->
  exists rest, wait_writable ps = Some (Ok tt, rest) /\ rest_of ps rest.
Proof. apply wait_for_ready. by intros ev [_ ?]%andb_true_iff. Qed.

Lemma wait_readable_ready ps : forallb poll_ok ps = true -> (0 < ready_polls ps)%nat ->
  exists rest, wait_readable ps = Some (Ok tt, rest) /\ rest_of ps rest.
Proof. apply wait_for_ready. by intros ev [? _]%andb_true_iff. Qed.

Lemma send_plain_all ws ps data :
  writes_take ws (length data) = true -> forallb poll_ok ps = true -> (length ws <= ready_polls ps)%nat ->
  exists rest, send_plain ws ps data = Some (Ok tt, data, rest) /\ forallb poll_ok rest = true /\
    (ready_polls ps <= length ws + ready_polls rest)%nat.
Proof.
  revert ps data. induction ws as [|w ws IH]; intros ps data H Hok Hr.
  { destruct data; [|done]. by exists ps. }
  destruct data as [|d data]; [exists ps; split; [done|split; [done|lia]]|].
  cbn [writes_take length send_plain] in *. destruct w as [[|k]| | |]; try done.
  - destruct (IH ps (drop (Datatypes.S k) (d :: data))) as (rest & Hs & Hrest & Hl); [by rewrite length_drop|done|lia|].
    exists rest. rewrite Hs. cbn [mbind option_bind]. rewrite take_drop. split; [done|split; [done|lia]].
  - destruct (wait_writable_ready ps Hok) as (ps' & Hw & Hok' & Hl'); [lia|]. rewrite Hw. cbn [mbind option_bind].
    destruct (IH ps' (d :: data)) as (rest & Hs & Hrest & Hl); [done|done|lia|].
    exists rest. split; [done|split; [done|lia]].
  - destruct (IH ps (d :: data)) as (rest & Hs & Hrest & Hl); [done|done|lia|].
    exists rest. split; [done|split; [done|lia]].
Qed.

Lemma recv_loop_reads ps rs buf msg :
  (forall k, (k <= length msg)%nat -> Client.is_complete (take k msg) = bool_decide (k = length msg)) ->
  forallb read_ok rs = true -> buf ++ read_bytes rs = msg -> read_bytes rs <> [] ->
  forallb poll_ok ps = true -> (2 * length rs <= ready_polls ps)%nat ->
  recv_loop ps rs buf = Some (Ok msg).
Proof.
  intros Hmsg. revert ps buf. induction rs as [|r rs IH]; intros ps buf Hok Hb Hne Hps Hl; [done|].
  cbn [forallb length] in *. apply andb_true_iff in Hok as [Hr Hok]. cbn [recv_loop].
  assert (Hw : exists ps', (if bool_decide (buf = []) then wait_readable ps else Some (Ok tt, ps)) = Some (Ok tt, ps') /\
                           rest_of ps ps').
  { case_bool_decide; [apply wait_readable_ready; [done|lia]|]. exists ps. split; [done|]. split; [done|lia]. }
  destruct Hw as (ps' & -> & Hps' & Hl'). cbn [mbind option_bind].
  destruct r as [[|x bytes]| |]; try done; cbn [read_bytes recv_plain] in *.
  - rewrite app_assoc in Hb. pose proof (Hmsg (length (buf ++ x :: bytes))) as Hc.
    rewrite <- Hb, take_app_length in Hc. rewrite Hc by (rewrite !length_app; lia).
    rewrite (length_app (buf ++ x :: bytes)). clear Hc. case_bool_decide as Hd.
    + destruct (read_bytes rs) as [|y l] eqn:E; [rewrite app_nil_r in Hb; by rewrite Hb|cbn [length] in Hd; lia].
    + apply IH; [done|done| |done|lia]. intros E. rewrite E in Hd. simpl in Hd. lia.
  - destruct (wait_readable_ready ps' Hps') as (ps'' & -> & Hps'' & Hl''); [lia|]. cbn [mbind option_bind].
    apply IH; [done..|lia].
Qed.

(** C27. The client gets the server's answer.  Whatever the sizes of the writes
    and reads of a plain connection, however often they block in between and
    whatever other events the polls report, as long as the writes take the
    request, the reads give the response the event loop makes of the worker's
    answer, no poll fails or times out and enough of them find the connection
    ready, [send_with_opts] sends exactly the request [build_request] prints,
    returns the server's request id for a transaction the worker passed on and
    the RPC error -32603 for an empty one, and counts the request. *)
Theorem client_gets_answer {Value} encode ws polls rs tx opts c (q : Server.QueuedRequest (Value := Value)) date close :
  let next := wrapping_add64 (Client.request_id c) 1 in
  let req := build_request encode (client_host c) next tx (get_fanout opts) (get_target_slot opts) in
  let reply := (Server.create_response date (Server.process_request q).1 close).1 in
  has_stream (conn c) = true -> writes_take ws (length req) = true ->
  forallb read_ok rs = true -> read_bytes rs = reply ->
  forallb poll_ok polls = true -> (length ws + 2 * length rs <= ready_polls polls)%nat ->
  value_ok date -> 0 <= Server.q_request_id q < U64 ->
  send_with_opts encode ws polls rs tx opts c
  = (Some (if bool_decide (Request.transaction (Server.q_request q) = []) then Err (Rpc (-32603))
           else Ok (Server.q_request_id q), req),
     {| conn := conn c; client_host := client_host c; Client.request_id := next |}).
Proof.
  intros next req reply Hst Hws Hok Hrs Hps Hlen Hd Hid.
  change reply with (answer date q close) in Hrs. unfold send_with_opts, conn_send.
  cbn [conn client_host Client.request_id]. rewrite Hst. cbn [negb]. fold next. fold req.
  destruct (send_plain_all ws polls req) as (rest & -> & Hrest & Hl); [done|done|lia|].
  rewrite (recv_loop_reads _ _ _ (answer date q close)); [|intros k Hk; by apply answer_complete|done|done| |done|lia].
  - by rewrite parse_answer.
  - rewrite Hrs, answer_wire. destruct (wire_cons_app status_line (header_line <$> answer_headers date
      (Z.of_nat (length (answer_body q))) close) (answer_body q)) as [rest' ->]. done.
Qed.

(** A request with id 26 answered in three reads with a wait between them; the
    request goes out in two writes. *)
Definition demo_queued (tx : list Z) : Server.QueuedRequest (Value := unit) :=
  {| Server.q_request_id := 26; Server.q_token := 3;
     Server.q_request := {| Request.request_id := tt; Request.transaction := tx; Request.fanout := 1;
                            Request.target_slot := 0; Request.neighbor_fanout := None |} |}.
Definition demo_date : list Z := lit "Thu, 01 Jan 1970 00:00:00 GMT".
Definition demo_reply : list Z :=
  (Server.create_response demo_date (Server.process_request (demo_queued (lit "Hello"))).1 false).1.
Definition demo_client : LandClient :=
  {| conn := {| has_stream := true; state := Connected; tls := false |}; client_host := lit "localhost";
     Client.request_id := 0 |}.
Definition demo_poll (r w : bool) : poll_result :=
  Events [{| on_connection := true; ev_readable := r; ev_writable := w; ev_error := false |}].

Lemma client_gets_answer_witness :
  send_with_opts base64_encode [Wrote 40; WriteBlocked; WriteInterrupted; Wrote 500]
    (demo_poll true false :: replicate 12 (demo_poll true true))
    [Got (take 7 demo_reply); ReadBlocked; Got (take 80 (drop 7 demo_reply)); Got (drop 87 demo_reply)]
    (lit "Hello") send_options_default demo_client
  = (Some (Ok 26, build_request base64_encode (lit "localhost") 1 (lit "Hello") 1 0),
     {| conn := conn demo_client; client_host := lit "localhost"; Client.request_id := 1 |}).
Proof.
  refine (client_gets_answer base64_encode _ _ _ _ _ _ (demo_queued (lit "Hello")) demo_date false _ _ _ _ _ _ _ _).
  - reflexivity.
  - vm_compute. reflexivity.
  - vm_compute. reflexivity.
  - vm_compute. reflexivity.
  - vm_compute. reflexivity.
  - vm_compute. lia.
  - split; [by apply lit_chars_ok|]. split; intros c [= <-]; reflexivity.
  - split; [discriminate|reflexivity].
Defined.

(** ** Refused connections *)

Definition with_pending (p : bool) (env : connect_env) : connect_env :=
  {| opened := opened env; registered := registered env; connect_polls := connect_polls env; pending := Taken p;
     tls_made := tls_made env; handshake := handshake env |}.

Lemma connect_events_pending p evs : connect_events (Taken p) evs = connect_events (Taken false) evs.
Proof. induction evs as [|ev evs IH]; [done|]. cbn [connect_events]. by rewrite IH. Qed.

Lemma wait_connected_pending p ps : wait_connected (Taken p) ps = wait_connected (Taken false) ps.
Proof.
  induction ps as [|[|evs] ps IH]; [done..|]. cbn [wait_connected]. rewrite connect_events_pending.
  by destruct (connect_events _ evs), evs.
Qed.

(** C40. A refused connection is taken for a good one.  [wait_connected] looks
    only for a failure of [take_error] itself, not for the error it returns: an
    error pending on the socket changes nothing about [connect].  When a poll
    finds the socket writable and in error, as a refused connection is,
    [connect] to a plain address succeeds and the client says it is connected. *)
Theorem connect_ignores_pending_error resolved poll_made env addr :
  client_connect resolved poll_made (with_pending true env) addr
  = client_connect resolved poll_made (with_pending false env) addr /\
  (forall u polls, parse_addr addr = Ok u -> use_tls u = false ->
   exists c, client_connect true true
       {| opened := true; registered := true; pending := Taken true; tls_made := tls_made env; handshake := handshake env;
          connect_polls := Events [{| on_connection := true; ev_readable := true; ev_writable := true;
                                      ev_error := true |}] :: polls |} addr = Some (Ok c) /\
     is_connected (conn c) = true).
Proof.
  split.
  - unfold client_connect, do_connect. cbn [with_pending opened registered connect_polls pending tls_made handshake].
    by rewrite wait_connected_pending.
  - intros u polls Hu Ht. unfold client_connect. rewrite Hu, Ht. eexists. split; reflexivity.
Qed.

Lemma connect_ignores_pending_error_witness :
  exists c, client_connect true true
       {| opened := true; registered := true; pending := Taken true; tls_made := false; handshake := Ok tt;
          connect_polls := [Events [{| on_connection := true; ev_readable := true; ev_writable := true;
                                       ev_error := true |}]] |} (lit "127.0.0.1:8080") = Some (Ok c) /\
     is_connected (conn c) = true.
Proof.
  refine (proj2 (connect_ignores_pending_error true true
    {| opened := true; registered := true; pending := Taken true; tls_made := false; handshake := Ok tt; connect_polls := [] |}
    (lit "127.0.0.1:8080")) {| host := lit "127.0.0.1"; port := 8080; use_tls := false |} [] _ _).
  - vm_compute. reflexivity.
  - reflexivity.
Defined.
