(* ===== verification/Pubsub.v ===== *)
(** * Pubsub: slot notifications over a websocket

    [pubsub/src] (frames and handshake of [websocket.rs], [parser.rs], [types.rs],
    the thread of [subscriber.rs]) and the loop of [leader/src/slot_subscriber.rs]
    that publishes the slot.  What a TCP stream gives is the list of bytes it
    delivers before it ends or fails; the clock that seeds keys and masks is an
    argument, SHA-1 and the base64 encoder are parameters.  The channel between
    the two threads is a first-in first-out list, which is what the refinement
    theorem of the SPSC channel justifies. *)
From S2P Require Import Prelude Str Scan.

(** ** Types and errors *)

Inductive Error : Type :=
| Io | InvalidHandshake (s : str) | InvalidFrame (s : str) | ConnectionClosed | InvalidJson (s : str)
| AlreadyStarted | NotStarted | ChannelFull | ChannelDisconnected.

Record SlotInfo : Type := { slot : Z; parent : Z; root : Z }.
Definition slot_info_default : SlotInfo := {| slot := 0; parent := 0; root := 0 |}.

Inductive Frame : Type := Text (s : str) | Ping (data : list Z) | Pong | Close.

(** [String::from_utf8_lossy]: every maximal ill-formed piece becomes U+FFFD. *)
Definition REPLACEMENT : Z := 65533.
Fixpoint from_utf8_lossy (bs : list Z) : str :=
  match bs with
  | [] => []
  | b0 :: r0 =>
      if b0 <? 128 then b0 :: from_utf8_lossy r0
      else if continuation 194 223 b0 then
        match r0 with
        | b1 :: r1 =>
            if cont b1 then ((b0 - 192) * 64 + (b1 - 128)) :: from_utf8_lossy r1
            else REPLACEMENT :: from_utf8_lossy r0
        | [] => [REPLACEMENT]
        end
      else if continuation 224 239 b0 then
        match r0 with
        | b1 :: r1 =>
            if (if b0 =? 224 then continuation 160 191 b1
                else if b0 =? 237 then continuation 128 159 b1 else cont b1) then
              match r1 with
              | b2 :: r2 =>
                  if cont b2 then ((b0 - 224) * 4096 + (b1 - 128) * 64 + (b2 - 128)) :: from_utf8_lossy r2
                  else REPLACEMENT :: from_utf8_lossy r1
              | [] => [REPLACEMENT]
              end
            else REPLACEMENT :: from_utf8_lossy r0
        | [] => [REPLACEMENT]
        end
      else if continuation 240 244 b0 then
        match r0 with
        | b1 :: r1 =>
            if (if b0 =? 240 then continuation 144 191 b1
                else if b0 =? 244 then continuation 128 143 b1 else cont b1) then
              match r1 with
              | b2 :: r2 =>
                  if cont b2 then
                    match r2 with
                    | b3 :: r3 =>
                        if cont b3
                        then ((b0 - 240) * 262144 + (b1 - 128) * 4096 + (b2 - 128) * 64 + (b3 - 128))
                               :: from_utf8_lossy r3
                        else REPLACEMENT :: from_utf8_lossy r2
                    | [] => [REPLACEMENT]
                    end
                  else REPLACEMENT :: from_utf8_lossy r1
              | [] => [REPLACEMENT]
              end
            else REPLACEMENT :: from_utf8_lossy r0
        | [] => [REPLACEMENT]
        end
      else REPLACEMENT :: from_utf8_lossy r0
  end.

(** ** Websocket *)

Definition OPCODE_TEXT : Z := 1.
Definition OPCODE_CLOSE : Z := 8.
Definition OPCODE_PING : Z := 9.
Definition OPCODE_PONG : Z := 10.
Definition WEBSOCKET_GUID : str := lit "258EAFA5-E914-47DA-95CA-C5AB0DC85B11".

(** [u16::from_be_bytes], [u64::from_be_bytes] *)
Definition from_be_bytes (bs : list Z) : Z := fold_left (fun n b => n * 256 + b) bs 0.
(** The last [k] bytes of [n], most significant first: [n as uN] and
    [to_be_bytes]. *)
Fixpoint to_be_bytes (k : nat) (n : Z) : list Z :=
  match k with
  | 0%nat => []
  | Datatypes.S k => to_be_bytes k (n / 256) ++ [n mod 256]
  end.

Definition read_exact (n : nat) (stream : list Z) : Result (list Z * list Z) Error :=
  if (n <=? length stream)%nat then Ok (take n stream, drop n stream) else Err Io.

(** Above [isize::MAX] a [resize] panics. *)
Definition ISIZE_MAX : Z := 2 ^ 63 - 1.

(** The frame and the bytes of the stream that are left. *)
Definition read_payload (opcode payload_len : Z) (stream : list Z)
    : Result (Result (Frame * list Z) Error) fault :=
  if ISIZE_MAX <? payload_len then Err (Panic "capacity overflow")
  else
    Ok (match (if payload_len <=? Z.of_nat (length stream) then read_exact (Z.to_nat payload_len) stream
               else Err Io) with
        | Err e => Err e
        | Ok (read_buf, stream) =>
            if opcode =? OPCODE_TEXT then Ok (Text (from_utf8_lossy read_buf), stream)
            else if opcode =? OPCODE_PING then Ok (Ping read_buf, stream)
            else if opcode =? OPCODE_PONG then Ok (Pong, stream)
            else if opcode =? OPCODE_CLOSE then Ok (Close, stream)
            else Err (InvalidFrame (lit "unknown opcode: " ++ decimal opcode))
        end).

(** The length after the seven bits [len7] of the header. *)
Definition read_length (len7 : Z) (stream : list Z) : Result (Z * list Z) Error :=
  if len7 =? 126 then
    match read_exact 2 stream with Err e => Err e | Ok (bs, stream) => Ok (from_be_bytes bs, stream) end
  else if len7 =? 127 then
    match read_exact 8 stream with Err e => Err e | Ok (bs, stream) => Ok (from_be_bytes bs, stream) end
  else Ok (len7, stream).

Definition read_frame (stream : list Z) : Result (Result (Frame * list Z) Error) fault :=
  match read_exact 2 stream with
  | Ok ([h0; h1], stream) =>
      let opcode := Z.land h0 15 in
      let masked := negb (Z.land h1 128 =? 0) in
      match read_length (Z.land h1 127) stream with
      | Err e => Ok (Err e)
      | Ok (payload_len, stream) =>
          match (if masked then read_exact 4 stream else Ok ([], stream)) with
          | Err e => Ok (Err e)
          | Ok (_, stream) => read_payload opcode payload_len stream
          end
      end
  | Ok _ => Ok (Err Io)
  | Err e => Ok (Err e)
  end.

(** The bytes of the clock's nanoseconds, as [u32]. *)
Definition generate_mask_key (nonce : Z) : list Z := to_be_bytes 4 nonce.

Fixpoint mask_payload (mask : list Z) (i : nat) (payload : list Z) : list Z :=
  match payload with
  | [] => []
  | byte :: r => Z.lxor byte (default 0 (mask !! (i mod 4)%nat)) :: mask_payload mask (Datatypes.S i) r
  end.

(** What [write_frame] writes. *)
Definition write_frame (nonce opcode : Z) (payload : list Z) : list Z :=
  let len := Z.of_nat (length payload) in
  let mask := generate_mask_key nonce in
  Z.lor 128 opcode ::
  (if len <? 126 then [Z.lor 128 len]
   else if len <? 65536 then Z.lor 128 126 :: to_be_bytes 2 len
   else Z.lor 128 127 :: to_be_bytes 8 len) ++
  mask ++ mask_payload mask 0 payload.

Definition write_text (nonce : Z) (text : str) : list Z := write_frame nonce OPCODE_TEXT (as_bytes text).
Definition write_pong (nonce : Z) (data : list Z) : list Z := write_frame nonce OPCODE_PONG data.
Definition write_close (nonce : Z) : list Z := write_frame nonce OPCODE_CLOSE [].

Definition parse_ws_url (url : str) : Result (str * Z * str) Error :=
  if negb (starts_with (lit "ws://") url) then Err (InvalidHandshake (lit "url must start with ws://"))
  else
    let url := drop 5 url in
    let '(host_port, path) :=
      match find_char 47 url with
      | Some idx => (take idx url, drop idx url)
      | None => (url, lit "/")
      end in
    match find_char 58 host_port with
    | Some idx =>
        match parse_u16 (drop (idx + 1) host_port) with
        | Some port => Ok (take idx host_port, port, path)
        | None => Err (InvalidHandshake (lit "invalid port"))
        end
    | None => Ok (host_port, 80, path)
    end.

Section handshake.
Context (sha1 : list Z -> list Z) (encode : list Z -> list Z).

Definition generate_ws_key (nonce : Z) : str :=
  encode (to_be_bytes 8 nonce ++
          ((fun x => Z.lxor nonce x mod 256) <$> [255; 170; 85; 15; 240; 51; 204; 153])).

Definition compute_accept_key (key : str) : str := encode (sha1 (as_bytes (key ++ WEBSOCKET_GUID))).

Definition handshake_request (path host key : str) : list Z :=
  as_bytes (lit "GET " ++ path ++ lit " HTTP/1.1" ++ [13; 10] ++ lit "Host: " ++ host ++ [13; 10] ++
            lit "Upgrade: websocket" ++ [13; 10] ++ lit "Connection: Upgrade" ++ [13; 10] ++
            lit "Sec-WebSocket-Key: " ++ key ++ [13; 10] ++ lit "Sec-WebSocket-Version: 13" ++ [13; 10; 13; 10]).

Definition contains (s pat : str) : bool := bool_decide (is_Some (find_sub s pat)).

(** [connect] once the stream is open: [answer] is what the one [read] of at most
    4096 bytes gives ([None]: it failed, or the request could not be written). *)
Definition ws_connect (nonce : Z) (opened : bool) (answer : option (list Z)) (url : str) : Result (list Z) Error :=
  match parse_ws_url url with
  | Err e => Err e
  | Ok (host, port, path) =>
      if negb opened then Err Io
      else
        let key := generate_ws_key nonce in
        match answer with
        | None => Err Io
        | Some buf =>
            let response := from_utf8_lossy (take 4096 buf) in
            if negb (contains response (lit "HTTP/1.1 101")) then
              Err (InvalidHandshake (lit "server did not accept upgrade"))
            else if negb (contains response (compute_accept_key key)) then
              Err (InvalidHandshake (lit "invalid sec-websocket-accept"))
            else Ok (handshake_request path host key)
        end
  end.

End handshake.

(** ** Notifications *)

Definition extract_u64_field (json field : str) : option Z :=
  let pattern := 34 :: field ++ [34; 58] in
  pos ← find_sub json pattern;
  let rest := drop (pos + length pattern) json in
  parse_usize (take (length rest - length (drop_while is_ascii_digit rest)) rest).

Definition parse_subscription_response (json : str) : option Z := extract_u64_field json (lit "result").

Definition parse_slot_notification (json : str) : option SlotInfo :=
  result_start ← find_sub json (quoted "'result':");
  let result_json := drop (result_start + 9) json in
  s ← extract_u64_field result_json (lit "slot");
  p ← extract_u64_field result_json (lit "parent");
  r ← extract_u64_field result_json (lit "root");
  Some {| slot := s; parent := p; root := r |}.

(** ** The subscriber's thread *)

(** [connected] and [last_slot] of [ConnectionState], and what is in the channel. *)
Record Subscriber : Type := { connected : bool; last_slot : Z; queue : list SlotInfo }.
Definition subscriber_new : Subscriber := {| connected := false; last_slot := 0; queue := [] |}.
Definition set_connected (b : bool) (s : Subscriber) : Subscriber :=
  {| connected := b; last_slot := last_slot s; queue := queue s |}.
Definition publish (info : SlotInfo) (s : Subscriber) : Subscriber :=
  {| connected := connected s; last_slot := slot info; queue := queue s ++ [info] |}.

(** One frame: whether the loop goes on, what is written, the state.  [claimed]:
    whether [try_claim] gives a slot of the channel; [nonce] seeds the mask. *)
Definition on_frame (claimed : bool) (nonce : Z) (f : Frame) (s : Subscriber) : bool * list Z * Subscriber :=
  match f with
  | Text text =>
      match parse_slot_notification text with
      | Some info => (true, [], if claimed then publish info s else s)
      | None => (true, [], s)
      end
  | Ping data => (true, write_pong nonce data, s)
  | Close => (false, write_close nonce, s)
  | Pong => (true, [], s)
  end.

(** [handle_messages] while [running] is seen set for [rounds] rounds: what is
    written and the state afterwards.  [claims] and [clock] give the answers of
    each round. *)
Fixpoint handle_messages (claims : nat -> bool) (clock : nat -> Z) (rounds : nat) (stream : list Z) (s : Subscriber)
    : Result (list Z * Subscriber) fault :=
  match rounds with
  | 0%nat => Ok ([], s)
  | Datatypes.S rounds =>
      match read_frame stream with
      | Err p => Err p
      | Ok (Err _) => Ok ([], s)
      | Ok (Ok (f, stream)) =>
          let '(go, out, s) := on_frame (claims rounds) (clock rounds) f s in
          if go then
            match handle_messages claims clock rounds stream s with
            | Err p => Err p
            | Ok (out', s) => Ok (out ++ out', s)
            end
          else Ok (out, s)
      end
  end.

Definition SUBSCRIBE : str := quoted "{'jsonrpc':'2.0','id':1,'method':'slotSubscribe','params':[]}".

(** [connect_and_subscribe] after the handshake: the subscription's id and the
    rest of the stream. *)
Definition subscribe (stream : list Z) : Result (Result (Z * list Z) Error) fault :=
  match read_frame stream with
  | Err p => Err p
  | Ok (Err e) => Ok (Err e)
  | Ok (Ok (Text text, stream)) =>
      Ok (match parse_subscription_response text with
          | Some sub_id => Ok (sub_id, stream)
          | None => Err (InvalidJson (lit "failed to parse subscription response"))
          end)
  | Ok (Ok _) => Ok (Err (InvalidHandshake (lit "expected text frame for subscription response")))
  end.

(** What one attempt finds: the handshake, whether the request can be written,
    and the stream after the handshake. *)
Record attempt : Type := { shaken : Result unit Error; request_written : bool; incoming : list Z }.

Definition connect_and_subscribe (a : attempt) : Result (Result (Z * list Z) Error) fault :=
  match shaken a with
  | Err e => Ok (Err e)
  | Ok _ => if request_written a then subscribe (incoming a) else Ok (Err Io)
  end.

Definition MAX_BACKOFF : Z := 5000.

(** One round of [websocket_thread]: the milliseconds slept, the next back-off,
    what was written and the state. *)
Definition ws_round (claims : nat -> bool) (clock : nat -> Z) (rounds : nat) (a : attempt) (backoff_ms : Z)
    (s : Subscriber) : Result (Z * Z * list Z * Subscriber) fault :=
  match connect_and_subscribe a with
  | Err p => Err p
  | Ok (Ok (_, stream)) =>
      match handle_messages claims clock rounds stream (set_connected true s) with
      | Err p => Err p
      | Ok (out, s) => Ok (0, 100, out, set_connected false s)
      end
  | Ok (Err _) => Ok (backoff_ms, Z.min (backoff_ms * 2) MAX_BACKOFF, [], set_connected false s)
  end.

(** ** The slot that the tracker reads *)

Record SlotState : Type := { state_slot : Z; state_connected : bool }.
Definition slot_state_new : SlotState := {| state_slot := 0; state_connected := false |}.

(** One event of the [poll] in [run_loop]: [None] if the channel is empty. *)
Definition take_event (s : Subscriber) (st : SlotState) : option (SlotInfo * Subscriber * SlotState) :=
  match queue s with
  | [] => None
  | info :: q =>
      Some (info, {| connected := connected s; last_slot := last_slot s; queue := q |},
            {| state_slot := slot info; state_connected := state_connected st |})
  end.

(** The connection status is copied after the poll. *)
Definition copy_connected (s : Subscriber) (st : SlotState) : SlotState :=
  {| state_slot := state_slot st; state_connected := connected s |}.

(** The two threads: the websocket thread handles a frame or changes the
    connection status, the slot subscriber takes an event or copies the status.
    The label is the notification that was published or taken. *)
Inductive label : Type := Published (info : SlotInfo) | Took (info : SlotInfo) | Silent.

Inductive pubsub_step : Subscriber * SlotState -> label -> Subscriber * SlotState -> Prop :=
| step_notification text info s st :
    parse_slot_notification text = Some info ->
    pubsub_step (s, st) (Published info) ((on_frame true 0 (Text text) s).2, st)
| step_frame claimed nonce f s st :
    (claimed = false \/ (forall text, f = Text text -> parse_slot_notification text = None)) ->
    pubsub_step (s, st) Silent ((on_frame claimed nonce f s).2, st)
| step_status b s st : pubsub_step (s, st) Silent (set_connected b s, st)
| step_take info s st s' st' :
    take_event s st = Some (info, s', st') -> pubsub_step (s, st) (Took info) (s', st')
| step_copy s st : pubsub_step (s, st) Silent (s, copy_connected s st).

Inductive pubsub_run : Subscriber * SlotState -> list label -> Subscriber * SlotState -> Prop :=
| run_nil c : pubsub_run c [] c
| run_step c ls c' l c'' : pubsub_run c ls c' -> pubsub_step c' l c'' -> pubsub_run c (ls ++ [l]) c''.
