(* ===== verification/PubsubSpec.v ===== *)
(** * PubsubSpec: what the subscriber makes of a server's stream

    RFC 6455 as a reference: the frames a server sends ([server_frame]) and how a
    server decodes what a client sends ([rfc_decode]).  From the bytes of any
    sequence of notifications, pings and pongs the subscriber publishes the
    notifications in order and answers the pings; the slot that the tracker reads
    is the one of the last notification taken from the channel. *)
From S2P Require Import Prelude Str Request HttpSpec Scan Pubsub.

(** ** Big-endian numbers *)

Lemma to_be_length k n : length (to_be_bytes k n) = k.
Proof. revert n. induction k as [|k IH]; intros n; [done|]. cbn [to_be_bytes]. rewrite length_app, IH. simpl. lia. Qed.

Lemma to_be_bytes_ok k n : Forall is_byte (to_be_bytes k n).
Proof.
  revert n. induction k as [|k IH]; intros n; [constructor|]. cbn [to_be_bytes]. apply Forall_app_2; [done|].
  constructor; [|constructor]. unfold is_byte. apply Z.mod_pos_bound. lia.
Qed.

Lemma from_to_be k n : 0 <= n < 256 ^ Z.of_nat k -> from_be_bytes (to_be_bytes k n) = n.
Proof.
  revert n. induction k as [|k IH]; intros n Hn; [unfold from_be_bytes; simpl in *; lia|].
  cbn [to_be_bytes]. unfold from_be_bytes in *. rewrite fold_left_app, IH.
  - cbn [fold_left]. pose proof (Z.div_mod n 256). lia.
  - rewrite Nat2Z.inj_succ, Z.pow_succ_r in Hn by lia. split; [apply Z.div_pos; lia|apply Z.div_lt_upper_bound; lia].
Qed.

(** ** Frames of a server *)

Definition length_field (bit : Z) (len : Z) : list Z :=
  if len <? 126 then [bit + len]
  else if len <? 65536 then bit + 126 :: to_be_bytes 2 len
  else bit + 127 :: to_be_bytes 8 len.

Definition server_frame (opcode : Z) (payload : list Z) : list Z :=
  128 + opcode :: length_field 0 (Z.of_nat (length payload)) ++ payload.

Definition frame_of (opcode : Z) (payload : list Z) : Result Frame Error :=
  if opcode =? OPCODE_TEXT then Ok (Text (from_utf8_lossy payload))
  else if opcode =? OPCODE_PING then Ok (Ping payload)
  else if opcode =? OPCODE_PONG then Ok Pong
  else if opcode =? OPCODE_CLOSE then Ok Close
  else Err (InvalidFrame (lit "unknown opcode: " ++ decimal opcode)).

Lemma read_exact_app bs rest : read_exact (length bs) (bs ++ rest) = Ok (bs, rest).
Proof.
  unfold read_exact. rewrite (proj2 (Nat.leb_le _ _)) by (rewrite length_app; lia).
  by rewrite take_app_length, drop_app_length.
Qed.

Lemma read_length_field len rest :
  0 <= len <= ISIZE_MAX ->
  exists h1 bs, length_field 0 len = h1 :: bs /\ Z.land h1 128 = 0 /\
    read_length (Z.land h1 127) (bs ++ rest) = Ok (len, rest).
Proof.
  intros Hlen. unfold length_field, read_length. destruct (Z.ltb_spec len 126) as [Hs|Hs].
  { pose proof (seqZ_forallb (fun l => (Z.land l 128 =? 0) && (Z.land l 127 =? l)) 0 126 len
      ltac:(vm_compute; reflexivity) ltac:(lia)) as Hb. cbv beta in Hb. apply andb_true_iff in Hb as [Hb1 Hb2].
    exists (0 + len), []. split; [done|]. rewrite Z.add_0_l. split; [lia|]. apply Z.eqb_eq in Hb2. rewrite Hb2.
    rewrite (proj2 (Z.eqb_neq len 126)), (proj2 (Z.eqb_neq len 127)) by lia. done. }
  destruct (Z.ltb_spec len 65536) as [Hm|Hm]; eexists _, _; (split; [reflexivity|]); (split; [reflexivity|]).
  - change (Z.land (0 + 126) 127 =? 126) with true. cbv iota.
    pose proof (read_exact_app (to_be_bytes 2 len) rest) as Hr. rewrite to_be_length in Hr. rewrite Hr, from_to_be; [done|].
    simpl. lia.
  - change (Z.land (0 + 127) 127 =? 126) with false. change (Z.land (0 + 127) 127 =? 127) with true. cbv iota.
    pose proof (read_exact_app (to_be_bytes 8 len) rest) as Hr. rewrite to_be_length in Hr. rewrite Hr, from_to_be; [done|].
    unfold ISIZE_MAX in Hlen. simpl. lia.
Qed.

Lemma read_server_frame opcode payload rest :
  0 <= opcode < 16 -> Z.of_nat (length payload) <= ISIZE_MAX ->
  read_frame (server_frame opcode payload ++ rest)
  = Ok (match frame_of opcode payload with Ok f => Ok (f, rest) | Err e => Err e end).
Proof.
  intros Hop Hlen.
  destruct (read_length_field (Z.of_nat (length payload)) (payload ++ rest)) as (h1 & bs & Hf & Hm & Hr); [lia|].
  unfold server_frame. rewrite Hf. cbn [app]. unfold read_frame.
  change (read_exact 2 (128 + opcode :: h1 :: (bs ++ payload) ++ rest))
    with (Ok ([128 + opcode; h1], (bs ++ payload) ++ rest) : Result _ Error) at 1.
  cbv beta iota zeta. rewrite <- app_assoc, Hr, Hm. cbn [Z.eqb negb].
  assert (Hl : Z.land (128 + opcode) 15 = opcode).
  { pose proof (seqZ_forallb (fun o => Z.land (128 + o) 15 =? o) 0 16 opcode ltac:(vm_compute; reflexivity)
      ltac:(lia)) as Hb. by apply Z.eqb_eq in Hb. }
  rewrite Hl. unfold read_payload. rewrite (proj2 (Z.ltb_ge _ _)) by done. f_equal.
  rewrite (proj2 (Z.leb_le _ _)) by (rewrite length_app; lia). rewrite Nat2Z.id, read_exact_app. unfold frame_of.
  by repeat (destruct (opcode =? _); [done|]).
Qed.

(** ** Frames of a client *)

(** Section 5.2 and 5.3 of RFC 6455 for a final frame with a mask. *)
Definition rfc_length (len7 : Z) (s : list Z) : Z * list Z :=
  if len7 =? 126 then (from_be_bytes (take 2 s), drop 2 s)
  else if len7 =? 127 then (from_be_bytes (take 8 s), drop 8 s)
  else (len7, s).
Definition rfc_unmask (key payload : list Z) : list Z :=
  imap (fun i b => Z.lxor b (default 0 (key !! (i mod 4)%nat))) payload.
Definition rfc_decode (s : list Z) : option (Z * list Z * list Z) :=
  match s with
  | h0 :: h1 :: s =>
      if (h0 / 16 =? 8) && (128 <=? h1) then
        let '(len, s) := rfc_length (h1 - 128) s in
        let payload := drop 4 s in
        if len <=? Z.of_nat (length payload) then
          Some (h0 mod 16, rfc_unmask (take 4 s) (take (Z.to_nat len) payload), drop (Z.to_nat len) payload)
        else None
      else None
  | _ => None
  end.

Fixpoint rfc_frames (fuel : nat) (s : list Z) : option (list (Z * list Z)) :=
  match s, fuel with
  | [], _ => Some []
  | _, 0%nat => None
  | _, Datatypes.S fuel => '(op, payload, s) ← rfc_decode s; fs ← rfc_frames fuel s; Some ((op, payload) :: fs)
  end.

Lemma mask_length key i p : length (mask_payload key i p) = length p.
Proof. revert i. induction p as [|b p IH]; intros i; [done|]. cbn [mask_payload length]. by rewrite IH. Qed.

Lemma unmask_mask key i p :
  imap (fun j b => Z.lxor b (default 0 (key !! ((i + j) mod 4)%nat))) (mask_payload key i p) = p.
Proof.
  revert i. induction p as [|b p IH]; intros i; [done|]. cbn [mask_payload]. rewrite imap_cons, Nat.add_0_r.
  rewrite Z.lxor_assoc, Z.lxor_nilpotent, Z.lxor_0_r. f_equal. rewrite <- (IH (Datatypes.S i)) at 2.
  apply imap_ext. intros j x _. unfold compose. by rewrite Nat.add_succ_r.
Qed.

Lemma client_length_field len :
  0 <= len -> (if len <? 126 then [Z.lor 128 len]
    else if len <? 65536 then Z.lor 128 126 :: to_be_bytes 2 len else Z.lor 128 127 :: to_be_bytes 8 len)
  = length_field 128 len.
Proof.
  intros Hl. unfold length_field. destruct (Z.ltb_spec len 126); [|done].
  pose proof (seqZ_forallb (fun l => Z.lor 128 l =? 128 + l) 0 126 len ltac:(vm_compute; reflexivity) ltac:(lia)) as Hb.
  apply Z.eqb_eq in Hb. by rewrite Hb.
Qed.

Lemma rfc_length_field len rest :
  0 <= len <= ISIZE_MAX ->
  exists h1 bs, length_field 128 len = h1 :: bs /\ 128 <= h1 /\ rfc_length (h1 - 128) (bs ++ rest) = (len, rest).
Proof.
  intros Hlen. unfold length_field, rfc_length. destruct (Z.ltb_spec len 126) as [Hs|Hs].
  { exists (128 + len), []. split; [done|]. split; [lia|]. replace (128 + len - 128) with len by lia.
    by rewrite (proj2 (Z.eqb_neq len 126)), (proj2 (Z.eqb_neq len 127)) by lia. }
  destruct (Z.ltb_spec len 65536) as [Hm|Hm]; eexists _, _; (split; [reflexivity|]); (split; [lia|]).
  - change (128 + 126 - 128 =? 126) with true. cbv iota.
    rewrite take_app_length', drop_app_length', from_to_be by (rewrite ?to_be_length; simpl; lia). done.
  - change (128 + 127 - 128 =? 126) with false. change (128 + 127 - 128 =? 127) with true. cbv iota.
    unfold ISIZE_MAX in Hlen.
    rewrite take_app_length', drop_app_length', from_to_be by (rewrite ?to_be_length; simpl; lia). done.
Qed.

Lemma decode_written nonce opcode payload rest :
  0 <= opcode < 16 -> Z.of_nat (length payload) <= ISIZE_MAX ->
  rfc_decode (write_frame nonce opcode payload ++ rest) = Some (opcode, payload, rest).
Proof.
  intros Hop Hlen. unfold write_frame. rewrite client_length_field by lia.
  set (key := generate_mask_key nonce). assert (Hk : length key = 4%nat) by apply to_be_length.
  destruct (rfc_length_field (Z.of_nat (length payload)) ((key ++ mask_payload key 0 payload) ++ rest))
    as (h1 & bs & Hf & Hh & Hr); [lia|].
  rewrite Hf. cbn [app]. rewrite <- (app_assoc bs). unfold rfc_decode. rewrite Hr.
  pose proof (seqZ_forallb (fun o => (Z.lor 128 o / 16 =? 8) && (Z.lor 128 o mod 16 =? o)) 0 16 opcode
    ltac:(vm_compute; reflexivity) ltac:(lia)) as Hb. cbv beta in Hb. apply andb_true_iff in Hb as [Hb1 Hb2].
  apply Z.eqb_eq in Hb2. rewrite Hb1, Hb2, (proj2 (Z.leb_le 128 h1)) by done. cbn [andb].
  rewrite <- app_assoc, (take_app_length' key), (drop_app_length' key) by done.
  rewrite (proj2 (Z.leb_le _ _)) by (rewrite length_app, mask_length; lia).
  rewrite Nat2Z.id, take_app_length', drop_app_length' by (by rewrite mask_length).
  do 3 f_equal. exact (unmask_mask key 0 payload).
Qed.

(** ** Notifications *)

(** The text the parser's comment shows. *)
Definition notification (info : SlotInfo) (sub : Z) : str :=
  quoted "{'jsonrpc':'2.0','method':'slotNotification','params':{" ++ quoted "'result':" ++
  quoted "{" ++ quoted "'slot':" ++ decimal (slot info) ++
  quoted "," ++ quoted "'parent':" ++ decimal (parent info) ++
  quoted "," ++ quoted "'root':" ++ decimal (root info) ++
  quoted "},'subscription':" ++ decimal sub ++ quoted "}}".

Definition info_ok (info : SlotInfo) : Prop :=
  0 <= slot info < U64 /\ 0 <= parent info < U64 /\ 0 <= root info < U64.

Lemma drop_while_digits n more :
  (forall c, head more = Some c -> is_ascii_digit c = false) ->
  drop_while is_ascii_digit (decimal n ++ more) = more.
Proof.
  intros Hm. induction (decimal_chars n) as [|c l Hc Hl IH]; cbn [app drop_while]; [|by rewrite Hc].
  destruct more as [|c more]; [done|]. cbn [drop_while]. by rewrite (Hm c).
Qed.

Lemma extract_field pre pattern field n more text :
  text = pre ++ pattern ++ decimal n ++ more ->
  pattern = 34 :: field ++ [34; 58] -> clear pattern pre = true -> 0 <= n < U64 ->
  (forall c, head more = Some c -> is_ascii_digit c = false) ->
  extract_u64_field text field = Some n.
Proof.
  intros -> Hp Hc Hn Hm. unfold extract_u64_field. rewrite <- Hp, find_sub_at; [|done|].
  - cbn [mbind option_bind]. rewrite drop_app_add, drop_app_length, drop_while_digits by done.
    rewrite length_app, Nat.add_sub, take_app_length. by apply parse_decimal.
  - clear. induction pattern as [|c p IH]; [done|]. cbn [app starts_with]. by rewrite Z.eqb_refl.
Qed.

Lemma parse_notification info sub : info_ok info -> parse_slot_notification (notification info sub) = Some info.
Proof.
  intros (Hs & Hp & Hr). unfold parse_slot_notification, notification.
  rewrite find_sub_at by reflexivity. cbn [mbind option_bind]. rewrite drop_app_add.
  change 9%nat with (length (quoted "'result':")). rewrite drop_app_length.
  set (upto_slot := quoted "{" ++ quoted "'slot':" ++ decimal (slot info) ++ quoted ",").
  rewrite (extract_field (quoted "{") (quoted "'slot':") (lit "slot") (slot info) _ _ eq_refl);
    [|done|done|done|by intros c [= <-]].
  cbn [mbind option_bind].
  rewrite (extract_field upto_slot (quoted "'parent':") (lit "parent") (parent info)
    (quoted "," ++ quoted "'root':" ++ decimal (root info) ++ quoted "},'subscription':" ++ decimal sub ++ quoted "}}"));
    [|by unfold upto_slot; rewrite <- !app_assoc|done| |done|by intros c [= <-]].
  2: { apply clear_app; [done|]. apply clear_app; [done|]. apply clear_app; [|done]. apply (clear_decimal (quoted "parent':")). }
  cbn [mbind option_bind].
  rewrite (extract_field (upto_slot ++ quoted "'parent':" ++ decimal (parent info) ++ quoted ",") (quoted "'root':")
    (lit "root") (root info) (quoted "},'subscription':" ++ decimal sub ++ quoted "}}"));
    [|by unfold upto_slot; rewrite <- !app_assoc|done| |done|by intros c [= <-]].
  2: { unfold upto_slot. repeat apply clear_app; try done; apply (clear_decimal (quoted "root':")). }
  by destruct info.
Qed.

(** ** The stream of a server *)

Inductive message : Type := Notify (info : SlotInfo) (sub : Z) | SendPing (data : list Z) | SendPong (data : list Z).

Definition encode_message (m : message) : list Z :=
  match m with
  | Notify info sub => server_frame OPCODE_TEXT (as_bytes (notification info sub))
  | SendPing data => server_frame OPCODE_PING data
  | SendPong data => server_frame OPCODE_PONG data
  end.

(** RFC 6455 limits the payload of control frames. *)
Definition message_ok (m : message) : Prop :=
  match m with
  | Notify info _ => info_ok info
  | SendPing data | SendPong data => (length data <= 125)%nat
  end.

Definition infos (ms : list message) : list SlotInfo :=
  omap (fun m => match m with Notify info _ => Some info | _ => None end) ms.
Definition pings (ms : list message) : list (list Z) :=
  omap (fun m => match m with SendPing data => Some data | _ => None end) ms.

Lemma lossy_ascii bs : Forall is_ascii bs -> from_utf8_lossy bs = bs.
Proof.
  induction 1 as [|b bs Hb Hbs IH]; [done|]. cbn [from_utf8_lossy]. unfold is_ascii in Hb.
  by rewrite (proj2 (Z.ltb_lt b 128)), IH by lia.
Qed.

Lemma decimal_ascii n : Forall is_ascii (decimal n).
Proof. eapply Forall_impl; [apply decimal_chars|]. cbv beta. intros c Hc. by apply digit_facts in Hc as [[? _] _]. Qed.

Lemma quoted_ascii s : forallb (fun c => (0 <=? c) && (c <? 128)) (quoted s) = true -> Forall is_ascii (quoted s).
Proof.
  rewrite forallb_forall. intros H. apply Forall_forall. intros c Hc. apply list_elem_of_In, H in Hc.
  unfold is_ascii. lia.
Qed.

Lemma notification_ascii info sub : Forall is_ascii (notification info sub).
Proof. unfold notification. repeat apply Forall_app_2; first [apply decimal_ascii|by apply quoted_ascii]. Qed.

Lemma notification_short info sub : (length (notification info sub) <= 500)%nat.
Proof.
  unfold notification. rewrite !length_app.
  pose proof (decimal_at_most_20 (slot info)). pose proof (decimal_at_most_20 (parent info)).
  pose proof (decimal_at_most_20 (root info)). pose proof (decimal_at_most_20 sub).
  repeat match goal with |- context [length (quoted ?s)] =>
    let n := eval vm_compute in (length (quoted s)) in change (length (quoted s)) with n end. lia.
Qed.

(** The frame a message is read as. *)
Definition message_frame (m : message) : Frame :=
  match m with
  | Notify info sub => Text (notification info sub)
  | SendPing data => Ping data
  | SendPong _ => Pong
  end.

Lemma read_message m rest :
  message_ok m -> read_frame (encode_message m ++ rest) = Ok (Ok (message_frame m, rest)).
Proof.
  intros Hm. destruct m as [info sub|data|data]; cbn [encode_message message_frame message_ok] in *.
  - pose proof (notification_short info sub). rewrite as_bytes_ascii by apply notification_ascii.
    rewrite read_server_frame by (unfold OPCODE_TEXT, ISIZE_MAX; lia).
    change (frame_of OPCODE_TEXT (notification info sub)) with (Ok (Text (from_utf8_lossy (notification info sub))) : Result Frame Error).
    by rewrite lossy_ascii by apply notification_ascii.
  - by rewrite read_server_frame by (unfold OPCODE_PING, ISIZE_MAX; lia).
  - by rewrite read_server_frame by (unfold OPCODE_PONG, ISIZE_MAX; lia).
Qed.

(** What the subscriber writes and the state it reaches, message by message. *)
Fixpoint follow (clock : nat -> Z) (k : nat) (ms : list message) (s : Subscriber) : list Z * Subscriber :=
  match ms with
  | [] => ([], s)
  | m :: ms =>
      let n := (length ms + k)%nat in
      match m with
      | Notify info _ => follow clock k ms (publish info s)
      | SendPing data => let '(out, s) := follow clock k ms s in (write_pong (clock n) data ++ out, s)
      | SendPong _ => follow clock k ms s
      end
  end.

Lemma handle_follow clock k ms s :
  Forall message_ok ms ->
  handle_messages (fun _ => true) clock (length ms + k) (ms ≫= encode_message) s = Ok (follow clock k ms s).
Proof.
  intros Hms. revert s. induction Hms as [|m ms Hm Hms IH]; intros s.
  { destruct k; reflexivity. }
  cbn [mbind list_bind length Nat.add handle_messages follow]. rewrite read_message by done.
  destruct m as [info sub|data|data]; cbn [message_frame on_frame].
  - rewrite parse_notification by done. rewrite IH. by destruct (follow _ _ _ _).
  - rewrite IH. by destruct (follow _ _ _ _).
  - rewrite IH. by destruct (follow _ _ _ _).
Qed.

Lemma rfc_frames_cons nonce op data out fs fuel :
  0 <= op < 16 -> Z.of_nat (length data) <= ISIZE_MAX -> rfc_frames fuel out = Some fs ->
  rfc_frames (Datatypes.S fuel) (write_frame nonce op data ++ out) = Some ((op, data) :: fs).
Proof.
  intros Hop Hl Hout. pose proof (decode_written nonce op data out Hop Hl) as Hd.
  change (write_frame nonce op data ++ out)
    with (Z.lor 128 op :: (tail (write_frame nonce op data) ++ out)) in *.
  cbn [rfc_frames]. rewrite Hd. cbn [mbind option_bind]. by rewrite Hout.
Qed.

Lemma follow_spec clock k ms s :
  Forall message_ok ms ->
  rfc_frames (length (pings ms)) (follow clock k ms s).1 = Some ((fun data => (OPCODE_PONG, data)) <$> pings ms) /\
  queue (follow clock k ms s).2 = queue s ++ infos ms /\
  last_slot (follow clock k ms s).2 = default (last_slot s) (slot <$> last (infos ms)) /\
  connected (follow clock k ms s).2 = connected s.
Proof.
  intros Hms. revert s. induction Hms as [|m ms Hm Hms IH]; intros s.
  { cbn. by rewrite app_nil_r. }
  destruct m as [info sub|data|data]; cbn [follow infos pings omap list_omap].
  - destruct (IH (publish info s)) as (Ho & Hq & Hl & Hc). split; [exact Ho|]. rewrite Hq, Hl, Hc. cbn [publish queue connected last_slot].
    split; [by rewrite <- app_assoc|]. split; [|done].
    rewrite last_cons. fold (infos ms). by destruct (last (infos ms)).
  - destruct (IH s) as (Ho & Hq & Hl & Hc). destruct (follow clock k ms s) as [out s'] eqn:E. cbn [fst snd] in *.
    split; [|done]. cbn [length]. rewrite fmap_cons. apply rfc_frames_cons; [by unfold OPCODE_PONG| |exact Ho].
    cbn in Hm. unfold ISIZE_MAX. lia.
  - apply IH.
Qed.

(** C28. The subscriber understands a websocket server.  Let a server send any
    sequence of slot notifications, pings and pongs as RFC 6455 frames, unmasked and
    each in one fragment, in whatever pieces the stream delivers them.  As long as the
    channel has room for every update (otherwise the newest are dropped),
    the subscriber publishes exactly the notifications, in order, with the slot,
    parent and root that were sent, remembers the slot of the last one, and
    what it writes, decoded as RFC 6455 says, is one pong for each ping, in order,
    with the ping's data; it stops only at the end of the stream. *)
Theorem subscriber_reads_stream clock k ms s :
  Forall message_ok ms ->
  exists out s', handle_messages (fun _ => true) clock (length ms + k) (ms ≫= encode_message) s = Ok (out, s') /\
    queue s' = queue s ++ infos ms /\
    last_slot s' = default (last_slot s) (slot <$> last (infos ms)) /\
    connected s' = connected s /\
    rfc_frames (length (pings ms)) out = Some ((fun data => (OPCODE_PONG, data)) <$> pings ms).
Proof.
  intros Hms. exists (follow clock k ms s).1, (follow clock k ms s).2.
  rewrite <- surjective_pairing. destruct (follow_spec clock k ms s Hms) as (? & ? & ? & ?).
  split; [by apply handle_follow|]. done.
Qed.

Lemma subscriber_reads_stream_witness :
  let info n := {| slot := n; parent := n - 1; root := n - 32 |} in
  exists out s', handle_messages (fun _ => true) (fun n => 1000 * Z.of_nat n) 5
      ([Notify (info 12345) 7; SendPing (lit "hi"); Notify (info 12346) 7] ≫= encode_message) subscriber_new = Ok (out, s') /\
    queue s' = [info 12345; info 12346] /\ last_slot s' = 12346 /\
    rfc_frames 1 out = Some [(OPCODE_PONG, lit "hi")].
Proof.
  intros info. destruct (subscriber_reads_stream (fun n => 1000 * Z.of_nat n) 2
    [Notify (info 12345) 7; SendPing (lit "hi"); Notify (info 12346) 7] subscriber_new) as (out & s' & Hh & Hq & Hl & _ & Ho).
  - unfold info. repeat constructor; vm_compute; done.
  - exists out, s'. split; [exact Hh|]. split; [exact Hq|]. split; [exact Hl|exact Ho].
Defined.

(** ** The slot that the tracker reads *)

Definition published (ls : list label) : list SlotInfo :=
  omap (fun l => match l with Published info => Some info | _ => None end) ls.
Definition taken (ls : list label) : list SlotInfo :=
  omap (fun l => match l with Took info => Some info | _ => None end) ls.

(** The slot of the last notification, 0 before the first. *)
Definition last_of (l : list SlotInfo) : Z := default 0 (slot <$> last l).

Lemma last_of_snoc l info : last_of (l ++ [info]) = slot info.
Proof. unfold last_of. by rewrite last_snoc. Qed.

(** A frame that publishes nothing leaves the state alone. *)
Lemma on_frame_silent claimed nonce f s :
  (claimed = false \/ (forall text, f = Text text -> parse_slot_notification text = None)) ->
  (on_frame claimed nonce f s).2 = s.
Proof.
  intros Hf. destruct f as [text| | |]; cbn [on_frame]; try done.
  destruct (parse_slot_notification text) eqn:E; [|done]. destruct Hf as [->|Hf]; [done|]. by rewrite (Hf text) in E.
Qed.

(** C30. The slot the tracker reads is the latest one taken, and none is lost on
    the way.  In every interleaving of the websocket thread, which handles frames
    and changes of the connection, with the thread that empties the channel: the
    notifications published are those taken so far followed by those still in
    the channel, in order; the shared slot is the slot of the last one taken,
    the subscriber's [last_slot] that of the last one published, and once the
    channel is empty the two agree. *)
Theorem slot_follows_notifications ls s st :
  pubsub_run (subscriber_new, slot_state_new) ls (s, st) ->
  published ls = taken ls ++ queue s /\
  state_slot st = last_of (taken ls) /\
  last_slot s = last_of (published ls) /\
  (queue s = [] -> state_slot st = last_slot s).
Proof.
  intros Hrun.
  assert (published ls = taken ls ++ queue s /\ state_slot st = last_of (taken ls) /\
          last_slot s = last_of (published ls)) as (Hp & Ht & Hl).
  { remember (subscriber_new, slot_state_new) as c eqn:Hc. remember (s, st) as c' eqn:Hc'. revert s st Hc'.
    induction Hrun as [|c ls c' l c'' Hrun IH Hstep]; intros s st ->; [by injection Hc as -> ->|].
    specialize (IH Hc). unfold published, taken in *. rewrite !omap_app. inversion Hstep; subst; clear Hstep;
      destruct (IH _ _ eq_refl) as (Hp & Ht & Hl); cbn [omap list_omap].
    - cbn [on_frame]. match goal with H : parse_slot_notification _ = _ |- _ => rewrite H end.
      cbn [publish snd queue last_slot]. rewrite app_nil_r, Hp, <- app_assoc.
      split; [done|]. split; [done|]. by rewrite app_assoc, last_of_snoc.
    - rewrite on_frame_silent, !app_nil_r by done. done.
    - rewrite !app_nil_r. done.
    - match goal with H : take_event _ _ = _ |- _ => unfold take_event in H end.
      destruct (queue _) as [|i q] eqn:E in *; [done|]. simplify_eq. cbn [queue state_slot last_slot].
      rewrite app_nil_r, last_of_snoc, Hp, <- app_assoc. rewrite Hp in Hl. done.
    - rewrite !app_nil_r. done. }
  split; [done|]. split; [done|]. split; [done|]. intros Hq. rewrite Ht, Hl, Hp, Hq. by rewrite app_nil_r.
Qed.

(** Two notifications, the first of which has been taken. *)
Definition demo_info (n : Z) : SlotInfo := {| slot := n; parent := n - 1; root := n - 32 |}.

Lemma slot_follows_notifications_witness :
  exists s st, pubsub_run (subscriber_new, slot_state_new)
      [Silent; Published (demo_info 100); Published (demo_info 101); Took (demo_info 100)] (s, st) /\
    state_slot st = 100 /\ last_slot s = 101 /\ queue s = [demo_info 101].
Proof.
  assert (Hrun : pubsub_run (subscriber_new, slot_state_new)
    (((([] ++ [Silent]) ++ [Published (demo_info 100)]) ++ [Published (demo_info 101)]) ++ [Took (demo_info 100)])
    ({| connected := true; last_slot := 101; queue := [demo_info 101] |}, {| state_slot := 100; state_connected := false |})).
  { eapply run_step; [eapply run_step; [eapply run_step; [eapply run_step; [apply run_nil|]|]|]|].
    - apply (step_status true).
    - apply (step_notification (notification (demo_info 100) 3)). vm_compute. reflexivity.
    - apply (step_notification (notification (demo_info 101) 3)). vm_compute. reflexivity.
    - apply step_take. vm_compute. reflexivity. }
  destruct (slot_follows_notifications _ _ _ Hrun) as (Hp & Ht & Hl & _).
  eexists _, _. split; [exact Hrun|]. split; [exact Ht|]. split; [exact Hl|reflexivity].
Defined.

(** ** Attempts to connect *)

(** The back-off after [n] failures in a row. *)
Fixpoint backoff (n : nat) : Z :=
  match n with
  | 0%nat => 100
  | Datatypes.S n => Z.min (backoff n * 2) MAX_BACKOFF
  end.

Lemma backoff_closed n : backoff n = Z.min (100 * 2 ^ Z.of_nat n) MAX_BACKOFF.
Proof.
  induction n as [|n IH]; [done|]. cbn [backoff]. rewrite IH.
  unfold MAX_BACKOFF. rewrite Nat2Z.inj_succ, Z.pow_succ_r by lia. lia.
Qed.

(** After [n] attempts that failed in a row the next failure sleeps
    [min (100 * 2^n) 5000] milliseconds and publishes nothing; a connection
    starts the sequence again. *)
Theorem reconnect_backoff claims clock rounds a n s :
  match ws_round claims clock rounds a (backoff n) s with
  | Ok (slept, next, _, s') =>
      connected s' = false /\
      match connect_and_subscribe a with
      | Ok (Ok _) => slept = 0 /\ next = backoff 0
      | _ => slept = Z.min (100 * 2 ^ Z.of_nat n) 5000 /\ next = backoff (Datatypes.S n) /\ queue s' = queue s
      end
  | Err _ => True
  end.
Proof.
  unfold ws_round. destruct (connect_and_subscribe a) as [[[sub stream]|e]|p]; [| |done].
  - by destruct (handle_messages _ _ _ _ _) as [[out s']|p].
  - split; [done|]. split; [apply backoff_closed|]. done.
Qed.

(** A frame that announces [2^63] bytes or more ends the thread with a panic,
    whatever it has: the status stays connected, since only the thread itself
    takes it back. *)
Theorem oversized_frame_panics claims clock rounds s len rest :
  2 ^ 63 <= len < 2 ^ 64 ->
  handle_messages claims clock (Datatypes.S rounds) (129 :: 127 :: to_be_bytes 8 len ++ rest) s
  = Err (Panic "capacity overflow").
Proof.
  intros Hlen. cbn [handle_messages]. unfold read_frame.
  change (read_exact 2 (129 :: 127 :: to_be_bytes 8 len ++ rest))
    with (Ok ([129; 127], to_be_bytes 8 len ++ rest) : Result _ Error).
  cbv beta iota zeta. unfold read_length. change (Z.land 127 127 =? 126) with false.
  change (Z.land 127 127 =? 127) with true. cbv iota.
  pose proof (read_exact_app (to_be_bytes 8 len) rest) as Hr. rewrite to_be_length in Hr.
  rewrite Hr, from_to_be by (simpl; lia). change (negb (Z.land 127 128 =? 0)) with false. cbv iota.
  unfold read_payload. by rewrite (proj2 (Z.ltb_lt _ _)) by (unfold ISIZE_MAX; lia).
Qed.
