(* ===== verification/Tls.v ===== *)
(** * Tls: the identity an endpoint presents

    [quic/src/tls.rs] and the configuration part of [quic/src/endpoint.rs]
    ([create_quic_config], [load_dummy_cert], [load_client_cert]).  Keys are read
    from a file, written as PEM and handed to quiche through files in [/tmp]; the
    files are the state here.  quiche's configuration and ring's key generation
    are parameters ([quic_config_api], [from_pkcs8]); what happens to each write
    is an argument. *)
From S2P Require Import Prelude Str Quic.
From S2P Require Strategy.

(** ** Text encodings *)

(** [str::parse::<u8>] *)
Definition parse_u8 (s : str) : option Z :=
  match parse_usize s with Some n => if n <? 256 then Some n else None | None => None end.

Definition serde_json_parse_array (data : list Z) : option (list Z) :=
  s ← from_utf8 data;
  let s := trim s in
  if bool_decide (head s = Some 91) && bool_decide (last s = Some 93) then
    mapM (fun part => parse_u8 (trim part)) (split_on 44 (take (length s - 2) (drop 1 s)))
  else None.

Definition ALPHABET58 : list Z := lit "123456789ABCDEFGHJKLMNPQRSTUVWXYZabcdefghijkmnopqrstuvwxyz".

Definition out_of_range {A} : Result A fault := Err (Panic "index out of bounds").

(** [for i in 0..result_len]: multiply by 58 and add, [k] bytes from [i] on; the
    carry is a [u32]. *)
Fixpoint multiply_add (k i : nat) (result : list Z) (val : Z) : Result (list Z * Z) fault :=
  match k with
  | 0%nat => Ok (result, val)
  | Datatypes.S k =>
      match result !! i with
      | None => out_of_range
      | Some r =>
          let val := (val + r * 58) mod U32 in
          multiply_add k (Datatypes.S i) (<[i := Z.land val 255]> result) (Z.shiftr val 8)
      end
  end.

(** [while val > 0]: a [u32] has four bytes. *)
Fixpoint push_carry (fuel : nat) (result : list Z) (result_len : nat) (val : Z) : Result (list Z * nat) fault :=
  match fuel with
  | 0%nat => Ok (result, result_len)
  | Datatypes.S fuel =>
      if val <=? 0 then Ok (result, result_len)
      else
        match result !! result_len with
        | None => out_of_range
        | Some _ =>
            push_carry fuel (<[result_len := Z.land val 255]> result) (Datatypes.S result_len) (Z.shiftr val 8)
        end
  end.

Fixpoint position (c : Z) (l : list Z) : option Z :=
  match l with
  | [] => None
  | x :: l => if x =? c then Some 0 else Z.succ <$> position c l
  end.

(** The result and its length; [Ok None] is [Err(())]. *)
Fixpoint bs58_digits (s : list Z) (result : list Z) (result_len : nat) : Result (option (list Z * nat)) fault :=
  match s with
  | [] => Ok (Some (result, result_len))
  | c :: s =>
      match position c ALPHABET58 with
      | None => Ok None
      | Some val =>
          match multiply_add result_len 0 result val with
          | Err f => Err f
          | Ok (result, val) =>
              match push_carry 4 result result_len val with
              | Err f => Err f
              | Ok (result, result_len) => bs58_digits s result result_len
              end
          end
      end
  end.

(** "handle leading zeros" *)
Fixpoint leading_zeros (s : list Z) (result : list Z) (result_len : nat) : Result (list Z * nat) fault :=
  match s with
  | [] => Ok (result, result_len)
  | c :: s =>
      if c =? 49 then
        match result !! result_len with
        | None => out_of_range
        | Some _ => leading_zeros s (<[result_len := 0]> result) (Datatypes.S result_len)
        end
      else Ok (result, result_len)
  end.

Definition bs58_decode (text : str) : Result (option (list Z)) fault :=
  let s := as_bytes text in
  match bs58_digits s (replicate (length s) 0) 0 with
  | Err f => Err f
  | Ok None => Ok None
  | Ok (Some (result, result_len)) =>
      match leading_zeros s result result_len with
      | Err f => Err f
      | Ok (result, result_len) => Ok (Some (rev (take result_len result)))
      end
  end.

Definition ALPHABET64 : list Z := lit "ABCDEFGHIJKLMNOPQRSTUVWXYZabcdefghijklmnopqrstuvwxyz0123456789+/".

(** [ALPHABET[((triple >> shift) & 0x3f) as usize]]; the index is below 64. *)
Definition char64 (triple shift : Z) : Z :=
  nth (Z.to_nat (Z.land (Z.shiftr triple shift) 63)) ALPHABET64 0.

(** One chunk: three bytes, or what is left. *)
Definition encode_chunk (b0 : Z) (b1 b2 : option Z) : list Z :=
  let triple := Z.lor (Z.lor (Z.shiftl b0 16) (Z.shiftl (default 0 b1) 8)) (default 0 b2) in
  [char64 triple 18; char64 triple 12;
   match b1 with Some _ => char64 triple 6 | None => 61 end;
   match b2 with Some _ => char64 triple 0 | None => 61 end].

Fixpoint base64_encode (data : list Z) : list Z :=
  match data with
  | [] => []
  | [b0] => encode_chunk b0 None None
  | [b0; b1] => encode_chunk b0 (Some b1) None
  | b0 :: b1 :: b2 :: data => encode_chunk b0 (Some b1) (Some b2) ++ base64_encode data
  end.

(** ** Keypairs *)

Record Keypair : Type := { secret : list Z; public : list Z }.

(** [copy_from_slice] of the two halves of 64 bytes. *)
Definition split_keypair (bytes : list Z) : Keypair :=
  {| secret := take 32 bytes; public := take 32 (drop 32 bytes) |}.

(** The part of [load] after the file was read. *)
Definition parse_keypair (data : list Z) : Result (option Keypair) fault :=
  let whole bytes := if (length bytes =? 64)%nat then Some (split_keypair bytes) else None in
  match serde_json_parse_array data ≫= whole with
  | Some kp => Ok (Some kp)
  | None =>
      match whole data with
      | Some kp => Ok (Some kp)
      | None =>
          match from_utf8 data with
          | None => Ok None
          | Some s =>
              match bs58_decode (trim s) with
              | Err f => Err f
              | Ok bytes => Ok (bytes ≫= whole)
              end
          end
      end
  end.

Definition PKCS8_PREFIX : list Z := [48; 46; 2; 1; 0; 48; 5; 6; 3; 43; 101; 112; 4; 34; 4; 32].

Definition private_key_der (kp : Keypair) : list Z := PKCS8_PREFIX ++ secret kp.

Definition pem (label : string) (der : list Z) : list Z :=
  lit "-----BEGIN " ++ lit label ++ lit "-----" ++ [10] ++ base64_encode der ++
  [10] ++ lit "-----END " ++ lit label ++ lit "-----" ++ [10].

Definition private_key_pem (kp : Keypair) : list Z := pem "PRIVATE KEY" (private_key_der kp).

(** From the start to the public key. *)
Definition CERT_HEADER : list Z :=
  [48; 129; 246; 48; 129; 169; 160; 3; 2; 1; 2; 2; 8; 1; 1; 1; 1; 1; 1; 1; 1; 48; 5; 6; 3; 43; 101;
   112; 48; 22; 49; 20; 48; 18; 6; 3; 85; 4; 3; 12; 11; 83; 111; 108; 97; 110; 97; 32; 110; 111; 100;
   101; 48; 32; 23; 13; 55; 48; 48; 49; 48; 49; 48; 48; 48; 48; 48; 48; 90; 24; 15; 52; 48; 57; 54;
   48; 49; 48; 49; 48; 48; 48; 48; 48; 48; 90; 48; 0; 48; 42; 48; 5; 6; 3; 43; 101; 112; 3; 33; 0].

(** Extensions and the head of the signature. *)
Definition CERT_EXTENSIONS : list Z :=
  [163; 41; 48; 39; 48; 23; 6; 3; 85; 29; 17; 1; 1; 255; 4; 13; 48; 11; 130; 9; 108; 111; 99; 97; 108;
   104; 111; 115; 116; 48; 12; 6; 3; 85; 29; 19; 1; 1; 255; 4; 2; 48; 0; 48; 5; 6; 3; 43; 101; 112; 3;
   65; 0].

Definition certificate_der (kp : Keypair) : list Z :=
  CERT_HEADER ++ public kp ++ CERT_EXTENSIONS ++ replicate 64 255.

Definition certificate_pem (kp : Keypair) : list Z := pem "CERTIFICATE" (certificate_der kp).

(** ** The configuration of quiche *)

Definition SOLANA_TPU_ALPN : list Z := lit "solana-tpu".
Definition MAX_PACKET_SIZE : Z := 1350.

(** The setters [create_quic_config] calls. *)
Inductive setting : Type :=
| MaxIdleTimeout (ms : Z) | AckDelayExponent (n : Z) | MaxAckDelay (ms : Z)
| MaxRecvUdpPayloadSize (n : Z) | MaxSendUdpPayloadSize (n : Z)
| InitialMaxStreamsUni (n : Z) | InitialMaxData (n : Z) | InitialMaxStreamDataUni (n : Z)
| DisableActiveMigration (b : bool) | EnableEarlyData | VerifyPeer (b : bool) | Grease (b : bool)
| InitialCongestionWindowPackets (n : Z) | EnableHystart (b : bool) | EnablePacing (b : bool).

(** [quiche::Config]: the loaders read the file of a path, [None] when it is not
    there. *)
Class quic_config_api (C : Type) : Type := {
  c_new : Result C quiche_error;
  c_set_application_protos : list (list Z) -> C -> Result C quiche_error;
  c_set : setting -> C -> C;
  c_load_cert_chain : option (list Z) -> C -> option C;
  c_load_priv_key : option (list Z) -> C -> option C;
}.

(** What becomes of a write: it succeeds, the file cannot be opened, or the write
    stops after some bytes. *)
Inductive write_outcome : Type := Written | Refused | Torn (n : nat).

Abbreviation Files := (gmap string (list Z)).

Section host.
Context {C : Type} `{quic_config_api C} (from_pkcs8 : list Z -> option (list Z)).
Context (outcome : string -> write_outcome) (removable : string -> bool).

Definition fs_read (path : string) : M Files (list Z) := fun files =>
  match files !! path with
  | Some data => (inr (Ok data), files)
  | None => (inr (Err Error.Io), files)
  end.

Definition fs_write (path : string) (data : list Z) : M Files unit := fun files =>
  match outcome path with
  | Written => (inr (Ok tt), <[path := data]> files)
  | Refused => (inr (Err Error.Io), files)
  | Torn n => (inr (Err Error.Io), <[path := take n data]> files)
  end.

Definition remove_file (path : string) : M Files unit :=
  modify (fun files => if removable path then delete path files else files).

(** [load_cert_chain_from_pem_file] and [load_priv_key_from_pem_file]: the caller's
    error handler runs when quiche refuses. *)
Definition load_pem (loader : option (list Z) -> C -> option C) (path : string) (on_error : M Files unit) (c : C)
    : M Files C :=
  content ← gets (fun files => files !! path);
  match loader content c with
  | Some c => mret c
  | None => on_error ≫= fun _ => fail Error.Tls
  end.

Definition load (path : string) : M Files Keypair :=
  data ← fs_read path;
  match parse_keypair data with
  | Err f => panic f
  | Ok None => fail Error.InvalidKeypair
  | Ok (Some kp) => mret kp
  end.

Definition clean_up (cert_path key_path : string) : M Files unit :=
  remove_file cert_path ≫= fun _ => remove_file key_path.

Definition CLIENT_CERT : string := "/tmp/quic_client_cert.pem".
Definition CLIENT_KEY : string := "/tmp/quic_client_key.pem".
Definition DUMMY_CERT : string := "/tmp/quic_dummy_cert.pem".
Definition DUMMY_KEY : string := "/tmp/quic_dummy_key.pem".

Definition load_client_cert (keypair_path : string) (c : C) : M Files C :=
  keypair ← load keypair_path;
  fs_write CLIENT_CERT (certificate_pem keypair) ≫= fun _ =>
  fs_write CLIENT_KEY (private_key_pem keypair) ≫= fun _ =>
  c ← load_pem c_load_cert_chain CLIENT_CERT (mret tt) c;
  c ← load_pem c_load_priv_key CLIENT_KEY (mret tt) c;
  clean_up CLIENT_CERT CLIENT_KEY ≫= fun _ => mret c.

(** The first [0x04 0x20] at one of the [n] positions from [i] on. *)
Fixpoint find_seed (n i : nat) (doc : list Z) : option nat :=
  match n with
  | 0%nat => None
  | Datatypes.S n =>
      if bool_decide (doc !! i = Some 4) && bool_decide (doc !! Datatypes.S i = Some 32) then Some (i + 2)%nat
      else find_seed n (Datatypes.S i) doc
  end.

Definition secret_key_bytes (doc : list Z) : option (list Z) :=
  match find_seed (length doc - 34) 0 doc with
  | Some offset => if (offset + 32 <=? length doc)%nat then Some (take 32 (drop offset doc)) else None
  | None => None
  end.

(** [generated] is what [generate_pkcs8] answers. *)
Definition load_dummy_cert (generated : option (list Z)) (c : C) : M Files C :=
  pkcs8_doc ← ok_or generated Error.Tls;
  public_key_bytes ← ok_or (from_pkcs8 pkcs8_doc) Error.Tls;
  secret ← ok_or (secret_key_bytes pkcs8_doc) Error.Tls;
  if negb (length public_key_bytes =? 32)%nat then
    panic (Panic "source slice length does not match destination slice length")
  else
    let keypair := {| secret := secret; public := public_key_bytes |} in
    fs_write DUMMY_CERT (certificate_pem keypair) ≫= fun _ =>
    fs_write DUMMY_KEY (private_key_pem keypair) ≫= fun _ =>
    c ← load_pem c_load_cert_chain DUMMY_CERT (clean_up DUMMY_CERT DUMMY_KEY) c;
    c ← load_pem c_load_priv_key DUMMY_KEY (clean_up DUMMY_CERT DUMMY_KEY) c;
    clean_up DUMMY_CERT DUMMY_KEY ≫= fun _ => mret c.

Definition settings (config : Strategy.Config) : list setting :=
  [MaxIdleTimeout (Strategy.idle_timeout_ms config); AckDelayExponent 0; MaxAckDelay 1;
   MaxRecvUdpPayloadSize MAX_PACKET_SIZE; MaxSendUdpPayloadSize MAX_PACKET_SIZE;
   InitialMaxStreamsUni (Strategy.max_streams_uni config); InitialMaxData 10000000;
   InitialMaxStreamDataUni MAX_PACKET_SIZE; DisableActiveMigration true; EnableEarlyData; VerifyPeer false;
   Grease false; InitialCongestionWindowPackets 10; EnableHystart false; EnablePacing false].

(** [?] on an answer of quiche. *)
Definition ok_quic {A} (r : Result A quiche_error) : M Files A :=
  match r with Ok a => mret a | Err e => fail (Error.Quic e) end.

Definition create_quic_config (generated : option (list Z)) (config : Strategy.Config) : M Files C :=
  c ← ok_quic c_new;
  c ← ok_quic (c_set_application_protos [SOLANA_TPU_ALPN] c);
  let c := fold_left (fun c s => c_set s c) (settings config) c in
  match Strategy.staked_identity config with
  | Some keypair_path => load_client_cert keypair_path c
  | None => load_dummy_cert generated c
  end.

End host.
