(* ===== verification/TlsSpec.v ===== *)
(** * TlsSpec: the identity that is read is the one presented

    [base64_encode] is RFC 4648's encoder and [bs58_decode] reads numbers in base
    58; a keypair written in any of the three formats is read back, and what
    quiche is given decodes, by readers of PEM and DER written here from RFC 5280,
    RFC 5958 and RFC 8410, to exactly this keypair. *)
From S2P Require Import Prelude Str Request HttpSpec Scan Quic Tls.
From S2P Require Strategy.

(** ** Base 64 *)

Lemma nth_alphabet i : 0 <= i < 64 -> nth (Z.to_nat i) ALPHABET64 0 = alphabet i.
Proof.
  intros Hi. pose proof (seqZ_forallb (fun i => nth (Z.to_nat i) ALPHABET64 0 =? alphabet i) 0 64 i
    ltac:(vm_compute; reflexivity) ltac:(lia)) as Hall. cbv beta in Hall. lia.
Qed.

Lemma char64_alphabet triple shift :
  0 <= shift -> char64 triple shift = alphabet (triple / 2 ^ shift mod 64).
Proof.
  intros Hs. unfold char64. rewrite Z.shiftr_div_pow2 by done. change 63 with (Z.ones 6).
  rewrite Z.land_ones by lia. apply nth_alphabet. apply Z.mod_pos_bound. lia.
Qed.

Lemma triple_sum b0 b1 b2 : is_byte b0 -> is_byte b1 -> is_byte b2 ->
  Z.lor (Z.lor (Z.shiftl b0 16) (Z.shiftl b1 8)) b2 = b0 * 65536 + b1 * 256 + b2.
Proof.
  unfold is_byte. intros H0 H1 H2. rewrite !Z.shiftl_mul_pow2 by lia.
  replace (b0 * 2 ^ 16) with ((b0 * 2 ^ 8) * 2 ^ 8) by lia.
  rewrite <- !(Z.shiftl_mul_pow2 _ 8), <- Z.shiftl_lor, !Z.shiftl_mul_pow2, !lor_field by lia. lia.
Qed.

Lemma base64_encode_rfc bytes :
  Forall is_byte bytes -> base64_encode bytes = Request.base64_encode bytes.
Proof.
  assert (H0 : is_byte 0) by (unfold is_byte; lia).
  remember (length bytes) as n eqn:Hn. assert (Hle : (length bytes <= n)%nat) by lia. clear Hn.
  revert bytes Hle. induction n as [|n IH]; intros bytes Hn Hb; [by destruct bytes; [|simpl in Hn; lia]|].
  destruct bytes as [|a [|b [|c rest]]]; repeat (apply Forall_cons in Hb as [? Hb]); [done|..];
    cbn [base64_encode Request.base64_encode]; unfold encode_chunk; cbn [from_option app]; unfold Datatypes.id; cbv zeta;
    rewrite ?triple_sum, ?char64_alphabet by (done || lia);
    repeat match goal with |- _ :: _ = _ :: _ => apply f_equal2 end; try done; try (apply f_equal; six_bits).
  apply IH; [simpl in Hn; lia|done].
Qed.

Lemma base64_decode_pem bytes : Forall is_byte bytes -> base64_decode (base64_encode bytes) = Ok bytes.
Proof. intros Hb. rewrite base64_encode_rfc by done. by apply base64_decode_encode. Qed.

Lemma rev_replicate {A} n (x : A) : rev (replicate n x) = replicate n x.
Proof. rewrite rev_alt. apply reverse_replicate. Qed.
(** ** Numbers in a base *)

Section digits.
Context (b : Z) (Hb : 1 < b).

(** Little-endian digits. *)
Fixpoint le_value (l : list Z) : Z :=
  match l with [] => 0 | d :: l => d + b * le_value l end.

Definition is_digit (d : Z) : Prop := 0 <= d < b.
Definition canonical (l : list Z) : Prop := Forall is_digit l /\ last l <> Some 0.

Fixpoint digits (fuel : nat) (v : Z) : list Z :=
  match fuel with
  | 0%nat => []
  | Datatypes.S fuel => if v <=? 0 then [] else v mod b :: digits fuel (v / b)
  end.

Lemma le_value_nonneg l : Forall is_digit l -> 0 <= le_value l.
Proof. unfold is_digit. induction 1 as [|d l Hd Hl IH]; cbn [le_value]; [done|]. nia. Qed.

Lemma le_value_app l l' : le_value (l ++ l') = le_value l + b ^ Z.of_nat (length l) * le_value l'.
Proof.
  induction l as [|d l IH]; cbn [app length le_value]; [by rewrite Z.pow_0_r; lia|].
  rewrite IH, Nat2Z.inj_succ, Z.pow_succ_r by lia. lia.
Qed.

Lemma le_value_zeros n l : le_value (l ++ replicate n 0) = le_value l.
Proof.
  rewrite le_value_app. replace (le_value (replicate n 0)) with 0; [lia|].
  induction n as [|n IH]; cbn [replicate le_value]; lia.
Qed.

Lemma canonical_tail d l : canonical (d :: l) -> canonical l.
Proof.
  intros [Hf Hl]. apply Forall_cons in Hf as [_ Hf]. split; [done|]. destruct l as [|x l]; [done|].
  by rewrite last_cons_cons in Hl.
Qed.

(** A value has one canonical representation. *)
Lemma canonical_zero l : canonical l -> le_value l = 0 -> l = [].
Proof.
  induction l as [|d l IH]; [done|]. intros Hc Hv. exfalso.
  pose proof (IH (canonical_tail _ _ Hc)) as Hl. destruct Hc as [Hf Hlast]. apply Forall_cons in Hf as [Hd Hf].
  pose proof (le_value_nonneg l Hf). unfold is_digit in Hd. cbn [le_value] in Hv.
  rewrite Hl in Hlast by nia. apply Hlast. simpl. f_equal. nia.
Qed.

Lemma canonical_unique l l' : canonical l -> canonical l' -> le_value l = le_value l' -> l = l'.
Proof.
  revert l'. induction l as [|d l IH]; intros l' Hc Hc' Hv.
  { symmetry. by apply canonical_zero. }
  destruct l' as [|d' l']; [by apply canonical_zero|].
  pose proof (canonical_tail _ _ Hc). pose proof (canonical_tail _ _ Hc').
  destruct Hc as [Hf _], Hc' as [Hf' _]. apply Forall_cons in Hf as [Hd Hf], Hf' as [Hd' Hf'].
  cbn [le_value] in Hv. unfold is_digit in *.
  assert (d = d') as -> by
    (rewrite <- (Z.mod_small d b), <- (Z.mod_small d' b), <- (Z.mod_add d (le_value l) b),
       <- (Z.mod_add d' (le_value l') b) by lia; f_equal; lia).
  f_equal. apply IH; [done..|nia].
Qed.

Lemma le_value_upper l : Forall is_digit l -> le_value l < b ^ Z.of_nat (length l).
Proof.
  unfold is_digit. induction 1 as [|d l Hd Hl IH]; cbn [le_value length]; [by rewrite Z.pow_0_r|].
  rewrite Nat2Z.inj_succ, Z.pow_succ_r by lia. nia.
Qed.

(** A canonical number fills its length, so one as large of the same length is
    canonical too. *)
Lemma canonical_keeps l l' :
  canonical l -> Forall is_digit l' -> length l' = length l -> le_value l <= le_value l' -> canonical l'.
Proof.
  intros [Hf Hl] Hf' Hlen Hle. split; [done|]. intros Hz.
  destruct l' as [|x l'' _] using rev_ind; [done|]. rewrite last_snoc in Hz. simplify_eq.
  apply Forall_app in Hf' as [Hf' _]. pose proof (le_value_zeros 1 l'') as Hz'. cbn [replicate] in Hz'. rewrite Hz' in Hle.
  pose proof (le_value_upper l'' Hf') as Hup.
  destruct l as [|y l _] using rev_ind; [rewrite length_app in Hlen; simpl in Hlen; lia|].
  rewrite last_snoc in Hl. apply Forall_app in Hf as [Hf Hy]. apply Forall_cons in Hy as [Hy _].
  rewrite le_value_app in Hle. cbn [le_value] in Hle. rewrite !length_app in Hlen. simpl in Hlen.
  assert (length l'' = length l) as Heq by lia. rewrite Heq in Hup.
  pose proof (le_value_nonneg l Hf). unfold is_digit in Hy. assert (y <> 0) by congruence.
  pose proof (Z.pow_pos_nonneg b (Z.of_nat (length l)) ltac:(lia) ltac:(lia)) as Hp.
  rewrite Z.mul_0_r, Z.add_0_r in Hle. set (p := b ^ Z.of_nat (length l)) in *. nia.
Qed.

Lemma digits_spec fuel v : 0 <= v < b ^ Z.of_nat fuel -> canonical (digits fuel v) /\ le_value (digits fuel v) = v.
Proof.
  revert v. induction fuel as [|fuel IH]; intros v Hv.
  { rewrite Z.pow_0_r in Hv. split; [by split; [constructor|]|]. cbn. lia. }
  cbn [digits]. rewrite Nat2Z.inj_succ, Z.pow_succ_r in Hv by lia.
  destruct (Z.leb_spec v 0) as [Hz|Hz]; [split; [by split; [constructor|]|cbn; lia]|].
  assert (Hq : 0 <= v / b < b ^ Z.of_nat fuel) by
    (split; [apply Z.div_pos; lia|apply Z.div_lt_upper_bound; lia]).
  destruct (IH _ Hq) as ([Hf Hl] & Hval). pose proof (Z.div_mod v b ltac:(lia)).
  pose proof (Z.mod_pos_bound v b ltac:(lia)).
  split; [|cbn [le_value]; lia]. split; [by constructor|].
  destruct (digits fuel (v / b)) as [|x l]; [|by rewrite last_cons_cons].
  cbn [le_value] in Hval. simpl. intros [= Hm]. nia.
Qed.

End digits.

(** ** Base 58 *)

Abbreviation byte_value := (le_value 256).

Lemma multiply_add_spec lo mid hi val :
  Forall is_byte mid -> 0 <= val <= 57 ->
  exists mid' val',
    multiply_add (length mid) (length lo) (lo ++ mid ++ hi) val = Ok (lo ++ mid' ++ hi, val') /\
    length mid' = length mid /\ Forall is_byte mid' /\ 0 <= val' <= 57 /\
    byte_value mid' + 256 ^ Z.of_nat (length mid) * val' = 58 * byte_value mid + val.
Proof.
  intros Hm. revert lo val. induction Hm as [|r mid Hr Hm IH]; intros lo val Hv.
  { exists [], val. cbn. split_and!; [done..|lia|lia|lia]. }
  unfold is_byte in Hr. cbn [multiply_add length app].
  rewrite list_lookup_middle by done. rewrite Z.mod_small by (unfold U32; lia).
  set (t := val + r * 58). change 255 with (Z.ones 8). rewrite Z.land_ones, Z.shiftr_div_pow2 by lia.
  change (2 ^ 8) with 256. rewrite insert_app_r_alt, Nat.sub_diag by lia. cbn [insert list_insert].
  rewrite cons_middle, app_assoc. replace (Datatypes.S (length lo)) with (length (lo ++ [t mod 256]))
    by (rewrite length_app; simpl; lia).
  assert (Ht : t = 256 * (t / 256) + t mod 256) by (apply Z.div_mod; lia).
  pose proof (Z.mod_pos_bound t 256 ltac:(lia)).
  destruct (IH (lo ++ [t mod 256]) (t / 256)) as (mid' & val' & He & Hlen & Hb & Hv' & Hval).
  { split; [apply Z.div_pos; lia|]. enough (t / 256 < 58) by lia. apply Z.div_lt_upper_bound; lia. }
  exists (t mod 256 :: mid'), val'. rewrite He. rewrite <- app_assoc. split; [done|].
  split; [simpl; lia|]. split; [by constructor|]. split; [done|].
  cbn [le_value length]. rewrite Nat2Z.inj_succ, Z.pow_succ_r by lia. lia.
Qed.

Lemma push_carry_spec le x hi val :
  0 <= val <= 57 ->
  push_carry 4 (le ++ x :: hi) (length le) val
  = Ok (if val =? 0 then (le ++ x :: hi, length le) else ((le ++ [val]) ++ hi, length (le ++ [val]))).
Proof.
  intros Hv. cbn [push_carry]. destruct (Z.eqb_spec val 0) as [->|Hne]; [done|].
  rewrite (proj2 (Z.leb_gt val 0)) by lia. rewrite list_lookup_middle by done.
  change 255 with (Z.ones 8). rewrite Z.land_ones, Z.shiftr_div_pow2 by lia. change (2 ^ 8) with 256.
  rewrite (Z.div_small val), (Z.mod_small val) by lia. rewrite Z.leb_refl.
  rewrite insert_app_r_alt, Nat.sub_diag by lia. cbn [insert list_insert].
  rewrite <- app_assoc. rewrite length_app. simpl. by rewrite Nat.add_1_r.
Qed.

(** One character: the number is multiplied by 58 and the digit added; it grows by
    at most one byte. *)
Lemma digit_step c d s le hi :
  position c ALPHABET58 = Some d -> 0 <= d <= 57 -> canonical 256 le -> hi <> [] ->
  exists le' hi',
    bs58_digits (c :: s) (le ++ hi) (length le) = bs58_digits s (le' ++ hi') (length le') /\
    canonical 256 le' /\ byte_value le' = 58 * byte_value le + d /\
    length (le' ++ hi') = length (le ++ hi) /\ (length le' <= length le + 1)%nat.
Proof.
  intros Hp Hd [Hf Hl] Hhi. cbn [bs58_digits]. rewrite Hp. destruct hi as [|x hi]; [done|].
  destruct (multiply_add_spec [] le (x :: hi) d Hf Hd) as (le1 & v & He & Hlen & Hb & Hv & Hval).
  cbn [app length] in He. rewrite He. rewrite <- Hlen, push_carry_spec by done.
  destruct (Z.eqb_spec v 0) as [->|Hne].
  - exists le1, (x :: hi). split; [done|]. rewrite !length_app. simpl. split; [|lia].
    pose proof (le_value_nonneg 256 ltac:(lia) le Hf). apply (canonical_keeps 256 ltac:(lia) le); [done..|lia].
  - exists (le1 ++ [v]), hi. split; [done|]. rewrite le_value_app, !length_app. cbn [le_value length].
    rewrite Hlen, Z.mul_0_r, Z.add_0_r. split; [split; [apply Forall_app; split; [done|]|]|split_and!; lia].
    + repeat constructor; lia.
    + rewrite last_snoc. congruence.
Qed.

Lemma position_spec c l d :
  position c l = Some d -> 0 <= d < Z.of_nat (length l) /\ nth (Z.to_nat d) l 0 = c.
Proof.
  revert d. induction l as [|x l IH]; intros d Hd; [done|]. cbn [position] in Hd.
  destruct (Z.eqb_spec x c) as [->|Hne]; [simplify_eq; simpl; split; [lia|done]|].
  destruct (position c l) as [d'|] eqn:Hp; [|done]. destruct (IH d' eq_refl) as [Hb Hn].
  simpl in Hd. simplify_eq. rewrite Z2Nat.inj_succ by lia. cbn [length nth]. split; [lia|done].
Qed.

(** The digits of a text, and their value, most significant first. *)
Definition indices58 (s : list Z) : option (list Z) := mapM (fun c => position c ALPHABET58) s.
Abbreviation value58 ds := (le_value 58 (rev ds)).

Lemma bs58_digits_spec s le hi :
  canonical 256 le -> (length s <= length hi)%nat ->
  match indices58 s with
  | None => bs58_digits s (le ++ hi) (length le) = Ok None
  | Some ds => exists le' hi',
      bs58_digits s (le ++ hi) (length le) = Ok (Some (le' ++ hi', length le')) /\
      canonical 256 le' /\ byte_value le' = 58 ^ Z.of_nat (length ds) * byte_value le + value58 ds /\
      length (le' ++ hi') = length (le ++ hi) /\ (length le' <= length le + length s)%nat
  end.
Proof.
  revert le hi. induction s as [|c s IH]; intros le hi Hc Hlen.
  { cbn. exists le, hi. split_and!; [done..|lia|done|lia]. }
  unfold indices58 in *. cbn [mapM]. destruct (position c ALPHABET58) as [d|] eqn:Hp; cbn [mbind option_bind].
  2: { cbn [bs58_digits]. by rewrite Hp. }
  pose proof (proj1 (position_spec _ _ _ Hp)) as Hd. change (Z.of_nat (length ALPHABET58)) with 58 in Hd.
  destruct (digit_step c d s le hi) as (le1 & hi1 & -> & Hc1 & Hv1 & Hl1 & Hg);
    [done|lia|done|by destruct hi; [simpl in Hlen; lia|]|].
  rewrite !length_app in Hl1. cbn [length] in Hlen. specialize (IH le1 hi1 Hc1 ltac:(lia)).
  destruct (mapM (fun c => position c ALPHABET58) s) as [ds|]; cbn [mret option_ret mbind option_bind]; [|done].
  destruct IH as (le2 & hi2 & -> & Hc2 & Hv2 & Hl2 & Hg2). exists le2, hi2. split; [done|]. split; [done|].
  rewrite !length_app in *. cbn [length rev]. rewrite le_value_app, length_rev, Nat2Z.inj_succ, Z.pow_succ_r by lia.
  cbn [le_value]. split; [rewrite Hv2, Hv1; lia|lia].
Qed.

(** ** Leading zeros *)

Fixpoint leading (x : Z) (l : list Z) : nat :=
  match l with
  | [] => 0
  | y :: l => if y =? x then Datatypes.S (leading x l) else 0
  end.

Lemma leading_split x l : exists t, l = replicate (leading x l) x ++ t /\ head t <> Some x.
Proof.
  induction l as [|y l (t & IH & Ht)]; [by exists []|]. cbn [leading].
  destruct (Z.eqb_spec y x) as [->|Hne]; [exists t; cbn; by rewrite <- IH|].
  exists (y :: l). split; [done|]. simpl. congruence.
Qed.

Lemma leading_app x n t : head t <> Some x -> leading x (replicate n x ++ t) = n.
Proof.
  intros Ht. induction n as [|n IH]; cbn [replicate app leading].
  - destruct t as [|y t]; [done|]. simpl in Ht. cbn. by rewrite (proj2 (Z.eqb_neq y x)) by congruence.
  - by rewrite Z.eqb_refl, IH.
Qed.

Lemma digits_ones z t n : bs58_digits (replicate z 49 ++ t) (replicate n 0) 0 = bs58_digits t (replicate n 0) 0.
Proof. induction z as [|z IH]; [done|]. exact IH. Qed.

Lemma indices_ones z t : indices58 (replicate z 49 ++ t) = app (replicate z 0) <$> indices58 t.
Proof.
  unfold indices58. induction z as [|z IH]; cbn [replicate app mapM]; [by destruct (mapM _ t)|].
  change (position 49 ALPHABET58) with (Some 0). cbn [mbind option_bind]. rewrite IH. by destruct (mapM _ t).
Qed.

Lemma leading_zeros_spec z t le hi :
  head t <> Some 49 -> (z <= length hi)%nat ->
  leading_zeros (replicate z 49 ++ t) (le ++ hi) (length le)
  = Ok (le ++ replicate z 0 ++ drop z hi, (length le + z)%nat).
Proof.
  intros Ht. revert le hi. induction z as [|z IH]; intros le hi Hz; cbn [replicate app].
  - rewrite Nat.add_0_r. destruct t as [|c t]; [done|]. cbn [leading_zeros]. simpl in Ht.
    by rewrite (proj2 (Z.eqb_neq c 49)) by congruence.
  - destruct hi as [|x hi]; [simpl in Hz; lia|]. cbn [leading_zeros]. rewrite Z.eqb_refl, list_lookup_middle by done.
    rewrite insert_app_r_alt, Nat.sub_diag by lia. cbn [insert list_insert].
    rewrite cons_middle, app_assoc. specialize (IH (le ++ [0]) hi ltac:(simpl in Hz; lia)).
    rewrite length_app in IH. simpl in IH. rewrite Nat.add_1_r in IH. rewrite IH, <- app_assoc.
    cbn [drop app]. by rewrite Nat.add_succ_r.
Qed.

Lemma bs58_spec text :
  let s := as_bytes text in
  match indices58 s with
  | None => bs58_decode text = Ok None
  | Some ds => exists le, canonical 256 le /\ byte_value le = value58 ds /\
      bs58_decode text = Ok (Some (replicate (leading 49 s) 0 ++ rev le))
  end.
Proof.
  intros s. unfold bs58_decode. fold s. destruct (leading_split 49 s) as (t & Hs & Ht).
  set (z := leading 49 s) in *. clearbody z. clearbody s. subst s.
  rewrite length_app, length_replicate, digits_ones, indices_ones.
  assert (Hnil : canonical 256 []) by (by split; [constructor|]).
  pose proof (bs58_digits_spec t [] (replicate (z + length t) 0) Hnil ltac:(rewrite length_replicate; lia)) as Hd.
  cbn [app length] in Hd.
  destruct (indices58 t) as [ds|]; cbn [fmap option_fmap option_map]; [|by rewrite Hd].
  destruct Hd as (le & hi & -> & Hc & Hv & Hl & Hg). exists le. split; [done|].
  rewrite length_app, length_replicate in Hl.
  split. { rewrite rev_app_distr, rev_replicate, le_value_zeros. cbn [le_value] in Hv. lia. }
  rewrite leading_zeros_spec by (done || lia). do 2 f_equal.
  rewrite app_assoc. rewrite (take_app_length' (le ++ replicate z 0)) by (rewrite length_app, length_replicate; lia).
  by rewrite rev_app_distr, rev_replicate.
Qed.

(** The encoder of the Base58 draft, without the checksum. *)
Definition base58_encode (bytes : list Z) : list Z :=
  replicate (leading 0 bytes) 49 ++
  ((fun d => nth (Z.to_nat d) ALPHABET58 0) <$> rev (digits 58 (2 * length bytes) (byte_value (rev bytes)))).

Definition char58_check (d : Z) : bool :=
  let c := nth (Z.to_nat d) ALPHABET58 0 in
  bool_decide (position c ALPHABET58 = Some d) && (0 <=? c) && (c <? 128) && negb (is_whitespace c) &&
  negb (c =? 91) && (negb (c =? 49) || (d =? 0)).

Lemma char58 d : 0 <= d < 58 ->
  position (nth (Z.to_nat d) ALPHABET58 0) ALPHABET58 = Some d /\ is_ascii (nth (Z.to_nat d) ALPHABET58 0) /\
  is_whitespace (nth (Z.to_nat d) ALPHABET58 0) = false /\ nth (Z.to_nat d) ALPHABET58 0 <> 91 /\
  (nth (Z.to_nat d) ALPHABET58 0 = 49 -> d = 0).
Proof.
  intros Hd. pose proof (seqZ_forallb char58_check 0 58 d ltac:(vm_compute; reflexivity) ltac:(lia)) as Hall.
  unfold char58_check in Hall.
  repeat (apply andb_true_iff in Hall as [Hall ?]). apply bool_decide_eq_true in Hall.
  split; [done|]. unfold is_ascii. split; [lia|]. split; [by apply negb_true_iff|]. lia.
Qed.

Lemma digits58_spec bytes :
  Forall is_byte bytes ->
  let ds := digits 58 (2 * length bytes) (byte_value (rev bytes)) in
  canonical 58 ds /\ le_value 58 ds = byte_value (rev bytes).
Proof.
  intros Hb. apply digits_spec; [lia|]. apply Forall_rev in Hb.
  pose proof (le_value_nonneg 256 ltac:(lia) _ Hb). pose proof (le_value_upper 256 ltac:(lia) _ Hb) as Hup.
  rewrite length_rev in Hup. rewrite Nat2Z.inj_mul. change (Z.of_nat 2) with 2.
  rewrite Z.pow_mul_r by lia. change (58 ^ 2) with 3364.
  pose proof (Z.pow_le_mono_l 256 3364 (Z.of_nat (length bytes)) ltac:(lia)). lia.
Qed.

Lemma indices_chars ds :
  Forall (is_digit 58) ds -> indices58 ((fun d => nth (Z.to_nat d) ALPHABET58 0) <$> ds) = Some ds.
Proof.
  unfold indices58. induction 1 as [|d ds Hd Hds IH]; [done|]. rewrite fmap_cons. cbn [mapM].
  destruct (char58 d Hd) as (-> & _). cbn [mbind option_bind]. by rewrite IH.
Qed.

(** Characters a keypair file can be recognised by. *)
Definition char58_ok (c : Z) : Prop := is_ascii c /\ is_whitespace c = false /\ c <> 91.

Lemma base58_chars bytes : Forall is_byte bytes -> Forall char58_ok (base58_encode bytes).
Proof.
  intros Hb. destruct (digits58_spec bytes Hb) as [[Hf _] _]. apply Forall_app. split.
  - apply Forall_replicate. by split.
  - apply Forall_fmap, Forall_rev. eapply Forall_impl; [exact Hf|]. intros d Hd.
    destruct (char58 d Hd) as (_ & ? & ? & ? & _). by split.
Qed.

Lemma bs58_decode_encode bytes : Forall is_byte bytes -> bs58_decode (base58_encode bytes) = Ok (Some bytes).
Proof.
  intros Hb. pose proof (bs58_spec (base58_encode bytes)) as Hspec. cbv zeta in Hspec.
  rewrite as_bytes_ascii in Hspec by (eapply Forall_impl; [by apply base58_chars|]; by intros c [? _]).
  destruct (digits58_spec bytes Hb) as [[Hf Hlast] Hval]. unfold base58_encode in Hspec at 1 3.
  rewrite indices_ones, indices_chars in Hspec by (by apply Forall_rev). cbn [fmap option_fmap option_map] in Hspec.
  destruct Hspec as (le & Hc & Hv & ->). rewrite rev_app_distr, rev_replicate, le_value_zeros, rev_involutive, Hval in Hv.
  rewrite leading_app.
  2: { destruct (rev (digits _ _ _)) as [|d ds] eqn:Hr; [done|]. rewrite fmap_cons. intros [= He].
       apply (f_equal (@rev Z)) in Hr. rewrite rev_involutive in Hr. cbn [rev] in Hr. rewrite Hr in Hf, Hlast.
       rewrite last_snoc in Hlast. apply Forall_app in Hf as [_ Hd]. apply Forall_cons in Hd as [Hd _].
       apply Hlast. f_equal. by apply (char58 d Hd). }
  do 2 f_equal. destruct (leading_split 0 bytes) as (m & Hm & Hm0). rewrite Hm at 2. f_equal.
  rewrite <- (rev_involutive m). f_equal. apply (canonical_unique 256 ltac:(lia)); [done| |].
  - rewrite Hm in Hb. apply Forall_app in Hb as [_ Hb]. split; [by apply Forall_rev|].
    intros Hl. apply Hm0. by rewrite last_rev in Hl.
  - rewrite Hv, Hm, rev_app_distr, rev_replicate, le_value_zeros. done.
Qed.

(** ** Keypair files *)

Fixpoint join (sep : Z) (pieces : list (list Z)) : list Z :=
  match pieces with
  | [] => []
  | [p] => p
  | p :: pieces => p ++ sep :: join sep pieces
  end.

Lemma split_join sep pieces :
  pieces <> [] -> Forall (Forall (fun c => c <> sep)) pieces -> split_on sep (join sep pieces) = pieces.
Proof.
  intros Hne Hf. induction Hf as [|p pieces Hp Hf IH]; [done|].
  destruct pieces as [|p' pieces]; [by apply split_on_none|].
  change (join sep (p :: p' :: pieces)) with (p ++ sep :: join sep (p' :: pieces)).
  rewrite split_on_app by done. by rewrite IH.
Qed.

Lemma join_ascii sep pieces : is_ascii sep -> Forall (Forall is_ascii) pieces -> Forall is_ascii (join sep pieces).
Proof.
  intros Hs. induction 1 as [|p pieces Hp Hf IH]; [constructor|]. destruct pieces as [|p' pieces]; [done|].
  change (join sep (p :: p' :: pieces)) with (p ++ sep :: join sep (p' :: pieces)).
  apply Forall_app. split; [done|]. by constructor.
Qed.

Lemma parse_u8_decimal n : is_byte n -> parse_u8 (trim (decimal n)) = Some n.
Proof.
  unfold is_byte. intros Hn. pose proof (decimal_plain n) as Hp. rewrite trim_id.
  - unfold parse_u8. rewrite parse_decimal by (unfold U64; lia). by rewrite (proj2 (Z.ltb_lt n 256)) by lia.
  - intros c Hc. rewrite Forall_forall in Hp. apply Hp. destruct (decimal n); [done|]. cbn in Hc. simplify_eq. by left.
  - intros c Hc. rewrite Forall_forall in Hp. apply Hp. by apply last_Some_elem_of.
Qed.

(** The array [solana-keygen] writes. *)
Definition json_array (bytes : list Z) : list Z := 91 :: join 44 (decimal <$> bytes) ++ [93].

Lemma json_array_ascii bytes : Forall is_ascii (json_array bytes).
Proof.
  unfold json_array. constructor; [done|]. apply Forall_app. split; [|by repeat constructor].
  apply join_ascii; [done|]. apply Forall_fmap, Forall_true. intros n. simpl.
  eapply Forall_impl; [apply decimal_plain|]. by intros c [? _].
Qed.

Lemma json_array_parsed p q bytes :
  Forall blank p -> Forall blank q -> bytes <> [] -> Forall is_byte bytes ->
  serde_json_parse_array (p ++ json_array bytes ++ q) = Some bytes.
Proof.
  intros Hp Hq Hne Hb. unfold serde_json_parse_array.
  rewrite from_utf8_ascii by (rewrite !Forall_app; auto using blank_ascii, json_array_ascii).
  cbn [mbind option_bind].
  assert (Hlast : last (json_array bytes) = Some 93) by (unfold json_array; by rewrite app_comm_cons, last_snoc).
  rewrite trim_blank; [|done|done| | |done];
    [|intros c Hc; unfold json_array in Hc; simpl in Hc; by simplify_eq|intros c Hc; rewrite Hlast in Hc; by simplify_eq].
  cbv zeta. rewrite Hlast, !bool_decide_eq_true_2 by done. cbn [andb].
  unfold json_array at 2. cbn [drop]. rewrite drop_0, take_app_length'
    by (unfold json_array; cbn [length]; rewrite length_app; simpl; lia).
  rewrite split_join.
  - clear Hne Hlast Hp Hq. induction Hb as [|n bytes Hn Hb IH]; [done|]. rewrite fmap_cons. cbn [mapM].
    rewrite parse_u8_decimal by done. cbn [mbind option_bind]. by rewrite IH.
  - by destruct bytes.
  - apply Forall_fmap, Forall_true. intros n. simpl. eapply Forall_impl; [apply decimal_plain|]. by intros c (_ & _ & ?).
Qed.

(** An array of [n] numbers takes more than [n] bytes, so 64 raw bytes are never
    taken for one of 64 numbers. *)
Lemma drop_while_length f s : (length (drop_while f s) <= length s)%nat.
Proof. induction s as [|c s IH]; [done|]. cbn [drop_while]. destruct (f c); simpl; lia. Qed.

Lemma trim_length s : (length (trim s) <= length s)%nat.
Proof.
  unfold trim. rewrite length_rev. etrans; [apply drop_while_length|]. rewrite length_rev. apply drop_while_length.
Qed.

Lemma from_utf8_length bs s : from_utf8 bs = Some s -> (length s <= length bs)%nat.
Proof.
  remember (length bs) as n eqn:Hn. assert (Hle : (length bs <= n)%nat) by lia. rewrite Hn. clear Hn.
  revert bs s Hle. induction n as [|n IH]; intros bs s Hle Hs.
  { destruct bs; [|simpl in Hle; lia]. cbn in Hs. simplify_eq. simpl. lia. }
  assert (Hc : forall c l r s', cons c <$> from_utf8 l = Some s' -> (length l <= n)%nat ->
    (Datatypes.S (length l) <= r)%nat -> (length s' <= r)%nat).
  { intros c l r s' He Hl Hr. destruct (from_utf8 l) as [x|] eqn:Hx; [|done]. cbn in He. simplify_eq.
    pose proof (IH l x Hl Hx). simpl. lia. }
  destruct bs as [|b0 r0]; cbn [from_utf8] in Hs; [by simplify_eq|].
  repeat (case_match; try done); eapply Hc; try exact Hs; simpl in *; lia.
Qed.

Lemma split_on_size sep s : (length s + 1 = sum_list (length <$> split_on sep s) + length (split_on sep s))%nat.
Proof.
  induction s as [|c s IH]; [done|]. cbn [split_on]. pose proof (split_on_nonempty sep s).
  destruct (split_on sep s) as [|p ps]; [done|]. destruct (c =? sep); cbn in *; lia.
Qed.

Lemma parse_u8_nonempty s n : parse_u8 (trim s) = Some n -> (1 <= length s)%nat.
Proof. intros H. pose proof (trim_length s). destruct s; [done|]. simpl. lia. Qed.

Lemma json_array_long data bytes :
  serde_json_parse_array data = Some bytes -> (2 * length bytes < length data)%nat.
Proof.
  unfold serde_json_parse_array. intros H. destruct (from_utf8 data) as [s|] eqn:Hu; [|done].
  cbn [mbind option_bind] in H. pose proof (from_utf8_length _ _ Hu). pose proof (trim_length s).
  destruct (bool_decide (head (trim s) = Some 91)) eqn:Hh; [|done]. cbn [andb] in H.
  destruct (bool_decide (last (trim s) = Some 93)) eqn:Hl; [|done].
  apply bool_decide_eq_true in Hh, Hl. set (inner := take _ _) in H.
  assert (Hi : (length inner + 2 <= length (trim s))%nat).
  { unfold inner. rewrite length_take, length_drop. destruct (trim s) as [|x [|y l]]; [done|by simplify_eq|]. simpl. lia. }
  apply mapM_Some in H. pose proof (Forall2_length _ _ _ H) as Hlen. pose proof (split_on_size 44 inner) as Hsize.
  assert (Hsum : (length (split_on 44 inner) <= sum_list (length <$> split_on 44 inner))%nat); [|lia].
  clear Hsize Hlen Hi. induction H as [|p n ps bytes' Hp HF IH]; cbn; [lia|].
  pose proof (parse_u8_nonempty _ _ Hp). lia.
Qed.

(** The three forms of a keypair file. *)
Inductive keypair_file (bytes : list Z) : list Z -> Prop :=
| RawFile : keypair_file bytes bytes
| JsonFile p q : Forall blank p -> Forall blank q -> keypair_file bytes (p ++ json_array bytes ++ q)
| Base58File p q :
    Forall blank p -> Forall blank q -> (length (p ++ base58_encode bytes ++ q) <> 64)%nat ->
    keypair_file bytes (p ++ base58_encode bytes ++ q).

Lemma base58_nonempty bytes : Forall is_byte bytes -> bytes <> [] -> base58_encode bytes <> [].
Proof.
  intros Hb Hne He. pose proof (bs58_decode_encode bytes Hb) as Hd. rewrite He in Hd.
  vm_compute in Hd. by simplify_eq.
Qed.

Lemma base58_trim p q bytes :
  Forall blank p -> Forall blank q -> Forall is_byte bytes -> bytes <> [] ->
  from_utf8 (p ++ base58_encode bytes ++ q) = Some (p ++ base58_encode bytes ++ q) /\
  trim (p ++ base58_encode bytes ++ q) = base58_encode bytes /\ head (base58_encode bytes) <> Some 91.
Proof.
  intros Hp Hq Hb Hne. pose proof (base58_chars bytes Hb) as Hc. rewrite Forall_forall in Hc. split; [|split].
  - apply from_utf8_ascii. rewrite !Forall_app. split; [by apply blank_ascii|]. split; [|by apply blank_ascii].
    apply Forall_forall. intros c Hin. by apply Hc.
  - apply trim_blank; [done|done| | |by apply base58_nonempty]; intros c Hh; apply Hc.
    + destruct (base58_encode bytes); [done|]. cbn in Hh. simplify_eq. by left.
    + by apply last_Some_elem_of.
  - intros Hh. apply (Hc 91); [|done]. destruct (base58_encode bytes); [done|]. cbn in Hh. simplify_eq. by left.
Qed.

Lemma keypair_read bytes data :
  length bytes = 64%nat -> Forall is_byte bytes -> keypair_file bytes data ->
  parse_keypair data = Ok (Some (split_keypair bytes)).
Proof.
  intros Hlen Hb Hf. assert (Hne : bytes <> []) by (by destruct bytes).
  assert (Hw : forall l : list Z, length l = 64%nat -> (length l =? 64)%nat = true) by (intros l ->; done).
  unfold parse_keypair. destruct Hf as [|p q Hp Hq|p q Hp Hq Hl].
  - destruct (serde_json_parse_array bytes) as [l|] eqn:Hj; cbn [mbind option_bind]; [|by rewrite Hw].
    pose proof (json_array_long _ _ Hj). rewrite (proj2 (Nat.eqb_neq (length l) 64)) by lia. by rewrite Hw.
  - rewrite json_array_parsed by done. cbn [mbind option_bind]. by rewrite Hw.
  - destruct (base58_trim p q bytes Hp Hq Hb Hne) as (Hu & Ht & Hh).
    unfold serde_json_parse_array. rewrite Hu. cbn [mbind option_bind]. rewrite Ht.
    rewrite (bool_decide_eq_false_2 (head _ = _)) by done. cbn [andb mbind option_bind].
    rewrite (proj2 (Nat.eqb_neq _ 64)) by done. rewrite bs58_decode_encode by done. cbn [mbind option_bind].
    by rewrite Hw.
Qed.

(** ** Readers of PEM and DER *)

(** A tag, the contents and the rest; lengths of one or two bytes, minimal. *)
Definition der_read (l : list Z) : option (Z * list Z * list Z) :=
  let contents tag n rest :=
    if (length rest <? n)%nat then None else Some (tag, take n rest, drop n rest) in
  match l with
  | tag :: len :: rest =>
      if len <? 128 then contents tag (Z.to_nat len) rest
      else
        match rest with
        | n :: rest => if (len =? 129) && (128 <=? n) then contents tag (Z.to_nat n) rest else None
        | [] => None
        end
  | _ => None
  end.

(** All the elements of a constructed value. *)
Fixpoint der_items (fuel : nat) (l : list Z) : option (list (Z * list Z)) :=
  match l, fuel with
  | [], _ => Some []
  | _, 0%nat => None
  | _, Datatypes.S fuel => '(tag, contents, rest) ← der_read l; cons (tag, contents) <$> der_items fuel rest
  end.

Definition items (l : list Z) : option (list (Z * list Z)) := der_items (length l) l.

(** RFC 8410: the algorithm identifier of Ed25519. *)
Definition ED25519 : Z * list Z := (48, [6; 3; 43; 101; 112]).

(** RFC 5280: the public key of a version 3 certificate that names Ed25519 for the
    key and for the signature. *)
Definition x509_public_key (l : list Z) : option (list Z) :=
  match items l with
  | Some [(48, certificate)] =>
      match items certificate with
      | Some [(48, tbs); alg; (3, 0 :: signature)] =>
          match items tbs with
          | Some [(160, [2; 1; 2]); (2, serial); alg'; (48, issuer); (48, validity); (48, subject); (48, spki);
                  (163, extensions)] =>
              match items spki with
              | Some [alg''; (3, 0 :: key)] =>
                  if bool_decide (alg = ED25519 /\ alg' = ED25519 /\ alg'' = ED25519 /\ length signature = 64%nat)
                  then Some key else None
              | _ => None
              end
          | _ => None
          end
      | _ => None
      end
  | _ => None
  end.

(** RFC 5958 and 8410: the seed of a version 1 private key. *)
Definition pkcs8_seed (l : list Z) : option (list Z) :=
  match items l with
  | Some [(48, info)] =>
      match items info with
      | Some [(2, [0]); alg; (4, private)] =>
          match items private with
          | Some [(4, seed)] => if bool_decide (alg = ED25519) then Some seed else None
          | _ => None
          end
      | _ => None
      end
  | _ => None
  end.

(** RFC 7468, the body on one line. *)
Definition pem_decode (label : string) (text : list Z) : option (list Z) :=
  match split_on 10 text with
  | [header; body; footer; []] =>
      if bool_decide (header = lit "-----BEGIN " ++ lit label ++ lit "-----") &&
         bool_decide (footer = lit "-----END " ++ lit label ++ lit "-----")
      then match base64_decode body with Ok der => Some der | Err _ => None end
      else None
  | _ => None
  end.

Lemma pem_roundtrip label der :
  Forall (fun c => c <> 10) (lit label) -> Forall is_byte der -> pem_decode label (pem label der) = Some der.
Proof.
  intros Hlab Hb. unfold pem_decode, pem.
  assert (Hbody : Forall (fun c => c <> 10) (base64_encode der)).
  { rewrite base64_encode_rfc by done.
    eapply Forall_impl; [exact (encode_plain (length der) der (le_n _) Hb)|]. intros c [_ Hw] ->. done. }
  assert (Hbegin : Forall (fun c => c <> 10) (lit "-----BEGIN " ++ lit label ++ lit "-----"))
    by (rewrite !Forall_app; split_and!; [by repeat constructor|done|by repeat constructor]).
  assert (Hend : Forall (fun c => c <> 10) (lit "-----END " ++ lit label ++ lit "-----"))
    by (rewrite !Forall_app; split_and!; [by repeat constructor|done|by repeat constructor]).
  rewrite !(app_assoc (lit "-----BEGIN ")), !(app_assoc (_ ++ lit label) (lit "-----")), <- (app_assoc _ _ (lit "-----")).
  rewrite (app_assoc (lit "-----END ") (lit label)), (app_assoc (lit "-----END " ++ lit label)).
  rewrite <- (app_assoc (lit "-----END ") _ (lit "-----")). cbn [app].
  rewrite (split_on_app 10 _ _ Hbegin), (split_on_app 10 _ _ Hbody), (split_on_app 10 _ _ Hend).
  cbn [split_on]. rewrite !bool_decide_eq_true_2 by done. cbn [andb]. by rewrite base64_decode_pem.
Qed.

(** A list of 32 elements, element by element. *)
Ltac explode l := do 32 (destruct l as [|? l]; [discriminate|]); destruct l; [|discriminate].

Lemma certificate_key kp :
  length (public kp) = 32%nat -> x509_public_key (certificate_der kp) = Some (public kp).
Proof. destruct kp as [s p]. cbn [public]. intros Hl. explode p. vm_compute. reflexivity. Qed.

Lemma private_key_seed kp : length (secret kp) = 32%nat -> pkcs8_seed (private_key_der kp) = Some (secret kp).
Proof. destruct kp as [s p]. cbn [secret]. intros Hl. explode s. vm_compute. reflexivity. Qed.

Lemma identity_pems kp :
  length (secret kp) = 32%nat -> length (public kp) = 32%nat ->
  Forall is_byte (secret kp) -> Forall is_byte (public kp) ->
  pem_decode "CERTIFICATE" (certificate_pem kp) ≫= x509_public_key = Some (public kp) /\
  pem_decode "PRIVATE KEY" (private_key_pem kp) ≫= pkcs8_seed = Some (secret kp).
Proof.
  intros Hs Hp Hbs Hbp. unfold certificate_pem, private_key_pem. split.
  - rewrite pem_roundtrip; [by apply certificate_key|by repeat constructor|].
    unfold certificate_der. rewrite !Forall_app. split_and!; [by repeat constructor|done|by repeat constructor|].
    by apply Forall_replicate.
  - rewrite pem_roundtrip; [by apply private_key_seed|by repeat constructor|].
    apply Forall_app. by split; [repeat constructor|].
Qed.

Lemma split_keypair_parts bytes :
  length bytes = 64%nat -> secret (split_keypair bytes) = take 32 bytes /\ public (split_keypair bytes) = drop 32 bytes.
Proof. intros Hl. split; [done|]. cbn. apply take_ge. rewrite length_drop. lia. Qed.

Section presented.
Context {C : Type} `{quic_config_api C} (from_pkcs8 : list Z -> option (list Z)).
Context (outcome : string -> write_outcome) (removable : string -> bool).

Lemma bind_ok {S A B} (m : M S A) (k : A -> M S B) s a s' : m s = (inr (Ok a), s') -> (m ≫= k) s = k a s'.
Proof. unfold mbind, M_bind. by intros ->. Qed.
Lemma bind_err {S A B} (m : M S A) (k : A -> M S B) s e s' :
  m s = (inr (Err e), s') -> (m ≫= k) s = (inr (Err e), s').
Proof. unfold mbind, M_bind. by intros ->. Qed.

Lemma write_ok path data (files : Files) :
  outcome path = Written -> fs_write outcome path data files = (inr (Ok tt), <[path := data]> files).
Proof. unfold fs_write. by intros ->. Qed.

Lemma load_pem_run loader path handler (c : C) (files files' : Files) :
  handler files = (inr (Ok tt), files') ->
  load_pem loader path handler c files =
    match loader (files !! path) c with
    | Some c => (inr (Ok c), files)
    | None => (inr (Err Error.Tls), files')
    end.
Proof.
  intros Hh. unfold load_pem. rewrite (bind_ok _ _ _ (files !! path) files) by done.
  destruct (loader _ c); [done|]. by rewrite (bind_ok _ _ _ tt files').
Qed.

Lemma files_removed cert key (files : Files) a b :
  a <> b -> delete b (delete a (<[b := key]> (<[a := cert]> files))) = delete b (delete a files).
Proof.
  intros Hne. apply map_eq. intros i. rewrite !lookup_delete. repeat case_decide; [done..|].
  by rewrite !lookup_insert_ne by done.
Qed.

(** What both loaders do once they have a keypair. *)
Lemma present_pems cert_path key_path cert key handler c (files files' : Files) :
  handler (<[key_path := key]> (<[cert_path := cert]> files)) = (inr (Ok tt), files') ->
  cert_path <> key_path -> outcome cert_path = Written -> outcome key_path = Written ->
  removable cert_path = true -> removable key_path = true ->
  (fs_write outcome cert_path cert ≫= fun _ =>
   fs_write outcome key_path key ≫= fun _ =>
   c ← load_pem c_load_cert_chain cert_path handler c;
   c ← load_pem c_load_priv_key key_path handler c;
   clean_up removable cert_path key_path ≫= fun _ => mret c) files
  = match c_load_cert_chain (Some cert) c ≫= c_load_priv_key (Some key) with
    | Some c => (inr (Ok c), delete key_path (delete cert_path files))
    | None => (inr (Err Error.Tls), files')
    end.
Proof.
  intros Hh Hne Hwc Hwk Hrc Hrk. rewrite (bind_ok _ _ _ _ _ (write_ok cert_path cert files Hwc)).
  rewrite (bind_ok _ _ _ _ _ (write_ok key_path key _ Hwk)).
  pose proof (load_pem_run c_load_cert_chain cert_path handler c _ _ Hh) as Hc.
  rewrite lookup_insert_ne, lookup_insert_eq in Hc by done.
  destruct (c_load_cert_chain (Some cert) c) as [c1|]; cbn [mbind option_bind]; [|by rewrite (bind_err _ _ _ _ _ Hc)].
  rewrite (bind_ok _ _ _ _ _ Hc). pose proof (load_pem_run c_load_priv_key key_path handler c1 _ _ Hh) as Hk.
  rewrite lookup_insert_eq in Hk.
  destruct (c_load_priv_key (Some key) c1) as [c2|]; [|by rewrite (bind_err _ _ _ _ _ Hk)].
  rewrite (bind_ok _ _ _ _ _ Hk), (bind_ok _ _ _ tt (delete key_path (delete cert_path files))); [done|].
  unfold clean_up, remove_file, modify, mbind, M_bind. rewrite Hrc, Hrk. by rewrite files_removed.
Qed.

(** C35. The identity in the file is the identity presented.  Let the keypair file
    of a staked configuration hold 64 bytes, raw, as a JSON array, or in base 58
    (with white space around the text).  Then quiche is given a certificate and a
    private key which, read as PEM and DER, are an Ed25519 certificate for the
    last 32 bytes and a PKCS#8 key with the first 32 bytes as its seed, after all
    the settings were made.  When quiche takes both, the temporary files are gone;
    when it refuses one, the call fails and both files stay behind. *)
Theorem staked_identity_presented config path data bytes generated (files : Files) c0 c1 :
  Strategy.staked_identity config = Some path -> files !! path = Some data ->
  length bytes = 64%nat -> Forall is_byte bytes -> keypair_file bytes data ->
  c_new = Ok c0 -> c_set_application_protos [SOLANA_TPU_ALPN] c0 = Ok c1 ->
  outcome CLIENT_CERT = Written -> outcome CLIENT_KEY = Written ->
  removable CLIENT_CERT = true -> removable CLIENT_KEY = true ->
  exists cert key,
    pem_decode "CERTIFICATE" cert ≫= x509_public_key = Some (drop 32 bytes) /\
    pem_decode "PRIVATE KEY" key ≫= pkcs8_seed = Some (take 32 bytes) /\
    create_quic_config from_pkcs8 outcome removable generated config files =
      match c_load_cert_chain (Some cert) (fold_left (fun c s => c_set s c) (settings config) c1)
            ≫= c_load_priv_key (Some key) with
      | Some c => (inr (Ok c), delete CLIENT_KEY (delete CLIENT_CERT files))
      | None => (inr (Err Error.Tls), <[CLIENT_KEY := key]> (<[CLIENT_CERT := cert]> files))
      end.
Proof.
  intros Hst Hfile Hlen Hb Hform Hnew Hproto Hwc Hwk Hrc Hrk.
  destruct (split_keypair_parts bytes Hlen) as [Hsec Hpub].
  destruct (identity_pems (split_keypair bytes)) as [Hc Hk].
  { by rewrite Hsec, length_take, Hlen. } { by rewrite Hpub, length_drop, Hlen. }
  { rewrite Hsec. by apply Forall_take. } { rewrite Hpub. by apply Forall_drop. }
  rewrite Hsec in Hk. rewrite Hpub in Hc.
  exists (certificate_pem (split_keypair bytes)), (private_key_pem (split_keypair bytes)). split; [done|]. split; [done|].
  unfold create_quic_config. rewrite Hnew, Hst. rewrite (bind_ok _ _ _ c0 files) by done.
  rewrite Hproto, (bind_ok _ _ _ c1 files) by done. cbv zeta. set (c2 := fold_left _ _ _).
  unfold load_client_cert. rewrite (bind_ok _ _ _ (split_keypair bytes) files).
  2: { unfold load. rewrite (bind_ok _ _ _ data files) by (unfold fs_read; by rewrite Hfile). by rewrite (keypair_read bytes). }
  by rewrite (present_pems CLIENT_CERT CLIENT_KEY _ _ (mret tt) c2 files
    (<[CLIENT_KEY := private_key_pem (split_keypair bytes)]> (<[CLIENT_CERT := certificate_pem (split_keypair bytes)]> files))).
Qed.

(** A version 2 document (RFC 5958): the seed, then the public key. *)
Definition pkcs8_v2 (seed tail : list Z) : list Z :=
  [48; 81; 2; 1; 1; 48; 5; 6; 3; 43; 101; 112; 4; 34; 4; 32] ++ seed ++ tail.

Lemma seed_found seed tail :
  length seed = 32%nat -> tail <> [] -> secret_key_bytes (pkcs8_v2 seed tail) = Some seed.
Proof.
  intros Hs Ht. unfold secret_key_bytes.
  assert (Hl : length (pkcs8_v2 seed tail) = (48 + length tail)%nat)
    by (unfold pkcs8_v2; cbn [app length]; rewrite length_app; lia).
  rewrite Hl. destruct tail as [|x tail]; [done|]. cbn [length].
  replace (48 + Datatypes.S (length tail) - 34)%nat with (15 + length tail)%nat by lia.
  replace (find_seed _ 0 _) with (Some 16%nat) by (symmetry; unfold pkcs8_v2; vm_compute; reflexivity).
  rewrite (proj2 (Nat.leb_le _ _)) by lia. unfold pkcs8_v2. cbn [app drop]. by rewrite drop_0, take_app_length'.
Qed.

(** An unstaked endpoint presents the key that was generated, in the same form,
    and leaves no files behind in either case. *)
Lemma dummy_identity_presented config seed key tail (files : Files) c0 c1 :
  Strategy.staked_identity config = None ->
  length seed = 32%nat -> Forall is_byte seed -> length key = 32%nat -> Forall is_byte key -> tail <> [] ->
  from_pkcs8 (pkcs8_v2 seed tail) = Some key ->
  c_new = Ok c0 -> c_set_application_protos [SOLANA_TPU_ALPN] c0 = Ok c1 ->
  outcome DUMMY_CERT = Written -> outcome DUMMY_KEY = Written ->
  removable DUMMY_CERT = true -> removable DUMMY_KEY = true ->
  exists cert priv,
    pem_decode "CERTIFICATE" cert ≫= x509_public_key = Some key /\
    pem_decode "PRIVATE KEY" priv ≫= pkcs8_seed = Some seed /\
    create_quic_config from_pkcs8 outcome removable (Some (pkcs8_v2 seed tail)) config files =
      match c_load_cert_chain (Some cert) (fold_left (fun c s => c_set s c) (settings config) c1)
            ≫= c_load_priv_key (Some priv) with
      | Some c => (inr (Ok c), delete DUMMY_KEY (delete DUMMY_CERT files))
      | None => (inr (Err Error.Tls), delete DUMMY_KEY (delete DUMMY_CERT files))
      end.
Proof.
  intros Hst Hls Hbs Hlk Hbk Htail Hring Hnew Hproto Hwc Hwk Hrc Hrk.
  set (kp := {| secret := seed; public := key |}).
  destruct (identity_pems kp Hls Hlk Hbs Hbk) as [Hc Hk].
  exists (certificate_pem kp), (private_key_pem kp). split; [done|]. split; [done|].
  unfold create_quic_config. rewrite Hnew, Hst. rewrite (bind_ok _ _ _ c0 files) by done.
  rewrite Hproto, (bind_ok _ _ _ c1 files) by done. cbv zeta. set (c2 := fold_left _ _ _).
  unfold load_dummy_cert. cbn [ok_or]. rewrite (bind_ok _ _ _ (pkcs8_v2 seed tail) files) by done.
  rewrite Hring, seed_found by done. cbn [ok_or]. rewrite (bind_ok _ _ _ key files), (bind_ok _ _ _ seed files) by done.
  rewrite (proj2 (Nat.eqb_eq _ _) Hlk). cbn [negb]. cbv zeta. fold kp.
  rewrite (present_pems DUMMY_CERT DUMMY_KEY _ _ _ c2 files (delete DUMMY_KEY (delete DUMMY_CERT files))); [done| |done..].
  unfold clean_up, remove_file, modify, mbind, M_bind. rewrite Hrc, Hrk. by rewrite files_removed.
Qed.
End presented.

(** A configuration that remembers what it was given. *)
Definition demo_api : quic_config_api (list (list Z)) := {|
  c_new := Ok [];
  c_set_application_protos _ c := Ok c;
  c_set _ c := c;
  c_load_cert_chain content c := (fun x => x :: c) <$> content;
  c_load_priv_key content c := (fun x => x :: c) <$> content;
|}.

Definition staked_config : Strategy.Config :=
  {| Strategy.max_connections := 128; Strategy.idle_timeout_ms := 60000; Strategy.connect_timeout_ms := 300;
     Strategy.keepalive_interval_ms := 500; Strategy.max_streams_uni := 2048; Strategy.max_retry_attempts := 3;
     Strategy.first_attempt_timeout_ms := 1000; Strategy.retry_timeout_ms := 500;
     Strategy.staked_identity := Some "id.json"%string; Strategy.config_cpu_core := None |}.

Lemma staked_identity_presented_witness :
  let data := json_array (seqZ 1 64) ++ [10] in
  let files : Files := {["id.json"%string := data]} in
  exists cert key,
    pem_decode "CERTIFICATE" cert ≫= x509_public_key = Some (seqZ 33 32) /\
    pem_decode "PRIVATE KEY" key ≫= pkcs8_seed = Some (seqZ 1 32) /\
    @create_quic_config _ demo_api (fun _ => None) (fun _ => Written) (fun _ => true) None staked_config files
    = (inr (Ok [key; cert]), files).
Proof.
  intros data files.
  destruct (@staked_identity_presented _ demo_api (fun _ => None) (fun _ => Written) (fun _ => true)
    staked_config "id.json" data (seqZ 1 64) None files [] []) as (cert & key & Hc & Hk & He).
  - reflexivity.
  - reflexivity.
  - reflexivity.
  - apply Forall_seqZ. intros x Hx. unfold is_byte. lia.
  - apply (JsonFile _ [] [10]); repeat constructor; done.
  - reflexivity.
  - reflexivity.
  - reflexivity.
  - reflexivity.
  - reflexivity.
  - reflexivity.
  - exists cert, key. split; [exact Hc|]. split; [exact Hk|]. rewrite He. reflexivity.
Defined.

(** The base 58 reader.  [bs58_decode] answers for every text, without leaving
    its buffer or its 32-bit carry: a character outside the alphabet is an error;
    otherwise the bytes are the big-endian representation of the number the text
    denotes in base 58, behind one zero byte for each leading [1], and nothing
    else.  So it inverts the encoder of every byte string. *)
Theorem base58_reads_numbers text bytes :
  Forall is_byte bytes ->
  match indices58 (as_bytes text) with
  | None => bs58_decode text = Ok None
  | Some ds => exists answer,
      bs58_decode text = Ok (Some answer) /\ Forall is_byte answer /\
      le_value 256 (rev answer) = le_value 58 (rev ds) /\ leading 0 answer = leading 49 (as_bytes text)
  end /\
  bs58_decode (base58_encode bytes) = Ok (Some bytes).
Proof.
  intros Hb. split; [|by apply bs58_decode_encode]. pose proof (bs58_spec text) as Hs. cbv zeta in Hs.
  destruct (indices58 (as_bytes text)) as [ds|]; [|done]. destruct Hs as (le & [Hf Hl] & Hv & ->).
  eexists. split; [done|]. split; [apply Forall_app; split; [by apply Forall_replicate|by apply Forall_rev]|].
  rewrite rev_app_distr, rev_replicate, le_value_zeros, rev_involutive. split; [done|].
  apply leading_app. intros Hh. apply Hl. by rewrite <- (rev_involutive le), last_rev.
Qed.

Lemma base58_reads_numbers_witness :
  bs58_decode (lit "12g") = Ok (Some [0; 97]) /\ bs58_decode (base58_encode [0; 0; 255; 1]) = Ok (Some [0; 0; 255; 1]).
Proof.
  split; [reflexivity|]. apply (base58_reads_numbers (lit "12g") [0; 0; 255; 1]).
  repeat (apply Forall_cons_2; [unfold is_byte; lia|]). apply Forall_nil_2.
Defined.
