(* ===== verification/Affinity.v ===== *)
(** * Affinity: processors and pinning

    [cpu/src/affinity.rs], [cpu/src/topology.rs], [cpu/src/error.rs] and the core
    allocation of [core/src/config.rs].  What the kernel tells about the machine
    is a [Machine]: the text of the files under [/sys] and the answer of
    [sysconf]; [sched_setaffinity] is a predicate on the set it is given. *)
From S2P Require Import Prelude Str HttpSpec Scan.

Inductive CpuAffinityError : Type :=
| Io | NotSupported | InvalidCpu (cpu max : Z) | EmptyCpuList.

Definition affinity_display (io : str) (e : CpuAffinityError) : str :=
  match e with
  | Io => lit "I/O error: " ++ io
  | NotSupported => lit "CPU affinity operations are not supported on this platform"
  | InvalidCpu cpu max => lit "CPU " ++ decimal cpu ++ lit " is invalid (max CPU is " ++ decimal max ++ lit ")"
  | EmptyCpuList => lit "CPU list cannot be empty"
  end.

Record Machine : Type := {
  online : option str;              (* /sys/devices/system/cpu/online *)
  nprocessors : Z;                  (* sysconf(_SC_NPROCESSORS_ONLN) *)
  core_id : Z -> option str;        (* /sys/devices/system/cpu/cpu{n}/topology/core_id *)
}.

Definition CPU_SETSIZE : Z := 1024.

(** The part of [max_cpu_id] that reads the file. *)
Definition max_online (content : str) : option Z :=
  let content := trim content in
  match split_on 45 content !! 1%nat with
  | Some range => parse_usize range
  | None => parse_usize content
  end.

Definition max_cpu_id (m : Machine) : Result Z CpuAffinityError :=
  match online m ≫= max_online with
  | Some max => Ok max
  | None => if nprocessors m <=? 0 then Err Io else Ok (Z.max 0 (nprocessors m - 1))
  end.

Definition cpu_count (m : Machine) : Result Z CpuAffinityError :=
  match max_cpu_id m with
  | Ok max => Ok (Z.min (max + 1) U64_MAX)
  | Err e => Err e
  end.

(** The loop over the processors: [n] of them, from [cpu] on. *)
Fixpoint core_ids (m : Machine) (max_cpu : Z) (n : nat) (cpu : Z) (seen_cores : gset Z) : gset Z :=
  match n with
  | 0%nat => seen_cores
  | Datatypes.S n =>
      let seen_cores :=
        match core_id m cpu ≫= (fun content => parse_usize (trim content)) with
        | Some id => if id <=? Z.min (max_cpu * 2) U64_MAX then {[id]} ∪ seen_cores else seen_cores
        | None => seen_cores
        end in
      core_ids m max_cpu n (cpu + 1) seen_cores
  end.

Definition physical_core_count (m : Machine) : Result Z CpuAffinityError :=
  match max_cpu_id m with
  | Err e => Err e
  | Ok max_cpu =>
      let seen_cores := core_ids m max_cpu (Z.to_nat (max_cpu + 1)) 0 ∅ in
      if bool_decide (seen_cores = ∅) then cpu_count m else Ok (Z.of_nat (size seen_cores))
  end.

(** The loop over the list: the set, or the first processor refused. *)
Fixpoint collect_cpus (max_cpu : Z) (cpus : list Z) (cpu_set : gset Z) (has_cpus : bool)
    : Result (gset Z * bool) CpuAffinityError :=
  match cpus with
  | [] => Ok (cpu_set, has_cpus)
  | cpu :: cpus =>
      if max_cpu <? cpu then Err (InvalidCpu cpu max_cpu)
      else if CPU_SETSIZE <=? cpu then Err (InvalidCpu cpu (CPU_SETSIZE - 1))
      else if bool_decide (cpu ∈ cpu_set) then collect_cpus max_cpu cpus cpu_set has_cpus
      else collect_cpus max_cpu cpus ({[cpu]} ∪ cpu_set) true
  end.

(** The answer, and the affinity the thread has afterwards ([None]: unchanged). *)
Definition set_cpu_affinity (sched_setaffinity : gset Z -> bool) (m : Machine) (cpus : list Z)
    : Result unit CpuAffinityError * option (gset Z) :=
  match max_cpu_id m with
  | Err e => (Err e, None)
  | Ok max_cpu =>
      match collect_cpus max_cpu cpus ∅ false with
      | Err e => (Err e, None)
      | Ok (_, false) => (Err EmptyCpuList, None)
      | Ok (cpu_set, true) => if sched_setaffinity cpu_set then (Ok tt, Some cpu_set) else (Err Io, None)
      end
  end.

(** ** Core allocation *)

Record CoreAllocation : Type := {
  leader_tracker : option Z; quic_sender : option Z; quic_prewarm : option Z; http_cores : list Z }.

Definition allocation_new (leader_tracker quic_sender quic_prewarm : option Z) (http_cores : list Z) : CoreAllocation :=
  {| leader_tracker := leader_tracker; quic_sender := quic_sender; quic_prewarm := quic_prewarm;
     http_cores := http_cores |}.

Definition unwrap_or {A E} (a : A) (r : Result A E) : A := match r with Ok a => a | Err _ => a end.

Definition auto_detect (m : Machine) : CoreAllocation :=
  let cores := unwrap_or 4 (cpu_count m) in
  let physical := unwrap_or cores (physical_core_count m) in
  if 8 <=? physical then
    {| leader_tracker := Some 1; quic_sender := Some 2; quic_prewarm := Some 3;
       http_cores := seqZ 4 (Z.min physical 8 - 4) |}
  else if 4 <=? physical then
    {| leader_tracker := Some 1; quic_sender := Some 2; quic_prewarm := Some 3; http_cores := [] |}
  else {| leader_tracker := None; quic_sender := None; quic_prewarm := None; http_cores := [] |}.

Definition for_8_cores : CoreAllocation :=
  {| leader_tracker := Some 1; quic_sender := Some 2; quic_prewarm := Some 3; http_cores := [4; 5; 6; 7] |}.
Definition for_16_cores : CoreAllocation :=
  {| leader_tracker := Some 1; quic_sender := Some 2; quic_prewarm := Some 4;
     http_cores := [5; 6; 7; 8; 9; 10] |}.
Definition allocation_none : CoreAllocation :=
  {| leader_tracker := None; quic_sender := None; quic_prewarm := None; http_cores := [] |}.

(** ** The cores chosen can be used *)

Definition option_cores (l : list (option Z)) : list Z := omap id l.

(** Every core of an allocation. *)
Definition all_cores (a : CoreAllocation) : list Z :=
  option_cores [leader_tracker a; quic_sender a; quic_prewarm a] ++ http_cores a.

Lemma core_ids_size m max n cpu seen : (size (core_ids m max n cpu seen) <= size seen + n)%nat.
Proof.
  revert cpu seen. induction n as [|n IH]; intros cpu seen; cbn [core_ids]; [lia|].
  etrans; [apply IH|]. destruct (_ ≫= _) as [id|]; [|lia]. destruct (id <=? _); [|lia].
  pose proof (size_union_alt {[id]} seen). rewrite size_singleton in *.
  assert (size (seen ∖ {[id]}) <= size seen)%nat by (by apply subseteq_size, subseteq_difference_l). lia.
Qed.

(** There are no more physical cores than processors. *)
Lemma physical_at_most m max physical :
  max_cpu_id m = Ok max -> 0 <= max < U64_MAX -> physical_core_count m = Ok physical -> physical <= max + 1.
Proof.
  unfold physical_core_count, cpu_count. intros Hm Hb. rewrite Hm. cbv zeta.
  destruct (bool_decide _); intros [= <-]; [lia|].
  pose proof (core_ids_size m max (Z.to_nat (max + 1)) 0 ∅) as H. rewrite size_empty in H. lia.
Qed.

Lemma set_one_core sched m max core :
  max_cpu_id m = Ok max -> 0 <= core <= max -> core < CPU_SETSIZE ->
  set_cpu_affinity sched m [core] = if sched {[core]} then (Ok tt, Some {[core]}) else (Err Io, None).
Proof.
  intros Hm Hc Hs. unfold set_cpu_affinity. rewrite Hm. cbn [collect_cpus].
  rewrite (proj2 (Z.ltb_ge _ _)), (proj2 (Z.leb_gt _ _)) by lia.
  rewrite bool_decide_eq_false_2 by set_solver. cbn [collect_cpus]. by rewrite (right_id_L ∅ (∪)).
Qed.

(** What the kernel writes for processors [0] to [max]. *)
Definition online_text (max : Z) : str := (if max =? 0 then lit "0" else lit "0-" ++ decimal max) ++ [10].

Lemma online_read max : 0 <= max < U64 -> max_online (online_text max) = Some max.
Proof.
  intros Hb. unfold max_online, online_text.
  destruct (Z.eqb_spec max 0) as [->|Hne]; [reflexivity|].
  assert (Hd : exists c s, decimal max = c :: s) by apply decimal_cons. destruct Hd as (c & s & Hd).
  pose proof (decimal_plain max) as Hp. rewrite Forall_forall in Hp.
  pose proof (trim_blank [] (lit "0-" ++ decimal max) [10]) as Ht. cbn [app] in Ht. rewrite Ht; clear Ht.
  - change (lit "0-" ++ decimal max) with ([48] ++ (45 :: decimal max)). rewrite split_on_app by (by repeat constructor).
    rewrite (split_on_none 45 (decimal max)).
    + cbn. by apply parse_decimal.
    + eapply Forall_impl; [apply decimal_chars|]. intros x Hx ->. done.
  - constructor.
  - repeat constructor; done.
  - intros x Hx. cbn in Hx. by simplify_eq.
  - intros x Hx. rewrite last_app, Hd, last_cons in Hx. rewrite <- last_cons, <- Hd in Hx.
    destruct (last (decimal max)) as [y|] eqn:Hl; [|by rewrite Hd, last_cons in Hl; destruct (last s)].
    simplify_eq. by apply Hp, last_Some_elem_of.
  - done.
Qed.

(** The cores chosen can be used.  On a machine whose processors are [0] to
    [max], whatever the topology files say, the cores that [auto_detect] assigns
    are all different, none of them is core 0, and each one exists: pinning a
    thread to it asks the kernel for exactly that processor and fails only when
    the kernel refuses.  The tracker and the sender are pinned together or not at
    all, and a core beyond [max] is refused without asking the kernel. *)
Theorem detected_cores_usable sched m max :
  online m = Some (online_text max) -> 0 <= max < U64_MAX ->
  let a := auto_detect m in
  NoDup (all_cores a) /\ (0 ∉ all_cores a) /\
  (forall core, core ∈ all_cores a ->
     set_cpu_affinity sched m [core] = (if sched {[core]} then (Ok tt, Some {[core]}) else (Err Io, None))) /\
  (is_Some (leader_tracker a) <-> is_Some (quic_sender a)) /\
  (forall core, max < core -> set_cpu_affinity sched m [core] = (Err (InvalidCpu core max), None)).
Proof.
  intros Hon Hb a.
  assert (Hm : max_cpu_id m = Ok max).
  { unfold max_cpu_id. rewrite Hon. cbn [mbind option_bind]. rewrite online_read; [done|]. unfold U64_MAX in Hb. lia. }
  assert (Hc : cpu_count m = Ok (max + 1)) by (unfold cpu_count; rewrite Hm; f_equal; lia).
  set (physical := unwrap_or (max + 1) (physical_core_count m)).
  assert (Hp : physical <= max + 1).
  { unfold physical. destruct (physical_core_count m) eqn:He; [|done]. by eapply physical_at_most. }
  assert (Ha : a = if 8 <=? physical then for_8_cores else if 4 <=? physical then
      allocation_new (Some 1) (Some 2) (Some 3) [] else allocation_none).
  { unfold a, auto_detect. rewrite Hc. cbn [unwrap_or]. fold physical. destruct (Z.leb_spec 8 physical); [|done].
    by rewrite (Z.min_r physical 8) by lia. }
  assert (Hall : forall core, core ∈ all_cores a -> 1 <= core < 8 /\ core <= max).
  { intros core Hin. rewrite Ha in Hin. destruct (Z.leb_spec 8 physical); [|destruct (Z.leb_spec 4 physical)];
      cbn in Hin; repeat (apply elem_of_cons in Hin as [->|Hin]; [lia|]); by apply elem_of_nil in Hin. }
  split_and!.
  - rewrite Ha. repeat case_match; apply (bool_decide_unpack _); exact I.
  - intros Hin. apply Hall in Hin. lia.
  - intros core Hin. apply Hall in Hin. eapply set_one_core; [exact Hm|lia|unfold CPU_SETSIZE; lia].
  - rewrite Ha. by repeat case_match.
  - intros core Hin. unfold set_cpu_affinity. rewrite Hm. cbn [collect_cpus]. by rewrite (proj2 (Z.ltb_lt _ _)).
Qed.

(** Eight processors, four cores with two threads each. *)
Definition demo_machine : Machine :=
  {| online := Some (online_text 7); nprocessors := 8; core_id cpu := Some (decimal (cpu mod 4) ++ [10]) |}.

Lemma detected_cores_usable_witness :
  all_cores (auto_detect demo_machine) = [1; 2; 3] /\
  set_cpu_affinity (fun _ => true) demo_machine [2] = (Ok tt, Some {[2]}).
Proof.
  split; [vm_compute; reflexivity|].
  apply (detected_cores_usable (fun _ => true) demo_machine 7); [reflexivity|unfold U64_MAX, U64; lia|].
  change (all_cores (auto_detect demo_machine)) with [1; 2; 3]. right. left.
Defined.
