(* ===== verification/Addr.v ===== *)
(** * Addr: socket addresses as text

    [str::parse::<SocketAddr>] of the standard library (IPv4, and IPv6 in brackets
    with the [::] abbreviation, an embedded IPv4 address and a scope identifier,
    which is read but not part of [Net]'s addresses), and how an IPv4 address is
    written. *)
From S2P Require Import Prelude Net Str HttpSpec Scan.

(** [char::to_digit] *)
Definition to_digit (radix c : Z) : option Z :=
  let d := if continuation 48 57 c then Some (c - 48)
           else if continuation 97 122 c then Some (c - 87)
           else if continuation 65 90 c then Some (c - 55) else None in
  match d with Some d => if d <? radix then Some d else None | None => None end.

(** The longest run of digits; [None] when there are more than [max] or the number
    does not fit.  The number, the count of digits and the rest. *)
Fixpoint read_run (radix limit : Z) (max : nat) (s : str) (acc : Z) (count : nat) : option (Z * nat * str) :=
  match s with
  | [] => Some (acc, count, [])
  | c :: r =>
      match to_digit radix c with
      | None => Some (acc, count, s)
      | Some d =>
          if (max <? S count)%nat then None
          else if acc * radix + d <? limit then read_run radix limit max r (acc * radix + d) (S count) else None
      end
  end.

Definition read_number (radix limit : Z) (max : nat) (allow_zero_prefix : bool) (s : str) : option (Z * str) :=
  match read_run radix limit max s 0 0 with
  | Some (n, count, rest) =>
      if (count =? 0)%nat then None
      else if negb allow_zero_prefix && bool_decide (head s = Some 48) && (1 <? count)%nat then None
      else Some (n, rest)
  | None => None
  end.

Definition read_char (c : Z) (s : str) : option str :=
  match s with x :: r => if x =? c then Some r else None | [] => None end.

Definition read_octet (s : str) : option (Z * str) := read_number 10 256 3 false s.

Definition read_ipv4 (s : str) : option (list Z * str) :=
  '(a, s) ← read_octet s; s ← read_char 46 s;
  '(b, s) ← read_octet s; s ← read_char 46 s;
  '(c, s) ← read_octet s; s ← read_char 46 s;
  '(d, s) ← read_octet s; Some ([a; b; c; d], s).

(** [read_separator]: nothing before the first group. *)
Definition separated {A} (sep : Z) (first : bool) (p : str -> option (A * str)) (s : str) : option (A * str) :=
  if first then p s else s ← read_char sep s; p s.

(** [limit] groups at most; the groups read, whether the last was an IPv4 address,
    and the rest. *)
Fixpoint read_groups (limit : nat) (first : bool) (s : str) : list Z * bool * str :=
  match limit with
  | 0%nat => ([], false, s)
  | S limit =>
      let v4 := if (1 <=? limit)%nat then separated 58 first read_ipv4 s else None in
      match v4 with
      | Some ([a; b; c; d], s) => ([a * 256 + b; c * 256 + d], true, s)
      | Some (_, _) => ([], false, s)
      | None =>
          match separated 58 first (read_number 16 65536 4 true) s with
          | Some (g, s) => let '(gs, b, s) := read_groups limit false s in (g :: gs, b, s)
          | None => ([], false, s)
          end
      end
  end.

Definition group_octets (g : Z) : list Z := [g / 256; g mod 256].

Definition read_ipv6 (s : str) : option (list Z * str) :=
  let '(front, ipv4, s) := read_groups 8 true s in
  if (length front =? 8)%nat then Some (front ≫= group_octets, s)
  else if ipv4 then None
  else
    s ← read_char 58 s; s ← read_char 58 s;
    let '(tail, _, s) := read_groups (7 - length front) true s in
    Some ((front ++ replicate (8 - length front - length tail) 0 ++ tail) ≫= group_octets, s).

Definition read_port (s : str) : option (Z * str) := s ← read_char 58 s; read_number 10 65536 (length s) true s.

Definition read_socket_v4 (s : str) : option (SocketAddr * str) :=
  '(ip, s) ← read_ipv4 s; '(port, s) ← read_port s; Some (V4 ip port, s).
(** [read_scope_id().unwrap_or(0)]: a 32-bit number after [%]. *)
Definition read_scope (s : str) : option (Z * str) := s ← read_char 37 s; read_number 10 U32 (length s) true s.
Definition skip_scope (s : str) : str := match read_scope s with Some (_, rest) => rest | None => s end.

Definition read_socket_v6 (s : str) : option (SocketAddr * str) :=
  s ← read_char 91 s; '(ip, s) ← read_ipv6 s; s ← read_char 93 (skip_scope s); '(port, s) ← read_port s; Some (V6 ip port, s).

Definition parse_socket_addr (s : str) : option SocketAddr :=
  match read_socket_v4 s with
  | Some (a, []) => Some a
  | Some (_, _) => None
  | None => match read_socket_v6 s with Some (a, []) => Some a | _ => None end
  end.

Example parse_v6 :
  parse_socket_addr (lit "[::1]:80") = Some (V6 (replicate 15 0 ++ [1]) 80) /\
  parse_socket_addr (lit "[::ffff:10.0.0.1]:8080") = Some (V6 (replicate 10 0 ++ [255; 255; 10; 0; 0; 1]) 8080) /\
  parse_socket_addr (lit "[1:2:3:4:5:6:7:8]:1") = Some (V6 [0; 1; 0; 2; 0; 3; 0; 4; 0; 5; 0; 6; 0; 7; 0; 8] 1) /\
  parse_socket_addr (lit "[fe80::1%3]:80") = Some (V6 ([254; 128] ++ replicate 13 0 ++ [1]) 80) /\
  parse_socket_addr (lit "[::1%4294967296]:80") = None /\ parse_socket_addr (lit "[::1%]:80") = None /\
  parse_socket_addr (lit "[1:2]:80") = None /\ parse_socket_addr (lit "127.0.0.1:65536") = None /\
  parse_socket_addr (lit "127.0.0.01:80") = None /\ parse_socket_addr (lit "localhost:80") = None.
Proof. repeat split. Qed.

(** ** Printed IPv4 addresses are read back *)

Definition show_v4 (octets : list Z) (port : Z) : str :=
  match octets with
  | [a; b; c; d] => decimal a ++ 46 :: decimal b ++ 46 :: decimal c ++ 46 :: decimal d ++ 58 :: decimal port
  | _ => []
  end.

Lemma parse_digits_mono s acc v : parse_digits s acc = Some v -> 0 <= acc -> acc <= v.
Proof.
  revert acc. induction s as [|c s IH]; intros acc H Ha; cbn [parse_digits] in H; [by simplify_eq|].
  destruct (is_ascii_digit c) eqn:Hc; [|done]. unfold is_ascii_digit, continuation in Hc.
  destruct (_ <? U64); [|done]. apply IH in H; lia.
Qed.

Lemma read_run_digits limit max s more acc count v :
  parse_digits s acc = Some v -> 0 <= acc -> v < limit -> (count + length s <= max)%nat ->
  (forall c, head more = Some c -> to_digit 10 c = None) ->
  read_run 10 limit max (s ++ more) acc count = Some (v, (count + length s)%nat, more).
Proof.
  intros H Ha Hv Hm Hmore. revert acc count H Ha Hm. induction s as [|c s IH]; intros acc count H Ha Hm; cbn [app].
  - cbn in H. simplify_eq. cbn [length]. rewrite Nat.add_0_r. destruct more as [|c more]; [done|].
    cbn [read_run]. by rewrite Hmore.
  - cbn [parse_digits] in H. destruct (is_ascii_digit c) eqn:Hc; [|done].
    destruct (_ <? U64) eqn:Hu; [|done]. cbn [read_run length] in *. unfold to_digit.
    unfold is_ascii_digit in Hc. rewrite Hc. unfold continuation in Hc.
    rewrite (proj2 (Z.ltb_lt (c - 48) 10)) by lia. rewrite (proj2 (Nat.ltb_ge _ _)) by lia.
    pose proof (parse_digits_mono _ _ _ H ltac:(lia)). rewrite (proj2 (Z.ltb_lt _ limit)) by lia.
    rewrite IH by (done || lia). do 3 f_equal. lia.
Qed.

Lemma decimal_digits_read n : 0 <= n < U64 -> parse_digits (decimal n) 0 = Some n.
Proof. intros Hn. pose proof (parse_digits_acc 20 n [] Hn (u64_digits n Hn)) as Hp. exact Hp. Qed.

Definition octet_check (n : Z) : bool :=
  (length (decimal n) <=? 3)%nat && (negb (bool_decide (head (decimal n) = Some 48)) || (length (decimal n) =? 1)%nat).

Lemma read_octet_decimal n more :
  0 <= n < 256 -> (forall c, head more = Some c -> to_digit 10 c = None) -> read_octet (decimal n ++ more) = Some (n, more).
Proof.
  intros Hn Hmore. pose proof (seqZ_forallb octet_check 0 256 n ltac:(vm_compute; reflexivity) ltac:(lia)) as Hc.
  unfold octet_check in Hc. apply andb_true_iff in Hc as [Hlen Hz].
  destruct (decimal_cons n) as (c & s & Hd). unfold read_octet, read_number.
  rewrite (read_run_digits _ _ _ _ _ _ n) by
    (first [apply decimal_digits_read; unfold U64; lia|done|lia|apply Nat.leb_le in Hlen; lia]).
  rewrite Hd in *. cbn [app head length negb andb Nat.add] in *. cbn [Nat.eqb].
  destruct (bool_decide (Some c = Some 48)); [|done]. cbn [negb orb andb] in *.
  apply Nat.eqb_eq in Hz. rewrite Hz. done.
Qed.

Lemma read_port_decimal n : 0 <= n < 65536 -> read_port (58 :: decimal n) = Some (n, []).
Proof.
  intros Hn. unfold read_port. cbn [read_char]. rewrite Z.eqb_refl. cbn [mbind option_bind]. unfold read_number.
  pose proof (read_run_digits 65536 (length (decimal n)) (decimal n) [] 0 0 n) as Hr. rewrite app_nil_r in Hr.
  rewrite Hr by (first [apply decimal_digits_read; unfold U64; lia|done|lia]).
  destruct (decimal_cons n) as (c & s & Hd). by rewrite Hd.
Qed.

Lemma read_char_eq c r : read_char c (c :: r) = Some r.
Proof. cbn. by rewrite Z.eqb_refl. Qed.

Lemma parse_show_v4 octets port :
  addr_ok (V4 octets port) -> parse_socket_addr (show_v4 octets port) = Some (V4 octets port).
Proof.
  intros (Hl & Hb & Hp). destruct octets as [|a [|b [|c [|d [|]]]]]; try discriminate Hl.
  repeat (apply Forall_cons in Hb as [? Hb]). unfold parse_socket_addr, read_socket_v4, read_ipv4, show_v4.
  assert (Hsep : forall x r c', head (x :: r) = Some c' -> to_digit 10 x = None -> to_digit 10 c' = None)
    by (intros x r c' He; cbn in He; by simplify_eq).
  do 3 (rewrite read_octet_decimal by (first [done|intros x Hx; by apply (Hsep _ _ _ Hx)]); cbn [mbind option_bind];
        rewrite read_char_eq; cbn [mbind option_bind]).
  rewrite read_octet_decimal by (first [done|intros x Hx; by apply (Hsep _ _ _ Hx)]). cbn [mbind option_bind].
  by rewrite read_port_decimal.
Qed.
