(* ===== verification/Startup.v ===== *)
(** * Startup: configuration and wiring

    [core/src/config.rs], [core/src/main.rs] and [leader/src/config.rs]: how the
    command line and the environment become the configurations of the tracker,
    the sender and the server.  Texts of the command line are Coq strings;
    durations are milliseconds.  Whether the tracker starts and what opening the
    endpoint answers are arguments of [startup]; the threads are those of [Main]. *)
From S2P Require Import Prelude Net Str Addr Strategy Timing TimingSpec.
From S2P Require Import Affinity.
From S2P Require Server Sender Pubsub RingBuffer Histogram Quic QuicModel Endpoint.

(** ** The tracker's configuration *)

Module Leader.
Record Config : Type := {
  rpc_url : string; ws_url : string; schedule_refresh_interval : Z;
  tracker_cpu_core : option Z; subscriber_cpu_core : option Z }.

Definition mainnet : Config :=
  {| rpc_url := "http://45.152.160.253:8899"; ws_url := "ws://45.152.160.253:8900";
     schedule_refresh_interval := 600 * 1000; tracker_cpu_core := Some 2; subscriber_cpu_core := Some 6 |}.
Definition devnet : Config :=
  {| rpc_url := "https://api.devnet.solana.com"; ws_url := "wss://api.devnet.solana.com";
     schedule_refresh_interval := 30 * 1000; tracker_cpu_core := None; subscriber_cpu_core := None |}.
Definition custom (rpc_url ws_url : string) : Config :=
  {| rpc_url := rpc_url; ws_url := ws_url; schedule_refresh_interval := 30 * 1000;
     tracker_cpu_core := None; subscriber_cpu_core := None |}.

Definition with_cpu_core (core : Z) (c : Config) : Config :=
  {| rpc_url := rpc_url c; ws_url := ws_url c; schedule_refresh_interval := schedule_refresh_interval c;
     tracker_cpu_core := Some core; subscriber_cpu_core := subscriber_cpu_core c |}.
Definition with_refresh_interval (interval : Z) (c : Config) : Config :=
  {| rpc_url := rpc_url c; ws_url := ws_url c; schedule_refresh_interval := interval;
     tracker_cpu_core := tracker_cpu_core c; subscriber_cpu_core := subscriber_cpu_core c |}.
Definition with_subscriber_cpu_core (core : Z) (c : Config) : Config :=
  {| rpc_url := rpc_url c; ws_url := ws_url c; schedule_refresh_interval := schedule_refresh_interval c;
     tracker_cpu_core := tracker_cpu_core c; subscriber_cpu_core := Some core |}.
End Leader.

(** ** The core's configuration *)

Record LeaderConfig : Type := { rpc_url : string; ws_url : string; schedule_refresh_interval : Z }.
Record QuicConfig : Type := {
  quic_bind_addr : SocketAddr; prewarm_lookahead : nat; staked_keypair : option string;
  idle_timeout : Z; connect_timeout : Z }.
Record HttpConfig : Type := {
  http_bind_addr : SocketAddr; queue_size : Z; max_connections : Z; max_request_size : Z }.
Record Config : Type := { leader : LeaderConfig; quic : QuicConfig; http : HttpConfig; allocation : CoreAllocation }.

Definition ANY : SocketAddr := V4 [0; 0; 0; 0] 0.
Definition LOCALHOST (port : Z) : SocketAddr := V4 [127; 0; 0; 1] port.

(** What the three constructors have in common. *)
Definition base (rpc_url ws_url : string) (lookahead : nat) (port : Z) (m : Machine) : Config :=
  {| leader := {| rpc_url := rpc_url; ws_url := ws_url; schedule_refresh_interval := 30 * 1000 |};
     quic := {| quic_bind_addr := ANY; prewarm_lookahead := lookahead; staked_keypair := None;
                idle_timeout := 60 * 1000; connect_timeout := 300 |};
     http := {| http_bind_addr := LOCALHOST port; queue_size := 4096; max_connections := 10240;
                max_request_size := 1024 * 1024 |};
     allocation := auto_detect m |}.

Definition mainnet (m : Machine) : Config := base "http://45.152.160.253:8899" "ws://45.152.160.253:8900" 5 10080 m.
Definition devnet (m : Machine) : Config := base "https://api.devnet.solana.com" "wss://api.devnet.solana.com" 5 8080 m.
Definition custom (rpc_url ws_url : string) (m : Machine) : Config := base rpc_url ws_url 10 8080 m.

Definition with_http_addr (addr : SocketAddr) (c : Config) : Config :=
  {| leader := leader c; quic := quic c;
     http := {| http_bind_addr := addr; queue_size := queue_size (http c);
                max_connections := max_connections (http c); max_request_size := max_request_size (http c) |};
     allocation := allocation c |}.
Definition with_quic (q : QuicConfig) (c : Config) : Config :=
  {| leader := leader c; quic := q; http := http c; allocation := allocation c |}.
Definition with_quic_addr (addr : SocketAddr) (c : Config) : Config :=
  with_quic {| quic_bind_addr := addr; prewarm_lookahead := prewarm_lookahead (quic c);
               staked_keypair := staked_keypair (quic c); idle_timeout := idle_timeout (quic c);
               connect_timeout := connect_timeout (quic c) |} c.
Definition with_allocation (a : CoreAllocation) (c : Config) : Config :=
  {| leader := leader c; quic := quic c; http := http c; allocation := a |}.
Definition with_prewarm_lookahead (n : nat) (c : Config) : Config :=
  with_quic {| quic_bind_addr := quic_bind_addr (quic c); prewarm_lookahead := n;
               staked_keypair := staked_keypair (quic c); idle_timeout := idle_timeout (quic c);
               connect_timeout := connect_timeout (quic c) |} c.
Definition with_queue_size (size : Z) (c : Config) : Config :=
  {| leader := leader c; quic := quic c;
     http := {| http_bind_addr := http_bind_addr (http c); queue_size := size;
                max_connections := max_connections (http c); max_request_size := max_request_size (http c) |};
     allocation := allocation c |}.
Definition with_staked_keypair (path : string) (c : Config) : Config :=
  with_quic {| quic_bind_addr := quic_bind_addr (quic c); prewarm_lookahead := prewarm_lookahead (quic c);
               staked_keypair := Some path; idle_timeout := idle_timeout (quic c);
               connect_timeout := connect_timeout (quic c) |} c.

(** ** The command line *)

(** The argument after the first occurrence of the flag. *)
Fixpoint arg_value (args : list string) (flag : string) : option string :=
  match args with
  | [] => None
  | a :: args => if bool_decide (a = flag) then head args else arg_value args flag
  end.

(** [arg_value(..).or_else(|| env::var(..).ok())] *)
Definition setting (args : list string) (env : string -> option string) (flag var : string) : option string :=
  match arg_value args flag with Some v => Some v | None => env var end.

Definition parse_config (m : Machine) (args : list string) (env : string -> option string) : Result Config fault :=
  let rpc_url := default "http://45.152.160.253:8899"%string (setting args env "--rpc" "RPC_URL") in
  let ws_url := default "ws://45.152.160.253:8900"%string (setting args env "--ws" "WS_URL") in
  match parse_socket_addr (lit (default "127.0.0.1:8080"%string (setting args env "--http" "HTTP_ADDR"))) with
  | None => Err (Panic "invalid http address")
  | Some http_addr =>
      let keypair_path := setting args env "--keypair" "KEYPAIR_PATH" in
      let config := with_allocation (auto_detect m) (with_http_addr http_addr (custom rpc_url ws_url m)) in
      Ok (match keypair_path with Some path => with_staked_keypair path config | None => config end)
  end.

(** ** The wiring of [main] *)

Definition main_leader (c : Config) : Leader.Config :=
  let lc := Leader.with_refresh_interval (schedule_refresh_interval (leader c))
              (Leader.custom (rpc_url (leader c)) (ws_url (leader c))) in
  match leader_tracker (allocation c) with
  | Some core => Leader.with_cpu_core core lc
  | None => lc
  end.

Definition main_quic (c : Config) : Strategy.Config :=
  {| Strategy.max_connections := Strategy.max_connections config_default;
     idle_timeout_ms := idle_timeout (quic c) mod U64; connect_timeout_ms := connect_timeout (quic c) mod U64;
     keepalive_interval_ms := keepalive_interval_ms config_default; max_streams_uni := max_streams_uni config_default;
     max_retry_attempts := max_retry_attempts config_default;
     first_attempt_timeout_ms := first_attempt_timeout_ms config_default;
     retry_timeout_ms := retry_timeout_ms config_default;
     staked_identity := match staked_keypair (quic c) with Some path => Some path | None => staked_identity config_default end;
     config_cpu_core := config_cpu_core config_default |}.

Definition main_adaptive : AdaptivePrewarmConfig :=
  {| min_solana_slots := 2; max_solana_slots := 10; solana_slot_duration_ms := 400; default_handshake_ms := 2000;
     bootstrap_from_median := true; timing_percentile := Histogram.f64_of_u64 90 |}.

Definition main_sender (c : Config) : Sender.SenderConfig :=
  {| Sender.strategy := adaptive_jit Single main_adaptive;
     Sender.sender_tpu_port := Sender.sender_tpu_port Sender.sender_config_default;
     Sender.quic_config := main_quic c |}.

Definition main_server (c : Config) : Result Server.ServerConfig fault :=
  match Server.with_queue_size (queue_size (http c)) (Server.with_bind_addr (http_bind_addr (http c)) Server.default_config) with
  | Err f => Err f
  | Ok sc =>
      let sc := Server.with_max_request_size (max_request_size (http c))
                  (Server.with_max_connections (max_connections (http c)) sc) in
      Ok (match quic_sender (allocation c) with
          | Some core => Server.with_worker_cpu_core core sc
          | None => sc
          end)
  end.

(** [RpcServer::new(..).expect(..)] *)
Definition rpc_server_new (sc : Server.ServerConfig) : Result Server.ServerConfig fault :=
  match Server.validate_config sc with
  | Ok _ => Ok sc
  | Err _ => Err (Panic "failed to create server")
  end.

(** How [main] can end before it runs. *)
Inductive exit : Type :=
| ExitCode (code : Z)     (* std::process::exit *)
| Panicked (f : fault).

Record Wiring {E : Type} : Type := {
  w_leader : Leader.Config; w_sender : Sender.TransactionSender E; w_server : Server.ServerConfig }.
Arguments Wiring : clear implicits.

Section startup.
Context {E : Type} `{api : !Sender.endpoint_api E}.
(** Whether [LeaderTracker::start] succeeds, and what [QuicEndpoint::new] answers. *)
Context (tracker_starts : Leader.Config -> bool).
Context (open_endpoint : SocketAddr -> Strategy.Config -> fault + Result E Quic.Error.t).

(** [TransactionSender::new(..).expect(..)]; the sender of [main] has no background
    thread. *)
Definition create_sender (c : Config) : Result (Sender.TransactionSender E) fault :=
  match open_endpoint (quic_bind_addr (quic c)) (Sender.quic_config (main_sender c)) with
  | inl f => Err f
  | inr (Err _) => Err (Panic "failed to create sender")
  | inr (Ok e) => Ok (Sender.sender_new (main_sender c) e).1
  end.

(** [main] up to the threads it starts; the warm-up only waits. *)
Definition startup (m : Machine) (args : list string) (env : string -> option string) : Result (Wiring E) exit :=
  match parse_config m args env with
  | Err f => Err (Panicked f)
  | Ok c =>
      let leader_config := main_leader c in
      if negb (tracker_starts leader_config) then Err (ExitCode 1)
      else
        match create_sender c with
        | Err f => Err (Panicked f)
        | Ok sender =>
            match main_server c with
            | Err f => Err (Panicked f)
            | Ok sc =>
                match rpc_server_new sc with
                | Err f => Err (Panicked f)
                | Ok sc => Ok {| w_leader := leader_config; w_sender := sender; w_server := sc |}
                end
            end
        end
  end.

End startup.

(** ** What is wired together fits together *)

Lemma main_adaptive_sane : config_sane main_adaptive.
Proof. by split; vm_compute. Qed.

Lemma main_lookahead r a :
  registry_ok r -> exists n, calculate_lookahead_solana_slots (Some main_adaptive) r a = inr n /\ 2 <= n <= 10.
Proof.
  intros Hr. unfold calculate_lookahead_solana_slots.
  destruct (expected_handshake_ok main_adaptive r a Hr) as [ms ->]. cbn [bind_fault].
  destruct (clamp_ok (((ms + 400 - 1) mod U64) / 400) 2 10 ltac:(lia)) as (n & Hn & Hb).
  exists n. split; [exact Hn|exact Hb].
Qed.

(** The worker's core: the one allocated to the sender, or the server's default. *)
Lemma main_server_run c :
  queue_size (http c) = 4096 -> max_connections (http c) = 10240 -> max_request_size (http c) = 1024 * 1024 ->
  exists sc, main_server c = Ok sc /\ rpc_server_new sc = Ok sc /\
    Server.bind_addr sc = http_bind_addr (http c) /\ Server.queue_size sc = 4096 /\
    Server.worker_cpu_core sc = Some (default 5 (quic_sender (allocation c))).
Proof.
  intros Hq Hc Hr. unfold main_server. rewrite Hq, Hc, Hr.
  destruct (quic_sender (allocation c)); (eexists; split; [reflexivity|]; split; [reflexivity|by split]).
Qed.

Lemma main_leader_urls c :
  Leader.rpc_url (main_leader c) = rpc_url (leader c) /\ Leader.ws_url (main_leader c) = ws_url (leader c).
Proof. unfold main_leader. by destruct (leader_tracker (allocation c)). Qed.

Lemma tracker_core c : Leader.tracker_cpu_core (main_leader c) = leader_tracker (allocation c).
Proof. unfold main_leader. by destruct (leader_tracker (allocation c)). Qed.

Lemma parse_config_run m args env addr :
  parse_socket_addr (lit (default "127.0.0.1:8080"%string (setting args env "--http" "HTTP_ADDR"))) = Some addr ->
  exists c, parse_config m args env = Ok c /\
    http c = {| http_bind_addr := addr; queue_size := 4096; max_connections := 10240; max_request_size := 1024 * 1024 |} /\
    allocation c = auto_detect m /\ staked_keypair (quic c) = setting args env "--keypair" "KEYPAIR_PATH" /\
    quic_bind_addr (quic c) = V4 [0; 0; 0; 0] 0 /\ leader c = {| rpc_url := default "http://45.152.160.253:8899"%string (setting args env "--rpc" "RPC_URL");
                  ws_url := default "ws://45.152.160.253:8900"%string (setting args env "--ws" "WS_URL");
                  schedule_refresh_interval := 30000 |}.
Proof.
  intros Ha. unfold parse_config. rewrite Ha. eexists. split; [reflexivity|].
  by destruct (setting args env "--keypair" "KEYPAIR_PATH").
Qed.

(** C36. The program starts with configurations that fit together, or stops for one
    of four reasons.  Whatever the command line, the environment and the machine: it
    panics if the address for HTTP does not parse, exits with code 1 if the tracker
    does not start, and panics if [QuicEndpoint::new] panics or fails, for example
    for a keypair file it refuses.  Otherwise it starts: the endpoint was
    opened for the identity given; the server's configuration has the address given
    and passes its own validation; the sender is staked, and sends to the forwarding
    port, exactly when a keypair is given; its lookahead lies between 2 and 10 slots
    in every registry.  The tracker is pinned exactly when a core is allocated to
    it.  The worker is always pinned, to the core allocated to the sender and without
    one to core 5; where both are pinned the cores differ.  A tracker that is not
    pinned may run on the worker's core. *)
Theorem startup_fits {E} `{api : !Sender.endpoint_api E} tracker_starts (open_endpoint : SocketAddr -> Strategy.Config -> fault + Result E Quic.Error.t)
    m args env :
  let keypair := setting args env "--keypair" "KEYPAIR_PATH" in
  let result := startup tracker_starts open_endpoint m args env in
  match parse_socket_addr (lit (default "127.0.0.1:8080"%string (setting args env "--http" "HTTP_ADDR"))) with
  | None => result = Err (Panicked (Panic "invalid http address"))
  | Some addr => exists lc qc,
      Leader.rpc_url lc = default "http://45.152.160.253:8899"%string (setting args env "--rpc" "RPC_URL") /\
      Leader.ws_url lc = default "ws://45.152.160.253:8900"%string (setting args env "--ws" "WS_URL") /\
      staked_identity qc = keypair /\
      if negb (tracker_starts lc) then result = Err (ExitCode 1)
      else
        match open_endpoint (V4 [0; 0; 0; 0] 0) qc with
        | inl f => result = Err (Panicked f)
        | inr (Err _) => result = Err (Panicked (Panic "failed to create sender"))
        | inr (Ok ep) => exists w, result = Ok w /\ w_leader w = lc /\
            Sender.endpoint (w_sender w) = Sender.ep_set_adaptive_config main_adaptive ep /\
            Sender.quic_config (Sender.config (w_sender w)) = qc /\
            Sender.sender_tpu_port (Sender.config (w_sender w)) = match keypair with Some _ => Forward | None => Main end /\
            (forall r a, registry_ok r -> exists n,
               calculate_lookahead_solana_slots (Some main_adaptive) r a = inr n /\ 2 <= n <= 10) /\
            Server.bind_addr (w_server w) = addr /\ Server.validate_config (w_server w) = Ok tt /\
            Leader.tracker_cpu_core lc = leader_tracker (auto_detect m) /\
            Server.worker_cpu_core (w_server w) = Some (default 5 (quic_sender (auto_detect m))) /\
            (forall core, Leader.tracker_cpu_core lc = Some core -> Server.worker_cpu_core (w_server w) <> Some core)
        end
  end.
Proof.
  intros keypair result. destruct (parse_socket_addr _) as [addr|] eqn:Ha; [|unfold result, startup, parse_config; by rewrite Ha].
  destruct (parse_config_run m args env addr Ha) as (c & Hc & Hh & Hal & Hk & Hq & Hl).
  destruct (main_server_run c) as (sc & Hs & Hnew & Hb & _ & Hw); [by rewrite Hh..|].
  exists (main_leader c), (main_quic c). destruct (main_leader_urls c) as [-> ->]. rewrite Hl. split; [done|]. split; [done|].
  assert (Hstaked : staked_identity (main_quic c) = keypair).
  { cbn. rewrite Hk. fold keypair. by destruct keypair. }
  split; [done|]. unfold result, startup. rewrite Hc. destruct (tracker_starts (main_leader c)); cbn [negb]; [|done].
  unfold create_sender. rewrite Hq. cbn [main_sender Sender.quic_config].
  destruct (open_endpoint (V4 [0; 0; 0; 0] 0) (main_quic c)) as [f|[ep|x]]; [done| |done].
  rewrite Hs, Hnew. eexists. split; [reflexivity|]. cbn [w_leader w_sender w_server].
  rewrite tracker_core, Hb, Hw, Hal. split_and!; try done.
  - cbn [Sender.sender_new Sender.config Sender.sender_tpu_port fst main_sender Sender.quic_config]. rewrite Hstaked. by destruct keypair.
  - apply main_lookahead.
  - by rewrite Hh.
  - unfold rpc_server_new in Hnew. by destruct (Server.validate_config sc) as [[]|].
  - unfold auto_detect. by repeat case_match; intros core [= <-].
Qed.

(** The model of quiche with an endpoint that opens. *)
Definition demo_open (addr : SocketAddr) (c : Strategy.Config)
    : fault + Result (Endpoint.QuicEndpoint (Q := QuicModel.model_conn) (N := QuicModel.model_net)) Quic.Error.t :=
  inr (Ok (Endpoint.endpoint_new ([] : QuicModel.model_net) None)).

Lemma startup_fits_witness :
  exists w, startup (api := Sender.quic_endpoint_api (quiche_api0 := QuicModel.model_quiche) (udp_api0 := QuicModel.model_udp) false) (fun _ => true) demo_open demo_machine
              ["land"; "--http"; "0.0.0.0:9000"]%string (fun _ => None) = Ok w /\
    Server.bind_addr (w_server w) = V4 [0; 0; 0; 0] 9000.
Proof.
  pose proof (startup_fits (api := Sender.quic_endpoint_api (quiche_api0 := QuicModel.model_quiche) (udp_api0 := QuicModel.model_udp) false) (fun _ => true) demo_open demo_machine
                ["land"; "--http"; "0.0.0.0:9000"]%string (fun _ => None)) as H.
  cbn [setting] in H. change (parse_socket_addr _) with (Some (V4 [0; 0; 0; 0] 9000)) in H.
  destruct H as (lc & qc & _ & _ & _ & w & Hw & _ & _ & _ & _ & _ & Hb & _). exists w. split; [exact Hw|exact Hb].
Defined.

(** The two URLs the program has built in: the client for slots reads the one for
    mainnet, and refuses the one for devnet, which asks for TLS. *)
Theorem builtin_urls m :
  Pubsub.parse_ws_url (lit (ws_url (leader (mainnet m)))) = Ok (lit "45.152.160.253", 8900, lit "/") /\
  Pubsub.parse_ws_url (lit (ws_url (leader (devnet m)))) = Err (Pubsub.InvalidHandshake (lit "url must start with ws://")).
Proof. split; reflexivity. Qed.
