(* ===== verification/Lifecycle.v ===== *)
(** * Lifecycle: starting and stopping the tracker

    The threads behind [LeaderTracker]: [start] and [stop] of
    [leader/src/tracker.rs], [leader/src/slot_subscriber.rs] and
    [pubsub/src/subscriber.rs], with the loops they start.  Three threads (the
    websocket, the slot subscriber, the tracker), the refresh task and the caller
    share the [running] flags, the slot and the leader buffer.  One event is one
    step of one of them, or an answer of the network; [step] is [None] when the
    event cannot happen.

    A thread that is spawned starts, and [abort] of the refresh task takes effect
    at once (tokio cancels a task at its next await; until then it can still store
    a schedule).  The refresh task and the tracker thread are spawned in one step:
    they share nothing the caller writes between the two.  Dropping a tracker that
    was not stopped is left out. *)
From S2P Require Import Prelude.
From S2P Require Pubsub Leader.

(** ** Threads *)

Inductive thread (P : Type) : Type := Absent | Alive (p : P) | Exited.
Arguments Absent {P}.
Arguments Alive {P} p.
Arguments Exited {P}.

Definition alive {P} (t : thread P) : bool := match t with Alive _ => true | _ => false end.

(** [websocket_thread] and [handle_messages]: the two loop heads, the calls that
    wait for the network, the sleep, and the end of [handle_messages]. *)
Inductive ws_phase : Type := WsHead | WsConnecting | WsSleeping | WsInner | WsReading | WsLeft.

(** [run_loop]: the loop head, the poll of the channel, the copy of the status. *)
Inductive sub_phase : Type := SubHead | SubPoll | SubCopy.

(** [busy_spin_loop]: the two loops, each with its head and its body; the loop's
    variables in the second. *)
Inductive tr_phase : Type :=
| TrWait | TrWaitLoad | TrHead (last_slot last_leader_idx : Z) | TrAct (last_slot last_leader_idx : Z).

(** The task of [spawn_refresh_task]: the loop head, the sleep, the refresh. *)
Inductive refresh_phase : Type := RfHead | RfSleep | RfRefresh.

(** ** The caller *)

(** Why the subscriber is stopped. *)
Inductive reason : Type := ConnTimeout | SlotTimeout | Stopping.

Inductive outcome : Type :=
| Started | AlreadyRunning | Fetch | ConnectionTimeout | NoSlotReceived | Stopped.

(** Where the caller is: in no call, in [start] or in [stop]. *)
Inductive main_pc : Type :=
| Idle (last : option outcome)
| Fetching | SpawnWs | SpawnSub | AwaitConn | AwaitSlot | LoadSlot
| Filling (initial_slot : Z) | SetRunning | SpawnTracker
| StopSub (r : reason) | StopWs (r : reason) | JoinWs (r : reason) | JoinSub (r : reason)
| AbortRefresh | JoinTracker.

Record World : Type := {
  pc : main_pc;
  subscriber : bool;                 (* [self.subscriber] is [Some] *)
  ws_running : bool; sub_running : bool; running : bool;
  ws : thread ws_phase; sub : thread sub_phase; tracker : thread tr_phase; refresh_task : thread refresh_phase;
  channel : Pubsub.Subscriber;
  slot_state : Pubsub.SlotState;
  cache : Leader.ScheduleFetcher;
  buffer : Leader.LeaderBuffer;
}.

Definition tracker_new : World :=
  {| pc := Idle None; subscriber := false; ws_running := false; sub_running := false; running := false;
     ws := Absent; sub := Absent; tracker := Absent; refresh_task := Absent; channel := Pubsub.subscriber_new;
     slot_state := Pubsub.slot_state_new; cache := None; buffer := Leader.buffer_new |}.

Definition set_pc (p : main_pc) (w : World) : World :=
  {| pc := p; subscriber := subscriber w; ws_running := ws_running w; sub_running := sub_running w;
     running := running w; ws := ws w; sub := sub w; tracker := tracker w; refresh_task := refresh_task w;
     channel := channel w; slot_state := slot_state w; cache := cache w; buffer := buffer w |}.
Definition set_flags (ws_flag sub_flag flag : bool) (w : World) : World :=
  {| pc := pc w; subscriber := subscriber w; ws_running := ws_flag; sub_running := sub_flag; running := flag;
     ws := ws w; sub := sub w; tracker := tracker w; refresh_task := refresh_task w;
     channel := channel w; slot_state := slot_state w; cache := cache w; buffer := buffer w |}.
Definition set_threads (a : thread ws_phase) (b : thread sub_phase) (c : thread tr_phase) (w : World) : World :=
  {| pc := pc w; subscriber := subscriber w; ws_running := ws_running w; sub_running := sub_running w;
     running := running w; ws := a; sub := b; tracker := c; refresh_task := refresh_task w;
     channel := channel w; slot_state := slot_state w; cache := cache w; buffer := buffer w |}.
Definition set_owned (has : bool) (task : thread refresh_phase) (w : World) : World :=
  {| pc := pc w; subscriber := has; ws_running := ws_running w; sub_running := sub_running w;
     running := running w; ws := ws w; sub := sub w; tracker := tracker w; refresh_task := task;
     channel := channel w; slot_state := slot_state w; cache := cache w; buffer := buffer w |}.
Definition set_shared (ch : Pubsub.Subscriber) (st : Pubsub.SlotState) (w : World) : World :=
  {| pc := pc w; subscriber := subscriber w; ws_running := ws_running w; sub_running := sub_running w;
     running := running w; ws := ws w; sub := sub w; tracker := tracker w; refresh_task := refresh_task w;
     channel := ch; slot_state := st; cache := cache w; buffer := buffer w |}.
Definition set_schedule (c : Leader.ScheduleFetcher) (b : Leader.LeaderBuffer) (w : World) : World :=
  {| pc := pc w; subscriber := subscriber w; ws_running := ws_running w; sub_running := sub_running w;
     running := running w; ws := ws w; sub := sub w; tracker := tracker w; refresh_task := refresh_task w;
     channel := channel w; slot_state := slot_state w; cache := c; buffer := b |}.

Definition set_ws (t : thread ws_phase) (w : World) : World := set_threads t (sub w) (tracker w) w.
Definition set_sub (t : thread sub_phase) (w : World) : World := set_threads (ws w) t (tracker w) w.
Definition set_tracker (t : thread tr_phase) (w : World) : World := set_threads (ws w) (sub w) t w.

(** What the network answers: to [connect_and_subscribe] and to [read_frame]. *)
Inductive net_answer : Type :=
| Opened | Refused | Frame (claimed : bool) (nonce : Z) (f : Pubsub.Frame) | ReadError.

Inductive event : Type :=
| EStart | EStop                                   (* the caller makes a call *)
| EMain                                            (* and goes on in it *)
| EFetched (c : option Leader.ScheduleFetcher)     (* [refresh] in [start]: the new cache, or an error *)
| EDeadline                                        (* ten seconds have passed *)
| EWs | ENet (a : net_answer)
| ESub | ETake                                     (* [ETake]: one event of the poll *)
| ETracker
| ERefresh (c : option Leader.ScheduleFetcher).    (* the refresh task; the new cache, or an error *)

(** ** Steps of the threads *)

Definition ws_step (w : World) : option World :=
  match ws w with
  | Alive WsHead => Some (set_ws (if ws_running w then Alive WsConnecting else Exited) w)
  | Alive WsSleeping => Some (set_ws (Alive WsHead) w)
  | Alive WsInner => Some (set_ws (Alive (if ws_running w then WsReading else WsLeft)) w)
  | Alive WsLeft =>
      Some (set_ws (Alive WsHead) (set_shared (Pubsub.set_connected false (channel w)) (slot_state w) w))
  | _ => None
  end.

Definition net_step (a : net_answer) (w : World) : option World :=
  match ws w, a with
  | Alive WsConnecting, Opened =>
      Some (set_ws (Alive WsInner) (set_shared (Pubsub.set_connected true (channel w)) (slot_state w) w))
  | Alive WsConnecting, Refused =>
      Some (set_ws (Alive WsSleeping) (set_shared (Pubsub.set_connected false (channel w)) (slot_state w) w))
  | Alive WsReading, Frame claimed nonce f =>
      let '(go, _, ch) := Pubsub.on_frame claimed nonce f (channel w) in
      Some (set_ws (Alive (if go then WsInner else WsLeft)) (set_shared ch (slot_state w) w))
  | Alive WsReading, ReadError => Some (set_ws (Alive WsLeft) w)
  | _, _ => None
  end.

Definition sub_step (w : World) : option World :=
  match sub w with
  | Alive SubHead => Some (set_sub (if sub_running w then Alive SubPoll else Exited) w)
  | Alive SubPoll => Some (set_sub (Alive SubCopy) w)
  | Alive SubCopy =>
      Some (set_sub (Alive SubHead) (set_shared (channel w) (Pubsub.copy_connected (channel w) (slot_state w)) w))
  | _ => None
  end.

Definition take_step (w : World) : option World :=
  match sub w with
  | Alive SubPoll =>
      '(_, ch, st) ← Pubsub.take_event (channel w) (slot_state w); Some (set_shared ch st w)
  | _ => None
  end.

Definition tracker_step (w : World) : option World :=
  let slot := Pubsub.state_slot (slot_state w) in
  match tracker w with
  | Alive TrWait => Some (set_tracker (Alive (if running w then TrWaitLoad else TrHead 0 0)) w)
  | Alive TrWaitLoad =>
      Some (set_tracker (Alive (if 0 <? slot then TrHead slot (slot / Leader.SLOTS_PER_LEADER) else TrWait)) w)
  | Alive (TrHead last idx) => Some (set_tracker (if running w then Alive (TrAct last idx) else Exited) w)
  | Alive (TrAct last idx) =>
      Some (match Leader.loop_step (cache w) slot
                    {| Leader.last_slot := last; Leader.last_leader_idx := idx; Leader.tracked := buffer w |} with
            | Ok t => set_tracker (Alive (TrHead (Leader.last_slot t) (Leader.last_leader_idx t)))
                        (set_schedule (cache w) (Leader.tracked t) w)
            | Err _ => set_tracker Exited w
            end)
  | _ => None
  end.

(** The cache is refreshed when it does not have the current slot. *)
Definition refresh_step (c : option Leader.ScheduleFetcher) (w : World) : option World :=
  match refresh_task w with
  | Alive RfHead => Some (set_owned (subscriber w) (if running w then Alive RfSleep else Exited) w)
  | Alive RfSleep => Some (set_owned (subscriber w) (if running w then Alive RfRefresh else Exited) w)
  | Alive RfRefresh =>
      let c := if Leader.is_slot_in_cache (cache w) (Pubsub.state_slot (slot_state w)) then cache w
               else default (cache w) c in
      Some (set_schedule c (buffer w) (set_owned (subscriber w) (Alive RfHead) w))
  | _ => None
  end.

(** ** Steps of the caller *)

(** The value the call returns with when the subscriber has been stopped. *)
Definition after_stop (r : reason) : main_pc :=
  match r with
  | ConnTimeout => Idle (Some ConnectionTimeout)
  | SlotTimeout => Idle (Some NoSlotReceived)
  | Stopping => AbortRefresh
  end.

(** [SlotSubscriber::new]: a new channel with its cleared status and two cleared
    flags.  The slot state is the tracker's. *)
Definition subscriber_new (w : World) : World :=
  set_flags false false (running w) (set_shared Pubsub.subscriber_new (slot_state w) w).

(** [SlotSubscriber::start] of [pubsub], then of [leader]: the flag, then the thread. *)
Definition pubsub_start (w : World) : World :=
  set_ws (Alive WsHead) (set_flags true (sub_running w) (running w) w).
Definition subscriber_start (w : World) : World :=
  set_sub (Alive SubHead) (set_flags (ws_running w) true (running w) w).

Definition wait_for_connection (w : World) : option World :=
  if Pubsub.state_connected (slot_state w) then Some (set_pc AwaitSlot w) else None.

(** [stop] of [pubsub] inside [stop] of [leader]. *)
Definition pubsub_stop (w : World) : option World :=
  match pc w with
  | StopWs r => Some (set_pc (JoinWs r) (set_flags false (sub_running w) (running w) w))
  | JoinWs r => if alive (ws w) then None else Some (set_pc (JoinSub r) w)
  | _ => None
  end.
Definition subscriber_stop (w : World) : option World :=
  match pc w with
  | StopSub r => Some (set_pc (StopWs r) (set_flags (ws_running w) false (running w) w))
  | JoinSub r => if alive (sub w) then None else Some (set_pc (after_stop r) w)
  | _ => pubsub_stop w
  end.

(** A fault of [update_buffer] would end the program: there is no step then. *)
Definition main_step (w : World) : option World :=
  match pc w with
  | SpawnWs => Some (set_pc SpawnSub (pubsub_start (subscriber_new w)))
  | SpawnSub => Some (set_pc AwaitConn (subscriber_start w))
  | AwaitConn => wait_for_connection w
  | AwaitSlot =>
      if Pubsub.state_slot (slot_state w) =? 0 then None else Some (set_pc LoadSlot w)
  | LoadSlot => Some (set_pc (Filling (Pubsub.state_slot (slot_state w))) w)
  | Filling slot =>
      match Leader.update_buffer_from_schedule (cache w) slot (buffer w) with
      | Ok b => Some (set_pc SetRunning (set_schedule (cache w) b w))
      | Err _ => None
      end
  | SetRunning => Some (set_pc SpawnTracker (set_flags (ws_running w) (sub_running w) true w))
  | SpawnTracker =>
      Some (set_pc (Idle (Some Started)) (set_tracker (Alive TrWait) (set_owned true (Alive RfHead) w)))
  | StopSub _ | StopWs _ | JoinWs _ | JoinSub _ => subscriber_stop w
  | AbortRefresh => Some (set_pc JoinTracker (set_owned (subscriber w)
      (if alive (refresh_task w) then Exited else refresh_task w) w))
  | JoinTracker => if alive (tracker w) then None else Some (set_pc (Idle (Some Stopped)) w)
  | Idle _ | Fetching => None
  end.

Definition step (e : event) (w : World) : option World :=
  match e with
  | EStart =>
      match pc w with
      | Idle _ => Some (set_pc (if running w then Idle (Some AlreadyRunning) else Fetching) w)
      | _ => None
      end
  | EStop =>
      match pc w with
      | Idle _ =>
          Some (set_pc (if subscriber w then StopSub Stopping else AbortRefresh)
                  (set_owned false (refresh_task w) (set_flags (ws_running w) (sub_running w) false w)))
      | _ => None
      end
  | EMain => main_step w
  | EFetched c =>
      match pc w with
      | Fetching =>
          Some (match c with
                | Some c => set_pc SpawnWs (set_schedule c (buffer w) w)
                | None => set_pc (Idle (Some Fetch)) w
                end)
      | _ => None
      end
  | EDeadline =>
      match pc w with
      | AwaitConn => Some (set_pc (StopSub ConnTimeout) w)
      | AwaitSlot => Some (set_pc (StopSub SlotTimeout) w)
      | _ => None
      end
  | EWs => ws_step w
  | ENet a => net_step a w
  | ESub => sub_step w
  | ETake => take_step w
  | ETracker => tracker_step w
  | ERefresh c => refresh_step c w
  end.

Fixpoint run_events (es : list event) (w : World) : option World :=
  match es with
  | [] => Some w
  | e :: es => w ← step e w; run_events es w
  end.

Definition reachable (w : World) : Prop := exists es, run_events es tracker_new = Some w.

(** ** The invariant *)

(** Which threads may be alive, and what the flag of the tracker is, by where the
    caller is. *)
Definition may_ws (w : World) : bool :=
  match pc w with
  | Idle _ => subscriber w
  | Fetching | SpawnWs | JoinSub _ | AbortRefresh | JoinTracker => false
  | _ => true
  end.
Definition may_sub (w : World) : bool :=
  match pc w with
  | Idle _ => subscriber w
  | Fetching | SpawnWs | SpawnSub | AbortRefresh | JoinTracker => false
  | _ => true
  end.
Definition is_stopping (r : reason) : bool := match r with Stopping => true | _ => false end.
Definition may_track (w : World) : bool :=
  match pc w with
  | Idle _ => subscriber w
  | StopSub r | StopWs r | JoinWs r | JoinSub r => is_stopping r
  | AbortRefresh | JoinTracker => true
  | _ => false
  end.
Definition may_refresh (w : World) : bool := match pc w with JoinTracker => false | _ => may_track w end.
Definition expect_running (w : World) : bool :=
  match pc w with Idle _ => subscriber w | SpawnTracker => true | _ => false end.

Definition flags_ok (w : World) : bool :=
  match pc w with
  | StopWs _ => negb (sub_running w)
  | JoinWs _ | JoinSub _ => negb (sub_running w) && negb (ws_running w)
  | Idle (Some (Started | AlreadyRunning)) => subscriber w
  | _ => negb (subscriber w)
  end.

Record inv (w : World) : Prop := {
  inv_ws : implb (alive (ws w)) (may_ws w) = true;
  inv_sub : implb (alive (sub w)) (may_sub w) = true;
  inv_tracker : implb (alive (tracker w)) (may_track w) = true;
  inv_refresh : implb (alive (refresh_task w)) (may_refresh w) = true;
  inv_running : running w = expect_running w;
  inv_flags : flags_ok w = true;
  inv_owned : subscriber w = true -> exists o, pc w = Idle o;
}.

(** The threads' own steps leave the caller and the flags alone, and start no
    thread. *)
Record local (w w' : World) : Prop := {
  local_pc : pc w' = pc w; local_owned : subscriber w' = subscriber w;
  local_flags : ws_running w' = ws_running w /\ sub_running w' = sub_running w /\ running w' = running w;
  local_ws : implb (alive (ws w')) (alive (ws w)) = true;
  local_sub : implb (alive (sub w')) (alive (sub w)) = true;
  local_tracker : implb (alive (tracker w')) (alive (tracker w)) = true;
  local_refresh : implb (alive (refresh_task w')) (alive (refresh_task w)) = true;
}.

Lemma implb_trans a b c : implb a b = true -> implb b c = true -> implb a c = true.
Proof. by destruct a, b, c. Qed.
Lemma implb_refl a : implb a a = true.
Proof. by destruct a. Qed.

Lemma local_inv w w' : local w w' -> inv w -> inv w'.
Proof.
  intros [Hpc Ho (Hf1 & Hf2 & Hf3) Hw Hs Ht Hr] [Iw Is It Ir Irun If Io].
  assert (Hm : may_ws w' = may_ws w /\ may_sub w' = may_sub w /\ may_track w' = may_track w /\
               may_refresh w' = may_refresh w /\ expect_running w' = expect_running w /\ flags_ok w' = flags_ok w).
  { unfold may_ws, may_sub, may_refresh, may_track, expect_running, flags_ok. by rewrite Hpc, Ho, Hf1, Hf2. }
  destruct Hm as (E1 & E2 & E3 & E4 & E5 & E6). constructor; rewrite ?E1, ?E2, ?E3, ?E4, ?E5, ?E6, ?Hpc, ?Ho, ?Hf3;
    eauto using implb_trans.
Qed.

(** A thread known by [E] has moved. *)
Ltac local_case E := simplify_eq; constructor; cbn; rewrite ?E, ?implb_refl; try done; repeat case_match; done.

Lemma ws_step_local w w' : ws_step w = Some w' -> local w w'.
Proof. unfold ws_step. intros H. destruct (ws w) as [|[]|] eqn:E; local_case E. Qed.
Lemma net_step_local a w w' : net_step a w = Some w' -> local w w'.
Proof.
  unfold net_step. intros H. destruct (ws w) as [|[]|] eqn:E; try done; destruct a; try done.
  3: destruct (Pubsub.on_frame _ _ _ _) as [[go out] ch].
  all: local_case E.
Qed.
Lemma sub_step_local w w' : sub_step w = Some w' -> local w w'.
Proof. unfold sub_step. intros H. destruct (sub w) as [|[]|] eqn:E; local_case E. Qed.
Lemma take_step_local w w' : take_step w = Some w' -> local w w'.
Proof.
  unfold take_step. intros H. destruct (sub w) as [|[]|] eqn:E; try done.
  destruct (Pubsub.take_event _ _) as [[[i ch] st]|]; [|done]. cbn in H. local_case E.
Qed.
Lemma tracker_step_local w w' : tracker_step w = Some w' -> local w w'.
Proof.
  unfold tracker_step. intros H. destruct (tracker w) as [|[]|] eqn:E; try done.
  4: destruct (Leader.loop_step _ _ _) as [t|f].
  all: local_case E.
Qed.
Lemma refresh_step_local c w w' : refresh_step c w = Some w' -> local w w'.
Proof. unfold refresh_step. intros H. destruct (refresh_task w) as [|[]|] eqn:E; local_case E. Qed.

(** The invariant where the place of the caller is known ([Hpc]). *)
Ltac place Hpc :=
  unfold may_ws, may_sub, may_refresh, may_track, expect_running, flags_ok in *; rewrite ?Hpc in *; cbn in *.

Ltac bools :=
  repeat match goal with H : negb _ && negb _ = true |- _ => apply andb_true_iff in H as [? ?] end;
  repeat match goal with H : ?b = _ |- context [?b] => rewrite H end;
  repeat match goal with |- context [alive ?t] => destruct (alive t) eqn:? end;
  first [done | by eexists | cbn in *; congruence].

Lemma not_idle_unowned w : inv w -> (forall o, pc w <> Idle o) -> subscriber w = false.
Proof.
  intros Hi Hn. destruct (subscriber w) eqn:E; [|done]. destruct (inv_owned w Hi E) as [o Ho]. by destruct (Hn o).
Qed.

Lemma main_step_inv w w' : main_step w = Some w' -> inv w -> inv w'.
Proof.
  intros H Hi. pose proof (not_idle_unowned w Hi) as Hown. destruct Hi as [Iw Is It Ir Irun If _].
  unfold main_step, wait_for_connection, subscriber_stop, pubsub_stop in H. destruct (pc w) as [| | | | | | | | | |r|r|r|r| |] eqn:Hpc; try done;
    specialize (Hown ltac:(done)); try destruct r.
  all: repeat (case_match; try done); simplify_eq; place Hpc; constructor; place Hpc; rewrite ?Hown in *; try done; bools.
Qed.

Lemma start_step_inv w w' : step EStart w = Some w' -> inv w -> inv w'.
Proof.
  intros H [Iw Is It Ir Irun If Io]. cbn in H. destruct (pc w) as [o| | | | | | | | | | | | | | |] eqn:Hpc; try done.
  simplify_eq. place Hpc. destruct (subscriber w) eqn:E; rewrite Irun in *; constructor; place Hpc; rewrite ?E in *; try done; bools.
Qed.

Lemma stop_step_inv w w' : step EStop w = Some w' -> inv w -> inv w'.
Proof.
  intros H [Iw Is It Ir Irun If Io]. cbn in H. destruct (pc w) as [o| | | | | | | | | | | | | | |] eqn:Hpc; try done.
  simplify_eq. place Hpc. destruct (subscriber w) eqn:E; constructor; place Hpc; rewrite ?E in *; try done; bools.
Qed.

Lemma fetched_step_inv c w w' : step (EFetched c) w = Some w' -> inv w -> inv w'.
Proof.
  intros H Hi. pose proof (not_idle_unowned w Hi) as Hown. destruct Hi as [Iw Is It Ir Irun If _].
  cbn in H. destruct (pc w) eqn:Hpc; try done. specialize (Hown ltac:(done)).
  destruct c; simplify_eq; place Hpc; constructor; place Hpc; rewrite ?Hown in *; try done; bools.
Qed.

Lemma deadline_step_inv w w' : step EDeadline w = Some w' -> inv w -> inv w'.
Proof.
  intros H Hi. pose proof (not_idle_unowned w Hi) as Hown. destruct Hi as [Iw Is It Ir Irun If _].
  cbn in H. destruct (pc w) eqn:Hpc; try done; specialize (Hown ltac:(done));
    simplify_eq; place Hpc; constructor; place Hpc; rewrite ?Hown in *; try done; bools.
Qed.

Lemma step_keeps_inv e w w' : step e w = Some w' -> inv w -> inv w'.
Proof.
  destruct e; eauto using start_step_inv, stop_step_inv, main_step_inv, fetched_step_inv, deadline_step_inv.
  - intros H. apply local_inv. by apply ws_step_local.
  - intros H. apply local_inv. by eapply net_step_local.
  - intros H. apply local_inv. by apply sub_step_local.
  - intros H. apply local_inv. by apply take_step_local.
  - intros H. apply local_inv. by apply tracker_step_local.
  - intros H. apply local_inv. by eapply refresh_step_local.
Qed.

Lemma reachable_inv w : reachable w -> inv w.
Proof.
  intros [es Hr]. assert (Hi : inv tracker_new) by (by constructor). revert Hr Hi. generalize tracker_new.
  induction es as [|e es IH]; intros w0 Hr Hi; cbn in Hr; [by simplify_eq|].
  destruct (step e w0) as [w1|] eqn:He; [|done]. eapply IH; [exact Hr|]. by eapply step_keeps_inv.
Qed.

Lemma reachable_new : reachable tracker_new.
Proof. by exists []. Qed.

Lemma reachable_step e w w' : reachable w -> step e w = Some w' -> reachable w'.
Proof.
  intros [es Hr] Hs. exists (es ++ [e]). revert Hr. generalize tracker_new.
  induction es as [|e0 es IH]; intros w0 Hr; cbn in *; [simplify_eq; by rewrite Hs|].
  destruct (step e0 w0); [by apply IH|done].
Qed.

(** The thread state that goes with the outcome of the last call. *)
Lemma started_owned w : reachable w -> pc w = Idle (Some Started) -> subscriber w = true /\ running w = true.
Proof.
  intros Hi%reachable_inv Hpc. pose proof (inv_flags w Hi) as Hf. pose proof (inv_running w Hi) as Hr.
  unfold flags_ok, expect_running in *. rewrite Hpc in *. by rewrite Hr.
Qed.

Lemma idle_unowned w o :
  reachable w -> pc w = Idle (Some o) -> o <> Started -> o <> AlreadyRunning -> subscriber w = false.
Proof.
  intros Hi%reachable_inv Hpc H1 H2. pose proof (inv_flags w Hi) as Hf. unfold flags_ok in Hf. rewrite Hpc in Hf.
  by destruct o; try done; apply negb_true_iff.
Qed.

Lemma unowned_dead w o :
  reachable w -> pc w = Idle o -> subscriber w = false ->
  alive (ws w) = false /\ alive (sub w) = false /\ alive (tracker w) = false /\ alive (refresh_task w) = false.
Proof.
  intros [Iw Is It Ir _ _ _]%reachable_inv Hpc Ho. place Hpc. rewrite Ho in *.
  assert (Hd : forall b, implb b false = true -> b = false) by (by intros []).
  by apply Hd in Iw, Is, It, Ir.
Qed.

(** ** Stopping *)

(** The caller waits for threads that have been told to stop. *)
Definition joining (w : World) : bool :=
  match pc w with JoinWs _ | JoinSub _ | AbortRefresh | JoinTracker => true | _ => false end.

Definition in_stop (w : World) : bool := match pc w with StopSub _ | StopWs _ => true | _ => joining w end.

(** How many steps a thread takes at most once its flag is cleared. *)
Definition ws_rank (t : thread ws_phase) : nat :=
  match t with
  | Alive WsHead => 1 | Alive (WsSleeping | WsLeft) => 2 | Alive WsInner => 3
  | Alive (WsReading | WsConnecting) => 4 | _ => 0
  end.
Definition sub_rank (t : thread sub_phase) : nat :=
  match t with Alive SubHead => 1 | Alive SubCopy => 2 | Alive SubPoll => 3 | _ => 0 end.
Definition tracker_rank (t : thread tr_phase) : nat :=
  match t with Alive (TrHead _ _) => 1 | Alive (TrAct _ _ | TrWait) => 2 | Alive TrWaitLoad => 3 | _ => 0 end.
Definition refresh_rank (t : thread refresh_phase) : nat :=
  match t with Alive (RfHead | RfSleep) => 1 | Alive RfRefresh => 2 | _ => 0 end.
Definition pc_rank (p : main_pc) : nat :=
  match p with JoinWs _ => 4 | JoinSub _ => 3 | AbortRefresh => 2 | JoinTracker => 1 | _ => 0 end.

(** A frame may still put one event into the channel. *)
Definition remaining (w : World) : nat :=
  2 * ws_rank (ws w) + length (Pubsub.queue (channel w)) + sub_rank (sub w) + tracker_rank (tracker w) +
  refresh_rank (refresh_task w) + pc_rank (pc w).

Definition is_net (e : event) : bool := match e with ENet _ => true | _ => false end.

(** The websocket thread is in a call that only the network can end. *)
Definition waits_for_network (w : World) : bool :=
  match ws w with Alive (WsConnecting | WsReading) => true | _ => false end.

Lemma on_frame_queue claimed nonce f s :
  (length (Pubsub.queue (Pubsub.on_frame claimed nonce f s).2) <= length (Pubsub.queue s) + 1)%nat.
Proof.
  destruct f; cbn; try lia. destruct (Pubsub.parse_slot_notification _); cbn; [|lia].
  destruct claimed; cbn; [|lia]. rewrite length_app. simpl. lia.
Qed.

Lemma joining_flags w :
  inv w -> joining w = true ->
  running w = false /\ (alive (ws w) = true -> ws_running w = false) /\ (alive (sub w) = true -> sub_running w = false).
Proof.
  intros [Iw Is It Ir Irun If Io] Hj. unfold joining in Hj. destruct (pc w) eqn:Hpc; try done; place Hpc.
  all: split; [done|]; try (apply andb_true_iff in If as [?%negb_true_iff ?%negb_true_iff]; done).
  all: split; intros Ha; rewrite Ha in *; done.
Qed.

Lemma remaining_decreases e w w' :
  inv w -> joining w = true -> step e w = Some w' -> (remaining w' < remaining w)%nat.
Proof.
  intros Hi Hj Hs. destruct (joining_flags w Hi Hj) as (Hr & Hw & Hsub).
  unfold joining in Hj. unfold remaining. destruct e; cbn [step] in Hs.
  - destruct (pc w); done.
  - destruct (pc w); done.
  - unfold main_step, wait_for_connection, subscriber_stop, pubsub_stop in Hs. destruct (pc w) as [| | | | | | | | | | | |r|r| |] eqn:Hpc; try done; repeat (case_match; try done); simplify_eq; cbn;
      try destruct r; cbn; lia.
  - destruct (pc w); done.
  - destruct (pc w); done.
  - unfold ws_step in Hs. destruct (ws w) as [|[]|]; simplify_eq; cbn; rewrite ?Hw by done; cbn; lia.
  - unfold net_step in Hs. destruct (ws w) as [|[]|]; try done; destruct a; try done.
    3: pose proof (on_frame_queue claimed nonce f (channel w)); destruct (Pubsub.on_frame _ _ _ _) as [[[] out] ch].
    all: simplify_eq; cbn in *; lia.
  - unfold sub_step in Hs. destruct (sub w) as [|[]|]; simplify_eq; cbn; rewrite ?Hsub by done; cbn; lia.
  - unfold take_step, Pubsub.take_event in Hs. destruct (sub w) as [|[]|] eqn:Es; try done.
    destruct (Pubsub.queue (channel w)) as [|i q] eqn:Hq; [done|]. cbn in Hs. simplify_eq. cbn. rewrite Es. cbn. lia.
  - unfold tracker_step in Hs. destruct (tracker w) as [|[]|]; try done.
    4: destruct (Leader.loop_step _ _ _).
    all: simplify_eq; cbn; rewrite ?Hr; cbn; try lia. destruct (0 <? _); cbn; lia.
  - unfold refresh_step in Hs. destruct (refresh_task w) as [|[]|]; simplify_eq; cbn; rewrite ?Hr; cbn; lia.
Qed.

(** Some step is possible, without the network unless the thread waits for it. *)
Lemma stop_progress w :
  in_stop w = true -> exists e w', step e w = Some w' /\ (waits_for_network w = false -> is_net e = false).
Proof.
  unfold in_stop, joining, waits_for_network. intros H. destruct (pc w) as [| | | | | | | | | |r|r|r|r| |] eqn:Hpc; try done.
  all: first [by exists EMain; eexists; cbn; unfold main_step, wait_for_connection, subscriber_stop, pubsub_stop; rewrite Hpc|idtac].
  - destruct (alive (ws w)) eqn:Ha; [|by exists EMain; eexists; cbn; unfold main_step, wait_for_connection, subscriber_stop, pubsub_stop; rewrite Hpc, Ha].
    destruct (ws w) as [|[]|] eqn:Hw; try done.
    all: first [by exists EWs; eexists; cbn; unfold ws_step; rewrite Hw
               |by exists (ENet Refused); eexists; cbn; unfold net_step; rewrite Hw
               |by exists (ENet ReadError); eexists; cbn; unfold net_step; rewrite Hw].
  - destruct (alive (sub w)) eqn:Ha; [|by exists EMain; eexists; cbn; unfold main_step, wait_for_connection, subscriber_stop, pubsub_stop; rewrite Hpc, Ha].
    destruct (sub w) as [|[]|] eqn:Hw; try done; by exists ESub; eexists; cbn; unfold sub_step; rewrite Hw.
  - destruct (alive (tracker w)) eqn:Ha; [|by exists EMain; eexists; cbn; unfold main_step, wait_for_connection, subscriber_stop, pubsub_stop; rewrite Hpc, Ha].
    destruct (tracker w) as [|[]|] eqn:Hw; try done; by exists ETracker; eexists; cbn; unfold tracker_step; rewrite Hw.
Qed.

(** The joins go on in order and end in a return. *)
Lemma joining_next e w w' :
  joining w = true -> step e w = Some w' -> joining w' = true \/ exists o, pc w' = Idle o.
Proof.
  intros Hj Hs. assert (Hlocal : local w w' -> joining w' = true \/ exists o, pc w' = Idle o).
  { intros Hl. left. unfold joining in *. by rewrite (local_pc _ _ Hl). }
  destruct e; cbn [step] in Hs.
  6: by apply Hlocal, ws_step_local.
  6: by eapply Hlocal, net_step_local.
  6: by apply Hlocal, sub_step_local.
  6: by apply Hlocal, take_step_local.
  6: by apply Hlocal, tracker_step_local.
  6: by eapply Hlocal, refresh_step_local.
  all: unfold joining, main_step, subscriber_stop, pubsub_stop in *; destruct (pc w) as [| | | | | | | | | | | |r|r| |] eqn:Hpc; try done; rewrite ?Hpc in *; try done.
  all: clear Hlocal; try destruct r; try (destruct (alive _); [done|]); simplify_eq; cbn; eauto.
Qed.

(** Every run that is long enough returns. *)
Lemma long_runs_return es w w' :
  inv w -> joining w = true -> run_events es w = Some w' -> (remaining w < length es)%nat ->
  exists es1 es2 w1 o, es = es1 ++ es2 /\ run_events es1 w = Some w1 /\ pc w1 = Idle o.
Proof.
  revert w. induction es as [|e es IH]; intros w Hi Hj Hr Hl; cbn [length] in Hl; [lia|].
  cbn in Hr. destruct (step e w) as [w1|] eqn:He; [|done]. cbn in Hr.
  pose proof (remaining_decreases e w w1 Hi Hj He) as Hd. pose proof (step_keeps_inv e w w1 He Hi) as Hi1.
  destruct (joining w1) eqn:Hj1.
  - destruct (IH w1 Hi1 Hj1 Hr ltac:(lia)) as (es1 & es2 & w2 & o & -> & Hr2 & Hp).
    exists (e :: es1), es2, w2, o. split; [done|]. cbn. by rewrite He.
  - exists [e], es, w1. destruct (joining_next e w w1 Hj He) as [Hk|[o Ho]]; [congruence|].
    exists o. split; [done|]. cbn. by rewrite He.
Qed.

(** C32. Shutting down is complete, and it comes to an end.  Whatever the threads
    and the network did: when [stop] or a failed [start] has returned, no subscriber
    is owned; then no thread is alive and, until the next call, neither the slot
    nor the leader buffer changes.  While subscriber and threads are being stopped
    some step is always possible, without help from the network unless the
    websocket thread is waiting for it; and once the flags are cleared every
    sequence of steps, however the threads are scheduled, has returned after
    [remaining] steps. *)
Theorem shutdown_completes w :
  reachable w ->
  (forall o, pc w = Idle (Some o) -> o = Stopped \/ o = Fetch \/ o = ConnectionTimeout \/ o = NoSlotReceived ->
     subscriber w = false) /\
  (forall o, pc w = Idle o -> subscriber w = false ->
     alive (ws w) = false /\ alive (sub w) = false /\ alive (tracker w) = false /\
     (forall e w', e <> EStart -> e <> EStop -> step e w = Some w' ->
        slot_state w' = slot_state w /\ buffer w' = buffer w)) /\
  (in_stop w = true -> exists e w', step e w = Some w' /\ (waits_for_network w = false -> is_net e = false)) /\
  (joining w = true -> forall es w', run_events es w = Some w' -> (remaining w < length es)%nat ->
     exists es1 es2 w1 o, es = es1 ++ es2 /\ run_events es1 w = Some w1 /\ pc w1 = Idle o).
Proof.
  intros Hr. split_and!.
  - intros o Hpc Ho. by eapply idle_unowned; [exact Hr|exact Hpc|..]; destruct Ho as [->|[->|[->| ->]]].
  - intros o Hpc Ho. destruct (unowned_dead w o Hr Hpc Ho) as (Iw & Is & It & Ir).
    split_and!; [done..|]. intros e w' He1 He2 Hs.
    destruct e; try done; cbn [step] in Hs; rewrite ?Hpc in Hs; try done.
    + unfold main_step, wait_for_connection, subscriber_stop, pubsub_stop in Hs. by rewrite Hpc in Hs.
    + unfold ws_step in Hs. by destruct (ws w).
    + unfold net_step in Hs. by destruct (ws w).
    + unfold sub_step in Hs. by destruct (sub w).
    + unfold take_step in Hs. by destruct (sub w).
    + unfold tracker_step in Hs. by destruct (tracker w).
    + unfold refresh_step in Hs. by destruct (refresh_task w).
  - apply stop_progress.
  - intros Hj es w' Hes Hlen. by eapply long_runs_return; [apply reachable_inv|..].
Qed.

(** A session: connected, one notification, started. *)
Definition notification : Pubsub.Frame :=
  Pubsub.Text (Str.quoted "{'params':{'result':{'parent':4,'root':1,'slot':5},'subscription':0}}").
Definition session : list event :=
  [EStart; EFetched (Some None); EMain; EMain; EWs; ENet Opened; ESub; ESub; ESub; EMain; EWs;
   ENet (Frame true 0 notification); ESub; ETake; ESub; ESub; EMain; EMain; EMain; EMain; EMain].
Definition to_join : list event := [EStop; EMain; EMain].
Definition joins : list event := [EWs; EWs; EWs; EMain; ESub; EMain; EMain; ETracker; ETracker; EMain].

Definition at_join : World := default tracker_new (run_events (session ++ to_join) tracker_new).

Lemma shutdown_completes_witness :
  let es := joins ++ [EStart; EFetched None; EStart; EFetched None; EStart; EFetched None] in
  pc at_join = JoinWs Stopping /\
  exists es1 es2 w1 o, es = es1 ++ es2 /\ run_events es1 at_join = Some w1 /\ pc w1 = Idle o.
Proof.
  intros es. split; [vm_compute; reflexivity|].
  assert (Hr : reachable at_join) by (exists (session ++ to_join); vm_compute; reflexivity).
  destruct (run_events es at_join) as [w'|] eqn:Hes; [|vm_compute in Hes; discriminate].
  destruct (shutdown_completes at_join Hr) as (_ & _ & _ & Hret).
  apply (Hret ltac:(vm_compute; reflexivity) es w' Hes). vm_compute. repeat constructor.
Defined.

(** A peer that connects and then stays silent keeps [start] from reporting that no
    slot was received: the deadline passes, the flags are cleared, but the thread
    is in a read without a timeout, and the join waits for it. *)
Theorem silent_peer_blocks_start :
  exists w, reachable w /\ pc w = JoinWs SlotTimeout /\
  forall es w', forallb (fun e => negb (is_net e)) es = true -> run_events es w = Some w' -> pc w' = JoinWs SlotTimeout.
Proof.
  set (es := [EStart; EFetched (Some None); EMain; EMain; EWs; ENet Opened; ESub; ESub; ESub; EMain; EWs;
              EDeadline; EMain; EMain]).
  destruct (run_events es tracker_new) as [w|] eqn:Hw; [|by vm_compute in Hw].
  assert (Hpc : pc w = JoinWs SlotTimeout /\ ws w = Alive WsReading) by (vm_compute in Hw; by simplify_eq).
  exists w. split; [by exists es|]. split; [apply Hpc|]. clear Hw. intros es' w'.
  revert w Hpc. induction es' as [|e es' IH]; intros w [Hpc Hws] Hn Hr; cbn in Hr; [by simplify_eq|].
  cbn in Hn. apply andb_true_iff in Hn as [He Hn]. destruct (step e w) as [w1|] eqn:Hs; [|done].
  eapply (IH w1); [|done|exact Hr]. clear IH Hr Hn.
  destruct e; cbn [step] in Hs; rewrite ?Hpc in Hs; try done.
  - unfold main_step, wait_for_connection, subscriber_stop, pubsub_stop in Hs. by rewrite Hpc, Hws in Hs.
  - unfold ws_step in Hs. by rewrite Hws in Hs.
  - unfold sub_step in Hs. destruct (sub w) as [|[]|]; by simplify_eq.
  - unfold take_step in Hs. destruct (sub w) as [|[]|]; try done. destruct (Pubsub.take_event _ _) as [[[? ?] ?]|]; [|done].
    cbn in Hs. by simplify_eq.
  - unfold tracker_step in Hs. destruct (tracker w) as [|[]|]; try done; simplify_eq; try done. by destruct (Leader.loop_step _ _ _).
  - unfold refresh_step in Hs. destruct (refresh_task w) as [|[]|]; by simplify_eq.
Qed.

(** A tracker that is started again trusts what the last session left: the status
    and the slot are not reset, so that it reports to be started without having
    heard anything from the network. *)
Theorem restart_trusts_old_slot :
  exists w, run_events (session ++ to_join ++ joins ++
                        [EStart; EFetched (Some None); EMain; EMain; EMain; EMain; EMain; EMain; EMain; EMain]) tracker_new = Some w /\
    pc w = Idle (Some Started) /\ Pubsub.state_slot (slot_state w) = 5 /\ ws w = Alive WsHead.
Proof. eexists. split; [vm_compute; reflexivity|]. split; [reflexivity|]. split; reflexivity. Qed.
