(* ===== verification/ClientTls.v ===== *)
(** * ClientTls: the RPC client over TLS

    The [_tls] functions of [client/src/connection.rs] and the exchange of
    [client/src/client.rs] over them.  The functions only move bytes between the
    socket and rustls: the class [rustls_api] lists the calls they make to it,
    [rustls_ok] states what its documentation promises of a record layer, and
    [Toy] is a small instance. *)
From S2P Require Import Prelude Str Request Http HttpSpec Scan Client ClientSpec.
From S2P Require Server.

(** ** The library *)

(** What [write_tls] and [read_tls] answer ([Moved 0] of a read is the end of the
    stream), and what a read of the decrypted data answers. *)
Inductive tls_io : Type := Moved (n : nat) | Blocks | Fails.
Inductive tls_plain : Type := Plain (bytes : list Z) | PlainBlocks | PlainFails.

(** The calls to [ClientConnection]; [write_tls] and [read_tls] take what the
    socket answers to the write or read they make, and [write_tls] also gives the
    bytes that went out.  [false] is an error. *)
Class rustls_api (T : Type) : Type := {
  wants_write : T -> bool;
  wants_read : T -> bool;
  is_handshaking : T -> bool;
  write_tls : write_result -> T -> tls_io * list Z * T;
  read_tls : read_result -> T -> tls_io * T;
  process_new_packets : T -> bool * T;
  writer_write_all : list Z -> T -> bool * T;
  reader_read : nat -> T -> tls_plain * T;
}.

(** The limit of the library's send buffer. *)
Definition BUFFER_LIMIT : nat := Z.to_nat 65536.

(** What the library promises of a session in use.  [outgoing] are the records
    that wait for the socket, [pending] is the decrypted text that was not read,
    [future t c] is the text the application will have been given when the peer's
    bytes [c] have arrived, if they are authentic and do not close the session, and
    [opens t records] is what the peer makes of records. *)
Class rustls_ok (T : Type) `{rustls_api T} : Type := {
  outgoing : T -> list Z;
  pending : T -> list Z;
  future : T -> list Z -> option (list Z);
  opens : T -> list Z -> option (list Z);
  law_wants_write t : wants_write t = negb (bool_decide (outgoing t = []));
  law_write_blocked t : write_tls WriteBlocked t = (Blocks, [], t);
  law_write n t : (0 < n)%nat ->
    exists t', write_tls (Wrote n) t = (Moved (Nat.min n (length (outgoing t))), take n (outgoing t), t') /\
      outgoing t' = drop n (outgoing t) /\ pending t' = pending t /\ (forall c, future t' c = future t c);
  law_write_all data t :
    is_handshaking t = false -> (length (outgoing t) + length data <= BUFFER_LIMIT)%nat ->
    exists t' records, writer_write_all data t = (true, t') /\
      outgoing t' = outgoing t ++ records /\ opens t records = Some data /\
      pending t' = pending t /\ (forall c, future t' c = future t c);
  law_read_blocked t : read_tls ReadBlocked t = (Blocks, t);
  law_read bytes t : bytes <> [] -> pending t = [] ->
    exists t', read_tls (Got bytes) t = (Moved (length bytes), t') /\
      (forall c, future t' c = future t (bytes ++ c));
  law_process t p : future t [] = Some p ->
    exists t', process_new_packets t = (true, t') /\ pending t' = p /\ (forall c, future t' c = future t c);
  law_reader_empty n t : pending t = [] -> future t [] = Some [] -> reader_read n t = (PlainBlocks, t);
  law_reader n t : pending t <> [] -> (0 < n)%nat ->
    exists t', reader_read n t = (Plain (take n (pending t)), t') /\ pending t' = drop n (pending t) /\
      (forall c, future t c = (take n (pending t) ++.) <$> future t' c);
  law_future t c1 c2 p : future t (c1 ++ c2) = Some p -> exists p1 p2, future t c1 = Some p1 /\ p = p1 ++ p2;
}.

Section tls.
Context {T : Type} `{!rustls_api T}.

(** ** The handshake *)

(** The inner loop of [complete_tls_handshake]: write until the socket blocks. *)
Fixpoint write_handshake (ws : list write_result) (t : T) : option (Result unit Error * list write_result * list Z * T) :=
  if wants_write t then
    match ws with
    | [] => None
    | w :: ws =>
        let '(r, sent, t) := write_tls w t in
        match r with
        | Moved _ => '(r, ws, out, t) ← write_handshake ws t; Some (r, ws, sent ++ out, t)
        | Blocks => Some (Ok tt, ws, sent, t)
        | Fails => Some (Err Connect, ws, sent, t)
        end
    end
  else Some (Ok tt, ws, [], t).

(** The reading part of a round of [complete_tls_handshake]. *)
Definition read_handshake (rs : list read_result) (polls : list poll_result) (t : T)
    : option (Result unit Error * list read_result * list poll_result * T) :=
  if wants_read t then
    match rs with
    | [] => None
    | r :: rs =>
        let '(n, t) := read_tls r t in
        match n with
        | Moved 0 => Some (Err Connect, rs, polls, t)
        | Moved _ =>
            let '(ok, t) := process_new_packets t in
            Some (if ok then Ok tt else Err Connect, rs, polls, t)
        | Blocks =>
            match polls with
            | [] => None
            | PollError :: polls => Some (Err Connect, rs, polls, t)
            | Events [] :: polls => Some (Err Connect, rs, polls, t)
            | Events _ :: polls => Some (Ok tt, rs, polls, t)
            end
        | Fails => Some (Err Connect, rs, polls, t)
        end
    end
  else Some (Ok tt, rs, polls, t).

(** The result, the bytes that went out and the session.  [fuel] bounds the
    rounds: a round that neither reads nor writes repeats. *)
Fixpoint complete_tls_handshake (fuel : nat) (ws : list write_result) (rs : list read_result)
    (polls : list poll_result) (t : T) : option (Result unit Error * list Z * T) :=
  match fuel with
  | 0%nat => None
  | Datatypes.S fuel =>
      if negb (is_handshaking t) then Some (Ok tt, [], t)
      else
        '(r, ws, out, t) ← write_handshake ws t;
        match r with
        | Err e => Some (Err e, out, t)
        | Ok _ =>
            '(r, rs, polls, t) ← read_handshake rs polls t;
            match r with
            | Err e => Some (Err e, out, t)
            | Ok _ =>
                '(r, out', t) ← complete_tls_handshake fuel ws rs polls t; Some (r, out ++ out', t)
            end
        end
  end.

(** What the handshake of a connection gets: whether the host is a server name,
    the new session (if there is one), and what socket and poll answer. *)
Record tls_env : Type := {
  server_name_ok : bool; new_session : option T; rounds : nat;
  hs_writes : list write_result; hs_reads : list read_result; hs_polls : list poll_result }.

(** [start_tls_handshake]: the result, the session, and whether the state became
    [TlsHandshake]. *)
Definition start_tls_handshake (env : tls_env) : option (Result unit Error * option T * bool) :=
  if negb (server_name_ok env) then Some (Err Connect, None, false)
  else
    match new_session env with
    | None => Some (Err Connect, None, false)
    | Some t =>
        '(r, _, t) ← complete_tls_handshake (rounds env) (hs_writes env) (hs_reads env) (hs_polls env) t;
        Some (r, Some t, true)
    end.

(** [do_connect] of a connection with TLS. *)
Definition do_connect_tls (env : connect_env) (tenv : tls_env) (c : Connection)
    : option (Result unit Error * Connection * option T) :=
  if negb (opened env) then Some (Err Connect, c, None)
  else if negb (registered env) then Some (Err Connect, c, None)
  else
    let c := {| has_stream := true; state := Connecting; tls := tls c |} in
    '(r, _) ← wait_connected (Client.pending env) (connect_polls env);
    match r with
    | Err e => Some (Err e, c, None)
    | Ok _ =>
        '(r, t, begun) ← start_tls_handshake tenv;
        let c := if (begun : bool) then {| has_stream := true; state := TlsHandshake; tls := tls c |} else c in
        match r with
        | Err e => Some (Err e, c, t)
        | Ok _ => Some (Ok tt, {| has_stream := true; state := Connected; tls := tls c |}, t)
        end
    end.

(** ** Sending and receiving *)

Fixpoint flush_tls_write (ws : list write_result) (polls : list poll_result) (t : T)
    : option (Result unit Error * list Z * list poll_result * T) :=
  if wants_write t then
    match ws with
    | [] => None
    | w :: ws =>
        let '(r, sent, t) := write_tls w t in
        match r with
        | Moved _ =>
            '(r, out, polls, t) ← flush_tls_write ws polls t; Some (r, sent ++ out, polls, t)
        | Blocks =>
            '(r, polls) ← wait_writable polls;
            match r with
            | Ok _ => '(r, out, polls, t) ← flush_tls_write ws polls t; Some (r, sent ++ out, polls, t)
            | Err e => Some (Err e, sent, polls, t)
            end
        | Fails => Some (Err Send, sent, polls, t)
        end
    end
  else Some (Ok tt, [], polls, t).

Definition send_tls (ws : list write_result) (polls : list poll_result) (data : list Z) (t : T)
    : option (Result unit Error * list Z * list poll_result * T) :=
  let '(ok, t) := writer_write_all data t in
  if ok then flush_tls_write ws polls t else Some (Err Send, [], polls, t).

(** [recv_tls]: the result, the buffer and the session.  The buffer keeps the
    zeros it was extended with when the records are refused. *)
Definition read_plain (buf : list Z) (t : T) : Result nat Error * list Z * T :=
  let '(r, t) := reader_read 4096 t in
  match r with
  | Plain [] => (Err Recv, buf, t)
  | Plain bytes => (Ok (length bytes), buf ++ bytes, t)
  | PlainBlocks => (Err WouldBlock, buf, t)
  | PlainFails => (Err Recv, buf, t)
  end.

Definition recv_tls (r : read_result) (buf : list Z) (t : T) : Result nat Error * list Z * T :=
  let '(n, t) := read_tls r t in
  match n with
  | Moved 0 => (Err Recv, buf, t)
  | Moved _ =>
      let '(ok, t) := process_new_packets t in
      if ok then read_plain buf t else (Err Recv, buf ++ replicate 4096 0, t)
  | Blocks => read_plain buf t
  | Fails => (Err Recv, buf, t)
  end.

(** The loop of [send_with_opts] that reads the response. *)
Fixpoint recv_loop_tls (polls : list poll_result) (rs : list read_result) (buf : list Z) (t : T)
    : option (Result (list Z) Error * T) :=
  '(ready, polls) ← (if bool_decide (buf = []) then wait_readable polls else Some (Ok tt, polls));
  match ready with
  | Err e => Some (Err e, t)
  | Ok _ =>
      match rs with
      | [] => None
      | r :: rs =>
          let '(n, buf, t) := recv_tls r buf t in
          match n with
          | Ok _ => if is_complete buf then Some (Ok buf, t) else recv_loop_tls polls rs buf t
          | Err WouldBlock =>
              '(ready, polls) ← wait_readable polls;
              match ready with Err e => Some (Err e, t) | Ok _ => recv_loop_tls polls rs buf t end
          | Err e => Some (Err e, t)
          end
      end
  end.

(** [send_with_opts] over a connection with TLS. *)
Definition send_with_opts_tls (encode : list Z -> list Z) (ws : list write_result) (polls : list poll_result)
    (rs : list read_result) (tx : list Z) (opts : SendOptions) (c : LandClient) (t : T)
    : option (Result Z Error * list Z * T) * LandClient :=
  let c := {| conn := conn c; client_host := client_host c; Client.request_id := wrapping_add64 (Client.request_id c) 1 |} in
  let send_buf := build_request encode (client_host c) (Client.request_id c) tx (get_fanout opts) (get_target_slot opts) in
  (if negb (has_stream (conn c)) then Some (Err Send, [], t)
   else
     '(r, out, polls, t) ← send_tls ws polls send_buf t;
     match r with
     | Err e => Some (Err e, out, t)
     | Ok _ =>
         '(r, t) ← recv_loop_tls polls rs [] t;
         match r with
         | Err e => Some (Err e, out, t)
         | Ok buf => Some (parse_response buf, out, t)
         end
     end, c).

End tls.

(** ** The exchange *)

Section spec.
Context {T : Type} {api : rustls_api T} {promises : rustls_ok T}.

(** Writes that are not interrupted. *)
Definition uninterrupted (ws : list write_result) : bool :=
  forallb (fun w => match w with WriteInterrupted => false | _ => true end) ws.

Lemma flush_all ws ps (t : T) :
  writes_take ws (length (outgoing t)) = true -> uninterrupted ws = true ->
  forallb poll_ok ps = true -> (length ws <= ready_polls ps)%nat ->
  exists t' rest, flush_tls_write ws ps t = Some (Ok tt, outgoing t, rest, t') /\
    pending t' = pending t /\ (forall c, future t' c = future t c) /\
    forallb poll_ok rest = true /\ (ready_polls ps <= length ws + ready_polls rest)%nat.
Proof.
  revert ps t. induction ws as [|w ws IH]; intros ps t Hw Hu Hok Hr.
  { destruct (outgoing t) eqn:Ho; [|done]. cbn [flush_tls_write].
    rewrite law_wants_write, Ho. eexists t, ps. by split_and!. }
  destruct (outgoing t) as [|o os] eqn:Ho.
  { cbn [flush_tls_write]. rewrite law_wants_write, Ho. eexists t, ps. split_and!; try done. lia. }
  cbn [flush_tls_write]. rewrite law_wants_write, Ho. cbn [bool_decide negb].
  rewrite bool_decide_eq_false_2 by done. cbn [negb]. rewrite <- Ho in *. cbn [uninterrupted forallb length] in *.
  apply andb_true_iff in Hu as [Hu1 Hu]. rewrite Ho in Hw. cbn [writes_take length] in Hw.
  destruct w as [[|k]| | |]; try done.
  - destruct (law_write (Datatypes.S k) t) as (t1 & -> & Ho1 & Hp1 & Hf1); [lia|].
    destruct (IH ps t1) as (t2 & rest & -> & Hp2 & Hf2 & Hrest & Hl).
    { rewrite Ho1, Ho, length_drop. cbn [length]. exact Hw. }
    { done. } { done. } { lia. }
    cbn [mbind option_bind]. rewrite Ho1, take_drop. eexists t2, rest. split_and!; try done; [congruence| |lia].
    intros c. by rewrite Hf2.
  - rewrite law_write_blocked. destruct (wait_writable_ready ps Hok) as (ps' & -> & Hok' & Hl'); [lia|].
    cbn [mbind option_bind]. destruct (IH ps' t) as (t2 & rest & -> & Hp2 & Hf2 & Hrest & Hl); [by rewrite Ho|done|done|lia|].
    cbn [mbind option_bind app]. eexists t2, rest. split_and!; try done. lia.
Qed.

(** One receive from a session that has nothing left over: the text the bytes
    complete, which may be none. *)
Lemma recv_tls_reads r buf (t : T) c p :
  read_ok r = true -> pending t = [] -> future t [] = Some [] -> future t (read_bytes [r] ++ c) = Some p ->
  (length p <= 4096)%nat ->
  exists t' p1 p2, p = p1 ++ p2 /\ pending t' = [] /\ future t' [] = Some [] /\ future t' c = Some p2 /\
    recv_tls r buf t = (if bool_decide (p1 = []) then Err WouldBlock else Ok (length p1), buf ++ p1, t').
Proof.
  intros Hr Hp H0 Hc Hlen. destruct r as [[|x bytes]| |]; try done; cbn [read_bytes] in Hc.
  - rewrite app_nil_r in Hc. destruct (law_read (x :: bytes) t) as (t1 & E1 & Hf1); [done|done|].
    destruct (law_future _ _ _ _ Hc) as (p1 & p2 & Hp1 & ->).
    destruct (law_process t1 p1) as (t2 & E2 & Hp2 & Hf2); [by rewrite Hf1, app_nil_r|].
    unfold recv_tls. rewrite E1. cbn [length]. rewrite E2. unfold read_plain.
    assert (Hc2 : future t2 c = Some (p1 ++ p2)) by by rewrite Hf2, Hf1.
    assert (H02 : future t2 [] = Some p1) by by rewrite Hf2, Hf1, app_nil_r.
    destruct p1 as [|y p1].
    + rewrite law_reader_empty by done. eexists t2, [], p2. cbn. rewrite app_nil_r. by split_and!.
    + destruct (law_reader 4096 t2) as (t3 & E3 & Hp3 & Hf3); [by rewrite Hp2|lia|].
      rewrite Hp2, take_ge in E3, Hf3 by (rewrite length_app in Hlen; lia).
      rewrite Hp2, drop_ge in Hp3 by (rewrite length_app in Hlen; lia).
      rewrite E3. pose proof (Hf3 []) as Hf30. pose proof (Hf3 c) as Hf3c. rewrite H02 in Hf30. rewrite Hc2 in Hf3c.
      destruct (future t3 []) as [q0|] eqn:Eq0; [|done]. destruct (future t3 c) as [q|] eqn:Eq; [|done].
      cbn in Hf30, Hf3c. injection Hf30 as Hf30. injection Hf3c as Hf3c.
      assert (q0 = []) as -> by (destruct q0; [done|apply (f_equal length) in Hf30; rewrite length_app in Hf30; cbn in Hf30; lia]).
      apply app_inv_head in Hf3c as ->. eexists t3, (y :: p1), q. by split_and!.
  - unfold recv_tls. rewrite law_read_blocked. unfold read_plain. rewrite law_reader_empty by done.
    eexists t, [], p. cbn. rewrite app_nil_r. by split_and!.
Qed.

Lemma recv_loop_tls_reads ps rs buf (t : T) p msg :
  (forall k, (k <= length msg)%nat -> Client.is_complete (take k msg) = bool_decide (k = length msg)) ->
  forallb read_ok rs = true -> pending t = [] -> future t [] = Some [] ->
  future t (read_bytes rs) = Some p -> buf ++ p = msg -> p <> [] -> (length p <= 4096)%nat ->
  forallb poll_ok ps = true -> (2 * length rs <= ready_polls ps)%nat ->
  exists t', recv_loop_tls ps rs buf t = Some (Ok msg, t').
Proof.
  intros Hmsg. revert ps buf t p. induction rs as [|r rs IH]; intros ps buf t p Hok Hp Hf0 Hf Hb Hne Hlen Hps Hl.
  { cbn in Hf. rewrite Hf0 in Hf. congruence. }
  cbn [forallb length] in *. apply andb_true_iff in Hok as [Hr Hok]. cbn [recv_loop_tls].
  assert (Hw : exists ps', (if bool_decide (buf = []) then wait_readable ps else Some (Ok tt, ps)) = Some (Ok tt, ps') /\
                           rest_of ps ps').
  { case_bool_decide; [apply wait_readable_ready; [done|lia]|]. exists ps. split; [done|]. split; [done|lia]. }
  destruct Hw as (ps' & -> & Hps' & Hl'). cbn [mbind option_bind].
  assert (Hf' : future t (read_bytes [r] ++ read_bytes rs) = Some p).
  { destruct r; cbn [read_bytes] in *; by rewrite ?app_nil_r. }
  destruct (recv_tls_reads r buf t _ p Hr Hp Hf0 Hf' Hlen) as (t1 & p1 & p2 & -> & Hp1 & Hf1 & Hf2 & ->).
  rewrite length_app in Hlen. case_bool_decide as Hd.
  - subst p1. rewrite app_nil_r. destruct (wait_readable_ready ps' Hps') as (ps'' & -> & Hps'' & Hl''); [lia|].
    cbn [mbind option_bind]. eapply IH; try done; lia.
  - rewrite app_assoc in Hb. pose proof (Hmsg (length (buf ++ p1))) as Hc.
    rewrite <- Hb, take_app_length in Hc. rewrite Hc by (rewrite !length_app; lia). clear Hc.
    rewrite (length_app (buf ++ p1)). case_bool_decide as Hd2.
    + destruct p2; [|cbn in Hd2; lia]. rewrite app_nil_r in Hb. subst. by eexists.
    + eapply IH; try done; [|lia|lia]. intros ->. cbn in Hd2. lia.
Qed.

(** C33. The client gets the server's answer over TLS.  On a session whose handshake
    is over, however the sockets cut and block the records and whether or not a
    read completes one: when the writes take the records, the reads give bytes that
    rustls opens to the response of the event loop (of at most 4096 bytes), no poll
    fails or times out and enough of them find the connection ready, then what
    goes out is what was still to be sent and records that the peer opens to
    exactly the request [build_request] prints, and the result is the server's
    request id, or the RPC error for an empty transaction. *)
Theorem tls_client_gets_answer {Value} encode ws polls rs tx opts c (t : T)
    (q : Server.QueuedRequest (Value := Value)) date close :
  let next := wrapping_add64 (Client.request_id c) 1 in
  let req := build_request encode (client_host c) next tx (get_fanout opts) (get_target_slot opts) in
  let reply := (Server.create_response date (Server.process_request q).1 close).1 in
  has_stream (conn c) = true -> is_handshaking t = false ->
  (length (outgoing t) + length req <= BUFFER_LIMIT)%nat ->
  writes_take ws (length (outgoing (writer_write_all req t).2)) = true -> uninterrupted ws = true ->
  pending t = [] -> future t [] = Some [] ->
  forallb read_ok rs = true -> future t (read_bytes rs) = Some reply -> (length reply <= 4096)%nat ->
  forallb poll_ok polls = true -> (length ws + 2 * length rs <= ready_polls polls)%nat ->
  value_ok date -> 0 <= Server.q_request_id q < U64 ->
  exists records t',
    opens t records = Some req /\
    send_with_opts_tls encode ws polls rs tx opts c t
    = (Some (if bool_decide (Request.transaction (Server.q_request q) = []) then Err (Rpc (-32603))
             else Ok (Server.q_request_id q), outgoing t ++ records, t'),
       {| conn := conn c; client_host := client_host c; Client.request_id := next |}).
Proof.
  intros next req reply Hst Hh Hlim Hws Hu Hp Hf0 Hok Hf Hlen Hps Hl Hd Hid.
  change reply with (answer date q close) in Hf, Hlen.
  destruct (law_write_all req t Hh Hlim) as (t1 & records & E1 & Ho1 & Hopen & Hp1 & Hf1).
  rewrite E1 in Hws. cbn [snd] in Hws.
  destruct (flush_all ws polls t1) as (t2 & rest & E2 & Hp2 & Hf2 & Hrest & Hl2); [done|done|done|lia|].
  destruct (recv_loop_tls_reads rest rs [] t2 (answer date q close) (answer date q close)) as (t3 & E3).
  { intros k Hk. by apply answer_complete. }
  { done. } { congruence. } { by rewrite Hf2, Hf1. } { by rewrite Hf2, Hf1. } { done. }
  { rewrite answer_wire. destruct (wire_cons_app status_line (header_line <$> answer_headers date
      (Z.of_nat (length (answer_body q))) close) (answer_body q)) as [rest' ->]. done. }
  { done. } { done. } { lia. }
  exists records, t3. split; [done|]. unfold send_with_opts_tls, send_tls.
  cbn [conn client_host Client.request_id]. rewrite Hst. cbn [negb]. fold next. fold req.
  rewrite E1, E2. cbn [mbind option_bind]. rewrite E3. cbn [mbind option_bind]. by rewrite parse_answer, Ho1.
Qed.

(** A connection is reported as made only with a session whose handshake is over. *)
Lemma handshake_done fuel ws rs ps (t t' : T) out :
  complete_tls_handshake fuel ws rs ps t = Some (Ok tt, out, t') -> is_handshaking t' = false.
Proof.
  revert ws rs ps t out. induction fuel as [|fuel IH]; intros ws rs ps t out; [done|].
  cbn [complete_tls_handshake]. destruct (is_handshaking t) eqn:Hh; cbn [negb]; [|by intros [= _ <-]].
  destruct (write_handshake ws t) as [[[[[] ?] ?] ?]|]; cbn; try done.
  destruct (read_handshake rs ps t0) as [[[[[] ?] ?] ?]|]; cbn; try done.
  destruct (complete_tls_handshake fuel _ _ _ _) as [[[r' out'] t2]|] eqn:E; cbn; [|done].
  intros [= -> <- <-]. by eapply IH.
Qed.

Lemma connect_tls_established env tenv c c' t :
  do_connect_tls env tenv c = Some (Ok tt, c', t) ->
  exists t', t = Some (t' : T) /\ is_handshaking t' = false /\ is_connected c' = true /\ has_stream c' = true.
Proof.
  unfold do_connect_tls. destruct (opened env), (registered env); cbn [negb]; try done.
  destruct (wait_connected _ _) as [[[] ?]|]; cbn; try done. unfold start_tls_handshake.
  destruct (server_name_ok tenv); cbn; [|done]. destruct (new_session tenv) as [t0|]; cbn; [|done].
  destruct (complete_tls_handshake _ _ _ _ t0) as [[[[] out] t1]|] eqn:E; cbn; try done.
  intros [= <- <-]. destruct a0. apply handshake_done in E. by exists t1.
Qed.

(** The end of the stream is reported even when decrypted text is still waiting. *)
Lemma recv_tls_end buf (t t' : T) : read_tls (Got []) t = (Moved 0, t') -> recv_tls (Got []) buf t = (Err Recv, buf, t').
Proof. intros E. unfold recv_tls. by rewrite E. Qed.

End spec.

(** ** A small record layer

    A record is the byte 23 and one masked byte; the first bytes that arrive end the
    handshake. *)
Module Toy.

Record session : Type := { handshaking : bool; to_send : list Z; raw : list Z; text : list Z }.

Definition seal (data : list Z) : list Z := data ≫= fun b => [23; Z.lxor b 90].

Fixpoint unseal (l : list Z) : option (list Z) :=
  match l with
  | [] => Some []
  | x :: l =>
      if x =? 23 then match l with [] => Some [] | b :: l => (Z.lxor b 90 ::.) <$> unseal l end
      else None
  end.
(** The beginning of the last record. *)
Fixpoint partial (l : list Z) : list Z :=
  match l with
  | [] => []
  | x :: l => match l with [] => [x] | _ :: l => partial l end
  end.

Lemma pairs_ind (P : list Z -> Prop) : P [] -> (forall x, P [x]) -> (forall x y l, P l -> P (x :: y :: l)) -> forall l, P l.
Proof.
  intros H0 H1 H2 l. enough (P l /\ forall x, P (x :: l)) by tauto. induction l as [|y l [IH1 IH2]]; [by split|].
  split; [done|]. intros x. by apply H2.
Qed.

Lemma unseal_app l c : unseal (l ++ c) = p ← unseal l; (p ++.) <$> unseal (partial l ++ c).
Proof.
  induction l as [|x|x y l IH] using pairs_ind.
  - cbn [unseal app partial mbind option_bind]. by destruct (unseal c).
  - cbn [unseal app partial]. destruct (x =? 23) eqn:E; [|done]. cbn [mbind option_bind unseal app].
    rewrite ?E. destruct c as [|b c]; [done|]. by destruct (unseal c).
  - cbn [app unseal partial]. destruct (x =? 23); [|done]. rewrite IH. destruct (unseal l); [|done]. cbn.
    by destruct (unseal (partial l ++ c)).
Qed.

Lemma unseal_seal data : unseal (seal data) = Some data.
Proof.
  induction data as [|b data IH]; [done|]. cbn [seal mbind list_bind app unseal]. cbn. unfold seal in IH. rewrite IH.
  cbn. by rewrite Z.lxor_assoc, Z.lxor_nilpotent, Z.lxor_0_r.
Qed.

Definition with_out (o : list Z) (t : session) : session :=
  {| handshaking := handshaking t; to_send := o; raw := raw t; text := text t |}.
Definition with_in (r p : list Z) (t : session) : session :=
  {| handshaking := handshaking t; to_send := to_send t; raw := r; text := p |}.

Definition process (t : session) : bool * session :=
  if handshaking t then (true, {| handshaking := false; to_send := to_send t; raw := []; text := text t |})
  else match unseal (raw t) with
       | Some p => (true, with_in (partial (raw t)) (text t ++ p) t)
       | None => (false, t)
       end.

#[global] Instance toy_api : rustls_api session := {|
  wants_write t := negb (bool_decide (to_send t = []));
  wants_read t := true;
  is_handshaking := handshaking;
  write_tls w t := match w with
    | Wrote n => (Moved (Nat.min n (length (to_send t))), take n (to_send t), with_out (drop n (to_send t)) t)
    | WriteBlocked => (Blocks, [], t)
    | _ => (Fails, [], t)
    end;
  read_tls r t := match r with
    | Got bytes => (Moved (length bytes), with_in (raw t ++ bytes) (text t) t)
    | ReadBlocked => (Blocks, t)
    | ReadError => (Fails, t)
    end;
  process_new_packets := process;
  writer_write_all data t := (true, with_out (to_send t ++ seal data) t);
  reader_read n t :=
    if bool_decide (text t = []) then (PlainBlocks, t) else (Plain (take n (text t)), with_in (raw t) (drop n (text t)) t);
|}.

Definition expect (t : session) (c : list Z) : option (list Z) :=
  if handshaking t then None else (text t ++.) <$> unseal (raw t ++ c).

#[global] Instance toy_ok : rustls_ok session.
Proof.
  refine {| outgoing := to_send; pending := text; future := expect; opens := fun _ => unseal |}.
  - done.
  - done.
  - intros n t _. eexists. by split_and!.
  - intros data t _ _. exists (with_out (to_send t ++ seal data) t), (seal data). split_and!; try done. apply unseal_seal.
  - done.
  - intros bytes t _ _. eexists. split; [done|]. intros c. unfold expect. cbn. by rewrite <- app_assoc.
  - intros t p Hp. unfold expect in Hp. cbn [process_new_packets toy_api]. unfold process.
    destruct (handshaking t) eqn:Hh; [done|]. rewrite app_nil_r in Hp. destruct (unseal (raw t)) as [q|] eqn:E; [|done].
    cbn in Hp. injection Hp as <-. eexists. split_and!; [done|done|]. intros c. unfold expect. cbn. rewrite Hh, (unseal_app (raw t)), E.
    cbn. destruct (unseal (partial (raw t) ++ c)); [|done]. cbn. by rewrite app_assoc.
  - intros n t Ht _. cbn. by rewrite Ht.
  - intros n t Ht _. cbn. rewrite bool_decide_eq_false_2 by done. eexists. split_and!; [done|done|]. intros c.
    unfold expect. cbn. destruct (handshaking t); [done|]. destruct (unseal (raw t ++ c)); [|done]. cbn.
    by rewrite app_assoc, take_drop.
  - intros t c1 c2 p. unfold expect. destruct (handshaking t); [done|]. rewrite app_assoc, unseal_app.
    destruct (unseal (raw t ++ c1)) as [q|]; [|done]. cbn. destruct (unseal _); cbn; [|done]. intros [= <-].
    eexists _, _. split; [done|]. apply app_assoc.
Defined.

Definition fresh : session := {| handshaking := false; to_send := []; raw := []; text := [] |}.

End Toy.

(** A connection with its handshake, then a request answered in three reads, one of
    which ends within a record. *)
Example toy_connect :
  do_connect_tls
    {| opened := true; registered := true; connect_polls := [demo_poll false true]; Client.pending := Taken false;
       tls_made := true; handshake := Ok tt |}
    {| server_name_ok := true; new_session := Some (Toy.with_out [1; 2; 3]
         {| Toy.handshaking := true; Toy.to_send := []; Toy.raw := []; Toy.text := [] |});
       rounds := 4; hs_writes := [Wrote 2; WriteBlocked; Wrote 9]; hs_reads := [ReadBlocked; Got [2; 2]];
       hs_polls := [demo_poll true true] |}
    {| has_stream := false; state := Disconnected; tls := true |}
  = Some (Ok tt, {| has_stream := true; state := Connected; tls := true |}, Some Toy.fresh).
Proof. vm_compute. reflexivity. Qed.

Definition toy_client : LandClient :=
  {| conn := {| has_stream := true; state := Connected; tls := true |}; client_host := lit "localhost";
     Client.request_id := 0 |}.

Definition toy_writes : list write_result := [Wrote 40; WriteBlocked; Wrote 2000].
Definition toy_polls : list poll_result := demo_poll true false :: replicate 12 (demo_poll true true).
Definition toy_reads : list read_result :=
  [Got (take 1 (Toy.seal demo_reply)); ReadBlocked; Got (take 80 (drop 1 (Toy.seal demo_reply)));
   Got (drop 81 (Toy.seal demo_reply))].

Lemma tls_client_gets_answer_witness :
  exists records t',
    opens Toy.fresh records = Some (build_request base64_encode (lit "localhost") 1 (lit "Hello") 1 0) /\
    send_with_opts_tls base64_encode toy_writes toy_polls toy_reads (lit "Hello") send_options_default toy_client Toy.fresh
    = (Some (Ok 26, records, t'),
       {| conn := conn toy_client; client_host := lit "localhost"; Client.request_id := 1 |}).
Proof.
  refine (tls_client_gets_answer base64_encode toy_writes toy_polls toy_reads (lit "Hello") send_options_default
            toy_client Toy.fresh (demo_queued (lit "Hello")) demo_date false _ _ _ _ _ _ _ _ _ _ _ _ _ _).
  - reflexivity.
  - reflexivity.
  - apply Nat.leb_le. vm_compute. reflexivity.
  - vm_compute. reflexivity.
  - reflexivity.
  - reflexivity.
  - reflexivity.
  - vm_compute. reflexivity.
  - vm_compute. reflexivity.
  - apply Nat.leb_le. vm_compute. reflexivity.
  - vm_compute. reflexivity.
  - apply Nat.leb_le. vm_compute. reflexivity.
  - split; [by apply lit_chars_ok|]. split; intros c [= <-]; reflexivity.
  - split; [discriminate|reflexivity].
Defined.

(** A read that ends within a record is answered with [WouldBlock] although the
    socket has not blocked: the client then waits for an event of an edge-triggered
    poll. *)
Example partial_record_would_block : (recv_tls (Got [23]) [] Toy.fresh).1.1 = Err WouldBlock.
Proof. reflexivity. Qed.
