(* ===== verification/Worker.v ===== *)
(** * Worker: the server's worker over the QUIC sender

    [server/src/worker.rs]: the loop that takes requests from the queue, answers them
    and hands their transactions to [TransactionSender].  [Server] describes the
    worker by the events of one round ([Server.worker_round], whose [Transmit] stands
    for the whole sender); here the sender is the one of [Sender], and the theorem
    shows that the detailed worker implements the abstract one. *)
From S2P Require Import Prelude Conc Net Quic QuicModel Strategy Timing Endpoint EndpointSpec Sender SenderSpec.
From S2P Require Server Request Leader TxQueue SessionCache Startup.

Set Default Proof Using "Type".

Section worker.
Context {E B Value : Type} `{!endpoint_api E} `{!Leader.LeaderLookup B} (env : nat -> moment B).
Abbreviation QueuedRequest := (Server.QueuedRequest (Value := Value)).

(** The requests that wait in the channel and the responses sent so far stand for
    the two queues. *)
Record Worker : Type := {
  sender : TransactionSender E;
  request_rx : list (QueuedRequest);
  sent_responses : list Server.QueuedResponse;
  processed_count : Z;
}.

Definition worker_new (s : TransactionSender E) : Worker :=
  {| sender := s; request_rx := []; sent_responses := []; processed_count := 0 |}.

Definition on_sender {A} (m : M (TransactionSender E) A) : M Worker A := fun w =>
  let '(r, s) := m (sender w) in
  (r, {| sender := s; request_rx := request_rx w; sent_responses := sent_responses w;
         processed_count := processed_count w |}).

Definition send_response (r : Server.QueuedResponse) (w : Worker) : Worker :=
  {| sender := sender w; request_rx := request_rx w; sent_responses := sent_responses w ++ [r];
     processed_count := processed_count w |}.

(** The response is sent first; the outcome of the fanout is only logged. *)
Definition process_request (q : QueuedRequest) : M Worker unit :=
  let tx := Request.transaction (Server.q_request q) in
  if bool_decide (tx = []) then
    modify (send_response (Server.respond q (Err (Str.lit "Empty transaction"))))
  else
    modify (send_response (Server.respond q (Ok (Server.hex16 (Server.q_request_id q))))) ≫= fun _ =>
    attempt (on_sender (send_fanout env tx (Z.to_nat (Request.fanout (Server.q_request q))) send_options_default)) ≫= fun _ =>
    mret tt.

(** Requests that arrive, and the batch that is taken from them. *)
Definition enqueue (qs : list QueuedRequest) (w : Worker) : Worker :=
  {| sender := sender w; request_rx := request_rx w ++ qs; sent_responses := sent_responses w;
     processed_count := processed_count w |}.

(** Up to [n] calls of [try_recv], until one fails. *)
Fixpoint drain (n : nat) (rx : list (QueuedRequest))
    : list QueuedRequest * list QueuedRequest :=
  match n, rx with
  | S n, q :: rx => let '(batch, rest) := drain n rx in (q :: batch, rest)
  | _, _ => ([], rx)
  end.

Definition recv_batch (w : Worker) : list QueuedRequest * Worker :=
  let '(batch, rest) := drain Server.BATCH_SIZE (request_rx w) in
  (batch, {| sender := sender w; request_rx := rest; sent_responses := sent_responses w;
             processed_count := processed_count w |}).

Definition count_processed (n : nat) (w : Worker) : Worker :=
  {| sender := sender w; request_rx := request_rx w; sent_responses := sent_responses w;
     processed_count := wrapping_add64 (processed_count w) (Z.of_nat n) |}.

(** One iteration of [worker_loop], with the requests that arrive before its batch
    is complete. *)
Definition worker_iteration (arrivals : list QueuedRequest) : M Worker unit :=
  attempt (on_sender (sender_poll env)) ≫= fun _ =>
  modify (enqueue arrivals) ≫= fun _ =>
  batch ← (fun w => let '(batch, w) := recv_batch w in (inr (Ok batch), w));
  match batch with
  | [] => mret tt
  | _ => for_each batch process_request ≫= fun _ => modify (count_processed (length batch))
  end.

(** The iterations until the shutdown is seen. *)
Definition worker_loop (arrivals : list (list QueuedRequest)) : M Worker unit :=
  for_each arrivals worker_iteration.

End worker.
Arguments Worker : clear implicits.

(** ** The worker implements the server's *)

Section spec.
Context {E B Value : Type} `{!endpoint_api E} (ok : E -> Prop) `{!endpoint_laws E ok} `{!Leader.LeaderLookup B}.
Context (env : nat -> moment B).
Abbreviation QueuedRequest := (Server.QueuedRequest (Value := Value)).
Abbreviation Server := (Server.Server (Value := Value)).
Abbreviation W := (Worker E Value).
Implicit Types w : W.

(** The abstract worker: one round per batch of arrivals. *)
Fixpoint server_rounds (arrivals : list (list (QueuedRequest))) (st : Server)
    : list Server.event * Server :=
  match arrivals with
  | [] => ([], st)
  | qs :: arrivals =>
      let '(evs, st) := Server.worker_round (Server.with_queues (Server.requests st ++ qs) (Server.responses st) st) in
      let '(evs', st) := server_rounds arrivals st in
      (evs ++ evs', st)
  end.

(** What the sender does for an event of the abstract worker: the sends of one
    fanout. *)
Definition fans_out (port : TpuPort) (ev : Server.event (Value := Value)) (block : list call) : Prop :=
  match ev with
  | Server.Transmit _ tx fanout => exists r, fanout_post env tx (Z.to_nat fanout) port r block
  | _ => False
  end.

(** The queues agree, the sender is well formed and connects on demand, with the
    default port [port]. *)
Record simulates (port : TpuPort) (st : Server) w : Prop := {
  sim_requests : request_rx w = Server.requests st;
  sim_responses : sent_responses w = Server.responses st;
  sim_endpoint : ok (endpoint (sender w));
  sim_inline : inline_prewarm_config (sender w) = None;
  sim_port : sender_tpu_port (config (sender w)) = port;
}.

(** The calls made since [w0] are the blocks of the events and polls. *)
Definition implements (port : TpuPort) (evs : list Server.event) w0 w : Prop :=
  exists new blocks, calls (sender w) = calls (sender w0) ++ new /\
    sends_of new = concat (sends_of <$> blocks) /\ Forall2 (fans_out port) evs blocks.

Lemma implements_nil port w0 w new : calls (sender w) = calls (sender w0) ++ new -> sends_of new = [] ->
  implements port [] w0 w.
Proof. intros Hc Hn. by exists new, []. Qed.

Lemma implements_app port evs1 evs2 w0 w1 w2 :
  implements port evs1 w0 w1 -> implements port evs2 w1 w2 -> implements port (evs1 ++ evs2) w0 w2.
Proof.
  intros (n1 & b1 & Hc1 & Hs1 & H1) (n2 & b2 & Hc2 & Hs2 & H2). exists (n1 ++ n2), (b1 ++ b2).
  rewrite Hc2, Hc1, sends_of_app, Hs1, Hs2, fmap_app, concat_app, app_assoc. split_and!; try done. by apply Forall2_app.
Qed.

Lemma drain_take n (rx : list (QueuedRequest)) : drain n rx = (take n rx, drop n rx).
Proof. revert rx. induction n as [|n IH]; intros [|q rx]; try done. cbn [drain]. by rewrite IH. Qed.

Lemma safe_on_sender {A} (m : M (TransactionSender E) A) w (Q : Result A Error.t -> W -> Prop) :
  safe m (sender w) (fun r s => Q r {| sender := s; request_rx := request_rx w; sent_responses := sent_responses w;
                                       processed_count := processed_count w |}) ->
  safe (on_sender m) w Q.
Proof. unfold safe, on_sender. by destruct (m (sender w)) as [[|] s]. Qed.

(** Polling: without an inline strategy only the endpoint is polled. *)
Lemma does_sender_poll s :
  ok (endpoint s) -> inline_prewarm_config s = None ->
  does ok (sender_poll env) s (fun _ new => sends_of new = []).
Proof using Type*.
  intros Hs Hi. unfold sender_poll. eapply does_bind; [by apply does_poll| |by intros x new ->].
  intros [] new s1 (Hs1 & _ & Hi1) ->. eapply (does_pure ok _ _ _ (fun c => c = None)).
  - eapply does_mono; [apply (does_ret_gets ok s1 _ None); [done|congruence]|]. done.
  - intros c s2 [Hs2 _] ->. by apply does_ret.
Qed.

Lemma process_request_sim port q st w :
  simulates port st w ->
  safe (process_request env q) w (fun r w' => r = Ok tt /\ implements port (Server.process_request q).2 w w' /\
    simulates port (Server.with_queues (Server.requests st) (Server.responses st ++ [(Server.process_request q).1]) st) w').
Proof using Type*.
  intros [Hq Hr Hok Hin Hp]. unfold process_request, Server.process_request. case_bool_decide as Ht.
  { split; [done|]. split; [by eapply (implements_nil _ _ _ []); cbn; rewrite ?app_nil_r|].
    split; cbn; try done. by rewrite Hr. }
  apply safe_bind. cbn [safe modify]. apply safe_bind, safe_attempt, safe_on_sender. cbn [sender send_response].
  eapply safe_mono; [by apply (does_fanout ok)|]. intros r s ((Hok' & Hc & Hi) & new & Hnew & Hpost).
  split; [done|]. cbn [snd fst]. split.
  - exists new, [new]. cbn. rewrite app_nil_r. split_and!; try done. constructor; [|done]. exists r. subst port. exact Hpost.
  - split; cbn; try done; congruence.
Qed.

Lemma batch_sim port batch : forall st w, simulates port st w ->
  safe (for_each batch (process_request env)) w (fun r w' => r = Ok tt /\
    implements port ((Server.process_request <$> batch) ≫= snd) w w' /\
    simulates port (Server.with_queues (Server.requests st)
                      (Server.responses st ++ (Server.process_request <$> batch).*1) st) w').
Proof using Type*.
  induction batch as [|q batch IH]; intros st w Hsim.
  { split; [done|]. split; [by eapply (implements_nil _ _ _ []); rewrite ?app_nil_r|].
    destruct Hsim. split; cbn; rewrite ?app_nil_r; done. }
  cbn [for_each]. apply safe_bind. eapply safe_mono; [by apply process_request_sim|]. intros r w1 (-> & Hi & Hs).
  eapply safe_mono; [by apply (IH _ w1 Hs)|]. intros r w2 (-> & Hi2 & Hs2). split; [done|].
  rewrite fmap_cons, bind_cons. split; [by eapply implements_app|].
  destruct Hs2. split; try done. cbn in *. by rewrite <- app_assoc in *.
Qed.

Lemma iteration_sim port qs st w :
  simulates port st w ->
  let '(evs, st') := Server.worker_round (Server.with_queues (Server.requests st ++ qs) (Server.responses st) st) in
  safe (worker_iteration env qs) w (fun r w' => r = Ok tt /\ implements port evs w w' /\ simulates port st' w').
Proof using Type*.
  intros [Hq Hr Hok Hin Hp]. unfold Server.worker_round, Server.worker_take.
  cbn [Server.with_queues Server.requests].
  cbn [Server.requests Server.responses]. unfold worker_iteration.
  apply safe_bind, safe_attempt, safe_on_sender. eapply safe_mono; [by apply does_sender_poll|].
  intros r s ((Hok' & Hc & Hi) & new & Hnew & Hsends). apply safe_bind. cbn [safe modify enqueue].
  apply safe_bind. unfold safe at 1, recv_batch. cbn [request_rx enqueue sender sent_responses processed_count].
  rewrite drain_take.
  set (batch := take Server.BATCH_SIZE _). set (rest := drop Server.BATCH_SIZE _).
  set (w1 := {| sender := s; request_rx := rest; sent_responses := _; processed_count := _ |}).
  assert (Hw1 : implements port [] w w1) by (by eapply implements_nil).
  assert (Hs1 : simulates port (Server.with_queues rest (Server.responses st) st) w1).
  { split; cbn; try done; congruence. }
  assert (Hb : take Server.BATCH_SIZE (Server.requests st ++ qs) = batch) by (unfold batch; by rewrite Hq).
  assert (Hd : drop Server.BATCH_SIZE (Server.requests st ++ qs) = rest) by (unfold rest; by rewrite Hq).
  rewrite Hb, Hd. clearbody batch rest. destruct batch as [|q batch].
  { split; [done|]. split; [done|]. cbn. by rewrite app_nil_r. }
  apply safe_bind. eapply safe_mono; [exact (batch_sim port (q :: batch) _ w1 Hs1)|].
  intros r' w2 (-> & Hi2 & [? ? ? ? ?]). split; [done|]. split; [|by split].
  change (implements port ([] ++ ((Server.process_request <$> q :: batch) ≫= snd)) w
            (count_processed (length (q :: batch)) w2)). eapply implements_app; [exact Hw1|].
  destruct Hi2 as (n & bl & Hi2). by exists n, bl.
Qed.

Lemma worker_loop_sim port arrivals st w :
  simulates port st w ->
  let '(evs, st') := server_rounds arrivals st in
  safe (worker_loop env arrivals) w (fun r w' => r = Ok tt /\ implements port evs w w' /\ simulates port st' w').
Proof using Type*.
  revert st w. induction arrivals as [|qs arrivals IH]; intros st w Hsim.
  { split; [done|]. split; [|done]. by eapply (implements_nil _ _ _ []); rewrite ?app_nil_r. }
  cbn [server_rounds]. pose proof (iteration_sim port qs st w Hsim) as H1.
  destruct (Server.worker_round _) as [evs st1]. destruct (server_rounds arrivals st1) as [evs' st2] eqn:Er.
  unfold worker_loop. cbn [for_each]. apply safe_bind. eapply safe_mono; [exact H1|]. intros r w1 (-> & Hi & Hs).
  specialize (IH st1 w1 Hs). rewrite Er in IH. eapply safe_mono; [exact IH|]. intros r w2 (-> & Hi2 & Hs2).
  split; [done|]. split; [|done]. by eapply implements_app.
Qed.


End spec.

(** Two iterations: a transaction for two leaders and an empty one arrive, then
    nothing. *)
Definition demo_request (id : Z) (tx : list Z) : Server.QueuedRequest (Value := unit) :=
  {| Server.q_request_id := id; Server.q_token := 1;
     Server.q_request := {| Request.request_id := tt; Request.transaction := tx; Request.fanout := 2;
                            Request.target_slot := 0; Request.neighbor_fanout := None |} |}.

(** The sender connects on demand, as in [main]. *)
Definition jit_sender : TransactionSender (QuicEndpoint (Q := model_conn) (N := model_net)) :=
  (sender_new (endpoint_api0 := quic_endpoint_api false)
     {| strategy := adaptive_jit Single adaptive_default; sender_tpu_port := Main;
        quic_config := quic_config sender_config_default |} (endpoint_new [] None)).1.

Lemma jit_sender_ok : endpoint_ok (endpoint jit_sender).
Proof. apply set_adaptive_ok; [apply TimingSpec.adaptive_default_sane|by apply endpoint_new_ok]. Qed.

Definition demo_run : (fault + Result unit Error.t) * Worker (QuicEndpoint (Q := model_conn) (N := model_net)) unit :=
  worker_loop (endpoint_api0 := quic_endpoint_api false) (demo_moment demo_buffer)
    [[demo_request 1 [7]; demo_request 2 []]; []] (worker_new jit_sender).


(** The worker that [main] starts, with the sender it builds, is in the relation:
    the theorem above applies to it from the start. *)
Lemma main_worker_related {Q N Value} `{!quiche_api Q} `{!udp_api N} (c : Startup.Config) (n : N) cache :
  (forall x, cache = Some x -> SessionCache.cache_shape x) ->
  let s := (sender_new (endpoint_api0 := quic_endpoint_api false) (Startup.main_sender c) (endpoint_new (Q := Q) n cache)).1 in
  simulates (Value := Value) endpoint_ok (sender_tpu_port (config s)) Server.server_new (worker_new s).
Proof.
  intros Hc s. pose proof (set_adaptive_ok _ _ Startup.main_adaptive_sane (endpoint_new_ok (Q := Q) n cache Hc)). by split.
Qed.
