(* ===== verification/Batch.v ===== *)
(** * Batch: the worker's array of uninitialised requests

    The loop of [server/src/worker.rs] keeps its batch in an array of
    [MaybeUninit<QueuedRequest>]: requests are written into it, referred to ahead of
    time for prefetching, and read out by value.  [Worker] has a list instead.  Here
    is the loop with the array; a reference to a slot without a live value is
    [UndefinedBehaviour].  [batch_array_is_list] shows that the two are equal. *)
From S2P Require Import Prelude Conc Net Quic QuicModel Strategy Timing Endpoint EndpointSpec Sender SenderSpec Worker.
From S2P Require Import RingBuffer.
From S2P Require Server Request Leader.

Set Default Proof Using "Type".

(** How many requests ahead the loop prefetches. *)
Definition PREFETCH_DISTANCE : nat := 8.

Section batch.
Context {E B Value : Type} `{!endpoint_api E} `{!Leader.LeaderLookup B} (env : nat -> moment B).
Abbreviation QueuedRequest := (Server.QueuedRequest (Value := Value)).
Abbreviation W := (Worker E Value).
Abbreviation batch := (list (slot QueuedRequest)).
Implicit Types (w : W) (b : batch).

(** ** The loop *)

Definition batch_uninit : batch := replicate Server.BATCH_SIZE Uninit.

(** [batch[i].assume_init_ref()]: the index is checked, the slot is not. *)
Definition assume_init_ref (b : batch) (i : nat) : M W QueuedRequest :=
  match b !! i with
  | Some (Live q) => mret q
  | Some _ => panic (UndefinedBehaviour uninit_msg)
  | None => panic (Panic "index out of bounds")
  end.

(** [batch[i].assume_init_read()]: the value is moved out. *)
Definition assume_init_read (b : batch) (i : nat) : M W (QueuedRequest * batch) :=
  q ← assume_init_ref b i; mret (q, <[i := Moved q]> b).

Definition try_recv : M W (option QueuedRequest) := fun w =>
  match request_rx w with
  | [] => (inr (Ok None), w)
  | q :: rx => (inr (Ok (Some q)), {| sender := sender w; request_rx := rx; sent_responses := sent_responses w;
                                      processed_count := processed_count w |})
  end.

(** [while count < BATCH_SIZE]; the fuel is [BATCH_SIZE]. *)
Fixpoint fill (fuel count : nat) (b : batch) : M W (nat * batch) :=
  match fuel with
  | 0%nat => mret (count, b)
  | S fuel =>
      if (count <? Server.BATCH_SIZE)%nat then
        o ← try_recv;
        match o with
        | Some q => fill fuel (S count) (<[count := Live q]> b)
        | None => mret (count, b)
        end
      else mret (count, b)
  end.

(** The reference is to a request further on; prefetching has no other effect. *)
Definition prefetch (i count : nat) (b : batch) : M W unit :=
  if (i + PREFETCH_DISTANCE <? count)%nat then
    future_req ← assume_init_ref b (i + PREFETCH_DISTANCE); mret tt
  else mret tt.

(** [for i in 0..count], from [i] on; [n] more requests. *)
Fixpoint pass (n i count : nat) (b : batch) : M W batch :=
  match n with
  | 0%nat => mret b
  | S n =>
      prefetch i count b ≫= fun _ =>
      p ← assume_init_read b i;
      process_request env p.1 ≫= fun _ => pass n (S i) count p.2
  end.

Definition array_iteration (arrivals : list QueuedRequest) (b : batch) : M W batch :=
  attempt (on_sender (sender_poll env)) ≫= fun _ =>
  modify (enqueue arrivals) ≫= fun _ =>
  p ← fill Server.BATCH_SIZE 0 b;
  if (p.1 =? 0)%nat then mret p.2
  else b ← pass p.1 0 p.1 p.2; modify (count_processed p.1) ≫= fun _ => mret b.

Fixpoint array_loop (arrivals : list (list QueuedRequest)) (b : batch) : M W unit :=
  match arrivals with
  | [] => mret tt
  | qs :: arrivals => b ← array_iteration qs b; array_loop arrivals b
  end.

(** ** Which slots are live *)

(** The slots from [i] on hold [batch], and no other slot is live. *)
Record holds (b : batch) (i : nat) (reqs : list QueuedRequest) : Prop := {
  holds_live k q : reqs !! k = Some q -> b !! (i + k)%nat = Some (Live q);
  holds_only k q : b !! k = Some (Live q) -> (i <= k < i + length reqs)%nat;
  holds_length : length b = Server.BATCH_SIZE;
}.

Lemma holds_none i b j : holds b i [] -> holds b j [].
Proof. intros [H1 H2 H3]. split; [done| |done]. intros k q Hk. pose proof (H2 k q Hk). simpl in *. lia. Qed.

Lemma holds_write b reqs q :
  holds b 0 reqs -> (length reqs < Server.BATCH_SIZE)%nat -> holds (<[length reqs := Live q]> b) 0 (reqs ++ [q]).
Proof.
  intros [H1 H2 H3] Hl. split.
  - intros k q' [Hk|[Hk Hq]]%lookup_app_Some.
    + rewrite list_lookup_insert_ne; [by apply H1|]. apply lookup_lt_Some in Hk. simpl. lia.
    + apply list_lookup_singleton_Some in Hq as [Hk0 ->]. assert (k = length reqs) as -> by lia.
      apply list_lookup_insert_eq. lia.
  - intros k q' Hk. rewrite length_app. simpl. destruct (decide (k = length reqs)) as [->|Hne]; [lia|].
    rewrite list_lookup_insert_ne in Hk by done. pose proof (H2 k q' Hk). lia.
  - by rewrite length_insert.
Qed.

Lemma holds_read b i q reqs : holds b i (q :: reqs) -> holds (<[i := Moved q]> b) (S i) reqs.
Proof.
  intros [H1 H2 H3]. split.
  - intros k q' Hk. rewrite list_lookup_insert_ne by lia. rewrite <- (H1 (S k) q' Hk). f_equal. lia.
  - intros k q' Hk. destruct (decide (k = i)) as [->|Hne].
    + destruct (Nat.lt_ge_cases i (length b)); [by rewrite list_lookup_insert_eq in Hk|].
      rewrite list_insert_ge in Hk by done. by rewrite lookup_ge_None_2 in Hk.
    + rewrite list_lookup_insert_ne in Hk by done. pose proof (H2 k q' Hk). simpl in *. lia.
  - by rewrite length_insert.
Qed.

Lemma holds_uninit : holds batch_uninit 0 [].
Proof. split; [done| |done]. by intros k q [? _]%lookup_replicate. Qed.

(** ** The two halves of an iteration *)

Lemma fill_run fuel reqs b w :
  holds b 0 reqs -> (length reqs + fuel = Server.BATCH_SIZE)%nat ->
  exists b', holds b' 0 (reqs ++ (drain fuel (request_rx w)).1) /\
    fill fuel (length reqs) b w = (inr (Ok ((length reqs + length (drain fuel (request_rx w)).1)%nat, b')),
      {| sender := sender w; request_rx := (drain fuel (request_rx w)).2; sent_responses := sent_responses w;
         processed_count := processed_count w |}).
Proof.
  revert reqs b w. induction fuel as [|fuel IH]; intros reqs b w Hh Hl; cbn [fill drain].
  - exists b. rewrite app_nil_r. simpl. rewrite Nat.add_0_r. by destruct w.
  - rewrite (proj2 (Nat.ltb_lt _ _)) by lia. destruct w as [s [|q rx] r c]; cbn [request_rx].
    + exists b. rewrite app_nil_r. simpl. by rewrite Nat.add_0_r.
    + set (w' := {| sender := s; request_rx := rx; sent_responses := r; processed_count := c |}).
      destruct (IH (reqs ++ [q]) (<[length reqs := Live q]> b) w' (holds_write b reqs q Hh ltac:(lia))) as (b' & Hb' & Hf).
      { rewrite length_app. simpl. lia. }
      exists b'. cbn [request_rx w'] in *. destruct (drain fuel rx) as [taken rest]. cbn [fst snd length] in *.
      rewrite <- app_assoc in Hb'. split; [exact Hb'|]. rewrite length_app in Hf. cbn [length] in Hf.
      rewrite Nat.add_1_r in Hf. rewrite Nat.add_succ_r. exact Hf.
Qed.

Lemma prefetch_run i reqs b w : holds b i reqs -> prefetch i (i + length reqs) b w = (inr (Ok tt), w).
Proof.
  intros Hh. unfold prefetch. destruct (Nat.ltb_spec (i + PREFETCH_DISTANCE) (i + length reqs)) as [Hlt|]; [|done].
  destruct (lookup_lt_is_Some_2 reqs PREFETCH_DISTANCE ltac:(lia)) as [q Hq].
  unfold assume_init_ref. by rewrite (holds_live _ _ _ Hh _ _ Hq).
Qed.

Lemma pass_run reqs : forall i b w, holds b i reqs ->
  exists b', holds b' 0 [] /\
    pass (length reqs) i (i + length reqs) b w = (for_each reqs (process_request env) ≫= fun _ => mret b') w.
Proof.
  induction reqs as [|q reqs IH]; intros i b w Hh; cbn [length pass for_each].
  { exists b. split; [by eapply holds_none|done]. }
  assert (Hw : forall w', exists b', holds b' 0 [] /\
    pass (length reqs) (S i) (i + S (length reqs)) (<[i := Moved q]> b) w'
    = (for_each reqs (process_request env) ≫= fun _ => mret b') w').
  { intros w'. destruct (IH (S i) _ w' (holds_read b i q reqs Hh)) as (b' & Hb' & Hp). exists b'. split; [done|].
    rewrite <- Hp. f_equal. lia. }
  assert (Hq : b !! i = Some (Live q)) by (rewrite <- (holds_live _ _ _ Hh 0%nat q eq_refl); f_equal; lia).
  pose proof (prefetch_run i (q :: reqs) b w Hh) as Hpre. cbn [length] in Hpre.
  unfold assume_init_read, assume_init_ref. rewrite Hq. unfold mbind, mret, M_bind, M_ret in *. rewrite Hpre. cbn [fst snd].
  destruct (process_request env q w) as [[f|[[]|e]] w'] eqn:Hproc.
  - exists batch_uninit. split; [exact holds_uninit|done].
  - destruct (Hw w') as (b' & Hb' & ->). by exists b'.
  - exists batch_uninit. split; [exact holds_uninit|done].
Qed.

(** An iteration leaves no live slot behind: no request is dropped twice or leaked. *)
Lemma array_iteration_run qs b w :
  holds b 0 [] -> exists b', holds b' 0 [] /\ array_iteration qs b w = (worker_iteration env qs ≫= fun _ => mret b') w.
Proof.
  intros Hh. unfold array_iteration, worker_iteration, attempt, on_sender, modify, mbind, mret, M_bind, M_ret.
  destruct (sender_poll env (sender w)) as [[f|r] s]; cbn [fst snd].
  { exists b. by split. }
  set (w1 := enqueue qs _). destruct (fill_run Server.BATCH_SIZE [] b w1 Hh eq_refl) as (b1 & Hb1 & Hf). cbn [length app Nat.add] in *.
  rewrite Hf. unfold recv_batch. destruct (drain Server.BATCH_SIZE (request_rx w1)) as [taken rest]. cbn [fst snd].
  set (w2 := {| sender := sender w1; request_rx := rest; sent_responses := _; processed_count := _ |}).
  destruct taken as [|q taken]; [by exists b1|]. cbn [length Nat.eqb].
  destruct (pass_run (q :: taken) 0 b1 w2 Hb1) as (b2 & Hb2 & Hp). cbn [length Nat.add] in Hp. rewrite Hp.
  exists b2. split; [done|]. unfold mbind, mret, M_bind, M_ret.
  by destruct (for_each (q :: taken) (process_request env) w2) as [[f|[]] w3].
Qed.

Lemma array_loop_run arrivals : forall b w, holds b 0 [] -> array_loop arrivals b w = worker_loop env arrivals w.
Proof.
  induction arrivals as [|qs arrivals IH]; intros b w Hh; [done|]. unfold worker_loop. cbn [array_loop for_each].
  destruct (array_iteration_run qs b w Hh) as (b' & Hb' & Hi). unfold mbind, mret, M_bind, M_ret in *. rewrite Hi.
  destruct (worker_iteration env qs w) as [[f|[[]|e]] w']; [done| |done]. by apply IH.
Qed.

(** C18. The array of uninitialised slots is a list.  Over any iterations, with any
    sender and whatever arrives, the loop with the array does exactly what the loop
    with a list of requests does: every request is read out of its slot once and in
    order, the references that are taken for prefetching are to slots whose request
    has not been read yet, and no slot is read uninitialised or a second time. *)
Theorem batch_array_is_list arrivals w : array_loop arrivals batch_uninit w = worker_loop env arrivals w.
Proof. apply array_loop_run, holds_uninit. Qed.

End batch.

(** The program with the array runs without a fault where the endpoint keeps its laws. *)
Lemma array_loop_safe {E B Value : Type} `{!endpoint_api E} (ok : E -> Prop) `{!endpoint_laws E ok} `{!Leader.LeaderLookup B}
    (env : nat -> moment B) port arrivals st (w : Worker E Value) :
  simulates ok port st w ->
  safe (array_loop env arrivals batch_uninit) w (fun r w' => r = Ok tt /\
    simulates ok port (server_rounds arrivals st).2 w').
Proof.
  intros Hsim. unfold safe. rewrite array_loop_run by exact holds_uninit. pose proof (worker_loop_sim ok env port arrivals st w Hsim) as Hrun.
  destruct (server_rounds arrivals st) as [evs st']. eapply safe_mono; [exact Hrun|]. by intros r w' (-> & _ & Hs).
Qed.
