(* ===== verification/QuicClient.v ===== *)
(** * QuicClient: opening an endpoint, and the client around it

    [QuicEndpoint::new] and [configure_socket] of [quic/src/endpoint.rs], its busy
    loops, and [QuicClient] of [quic/src/lib.rs]; how the program ends with a keypair
    file that is refused.  What the kernel answers to [bind]
    and [local_addr] is an argument; the files and the quiche configuration are those
    of [Tls]. *)
From S2P Require Import Prelude Conc Net Quic QuicModel Strategy Endpoint EndpointSpec Tls TlsSpec.
From S2P Require Pool TxQueue SessionCache Dirty Str Addr Sender Startup.

(** ** The socket *)

Inductive level : Type := SOL_SOCKET | IPPROTO_IP.
Inductive socket_option : Type :=
| SO_REUSEADDR | SO_REUSEPORT | SO_BUSY_POLL | SO_BUSY_POLL_BUDGET | IP_TOS | SO_PRIORITY | SO_RCVLOWAT
| SO_INCOMING_CPU | IP_MTU_DISCOVER | SO_RCVBUF | SO_SNDBUF | SO_ZEROCOPY | SO_TIMESTAMPING.

Definition IP_PMTUDISC_DO : Z := 2.

Definition ts_flags : Z := Z.lor (Z.lor (Z.shiftl 1 2) (Z.shiftl 1 3)) (Z.shiftl 1 6).

(** The calls of [setsockopt], in order; their results are not looked at.  [cpu] is
    the answer of [sched_getcpu]. *)
Definition configure_socket (cpu : Z) : list (level * socket_option * Z) :=
  [(SOL_SOCKET, SO_REUSEADDR, 1); (SOL_SOCKET, SO_REUSEPORT, 1); (SOL_SOCKET, SO_BUSY_POLL, 50);
   (SOL_SOCKET, SO_BUSY_POLL_BUDGET, 8); (IPPROTO_IP, IP_TOS, 184); (SOL_SOCKET, SO_PRIORITY, 6);
   (SOL_SOCKET, SO_RCVLOWAT, 1)] ++
  (if 0 <=? cpu then [(SOL_SOCKET, SO_INCOMING_CPU, cpu)] else []) ++
  [(IPPROTO_IP, IP_MTU_DISCOVER, IP_PMTUDISC_DO); (SOL_SOCKET, SO_RCVBUF, 512 * 1024);
   (SOL_SOCKET, SO_SNDBUF, 512 * 1024); (SOL_SOCKET, SO_ZEROCOPY, 1); (SOL_SOCKET, SO_TIMESTAMPING, ts_flags)].

Section client.
Context {C : Type} `{quic_config_api C} (from_pkcs8 : list Z -> option (list Z)).
Context (outcome : string -> write_outcome) (removable : string -> bool).
Context {Q N : Type} `{!quiche_api Q} `{!udp_api N} (avx2 : bool).
Abbreviation QuicEndpoint := (QuicEndpoint (Q := Q) (N := N)).

(** [QuicEndpoint::new]: [bound] is the socket, if [bind] succeeds; [named]: it has a
    local address.  The configuration of quiche goes with the endpoint. *)
Definition endpoint_open (bound : option N) (named : bool) (cpu : Z) (generated : option (list Z))
    (config : Strategy.Config) (cache : option SessionCache.SessionTokenCache)
    : M Files (C * list (level * socket_option * Z) * QuicEndpoint) :=
  match bound with
  | None => fail Error.Io
  | Some s =>
      if negb named then fail Error.Io
      else
        quic_config ← create_quic_config from_pkcs8 outcome removable generated config;
        mret (quic_config, configure_socket cpu, endpoint_new s cache)
  end.

(** [QuicClient]; its session cache is the one of the endpoint. *)
Record QuicClient : Type := { client_endpoint : QuicEndpoint; client_config : Strategy.Config }.

Definition with_bind_addr (bound : option N) (named : bool) (cpu : Z) (generated : option (list Z))
    (config : Strategy.Config) : M Files QuicClient :=
  '(_, e) ← endpoint_open bound named cpu generated config (Some SessionCache.cache_new);
  mret {| client_endpoint := e; client_config := config |}.

Definition on_client {A} (m : M QuicEndpoint A) : M QuicClient A := fun c =>
  let '(r, e) := m (client_endpoint c) in (r, {| client_endpoint := e; client_config := client_config c |}).

Definition client_connect (now_ns end_ns : Z) (a : SocketAddr) (rs : list round) : M QuicClient unit :=
  on_client (connect_blocking avx2 now_ns end_ns a rs) ≫= fun _ => mret tt.

Definition client_send (now_ns : Z) (a : SocketAddr) (data : list Z) : M QuicClient unit :=
  st ← on_client (send avx2 now_ns a data);
  match st with
  | TxQueue.Sent | TxQueue.SentEarlyData | TxQueue.Queued _ => mret tt
  | TxQueue.QueueFull => fail Error.WouldBlock
  | TxQueue.Dead retries => fail (Error.Dead retries)
  end.

Definition client_poll (now_ns : Z) (packets : list (list Z * SocketAddr)) (io_error : bool) : M QuicClient unit :=
  on_client (poll avx2 now_ns packets io_error).

(** One iteration of [run_loop] and [run_tight_loop]: the poll, whose result is
    dropped, and the callback, a sequence of operations of the endpoint. *)
Definition loop_iteration (now_ns : Z) (packets : list (list Z * SocketAddr)) (io_error : bool)
    (callback : list operation) : M QuicEndpoint unit :=
  attempt (poll avx2 now_ns packets io_error) ≫= fun _ => for_each callback (perform avx2).

Definition run_loop (iterations : list (Z * list (list Z * SocketAddr) * bool * list operation)) : M QuicEndpoint unit :=
  for_each iterations (fun '(now_ns, packets, io_error, callback) => loop_iteration now_ns packets io_error callback).

(** ** What can be done with a client *)

Inductive client_call : Type :=
| ClientConnect (now_ns end_ns : Z) (a : SocketAddr) (rs : list round)
| ClientSend (now_ns : Z) (a : SocketAddr) (data : list Z)
| ClientPoll (now_ns : Z) (packets : list (list Z * SocketAddr)) (io_error : bool)
| ClientRun (iterations : list (Z * list (list Z * SocketAddr) * bool * list operation)).

Definition client_do (c : client_call) : M QuicClient (Result unit Error.t) :=
  attempt (match c with
           | ClientConnect now_ns end_ns a rs => client_connect now_ns end_ns a rs
           | ClientSend now_ns a data => client_send now_ns a data
           | ClientPoll now_ns packets io_error => client_poll now_ns packets io_error
           | ClientRun iterations => on_client (run_loop iterations)
           end).

Fixpoint client_session (cs : list client_call) : M QuicClient (list (Result unit Error.t)) :=
  match cs with
  | [] => mret []
  | c :: cs => r ← client_do c; rs ← client_session cs; mret (r :: rs)
  end.

Definition client_ok (c : QuicClient) : Prop := endpoint_ok (client_endpoint c).

(** A client that could be opened is well formed. *)
Lemma with_bind_addr_ok bound named cpu generated config files c files' :
  with_bind_addr bound named cpu generated config files = (inr (Ok c), files') ->
  client_ok c /\ session_cache (client_endpoint c) = Some SessionCache.cache_new.
Proof.
  unfold with_bind_addr, endpoint_open. destruct bound as [s|]; [|done]. destruct named; [|done]. cbn [negb].
  unfold mbind, M_bind. destruct (create_quic_config _ _ _ _ _ files) as [[|[]] files1]; try done.
  intros [= <- <-]. split; [|done]. apply endpoint_new_ok. intros x [= <-]. apply SessionCache.cache_new_shape.
Qed.

Lemma safe_on_client {A} (m : M QuicEndpoint A) c :
  keeps m (fun _ => True) -> client_ok c -> safe (on_client m) c (fun _ c' => client_ok c').
Proof.
  intros Hm Hc. specialize (Hm _ Hc). revert Hm. unfold safe, on_client.
  destruct (m (client_endpoint c)) as [[|r] e]; [done|]. by intros [? _].
Qed.

(** The callbacks set configurations the lookahead can be computed with. *)
Definition iteration_ok (i : Z * list (list Z * SocketAddr) * bool * list operation) : Prop := Forall operation_ok i.2.
Definition call_ok (c : client_call) : Prop :=
  match c with ClientRun iterations => Forall iteration_ok iterations | _ => True end.

Lemma keeps_run_loop iterations : Forall iteration_ok iterations -> keeps (run_loop iterations) (fun _ => True).
Proof.
  intros Hok. apply keeps_for_each. intros [[[now packets] io] callback] Hi. unfold loop_iteration. apply keeps_seq.
  - eapply keeps_weaken; [apply keeps_attempt, keeps_poll|done].
  - intros _. apply keeps_for_each. intros o Ho. apply keeps_perform.
    rewrite Forall_forall in Hok. by eapply (proj1 (Forall_forall _ _) (Hok _ Hi)).
Qed.

Lemma client_do_safe call c :
  call_ok call -> client_ok c -> safe (client_do call) c (fun r c' => (exists v, r = Ok v) /\ client_ok c').
Proof.
  intros Hcall Hc. apply safe_attempt.
  enough (Hs : safe (match call with
    | ClientConnect now_ns end_ns a rs => client_connect now_ns end_ns a rs
    | ClientSend now_ns a data => client_send now_ns a data
    | ClientPoll now_ns packets io_error => client_poll now_ns packets io_error
    | ClientRun iterations => on_client (run_loop iterations)
    end) c (fun _ c' => client_ok c')).
  { eapply safe_mono; [exact Hs|]. intros r c' Hc'. split; [by eexists|done]. }
  destruct call.
  - apply safe_bind. eapply safe_mono; [apply safe_on_client; [apply keeps_connect_blocking|done]|]. by intros [] c' Hc'.
  - apply safe_bind. eapply safe_mono; [apply safe_on_client; [apply keeps_send|done]|]. by intros [[]|] c' Hc'.
  - apply safe_on_client; [apply keeps_poll|done].
  - apply safe_on_client; [by apply keeps_run_loop|done].
Qed.

(** A client that could be opened never panics, whatever it is asked to do (with configurations
    the lookahead can be computed with): every
    call returns, and the endpoint stays well formed. *)
Theorem client_never_panics bound named cpu generated config files c files' cs :
  with_bind_addr bound named cpu generated config files = (inr (Ok c), files') -> Forall call_ok cs ->
  safe (client_session cs) c (fun r c' => (exists rs, r = Ok rs /\ length rs = length cs) /\ client_ok c').
Proof.
  intros [Hc _]%with_bind_addr_ok Hcs. revert c Hc. induction Hcs as [|call cs Hcall Hcs IH]; intros c Hc; cbn [client_session].
  { split; [by exists []|done]. }
  apply safe_bind. eapply safe_mono; [by apply client_do_safe|]. intros r c1 [[v ->] Hc1].
  apply safe_bind. eapply safe_mono; [by apply IH|]. intros r c2 [(rs & -> & Hl) Hc2].
  split; [|done]. exists (v :: rs). split; [done|]. cbn. by rewrite Hl.
Qed.

(** ** Where the sender of [main] gets its endpoint from *)

(** [QuicEndpoint::new] as [main] sees it. *)
Definition open_in (bound : SocketAddr -> option N) (named : bool) (cpu : Z) (generated : option (list Z)) (files : Files)
    (addr : SocketAddr) (config : Strategy.Config) : fault + Result QuicEndpoint Error.t :=
  match (endpoint_open (bound addr) named cpu generated config (Some SessionCache.cache_new) files).1 with
  | inr (Ok (_, _, e)) => inr (Ok e)
  | inr (Err x) => inr (Err x)
  | inl f => inl f
  end.

(** With a keypair file that is missing or in none of the three formats the program
    panics, once the tracker has started. *)
Theorem bad_keypair_stops bound named cpu generated files tracker_starts m args env addr path :
  Addr.parse_socket_addr (Str.lit (default "127.0.0.1:8080"%string (Startup.setting args env "--http" "HTTP_ADDR"))) = Some addr ->
  Startup.setting args env "--keypair" "KEYPAIR_PATH" = Some path ->
  (files !! path = None \/ exists data, files !! path = Some data /\ parse_keypair data = Ok None) ->
  (forall c, tracker_starts c = true) ->
  Startup.startup (api := Sender.quic_endpoint_api avx2) tracker_starts (open_in bound named cpu generated files) m args env
  = Err (Startup.Panicked (Panic "failed to create sender")).
Proof.
  intros Ha Hk Hf Ht. destruct (Startup.parse_config_run m args env addr Ha) as (c & Hc & _ & _ & Hck & _).
  unfold Startup.startup, Startup.create_sender. rewrite Hc, Ht. cbn [negb].
  enough (exists x, open_in bound named cpu generated files (Startup.quic_bind_addr (Startup.quic c))
    (Sender.quic_config (Startup.main_sender c)) = inr (Err x)) as [x ->] by done.
  unfold open_in, endpoint_open. destruct (bound _); [|by eexists]. destruct named; [|by eexists]. cbn [negb].
  unfold create_quic_config. replace (staked_identity _) with (Some path) by (cbn; by rewrite Hck, Hk).
  unfold mbind, M_bind. destruct c_new as [c1|]; [|by eexists]. cbn.
  destruct (c_set_application_protos _ c1) as [c2|]; [|by eexists]. cbn.
  unfold load_client_cert, load, fs_read, mbind, M_bind. destruct Hf as [->|(data & -> & Hp)]; [by eexists|].
  rewrite Hp. by eexists.
Qed.

End client.
Arguments QuicClient : clear implicits.
