(* ===== verification/Service.v ===== *)
(** * Service: the server with its two threads

    [run_with_sender] of [server/src/server.rs] as one program: the event loop with
    its listener, the worker thread it starts, the two bounded queues between them
    and the shutdown flag.  The handlers are those of [Server]; here they are put in
    the order of the code, and a send into a full queue waits.  One input is one step
    of one of the threads, or an answer of the system to it; [service_step] is [None]
    when the step cannot happen.

    The event loop and the worker share only queues and flags, so that the handler of
    one event is one step; a handler that has to wait for room in the request queue
    has not begun.

    The queues are bounded FIFOs here.  The program has an SPSC channel for the
    requests and an MPSC channel for the responses; that these are such queues is
    what [SpscFifo] and [MpscQueue] prove, the latter only for sizes that are a
    multiple of 64 (see [MpscFaults] for smaller ones, which [validate] accepts).  So
    the service is modelled for the sizes of [sound_capacity], which include the
    default of 4096. *)
From S2P Require Import Prelude Str Request Http Server ServerSpec ServerRun.
From S2P Require Conc RingBuffer Spsc SpscFifo Mpsc MpscQueue.

Set Default Proof Using "Type".

(** The sizes for which both channels are bounded FIFO queues: a power of two that
    fills the words of the MPSC bitmap. *)
Definition sound_capacity (n : nat) : bool :=
  RingBuffer.is_power_of_two (Z.of_nat n) && (64 <=? n)%nat && (Z.of_nat n <? 2 ^ 63).

(** For these sizes [create_request_queue] and [create_response_queue] make channels
    to which [SpscFifo] and [MpscQueue] apply, with any number of clones of the
    handle of the response queue. *)
Lemma sound_capacity_channels {T U} n :
  sound_capacity n = true ->
  (exists st, Spsc.channel (T := T) (Z.of_nat n) = Ok st /\ SpscFifo.started (Z.of_nat n) false st) /\
  (exists s h c, Mpsc.channel (T := U) (Z.of_nat n) = Ok (s, h, c) /\ forall hs s',
     Conc.run (MpscQueue.clone_handles (length hs)) s = ([], s', inr hs) ->
     MpscQueue.started (Z.of_nat n / 64) s' (h :: hs) c).
Proof.
  unfold sound_capacity. rewrite !andb_true_iff, Nat.leb_le, Z.ltb_lt. intros [[Hp H64] Hb].
  assert (Hmul : 64 * (Z.of_nat n / 64) = Z.of_nat n).
  { pose proof (proj1 (RingBuffer.is_power_of_two_spec (Z.of_nat n) ltac:(lia)) Hp) as Hpow.
    destruct Hpow as (k & Hk & Hn).
    assert (6 <= k) by (apply (Z.pow_le_mono_r_iff 2); lia).
    rewrite Hn, <- (Z.sub_add 6 k), Z.pow_add_r by lia. change (2 ^ 6) with 64. by rewrite Z.div_mul, Z.mul_comm. }
  split.
  - unfold Spsc.channel, Spsc.channel_with_wait, RingBuffer.new. rewrite Hp. eexists. split; [reflexivity|].
    split; [lia|]. left. eexists. unfold Spsc.channel_with_wait, RingBuffer.new. rewrite Hp. by split.
  - unfold Mpsc.channel, Mpsc.channel_with_wait, Mpsc.create_shared, RingBuffer.new. rewrite Hp.
    eexists _, _, _. split; [reflexivity|]. intros hs s' Hr. split; [lia|]. split; [lia|].
    eexists _, _, hs. rewrite Hmul. split; [left|by split].
    unfold Mpsc.channel_with_wait, Mpsc.create_shared, RingBuffer.new. by rewrite Hp.
Qed.

Section service.
Context {Value : Type} (null : Value).
Context (from_value : Value -> Result SendTransactionParams str).
Context (from_slice : list Z -> Result (JsonRpcRequest (Value := Value)) str).
Context (to_vec : JsonRpcResponse (Value := Value) -> list Z).
(** The size of the two queues. *)
Context (capacity : nat).
Abbreviation QueuedRequest := (QueuedRequest (Value := Value)).
Abbreviation Server := (Server (Value := Value)).
Abbreviation event := (event (Value := Value)).

(** ** State *)

(** An event of the poll: the listener, or the connection in slot [idx] of the pool,
    whose token is one more. *)
Inductive poll_event : Type := Listener | Client (idx : nat) (ev : io).

Inductive loop_pc : Type :=
| Opening                                   (* poll, listener and its registration *)
| Head | Polling
| Handling (events : list poll_event)
| Accepting (events : list poll_event)      (* the loop of [accept]; the events that follow *)
| Batching (batch : list QueuedResponse)
| Delivering (batch : list QueuedResponse)
| Joining | Returned (r : Result unit unit).

Inductive worker_pc : Type :=
| WorkerHead
| WorkerDrain (batch : list QueuedRequest)
| WorkerProcess (batch : list QueuedRequest)
| WorkerGone.

(** [core] has the pool and the contents of the queues. *)
Record Service : Type := { core : Server; shutdown : bool; loop : loop_pc; worker : worker_pc }.

Definition service_new : Service :=
  {| core := server_new; shutdown := false; loop := Opening; worker := WorkerHead |}.

Definition at_loop (p : loop_pc) (s : Service) : Service :=
  {| core := core s; shutdown := shutdown s; loop := p; worker := worker s |}.
Definition at_worker (p : worker_pc) (s : Service) : Service :=
  {| core := core s; shutdown := shutdown s; loop := loop s; worker := p |}.
Definition set_core (st : Server) (s : Service) : Service :=
  {| core := st; shutdown := shutdown s; loop := loop s; worker := worker s |}.
Definition set_shutdown (s : Service) : Service :=
  {| core := core s; shutdown := true; loop := loop s; worker := worker s |}.

Inductive input : Type :=
| Shutdown                                  (* [RpcServer::shutdown] *)
| Opened (ok : bool)
| Polled (events : option (list poll_event))
| Accepted (registered : bool) | AcceptEnd  (* a new connection; none left, or an error *)
| Loop                                      (* the event loop goes on by itself *)
| Written (w : writes) (date : list Z)      (* a response is delivered *)
| Work.                                     (* the worker goes on *)

(** ** Steps *)

(** The capacity of [Events]. *)
Definition MAX_EVENTS : nat := 1024.
Definition MAX_BATCH : nat := 64.

(** The event loop without an answer from outside. *)
Definition loop_step (s : Service) : option (list event * Service) :=
  match loop s with
  | Head => Some ([], at_loop (if shutdown s then Joining else Polling) s)
  | Handling [] => Some ([], at_loop (Batching []) s)
  | Handling (Listener :: events) => Some ([], at_loop (Accepting events) s)
  | Handling (Client idx ev :: events) =>
      let '(out, st) := client_event null from_value from_slice to_vec (S idx) ev (core s) in
      if (length (requests st) <=? capacity)%nat then Some (out, at_loop (Handling events) (set_core st s)) else None
  | Batching batch =>
      match responses (core s) with
      | r :: rs =>
          if (length batch <? MAX_BATCH)%nat then
            Some ([], at_loop (Batching (batch ++ [r])) (set_core (with_queues (requests (core s)) rs (core s)) s))
          else Some ([], at_loop (Delivering batch) s)
      | [] => Some ([], at_loop (Delivering batch) s)
      end
  | Delivering [] => Some ([], at_loop Head s)
  | Joining => match worker s with WorkerGone => Some ([], at_loop (Returned (Ok tt)) s) | _ => None end
  | _ => None
  end.

Definition returned (s : Service) : bool := match loop s with Returned _ => true | _ => false end.

(** One request: the response waits for room, unless its receiver is gone. *)
Definition process_step (q : QueuedRequest) (batch : list QueuedRequest) (s : Service) : option (list event * Service) :=
  let '(r, out) := process_request q in
  if returned s then Some (out, at_worker (WorkerProcess batch) s)
  else if (length (responses (core s)) <? capacity)%nat then
    Some (out, at_worker (WorkerProcess batch)
                 (set_core (with_queues (requests (core s)) (responses (core s) ++ [r]) (core s)) s))
  else None.

Definition gone (st : Server) : Server :=
  {| pool := pool st; next_request_id := next_request_id st; requests := requests st; responses := responses st;
     worker_gone := true; next_stream := next_stream st |}.

Definition worker_step (s : Service) : option (list event * Service) :=
  match worker s with
  | WorkerHead =>
      Some ([], if shutdown s then at_worker WorkerGone (set_core (gone (core s)) s) else at_worker (WorkerDrain []) s)
  | WorkerDrain batch =>
      match requests (core s) with
      | q :: qs =>
          if (length batch <? BATCH_SIZE)%nat then
            Some ([], at_worker (WorkerDrain (batch ++ [q])) (set_core (with_queues qs (responses (core s)) (core s)) s))
          else Some ([], at_worker (WorkerProcess batch) s)
      | [] => Some ([], at_worker (WorkerProcess batch) s)
      end
  | WorkerProcess [] => Some ([], at_worker WorkerHead s)
  | WorkerProcess (q :: batch) => process_step q batch s
  | WorkerGone => None
  end.

(** [?] ends the event loop: the pool and its ends of the queues are dropped. *)
Definition failed (s : Service) : Service := at_loop (Returned (Err tt)) s.

Definition service_step (i : input) (s : Service) : option (list event * Service) :=
  match i, loop s with
  | Shutdown, _ => Some ([], set_shutdown s)
  | Opened ok, Opening => Some ([], if (ok : bool) then at_loop Head s else failed s)
  | Polled None, Polling => Some ([], failed s)
  | Polled (Some events), Polling =>
      if (length events <=? MAX_EVENTS)%nat then Some ([], at_loop (Handling events) s) else None
  | Accepted registered, Accepting _ =>
      Some ([], if (registered : bool) then set_core (accept (core s)).2 s else failed s)
  | AcceptEnd, Accepting events => Some ([], at_loop (Handling events) s)
  | Loop, _ => loop_step s
  | Written w date, Delivering (r :: batch) =>
      let '(out, st) := deliver w date r (core s) in Some (out, at_loop (Delivering batch) (set_core st s))
  | Work, _ => worker_step s
  | _, _ => None
  end.

Fixpoint run_inputs (inputs : list input) (s : Service) : option (list event * Service) :=
  match inputs with
  | [] => Some ([], s)
  | i :: inputs =>
      '(out, s) ← service_step i s;
      '(out', s) ← run_inputs inputs s;
      Some (out ++ out', s)
  end.

(** The states the service reaches, with queues for which the channels are sound,
    before the counter of request ids wraps around. *)
Inductive service_reaches : list event -> Service -> Prop :=
| service_start : sound_capacity capacity = true -> service_reaches [] service_new
| service_more tr s i out s' :
    service_reaches tr s -> service_step i s = Some (out, s') -> next_request_id (core s') <> 0 ->
    service_reaches (tr ++ out) s'.

End service.
