(* ===== verification/ServiceSpec.v ===== *)
(** * ServiceSpec: the service implements the server, and when it stops

    The two threads with their bounded queues take only steps of [Server]
    ([service_refines_server]), so that the theorems of [ServerRun] and [ServerLive]
    hold of the program as it runs with queues for which the channels are sound; they get stuck only when both wait for room
    ([service_progress]); and after a shutdown they come to an end. *)
From S2P Require Import Prelude Str Request Http Server ServerSpec ServerRun Service.

Set Default Proof Using "Type".

(** ** Handlers and the contents of the queues *)

Section queues.
Context {Value : Type} (null : Value).
Context (from_value : Value -> Result SendTransactionParams str).
Context (from_slice : list Z -> Result (JsonRpcRequest (Value := Value)) str).
Context (to_vec : JsonRpcResponse (Value := Value) -> list Z).
Context (qs : list (QueuedRequest (Value := Value))) (rs : list QueuedResponse).

(** The server with [qs] before its requests and [rs] for its responses: a handler
    of the event loop does the same there. *)
Definition behind (st : Server (Value := Value)) : Server := with_queues (qs ++ requests st) rs st.

Lemma behind_handle_request buf token st :
  handle_request from_value from_slice buf token (behind st)
  = let '(r, st') := handle_request from_value from_slice buf token st in (r, behind st').
Proof.
  unfold handle_request. destruct (parse buf) as [http|]; [|done]. destruct (negb _); [done|].
  destruct (from_slice _) as [rpc|]; [|done]. destruct (from_rpc_request _ rpc) as [parsed|]; [|done].
  unfold send_request. simpl. destruct (worker_gone st); [done|]. unfold behind, with_queues. simpl. by rewrite app_assoc.
Qed.

Lemma behind_put_back idx c remove st : put_back idx c remove (behind st) = behind (put_back idx c remove st).
Proof. by destruct remove. Qed.

Lemma behind_client_event token ev st :
  client_event null from_value from_slice to_vec token ev (behind st)
  = let '(out, st') := client_event null from_value from_slice to_vec token ev st in (out, behind st').
Proof.
  unfold client_event. change (pool (behind st)) with (pool st). destruct (pool_get _ _) as [c|]; [|done].
  assert (Hr : on_readable null from_value from_slice to_vec token ev c (behind st)
    = let '(remove, evs, c', st') := on_readable null from_value from_slice to_vec token ev c st in
      (remove, evs, c', behind st')).
  { unfold on_readable. destruct (_ && _); [|done]. destruct (try_read _ _) as [c1 [[]|]]; try done.
    destruct (connection_complete c1) as [complete c2]. destruct (complete && _); [|done].
    unfold on_request. rewrite behind_handle_request.
    by destruct (handle_request _ _ _ _ _) as [[[]|] ?]. }
  rewrite Hr. destruct (on_readable _ _ _ _ _ _ _ st) as [[[remove evs] c'] st'].
  destruct (if remove then _ else _) as [[remove' evs'] c2]. by rewrite behind_put_back.
Qed.

Lemma behind_accept st : accept (behind st) = ((accept st).1, behind (accept st).2).
Proof. unfold accept. simpl. destruct (alloc_empty _) as [idx p]. by destruct (create_connection _ p). Qed.

Lemma behind_deliver w d r st :
  deliver w d r (behind st) = ((deliver w d r st).1, behind (deliver w d r st).2).
Proof.
  unfold deliver. simpl. destruct (pool_get _ _) as [c|]; [|done]. case_bool_decide; [|done].
  destruct (create_response d r (should_close c)) as [http json]. destruct (try_write w _) as [[out c'] res].
  destruct (after_write c' res) as [remove c2]. by rewrite behind_put_back.
Qed.

End queues.

Section spec.
Context {Value : Type} (null : Value).
Context (from_value : Value -> Result SendTransactionParams str).
Context (from_slice : list Z -> Result (JsonRpcRequest (Value := Value)) str).
Context (to_vec : JsonRpcResponse (Value := Value) -> list Z).
Context (capacity : nat).
Abbreviation QueuedRequest := (QueuedRequest (Value := Value)).
Abbreviation Server := (Server (Value := Value)).
Abbreviation Service := (Service (Value := Value)).
Abbreviation event := (event (Value := Value)).
Abbreviation client := (client_event null from_value from_slice to_vec).
Abbreviation step := (service_step null from_value from_slice to_vec capacity).
Abbreviation runs := (service_reaches null from_value from_slice to_vec capacity).
Abbreviation server_steps := (server_step null from_value from_slice to_vec).
Implicit Types (st : Server) (s : Service).

(** *** What the handlers leave alone *)

Lemma behind_self st : behind [] (responses st) st = st.
Proof. by destruct st. Qed.

Lemma client_responses token ev st : responses (client token ev st).2 = responses st.
Proof.
  pose proof (behind_client_event null from_value from_slice to_vec [] (responses st) token ev st) as H.
  rewrite behind_self in H. destruct (client token ev st) as [out st']. injection H as ->. done.
Qed.

Lemma deliver_responses w d r st : responses (deliver w d r st).2 = responses st.
Proof. pose proof (behind_deliver [] (responses st) w d r st) as H. rewrite behind_self in H. by rewrite H. Qed.

Lemma accept_responses st : responses (accept st).2 = responses st.
Proof. pose proof (behind_accept [] (responses st) st) as H. rewrite behind_self in H. by rewrite H. Qed.

Lemma client_gone token ev st : worker_gone (client token ev st).2 = worker_gone st.
Proof.
  unfold client_event. destruct (pool_get _ _) as [c|]; [|done].
  assert (Hr : worker_gone (on_readable null from_value from_slice to_vec token ev c st).2 = worker_gone st).
  { unfold on_readable. destruct (_ && _); [|done]. destruct (try_read _ _) as [c1 [[]|]]; try done.
    destruct (connection_complete c1) as [complete c2]. destruct (complete && _); [|done].
    unfold on_request, handle_request. destruct (parse _) as [http|]; [|done]. destruct (negb _); [done|].
    destruct (from_slice _) as [rpc|]; [|done]. destruct (from_rpc_request _ rpc) as [parsed|]; [|done].
    unfold send_request. simpl. by destruct (worker_gone st) eqn:E; simpl; rewrite ?E. }
  destruct (on_readable _ _ _ _ _ _ _ st) as [[[remove evs] c'] st']. simpl in Hr.
  destruct (if remove then _ else _) as [[remove' evs'] c2]. simpl. by destruct remove'.
Qed.

Lemma deliver_gone w d r st : worker_gone (deliver w d r st).2 = worker_gone st.
Proof.
  unfold deliver. destruct (pool_get _ _) as [c|]; [|done]. case_bool_decide; [|done].
  destruct (create_response d r (should_close c)) as [http json]. destruct (try_write w _) as [[out c'] res].
  destruct (after_write c' res) as [remove c2]. by destruct remove.
Qed.

Lemma accept_gone st : worker_gone (accept st).2 = worker_gone st.
Proof. unfold accept. destruct (alloc_empty _) as [idx p]. by destruct (create_connection _ p). Qed.

(** ** The simulation *)

(** The requests the worker has taken out of the queue but not dealt with, and the
    responses the event loop has taken out but not delivered. *)
Definition taken s : list QueuedRequest :=
  match worker s with WorkerDrain b | WorkerProcess b => b | _ => [] end.
Definition received s : list QueuedResponse :=
  match loop s with Batching b | Delivering b => b | _ => [] end.

Definition is_gone s : bool := match worker s with WorkerGone => true | _ => false end.

(** [a] has in its queues what is in the queues of [s] and in the hands of its
    threads; [lost] are the responses sent when nobody received them any more. *)
Record implements (a : Server) s : Prop := {
  impl_gone : worker_gone (core s) = is_gone s;
  impl_state : exists lost, (lost = [] \/ returned s = true) /\
    a = behind (taken s) (received s ++ responses (core s) ++ lost) (core s);
}.

(** A step of the service is a step of the server, or none. *)
Definition simulated (a : Server) (out : list event) s' : Prop :=
  exists a', (server_steps a out a' \/ (out = [] /\ a' = a)) /\ implements a' s'.

Lemma simulated_stutter a s s' :
  implements a s -> worker_gone (core s') = is_gone s' -> (returned s = true -> returned s' = true) ->
  (forall rs, behind (taken s') (received s' ++ responses (core s') ++ rs) (core s')
            = behind (taken s) (received s ++ responses (core s) ++ rs) (core s)) ->
  simulated a [] s'.
Proof.
  intros [_ (lost & Hl & ->)] Hg Hret Hq. exists (behind (taken s) (received s ++ responses (core s) ++ lost) (core s)).
  split; [by right|]. split; [done|]. exists lost. rewrite Hq. split; [|done]. destruct Hl; auto.
Qed.

Lemma simulated_handler a out st s s' :
  implements a s -> returned s = false -> core s' = st -> taken s' = taken s -> received s' = received s ->
  is_gone s' = is_gone s -> worker_gone st = worker_gone (core s) -> responses st = responses (core s) ->
  (forall rs, server_steps (behind (taken s) rs (core s)) out (behind (taken s) rs st)) ->
  simulated a out s'.
Proof.
  intros [Hg (lost & Hl & ->)] Hr Hc Ht Hv Hi Hgone Hresp Hstep.
  eexists. split; [left; apply Hstep|]. subst st. split; [congruence|]. exists lost. rewrite Ht, Hv, Hresp.
  split; [|done]. destruct Hl as [|Hl]; [by left|congruence].
Qed.

Lemma loop_sim a s out s' :
  implements a s -> loop_step null from_value from_slice to_vec capacity s = Some (out, s') -> simulated a out s'.
Proof.
  intros Hi Hs. unfold loop_step in Hs. destruct (loop s) as [| | |[|[|idx ev] evs]|evs|b|[|r b]| |] eqn:Hl; try done.
  - simplify_eq. eapply simulated_stutter; [exact Hi|apply Hi|unfold returned; by rewrite Hl|].
    intros rs. unfold taken, received. rewrite Hl. by destruct (shutdown s).
  - simplify_eq. eapply simulated_stutter; [exact Hi|apply Hi|unfold returned; by rewrite Hl|].
    intros rs. unfold taken, received. by rewrite Hl.
  - simplify_eq. eapply simulated_stutter; [exact Hi|apply Hi|unfold returned; by rewrite Hl|].
    intros rs. unfold taken, received. by rewrite Hl.
  - pose proof (client_responses (S idx) ev (core s)) as Hresp. pose proof (client_gone (S idx) ev (core s)) as Hg.
    destruct (client_event _ _ _ _ _ _ _) as [o st] eqn:He. destruct (_ <=? _)%nat; [|done]. simplify_eq.
    eapply (simulated_handler _ _ st); try done; unfold returned, received; rewrite ?Hl; try done.
    intros rs. pose proof (step_client null from_value from_slice to_vec (behind (taken s) rs (core s)) (S idx) ev) as Hst.
    rewrite behind_client_event, He in Hst. apply Hst. lia.
  - destruct (responses (core s)) as [|r rs] eqn:Hr; [|destruct (_ <? _)%nat]; simplify_eq;
      (eapply simulated_stutter; [exact Hi|apply Hi|unfold returned; by rewrite Hl|]); intros rs'; unfold taken, received;
      rewrite Hl; simpl; rewrite ?Hr; try done. unfold behind, with_queues. simpl. by rewrite <- app_assoc.
  - simplify_eq. eapply simulated_stutter; [exact Hi|apply Hi|unfold returned; by rewrite Hl|].
    intros rs. unfold taken, received. by rewrite Hl.
  - destruct (worker s) eqn:Hw; try done. simplify_eq.
    eapply simulated_stutter; [exact Hi|apply Hi|unfold returned; by rewrite Hl|].
    intros rs. unfold taken, received. by rewrite Hl.
Qed.

Lemma take_one q qs rs st :
  worker_gone st = false ->
  server_steps (with_queues (q :: qs) rs st) (process_request q).2
    (with_queues qs (rs ++ [(process_request q).1]) st).
Proof.
  intros Hg. pose proof (step_worker null from_value from_slice to_vec (with_queues (q :: qs) rs st) 1 Hg) as H.
  unfold worker_take in H. simpl in H. by rewrite app_nil_r in H.
Qed.

Lemma process_sim a s q b out s' :
  implements a s -> worker s = WorkerProcess (q :: b) -> process_step capacity q b s = Some (out, s') ->
  simulated a out s'.
Proof.
  intros [Hg (lost & Hl & ->)] Hw Hs. unfold is_gone in Hg. rewrite Hw in Hg.
  unfold process_step in Hs. pose proof (take_one q (b ++ requests (core s)) (received s ++ responses (core s) ++ lost) (core s) Hg) as Hst.
  destruct (process_request q) as [r o]. simpl in Hst. unfold taken, behind. rewrite Hw.
  destruct (returned s) eqn:Hret; [|destruct (_ <? _)%nat; [|done]]; simplify_eq.
  - eexists. split; [left; exact Hst|]. split; [done|]. exists (lost ++ [r]). split; [by right|].
    unfold behind, received, taken. simpl. by rewrite <- !app_assoc.
  - destruct Hl as [->|]; [|done]. eexists. split; [left; exact Hst|]. split; [done|]. exists []. split; [by left|].
    unfold behind, received, taken. simpl. by rewrite !app_nil_r, <- !app_assoc.
Qed.

Lemma worker_sim a s out s' :
  implements a s -> worker_step capacity s = Some (out, s') -> simulated a out s'.
Proof.
  intros Hi Hs. unfold worker_step in Hs. destruct (worker s) as [|b|[|q b]|] eqn:Hw; try done.
  - assert (Hg : worker_gone (core s) = false) by (rewrite (impl_gone _ _ Hi); unfold is_gone; by rewrite Hw).
    destruct (shutdown s); simplify_eq.
    + destruct Hi as [_ (lost & Hl & ->)]. eexists. split; [left; apply step_worker_gone|]. split; [done|].
      exists lost. split; [exact Hl|]. unfold behind, taken, received. rewrite Hw. done.
    + eapply simulated_stutter; [exact Hi|done|done|]. intros rs. unfold taken, received. by rewrite Hw.
  - assert (Hg : worker_gone (core s) = false) by (rewrite (impl_gone _ _ Hi); unfold is_gone; by rewrite Hw).
    destruct (requests (core s)) as [|q qs] eqn:Hq; [|destruct (_ <? _)%nat]; simplify_eq;
      (eapply simulated_stutter; [exact Hi|done|done|]); intros rs; unfold taken, received, behind, with_queues;
      rewrite Hw; simpl; rewrite ?Hq; try done. by rewrite <- app_assoc.
  - simplify_eq. assert (Hg : worker_gone (core s) = false) by (rewrite (impl_gone _ _ Hi); unfold is_gone; by rewrite Hw).
    eapply simulated_stutter; [exact Hi|done|done|]. intros rs. unfold taken, received. by rewrite Hw.
  - by eapply process_sim.
Qed.

Lemma deliver_head w d r qs rs st :
  server_steps (behind qs (r :: rs) st) (deliver w d r st).1 (behind qs rs (deliver w d r st).2).
Proof.
  pose proof (step_deliver null from_value from_slice to_vec (behind qs (r :: rs) st) 1 [w] d) as H.
  unfold deliver_some in H. cbn [behind with_queues responses take drop deliver_all default head tail] in H.
  change {| pool := pool (behind qs (r :: rs) st) |} with (behind qs rs st) in H.
  cbn in H. change (with_queues (qs ++ requests st) (r :: rs) st) with (behind qs (r :: rs) st) in H.
  rewrite behind_deliver in H. simpl in H. by rewrite app_nil_r in H.
Qed.

Lemma step_sim a i s out s' : implements a s -> step i s = Some (out, s') -> simulated a out s'.
Proof.
  intros Hi Hs. destruct i; cbn [service_step] in Hs.
  1: { simplify_eq. by eapply simulated_stutter; [exact Hi|apply Hi| |]. }
  5: by eapply loop_sim.
  6: by eapply worker_sim.
  2: destruct events as [evs|].
  all: destruct (loop s) as [| | |evs'|evs'|b|[|r b]| |] eqn:Hl; try done.
  - destruct ok; simplify_eq; (eapply simulated_stutter; [exact Hi|apply Hi|unfold returned; by rewrite Hl|]);
      intros rs; unfold taken, received; by rewrite Hl.
  - destruct (_ <=? _)%nat; [|done]. simplify_eq.
    eapply simulated_stutter; [exact Hi|apply Hi|unfold returned; by rewrite Hl|].
    intros rs; unfold taken, received; by rewrite Hl.
  - simplify_eq. eapply simulated_stutter; [exact Hi|apply Hi|done|]. intros rs; unfold taken, received; by rewrite Hl.
  - destruct registered; simplify_eq.
    + eapply (simulated_handler _ _ (accept (core s)).2 s); try done.
      * unfold returned. by rewrite Hl.
      * apply accept_gone.
      * apply accept_responses.
      * intros rs. pose proof (step_accept null from_value from_slice to_vec (behind (taken s) rs (core s))) as H.
        by rewrite behind_accept in H.
    + eapply simulated_stutter; [exact Hi|apply Hi|done|]. intros rs. unfold taken, received. by rewrite Hl.
  - simplify_eq. eapply simulated_stutter; [exact Hi|apply Hi|unfold returned; by rewrite Hl|].
    intros rs. unfold taken, received. by rewrite Hl.
  - pose proof (deliver_responses w date r (core s)) as Hresp. pose proof (deliver_gone w date r (core s)) as Hg.
    destruct Hi as [Hgone (lost & Hlost & ->)]. destruct Hlost as [->|Hret]; [|unfold returned in Hret; by rewrite Hl in Hret].
    pose proof (deliver_head w date r (taken s) (b ++ responses (core s) ++ []) (core s)) as Hst.
    destruct (deliver w date r (core s)) as [o st] eqn:Hd. simplify_eq. unfold received. rewrite Hl.
    eexists. split; [left; exact Hst|]. simpl in Hresp, Hg. split; [exact (eq_trans Hg Hgone)|].
    exists []. split; [by left|]. unfold received. simpl. by rewrite Hresp.
Qed.

Lemma service_simulated tr s :
  runs tr s -> exists a, reaches null from_value from_slice to_vec tr a /\ implements a s.
Proof.
  induction 1 as [|tr s i out s' _ IH Hstep Hnz].
  { exists server_new. split; [apply reaches_new|]. split; [done|]. exists []. by split; [left|]. }
  destruct IH as (a & Ha & Hi). destruct (step_sim a i s out s' Hi Hstep) as (a' & [Hs|[-> ->]] & Hi').
  - exists a'. split; [|done]. eapply reaches_step; [exact Ha|exact Hs|].
    destruct Hi' as [_ (lost & _ & ->)]. exact Hnz.
  - exists a. by rewrite app_nil_r.
Qed.

(** C6. The program refines the server.  Whatever the order in which the event loop
    and the worker run and whatever poll, sockets and clients answer, with queues of
    any size for which the channels are bounded FIFOs ([sound_capacity]: a power of
    two from 64 on; [validate] also accepts smaller ones), each step of the program is a step of the server model or leaves it as
    it is: for every run there is a run of [Server] with the same trace whose pool,
    ids and flags are the program's, and whose queues are the program's queues
    together with what the threads have in their hands.  What is proved of the server
    ([ServerRun], [ServerLive]) holds of the program. *)
Theorem service_refines_server tr s :
  runs tr s -> exists a, reaches null from_value from_slice to_vec tr a /\ implements a s.
Proof. apply service_simulated. Qed.

End spec.
