(* ===== verification/ServiceStop.v ===== *)
(** * ServiceStop: progress and shutdown of the service

    The bounds of the queues and batches, when the two threads wait for each other,
    and the end of the program after a shutdown. *)
From S2P Require Import Prelude Str Request Http Server ServerSpec ServerRun ServerLive Service ServiceSpec.

Set Default Proof Using "Type".

Section stop.
Context {Value : Type} (null : Value).
Context (from_value : Value -> Result SendTransactionParams str).
Context (from_slice : list Z -> Result (JsonRpcRequest (Value := Value)) str).
Context (to_vec : JsonRpcResponse (Value := Value) -> list Z).
Context (capacity : nat).
Abbreviation Server := (Server (Value := Value)).
Abbreviation Service := (Service (Value := Value)).
Abbreviation event := (event (Value := Value)).
Abbreviation client := (client_event null from_value from_slice to_vec).
Abbreviation step := (service_step null from_value from_slice to_vec capacity).
Abbreviation run := (run_inputs null from_value from_slice to_vec capacity).
Abbreviation runs := (service_reaches null from_value from_slice to_vec capacity).
Implicit Types (st : Server) (s : Service).

(** ** What a handler adds to the request queue *)

Lemma accept_requests st : requests (accept st).2 = requests st.
Proof. unfold accept. destruct (alloc_empty _) as [idx p]. by destruct (create_connection _ p). Qed.

(** A handler adds at most one request, and none when the worker is gone. *)
Lemma client_requests token ev st :
  requests (client token ev st).2 = requests st \/
  worker_gone st = false /\ exists q, requests (client token ev st).2 = requests st ++ [q].
Proof.
  unfold client_event. destruct (pool_get _ _) as [c|]; [|by left].
  assert (Hr : let st' := (on_readable null from_value from_slice to_vec token ev c st).2 in
    requests st' = requests st \/ worker_gone st = false /\ exists q, requests st' = requests st ++ [q]).
  { unfold on_readable. destruct (_ && _); [|by left]. destruct (try_read _ _) as [c1 [[]|]]; try by left.
    destruct (connection_complete c1) as [complete c2]. destruct (complete && _); [|by left].
    unfold on_request, handle_request. destruct (parse _) as [http|]; [|by left]. destruct (negb _); [by left|].
    destruct (from_slice _) as [rpc|]; [|by left]. destruct (from_rpc_request _ rpc) as [parsed|]; [|by left].
    unfold send_request. simpl. destruct (worker_gone st) eqn:E; simpl; [by left|]. right. split; [done|]. by eexists. }
  destruct (on_readable _ _ _ _ _ _ _ st) as [[[remove evs] c'] st']. simpl in Hr.
  destruct (if remove then _ else _) as [[remove' evs'] c2]. simpl. by destruct remove'.
Qed.

(** ** Bounds *)

Definition events_left s : nat :=
  match loop s with Handling evs | Accepting evs => length evs | _ => 0 end.

Record bounded s : Prop := {
  bound_requests : (length (requests (core s)) <= capacity)%nat;
  bound_responses : (length (responses (core s)) <= capacity)%nat;
  bound_taken : (length (taken s) <= BATCH_SIZE)%nat;
  bound_received : (length (received s) <= MAX_BATCH)%nat;
  bound_events : (events_left s <= MAX_EVENTS)%nat;
  bound_gone : worker_gone (core s) = is_gone s;
}.

Lemma loop_bounded s out s' :
  bounded s -> loop_step null from_value from_slice to_vec capacity s = Some (out, s') -> bounded s'.
Proof.
  intros [Hq Hr Ht Hv He Hg] Hs. unfold received, events_left in *. unfold loop_step in Hs.
  destruct (loop s) as [| | |[|[|idx ev] evs]|evs|b|[|r b]| |] eqn:Hl; try done.
  - simplify_eq. destruct (shutdown s); split; unfold events_left, received; simpl; try done; lia.
  - simplify_eq. split; unfold events_left, received; simpl; try done; lia.
  - simplify_eq. split; unfold events_left, received; simpl in *; try done; lia.
  - pose proof (client_responses null from_value from_slice to_vec (S idx) ev (core s)) as Hresp.
    pose proof (client_gone null from_value from_slice to_vec (S idx) ev (core s)) as Hgo.
    destruct (client_event _ _ _ _ _ _ _) as [o st]. destruct (Nat.leb_spec (length (requests st)) capacity); [|done].
    simplify_eq. simpl in *. split; unfold events_left, received; simpl in *; try done; try lia.
    + by rewrite Hresp.
    + rewrite Hgo, Hg. done.
  - destruct (responses (core s)) as [|r rs] eqn:Hrs; [|destruct (Nat.ltb_spec (length b) MAX_BATCH)]; simplify_eq;
      split; unfold events_left, received; simpl in *; rewrite ?Hrs; simpl; try done; try lia.
    rewrite length_app. simpl. lia.
  - simplify_eq. split; unfold events_left, received; simpl; try done; lia.
  - destruct (worker s) eqn:Hw; try done. simplify_eq. split; unfold events_left, received; simpl; try done; try lia.
Qed.

Lemma worker_bounded s out s' : bounded s -> worker_step capacity s = Some (out, s') -> bounded s'.
Proof.
  intros [Hq Hr Ht Hv He Hg] Hs. unfold taken, is_gone in *. unfold worker_step in Hs.
  destruct (worker s) as [|b|[|q b]|] eqn:Hw; try done.
  - destruct (shutdown s); simplify_eq; split; unfold taken, is_gone; simpl; try done; lia.
  - destruct (requests (core s)) as [|q qs] eqn:Hqs; [|destruct (Nat.ltb_spec (length b) BATCH_SIZE)]; simplify_eq;
      split; unfold taken, is_gone; simpl in *; rewrite ?Hqs; simpl; try done; try lia.
    rewrite length_app. simpl. lia.
  - simplify_eq. split; unfold taken, is_gone; simpl; try done; lia.
  - unfold process_step in Hs. destruct (process_request q) as [r o].
    destruct (returned s); [|destruct (Nat.ltb_spec (length (responses (core s))) capacity); [|done]]; simplify_eq;
      split; unfold taken, is_gone; simpl in *; try done; try lia.
    rewrite length_app. simpl. lia.
Qed.

Lemma step_bounded i s out s' : bounded s -> step i s = Some (out, s') -> bounded s'.
Proof.
  intros Hb Hs. destruct i; cbn [service_step] in Hs.
  1: { simplify_eq. destruct Hb. by split. }
  5: by eapply loop_bounded.
  6: by eapply worker_bounded.
  2: destruct events as [evs|].
  all: destruct Hb as [Hq Hr Ht Hv He Hg]; unfold received, events_left in *;
    destruct (loop s) as [| | |evs'|evs'|b|[|r b]| |] eqn:Hl; try done.
  - destruct ok; simplify_eq; split; unfold events_left, received; simpl; try done; lia.
  - destruct (Nat.leb_spec (length evs) MAX_EVENTS); [|done]. simplify_eq.
    split; unfold events_left, received; simpl; try done; lia.
  - simplify_eq. split; unfold events_left, received; simpl; try done; lia.
  - destruct registered; simplify_eq; split; unfold events_left, received; simpl; rewrite ?Hl; try done; try lia.
    + by rewrite accept_requests.
    + by rewrite accept_responses.
    + by rewrite accept_gone.
  - simplify_eq. by split.
  - pose proof (deliver_queues w date r (core s)) as [H1 H2]. pose proof (deliver_gone w date r (core s)) as H3.
    destruct (deliver w date r (core s)) as [o st]. simplify_eq. simpl in *.
    split; unfold events_left, received; simpl; try done; try lia; [by rewrite H1|by rewrite H2|by rewrite H3].
Qed.

Lemma runs_bounded tr s : runs tr s -> bounded s.
Proof.
  induction 1 as [|tr s i out s' _ IH Hstep _]; [|by eapply step_bounded].
  split; unfold taken, received, events_left; simpl; try done; lia.
Qed.

(** ** Getting stuck *)

(** Both threads have returned. *)
Definition finished s : Prop := returned s = true /\ worker s = WorkerGone.

(** The worker waits for room in the response queue, and the event loop for room in
    the request queue, or for the worker's end. *)
Definition deadlocked s : Prop :=
  (exists q b, worker s = WorkerProcess (q :: b)) /\ (capacity <= length (responses (core s)))%nat /\
  (loop s = Joining \/
   exists idx ev evs, loop s = Handling (Client idx ev :: evs) /\
     (capacity < length (requests (client (S idx) ev (core s)).2))%nat).

(** Requests and responses that are on their way. *)
Definition under_way s : nat :=
  length (taken s) + length (requests (core s)) + length (received s) + length (responses (core s)).

Lemma stuck_needs_load s :
  deadlocked s -> (capacity < under_way s)%nat /\ (loop s = Joining \/ (2 * capacity < under_way s)%nat).
Proof.
  intros ((q & b & Hw) & Hr & Hl). unfold under_way, taken. rewrite Hw. cbn [length]. split; [lia|].
  destruct Hl as [?|(idx & ev & evs & _ & Hq)]; [by left|]. right.
  destruct (client_requests (S idx) ev (core s)) as [E|(_ & q' & E)]; rewrite E in Hq; [lia|].
  rewrite length_app in Hq. simpl in Hq. lia.
Qed.

(** Nothing gets a deadlocked service going again. *)
Lemma deadlocked_stays i s out s' : deadlocked s -> step i s = Some (out, s') -> deadlocked s' /\ i = Shutdown.
Proof.
  intros ((q & b & Hw) & Hr & Hl) Hs.
  assert (Hret : returned s = false) by (unfold returned; by destruct Hl as [->|(?&?&?&->&?)]).
  destruct i; cbn [service_step] in Hs.
  1: { simplify_eq. split; [|done]. split; [by eexists _, _|]. done. }
  5: { destruct Hl as [Hl|(idx & ev & evs & Hl & Hq)]; unfold loop_step in Hs; rewrite Hl in Hs; [by rewrite Hw in Hs|].
       destruct (client_event _ _ _ _ _ _ _) as [o st]. simpl in Hq.
       by destruct (Nat.leb_spec (length (requests st)) capacity); [lia|]. }
  6: { unfold worker_step, process_step in Hs. rewrite Hw, Hret in Hs. destruct (process_request q) as [r o].
       by destruct (Nat.ltb_spec (length (responses (core s))) capacity); [lia|]. }
  2: destruct events as [evs0|].
  all: destruct Hl as [Hl|(? & ? & ? & Hl & ?)]; by rewrite Hl in Hs.
Qed.

Lemma finished_stays i s out s' : finished s -> step i s = Some (out, s') -> i = Shutdown.
Proof.
  unfold finished, returned. intros [Hl Hw] Hs. destruct (loop s) eqn:E; try done.
  destruct i; cbn [service_step] in Hs; try done; try (by rewrite E in Hs).
  - destruct events; by rewrite E in Hs.
  - unfold loop_step in Hs. by rewrite E in Hs.
  - unfold worker_step in Hs. by rewrite Hw in Hs.
Qed.

(** The event loop can go on, unless a handler waits for room or the loop for the
    worker. *)
Lemma loop_can s :
  returned s = true \/ loop s = Joining \/
  (exists idx ev evs, loop s = Handling (Client idx ev :: evs) /\
     (capacity < length (requests (client (S idx) ev (core s)).2))%nat) \/
  exists i out s', i <> Shutdown /\ step i s = Some (out, s').
Proof.
  unfold returned. destruct (loop s) as [| | |[|[|idx ev] evs]|evs|b|[|r b]| |] eqn:Hl; auto.
  - do 3 right. exists (Opened true). cbn [service_step]. rewrite Hl. by do 2 eexists.
  - do 3 right. exists Loop. cbn [service_step]. unfold loop_step. rewrite Hl. by do 2 eexists.
  - do 3 right. exists (Polled (Some [])). cbn [service_step]. rewrite Hl. by do 2 eexists.
  - do 3 right. exists Loop. cbn [service_step]. unfold loop_step. rewrite Hl. by do 2 eexists.
  - do 3 right. exists Loop. cbn [service_step]. unfold loop_step. rewrite Hl. by do 2 eexists.
  - do 2 right. destruct (client (S idx) ev (core s)) as [o st] eqn:Hc.
    destruct (Nat.leb_spec (length (requests st)) capacity) as [Hle|Hlt].
    + right. exists Loop. cbn [service_step]. unfold loop_step. rewrite Hl, Hc.
      rewrite (proj2 (Nat.leb_le _ _) Hle). by do 2 eexists.
    + left. exists idx, ev, evs. by rewrite Hc.
  - do 3 right. exists AcceptEnd. cbn [service_step]. rewrite Hl. by do 2 eexists.
  - do 3 right. exists Loop. cbn [service_step]. unfold loop_step. rewrite Hl.
    destruct (responses (core s)); [|destruct (_ <? _)%nat]; by do 2 eexists.
  - do 3 right. exists Loop. cbn [service_step]. unfold loop_step. rewrite Hl. by do 2 eexists.
  - do 3 right. exists (Written {| counts := []; writes_end := WriteWouldBlock |} []). cbn [service_step]. rewrite Hl.
    destruct (deliver _ _ _ _) as [o st]. by do 2 eexists.
Qed.

Lemma worker_can s :
  worker s = WorkerGone \/
  (exists q b, worker s = WorkerProcess (q :: b)) /\ returned s = false /\ (capacity <= length (responses (core s)))%nat \/
  exists out s', step Work s = Some (out, s').
Proof.
  cbn [service_step]. unfold worker_step. destruct (worker s) as [|b|[|q b]|] eqn:Hw; auto.
  - right. right. by do 2 eexists.
  - do 2 right. destruct (requests (core s)); [|destruct (_ <? _)%nat]; by do 2 eexists.
  - do 2 right. by do 2 eexists.
  - unfold process_step. destruct (process_request q) as [r o]. destruct (returned s); [do 2 right; by do 2 eexists|].
    destruct (Nat.ltb_spec (length (responses (core s))) capacity); [do 2 right; by do 2 eexists|].
    right. left. split; [by eexists _, _|]. done.
Qed.

Lemma progress s :
  bounded s -> finished s \/ deadlocked s \/ exists i out s', i <> Shutdown /\ step i s = Some (out, s').
Proof.
  intros Hb. destruct (worker_can s) as [Hw|[(Hw & Hr & Hresp)|(out & s' & Hs)]].
  - destruct (loop_can s) as [Hl|[Hl|[(idx & ev & evs & Hl & Hq)|H]]]; [by left| | |by do 2 right].
    + do 2 right. exists Loop. cbn [service_step]. unfold loop_step. rewrite Hl, Hw. by do 2 eexists.
    + exfalso. destruct (client_requests (S idx) ev (core s)) as [E|(Hg & _)].
      * rewrite E in Hq. pose proof (bound_requests s Hb). lia.
      * rewrite (bound_gone s Hb) in Hg. unfold is_gone in Hg. by rewrite Hw in Hg.
  - destruct (loop_can s) as [Hl|[Hl|[Hl|H]]]; [congruence| | |by do 2 right].
    + right. left. split; [done|]. split; [done|]. by left.
    + right. left. split; [done|]. split; [done|]. by right.
  - do 2 right. exists Work, out, s'. by split.
Qed.

(** ** After a shutdown *)

Definition loop_rank s : nat :=
  match loop s with
  | Returned _ => 0 | Joining => 1 | Head => 2 | Opening => 3
  | Delivering b => 3 + length b
  | Batching b => 4 + MAX_BATCH + (MAX_BATCH - length b)
  | Handling evs => 5 + 2 * MAX_BATCH + 2 * length evs
  | Accepting evs => 6 + 2 * MAX_BATCH + 2 * length evs
  | Polling => 6 + 2 * MAX_BATCH + 2 * MAX_EVENTS
  end.
Definition worker_rank s : nat :=
  match worker s with
  | WorkerGone => 0 | WorkerHead => 1
  | WorkerProcess b => 2 + length b
  | WorkerDrain b => 3 + BATCH_SIZE + (BATCH_SIZE - length b)
  end.
(** How many steps are left at most. *)
Definition rank s : nat := loop_rank s + worker_rank s.

(** The steps that bring the end nearer: not the shutdown itself, and not a new
    connection. *)
Definition counts_down (i : input) : bool := match i with Shutdown | Accepted _ => false | _ => true end.

Lemma rank_decreases i s out s' :
  bounded s -> shutdown s = true -> step i s = Some (out, s') ->
  ((if counts_down i then 1 else 0) + rank s' <= rank s)%nat /\ shutdown s' = true.
Proof.
  intros Hb Hd Hs. pose proof (bound_taken s Hb) as Ht. pose proof (bound_received s Hb) as Hv.
  unfold taken, received in *. unfold rank, loop_rank, worker_rank in *.
  destruct i; cbn [service_step counts_down] in *.
  1: { simplify_eq. by split. }
  2: destruct events as [evs0|].
  1-5: destruct (loop s) as [| | |evs'|evs'|b|[|r b]| |] eqn:Hl; try done.
  - destruct ok; simplify_eq; cbn [loop worker at_loop failed]; split; try done; lia.
  - destruct (Nat.leb_spec (length evs0) MAX_EVENTS); [|done]. simplify_eq. cbn [loop worker at_loop at_worker set_core failed length]. split; [lia|done].
  - simplify_eq. cbn [loop worker at_loop at_worker set_core failed length]. split; [lia|done].
  - destruct registered; simplify_eq; cbn [loop worker at_loop set_core failed]; rewrite ?Hl; (split; [lia|done]).
  - simplify_eq. cbn [loop worker at_loop at_worker set_core failed length]. split; [lia|done].
  - unfold loop_step in Hs. destruct (loop s) as [| | |[|[|idx ev] evs]|evs|b|[|r b]| |] eqn:Hl; try done.
    + rewrite Hd in Hs. simplify_eq. cbn [loop worker at_loop at_worker set_core failed length]. split; [lia|done].
    + simplify_eq. cbn [loop worker at_loop at_worker set_core failed length]. split; [lia|done].
    + simplify_eq. cbn [loop worker at_loop at_worker set_core failed length]. split; [lia|done].
    + destruct (client_event _ _ _ _ _ _ _) as [o st]. destruct (_ <=? _)%nat; [|done]. simplify_eq. cbn [loop worker at_loop at_worker set_core failed length]. split; [lia|done].
    + destruct (responses (core s)); [|destruct (Nat.ltb_spec (length b) MAX_BATCH)]; simplify_eq;
        cbn [loop worker at_loop at_worker set_core]; rewrite ?length_app; cbn [length]; (split; [lia|done]).
    + simplify_eq. cbn [loop worker at_loop at_worker set_core failed length]. split; [lia|done].
    + destruct (worker s) eqn:Hw; try done. simplify_eq. cbn [loop worker at_loop]. rewrite Hw. split; [lia|done].
  - destruct (loop s) as [| | |evs'|evs'|b|[|r b]| |] eqn:Hl; try done.
    destruct (deliver _ _ _ _) as [o st]. simplify_eq. cbn [loop worker at_loop at_worker set_core failed length]. split; [lia|done].
  - unfold worker_step in Hs. destruct (worker s) as [|b|[|q b]|] eqn:Hw; try done.
    + rewrite Hd in Hs. simplify_eq. cbn [loop worker at_loop at_worker set_core failed length]. split; [lia|done].
    + destruct (requests (core s)); [|destruct (Nat.ltb_spec (length b) BATCH_SIZE)]; simplify_eq;
        cbn [loop worker at_loop at_worker set_core]; rewrite ?length_app; cbn [length]; (split; [lia|done]).
    + simplify_eq. cbn [loop worker at_loop at_worker set_core failed length]. split; [lia|done].
    + unfold process_step in Hs. destruct (process_request q) as [r o].
      destruct (returned s); [|destruct (_ <? _)%nat; [|done]]; simplify_eq;
        cbn [loop worker at_worker set_core length]; (split; [lia|done]).
Qed.

Definition STOP_BOUND : nat := 9 + 2 * MAX_BATCH + 2 * MAX_EVENTS + 2 * BATCH_SIZE.

Lemma rank_bound s : bounded s -> (rank s <= STOP_BOUND)%nat.
Proof.
  intros Hb. pose proof (bound_events s Hb). pose proof (bound_received s Hb). pose proof (bound_taken s Hb).
  unfold rank, loop_rank, worker_rank, STOP_BOUND, events_left, received, taken in *.
  destruct (loop s), (worker s); lia.
Qed.

Lemma run_bounded inputs s out s' : bounded s -> run inputs s = Some (out, s') -> bounded s'.
Proof.
  revert s out. induction inputs as [|i inputs IH]; intros s out Hb Hr; cbn [run_inputs] in Hr; [by simplify_eq|].
  destruct (step i s) as [[o s1]|] eqn:Hs; [|done]. cbn in Hr.
  destruct (run inputs s1) as [[o' s2]|] eqn:Hr2; [|done]. cbn in Hr. simplify_eq.
  eapply IH; [|exact Hr2]. by eapply step_bounded.
Qed.

Lemma run_rank inputs s out s' :
  bounded s -> shutdown s = true -> run inputs s = Some (out, s') ->
  (length (List.filter counts_down inputs) + rank s' <= rank s)%nat.
Proof.
  revert s out. induction inputs as [|i inputs IH]; intros s out Hb Hd Hr; cbn [run_inputs] in Hr; [by simplify_eq|].
  destruct (step i s) as [[o s1]|] eqn:Hs; [|done]. cbn [mbind option_bind] in Hr.
  destruct (run inputs s1) as [[o' s2]|] eqn:Hr2; [|done]. cbn [mbind option_bind] in Hr. simplify_eq.
  destruct (rank_decreases i s o s1 Hb Hd Hs) as [Hlt Hd1].
  specialize (IH s1 o' (step_bounded i s o s1 Hb Hs) Hd1 Hr2). cbn [List.filter].
  destruct (counts_down i); cbn [length]; lia.
Qed.

(** C13. The service gets stuck only under load.  Its queues never exceed their size,
    its batches 64 entries.  In every state some thread can go on, without anything
    being asked from outside but an answer of the system, unless both threads have
    returned or they wait for each other: the worker for room in the response queue,
    the event loop for room in the request queue or for the worker's end.  Then
    nothing helps; but it takes more requests under way than a queue holds, and
    more than two queues hold if nobody has asked for a shutdown. *)
Theorem service_progress tr s :
  runs tr s ->
  ((length (requests (core s)) <= capacity)%nat /\ (length (responses (core s)) <= capacity)%nat /\
   (length (taken s) <= 64)%nat /\ (length (received s) <= 64)%nat) /\
  (finished s \/ deadlocked s \/ exists i out s', i <> Shutdown /\ step i s = Some (out, s')) /\
  (deadlocked s ->
     (forall i out s', step i s = Some (out, s') -> i = Shutdown /\ deadlocked s') /\
     (capacity < under_way s)%nat /\ (loop s = Joining \/ (2 * capacity < under_way s)%nat)).
Proof.
  intros Hb%runs_bounded. split; [by split_and!; apply Hb|]. split; [by apply progress|].
  intros Hd. split; [|by apply stuck_needs_load].
  intros i out s' Hs. by destruct (deadlocked_stays i s out s' Hd Hs).
Qed.

(** C12. The service comes to an end after a shutdown.  Once the flag is set, no run
    takes more than [STOP_BOUND] steps, whatever the threads' schedule and the answers
    of poll, sockets and clients, not counting connections that are still accepted;
    and where a run can go no further both threads have returned, unless they wait
    for each other.  The event loop returns success only after the worker. *)
Theorem service_stops tr s inputs out s' :
  runs tr s -> shutdown s = true -> run inputs s = Some (out, s') ->
  (length (List.filter counts_down inputs) <= STOP_BOUND)%nat /\
  ((forall i out s2, step i s' = Some (out, s2) -> i = Shutdown) <-> finished s' \/ deadlocked s').
Proof.
  intros Hb%runs_bounded Hd Hr. split.
  - pose proof (run_rank inputs s out s' Hb Hd Hr). pose proof (rank_bound s Hb). lia.
  - split.
    + intros Hno. destruct (progress s' (run_bounded inputs s out s' Hb Hr)) as [|[|(i & o & s2 & Hi & Hs)]]; auto.
      exfalso. apply Hi. by eapply Hno.
    + intros [Hf|Hdl] i o s2 Hs; [by eapply finished_stays|]. by destruct (deadlocked_stays i s' o s2 Hdl Hs).
Qed.

(** When the event loop fails, it returns without asking the worker to stop: until
    somebody calls [shutdown], the worker goes on for ever. *)
Theorem failed_server_leaves_worker inputs s out s' :
  loop s = Returned (Err tt) -> shutdown s = false -> worker s <> WorkerGone ->
  forallb (fun i => match i with Shutdown => false | _ => true end) inputs = true ->
  run inputs s = Some (out, s') -> loop s' = Returned (Err tt) /\ worker s' <> WorkerGone.
Proof.
  revert s out. induction inputs as [|i inputs IH]; intros s out Hl Hd Hw Hi Hr; cbn [run_inputs] in Hr; [by simplify_eq|].
  cbn [forallb] in Hi. apply andb_true_iff in Hi as [Hi1 Hi].
  destruct (step i s) as [[o s1]|] eqn:Hs; [|done]. cbn in Hr.
  destruct (run inputs s1) as [[o' s2]|] eqn:Hr2; [|done]. cbn in Hr. simplify_eq.
  enough (loop s1 = Returned (Err tt) /\ shutdown s1 = false /\ worker s1 <> WorkerGone) as (? & ? & ?) by (by eapply IH).
  destruct i; cbn [service_step] in Hs; try (by rewrite Hl in Hs).
  - done.
  - destruct events; by rewrite Hl in Hs.
  - unfold loop_step in Hs. by rewrite Hl in Hs.
  - unfold worker_step, process_step, returned in Hs. rewrite Hd, Hl in Hs. destruct (worker s) as [|b|[|q b]|]; try done.
    + by simplify_eq.
    + destruct (requests (core s)); [|destruct (_ <? _)%nat]; by simplify_eq.
    + by simplify_eq.
    + destruct (process_request q). by simplify_eq.
Qed.

End stop.

(** ** A run

    The queues hold 64 entries, and 130 clients connect. *)
Definition demo_read : io := demo_io true false [demo_message] [].

(** The clients connect and their requests arrive in one round of the poll. *)
Definition demo_connect (n : nat) : list input :=
  [Opened true; Loop; Polled (Some (Listener :: ((fun i => Client i demo_read) <$> seq 0 n))); Loop] ++
  replicate n (Accepted true) ++ [AcceptEnd].
Definition demo_works (n : nat) : list input := replicate n Work.
Definition demo_loops (n : nat) : list input := replicate n Loop.

(** The worker takes the first 64 requests and answers them, takes the next one and
    waits; 64 more fill the request queue, and the handler of the last one waits. *)
Definition demo_jam : list input :=
  demo_connect 130 ++ demo_loops 64 ++ demo_works 132 ++ demo_loops 1 ++ demo_works 2 ++ demo_loops 64.

Abbreviation demo_runs := (service_reaches tt demo_from_value demo_from_slice demo_to_vec).

(** A run whose ids stay away from zero. *)
Fixpoint checked_run (capacity : nat) (inputs : list input) (s : Service) : option (list event * Service) :=
  match inputs with
  | [] => Some ([], s)
  | i :: inputs =>
      '(out, s) ← service_step tt demo_from_value demo_from_slice demo_to_vec capacity i s;
      if next_request_id (core s) =? 0 then None
      else '(out', s) ← checked_run capacity inputs s; Some (out ++ out', s)
  end.

Lemma checked_reaches capacity inputs : forall tr s out s',
  demo_runs capacity tr s -> checked_run capacity inputs s = Some (out, s') -> demo_runs capacity (tr ++ out) s'.
Proof.
  induction inputs as [|i inputs IH]; intros tr s out s' Hs Hr; cbn [checked_run] in Hr.
  { simplify_eq. by rewrite app_nil_r. }
  destruct (service_step _ _ _ _ _ i s) as [[o s1]|] eqn:Hstep; [|done]. cbn [mbind option_bind] in Hr.
  destruct (Z.eqb_spec (next_request_id (core s1)) 0) as [|Hnz]; [done|].
  destruct (checked_run capacity inputs s1) as [[o' s2]|] eqn:Hr2; [|done]. cbn [mbind option_bind] in Hr. simplify_eq.
  rewrite app_assoc. apply (IH _ s1); [|exact Hr2]. by eapply service_more.
Qed.

(** The end of a checked run, reached when it does not break off. *)
Definition run_end (capacity : nat) (inputs : list input) : list event * Service :=
  default ([], service_new) (checked_run capacity inputs service_new).

Lemma run_end_reached capacity inputs :
  sound_capacity capacity = true -> bool_decide (is_Some (checked_run capacity inputs service_new)) = true ->
  demo_runs capacity (run_end capacity inputs).1 (run_end capacity inputs).2.
Proof.
  intros Hcap [[out s] E]%bool_decide_eq_true. unfold run_end. rewrite E.
  exact (checked_reaches capacity inputs [] service_new out s (service_start _ _ _ _ _ Hcap) E).
Qed.

Definition demo_jammed : list event * Service := run_end 64 demo_jam.

Lemma demo_jam_reached : demo_runs 64 demo_jammed.1 demo_jammed.2.
Proof. apply run_end_reached; vm_compute; reflexivity. Qed.

(** The queues do get full: 130 clients and queues of 64 entries are enough to
    block both threads, for good. *)
Theorem service_can_deadlock :
  exists tr s, demo_runs 64 tr s /\
    deadlocked tt demo_from_value demo_from_slice demo_to_vec 64 s /\ shutdown s = false.
Proof.
  exists demo_jammed.1, demo_jammed.2. split; [exact demo_jam_reached|]. split; [|vm_compute; reflexivity].
  split; [eexists _, _; vm_compute; reflexivity|]. split; [apply Nat.leb_le; vm_compute; reflexivity|]. right.
  eexists _, _, _. split; [vm_compute; reflexivity|]. apply Nat.ltb_lt. vm_compute. reflexivity.
Qed.

Lemma service_refines_server_witness :
  exists a, reaches tt demo_from_value demo_from_slice demo_to_vec demo_jammed.1 a /\ implements a demo_jammed.2 /\
    length (requests a) = 65%nat.
Proof.
  destruct (service_refines_server tt demo_from_value demo_from_slice demo_to_vec 64 _ _ demo_jam_reached) as (a & Ha & Hi).
  exists a. split; [exact Ha|]. split; [exact Hi|]. destruct (impl_state _ _ Hi) as (lost & _ & ->). vm_compute. reflexivity.
Defined.

Lemma service_progress_witness :
  length (requests (core demo_jammed.2)) = 64%nat /\ (64 < under_way demo_jammed.2)%nat.
Proof.
  split; [vm_compute; reflexivity|].
  destruct (service_progress tt demo_from_value demo_from_slice demo_to_vec 64 _ _ demo_jam_reached) as (_ & _ & Hd).
  apply Hd. split; [eexists _, _; vm_compute; reflexivity|]. split; [apply Nat.leb_le; vm_compute; reflexivity|]. right.
  eexists _, _, _. split; [vm_compute; reflexivity|]. apply Nat.ltb_lt. vm_compute. reflexivity.
Defined.

(** One request is answered, and then the shutdown ends both threads. *)
Definition demo_served : list input :=
  demo_connect 1 ++ demo_loops 2 ++ demo_works 4 ++ demo_loops 2 ++
  [Written {| counts := [500%nat]; writes_end := WriteWouldBlock |} (lit "now"); Shutdown].
Definition demo_end : list input := demo_loops 2 ++ demo_works 2 ++ demo_loops 1.
Definition demo_stopping : list event * Service := run_end 64 demo_served.
Definition demo_stopped : list event * Service :=
  default ([], service_new) (run_inputs tt demo_from_value demo_from_slice demo_to_vec 64 demo_end demo_stopping.2).

Lemma service_stops_witness :
  loop demo_stopped.2 = Returned (Ok tt) /\ (length (List.filter counts_down demo_end) <= STOP_BOUND)%nat /\
  forall i out s2, service_step tt demo_from_value demo_from_slice demo_to_vec 64 i demo_stopped.2 = Some (out, s2) -> i = Shutdown.
Proof.
  split; [vm_compute; reflexivity|].
  assert (Hr : demo_runs 64 demo_stopping.1 demo_stopping.2) by (apply run_end_reached; vm_compute; reflexivity).
  destruct (service_stops tt demo_from_value demo_from_slice demo_to_vec 64 demo_stopping.1 demo_stopping.2 demo_end
    demo_stopped.1 demo_stopped.2 Hr) as [Hlen Hend]; [vm_compute; reflexivity|vm_compute; reflexivity|].
  split; [exact Hlen|]. apply Hend. left. split; vm_compute; reflexivity.
Defined.
