(* ===== verification/Main.v ===== *)
(** * Main: the process

    [main] of [core/src/main.rs], with [core/src/warmup.rs], as one program: the
    tracker it starts ([Lifecycle]), the server in its thread ([Service]), the thread
    that prints the slot, and Ctrl-C.  One input is one step of one of the threads, or
    an answer to it.  [Startup] has the configurations; here are the phases [main]
    goes through.

    When [main] returns, exits or panics the process is gone with all its threads:
    no step is possible any more.  The refresh task runs on the thread of [main],
    when [main] waits; here it may run at any time. *)
From S2P Require Import Prelude Str Request Http Server ServerSpec ServerRun Service ServiceSpec ServiceStop.
From S2P Require Pubsub Leader Lifecycle.

Set Default Proof Using "Type".

(** ** The warm-up *)

Record WarmupConfig : Type := {
  prewarm_leaders : nat; cache_prime_iterations : nat; stabilization_delay : Z (* milliseconds *) }.
Definition warmup_default : WarmupConfig :=
  {| prewarm_leaders := 10; cache_prime_iterations := 1000; stabilization_delay := 100 |}.

(** What [warmup] has to do: [left] more reads of the buffer, then to sleep. *)
Inductive warmup_pc : Type := Priming (left : nat) | Stabilizing (delay : Z).

Definition warmup_start (c : WarmupConfig) : warmup_pc := Priming (cache_prime_iterations c).

(** The value that is read is thrown away. *)
Definition warmup_step (c : WarmupConfig) (w : warmup_pc) : option warmup_pc :=
  match w with
  | Priming 0 => Some (Stabilizing (stabilization_delay c))
  | Priming (S n) => Some (Priming n)
  | Stabilizing _ => None
  end.

Section main.
Context {Value : Type} (null : Value).
Context (from_value : Value -> Result SendTransactionParams str).
Context (from_slice : list Z -> Result (JsonRpcRequest (Value := Value)) str).
Context (to_vec : JsonRpcResponse (Value := Value) -> list Z).
Context (capacity : nat).
Abbreviation Service := (Service (Value := Value)).
Abbreviation event := (event (Value := Value)).
Abbreviation serve := (service_step null from_value from_slice to_vec capacity).
Abbreviation serves := (service_reaches null from_value from_slice to_vec capacity).
Abbreviation server_reaches := (reaches null from_value from_slice to_vec).

(** ** State *)

Inductive main_phase : Type :=
| Launched                          (* configured *)
| StartingTracker                   (* in [leader_tracker.start()] *)
| Warming (w : warmup_pc)
| CreatingSender                    (* [TransactionSender::new] and [RpcServer::new] *)
| SpawningServer | SpawningLogger
| Serving                           (* waiting for Ctrl-C *)
| Signalling | CallingStop
| StoppingTracker                   (* in [leader_tracker.stop()] *)
| Done | Failed                     (* returned; [exit(1)] *)
| Panicked.

(** The thread that prints the slot: its loop head and the rest of its body. *)
Inductive log_thread : Type := NoLogger | LogHead (last_slot : Z) | LogSlot (last_slot : Z) | LogStopped.

Record Process : Type := {
  phase : main_phase; shutdown_signal : bool; leader_tracker : Lifecycle.World;
  server : option Service; logger : log_thread; printed : list Z }.

Definition process_new : Process :=
  {| phase := Launched; shutdown_signal := false; leader_tracker := Lifecycle.tracker_new; server := None;
     logger := NoLogger; printed := [] |}.

Definition at_phase (ph : main_phase) (p : Process) : Process :=
  {| phase := ph; shutdown_signal := shutdown_signal p; leader_tracker := leader_tracker p; server := server p;
     logger := logger p; printed := printed p |}.
Definition set_signal (p : Process) : Process :=
  {| phase := phase p; shutdown_signal := true; leader_tracker := leader_tracker p; server := server p;
     logger := logger p; printed := printed p |}.
Definition with_tracker (w : Lifecycle.World) (p : Process) : Process :=
  {| phase := phase p; shutdown_signal := shutdown_signal p; leader_tracker := w; server := server p;
     logger := logger p; printed := printed p |}.
Definition with_server (s : Service) (p : Process) : Process :=
  {| phase := phase p; shutdown_signal := shutdown_signal p; leader_tracker := leader_tracker p; server := Some s;
     logger := logger p; printed := printed p |}.
Definition with_logger (l : log_thread) (out : list Z) (p : Process) : Process :=
  {| phase := phase p; shutdown_signal := shutdown_signal p; leader_tracker := leader_tracker p; server := server p;
     logger := l; printed := printed p ++ out |}.

Inductive process_input : Type :=
| PMain                             (* [main] goes on *)
| PCreated (ok : bool)              (* whether the sender and the server could be made *)
| PCtrlC
| PTracker (e : Lifecycle.event)    (* a step inside the tracker *)
| PServer (i : input)
| PLogger.

(** ** Steps *)

(** A call of the tracker. *)
Definition call (e : Lifecycle.event) (ph : main_phase) (p : Process) : option Process :=
  w ← Lifecycle.step e (leader_tracker p); Some (at_phase ph (with_tracker w p)).

Definition main_step (p : Process) : option Process :=
  match phase p with
  | Launched => call Lifecycle.EStart StartingTracker p
  | StartingTracker =>
      match Lifecycle.pc (leader_tracker p) with
      | Lifecycle.Idle (Some Lifecycle.Started) => Some (at_phase (Warming (warmup_start warmup_default)) p)
      | Lifecycle.Idle (Some _) => Some (at_phase Failed p)
      | _ => None
      end
  | Warming w =>
      Some (at_phase (match warmup_step warmup_default w with Some w => Warming w | None => CreatingSender end) p)
  | SpawningServer => Some (at_phase SpawningLogger (with_server service_new p))
  | SpawningLogger => Some (at_phase Serving (with_logger (LogHead 0) [] p))
  | Signalling => Some (at_phase CallingStop (set_signal p))
  | CallingStop => call Lifecycle.EStop StoppingTracker p
  | StoppingTracker =>
      match Lifecycle.pc (leader_tracker p) with
      | Lifecycle.Idle _ => Some (at_phase Done p)
      | _ => None
      end
  | _ => None
  end.

Definition log_step (p : Process) : option Process :=
  match logger p with
  | LogHead last => Some (with_logger (if shutdown_signal p then LogStopped else LogSlot last) [] p)
  | LogSlot last =>
      let slot := Leader.current_slot (Lifecycle.buffer (leader_tracker p)) in
      Some (with_logger (LogHead slot) (if slot =? last then [] else [slot]) p)
  | _ => None
  end.

Definition over (ph : main_phase) : bool := match ph with Done | Failed | Panicked => true | _ => false end.

(** Nobody but [main] calls the tracker, and nobody calls [RpcServer::shutdown]: the
    server has moved into its thread. *)
Definition process_step (i : process_input) (p : Process) : option (list event * Process) :=
  if over (phase p) then None
  else
    match i, phase p with
    | PMain, _ => p ← main_step p; Some ([], p)
    | PCreated ok, CreatingSender => Some ([], at_phase (if (ok : bool) then SpawningServer else Panicked) p)
    | PCtrlC, Serving => Some ([], at_phase Signalling p)
    | PTracker (Lifecycle.EStart | Lifecycle.EStop), _ => None
    | PTracker e, _ => w ← Lifecycle.step e (leader_tracker p); Some ([], with_tracker w p)
    | PServer Shutdown, _ => None
    | PServer i, _ => s ← server p; '(out, s) ← serve i s; Some (out, with_server s p)
    | PLogger, _ => p ← log_step p; Some ([], p)
    | _, _ => None
    end.

Definition ids_left (p : Process) : Prop :=
  match server p with Some s => next_request_id (core s) <> 0 | None => True end.

(** The states the process reaches, with queues for which the channels are sound
    (4096 is what [main] asks for), before the counter of request ids wraps around,
    with the events of its server. *)
Inductive process_reaches : list event -> Process -> Prop :=
| process_start : sound_capacity capacity = true -> process_reaches [] process_new
| process_more tr p i out p' :
    process_reaches tr p -> process_step i p = Some (out, p') -> ids_left p' -> process_reaches (tr ++ out) p'.

(** ** What goes on in which phase *)

(** The tracker has been started and not been stopped. *)
Definition tracking (ph : main_phase) : bool :=
  match ph with
  | Warming _ | CreatingSender | SpawningServer | SpawningLogger | Serving | Signalling | CallingStop | Panicked => true
  | _ => false
  end.
Definition has_server (ph : main_phase) : bool :=
  match ph with SpawningLogger | Serving | Signalling | CallingStop | StoppingTracker | Done => true | _ => false end.
Definition has_logger (ph : main_phase) : bool :=
  match ph with SpawningLogger => false | _ => has_server ph end.
Definition signalled (ph : main_phase) : bool :=
  match ph with CallingStop | StoppingTracker | Done => true | _ => false end.

(** Where the tracker is while [stop] runs. *)
Definition in_stop_call (c : Lifecycle.main_pc) : bool :=
  match c with
  | Lifecycle.StopSub Lifecycle.Stopping | Lifecycle.StopWs Lifecycle.Stopping | Lifecycle.JoinWs Lifecycle.Stopping
  | Lifecycle.JoinSub Lifecycle.Stopping | Lifecycle.AbortRefresh | Lifecycle.JoinTracker
  | Lifecycle.Idle (Some Lifecycle.Stopped) => true
  | _ => false
  end.

Definition phase_ok (ph : main_phase) (c : Lifecycle.main_pc) : Prop :=
  if tracking ph then c = Lifecycle.Idle (Some Lifecycle.Started)
  else match ph with
  | Launched => c = Lifecycle.Idle None
  | StoppingTracker => in_stop_call c = true
  | Done => c = Lifecycle.Idle (Some Lifecycle.Stopped)
  | Failed => exists o, c = Lifecycle.Idle (Some o) /\ o <> Lifecycle.Started /\ o <> Lifecycle.AlreadyRunning
  | _ => c <> Lifecycle.Idle (Some Lifecycle.AlreadyRunning)
  end.

(** Each printed slot differs from the one before it. *)
Fixpoint changes (last : Z) (slots : list Z) : bool :=
  match slots with [] => true | x :: slots => negb (x =? last) && changes x slots end.

Definition last_printed (l : log_thread) (out : list Z) : Prop :=
  match l with
  | NoLogger => out = []
  | LogHead x | LogSlot x => x = List.last out 0
  | LogStopped => True
  end.

End main.
