(* ===== verification/MainSpec.v ===== *)
(** * MainSpec: the process starts and stops its parts in order

    Every run of [Main] is a run of the tracker and a run of the server, the server
    only while the tracker runs ([process_in_order]); and what is lost at the end
    ([exit_drops_requests]). *)
From S2P Require Import Prelude Str Request Http Server ServerSpec ServerRun Service ServiceSpec ServiceStop Main.
From S2P Require Pubsub Leader Lifecycle.

Set Default Proof Using "Type".

(** ** The tracker between two calls *)

Definition is_call (e : Lifecycle.event) : bool := match e with Lifecycle.EStart | Lifecycle.EStop => true | _ => false end.

(** A step that is neither a call nor one of the caller leaves it where it is. *)
Lemma step_pc e w w' :
  Lifecycle.step e w = Some w' -> is_call e = false ->
  Lifecycle.pc w' = Lifecycle.pc w \/
  e = Lifecycle.EMain \/ e = Lifecycle.EDeadline \/ exists c, e = Lifecycle.EFetched c.
Proof.
  intros Hs He. destruct e; try done; try (by eauto); left; cbn [Lifecycle.step] in Hs; apply Lifecycle.local_pc.
  - by apply Lifecycle.ws_step_local.
  - by eapply Lifecycle.net_step_local.
  - by apply Lifecycle.sub_step_local.
  - by apply Lifecycle.take_step_local.
  - by apply Lifecycle.tracker_step_local.
  - by eapply Lifecycle.refresh_step_local.
Qed.

(** A step of the caller, by where it is. *)
Ltac caller Hs Hpc :=
  cbn [Lifecycle.step] in Hs;
  unfold Lifecycle.main_step, Lifecycle.wait_for_connection, Lifecycle.subscriber_stop, Lifecycle.pubsub_stop in Hs;
  rewrite ?Hpc in Hs; repeat (case_match; try done); simplify_eq; try done.

Lemma idle_stays e w w' o :
  Lifecycle.step e w = Some w' -> is_call e = false -> Lifecycle.pc w = Lifecycle.Idle o -> Lifecycle.pc w' = Lifecycle.Idle o.
Proof.
  intros Hs He Hpc. destruct (step_pc e w w' Hs He) as [->|[->|[->|[c ->]]]]; [done|caller Hs Hpc..].
Qed.

Lemma start_not_running e w w' :
  Lifecycle.step e w = Some w' -> is_call e = false ->
  Lifecycle.pc w <> Lifecycle.Idle (Some Lifecycle.AlreadyRunning) ->
  Lifecycle.pc w' <> Lifecycle.Idle (Some Lifecycle.AlreadyRunning).
Proof.
  intros Hs He Hn. destruct (step_pc e w w' Hs He) as [->|[->|[->|[c ->]]]]; [done|..];
    destruct (Lifecycle.pc w) as [| | | | | | | | | |[]|[]|[]|[]| |] eqn:Hpc; caller Hs Hpc.
Qed.

Lemma stop_goes_on e w w' :
  Lifecycle.step e w = Some w' -> is_call e = false ->
  in_stop_call (Lifecycle.pc w) = true -> in_stop_call (Lifecycle.pc w') = true.
Proof.
  intros Hs He Hn. destruct (step_pc e w w' Hs He) as [->|[->|[->|[c ->]]]]; [done|..];
    destruct (Lifecycle.pc w) as [[[]|]| | | | | | | | | |[]|[]|[]|[]| |] eqn:Hpc; caller Hs Hpc.
Qed.

Lemma tracker_step_ok ph e w w' :
  Lifecycle.step e w = Some w' -> is_call e = false -> over ph = false ->
  phase_ok ph (Lifecycle.pc w) -> phase_ok ph (Lifecycle.pc w').
Proof.
  intros Hs He Ho. unfold phase_ok. destruct (tracking ph); [by apply (idle_stays e w w' _ Hs He)|].
  destruct ph; try done; first [by apply (idle_stays e w w' _ Hs He)|by apply (start_not_running e w w' Hs He)|by apply (stop_goes_on e w w' Hs He)].
Qed.

(** [start] and [stop] of a tracker that is in no call. *)
Lemma call_start w w' :
  Lifecycle.pc w = Lifecycle.Idle None -> Lifecycle.reachable w ->
  Lifecycle.step Lifecycle.EStart w = Some w' -> phase_ok StartingTracker (Lifecycle.pc w').
Proof.
  intros Hpc Hi%Lifecycle.reachable_inv Hs. cbn in Hs. rewrite Hpc in Hs. simplify_eq. cbn.
  pose proof (Lifecycle.inv_running w Hi) as Hr. pose proof (Lifecycle.inv_flags w Hi) as Hf.
  unfold Lifecycle.expect_running, Lifecycle.flags_ok in *. rewrite Hpc in *. apply negb_true_iff in Hf.
  by rewrite Hr, Hf.
Qed.

Lemma call_stop w w' :
  Lifecycle.step Lifecycle.EStop w = Some w' -> phase_ok StoppingTracker (Lifecycle.pc w').
Proof. intros Hs. cbn in Hs. destruct (Lifecycle.pc w); try done. simplify_eq. cbn. by destruct (Lifecycle.subscriber w). Qed.

Lemma last_cons (l : list Z) : forall x y, List.last (x :: l) y = List.last l x.
Proof. induction l as [|z l IH]; intros x y; [done|]. transitivity (List.last (z :: l) y); [done|]. by rewrite !IH. Qed.

Lemma changes_app l x : forall last, changes last (l ++ [x]) = changes last l && negb (x =? List.last l last).
Proof.
  induction l as [|y l IH]; intros last; [by rewrite andb_comm|].
  rewrite last_cons. cbn [app changes]. by rewrite IH, andb_assoc.
Qed.

Section spec.
Context {Value : Type} (null : Value).
Context (from_value : Value -> Result SendTransactionParams str).
Context (from_slice : list Z -> Result (JsonRpcRequest (Value := Value)) str).
Context (to_vec : JsonRpcResponse (Value := Value) -> list Z).
Context (capacity : nat).
Abbreviation Process := (Process (Value := Value)).
Abbreviation step := (process_step null from_value from_slice to_vec capacity).
Abbreviation serve := (service_step null from_value from_slice to_vec capacity).
Abbreviation serves := (service_reaches null from_value from_slice to_vec capacity).
Abbreviation server_reaches := (reaches null from_value from_slice to_vec).
Abbreviation runs := (process_reaches null from_value from_slice to_vec capacity).
Implicit Types (p : Process).

(** ** The invariant *)

Record process_ok tr p : Prop := {
  ok_tracker : Lifecycle.reachable (leader_tracker p);
  ok_phase : phase_ok (phase p) (Lifecycle.pc (leader_tracker p));
  ok_server : match server p with
    | Some s => has_server (phase p) = true /\ serves tr s /\ Service.shutdown s = false
    | None => has_server (phase p) = false /\ tr = []
    end;
  ok_signal : shutdown_signal p = signalled (phase p);
  ok_logger : has_logger (phase p) = false -> logger p = NoLogger;
  ok_printed : changes 0 (printed p) = true /\ last_printed (logger p) (printed p);
  ok_capacity : sound_capacity capacity = true;
}.

(** The flag of the server is set by [Shutdown] alone. *)
Lemma serve_flag i s out s' :
  serve i s = Some (out, s') -> i <> Shutdown -> Service.shutdown s' = Service.shutdown s.
Proof.
  intros Hs Hi. destruct i; cbn [service_step] in Hs; try done.
  5: { unfold loop_step in Hs. repeat (case_match; try done); simplify_eq; try done; by destruct (Service.shutdown s). }
  6: { unfold worker_step, Service.process_step in Hs. repeat (case_match; try done); simplify_eq; cbn; congruence. }
  all: repeat (case_match; try done); by simplify_eq.
Qed.

Lemma main_step_ok tr p p' : main_step p = Some p' -> process_ok tr p -> process_ok tr p'.
Proof.
  intros Hs [Ht Hp Hsrv Hsig Hlog Hpr Hcap]. unfold main_step, call in Hs. destruct (phase p) eqn:Hph; try done; cbn in Hp.
  - destruct (Lifecycle.step _ _) as [w|] eqn:Hw; [|done]. cbn in Hs. simplify_eq.
    split; [by eapply Lifecycle.reachable_step|by eapply call_start|done..].
  - destruct (Lifecycle.pc (leader_tracker p)) as [[[]|]| | | | | | | | | | | | | | |] eqn:Hpc; try done; simplify_eq;
      (split; cbn; rewrite ?Hpc; try done; by eexists; split_and!).
  - destruct (warmup_step _ _); simplify_eq; by split.
  - simplify_eq. destruct (server p); [by destruct Hsrv|]. destruct Hsrv as [_ ->]. split; try done. cbn. split; [done|].
    split; [by constructor|done].
  - simplify_eq. split; try done. cbn. rewrite app_nil_r. specialize (Hlog eq_refl). rewrite Hlog in Hpr. cbn in Hpr.
    destruct Hpr as [Hc E]. split; [done|]. by rewrite E.
  - simplify_eq. by split.
  - destruct (Lifecycle.step _ _) as [w|] eqn:Hw; [|done]. cbn in Hs. simplify_eq.
    split; [by eapply Lifecycle.reachable_step|by eapply call_stop|done..].
  - destruct (Lifecycle.pc (leader_tracker p)) as [[[]|]| | | | | | | | | | | | | | |] eqn:Hpc; try done; simplify_eq;
      by split.
Qed.

Lemma log_step_ok tr p p' : log_step p = Some p' -> process_ok tr p -> process_ok tr p'.
Proof.
  intros Hs [Ht Hp Hsrv Hsig Hlog [Hc Hl] Hcap].
  assert (Hlog' : has_logger (phase p) = true).
  { destruct (has_logger (phase p)); [done|]. unfold log_step in Hs. by rewrite (Hlog eq_refl) in Hs. }
  unfold log_step in Hs. destruct (logger p) as [|last|last|] eqn:El; try done; simplify_eq; cbn in Hl; subst.
  - split; cbn; try done; [congruence|]. rewrite app_nil_r. split; [done|]. by destruct (shutdown_signal p).
  - split; cbn; try done; [congruence|]. destruct (Z.eqb_spec (Leader.current_slot (Lifecycle.buffer (leader_tracker p))) (List.last (printed p) 0)) as [E|Hne].
    + by rewrite app_nil_r, E.
    + rewrite changes_app, Hc, last_last. split; [|done]. by apply negb_true_iff, Z.eqb_neq.
Qed.

Lemma serves_app tr s i out s' :
  serves tr s -> serve i s = Some (out, s') -> next_request_id (core s') <> 0 -> serves (tr ++ out) s'.
Proof. apply service_more. Qed.

Lemma step_ok tr i p out p' :
  step i p = Some (out, p') -> ids_left p' -> process_ok tr p -> process_ok (tr ++ out) p'.
Proof.
  intros Hs Hids Hok. unfold process_step in Hs. destruct (over (phase p)) eqn:Ho; [done|].
  destruct i as [|ok| |e|i|].
  - destruct (main_step p) as [q|] eqn:Hm; [|done]. cbn in Hs. simplify_eq. rewrite app_nil_r. by eapply main_step_ok.
  - destruct (phase p) eqn:Hph; try done. simplify_eq. rewrite app_nil_r. destruct Hok as [Ht Hp Hsrv Hsig Hlog Hpr Hcap].
    rewrite Hph in *. by destruct ok; split.
  - destruct (phase p) eqn:Hph; try done. simplify_eq. rewrite app_nil_r. destruct Hok as [Ht Hp Hsrv Hsig Hlog Hpr Hcap].
    rewrite Hph in *. by split.
  - assert (He : is_call e = false /\ exists w, Lifecycle.step e (leader_tracker p) = Some w /\ out = [] /\ p' = with_tracker w p).
    { destruct e; try done; (destruct (Lifecycle.step _ (leader_tracker p)) as [w|]; [|done]); cbn in Hs; simplify_eq; by eauto. }
    destruct He as (He & w & Hw & -> & ->). rewrite app_nil_r. destruct Hok as [Ht Hp Hsrv Hsig Hlog Hpr Hcap].
    split; try done; [by eapply Lifecycle.reachable_step|]. cbn. by eapply tracker_step_ok.
  - assert (Hi : i <> Shutdown /\ exists s s', server p = Some s /\ serve i s = Some (out, s') /\ p' = with_server s' p).
    { destruct i; try done; (destruct (server p) as [s|]; [|done]); cbn [mbind option_bind] in Hs;
        (destruct (serve _ s) as [[o s']|] eqn:E; [|done]); cbn in Hs; simplify_eq; by eauto 8. }
    destruct Hi as (Hi & s & s' & Es & Hsv & ->). destruct Hok as [Ht Hp Hsrv Hsig Hlog Hpr Hcap]. rewrite Es in Hsrv.
    destruct Hsrv as (Hph & Hr & Hf). split; try done. cbn. split; [done|].
    split; [by eapply serves_app|]. by rewrite (serve_flag i s out s' Hsv Hi).
  - destruct (log_step p) as [q|] eqn:Hl; [|done]. cbn in Hs. simplify_eq. rewrite app_nil_r. by eapply log_step_ok.
Qed.

Lemma runs_ok tr p : runs tr p -> process_ok tr p.
Proof.
  induction 1 as [|tr p i out p' _ IH Hs Hids]; [|by eapply step_ok].
  split; try done. apply Lifecycle.reachable_new.
Qed.

(** ** Stopping *)

(** [main] and the tracker are at work, not the server or the printing thread. *)
Definition stops (i : process_input) : bool := match i with PMain | PTracker _ => true | _ => false end.

Lemma stopping_can tr p :
  process_ok tr p -> phase p = StoppingTracker ->
  exists i out p', stops i = true /\ step i p = Some (out, p') /\
    (Lifecycle.waits_for_network (leader_tracker p) = false -> forall e, i = PTracker e -> Lifecycle.is_net e = false).
Proof.
  intros [_ Hp _ _ _ _] Hph. rewrite Hph in Hp. cbn in Hp.
  destruct (Lifecycle.in_stop (leader_tracker p)) eqn:Hin.
  - destruct (Lifecycle.stop_progress _ Hin) as (e & w & Hw & Hn). exists (PTracker e). unfold process_step. rewrite Hph. cbn [over].
    destruct e; rewrite ?Hw; try (by eexists _, _; split_and!; [done|done|intros Hf e [= <-]; by apply Hn]).
    all: exfalso; cbn in Hw; unfold Lifecycle.in_stop, Lifecycle.joining in Hin; by destruct (Lifecycle.pc (leader_tracker p)).
  - exists PMain. unfold process_step, main_step. rewrite Hph. cbn [over].
    unfold Lifecycle.in_stop, Lifecycle.joining in Hin. destruct (Lifecycle.pc (leader_tracker p)) eqn:Hpc; try done.
    by eexists _, _.
Qed.

Lemma stopping_nearer tr i p out p' :
  process_ok tr p -> phase p = StoppingTracker -> Lifecycle.joining (leader_tracker p) = true -> step i p = Some (out, p') ->
  phase p' = StoppingTracker /\
  ((if stops i then 1 else 0) + Lifecycle.remaining (leader_tracker p') <= Lifecycle.remaining (leader_tracker p))%nat.
Proof.
  intros [Ht _ _ _ _ _] Hph Hj Hs. unfold process_step in Hs. rewrite Hph in Hs. cbn [over] in Hs.
  destruct i as [|ok| |e|i|]; try done.
  - exfalso. unfold main_step in Hs. rewrite Hph in Hs. unfold Lifecycle.joining in Hj.
    by destruct (Lifecycle.pc (leader_tracker p)).
  - assert (He : exists w, Lifecycle.step e (leader_tracker p) = Some w /\ p' = with_tracker w p).
    { destruct e; try done; (destruct (Lifecycle.step _ (leader_tracker p)) as [w|]; [|done]); cbn in Hs; simplify_eq; by eauto. }
    destruct He as (w & Hw & ->). split; [done|]. cbn [stops leader_tracker with_tracker]. apply Lifecycle.reachable_inv in Ht.
    pose proof (Lifecycle.remaining_decreases e _ w Ht Hj Hw). lia.
  - destruct i; try done; (destruct (server p); [|done]); cbn [mbind option_bind] in Hs;
      (destruct (service_step _ _ _ _ _ _ _) as [[o s']|]; [|done]); cbn in Hs; by simplify_eq.
  - destruct (log_step p) as [q|] eqn:Hl; [|done]. cbn in Hs. simplify_eq. unfold log_step in Hl.
    destruct (logger p); try done; by simplify_eq.
Qed.

(** C31. The process starts and stops its parts in order.  In every state of every run
    of [main] with its threads, up to the wrap-around of the request ids: from the
    warm-up until [stop] is called the tracker is started and running; the server
    exists exactly from its spawn on, is never told to shut down, and has run as the
    server model does; when [main] has returned, or has exited because the tracker
    did not start, no thread of the tracker is alive; every slot that is printed
    differs from the one before it.  While [main] stops the tracker some step of the
    two is always possible, without the network unless the websocket thread waits for
    it, and once the flags are cleared at most [remaining] such steps are left before
    [stop] returns, whatever server and printing thread do meanwhile. *)
Theorem process_in_order tr p :
  runs tr p ->
  (tracking (phase p) = true ->
     Lifecycle.subscriber (leader_tracker p) = true /\ Lifecycle.running (leader_tracker p) = true) /\
  (has_server (phase p) = true <-> is_Some (server p)) /\
  (forall s, server p = Some s -> Service.shutdown s = false /\ exists a, server_reaches tr a /\ implements a s) /\
  (phase p = Done \/ phase p = Failed ->
     Lifecycle.alive (Lifecycle.ws (leader_tracker p)) = false /\
     Lifecycle.alive (Lifecycle.sub (leader_tracker p)) = false /\
     Lifecycle.alive (Lifecycle.tracker (leader_tracker p)) = false /\
     Lifecycle.alive (Lifecycle.refresh_task (leader_tracker p)) = false) /\
  changes 0 (printed p) = true /\
  (phase p = StoppingTracker ->
     (exists i out p', stops i = true /\ step i p = Some (out, p') /\
        (Lifecycle.waits_for_network (leader_tracker p) = false -> forall e, i = PTracker e -> Lifecycle.is_net e = false)) /\
     (Lifecycle.joining (leader_tracker p) = true -> forall i out p', step i p = Some (out, p') ->
        phase p' = StoppingTracker /\
        ((if stops i then 1 else 0) + Lifecycle.remaining (leader_tracker p') <= Lifecycle.remaining (leader_tracker p))%nat)).
Proof.
  intros Hok%runs_ok. pose proof Hok as [Ht Hp Hsrv _ _ [Hc _]].
  split; [|split; [|split; [|split; [|split]]]].
  - intros Htr. unfold phase_ok in Hp. rewrite Htr in Hp. by apply Lifecycle.started_owned.
  - destruct (server p) as [s|]; [destruct Hsrv as [-> _]|destruct Hsrv as [-> _]]; by split.
  - intros s Es. rewrite Es in Hsrv. destruct Hsrv as (_ & Hr & Hf). split; [done|]. by eapply service_simulated.
  - assert (Hd : phase p = Done \/ phase p = Failed -> exists o, Lifecycle.pc (leader_tracker p) = Lifecycle.Idle (Some o) /\
      o <> Lifecycle.Started /\ o <> Lifecycle.AlreadyRunning).
    { intros [E|E]; rewrite E in Hp; [|exact Hp]. exists Lifecycle.Stopped. by split. }
    intros (o & Hpc & H1 & H2)%Hd. by eapply Lifecycle.unowned_dead; [exact Ht|exact Hpc|eapply Lifecycle.idle_unowned].
  - exact Hc.
  - intros Hph. split; [by eapply stopping_can|]. intros Hj i out p' Hs. by eapply stopping_nearer.
Qed.

End spec.

(** ** A run *)

Abbreviation demo_step := (process_step tt demo_from_value demo_from_slice demo_to_vec 64).
Abbreviation demo_process := (process_reaches tt demo_from_value demo_from_slice demo_to_vec 64).

Definition ids_leftb (p : Process (Value := unit)) : bool :=
  match server p with Some s => negb (next_request_id (core s) =? 0) | None => true end.

Fixpoint checked_process (inputs : list process_input) (p : Process (Value := unit)) : option (list (event (Value := unit)) * Process) :=
  match inputs with
  | [] => Some ([], p)
  | i :: inputs =>
      '(out, p) ← demo_step i p;
      if ids_leftb p then '(out', p) ← checked_process inputs p; Some (out ++ out', p) else None
  end.

Lemma checked_process_reaches inputs : forall tr p out p',
  demo_process tr p -> checked_process inputs p = Some (out, p') -> demo_process (tr ++ out) p'.
Proof.
  induction inputs as [|i inputs IH]; intros tr p out p' Hp Hr; cbn [checked_process] in Hr.
  { simplify_eq. by rewrite app_nil_r. }
  destruct (demo_step i p) as [[o p1]|] eqn:Hstep; [|done]. cbn [mbind option_bind] in Hr.
  destruct (ids_leftb p1) eqn:Hi; [|done].
  destruct (checked_process inputs p1) as [[o' p2]|] eqn:Hr2; [|done]. cbn [mbind option_bind] in Hr. simplify_eq.
  rewrite app_assoc. apply (IH _ p1); [|exact Hr2]. eapply process_more; [exact Hp|exact Hstep|].
  unfold ids_leftb, ids_left in *. destruct (server p1); [|done]. by apply negb_true_iff, Z.eqb_neq in Hi.
Qed.

(** The end of a run from the start, reached when it does not break off. *)
Definition process_end (inputs : list process_input) : list (event (Value := unit)) * Process :=
  default ([], process_new) (checked_process inputs process_new).

Lemma process_end_reached inputs :
  bool_decide (is_Some (checked_process inputs process_new)) = true ->
  demo_process (process_end inputs).1 (process_end inputs).2.
Proof.
  intros [[out p] E]%bool_decide_eq_true. unfold process_end. rewrite E.
  exact (checked_process_reaches inputs [] process_new out p (process_start _ _ _ _ 64 eq_refl) E).
Qed.

(** The tracker starts as in [Lifecycle.session]; then the warm-up, the server, and
    one client whose request reaches the queue; then Ctrl-C. *)
Definition demo_main : list process_input :=
  PMain :: (PTracker <$> tail Lifecycle.session) ++ replicate 1003 PMain ++ [PCreated true; PMain; PMain].
Definition demo_request_queued : list process_input := PServer <$> (demo_connect 1 ++ demo_loops 2).
Definition demo_ctrl_c : list process_input :=
  [PLogger; PLogger; PCtrlC; PMain; PMain] ++ (PTracker <$> (tail Lifecycle.to_join ++ Lifecycle.joins)) ++ [PMain].

Definition demo_end_state : list (event (Value := unit)) * Process := process_end (demo_main ++ demo_request_queued ++ demo_ctrl_c).

Lemma demo_end_reached : demo_process demo_end_state.1 demo_end_state.2.
Proof. apply process_end_reached. vm_compute. reflexivity. Qed.

Lemma process_in_order_witness :
  phase demo_end_state.2 = Done /\ printed demo_end_state.2 = [5] /\
  Lifecycle.alive (Lifecycle.tracker (leader_tracker demo_end_state.2)) = false /\
  exists s a, server demo_end_state.2 = Some s /\ Service.shutdown s = false /\ implements a s /\
    reaches tt demo_from_value demo_from_slice demo_to_vec demo_end_state.1 a.
Proof.
  assert (Hd : phase demo_end_state.2 = Done) by (vm_compute; reflexivity).
  destruct (process_in_order tt demo_from_value demo_from_slice demo_to_vec 64 _ _ demo_end_reached)
    as (_ & Hex & Hsrv & Hdead & _ & _).
  split; [exact Hd|]. split; [vm_compute; reflexivity|]. split; [apply Hdead; by left|].
  destruct (proj1 Hex ltac:(vm_compute; reflexivity)) as [s Hs]. destruct (Hsrv s Hs) as (Hf & a & Ha & Hi).
  exists s, a. split; [exact Hs|]. split; [exact Hf|]. split; [exact Hi|exact Ha].
Defined.

(** A request waits in the queue and its connection for the answer. *)
Definition unanswered (p : Process (Value := unit)) : bool :=
  match server p with
  | Some s =>
      (length (requests (core s)) =? 1)%nat &&
      match pool_get 0 (pool (core s)) with Some c => bool_decide (is_Some (pending_request_id c)) | None => false end
  | None => false
  end.

(** Nobody tells the server: a request it has read, and that waits in the queue when
    Ctrl-C comes, is neither sent nor answered. *)
Theorem exit_drops_requests :
  exists tr p, demo_process tr p /\ phase p = Done /\ unanswered p = true /\ forall i, demo_step i p = None.
Proof.
  exists demo_end_state.1, demo_end_state.2.
  assert (Hd : phase demo_end_state.2 = Done) by (vm_compute; reflexivity).
  split; [exact demo_end_reached|]. split; [exact Hd|]. split; [vm_compute; reflexivity|].
  intros i. unfold process_step. by rewrite Hd.
Qed.
